(* ===== verification/_CoqProject ===== *)
-Q . S2P
Prelude.v
Shared.v
Lifecycle.v
Envelope.v
MemStore.v
MemAdmit.v
MemInv.v
MemLease.v
Graph.v
Workflow.v
WorkflowSpec.v
Core.v
Tick.v
TickSpec.v
Coordinator.v
Operators.v
CoordSpec.v
Table.v
CoordTheorems.v
Breaker.v
ScheduleSpec.v
Scheduler.v
Steps.v
StepsSpec.v
Attempt.v
Worker.v
WorkerSpec.v
Pool.v
PoolSpec.v
Duties.v
Registry.v
Client.v
ClientSpec.v
Bus.v
Sqlite.v
SqliteInspect.v
SqliteRows.v
SqliteSpec.v
SqliteAdmit.v
SqliteType.v
SqliteEnqueue.v
SqliteLive.v
SqlitePorts.v
Console.v
Api.v
SqliteReads.v
ApiSpec.v
ApiSqlite.v
SqlText.v
Migrate.v
MigrateDb.v
MigrateSpec.v
Text.v
Crypto.v
Log.v
Stuck.v
Isolated.v
