(* ===== verification/Prelude.v ===== *)
(** * Headgate: a verification library

    Headgate is a durable job queue.  Producers enqueue _envelopes_ through a client; a store
    admits them to workers under rate, concurrency and fairness policies and hands out a
    _lease_ with a _fence_ for each claim; a worker runs the handler, renews its leases and
    acknowledges the outcome; sweeps reclaim expired leases, promote due jobs, evict lapsed
    ones and fire schedules; a workflow is a graph of jobs advanced by a coordinator, itself a
    job.  The store is a port ([trait Store], [trait Inspect]) with several adapters; the
    in-memory adapter of [headgate-testkit] is the executable reference of its semantics.

    This library models the Rust crates under [crates/] as executable definitions and proves
    the properties the code relies on.  A definition keeps the name of the function it
    translates, or says in its comment which it is.

    ** Files and the code they model

    - [Prelude]: machine integers ([u32], [u64], [i64] with their wrap-around and saturation),
      durations, the error monad [result], record update, lists, the hint databases and
      tactics of the library.
    - [Shared] ([headgate-shared/src/lib.rs]): outcomes, defaults, validation helpers,
      the admission explainer, checkpoints, the value level of the JSON codec.
    - [Lifecycle], [Envelope], [Core] ([headgate-core/src/lib.rs]): the transition tables; the
      envelope with its keys, fingerprints, boundary validation and claim grouping; trace
      context, capabilities, policy data and admission explanations.
    - [MemStore] ([headgate-testkit/src/lib.rs]): the in-memory store, every operation, and
      the step relation of all of them.  [MemAdmit] is about admission, [MemInv] about the
      store's invariant, [MemLease] about leases, outcomes and uniqueness over time.
    - [Graph], [Workflow], [WorkflowSpec], [Tick], [TickSpec], [Coordinator], [Operators],
      [CoordSpec], [Table], [CoordTheorems] ([headgate-workflow/src/lib.rs]): the acyclicity
      check; building, validating and preparing workflows, grafts and bundles; the decisions
      of a coordinator tick; the coordinator's handler, retries, grafts and child links; the
      operator requests.  The effectful part runs over a type class for the [Inspect] port
      with its documented laws; [Table] is a store that satisfies them.
    - [Breaker] ([headgate/src/circuit_breaker.rs]), [ScheduleSpec] ([schedule_spec.rs]),
      [Scheduler] ([scheduler.rs]): the producer's circuit breaker, schedule specifications
      and the leaderless scheduler sweep.
    - [Steps], [StepsSpec], [Attempt] ([ctx.rs], [log.rs], [tracked.rs]): durable steps and
      their replay across crashes; what one attempt carries; its tracked children.
    - [Worker], [WorkerSpec] ([worker.rs], [death_handler.rs]): [process_one], one claim from
      dispatch to acknowledgement and announcement.
    - [Pool], [PoolSpec], [Duties] ([worker.rs]): the worker's loop as a transition system,
      its shutdown, and the singleton duties.
    - [Registry] ([lib.rs]): typed dispatch and the batch handlers' queue.
    - [Client], [ClientSpec] ([client.rs], [enqueue_middleware.rs], [insert_hook.rs],
      [plugin.rs]): the producer's client with middleware, hooks and plugins.
    - [Bus] ([subscription.rs], [client.rs]): the event bus and insert-and-await.
    - [Sqlite], [SqliteInspect] ([headgate-sqlite/src/lib.rs], [inspect.rs],
      [migrations/0001_init.sql]): the SQLite adapter; a table is a finite map, a statement the
      function its text denotes, an operation a function from the database to the database it
      commits.  [SqliteRows] classifies what an operation can do to one row, [SqliteSpec] is
      about leases, outcomes and reclaiming, [SqliteAdmit] about admission, [SqliteType] about
      the schema's invariant, [SqliteEnqueue] about enqueueing, [SqliteLive] holds runs of the
      adapter on concrete databases, and [SqlitePorts] makes it an instance of the ports the
      worker, the client and the coordinator are proved against.
    - [Console], [Api], [SqliteReads], [ApiSpec], [ApiSqlite] ([headgate-core/src/lib.rs],
      [headgate-api/src/lib.rs], [headgate-sqlite/src/inspect.rs]): the inspection port, the
      control API on it (extractors, middlewares, handlers, search grammar, pages), the
      statistics reads of the SQLite adapter and the API running over that adapter.
    - [SqlText] ([headgate-sql/src/lib.rs]): namespaces, quoting and the qualification of SQL
      statements.  [Migrate], [MigrateDb], [MigrateSpec] ([headgate-migrate/src/]): the
      embedded versions, histories and plans; the migrators of PostgreSQL and MySQL over a
      server that is a parameter; their theorems.
    - [Text]: the standard library's slices, character boundaries and UTF-8.  [Crypto]
      ([headgate-crypto/src/lib.rs]): encrypted payloads.  [Log] ([headgate-shared/src/log.rs],
      [headgate/src/log.rs]): structured log records.  [Stuck] ([stuck_handler.rs]): the
      liveness count of an attempt, who adds to it, and the watch on it.  [Isolated] ([isolated.rs]): handlers
      in a child process.

    ** How the code is represented

    A function is a function; a fallible one returns [result] with the code's error type and
    message; a stateful one takes and returns its state.  Operations of the in-memory store
    run under one mutex, so each is one function on the store's contents ([Inner]); an
    operation that fails after it has changed something keeps the change, as in the code.
    Integers have their width, with wrapping ([wrap_u32], [u64_add], ...), saturating or
    checked arithmetic as written in the source.  A [HashMap] is a [gmap]; where the code
    iterates one, the order is an argument, and theorems hold for every order.  Traits that
    connect components are type classes ([WorkerStore], [ControlStore], [SweepStore],
    [ProducerStore], the [Inspect] port): clients are proved against the class, and the
    in-memory store or a table of jobs is an instance.  Concurrency is interleaving: the arms
    of the worker's [select!] and its spawned tasks are steps of [pool_step], where a heartbeat
    and the release at the drain's deadline let other processes change the store between any
    two of their calls ([others]) and the deadline is a reading of the clock; concurrent
    producers are sequences of calls under the breaker's lock, the batch queue's callers,
    timers, aborts of timers and cancellations are steps of [batch_step], racing nodes of the scheduler
    interleave at port calls, the two writes of a liveness update are separate steps of
    [live_step], and crashes of a job attempt are scripts that run out.

    Third-party code is a parameter: SHA-256, AES-GCM, base64, the CEL compiler and interpreter, the [cron] and
    [chrono-tz] crates, serde's text encoders, floating-point scaling of durations, clocks.
    What a theorem needs of it is a named hypothesis, discharged in the theorem's witness.

    ** What the theorems show

    - The state machine: terminal states only leave by operator action, and attempt and crash
      budgets bound a job's retries and lost leases; snoozes are free ([Lifecycle]).
    - The store: admission never overdraws a rate bucket or a concurrency limit, claims only
      eligible jobs, and leaves no admissible job unclaimed while there is capacity; an ack
      applies the transition table; a settled or superseded lease is never honoured again; the
      uniqueness index names exactly live jobs; enqueue is all-or-nothing; every operation
      preserves well-formedness ([MemAdmit], [MemInv], [MemLease], [Envelope]).
    - The SQLite adapter keeps the same contract: a lease is exclusive and final, an ack applies
      the transition table, admission stays within its rate classes, limits and capacity and
      hands out claims its own ack honours, reclaiming touches exactly the expired rows,
      enqueueing is all-or-nothing, operators follow the lifecycle table, and every reachable
      database satisfies the declared columns ([SqliteSpec], [SqliteAdmit], [SqliteType],
      [SqliteEnqueue], [SqlitePorts]).
    - The worker: an attempt settles at most once; what it announces is what the store holds;
      the loop never exceeds its capacity, admits nothing from a command to stop until one to
      resume, drops lost leases without acknowledging them; a drain takes at most one step per
      task and one more, and from its deadline on hands the jobs left back for free;
      duties run only under their lease and never delete or quarantine silently ([WorkerSpec],
      [PoolSpec], [Duties]).
    - Handlers: steps run in order and at most once per accepted checkpoint across crashes;
      batch members are dispatched at most once, by a timer that is alive as long as somebody
      waits, and each gets its own outcome ([StepsSpec], [Registry]).
    - Producers: authorisation, breaker and hooks hold under any middleware, and nothing gets
      through an open circuit; the breaker's
      half-open state never exceeds its probe budget; the bus accounts for every event; an
      awaited completion is grounded in a read of the store ([ClientSpec], [Breaker], [Bus]).
    - Workflows: the validators accept exactly the well-formed acyclic graphs; what [prepare]
      builds is accepted by its coordinator; the failed set and the completion evidence are
      the least closures; a tick changes exactly what its plan says and an idle tick waits for
      the outside; the persisted cursor keeps its progress and moves by one accepted
      request at a time; cancellation reaches exactly the linked
      workflows ([WorkflowSpec], [TickSpec], [CoordSpec], [CoordTheorems]).
    - The control API: a read-only server, a request without an Idempotency-Key and a GET
      change nothing; a repeated POST joins the first live job; the pages of a list cover it;
      a filter survives the search text ([ApiSpec], [ApiSqlite]).
    - Migrations: a plan is exactly the versions between history and target; on PostgreSQL the
      recorded versions match the schema under any interleaving and interruption, and up then
      down returns to the version; on MySQL an interrupted upgrade keeps a history of complete
      versions, and the next run completes it or stops where the server rejects a statement it
      has executed before.  [installed c s], that a schema counts as a version, is a parameter:
      a version has several schemas where a down script leaves something behind.  Statements
      are qualified without touching anything but names ([Migrate], [MigrateSpec], [SqlText]).
    - Payloads and attempts: an encrypted payload opens to what was sealed, and only for the
      job it was sealed for; after its grace period the stuck watch reports exactly the
      attempts that still run; an
      isolated job succeeds exactly when its child says so within its bounds; every log record
      is written within 2048 bytes and reads back, and plain text cannot forge one ([Crypto],
      [Stuck], [Isolated], [Log]).
    - Schedules: due ticks are exactly the latest ones within the scan, and a sweep never
      advances past a tick it has not enqueued ([ScheduleSpec], [Scheduler]).

    Lemmas next to the theorems record where the code departs from its own documentation:
    [refused_snooze_still_reconciles], [in_batch_duplicate_keys_both_stored],
    [dow_translation_gaps], [long_outage_fires_a_stale_tick], [rolled_back_step_is_recorded],
    [released_job_is_announced_completed], [command_between_beat_and_ack_is_lost],
    [draining_never_renews], [unique_window_wraps_negative], [lost_event_times_out],
    for the SQLite adapter the lemmas of [SqliteLive], and for the control API
    [finished_key_is_free], [pending_key_is_free], [opaque_keys_collide] and
    [head_is_refused_when_read_only], for the migrations [first_version_cut_short] and
    [split_reencodes], for the stuck watch [watch_can_miss_the_end] and
    [watch_can_miss_a_late_child].

    ** Bounds and fuel

    Loops that are not structural carry the bound the source has: 1,001 rounds of the
    cancellation traversal (the source refuses a thousand-and-first workflow), 10,000
    successors in [due_ticks] ([tick_loop]) and 100,000 wall-clock candidates
    ([MAX_WALL_CANDIDATES], [wall_loop]).  The closures of a tick ([fail_loop],
    [evidence_loop]) iterate once per node; the theorems about them prove that the iteration
    has then reached its fixed point.  The loop that shortens a log record ([settle]) has one
    turn per field and byte of its message; its theorem proves that it ends.  Everything else is structural recursion.

    ** Not modelled

    The PostgreSQL, MySQL and Redis adapters.  They implement the port that the in-memory store
    and the SQLite adapter implement here, but their operations are not serial: statements of
    many connections interleave under a server's isolation levels and row locks ([SKIP LOCKED]),
    and Redis runs Lua scripts, so a model needs the semantics of those servers.  The API's live
    event stream, which forwards a server's wakeup notifications to a socket.  serde, tokio's
    scheduler and timers, telemetry exporters
    ([headgate-otel], [headgate-prometheus]), the protobuf schema, the macros, the console's
    assets and the command-line binaries: generated code, third-party code or I/O.  Floating
    point ([time_to_drain_ms], utilisation ratios). *)

From stdpp Require Export prelude strings gmap sorting pretty.
From Stdlib Require Export ZArith Lia Ascii.

(** ** Early-return results

    [Result<T, E>] of the source, with the [?] operator as [let?]. *)

Inductive result (A E : Type) : Type :=
  | Ok (a : A)
  | Err (e : E).
Arguments Ok {A E} a.
Arguments Err {A E} e.

Declare Scope rust_scope.
Delimit Scope rust_scope with rust.
Open Scope rust_scope.

Notation "'let?' x ':=' c 'in' k" :=
  (match c with Ok x => k | Err e => Err e end)
  (at level 10, x pattern, c at level 200, k at level 200) : rust_scope.

Definition is_ok {A E} (r : result A E) : bool :=
  match r with Ok _ => true | Err _ => false end.

Lemma is_ok_true {A E} (r : result A E) : is_ok r = true ↔ ∃ a, r = Ok a.
Proof. destruct r; simpl; split; [eauto|done|done|intros [? ?]; discriminate]. Qed.

(** ** Record update

    [Eta R] is the eta-expansion of a record; from it the setter of any projection is
    computed, so that [r <| p := v |>] reads as the source's field assignment. *)

Class Eta (R : Type) := eta : R → R.
Class Setter {R T : Type} (p : R → T) := upd : (T → T) → R → R.
Arguments upd {R T} p {_} _ _ : simpl never.

Ltac solve_setter :=
  match goal with
  | |- @Setter ?R ?T ?p =>
      let i := constr:(_ : Eta R) in
      let f := fresh "f" in let r := fresh "r" in
      unfold Setter; intros f r;
      let b := eval hnf in (@eta R i r) in
      match eval pattern (p r) in b with
      | ?g _ => let b' := eval cbv beta in (g (f (p r))) in exact b'
      end
  end.

#[export] Hint Extern 1 (Setter _) => solve_setter : typeclass_instances.

Notation "r <| p := v |>" := (upd p (λ _, v) r)
  (at level 1, left associativity, p at level 10, v at level 200,
   format "r  <| p  :=  v |>") : rust_scope.

(** ** Machine integers

    Integers of the source are [Z] with the width written out.  [wrap_*] is the
    two's-complement reduction of a release build; [saturating_*] and [checked_*] are
    the operations of the same names. *)

Definition i64_max : Z := 2 ^ 63 - 1.
Definition i64_min : Z := - 2 ^ 63.
Definition u32_max : Z := 2 ^ 32 - 1.
Definition u64_max : Z := 2 ^ 64 - 1.

Definition in_i64 (z : Z) : Prop := (i64_min ≤ z ≤ i64_max)%Z.
Definition in_u32 (z : Z) : Prop := (0 ≤ z ≤ u32_max)%Z.
Definition in_u64 (z : Z) : Prop := (0 ≤ z ≤ u64_max)%Z.

Definition wrap_u32 (z : Z) : Z := (z mod 2 ^ 32)%Z.
Definition wrap_u64 (z : Z) : Z := (z mod 2 ^ 64)%Z.
Definition wrap_i64 (z : Z) : Z := ((z + 2 ^ 63) mod 2 ^ 64 - 2 ^ 63)%Z.

Definition u32_add (a b : Z) : Z := wrap_u32 (a + b).
Definition u64_add (a b : Z) : Z := wrap_u64 (a + b).
Definition i64_add (a b : Z) : Z := wrap_i64 (a + b).
Definition i64_sub (a b : Z) : Z := wrap_i64 (a - b).
Definition i64_mul (a b : Z) : Z := wrap_i64 (a * b).

(** Rust's [/] truncates towards zero. *)
Definition i64_div (a b : Z) : Z := wrap_i64 (Z.quot a b).

Definition u32_saturating_add (a b : Z) : Z := Z.min u32_max (a + b).
Definition u32_saturating_sub (a b : Z) : Z := Z.max 0 (a - b).
Definition u64_saturating_sub (a b : Z) : Z := Z.max 0 (a - b).
Definition u64_saturating_add (a b : Z) : Z := Z.min u64_max (a + b).
Definition i64_saturating_sub (a b : Z) : Z := Z.max i64_min (Z.min i64_max (a - b)).

Definition u32_checked_add (a b : Z) : option Z :=
  if (a + b <=? u32_max)%Z then Some (a + b)%Z else None.
Definition u64_checked_add (a b : Z) : option Z :=
  if (a + b <=? u64_max)%Z then Some (a + b)%Z else None.
Definition i64_checked_add (a b : Z) : option Z :=
  if ((i64_min <=? a + b) && (a + b <=? i64_max))%Z then Some (a + b)%Z else None.

Ltac unfold_ints :=
  unfold u32_add, u64_add, i64_add, i64_sub, i64_mul, i64_div, u32_saturating_add,
    u32_saturating_sub, u64_saturating_sub, u64_saturating_add, i64_saturating_sub,
    in_i64, in_u32, in_u64, i64_max, i64_min, u32_max, u64_max in *.

(** [lia] after division and remainder have been turned into their defining equations. *)
Ltac div_lia := Z.to_euclidean_division_equations; lia.

Lemma wrap_u32_id z : in_u32 z → wrap_u32 z = z.
Proof. unfold in_u32, wrap_u32, u32_max. intros. apply Z.mod_small. lia. Qed.

Lemma wrap_u64_id z : in_u64 z → wrap_u64 z = z.
Proof. unfold in_u64, wrap_u64, u64_max. intros. apply Z.mod_small. lia. Qed.

Lemma wrap_i64_id z : in_i64 z → wrap_i64 z = z.
Proof.
  unfold in_i64, wrap_i64, i64_max, i64_min. intros. rewrite Z.mod_small by lia. lia.
Qed.

Lemma wrap_i64_range z : in_i64 (wrap_i64 z).
Proof.
  unfold in_i64, wrap_i64, i64_max, i64_min.
  pose proof (Z.mod_pos_bound (z + 2 ^ 63) (2 ^ 64) ltac:(lia)). lia.
Qed.

Lemma i64_add_id a b : in_i64 (a + b) → i64_add a b = (a + b)%Z.
Proof. apply wrap_i64_id. Qed.
Lemma i64_sub_id a b : in_i64 (a - b) → i64_sub a b = (a - b)%Z.
Proof. apply wrap_i64_id. Qed.
Lemma i64_mul_id a b : in_i64 (a * b) → i64_mul a b = (a * b)%Z.
Proof. apply wrap_i64_id. Qed.

(** ** Bytes and strings

    A Rust [String] is its UTF-8 bytes, a [Vec<u8>] its bytes: both are [string], whose
    characters are the 256 byte values; [len] is the byte length. *)

Abbreviation bytes := string (only parsing).
Definition str_len (s : string) : Z := Z.of_nat (String.length s).

Fixpoint str_forall (p : ascii → bool) (s : string) : bool :=
  match s with
  | EmptyString => true
  | String c s => p c && str_forall p s
  end.

Fixpoint str_exists (p : ascii → bool) (s : string) : bool :=
  match s with
  | EmptyString => false
  | String c s => p c || str_exists p s
  end.

Definition byte_val (c : ascii) : Z := Z.of_N (N_of_ascii c).
Definition is_ascii (s : string) : bool := str_forall (λ c, byte_val c <? 128)%Z s.
Definition is_ascii_digit (c : ascii) : bool := ((48 <=? byte_val c) && (byte_val c <=? 57))%Z.
Definition is_ascii_upper (c : ascii) : bool := ((65 <=? byte_val c) && (byte_val c <=? 90))%Z.
Definition is_ascii_lower (c : ascii) : bool := ((97 <=? byte_val c) && (byte_val c <=? 122))%Z.
Definition is_ascii_alphanumeric (c : ascii) : bool :=
  is_ascii_digit c || is_ascii_upper c || is_ascii_lower c.

Definition byte_of (z : Z) : ascii := ascii_of_N (Z.to_N (z mod 256)).
Definition str1 (c : ascii) : string := String c EmptyString.

(** [to_be_bytes] and [to_le_bytes] of a [u32]. *)
Definition be32 (n : Z) : string :=
  String (byte_of (n / 2 ^ 24)) (String (byte_of (n / 2 ^ 16))
    (String (byte_of (n / 2 ^ 8)) (str1 (byte_of n)))).
Definition le32 (n : Z) : string :=
  String (byte_of n) (String (byte_of (n / 2 ^ 8))
    (String (byte_of (n / 2 ^ 16)) (str1 (byte_of (n / 2 ^ 24))))).

Lemma byte_of_inj a b : (a mod 256 = b mod 256)%Z ↔ byte_of a = byte_of b.
Proof.
  unfold byte_of. split; [by intros ->|]. intros H.
  apply (f_equal N_of_ascii) in H.
  pose proof (Z.mod_pos_bound a 256 ltac:(lia)).
  pose proof (Z.mod_pos_bound b 256 ltac:(lia)).
  rewrite !N_ascii_embedding in H by lia. lia.
Qed.

Lemma u32_bytes a : in_u32 a →
  a = ((a / 2 ^ 24) mod 256 * 2 ^ 24 + (a / 2 ^ 16) mod 256 * 2 ^ 16
       + (a / 2 ^ 8) mod 256 * 2 ^ 8 + a mod 256)%Z.
Proof.
  unfold in_u32, u32_max. intros Ha.
  change (2 ^ 24)%Z with (2 ^ 16 * 256)%Z. change (2 ^ 16)%Z with (2 ^ 8 * 256)%Z.
  rewrite <-!Z.div_div by lia. change (2 ^ 8)%Z with 256%Z.
  remember (a / 256)%Z as q1 eqn:E1. remember (q1 / 256)%Z as q2 eqn:E2.
  remember (q2 / 256)%Z as q3 eqn:E3.
  pose proof (Z.div_mod a 256 ltac:(lia)). pose proof (Z.div_mod q1 256 ltac:(lia)).
  pose proof (Z.div_mod q2 256 ltac:(lia)).
  assert (0 ≤ q3 < 256)%Z as Hq3 by div_lia. rewrite (Z.mod_small q3) by done. lia.
Qed.

Lemma be32_inj a b : in_u32 a → in_u32 b → be32 a = be32 b → a = b.
Proof.
  intros Ha Hb H. unfold be32, str1 in H. injection H as H1 H2 H3 H4.
  apply byte_of_inj in H1, H2, H3, H4.
  rewrite (u32_bytes a Ha), (u32_bytes b Hb). by rewrite H1, H2, H3, H4.
Qed.

Lemma le32_inj a b : in_u32 a → in_u32 b → le32 a = le32 b → a = b.
Proof.
  intros Ha Hb H. unfold le32, str1 in H. injection H as H1 H2 H3 H4.
  apply byte_of_inj in H1, H2, H3, H4.
  rewrite (u32_bytes a Ha), (u32_bytes b Hb). by rewrite H1, H2, H3, H4.
Qed.

Lemma str_length_app s t : String.length (s +:+ t) = String.length s + String.length t.
Proof. induction s as [|c s IH]; [done|]. change (String c s +:+ t) with (String c (s +:+ t)). simpl. lia. Qed.

Lemma str_app_nil_r s : s +:+ "" = s.
Proof. induction s as [|c s IH]; [done|]. change (String c s +:+ "") with (String c (s +:+ "")). by rewrite IH. Qed.

Lemma str_app_cons c s t : String c s +:+ t = String c (s +:+ t).
Proof. done. Qed.

Lemma str_cons_inj c s t : String c s = String c t → s = t.
Proof. by intros [= ->]. Qed.

Lemma str_app_assoc s t u : (s +:+ t) +:+ u = s +:+ (t +:+ u).
Proof. induction s as [|c s IH]; [done|]. rewrite !str_app_cons. by rewrite IH. Qed.

Lemma str_app_inj_length s1 s2 t1 t2 :
  String.length s1 = String.length s2 → s1 +:+ t1 = s2 +:+ t2 → s1 = s2 ∧ t1 = t2.
Proof.
  revert s2. induction s1 as [|c s1 IH]; intros [|c' s2] Hl; try done.
  rewrite !str_app_cons. intros H. injection H as -> H.
  injection Hl as Hl. destruct (IH _ Hl H) as [-> ->]. done.
Qed.

Lemma str_forall_app p s t : str_forall p (s +:+ t) = str_forall p s && str_forall p t.
Proof. induction s as [|c s IH]; [done|]. rewrite str_app_cons. simpl. by rewrite IH, andb_assoc. Qed.

Lemma str_compare_refl s : String.compare s s = Eq.
Proof.
  pose proof (String.compare_antisym s s) as H. by destruct (String.compare s s).
Qed.

(** Lower-case hexadecimal, as [{:02x}] and [{:0wx}] print it. *)
Definition hex_digit (n : Z) : ascii :=
  if (n <? 10)%Z then byte_of (48 + n) else byte_of (87 + n).
Definition hex2 (n : Z) : string :=
  String (hex_digit (n / 16)) (str1 (hex_digit (n mod 16))).
Definition hex_val (c : ascii) : option Z :=
  let v := byte_val c in
  if is_ascii_digit c then Some (v - 48)%Z
  else if ((97 <=? v) && (v <=? 102))%Z then Some (v - 87)%Z
  else None.

Lemma hex_val_digit n : (0 ≤ n < 16)%Z → hex_val (hex_digit n) = Some n.
Proof.
  intros Hn.
  assert (n = 0 ∨ n = 1 ∨ n = 2 ∨ n = 3 ∨ n = 4 ∨ n = 5 ∨ n = 6 ∨ n = 7 ∨ n = 8 ∨ n = 9
    ∨ n = 10 ∨ n = 11 ∨ n = 12 ∨ n = 13 ∨ n = 14 ∨ n = 15)%Z as H by lia.
  by destruct_or! H; subst.
Qed.

Lemma hex_digit_val c n : hex_val c = Some n → (0 ≤ n < 16)%Z ∧ hex_digit n = c.
Proof. destruct c as [[] [] [] [] [] [] [] []]; intros H; inversion H; done. Qed.

(** ** Lists *)

(** [Vec::dedup]: drop consecutive repetitions. *)
Fixpoint dedup `{EqDecision A} (l : list A) : list A :=
  match l with
  | x :: ((y :: _) as r) => if decide (x = y) then dedup r else x :: dedup r
  | _ => l
  end.

Lemma elem_of_dedup `{EqDecision A} (l : list A) x : x ∈ dedup l ↔ x ∈ l.
Proof.
  induction l as [|a [|b l] IH]; [done|done|].
  cbn [dedup]. case_decide as E; [subst|]; rewrite ?elem_of_cons, IH, ?elem_of_cons; tauto.
Qed.

Section dedup.
Context `{EqDecision A} (R : relation A) `{!PartialOrder R}.

Lemma dedup_NoDup_Sorted (l : list A) :
  StronglySorted R l → NoDup (dedup l) ∧ StronglySorted R (dedup l).
Proof.
  induction l as [|a [|b l] IH]; intros Hs.
  - split; constructor.
  - split; [apply NoDup_singleton|done].
  - inversion Hs as [|? ? Hs' Hall]; subst. destruct (IH Hs') as [Hnd Hst].
    cbn [dedup]. case_decide as E; [done|].
    assert (∀ x, x ∈ dedup (b :: l) → x ∈ b :: l) as Hin
      by (intros x; by rewrite elem_of_dedup).
    rewrite Forall_forall in Hall. split.
    + apply NoDup_cons. split; [|done]. intros Hb%Hin.
      inversion Hs' as [|? ? _ Hbl]; subst. rewrite Forall_forall in Hbl.
      apply elem_of_cons in Hb as [?|Hb]; [congruence|].
      apply E, (anti_symm R); [apply Hall; set_solver|by apply Hbl].
    + constructor; [done|]. rewrite Forall_forall. intros x Hx. by apply Hall, Hin.
Qed.
End dedup.

(** [sort] then [dedup] on strings: the canonical list of a set of strings. *)
Definition sort_strings (l : list string) : list string := merge_sort String.le l.
Definition sort_dedup (l : list string) : list string := dedup (sort_strings l).

Lemma elem_of_sort_dedup l x : x ∈ sort_dedup l ↔ x ∈ l.
Proof.
  unfold sort_dedup, sort_strings. rewrite elem_of_dedup.
  pose proof (merge_sort_Permutation String.le l) as HP. by rewrite HP.
Qed.

Lemma sort_dedup_canonical l : NoDup (sort_dedup l) ∧ StronglySorted String.le (sort_dedup l).
Proof. apply dedup_NoDup_Sorted; [apply _|]. apply (StronglySorted_merge_sort _). Qed.

(** Two sorted duplicate-free lists with the same elements are equal. *)
Lemma sorted_nodup_unique l1 l2 :
  NoDup l1 → NoDup l2 → StronglySorted String.le l1 → StronglySorted String.le l2 →
  (∀ x, x ∈ l1 ↔ x ∈ l2) → l1 = l2.
Proof.
  intros Hn1 Hn2 Hs1 Hs2 Heq.
  apply (StronglySorted_unique String.le); [done|done|].
  by apply NoDup_Permutation.
Qed.

(** Indices and [Vec] scans. *)
Definition last_opt {A} (l : list A) : option A := last l.

Lemma foldl_inv {A B} (P : A → Prop) (f : A → B → A) l a :
  P a → (∀ a b, b ∈ l → P a → P (f a b)) → P (foldl f a l).
Proof.
  revert a. induction l as [|b l IH]; intros a Ha Hf; simpl; [done|].
  apply IH; [apply Hf; [set_solver|done]|]. intros a' b' Hb. apply Hf. set_solver.
Qed.

(** Case analysis on the boolean tests of a goal or hypothesis, with the integer and
    string comparisons turned into propositions. *)
Ltac bool_hyps :=
  repeat match goal with
  | H : context [(_ && _) = true] |- _ => rewrite andb_true_iff in H
  | H : context [(_ || _) = false] |- _ => rewrite orb_false_iff in H
  | H : negb _ = true |- _ => apply negb_true_iff in H
  | H : negb _ = false |- _ => apply negb_false_iff in H
  | H : Z.ltb _ _ = true |- _ => apply Z.ltb_lt in H
  | H : Z.ltb _ _ = false |- _ => apply Z.ltb_ge in H
  | H : Z.leb _ _ = true |- _ => apply Z.leb_le in H
  | H : Z.leb _ _ = false |- _ => apply Z.leb_gt in H
  | H : Z.eqb _ _ = true |- _ => apply Z.eqb_eq in H
  | H : Z.eqb _ _ = false |- _ => apply Z.eqb_neq in H
  | H : String.eqb _ _ = true |- _ => apply String.eqb_eq in H
  | H : String.eqb _ _ = false |- _ => apply String.eqb_neq in H
  | H : _ ∧ _ |- _ => destruct H
  end.

Ltac case_if :=
  match goal with
  | |- context [if ?b then _ else _] => destruct b eqn:?
  end.

Ltac case_ltb :=
  match goal with
  | |- context [Z.ltb ?a ?b] => destruct (Z.ltb a b) eqn:?
  end.

Ltac case_if_in H :=
  match type of H with
  | context [if ?b then _ else _] => destruct b eqn:?
  end.

Create HintDb headgate discriminated.
#[export] Hint Resolve wrap_i64_range : headgate.
