(* ===== verification/Shared.v ===== *)
(** * headgate-shared: the portable vocabulary

    Models [crates/headgate-shared/src/lib.rs]: the outcome and missed-run enumerations
    with their wire spellings, the defaulting and validation helpers every backend calls,
    the admission explainer [evaluate_admission], checkpoints with their resumability
    decision, and the value level of the JSON codec ([serde_json]'s text printer and
    parser are third-party and stay outside). *)

From S2P Require Import Prelude.
Local Open Scope Z_scope.

(** ** Enumerations and their wire spellings *)

Module Outcome.
Inductive Outcome :=
  | Success | Retry | Skip | Revoke | Snooze | LeaseLost | Undecodable | RateLimited.
End Outcome.

#[export] Instance outcome_eq_dec : EqDecision Outcome.Outcome.
Proof. solve_decision. Defined.

Definition outcome_as_str (o : Outcome.Outcome) : string :=
  match o with
  | Outcome.Success => "success"
  | Outcome.Retry => "retry"
  | Outcome.Skip => "skip"
  | Outcome.Revoke => "revoke"
  | Outcome.Snooze => "snooze"
  | Outcome.LeaseLost => "lease_lost"
  | Outcome.Undecodable => "undecodable"
  | Outcome.RateLimited => "rate_limited"
  end.

Definition outcome_parse (value : string) : option Outcome.Outcome :=
  if String.eqb value "success" then Some Outcome.Success
  else if String.eqb value "retry" then Some Outcome.Retry
  else if String.eqb value "skip" then Some Outcome.Skip
  else if String.eqb value "revoke" then Some Outcome.Revoke
  else if String.eqb value "snooze" then Some Outcome.Snooze
  else if String.eqb value "lease_lost" then Some Outcome.LeaseLost
  else if String.eqb value "undecodable" then Some Outcome.Undecodable
  else if String.eqb value "rate_limited" then Some Outcome.RateLimited
  else None.

Module MissedPolicy.
Inductive MissedPolicy := Skip | RunOnce | Backfill.
End MissedPolicy.

#[export] Instance missed_eq_dec : EqDecision MissedPolicy.MissedPolicy.
Proof. solve_decision. Defined.

Definition missed_as_str (p : MissedPolicy.MissedPolicy) : string :=
  match p with
  | MissedPolicy.Skip => "skip"
  | MissedPolicy.RunOnce => "run_once"
  | MissedPolicy.Backfill => "backfill"
  end.

Definition missed_parse (value : string) : option MissedPolicy.MissedPolicy :=
  if String.eqb value "skip" then Some MissedPolicy.Skip
  else if String.eqb value "run_once" then Some MissedPolicy.RunOnce
  else if String.eqb value "backfill" then Some MissedPolicy.Backfill
  else None.

(** ** Defaults, normalisation and boundary checks *)

Definition DEFAULT_QUEUE : string := "default".
Definition DEFAULT_SCHEMA_VERSION : Z := 1.
Definition DEFAULT_MAX_ATTEMPTS : Z := 25.
Definition DEFAULT_WEIGHT : Z := 1.
(** [i32::MAX as u32]. *)
Definition MAX_OPAQUE_SCHEMA_VERSION : Z := 2 ^ 31 - 1.

Definition normalize_queues (queues : list string) : list string := sort_dedup queues.

(** A [Duration] is its total number of nanoseconds. *)
Definition duration := Z.
Definition as_millis (d : duration) : Z := d / 1000000.
Definition duration_is_zero (d : duration) : bool := d =? 0.

Definition duration_millis (d : duration) : option Z :=
  let ms := as_millis d in
  if (ms <=? i64_max) && (0 <? ms) then Some ms else None.

Definition effective_queue (queue : string) : string :=
  if String.eqb queue "" then DEFAULT_QUEUE else queue.
Definition effective_schema_version (version : Z) : Z :=
  if version =? 0 then DEFAULT_SCHEMA_VERSION else version.
Definition effective_max_attempts (max_attempts : Z) : Z :=
  if max_attempts =? 0 then DEFAULT_MAX_ATTEMPTS else max_attempts.
Definition effective_weight (weight : Z) : Z :=
  if weight =? 0 then DEFAULT_WEIGHT else weight.

Module AckValidation.
Inductive AckValidation := Valid | LeaseLost | SnoozeDelayRequired.
End AckValidation.

Definition validate_ack (outcome : Outcome.Outcome) (delay_ms : option Z)
    : AckValidation.AckValidation :=
  match outcome with
  | Outcome.LeaseLost => AckValidation.LeaseLost
  | Outcome.Snooze =>
      match delay_ms with
      | Some delay =>
          if 0 <? delay then AckValidation.Valid else AckValidation.SnoozeDelayRequired
      | None => AckValidation.SnoozeDelayRequired
      end
  | _ => AckValidation.Valid
  end.

Module OpaqueSchemaValidation.
Inductive OpaqueSchemaValidation := Valid | Zero | TooLarge.
End OpaqueSchemaValidation.

Definition validate_opaque_schema (version : Z)
    : OpaqueSchemaValidation.OpaqueSchemaValidation :=
  if version =? 0 then OpaqueSchemaValidation.Zero
  else if MAX_OPAQUE_SCHEMA_VERSION <? version then OpaqueSchemaValidation.TooLarge
  else OpaqueSchemaValidation.Valid.

Definition bulk_action_states (action : string) : option (list string) :=
  if String.eqb action "retry" then Some ["archived"; "cancelled"]
  else if String.eqb action "cancel" then Some ["scheduled"; "available"; "running"]
  else if String.eqb action "delete" then
    Some ["scheduled"; "available"; "retryable"; "completed"; "archived"; "cancelled";
          "quarantined"; "undecodable"]
  else None.

Definition valid_worker_command (command : string) : bool :=
  existsb (String.eqb command) [""; "quiet"; "resume"; "restart"; "terminate"; "resign"].

(** Hexadecimal digits of a number, most significant first, without padding; sixteen
    steps exhaust a [u64]. *)
Fixpoint hex_digits (fuel : nat) (n : Z) (acc : string) : string :=
  match fuel with
  | O => acc
  | S fuel =>
      let acc := String (hex_digit (n mod 16)) acc in
      if n / 16 =? 0 then acc else hex_digits fuel (n / 16) acc
  end.

Fixpoint zeros (k : nat) : string :=
  match k with O => "" | S k => String "0"%char (zeros k) end.

(** [{n:0wx}]: at least [w] digits, zero-padded on the left. *)
Definition hex_pad (w : nat) (n : Z) : string :=
  let d := hex_digits 16 n "" in
  (zeros (w - String.length d) +:+ d)%stdpp.

Definition format_generated_id (now_ms process_id sequence : Z) : string :=
  ("hg" +:+ hex_pad 12 now_ms +:+ hex_pad 5 (Z.land process_id 0xfffff)
     +:+ hex_pad 4 (Z.land sequence 0xffff))%stdpp.

(** ** The admission explainer *)

Record AdmissionFacts := mkFacts {
  f_state : string;
  f_now_ms : Z;
  f_scheduled_at_ms : Z;
  f_queue_paused : bool;
  f_quarantined : bool;
  f_fingerprint : string;
  f_rate_class : string;
  f_weight : Z;
  f_tokens_available : option Z;
  f_tokens_ahead : Z;
  f_limit_per_window : Z;
  f_window_ms : Z;
  f_max_concurrent : option Z;
  f_inflight : Z;
  f_saturation : string;
  f_position : Z;
  f_deficit : Z;
}.

Record AdmissionEvaluation := mkEval {
  admissible : bool;
  blocked_by : option string;
  detail : list (string * string);
  estimated_admission_ms : option Z;
}.

#[export] Instance eval_eta : Eta AdmissionEvaluation :=
  λ r, mkEval (admissible r) (blocked_by r) (detail r) (estimated_admission_ms r).

Definition push_detail (r : AdmissionEvaluation) (d : list (string * string)) :=
  r <| detail := detail r ++ d |>.

Definition block (value : AdmissionEvaluation) (by_ : string) (eta_ : option Z) :=
  value <| blocked_by := Some by_ |> <| estimated_admission_ms := eta_ |>.

(** The rate-class clause: [Ok] continues with the grown detail, [Err] returns early. *)
Definition eval_rate_class (f : AdmissionFacts) (r : AdmissionEvaluation)
    : result AdmissionEvaluation AdmissionEvaluation :=
  if String.eqb (f_rate_class f) "" then Ok r
  else
    let weight := Z.max (f_weight f) 1 in
    let required := i64_add (f_tokens_ahead f) weight in
    let r := push_detail r [("rate_class", f_rate_class f); ("weight", pretty weight);
                            ("tokens_ahead_in_class", pretty (f_tokens_ahead f))] in
    match f_tokens_available f with
    | Some available =>
        let r := push_detail r [("tokens_available", pretty available)] in
        if available <? required then
          let eta_ :=
            if 0 <? f_limit_per_window f then
              Some (i64_div (i64_mul (Z.max (i64_sub required available) 1) (f_window_ms f))
                            (f_limit_per_window f))
            else None in
          Err (block r "rate_class" eta_)
        else Ok r
    | None =>
        Ok (push_detail r [("tokens_available", "unlimited (no such rate class)")])
    end.

Definition saturation_strategy (f : AdmissionFacts) : string :=
  if String.eqb (f_saturation f) "" then "queue" else f_saturation f.

Definition eval_concurrency (f : AdmissionFacts) (r : AdmissionEvaluation)
    : result AdmissionEvaluation AdmissionEvaluation :=
  match f_max_concurrent f with
  | Some max_concurrent =>
      let strategy := saturation_strategy f in
      let r := push_detail r [("max_concurrent", pretty max_concurrent);
                              ("inflight", pretty (f_inflight f));
                              ("on_saturated", strategy)] in
      if (max_concurrent <=? f_inflight f) && negb (String.eqb strategy "cancel_running")
      then Err (block r "concurrency_limit" None) else Ok r
  | None => Ok r
  end.

Definition evaluate_admission (f : AdmissionFacts) : AdmissionEvaluation :=
  let r := mkEval false None [("state", f_state f)] None in
  let sched := [("scheduled_at_ms", pretty (f_scheduled_at_ms f))] in
  if String.eqb (f_state f) "running" then
    r <| admissible := true |> <| estimated_admission_ms := Some 0 |>
  else if String.eqb (f_state f) "scheduled" || String.eqb (f_state f) "retryable" then
    block (push_detail r sched) "schedule"
      (Some (Z.max (i64_sub (f_scheduled_at_ms f) (f_now_ms f)) 0))
  else if String.eqb (f_state f) "quarantined" then block r "quarantine" None
  else if negb (String.eqb (f_state f) "available") then r
  else if f_queue_paused f then block r "queue_paused" None
  else if f_now_ms f <? f_scheduled_at_ms f then
    block (push_detail r sched) "schedule" (Some (i64_sub (f_scheduled_at_ms f) (f_now_ms f)))
  else if f_quarantined f then
    block (push_detail r [("fingerprint", f_fingerprint f)]) "quarantine" None
  else
    match eval_rate_class f r with
    | Err out => out
    | Ok r =>
        match eval_concurrency f r with
        | Err out => out
        | Ok r =>
            (push_detail r [("position_in_partition", pretty (f_position f));
                            ("partition_deficit", pretty (f_deficit f))])
              <| admissible := true |> <| estimated_admission_ms := Some 0 |>
        end
    end.

(** ** Checkpoints *)

Record Checkpoint := mkCheckpoint {
  last_completed_step : option string;
  completed_steps : list string;
  in_progress_step : option string;
  cursor_step : option string;
  cursor : option bytes;
  cp_schema_version : Z;
  step_set_hash : string;
  crashes_by_step : list (string * Z);
}.

#[export] Instance checkpoint_eta : Eta Checkpoint :=
  λ r, mkCheckpoint (last_completed_step r) (completed_steps r) (in_progress_step r)
         (cursor_step r) (cursor r) (cp_schema_version r) (step_set_hash r)
         (crashes_by_step r).

Definition default_checkpoint : Checkpoint := mkCheckpoint None [] None None None 0 "" [].

Module Resume.
Inductive Resume := Continue | Remapped | Undecodable.
End Resume.

Definition resumability (cp : Checkpoint) (current_version : Z)
    (current_step_set_hash : string) : Resume.Resume :=
  if String.eqb (step_set_hash cp) "" || String.eqb (step_set_hash cp) current_step_set_hash
  then Resume.Continue
  else if negb (cp_schema_version cp =? current_version) then Resume.Remapped
  else Resume.Undecodable.

Definition age_ms (now_ms at_ms : Z) : Z :=
  let age := i64_sub now_ms at_ms in if 0 <? age then age else 0.

(** ** The JSON codec, at the level of [serde_json::Value]

    [serde_json::Map] is a [BTreeMap]: an association list kept sorted by key. *)

Inductive json :=
  | JNull
  | JBool (b : bool)
  | JInt (n : Z)
  | JFloat (text : string)
  | JString (s : string)
  | JArray (l : list json)
  | JObject (o : list (string * json)).

Section btree.
Context {V : Type}.

Fixpoint btree_insert (k : string) (v : V) (m : list (string * V)) : list (string * V) :=
  match m with
  | [] => [(k, v)]
  | (k', v') :: r =>
      match String.compare k k' with
      | Lt => (k, v) :: m
      | Eq => (k, v) :: r
      | Gt => (k', v') :: btree_insert k v r
      end
  end.

Fixpoint btree_get (k : string) (m : list (string * V)) : option V :=
  match m with
  | [] => None
  | (k', v') :: r => if String.eqb k k' then Some v' else btree_get k r
  end.

(** [collect] into a map: later entries win. *)
Definition btree_collect (l : list (string * V)) : list (string * V) :=
  foldl (λ m kv, btree_insert kv.1 kv.2 m) [] l.
End btree.

Definition as_str (v : json) : option string :=
  match v with JString s => Some s | _ => None end.
Definition as_u64 (v : json) : option Z :=
  match v with JInt n => if (0 <=? n) && (n <=? u64_max) then Some n else None | _ => None end.

Definition insert_when (c : bool) (k : string) (v : json) (o : list (string * json)) :=
  if c then btree_insert k v o else o.

Definition encode_checkpoint_value (cp : Checkpoint) : json :=
  let o := [] in
  let o := insert_when (negb (bool_decide (completed_steps cp = []))) "completed"
             (JArray (JString <$> completed_steps cp)) o in
  let o := match in_progress_step cp with
           | Some step => btree_insert "in_progress" (JString step) o | None => o end in
  let o := match cursor_step cp with
           | Some step => btree_insert "cursor_step" (JString step) o | None => o end in
  let o := insert_when (negb (cp_schema_version cp =? 0)) "version"
             (JInt (cp_schema_version cp)) o in
  let o := insert_when (negb (String.eqb (step_set_hash cp) "")) "hash"
             (JString (step_set_hash cp)) o in
  let o := insert_when (negb (bool_decide (crashes_by_step cp = []))) "crashes"
             (JObject (btree_collect ((λ sc, (sc.1, JInt sc.2)) <$> crashes_by_step cp))) o in
  JObject o.

Definition decode_checkpoint_value (value : option json) (cur : option bytes) : Checkpoint :=
  let cp := default_checkpoint <| cursor := cur |> in
  match value with
  | Some (JObject o) =>
      let cp := match btree_get "completed" o with
                | Some (JArray completed) =>
                    let steps := omap as_str completed in
                    cp <| completed_steps := steps |> <| last_completed_step := last steps |>
                | _ => cp
                end in
      let cp := cp <| in_progress_step := btree_get "in_progress" o ≫= as_str |> in
      let cp := cp <| cursor_step := btree_get "cursor_step" o ≫= as_str |> in
      let cp := cp <| cp_schema_version :=
                        wrap_u32 (default 0 (btree_get "version" o ≫= as_u64)) |> in
      let cp := cp <| step_set_hash := default "" (btree_get "hash" o ≫= as_str) |> in
      match btree_get "crashes" o with
      | Some (JObject crashes) =>
          cp <| crashes_by_step :=
                  (λ sc, (sc.1, wrap_u32 (default 0 (as_u64 sc.2)))) <$> crashes |>
      | _ => cp
      end
  | _ => cp
  end.

(** Header maps ([BTreeMap<String, String>]) are sorted association lists too. *)
Definition encode_headers_value (headers : list (string * string)) : json :=
  JObject (btree_collect ((λ kv, (kv.1, JString kv.2)) <$> headers)).

Definition decode_headers_value (value : option json) : list (string * string) :=
  match value with
  | Some (JObject o) =>
      btree_collect (omap (λ kv, match kv.2 with JString t => Some (kv.1, t) | _ => None end) o)
  | _ => []
  end.

(** ** Wire spellings *)

(** The spelling written to the store or the wire reads back as the same value. *)
Lemma outcome_parse_as_str o : outcome_parse (outcome_as_str o) = Some o.
Proof. by destruct o. Qed.

Lemma outcome_parse_Some value o : outcome_parse value = Some o → value = outcome_as_str o.
Proof.
  unfold outcome_parse. intros H.
  repeat (case_if_in H; bool_hyps; [by simplify_eq/=|]). done.
Qed.

Lemma missed_parse_Some value p : missed_parse value = Some p ↔ value = missed_as_str p.
Proof.
  split.
  - unfold missed_parse. intros H.
    repeat (case_if_in H; bool_hyps; [by simplify_eq/=|]). done.
  - intros ->. by destruct p.
Qed.

(** ** Maps in key order *)

Section btree_facts.
Context {V : Type}.
Implicit Types m : list (string * V).

Definition key_lt : relation (string * V) := λ a b, String.compare a.1 b.1 = Lt.

Lemma btree_get_insert k k' (v : V) m :
  btree_get k (btree_insert k' v m) = if String.eqb k k' then Some v else btree_get k m.
Proof.
  induction m as [|[k1 v1] m IH]; cbn [btree_insert btree_get]; [done|].
  destruct (String.compare k' k1) eqn:Hc; cbn [btree_get].
  - apply String.compare_eq_iff in Hc as ->. by destruct (String.eqb k k1).
  - by destruct (String.eqb k k').
  - rewrite IH. destruct (String.eqb_spec k k1) as [->|], (String.eqb_spec k1 k') as [->|];
      try done; [|by destruct (String.eqb k k')..].
    exfalso. by rewrite str_compare_refl in Hc.
Qed.

Lemma btree_insert_snoc k (v : V) m :
  Forall (λ kv, String.compare kv.1 k = Lt) m → btree_insert k v m = m ++ [(k, v)].
Proof.
  induction 1 as [|[k1 v1] m Hk Hm IH]; [done|]. cbn [btree_insert app].
  simpl in Hk. rewrite String.compare_antisym, Hk. simpl. by rewrite IH.
Qed.

Lemma btree_collect_sorted (l : list (string * V)) :
  StronglySorted key_lt l → btree_collect l = l.
Proof.
  intros Hs. unfold btree_collect.
  enough (∀ acc, StronglySorted key_lt (acc ++ l) →
    foldl (λ m kv, btree_insert kv.1 kv.2 m) acc l = acc ++ l) as H by by apply (H []).
  clear Hs. induction l as [|[k v] l IH]; intros acc Hs; simpl; [by rewrite app_nil_r|].
  rewrite btree_insert_snoc.
  - rewrite IH; [by rewrite <-app_assoc|by rewrite <-app_assoc].
  - rewrite Forall_forall. intros kv Hkv.
    refine (StronglySorted_app_1_elem_of key_lt _ _ kv (k, v) Hs Hkv _). set_solver.
Qed.
End btree_facts.

Lemma key_lt_fmap {V W} (g : V → W) (l : list (string * V)) :
  StronglySorted key_lt l → StronglySorted key_lt ((λ kv, (kv.1, g kv.2)) <$> l).
Proof.
  induction 1 as [|kv l Hs IH Hall]; csimpl; constructor; [done|].
  rewrite Forall_fmap. eapply Forall_impl; [exact Hall|]. done.
Qed.

(** ** Checkpoint codec *)

(** What a checkpoint must satisfy to be representable: the crash map in key order (the
    store keeps it so) and its [u32] fields in range. *)
Definition checkpoint_wf (cp : Checkpoint) : Prop :=
  in_u32 (cp_schema_version cp) ∧ StronglySorted key_lt (crashes_by_step cp)
  ∧ Forall (λ sc, in_u32 sc.2) (crashes_by_step cp).

Lemma omap_as_str (l : list string) : omap as_str (JString <$> l) = l.
Proof. induction l as [|s l IH]; csimpl; [done|]. by f_equal. Qed.

Lemma as_u64_u32 n : in_u32 n → as_u64 (JInt n) = Some n.
Proof.
  unfold in_u32, u32_max, as_u64, u64_max. intros.
  by rewrite (proj2 (Z.leb_le 0 n)), (proj2 (Z.leb_le n _)) by lia.
Qed.

Lemma crashes_round_trip l :
  StronglySorted key_lt l → Forall (λ sc : string * Z, in_u32 sc.2) l →
  (λ sc : string * json, (sc.1, wrap_u32 (default 0 (as_u64 sc.2))))
    <$> btree_collect ((λ sc : string * Z, (sc.1, JInt sc.2)) <$> l) = l.
Proof.
  intros Hs Hr. rewrite btree_collect_sorted by by apply (key_lt_fmap JInt).
  rewrite <-list_fmap_compose. induction Hr as [|[s n] l Hn Hl IH]; [done|].
  inversion Hs; subst. rewrite fmap_cons, IH by done.
  cbn [compose fst snd]. by rewrite as_u64_u32, wrap_u32_id by done.
Qed.

(** The lookup of a key in an object built by [insert_when]. *)
Lemma get_insert_when c k k' v o :
  btree_get k (insert_when c k' v o)
  = if String.eqb k k' && c then Some v else btree_get k o.
Proof.
  unfold insert_when. destruct c; rewrite ?btree_get_insert, ?andb_true_r, ?andb_false_r; done.
Qed.

Lemma get_insert_some k k' s o :
  btree_get k (match s with Some x => btree_insert k' (JString x) o | None => o end)
  = match s with
    | Some x => if String.eqb k k' then Some (JString x) else btree_get k o
    | None => btree_get k o
    end.
Proof. destruct s; by rewrite ?btree_get_insert. Qed.

(** Storing a checkpoint and reading it back gives the same progress; the derived
    [last_completed_step] is recomputed from the completed list. *)
Lemma checkpoint_round_trip cp cur :
  checkpoint_wf cp →
  decode_checkpoint_value (Some (encode_checkpoint_value cp)) cur
  = cp <| last_completed_step := last (completed_steps cp) |> <| cursor := cur |>.
Proof.
  intros (Hv & Hs & Hr). destruct cp as [lc cs ip cst cu sv h cr]. simpl in *.
  unfold decode_checkpoint_value, encode_checkpoint_value. cbv zeta.
  repeat first [rewrite get_insert_when | rewrite get_insert_some].
  assert (wrap_u32 (default 0 ((if negb (sv =? 0) then Some (JInt sv) else None) ≫= as_u64)) = sv)
    as Esv.
  { destruct (Z.eqb_spec sv 0) as [->|]; [done|]. cbn [negb mbind option_bind].
    rewrite as_u64_u32 by done. by apply wrap_u32_id. }
  assert (default "" ((if negb (String.eqb h "") then Some (JString h) else None) ≫= as_str) = h)
    as Eh by by destruct (String.eqb_spec h "") as [->|].
  pose proof (crashes_round_trip cr Hs Hr) as Ecr.
  destruct ip, cst, cs as [|c cs], cr as [|k cr]; simpl in *; rewrite ?Esv, ?Eh, ?Ecr;
    rewrite ?omap_as_str; done.
Qed.

(** Header maps in key order survive the round trip unchanged. *)
Lemma headers_round_trip h :
  StronglySorted key_lt h → decode_headers_value (Some (encode_headers_value h)) = h.
Proof.
  intros Hs. unfold decode_headers_value, encode_headers_value.
  rewrite (btree_collect_sorted (_ <$> h)) by by apply (key_lt_fmap JString).
  replace (omap _ _) with h; [by apply btree_collect_sorted|].
  clear Hs. induction h as [|[k v] h IH]; csimpl; [done|]. by f_equal.
Qed.

(** ** The admission explainer *)

(** The gate's clauses for an [available] job, in evaluation order: a test that blocks and
    the name it blocks under. *)
Definition rate_short (f : AdmissionFacts) : bool :=
  negb (String.eqb (f_rate_class f) "")
  && match f_tokens_available f with
     | Some available => available <? i64_add (f_tokens_ahead f) (Z.max (f_weight f) 1)
     | None => false
     end.

Definition saturated (f : AdmissionFacts) : bool :=
  match f_max_concurrent f with
  | Some m => (m <=? f_inflight f) && negb (String.eqb (saturation_strategy f) "cancel_running")
  | None => false
  end.

Definition gate_clauses (f : AdmissionFacts) : list (bool * string) :=
  [(f_queue_paused f, "queue_paused"); (f_now_ms f <? f_scheduled_at_ms f, "schedule");
   (f_quarantined f, "quarantine"); (rate_short f, "rate_class");
   (saturated f, "concurrency_limit")].

Definition first_blocking (l : list (bool * string)) : option string :=
  snd <$> List.find fst l.

Lemma eval_rate_class_cases f r :
  match eval_rate_class f r with
  | Ok r' => rate_short f = false ∧ admissible r' = admissible r ∧ blocked_by r' = blocked_by r
  | Err r' => rate_short f = true ∧ admissible r' = admissible r
              ∧ blocked_by r' = Some "rate_class"
  end.
Proof.
  unfold eval_rate_class, rate_short. destruct (String.eqb (f_rate_class f) ""); [done|].
  destruct (f_tokens_available f) as [a|]; [|done]. simpl.
  by destruct (a <? _).
Qed.

Lemma eval_concurrency_cases f r :
  match eval_concurrency f r with
  | Ok r' => saturated f = false ∧ admissible r' = admissible r ∧ blocked_by r' = blocked_by r
  | Err r' => saturated f = true ∧ admissible r' = admissible r
              ∧ blocked_by r' = Some "concurrency_limit"
  end.
Proof.
  unfold eval_concurrency, saturated. destruct (f_max_concurrent f) as [m|]; [|done].
  simpl. by destruct (_ && _).
Qed.

(** An available job is explained by the first gate clause that blocks it, and is called
    admissible exactly when none does. *)
Lemma evaluate_admission_available f :
  f_state f = "available" →
  blocked_by (evaluate_admission f) = first_blocking (gate_clauses f)
  ∧ (admissible (evaluate_admission f) = true ↔ first_blocking (gate_clauses f) = None).
Proof.
  intros Hs. unfold evaluate_admission, first_blocking, gate_clauses. rewrite Hs. simpl.
  destruct (f_queue_paused f); [done|]. destruct (_ <? f_scheduled_at_ms f); [done|].
  destruct (f_quarantined f); [done|].
  set (r0 := mkEval _ _ _ _). pose proof (eval_rate_class_cases f r0) as Hr.
  destruct (eval_rate_class f r0) as [r1|r1]; destruct Hr as (Hr & Ha & Hb); rewrite Hr.
  2: { rewrite Ha, Hb. done. }
  pose proof (eval_concurrency_cases f r1) as Hc.
  destruct (eval_concurrency f r1) as [r2|r2]; destruct Hc as (Hc & Ha' & Hb'); rewrite Hc.
  2: { rewrite Ha', Ha, Hb'. done. }
  simpl. rewrite Hb', Hb. done.
Qed.

(** Other states: running jobs are admissible, waiting ones blocked by their schedule,
    quarantined ones by quarantine, the rest neither admissible nor blocked. *)
Lemma evaluate_admission_other f :
  f_state f ≠ "available" →
  admissible (evaluate_admission f) = bool_decide (f_state f = "running")
  ∧ blocked_by (evaluate_admission f) =
      (if bool_decide (f_state f = "scheduled" ∨ f_state f = "retryable") then Some "schedule"
       else if bool_decide (f_state f = "quarantined") then Some "quarantine" else None).
Proof.
  intros Hs. unfold evaluate_admission.
  destruct (String.eqb_spec (f_state f) "running") as [->|H1]; [done|].
  rewrite (bool_decide_false (f_state f = "running")) by done.
  destruct (String.eqb_spec (f_state f) "scheduled") as [->|H2]; [done|].
  destruct (String.eqb_spec (f_state f) "retryable") as [->|H3]; [done|].
  rewrite (bool_decide_false (_ ∨ _)) by tauto. simpl.
  destruct (String.eqb_spec (f_state f) "quarantined") as [->|H4]; [done|].
  rewrite (bool_decide_false (_ = "quarantined")) by done.
  destruct (String.eqb_spec (f_state f) "available") as [E|H5]; [congruence|done].
Qed.

(** ** Generated ids *)

Fixpoint str_hex_value (s : string) (acc : Z) : Z :=
  match s with
  | EmptyString => acc
  | String c s => str_hex_value s (16 * acc + default 0 (hex_val c))
  end.

Lemma str_hex_value_zeros k s : str_hex_value (zeros k +:+ s)%stdpp 0 = str_hex_value s 0.
Proof. induction k as [|k IH]; [done|]. simpl zeros. rewrite str_app_cons. simpl. apply IH. Qed.

Lemma hex_digits_value fuel n acc :
  0 ≤ n < 16 ^ Z.of_nat fuel → (0 < fuel)%nat →
  str_hex_value (hex_digits fuel n acc) 0 = str_hex_value acc n.
Proof.
  revert n acc. induction fuel as [|fuel IH]; intros n acc Hn Hf; [lia|].
  cbn [hex_digits].
  assert (str_hex_value (String (hex_digit (n mod 16)) acc) (n / 16) = str_hex_value acc n) as E.
  { simpl. rewrite hex_val_digit by div_lia. simpl. f_equal. div_lia. }
  destruct (Z.eqb_spec (n / 16) 0) as [H0|H0]; [by rewrite <-E, ?H0|].
  rewrite <-E. rewrite Nat2Z.inj_succ, Z.pow_succ_r in Hn by lia.
  apply IH; [div_lia|].
  destruct fuel as [|fuel]; [|lia]. exfalso. apply H0. apply Z.div_small. simpl in Hn. lia.
Qed.

Lemma hex_pad_value w n : in_u64 n → str_hex_value (hex_pad w n) 0 = n.
Proof.
  unfold in_u64, u64_max, hex_pad. intros Hn. rewrite str_hex_value_zeros.
  rewrite hex_digits_value; [done|simpl; lia|lia].
Qed.

Lemma hex_digits_length fuel n acc w :
  0 ≤ n < 16 ^ Z.of_nat w → (0 < w)%nat →
  (String.length (hex_digits fuel n acc) ≤ w + String.length acc)%nat.
Proof.
  revert n acc w. induction fuel as [|fuel IH]; intros n acc w Hn Hw; simpl; [lia|].
  destruct (Z.eqb_spec (n / 16) 0) as [H0|H0]; simpl; [lia|].
  destruct w as [|w]; [lia|]. rewrite Nat2Z.inj_succ, Z.pow_succ_r in Hn by lia.
  etrans; [apply (IH _ _ w)|simpl; lia]; [div_lia|].
  destruct w as [|w]; [|lia]. exfalso. apply H0, Z.div_small. simpl in Hn. lia.
Qed.

Lemma zeros_length k : String.length (zeros k) = k.
Proof. induction k; simpl; congruence. Qed.

Lemma hex_pad_length w n :
  0 ≤ n < 16 ^ Z.of_nat w → (0 < w)%nat → String.length (hex_pad w n) = w.
Proof.
  intros Hn Hw. unfold hex_pad. rewrite str_length_app, zeros_length.
  pose proof (hex_digits_length 16 n "" w Hn Hw). simpl in *. lia.
Qed.

(** Ids generated at distinct clock readings, processes or sequence numbers differ: within
    the 48-bit clock, 20-bit process id and 16-bit counter the format is injective. *)
Lemma format_generated_id_inj t1 p1 s1 t2 p2 s2 :
  0 ≤ t1 < 2 ^ 48 → 0 ≤ t2 < 2 ^ 48 → 0 ≤ p1 < 2 ^ 20 → 0 ≤ p2 < 2 ^ 20 →
  0 ≤ s1 < 2 ^ 16 → 0 ≤ s2 < 2 ^ 16 →
  format_generated_id t1 p1 s1 = format_generated_id t2 p2 s2 →
  t1 = t2 ∧ p1 = p2 ∧ s1 = s2.
Proof.
  intros Ht1 Ht2 Hp1 Hp2 Hs1 Hs2 H. unfold format_generated_id in H.
  change 0xfffff with (Z.ones 20) in H. change 0xffff with (Z.ones 16) in H.
  rewrite !Z.land_ones, !Z.mod_small in H by lia.
  assert (∀ w n m, (0 < w)%nat → 0 ≤ n < 16 ^ Z.of_nat w → 0 ≤ m < 16 ^ Z.of_nat w →
    String.length (hex_pad w n) = String.length (hex_pad w m)) as Hl.
  { intros w n m Hw Hn Hm. by rewrite !hex_pad_length by done. }
  apply (inj (String.append "hg")) in H.
  apply str_app_inj_length in H as [H1 H]; [|apply Hl; simpl; lia].
  apply str_app_inj_length in H as [H2 H3]; [|apply Hl; simpl; lia].
  apply (f_equal (λ s, str_hex_value s 0)) in H1, H2, H3.
  rewrite !hex_pad_value in H1, H2, H3 by (unfold in_u64, u64_max; lia). done.
Qed.
