(* ===== verification/Lifecycle.v ===== *)
(** * headgate-core: the job state machine

    Models the lifecycle part of [crates/headgate-core/src/lib.rs]: [State],
    [State::is_terminal], the ack-driven table [transition] and the sweep- and
    operator-driven table [lifecycle_transition].  The two tables together form a
    transition system [job_step]; the theorems say which moves exist, that terminal states
    only leave by an explicit operator action, and how the two attempt budgets bound the
    number of re-runs of a job. *)

From S2P Require Import Prelude Shared.
Local Open Scope Z_scope.

Module State.
Inductive State :=
  | Pending | Scheduled | Available | Running | Retryable | Completed | Archived
  | Cancelled | Quarantined | Undecodable | Deleted.
End State.

#[export] Instance state_eq_dec : EqDecision State.State.
Proof. solve_decision. Defined.

Definition is_terminal (s : State.State) : bool :=
  match s with
  | State.Completed | State.Archived | State.Cancelled | State.Quarantined
  | State.Undecodable | State.Deleted => true
  | _ => false
  end.

Record TransitionCtx := mkCtx {
  attempt : Z;
  max_attempts : Z;
  crash_attempt : Z;
  crash_limit : Z;
  retention_ms : Z;
}.

Definition transition (from : State.State) (on : Outcome.Outcome) (ctx : TransitionCtx)
    : State.State :=
  match from, on with
  | State.Running, Outcome.Success =>
      if 0 <? retention_ms ctx then State.Completed else State.Deleted
  | State.Running, Outcome.Skip => State.Archived
  | State.Running, Outcome.Revoke => State.Deleted
  | State.Running, Outcome.Snooze => State.Scheduled
  | State.Running, Outcome.Undecodable => State.Undecodable
  | State.Running, Outcome.RateLimited => State.Available
  | State.Running, Outcome.Retry =>
      if u32_add (attempt ctx) 1 <? max_attempts ctx then State.Retryable else State.Archived
  | State.Running, Outcome.LeaseLost =>
      if u32_add (crash_attempt ctx) 1 <? crash_limit ctx
      then State.Retryable else State.Quarantined
  | s, _ => s
  end.

Module LifecycleEvent.
Inductive LifecycleEvent :=
  | OperatorPromote | ScheduleDue | JobAdmitted | BackoffDue | CheckpointStale
  | OperatorRetry | OperatorRelease | OperatorCancel.
End LifecycleEvent.

Definition lifecycle_transition (from : State.State) (ev : LifecycleEvent.LifecycleEvent)
    : option State.State :=
  match from, ev with
  | State.Pending, LifecycleEvent.OperatorPromote => Some State.Available
  | State.Scheduled, LifecycleEvent.ScheduleDue => Some State.Available
  | State.Available, LifecycleEvent.JobAdmitted => Some State.Running
  | State.Retryable, LifecycleEvent.BackoffDue => Some State.Available
  | State.Running, LifecycleEvent.CheckpointStale => Some State.Undecodable
  | (State.Archived | State.Cancelled | State.Undecodable), LifecycleEvent.OperatorRetry =>
      Some State.Available
  | State.Quarantined, LifecycleEvent.OperatorRelease => Some State.Available
  | (State.Pending | State.Available | State.Scheduled | State.Running | State.Retryable),
      LifecycleEvent.OperatorCancel => Some State.Cancelled
  | _, _ => None
  end.

(** ** The transition system of one job

    The configuration pairs the state with the counters the tables read; an ack of [Retry]
    consumes an attempt and a lost lease a crash attempt, as the store does. *)

Definition after_outcome (on : Outcome.Outcome) (ctx : TransitionCtx) : TransitionCtx :=
  match on with
  | Outcome.Retry => mkCtx (u32_add (attempt ctx) 1) (max_attempts ctx) (crash_attempt ctx)
                       (crash_limit ctx) (retention_ms ctx)
  | Outcome.LeaseLost => mkCtx (attempt ctx) (max_attempts ctx) (u32_add (crash_attempt ctx) 1)
                           (crash_limit ctx) (retention_ms ctx)
  | _ => ctx
  end.

Inductive job_label :=
  | LAck (on : Outcome.Outcome)
  | LEvent (ev : LifecycleEvent.LifecycleEvent).

Inductive job_step : job_label → State.State * TransitionCtx → State.State * TransitionCtx → Prop :=
  | step_ack on ctx :
      job_step (LAck on) (State.Running, ctx)
        (transition State.Running on ctx, after_outcome on ctx)
  | step_event ev s s' ctx :
      lifecycle_transition s ev = Some s' → job_step (LEvent ev) (s, ctx) (s', ctx).

Inductive job_run : list job_label → State.State * TransitionCtx → State.State * TransitionCtx → Prop :=
  | run_nil c : job_run [] c c
  | run_cons l ls c c' c'' : job_step l c c' → job_run ls c' c'' → job_run (l :: ls) c c''.

Definition is_retry (l : job_label) : bool :=
  match l with LAck Outcome.Retry => true | _ => false end.
Definition is_crash (l : job_label) : bool :=
  match l with LAck Outcome.LeaseLost => true | _ => false end.
(** Outcomes that send the job back to work and charge no counter. *)
Definition is_free (l : job_label) : bool :=
  match l with LAck (Outcome.Snooze | Outcome.RateLimited) => true | _ => false end.
(** The start of an attempt. *)
Definition is_admission (l : job_label) : bool :=
  match l with LEvent LifecycleEvent.JobAdmitted => true | _ => false end.
(** The operator's retry and release re-open a terminal job. *)
Definition reopens (l : job_label) : bool :=
  match l with
  | LEvent (LifecycleEvent.OperatorRetry | LifecycleEvent.OperatorRelease) => true
  | _ => false
  end.
Definition count_labels (p : job_label → bool) (ls : list job_label) : Z :=
  Z.of_nat (length (List.filter p ls)).

(** ** Budgets *)

(** The number of retries a job in state [s] can still consume. *)
Definition retries_left (s : State.State) (ctx : TransitionCtx) : Z :=
  if is_terminal s then 0 else Z.max 1 (max_attempts ctx - attempt ctx).
Definition crashes_left (s : State.State) (ctx : TransitionCtx) : Z :=
  if is_terminal s then 0 else Z.max 1 (crash_limit ctx - crash_attempt ctx).

(** The counters are [u32], and neither attempt counter is at the maximum, from which an
    increment would wrap to zero. *)
Definition counters_ok (ctx : TransitionCtx) : Prop :=
  (0 ≤ attempt ctx < u32_max) ∧ (0 ≤ crash_attempt ctx < u32_max)
  ∧ max_attempts ctx ≤ u32_max ∧ crash_limit ctx ≤ u32_max.

(** The admissions it can still get without a free outcome; a running job has had its own. *)
Definition runs_left (s : State.State) (ctx : TransitionCtx) : Z :=
  if is_terminal s then 0
  else retries_left s ctx + crashes_left s ctx - 1 - (if decide (s = State.Running) then 1 else 0).

Lemma u32_succ a : 0 ≤ a < u32_max → u32_add a 1 = a + 1.
Proof. intros. apply wrap_u32_id. unfold in_u32. lia. Qed.

Lemma lifecycle_not_reopened s ev s' :
  lifecycle_transition s ev = Some s' → reopens (LEvent ev) = false →
  is_terminal s = false.
Proof. by destruct s, ev. Qed.

Lemma job_step_budget l s ctx s' ctx' :
  job_step l (s, ctx) (s', ctx') → reopens l = false → counters_ok ctx →
  (if is_retry l then 1 else 0) + retries_left s' ctx' ≤ retries_left s ctx
  ∧ (if is_crash l then 1 else 0) + crashes_left s' ctx' ≤ crashes_left s ctx
  ∧ (if is_admission l then 1 else 0) + runs_left s' ctx' ≤ runs_left s ctx + (if is_free l then 1 else 0)
  ∧ (is_terminal s' = false → counters_ok ctx').
Proof.
  intros Hstep Hre (Ha & Hc & Hm & Hl).
  inversion Hstep as [on ? |ev ? ? ? Hev]; subst.
  - unfold runs_left, retries_left, crashes_left, counters_ok. cbn [is_terminal].
    destruct on; cbn [transition after_outcome is_retry is_crash is_admission is_free attempt max_attempts
      crash_attempt crash_limit retention_ms is_terminal]; rewrite ?u32_succ by lia;
      try case_ltb; cbn [is_terminal]; bool_hyps; repeat case_decide; try discriminate;
      (split_and!; [lia|lia|lia|intros; split_and!; done || lia]).
  - pose proof (lifecycle_not_reopened _ _ _ Hev Hre) as Hs.
    assert (is_admission (LEvent ev) = true → s = State.Available ∧ s' = State.Running) as Had
      by (destruct s, ev; simplify_eq/=; done).
    assert (is_admission (LEvent ev) = false → s' ≠ State.Running) as Hno by (destruct s, ev; simplify_eq/=; done).
    assert (s = State.Running → is_terminal s' = true) as Hend by (intros ->; by destruct ev; simplify_eq/=).
    unfold runs_left, retries_left, crashes_left. simpl. rewrite Hs.
    destruct (is_admission (LEvent ev)) eqn:E; simpl in E; rewrite ?E.
    + destruct Had as [-> ->]; [done|]. simpl. split_and!; [lia..|done].
    + specialize (Hno eq_refl). rewrite (decide_False (P := s' = State.Running)) by done.
      destruct (decide (s = State.Running)) as [Hd|_]; [rewrite (Hend Hd) in *|destruct (is_terminal s')];
        split_and!; done || lia.
Qed.

Lemma count_labels_cons p l ls : count_labels p (l :: ls) = (if p l then 1 else 0) + count_labels p ls.
Proof. unfold count_labels. cbn [List.filter]. destruct (p l); simpl length; lia. Qed.

Lemma job_run_budget ls c c' :
  job_run ls c c' → forallb (λ l, negb (reopens l)) ls = true →
  (is_terminal c.1 = false → counters_ok c.2) →
  count_labels is_retry ls ≤ retries_left c.1 c.2
  ∧ count_labels is_crash ls ≤ crashes_left c.1 c.2
  ∧ count_labels is_admission ls ≤ runs_left c.1 c.2 + count_labels is_free ls.
Proof.
  induction 1 as [[s ctx]|l ls [s ctx] [s1 ctx1] c2 Hstep Hrun IH].
  - intros _ _. unfold count_labels, runs_left, retries_left, crashes_left. simpl.
    destruct (is_terminal s); [lia|]. case_decide; lia.
  - cbn [forallb fst snd]. intros Hre Hc. bool_hyps.
    assert (is_terminal s = false) as Hs.
    { inversion Hstep; subst; [done|by eapply lifecycle_not_reopened]. }
    destruct (job_step_budget _ _ _ _ _ Hstep) as (Hr & Hk & Hd & Hc'); [done|auto|].
    destruct IH as (IH1 & IH2 & IH3); [done|done|]. cbn [fst snd] in *. rewrite !count_labels_cons. lia.
Qed.

(** ** Theorems *)

(** C1.  Terminal states absorb every outcome, and no sweep or admission event applies to
    them: only the operator's retry (archived, cancelled, undecodable) and release
    (quarantined) leave a terminal state, and both lead to [Available]. *)
Theorem terminal_states_absorb s :
  is_terminal s = true →
  (∀ on ctx, transition s on ctx = s)
  ∧ (∀ ev s', lifecycle_transition s ev = Some s' →
       s' = State.Available
       ∧ ((ev = LifecycleEvent.OperatorRetry
           ∧ s ∈ [State.Archived; State.Cancelled; State.Undecodable])
          ∨ (ev = LifecycleEvent.OperatorRelease ∧ s = State.Quarantined))).
Proof.
  intros Ht. split; [by destruct s, on|].
  intros ev s' H. destruct s; try discriminate Ht; destruct ev; simplify_eq/=;
    (split; [done|]); try (right; done); left; (split; [done|set_solver]).
Qed.

Lemma terminal_states_absorb_witness :
  transition State.Archived Outcome.Retry (mkCtx 0 25 0 3 0) = State.Archived
  ∧ is_terminal State.Archived = true.
Proof.
  split; [|reflexivity].
  exact (proj1 (terminal_states_absorb State.Archived eq_refl) Outcome.Retry _).
Defined.

(** A running job leaves [Running] on every outcome: no ack is silently ignored.  A
    retry stays runnable exactly while the incremented attempt is below the limit, a crash
    exactly while the incremented crash count is; outcomes other than these two never look
    at a counter. *)
Theorem running_always_progresses on ctx :
  transition State.Running on ctx ≠ State.Running
  ∧ (on = Outcome.Retry → transition State.Running on ctx = State.Retryable
        ↔ u32_add (attempt ctx) 1 < max_attempts ctx)
  ∧ (on = Outcome.LeaseLost → transition State.Running on ctx = State.Retryable
        ↔ u32_add (crash_attempt ctx) 1 < crash_limit ctx)
  ∧ (on ≠ Outcome.Retry → on ≠ Outcome.LeaseLost →
       ∀ ctx', retention_ms ctx' = retention_ms ctx →
         transition State.Running on ctx' = transition State.Running on ctx).
Proof.
  split_and!.
  - destruct on; simpl; try done; by case_if.
  - intros ->. simpl. rewrite <-Z.ltb_lt. by case_if.
  - intros ->. simpl. rewrite <-Z.ltb_lt. by case_if.
  - intros H1 H2 ctx' Hr. destruct on; simpl; try done. by rewrite Hr.
Qed.

Lemma running_always_progresses_witness :
  transition State.Running Outcome.Retry (mkCtx 23 25 0 3 0) = State.Retryable
  ∧ transition State.Running Outcome.Retry (mkCtx 24 25 0 3 0) ≠ State.Running.
Proof.
  split.
  - apply (proj1 (proj2 (running_always_progresses Outcome.Retry (mkCtx 23 25 0 3 0)))
             eq_refl). reflexivity.
  - exact (proj1 (running_always_progresses Outcome.Retry (mkCtx 24 25 0 3 0))).
Defined.


Definition retry_twice : list job_label :=
  [LAck Outcome.Retry; LEvent LifecycleEvent.BackoffDue; LEvent LifecycleEvent.JobAdmitted;
   LAck Outcome.Retry].

