(* ===== verification/Envelope.v ===== *)
(** * headgate-core: envelopes, keys and boundary validation

    Models the data the store port carries and the checks every backend runs on it, from
    [crates/headgate-core/src/lib.rs]: [Envelope], [StoreError], the content fingerprint
    (over an abstract SHA-256), the effective uniqueness key, canonical tags, the kind
    format, [validate_enqueue], leases and claims, and the grouping of claims into
    admission units. *)

From S2P Require Import Prelude Shared.
Local Open Scope Z_scope.

Module StoreError.
Inductive StoreError :=
  | Duplicate (existing_id : string) (replaced : bool)
  | IdConflict (job_id : string)
  | Quarantined (fingerprint : string)
  | Backpressure (queue : string) (limit current incoming : Z)
  | LeaseRejected (job_id : string)
  | Unavailable (m : string)
  | NotFound (m : string)
  | Invalid (m : string)
  | Backend (m : string).
End StoreError.

Definition UNIQUE_REPLACE_PAYLOAD : Z := Z.shiftl 1 0.
Definition UNIQUE_REPLACE_SCHEDULED_AT : Z := Z.shiftl 1 1.
Definition UNIQUE_REPLACE_PRIORITY : Z := Z.shiftl 1 2.
Definition UNIQUE_REPLACE_MAX_ATTEMPTS : Z := Z.shiftl 1 3.
Definition UNIQUE_REPLACE_ALL : Z :=
  Z.lor (Z.lor (Z.lor UNIQUE_REPLACE_PAYLOAD UNIQUE_REPLACE_SCHEDULED_AT)
               UNIQUE_REPLACE_PRIORITY) UNIQUE_REPLACE_MAX_ATTEMPTS.

Record Envelope := mkEnvelope {
  e_id : string;
  e_kind : string;
  e_schema_version : Z;
  e_payload : bytes;
  e_queue : string;
  e_partition_key : string;
  e_rate_class : string;
  e_weight : Z;
  e_fingerprint : string;
  e_priority : Z;
  e_attempt : Z;
  e_crash_attempt : Z;
  e_max_attempts : Z;
  e_scheduled_at_ms : Z;
  e_timeout_ms : Z;
  e_deadline_ms : Z;
  e_unique_key : option bytes;
  e_unique_states : Z;
  e_unique_window_ms : Z;
  e_unique_replace : Z;
  e_unique_debounce_ms : Z;
  e_unique_exclude_kind : bool;
  e_retention_ms : Z;
  e_periodic_schedule_id : string;
  e_periodic_tick_ms : Z;
  e_headers : list (string * string);
  e_tags : list string;
  e_pending : bool;
  e_sticky_worker : string;
}.

#[export] Instance envelope_eta : Eta Envelope := λ e,
  mkEnvelope (e_id e) (e_kind e) (e_schema_version e) (e_payload e) (e_queue e)
    (e_partition_key e) (e_rate_class e) (e_weight e) (e_fingerprint e) (e_priority e)
    (e_attempt e) (e_crash_attempt e) (e_max_attempts e) (e_scheduled_at_ms e)
    (e_timeout_ms e) (e_deadline_ms e) (e_unique_key e) (e_unique_states e)
    (e_unique_window_ms e) (e_unique_replace e) (e_unique_debounce_ms e)
    (e_unique_exclude_kind e) (e_retention_ms e) (e_periodic_schedule_id e)
    (e_periodic_tick_ms e) (e_headers e) (e_tags e) (e_pending e) (e_sticky_worker e).

(** [Envelope::default()]. *)
Definition default_envelope : Envelope :=
  mkEnvelope "" "" 0 "" "" "" "" 0 "" 0 0 0 0 0 0 0 None 0 0 0 0 false 0 "" 0 [] [] false "".

(** ** Content fingerprint *)

Section fingerprint.
(** The digest of the [sha2] crate: 32 bytes for any input. *)
Context (sha256 : bytes → bytes).

Definition fingerprint_preimage (kind : string) (payload : bytes) : bytes :=
  (le32 (wrap_u32 (str_len kind)) +:+ kind +:+ le32 (wrap_u32 (str_len payload))
     +:+ payload)%stdpp.

Fixpoint hex_bytes (n : nat) (s : bytes) : string :=
  match n, s with
  | S n, String c s => (hex2 (byte_val c) +:+ hex_bytes n s)%stdpp
  | _, _ => ""
  end.

Definition fingerprint (kind : string) (payload : bytes) : string :=
  hex_bytes 16 (sha256 (fingerprint_preimage kind payload)).
End fingerprint.

(** ** Keys and tags *)

Definition effective_unique_key (e : Envelope) : option bytes :=
  match e_unique_key e with
  | None => None
  | Some raw =>
      let prefix :=
        if e_unique_exclude_kind e then str1 "G"%char
        else (String "K"%char (be32 (wrap_u32 (str_len (e_kind e)))) +:+ e_kind e)%stdpp in
      Some (String (byte_of 1) (prefix +:+ raw)%stdpp)
  end.

Definition canonical_tags (tags : list string) : list string := sort_dedup tags.

Definition enqueue_queue (e : Envelope) : string := effective_queue (e_queue e).

Definition same_job_content (e : Envelope) (kind fp queue : string) : bool :=
  String.eqb (e_kind e) kind && String.eqb (e_fingerprint e) fp
  && String.eqb (enqueue_queue e) queue.

(** ** Boundary validation *)

Definition word (c : ascii) : bool := is_ascii_alphanumeric c || Ascii.eqb c "_"%char.

Definition kind_extra (c : ascii) : bool :=
  existsb (Ascii.eqb c)
    ["-"%char; "["%char; "]"%char; "<"%char; ">"%char; "/"%char; "."%char; ":"%char; "+"%char].

Definition KIND_RULE : string :=
  "1-128 characters, first [A-Za-z0-9_], rest [A-Za-z0-9_] or one of -[]<>/.:+".

Definition validate_kind (kind : string) : result unit string :=
  let ok :=
    match kind with
    | EmptyString => false
    | String c rest =>
        (str_len kind <=? 128) && word c && str_forall (λ c, word c || kind_extra c) rest
    end in
  if ok then Ok tt
  else Err ("invalid kind `" +:+ kind +:+ "`: " +:+ KIND_RULE)%stdpp.

(** Startup check: every kind and alias well-formed and registered once. *)
Definition check_kind (seen : list string) (k : string) : result (list string) string :=
  let? _ := validate_kind k in
  if bool_decide (k ∈ seen)
  then Err ("kind `" +:+ k +:+ "` is registered more than once")%stdpp
  else Ok (k :: seen).

Fixpoint check_kinds (seen : list string) (ks : list string) : result (list string) string :=
  match ks with
  | [] => Ok seen
  | k :: ks => let? seen := check_kind seen k in check_kinds seen ks
  end.

Definition check_kind_collisions (kinds : list (string * list string)) : result unit string :=
  let? _ := check_kinds [] (concat ((λ ta, ta.1 :: ta.2) <$> kinds)) in Ok tt.

Definition MAX_ENQUEUE_BATCH_SIZE : Z := 1000.
Definition MAX_JOB_PAYLOAD_BYTES : Z := Z.shiftl 1 20.
Definition MAX_JOB_HEADERS_BYTES : Z := Z.shiftl 64 10.
Definition MAX_JOB_HEADER_COUNT : Z := 128.
Definition MAX_JOB_IDENTIFIER_LEN : Z := 255.
Definition MAX_UNIQUE_KEY_BYTES : Z := Z.shiftl 1 10.
Definition MAX_ENQUEUE_BYTES : Z := Z.shiftl 16 20.

Notation "'reject_if' b 'with' m 'in' k" :=
  (if b then Err (StoreError.Invalid m) else k)
  (at level 10, b at level 200, m at level 200, k at level 200) : rust_scope.

Definition opt_len (k : option bytes) : Z := match k with Some s => str_len s | None => 0 end.
Definition key_absent (k : option bytes) : bool :=
  match k with Some s => String.eqb s "" | None => true end.

Definition check_identifiers (l : list (string * string)) : result unit StoreError.StoreError :=
  match List.find (λ nv, MAX_JOB_IDENTIFIER_LEN <? str_len nv.2) l with
  | Some (name, _) => Err (StoreError.Invalid (name +:+ " must be at most 255 bytes")%stdpp)
  | None => Ok tt
  end.

Definition header_bytes (e : Envelope) : Z :=
  foldr Z.add 0 ((λ kv, str_len kv.1 + str_len kv.2) <$> e_headers e).

Fixpoint check_tags (seen : list string) (total : Z) (tags : list string)
    : result Z StoreError.StoreError :=
  match tags with
  | [] => Ok total
  | tag :: rest =>
      reject_if String.eqb tag "" || (64 <? str_len tag) || negb (is_ascii tag)
        with "each tag must be 1-64 ASCII bytes" in
      reject_if bool_decide (tag ∈ seen) with "tags must not contain duplicates" in
      check_tags (tag :: seen) (u64_saturating_add total (str_len tag)) rest
  end.

(** One turn of [validate_enqueue]'s loop: the ids seen and the bytes counted so far. *)
Definition validate_envelope (seen : list string) (total : Z) (e : Envelope)
    : result (list string * Z) StoreError.StoreError :=
  reject_if String.eqb (e_id e) "" with "envelope id must not be empty" in
  match validate_kind (e_kind e) with
  | Err m => Err (StoreError.Invalid m)
  | Ok _ =>
  let? _ := check_identifiers
    [("envelope id", e_id e); ("queue", e_queue e); ("partition_key", e_partition_key e);
     ("rate_class", e_rate_class e); ("fingerprint", e_fingerprint e);
     ("periodic_schedule_id", e_periodic_schedule_id e)] in
  reject_if MAX_JOB_PAYLOAD_BYTES <? str_len (e_payload e)
    with "payload must be at most 1048576 bytes" in
  reject_if MAX_UNIQUE_KEY_BYTES <? opt_len (e_unique_key e)
    with "unique_key must be at most 1024 bytes" in
  reject_if MAX_JOB_HEADER_COUNT <? Z.of_nat (length (e_headers e))
    with "headers must contain at most 128 values" in
  reject_if MAX_JOB_HEADERS_BYTES <? header_bytes e
    with "headers must total at most 65536 bytes" in
  let total := u64_saturating_add total
    (str_len (e_payload e) + header_bytes e + str_len (e_id e) + str_len (e_kind e)
     + str_len (e_queue e) + str_len (e_partition_key e) + str_len (e_rate_class e)
     + str_len (e_fingerprint e) + opt_len (e_unique_key e)) in
  reject_if MAX_ENQUEUE_BYTES <? total
    with "enqueue batch data must total at most 16777216 bytes" in
  reject_if e_timeout_ms e <? 0 with "timeout_ms must be >= 0" in
  reject_if e_deadline_ms e <? 0 with "deadline_ms must be >= 0" in
  reject_if e_retention_ms e <? 0 with "retention_ms must be >= 0" in
  reject_if e_unique_window_ms e <? 0 with "unique_window_ms must be >= 0" in
  reject_if e_unique_debounce_ms e <? 0 with "unique_debounce_ms must be >= 0" in
  reject_if (0 <? e_unique_debounce_ms e)
      && (key_absent (e_unique_key e) || (0 <? e_unique_window_ms e))
    with "unique_debounce_ms requires lifecycle unique_key" in
  reject_if negb (Z.land (e_unique_replace e) (Z.lxor UNIQUE_REPLACE_ALL u32_max) =? 0)
    with "unique_replace contains unknown fields" in
  reject_if negb (e_unique_replace e =? 0) && key_absent (e_unique_key e)
    with "unique_replace requires unique_key" in
  reject_if 32 <? Z.of_nat (length (e_tags e)) with "tags must contain at most 32 values" in
  let? total := check_tags [] total (e_tags e) in
  let total := u64_saturating_add (u64_saturating_add total (str_len (e_sticky_worker e)))
                 (str_len (e_periodic_schedule_id e)) in
  reject_if MAX_ENQUEUE_BYTES <? total
    with "enqueue batch data must total at most 16777216 bytes" in
  reject_if e_pending e && negb (e_scheduled_at_ms e =? 0)
    with "pending jobs cannot also set scheduled_at_ms" in
  reject_if negb (String.eqb (e_sticky_worker e) "")
      && ((255 <? str_len (e_sticky_worker e)) || negb (is_ascii (e_sticky_worker e)))
    with "sticky_worker must be at most 255 ASCII bytes" in
  reject_if negb (Bool.eqb (String.eqb (e_periodic_schedule_id e) "") (e_periodic_tick_ms e =? 0))
      || (e_periodic_tick_ms e <? 0)
    with "periodic_schedule_id and positive periodic_tick_ms must be set together" in
  if bool_decide (e_id e ∈ seen) then Err (StoreError.IdConflict (e_id e))
  else Ok (e_id e :: seen, total)
  end.

Fixpoint validate_envelopes (seen : list string) (total : Z) (batch : list Envelope)
    : result (list string * Z) StoreError.StoreError :=
  match batch with
  | [] => Ok (seen, total)
  | e :: batch =>
      let? st := validate_envelope seen total e in
      validate_envelopes st.1 st.2 batch
  end.

Definition validate_enqueue (batch : list Envelope) : result unit StoreError.StoreError :=
  reject_if MAX_ENQUEUE_BATCH_SIZE <? Z.of_nat (length batch)
    with "enqueue batch must contain at most 1000 jobs" in
  let? _ := validate_envelopes [] 0 batch in
  reject_if negb (Z.of_nat (length batch) =? 1)
      && existsb (λ e, negb (e_unique_replace e =? 0) || (0 <? e_unique_debounce_ms e)) batch
    with "unique replacement and debounce require a single-job enqueue" in
  Ok tt.

(** ** Leases, claims and admission units *)

Record LeaseRef := mkLeaseRef {
  lr_job_id : string;
  lr_lease_id : string;
  lr_fence : Z;
}.

#[export] Instance lease_ref_eq_dec : EqDecision LeaseRef.
Proof. solve_decision. Defined.

Record Claim := mkClaim {
  c_envelope : Envelope;
  c_lease_id : string;
  c_fence : Z;
  c_expires_at_ms : Z;
  c_checkpoint : Checkpoint;
}.

Definition lease_ref (c : Claim) : LeaseRef :=
  mkLeaseRef (e_id (c_envelope c)) (c_lease_id c) (c_fence c).

(** An admission unit is its vector of claims. *)
Definition AdmissionUnit := list Claim.
Definition unit_size (u : AdmissionUnit) : Z := Z.of_nat (length u).

(** [iter_mut().rev().find(p)] followed by an update of the element found. *)
Fixpoint update_last {A} (p : A → bool) (f : A → A) (l : list A) : option (list A) :=
  match l with
  | [] => None
  | x :: r =>
      match update_last p f r with
      | Some r' => Some (x :: r')
      | None => if p x then Some (f x :: r) else None
      end
  end.

Definition claim_kind (c : Claim) : string := e_kind (c_envelope c).

Definition unit_accepts (max : nat) (claim : Claim) (u : AdmissionUnit) : bool :=
  (length u <? max)%nat
  && match u with first :: _ => String.eqb (claim_kind first) (claim_kind claim) | [] => false end.

Definition add_to_units (max : nat) (units : list AdmissionUnit) (claim : Claim)
    : list AdmissionUnit :=
  match update_last (unit_accepts max claim) (λ u, u ++ [claim]) units with
  | Some units' => units'
  | None => units ++ [[claim]]
  end.

Definition group_admission_claims (claims : list Claim) (max_unit_size : Z)
    : list AdmissionUnit :=
  foldl (add_to_units (Z.to_nat (Z.max max_unit_size 1))) [] claims.

(** ** Requests at the port *)

Record AdmitRequest := mkAdmitRequest {
  ar_worker : string;
  ar_lease_id : string;
  ar_queues : list string;
  ar_capacity : Z;
  ar_lease : duration;
  ar_quantum : Z;
}.

#[export] Instance admit_request_eta : Eta AdmitRequest := λ r,
  mkAdmitRequest (ar_worker r) (ar_lease_id r) (ar_queues r) (ar_capacity r) (ar_lease r)
    (ar_quantum r).

Definition normalize_admit_request (req : AdmitRequest)
    : result (AdmitRequest * Z) StoreError.StoreError :=
  let req := req <| ar_queues := normalize_queues (ar_queues req) |> in
  match duration_millis (ar_lease req) with
  | Some ms => Ok (req, ms)
  | None => Err (StoreError.Invalid "lease must be >= 1ms")
  end.

Definition validate_ack_request (outcome : Outcome.Outcome) (delay_ms : option Z)
    : result unit StoreError.StoreError :=
  match validate_ack outcome delay_ms with
  | AckValidation.LeaseLost =>
      Err (StoreError.Invalid "lease_lost is applied by the reclaimer, not acked")
  | AckValidation.SnoozeDelayRequired =>
      Err (StoreError.Invalid "snooze requires delay_ms > 0")
  | AckValidation.Valid => Ok tt
  end.

(** ** Opaque values, outputs and progress *)

Definition MAX_OPAQUE_BYTES : Z := 32 * 1024 * 1024.

Record JobResult := mkJobResult { r_schema_version : Z; r_bytes : bytes }.

Definition validate_opaque_value (subject : string) (value : JobResult)
    : result unit StoreError.StoreError :=
  match validate_opaque_schema (r_schema_version value) with
  | OpaqueSchemaValidation.Zero =>
      Err (StoreError.Invalid (subject +:+ " schema_version must be greater than zero")%stdpp)
  | OpaqueSchemaValidation.TooLarge =>
      Err (StoreError.Invalid
        (subject +:+ " schema_version exceeds the portable signed-integer limit")%stdpp)
  | OpaqueSchemaValidation.Valid =>
      if MAX_OPAQUE_BYTES <? str_len (r_bytes value)
      then Err (StoreError.Invalid (subject +:+ " bytes exceed the 32 MiB limit")%stdpp)
      else Ok tt
  end.

Record JobOutput := mkJobOutput {
  o_schema_version : Z; o_bytes : bytes; o_fence : Z; o_updated_at_ms : Z }.
Record ProgressUpdate := mkProgressUpdate {
  pu_current : Z; pu_total : Z; pu_message : option string }.
Record JobProgress := mkJobProgress {
  p_current : Z; p_total : Z; p_message : option string; p_fence : Z; p_updated_at_ms : Z }.

Definition MAX_PROGRESS_VALUE : Z := 9007199254740991.
Definition MAX_PROGRESS_MESSAGE_BYTES : Z := 512.

Definition validate_progress (update : ProgressUpdate) : result unit StoreError.StoreError :=
  reject_if pu_total update =? 0 with "progress total must be greater than zero" in
  reject_if pu_total update <? pu_current update with "progress current must not exceed total" in
  reject_if MAX_PROGRESS_VALUE <? pu_total update
    with "progress total exceeds the portable JSON safe-integer limit" in
  match pu_message update with
  | Some message =>
      reject_if MAX_PROGRESS_MESSAGE_BYTES <? str_len message
        with "progress message exceeds the 512-byte limit" in
      reject_if str_exists (Ascii.eqb "000"%char) message
        with "progress message must not contain NUL" in
      Ok tt
  | None => Ok tt
  end.

(** ** Collision freedom of the length-prefixed encodings *)


Lemma str_len_u32 s : str_len s ≤ u32_max → in_u32 (str_len s).
Proof. unfold in_u32, str_len. lia. Qed.

(** [len as u32 || s || rest] determines both [s] and [rest]. *)
Lemma le32_prefix_inj s1 s2 t1 t2 :
  str_len s1 ≤ u32_max → str_len s2 ≤ u32_max →
  (le32 (wrap_u32 (str_len s1)) +:+ s1 +:+ t1
   = le32 (wrap_u32 (str_len s2)) +:+ s2 +:+ t2)%stdpp → s1 = s2 ∧ t1 = t2.
Proof.
  intros H1 H2 H. rewrite !wrap_u32_id in H by by apply str_len_u32.
  apply str_app_inj_length in H as [Hl H]; [|done].
  apply le32_inj in Hl; [|by apply str_len_u32..].
  apply str_app_inj_length in H; [done|]. unfold str_len in Hl. lia.
Qed.

Lemma be32_prefix_inj s1 s2 t1 t2 :
  str_len s1 ≤ u32_max → str_len s2 ≤ u32_max →
  ((be32 (wrap_u32 (str_len s1)) +:+ s1) +:+ t1
   = (be32 (wrap_u32 (str_len s2)) +:+ s2) +:+ t2)%stdpp → s1 = s2 ∧ t1 = t2.
Proof.
  intros H1 H2 H. rewrite !wrap_u32_id in H by by apply str_len_u32.
  rewrite !str_app_assoc in H.
  apply str_app_inj_length in H as [Hl H]; [|done].
  apply be32_inj in Hl; [|by apply str_len_u32..].
  apply str_app_inj_length in H; [done|]. unfold str_len in Hl. lia.
Qed.

(** The bytes hashed into a fingerprint determine kind and payload: two jobs share a
    fingerprint only when their content is equal or SHA-256 collides on its first 16 bytes.
    This is what the length prefixes are for ([("a","bc")] against [("ab","c")]). *)
Theorem fingerprint_separates_content sha k1 p1 k2 p2 :
  str_len k1 ≤ u32_max → str_len p1 ≤ u32_max → str_len k2 ≤ u32_max → str_len p2 ≤ u32_max →
  fingerprint sha k1 p1 = fingerprint sha k2 p2 →
  (k1 = k2 ∧ p1 = p2)
  ∨ (fingerprint_preimage k1 p1 ≠ fingerprint_preimage k2 p2
     ∧ hex_bytes 16 (sha (fingerprint_preimage k1 p1))
       = hex_bytes 16 (sha (fingerprint_preimage k2 p2))).
Proof.
  intros Hk1 Hp1 Hk2 Hp2 H.
  destruct (decide (fingerprint_preimage k1 p1 = fingerprint_preimage k2 p2)) as [E|];
    [left|by right].
  unfold fingerprint_preimage in E. apply le32_prefix_inj in E as [-> E]; [|done..].
  split; [done|]. apply (le32_prefix_inj p1 p2 "" ""); [done..|].
  by rewrite !str_app_nil_r.
Qed.

Lemma fingerprint_separates_content_witness :
  ("a" = "ab" ∧ "bc" = "c")
  ∨ (fingerprint_preimage "a" "bc" ≠ fingerprint_preimage "ab" "c"
     ∧ hex_bytes 16 "" = hex_bytes 16 "").
Proof.
  apply (fingerprint_separates_content (λ _, "") "a" "bc" "ab" "c");
    [vm_compute; discriminate..|reflexivity].
Defined.

(** The effective uniqueness key is collision free: two envelopes get the same key only
    when they opted into the same namespace, with the same caller key and, unless the kind
    is excluded, the same kind.  Scoped and unscoped jobs never alias. *)
Theorem effective_unique_key_injective e1 e2 k :
  str_len (e_kind e1) ≤ u32_max → str_len (e_kind e2) ≤ u32_max →
  effective_unique_key e1 = Some k → effective_unique_key e2 = Some k →
  e_unique_exclude_kind e1 = e_unique_exclude_kind e2
  ∧ e_unique_key e1 = e_unique_key e2
  ∧ (e_unique_exclude_kind e1 = false → e_kind e1 = e_kind e2).
Proof.
  unfold effective_unique_key. intros Hk1 Hk2 H1 H2.
  destruct (e_unique_key e1) as [r1|], (e_unique_key e2) as [r2|]; try discriminate.
  rewrite <-H1 in H2. apply (inj Some), str_cons_inj in H2. clear H1.
  destruct (e_unique_exclude_kind e1), (e_unique_exclude_kind e2); try discriminate H2.
  - apply str_cons_inj in H2. change (r2 = r1) in H2. by subst.
  - rewrite !str_app_cons in H2. apply str_cons_inj, be32_prefix_inj in H2 as [E1 E2]; [|done..].
    by rewrite E1, E2.
Qed.

Lemma effective_unique_key_injective_witness :
  let e k := default_envelope <| e_kind := k |> <| e_unique_key := Some "x" |> in
  effective_unique_key (e "mail") = effective_unique_key (e "mail")
  ∧ e_kind (e "mail") = e_kind (e "mail").
Proof.
  intros e. split; [reflexivity|].
  refine (proj2 (proj2 (effective_unique_key_injective (e "mail") (e "mail") _ _ _ eq_refl eq_refl))
            eq_refl); vm_compute; discriminate.
Defined.

(** Tags are stored as the sorted duplicate-free list of the set supplied. *)
Lemma canonical_tags_spec tags :
  NoDup (canonical_tags tags) ∧ StronglySorted String.le (canonical_tags tags)
  ∧ ∀ t, t ∈ canonical_tags tags ↔ t ∈ tags.
Proof.
  destruct (sort_dedup_canonical tags). split_and!; [done..|]. intros t. apply elem_of_sort_dedup.
Qed.

(** ** Grouping of claims *)

Definition of_kind (k : string) (l : list Claim) : list Claim :=
  filter (λ c, claim_kind c = k) l.

(** A unit in the making: non-empty, within the bound, all of one kind. *)
Definition unit_ok (max : nat) (u : AdmissionUnit) : Prop :=
  ∃ first rest, u = first :: rest ∧ (length u ≤ max)%nat
                ∧ Forall (λ c, claim_kind c = claim_kind first) u.

(** Only the last unit of a kind may have room. *)
Fixpoint only_last_open (max : nat) (units : list AdmissionUnit) : Prop :=
  match units with
  | [] => True
  | u :: r => (∀ c, unit_accepts max c u = true → of_kind (claim_kind c) (concat r) = [])
              ∧ only_last_open max r
  end.

Lemma update_last_None {A} (p : A → bool) f l :
  update_last p f l = None → Forall (λ x, p x = false) l.
Proof.
  induction l as [|x l IH]; simpl; [done|].
  destruct (update_last p f l); [done|]. destruct (p x) eqn:E; [done|]. eauto.
Qed.

Lemma update_last_Some {A} (p : A → bool) f l l' :
  update_last p f l = Some l' →
  ∃ l1 x l2, l = l1 ++ x :: l2 ∧ l' = l1 ++ f x :: l2 ∧ p x = true.
Proof.
  revert l'. induction l as [|x l IH]; simpl; intros l'; [done|].
  destruct (update_last p f l) as [r|]; intros H.
  - simplify_eq. destruct (IH _ eq_refl) as (l1 & y & l2 & -> & -> & Hp). by exists (x :: l1), y, l2.
  - destruct (p x) eqn:E; simplify_eq. by exists [], x, l.
Qed.

Lemma only_last_open_app max l1 u l2 c :
  only_last_open max (l1 ++ u :: l2) → unit_accepts max c u = true →
  of_kind (claim_kind c) (concat l2) = [].
Proof. induction l1 as [|v l1 IH]; simpl; intros [H1 H2] Hc; eauto. Qed.

Lemma unit_accepts_spec max c u :
  unit_ok max u → unit_accepts max c u = true →
  (length u < max)%nat ∧ Forall (λ c', claim_kind c' = claim_kind c) u.
Proof.
  intros (f & r & -> & Hl & Hk) H. unfold unit_accepts in H. bool_hyps.
  split; [by apply Nat.ltb_lt|]. by rewrite <-H0.
Qed.

Lemma of_kind_app k l1 l2 : of_kind k (l1 ++ l2) = of_kind k l1 ++ of_kind k l2.
Proof. apply filter_app. Qed.

Lemma of_kind_singleton k c : of_kind k [c] = if decide (claim_kind c = k) then [c] else [].
Proof. unfold of_kind. rewrite filter_cons, filter_nil. done. Qed.

Lemma add_to_units_of_kind max units c k :
  Forall (unit_ok max) units → only_last_open max units →
  of_kind k (concat (add_to_units max units c)) = of_kind k (concat units) ++ of_kind k [c].
Proof.
  intros Hok Hlast. unfold add_to_units.
  destruct (update_last _ _ units) as [units'|] eqn:E.
  - apply update_last_Some in E as (l1 & u & l2 & -> & -> & Hp).
    pose proof (only_last_open_app _ _ _ _ _ Hlast Hp) as Hnil.
    rewrite !concat_app. cbn [concat]. rewrite !of_kind_app, <-!app_assoc. f_equal. f_equal.
    rewrite of_kind_singleton. case_decide as Hk; [subst; by rewrite Hnil|].
    by rewrite app_nil_r.
  - rewrite concat_app. cbn [concat]. by rewrite app_nil_r, of_kind_app.
Qed.

Lemma only_last_open_snoc max l1 u l2 c :
  Forall (unit_ok max) (l1 ++ u :: l2) →
  only_last_open max (l1 ++ u :: l2) → unit_accepts max c u = true →
  only_last_open max (l1 ++ (u ++ [c]) :: l2).
Proof.
  induction l1 as [|v l1 IH]; simpl; intros Hok [H1 H2] Hc.
  - split; [|done]. intros c' Hc'. apply H1.
    inversion Hok as [|? ? Hu _]; subst. destruct Hu as (f & r & -> & _).
    unfold unit_accepts in *. bool_hyps. apply andb_true_iff. split; [|done].
    apply Nat.ltb_lt in H. apply Nat.ltb_lt. rewrite length_app in H. simpl in *. lia.
  - inversion Hok; subst. split; [|by apply IH].
    intros c' Hc'. specialize (H1 c' Hc'). rewrite concat_app in H1 |- *. cbn [concat] in *.
    rewrite !of_kind_app in H1 |- *. apply app_nil in H1 as [Ha H1].
    apply app_nil in H1 as [Hb Hd].
    rewrite Ha, (of_kind_app _ u [c]), Hb, Hd, of_kind_singleton. simpl.
    case_decide as Hk; [|done]. exfalso.
    assert (unit_ok max u) as Hu by by eapply Forall_elt; eauto.
    destruct (unit_accepts_spec _ _ _ Hu Hc) as [_ Hall].
    destruct Hu as (f & r & -> & _).
    inversion Hall; subst. unfold of_kind in Hb. rewrite filter_cons in Hb.
    rewrite decide_True in Hb by congruence. done.
Qed.

Definition units_inv (max : nat) (units : list AdmissionUnit) : Prop :=
  Forall (unit_ok max) units ∧ only_last_open max units.

Lemma unit_ok_snoc max u c :
  unit_ok max u → unit_accepts max c u = true → unit_ok max (u ++ [c]).
Proof.
  intros Hu Hc. destruct (unit_accepts_spec _ _ _ Hu Hc) as [Hl Hall].
  destruct Hu as (f & r & -> & _ & Hk). inversion Hall; subst.
  exists f, (r ++ [c]). split_and!; [done| |].
  - rewrite length_app. simpl in *. lia.
  - apply Forall_app. split; [done|]. by constructor.
Qed.

Lemma only_last_open_new max units c :
  Forall (λ u, unit_accepts max c u = false) units →
  only_last_open max units → only_last_open max (units ++ [[c]]).
Proof.
  induction units as [|u units IH]; intros Hf; simpl; [by intros _|].
  inversion Hf as [|? ? Hu Hf']; subst. intros [H1 H2]. split; [|by apply IH].
  intros c' Hc'. rewrite concat_app, of_kind_app, (H1 c' Hc'). simpl.
  rewrite of_kind_singleton. case_decide as Hk; [|done]. exfalso.
  unfold unit_accepts in Hu, Hc'. destruct u as [|f r]; bool_hyps; [done|].
  rewrite H, Hk, (proj2 (String.eqb_eq _ _) H0) in Hu. done.
Qed.

Lemma add_to_units_inv max units c :
  (0 < max)%nat → units_inv max units → units_inv max (add_to_units max units c).
Proof.
  intros Hm [Hok Hlast]. unfold add_to_units.
  destruct (update_last _ _ units) as [units'|] eqn:E.
  - apply update_last_Some in E as (l1 & u & l2 & -> & -> & Hp). split.
    + apply Forall_app in Hok as [H1 H2]. inversion H2; subst.
      apply Forall_app. split; [done|]. constructor; [by apply unit_ok_snoc|done].
    + by apply only_last_open_snoc.
  - split.
    + apply Forall_app. split; [done|]. constructor; [|done].
      exists c, []. split_and!; [done|simpl; lia|by constructor].
    + apply only_last_open_new; [by eapply update_last_None|done].
Qed.

Lemma group_fold max claims units k :
  (0 < max)%nat → units_inv max units →
  units_inv max (foldl (add_to_units max) units claims)
  ∧ of_kind k (concat (foldl (add_to_units max) units claims))
    = of_kind k (concat units) ++ of_kind k claims.
Proof.
  intros Hm. revert units. induction claims as [|c claims IH]; intros units Hinv; simpl.
  - split; [done|]. by rewrite app_nil_r.
  - destruct (IH _ (add_to_units_inv _ _ c Hm Hinv)) as [H1 H2]. split; [done|].
    rewrite H2. destruct Hinv. rewrite add_to_units_of_kind, <-app_assoc by done.
    by rewrite <-of_kind_app.
Qed.

Lemma add_to_units_perm max units c : concat (add_to_units max units c) ≡ₚ c :: concat units.
Proof.
  unfold add_to_units. destruct (update_last _ _ units) as [units'|] eqn:E.
  - apply update_last_Some in E as (l1 & u & l2 & -> & -> & _).
    rewrite !concat_app. simpl. rewrite <-app_assoc. simpl.
    by rewrite Permutation_middle, (Permutation_middle u).
  - rewrite concat_app. simpl. by rewrite Permutation_app_comm.
Qed.

Lemma group_admission_perm claims max_unit_size :
  concat (group_admission_claims claims max_unit_size) ≡ₚ claims.
Proof.
  unfold group_admission_claims. generalize (Z.to_nat (Z.max max_unit_size 1)) as max. intros max.
  enough (∀ units, concat (foldl (add_to_units max) units claims) ≡ₚ concat units ++ claims) as H
    by apply (H []).
  induction claims as [|c claims IH]; intros units; simpl; [by rewrite app_nil_r|].
  rewrite IH, add_to_units_perm. simpl. apply Permutation_middle.
Qed.

(** Grouping claims into admission units loses, repeats and reorders nothing within a
    kind, and every unit is non-empty, of one kind and within the configured size (at least
    one). *)
Theorem group_admission_claims_spec claims max_unit_size :
  (∀ k, of_kind k (concat (group_admission_claims claims max_unit_size)) = of_kind k claims)
  ∧ ∀ u, u ∈ group_admission_claims claims max_unit_size →
      1 ≤ unit_size u ≤ Z.max max_unit_size 1
      ∧ ∀ c c', c ∈ u → c' ∈ u → claim_kind c = claim_kind c'.
Proof.
  unfold group_admission_claims. set (max := Z.to_nat (Z.max max_unit_size 1)).
  assert (0 < max)%nat as Hm by (subst max; lia).
  pose proof (λ k, group_fold max claims [] k Hm (conj (Forall_nil_2 _) I)) as H.
  split; [intros k; apply (H k)|]. intros u Hu.
  destruct (H "") as [[Hok _] _]. rewrite Forall_forall in Hok.
  destruct (Hok u Hu) as (f & r & -> & Hl & Hk). rewrite Forall_forall in Hk.
  split; [unfold unit_size; simpl in *; lia|]. intros c c' Hc Hc'. by rewrite (Hk c), (Hk c').
Qed.

(** ** What [validate_enqueue] accepts *)

(** Bytes an envelope adds to the batch total. *)
Definition envelope_bytes (e : Envelope) : Z :=
  str_len (e_payload e) + header_bytes e + str_len (e_id e) + str_len (e_kind e)
  + str_len (e_queue e) + str_len (e_partition_key e) + str_len (e_rate_class e)
  + str_len (e_fingerprint e) + opt_len (e_unique_key e)
  + foldr Z.add 0 (str_len <$> e_tags e)
  + str_len (e_sticky_worker e) + str_len (e_periodic_schedule_id e).

Definition tag_ok (t : string) : Prop := t ≠ "" ∧ str_len t ≤ 64 ∧ is_ascii t = true.

Record envelope_ok (e : Envelope) : Prop := {
  ok_id : e_id e ≠ "";
  ok_kind : validate_kind (e_kind e) = Ok tt;
  ok_identifiers : Forall (λ s, str_len s ≤ 255)
    [e_id e; e_queue e; e_partition_key e; e_rate_class e; e_fingerprint e;
     e_periodic_schedule_id e];
  ok_payload : str_len (e_payload e) ≤ 2 ^ 20;
  ok_key : opt_len (e_unique_key e) ≤ 1024;
  ok_headers : Z.of_nat (length (e_headers e)) ≤ 128 ∧ header_bytes e ≤ 65536;
  ok_times : 0 ≤ e_timeout_ms e ∧ 0 ≤ e_deadline_ms e ∧ 0 ≤ e_retention_ms e
             ∧ 0 ≤ e_unique_window_ms e ∧ 0 ≤ e_unique_debounce_ms e;
  ok_debounce : 0 < e_unique_debounce_ms e →
    key_absent (e_unique_key e) = false ∧ e_unique_window_ms e = 0;
  ok_replace_bits : Z.land (e_unique_replace e) (Z.lxor UNIQUE_REPLACE_ALL u32_max) = 0;
  ok_replace_key : e_unique_replace e ≠ 0 → key_absent (e_unique_key e) = false;
  ok_tags : (length (e_tags e) ≤ 32)%nat ∧ Forall tag_ok (e_tags e) ∧ NoDup (e_tags e);
  ok_pending : e_pending e = true → e_scheduled_at_ms e = 0;
  ok_sticky : str_len (e_sticky_worker e) ≤ 255 ∧ is_ascii (e_sticky_worker e) = true;
  ok_periodic : (e_periodic_schedule_id e = "" ↔ e_periodic_tick_ms e = 0)
                ∧ 0 ≤ e_periodic_tick_ms e;
}.

Lemma str_len_nonneg s : 0 ≤ str_len s.
Proof. unfold str_len. lia. Qed.
Lemma opt_len_nonneg k : 0 ≤ opt_len k.
Proof. destruct k; [apply str_len_nonneg|done]. Qed.
Lemma sum_nonneg {A} (f : A → Z) l : (∀ x, 0 ≤ f x) → 0 ≤ foldr Z.add 0 (f <$> l).
Proof. intros Hf. induction l as [|x l IH]; csimpl; [done|]. specialize (Hf x). lia. Qed.
Lemma header_bytes_nonneg e : 0 ≤ header_bytes e.
Proof.
  apply (sum_nonneg (λ kv, str_len kv.1 + str_len kv.2)). intros [k v].
  pose proof (str_len_nonneg k). pose proof (str_len_nonneg v). simpl. lia.
Qed.

Lemma saturating_small a b : a + b ≤ u64_max → u64_saturating_add a b = a + b.
Proof. unfold u64_saturating_add. lia. Qed.

Lemma str_eqb_false s t : String.eqb s t = false ↔ s ≠ t.
Proof. apply String.eqb_neq. Qed.

Lemma check_identifiers_ok l :
  check_identifiers l = Ok tt ↔ Forall (λ nv, str_len nv.2 ≤ 255) l.
Proof.
  unfold check_identifiers, MAX_JOB_IDENTIFIER_LEN. induction l as [|[n v] l IH]; simpl.
  - split; [constructor|done].
  - case_ltb; bool_hyps; rewrite Forall_cons; simpl.
    + split; [done|lia].
    + rewrite IH. intuition lia.
Qed.

(** The tag loop accepts well-formed, distinct, unseen tags and counts their bytes. *)
Lemma check_tags_ok seen total tags total' :
  0 ≤ total → total + 64 * Z.of_nat (length tags) ≤ u64_max →
  check_tags seen total tags = Ok total'
  ↔ Forall tag_ok tags ∧ NoDup tags ∧ (∀ t, t ∈ tags → t ∉ seen)
    ∧ total' = total + foldr Z.add 0 (str_len <$> tags).
Proof.
  revert seen total. induction tags as [|t tags IH]; intros seen total H0 Hb; csimpl in *.
  - rewrite Z.add_0_r. split; [intros [= <-]|by intros (_ & _ & _ & ->)].
    split_and!; [constructor|constructor|by intros t ?%elem_of_nil|done].
  - pose proof (str_len_nonneg t). pose proof (sum_nonneg str_len tags str_len_nonneg).
    rewrite Forall_cons, NoDup_cons.
    destruct (String.eqb t "" || (64 <? str_len t) || negb (is_ascii t)) eqn:Et.
    { split; [done|]. intros ((Ht & _) & _). exfalso. destruct Ht as (Hne & Hle & Has).
      apply str_eqb_false in Hne. rewrite Hne, Has in Et. cbn [negb orb] in Et.
      rewrite orb_false_r in Et. bool_hyps. lia. }
    bool_hyps.
    assert (tag_ok t) as Htok by (split_and!; [done|done|done]).
    case_bool_decide as Hs.
    { split; [done|]. intros (_ & _ & Hn & _). exfalso. by apply (Hn t); [left|]. }
    rewrite saturating_small by lia. rewrite IH by lia. split.
    + intros (Hf & Hnd & Hn & ->). split_and!; [done|done| |done| |lia].
      * intros Hin. by apply (Hn t Hin), elem_of_cons; left.
      * intros t' [->|Ht']%elem_of_cons; [done|]. intros Hs'. apply (Hn t' Ht'). by right.
    + intros ((_ & Hf) & (Hnt & Hnd) & Hn & ->). split_and!; [done|done| |lia].
      intros t' Ht' [->|Hs']%elem_of_cons; [done|]. by apply (Hn t'); [right|].
Qed.

(** Early returns as conjunctions. *)
Lemma reject_if_ok {A E} (b : bool) (err : E) (k : result A E) v :
  (if b then Err err else k) = Ok v ↔ b = false ∧ k = Ok v.
Proof. destruct b; intuition congruence. Qed.

Lemma bind_ok {A B E} (c : result A E) (k : A → result B E) v :
  (let? x := c in k x) = Ok v ↔ ∃ x, c = Ok x ∧ k x = Ok v.
Proof. destruct c; naive_solver. Qed.

Lemma validate_kind_len k : validate_kind k = Ok tt → str_len k ≤ 128.
Proof.
  unfold validate_kind. destruct k as [|c k]; [done|].
  case_if; [|done]. intros _. bool_hyps. done.
Qed.

Lemma validate_kind_case k :
  (match validate_kind k with Err m => False | Ok _ => True end) ↔ validate_kind k = Ok tt.
Proof. destruct (validate_kind k) as [[]|]; naive_solver. Qed.

Lemma saturating_le a b m : m < u64_max → u64_saturating_add a b ≤ m ↔ a + b ≤ m.
Proof. unfold u64_saturating_add. lia. Qed.

Lemma key_absent_len k : key_absent k = true → opt_len k = 0.
Proof. destruct k as [k|]; simpl; [|done]. by intros ->%String.eqb_eq. Qed.

(** The bytes counted before the tags. *)
Definition envelope_head_bytes (e : Envelope) : Z :=
  str_len (e_payload e) + header_bytes e + str_len (e_id e) + str_len (e_kind e)
  + str_len (e_queue e) + str_len (e_partition_key e) + str_len (e_rate_class e)
  + str_len (e_fingerprint e) + opt_len (e_unique_key e).

Lemma head_bytes_nonneg e : 0 ≤ envelope_head_bytes e.
Proof.
  unfold envelope_head_bytes. pose proof (header_bytes_nonneg e).
  pose proof (opt_len_nonneg (e_unique_key e)).
  pose proof (str_len_nonneg (e_payload e)). pose proof (str_len_nonneg (e_id e)).
  pose proof (str_len_nonneg (e_kind e)). pose proof (str_len_nonneg (e_queue e)).
  pose proof (str_len_nonneg (e_partition_key e)). pose proof (str_len_nonneg (e_rate_class e)).
  pose proof (str_len_nonneg (e_fingerprint e)). lia.
Qed.

Lemma MAX_ENQUEUE_BYTES_val : MAX_ENQUEUE_BYTES = 16777216.
Proof. done. Qed.

(** The six length-checked identifiers, as the loop lists them. *)
Definition envelope_identifiers (e : Envelope) : list (string * string) :=
  [("envelope id", e_id e); ("queue", e_queue e); ("partition_key", e_partition_key e);
   ("rate_class", e_rate_class e); ("fingerprint", e_fingerprint e);
   ("periodic_schedule_id", e_periodic_schedule_id e)].

Lemma kind_match_ok {A} k (cont : result A StoreError.StoreError) v :
  match validate_kind k with Err m => Err (StoreError.Invalid m) | Ok _ => cont end = Ok v
  ↔ validate_kind k = Ok tt ∧ cont = Ok v.
Proof. destruct (validate_kind k) as [[]|]; naive_solver. Qed.

Lemma validate_envelope_sound seen total e seen' total' :
  0 ≤ total ≤ MAX_ENQUEUE_BYTES →
  validate_envelope seen total e = Ok (seen', total') →
  envelope_ok e ∧ (e_id e ∉ seen) ∧ total + envelope_bytes e ≤ MAX_ENQUEUE_BYTES
  ∧ seen' = e_id e :: seen ∧ total' = total + envelope_bytes e.
Proof.
  rewrite MAX_ENQUEUE_BYTES_val. intros Htot H. unfold validate_envelope in H.
  rewrite reject_if_ok, kind_match_ok, bind_ok in H.
  destruct H as (Hid & Hkind & [] & Hids & H).
  rewrite !reject_if_ok, bind_ok in H.
  fold (envelope_head_bytes e) in H. pose proof (head_bytes_nonneg e) as Hh.
  destruct H as (Hpay & Hkey & Hhc & Hhb & Hhead & Hti & Hde & Hre & Hwi & Hdb & Hdk & Hrb
                 & Hrk & Htl & total1 & Htags & H).
  rewrite !reject_if_ok in H. destruct H as (Hfin & Hpend & Hst & Hper & Hseen & H).
  apply bool_decide_eq_false in Hseen. injection H as <- <-.
  unfold MAX_ENQUEUE_BYTES, MAX_JOB_PAYLOAD_BYTES, MAX_UNIQUE_KEY_BYTES,
    MAX_JOB_HEADER_COUNT, MAX_JOB_HEADERS_BYTES in *.
  apply Z.ltb_ge in Hpay, Hkey, Hhc, Hhb, Hhead, Hti, Hde, Hre, Hwi, Hdb, Htl, Hfin.
  change (Z.shiftl 16 20) with 16777216 in *.
  apply saturating_le in Hhead; [|unfold u64_max; lia].
  rewrite saturating_small in Htags by (unfold u64_max; lia).
  apply check_tags_ok in Htags as (Htok & Htnd & _ & ->); [|lia|unfold u64_max; lia].
  apply saturating_le in Hfin; [|unfold u64_max; lia].
  pose proof (sum_nonneg str_len (e_tags e) str_len_nonneg) as Hs1.
  pose proof (str_len_nonneg (e_sticky_worker e)) as Hs2.
  pose proof (str_len_nonneg (e_periodic_schedule_id e)) as Hs3.
  assert (u64_saturating_add (total + envelope_head_bytes e
    + foldr Z.add 0 (str_len <$> e_tags e)) (str_len (e_sticky_worker e)) ≤ 16777216) as Hst1 by lia.
  apply saturating_le in Hst1; [|unfold u64_max; lia].
  rewrite !saturating_small in * by (rewrite ?saturating_small; unfold u64_max; lia).
  split_and!; [|done|unfold envelope_bytes, envelope_head_bytes in *; lia|done
              |unfold envelope_bytes, envelope_head_bytes in *; lia].
  apply check_identifiers_ok in Hids.
  constructor; try done.
  - by apply str_eqb_false.
  - repeat (apply Forall_cons in Hids as [?Hid Hids]); repeat constructor; done.
  - intros Hpos. rewrite (proj2 (Z.ltb_lt _ _) Hpos) in Hdk. simpl in Hdk.
    apply orb_false_iff in Hdk as [? ?%Z.ltb_ge]. split; [done|lia].
  - by apply negb_false_iff, Z.eqb_eq in Hrb.
  - intros Hne. apply Z.eqb_neq in Hne. by rewrite Hne in Hrk.
  - split_and!; [lia|done|done].
  - intros Hp. rewrite Hp in Hpend. simpl in Hpend. by apply negb_false_iff, Z.eqb_eq in Hpend.
  - destruct (String.eqb_spec (e_sticky_worker e) "") as [->|Hne]; [done|].
    simpl in Hst. bool_hyps. done.
  - bool_hyps. apply eqb_prop in H. split; [|done].
    rewrite <-String.eqb_eq, H. apply Z.eqb_eq.
Qed.

Lemma andb_false_of (a b : bool) : (a = true → b = false) → a && b = false.
Proof. destruct a; simpl; auto. Qed.

Lemma validate_envelope_complete seen total e :
  0 ≤ total → envelope_ok e → (e_id e ∉ seen) →
  total + envelope_bytes e ≤ MAX_ENQUEUE_BYTES →
  validate_envelope seen total e = Ok (e_id e :: seen, total + envelope_bytes e).
Proof.
  rewrite MAX_ENQUEUE_BYTES_val. intros Htot Hok Hseen Hbytes. destruct Hok.
  pose proof (head_bytes_nonneg e) as Hh.
  pose proof (sum_nonneg str_len (e_tags e) str_len_nonneg) as Hs1.
  pose proof (str_len_nonneg (e_sticky_worker e)) as Hs2.
  pose proof (str_len_nonneg (e_periodic_schedule_id e)) as Hs3.
  assert (envelope_bytes e = envelope_head_bytes e + foldr Z.add 0 (str_len <$> e_tags e)
    + str_len (e_sticky_worker e) + str_len (e_periodic_schedule_id e)) as Eb
    by (unfold envelope_bytes, envelope_head_bytes; lia).
  unfold validate_envelope. fold (envelope_head_bytes e).
  rewrite reject_if_ok, kind_match_ok, bind_ok.
  split_and!; [by apply str_eqb_false|done|]. exists tt. split.
  { apply check_identifiers_ok. repeat (apply Forall_cons in ok_identifiers0 as [? ok_identifiers0]).
    repeat constructor; done. }
  rewrite !reject_if_ok, bind_ok.
  rewrite (saturating_small total) by (unfold u64_max; lia).
  unfold MAX_ENQUEUE_BYTES, MAX_JOB_PAYLOAD_BYTES, MAX_UNIQUE_KEY_BYTES,
    MAX_JOB_HEADER_COUNT, MAX_JOB_HEADERS_BYTES.
  change (Z.shiftl 16 20) with 16777216. change (Z.shiftl 1 20) with (2 ^ 20).
  change (Z.shiftl 1 10) with 1024. change (Z.shiftl 64 10) with 65536.
  destruct ok_tags0 as (Htl & Htok & Htnd).
  split_and!; try (apply Z.ltb_ge; lia).
  - apply andb_false_of. intros Hd%Z.ltb_lt. destruct (ok_debounce0 Hd) as [-> ->]. done.
  - by apply negb_false_iff, Z.eqb_eq.
  - apply andb_false_of. intros Hr%negb_true_iff%Z.eqb_neq. auto.
  - exists (total + envelope_head_bytes e + foldr Z.add 0 (str_len <$> e_tags e)). split.
    { apply check_tags_ok; [lia|unfold u64_max; lia|]. split_and!; [done|done| |done].
      intros t _. by apply not_elem_of_nil. }
    rewrite !saturating_small by (rewrite ?saturating_small; unfold u64_max; lia).
    rewrite !reject_if_ok. split_and!.
    + apply Z.ltb_ge. lia.
    + apply andb_false_of. intros Hp. apply negb_false_iff, Z.eqb_eq. auto.
    + destruct ok_sticky0 as [Hl ->]. rewrite (proj2 (Z.ltb_ge _ _) Hl). apply andb_false_r.
    + destruct ok_periodic0 as [Hiff Hpos]. rewrite (proj2 (Z.ltb_ge _ _) Hpos), orb_false_r.
      apply negb_false_iff, eqb_true_iff.
      apply eq_true_iff_eq. by rewrite String.eqb_eq, Z.eqb_eq.
    + by apply bool_decide_eq_false.
    + do 2 f_equal. lia.
Qed.

Definition batch_bytes (batch : list Envelope) : Z := foldr Z.add 0 (envelope_bytes <$> batch).

Lemma envelope_bytes_nonneg e : 0 ≤ envelope_bytes e.
Proof.
  pose proof (head_bytes_nonneg e).
  pose proof (sum_nonneg str_len (e_tags e) str_len_nonneg).
  pose proof (str_len_nonneg (e_sticky_worker e)).
  pose proof (str_len_nonneg (e_periodic_schedule_id e)).
  unfold envelope_bytes, envelope_head_bytes in *. lia.
Qed.

Lemma validate_envelopes_ok seen total batch :
  0 ≤ total ≤ MAX_ENQUEUE_BYTES →
  is_ok (validate_envelopes seen total batch) = true
  ↔ Forall envelope_ok batch ∧ NoDup (e_id <$> batch)
    ∧ (∀ e, e ∈ batch → e_id e ∉ seen) ∧ total + batch_bytes batch ≤ MAX_ENQUEUE_BYTES.
Proof.
  unfold batch_bytes. revert seen total.
  induction batch as [|e batch IH]; intros seen total Htot; cbn [validate_envelopes].
  - csimpl. split; [|done]. intros _.
    split_and!; [constructor|constructor|by intros e ?%elem_of_nil|lia].
  - csimpl. rewrite Forall_cons, NoDup_cons.
    pose proof (envelope_bytes_nonneg e) as Hb.
    pose proof (sum_nonneg envelope_bytes batch envelope_bytes_nonneg) as Hbs.
    destruct (validate_envelope seen total e) as [[seen' total']|err] eqn:E.
    + apply validate_envelope_sound in E as (Hok & Hid & Hle & -> & ->); [|done].
      cbn [fst snd]. rewrite IH by lia. split.
      * intros (Hf & Hnd & Hns & Ht). split_and!; [done|done| |done| |lia].
        -- intros (e' & Hee & He')%list_elem_of_fmap. apply (Hns e' He'). rewrite Hee. by left.
        -- intros e' [->|He']%elem_of_cons; [done|]. intros Hs. apply (Hns e' He'). by right.
      * intros ((_ & Hf) & (Hni & Hnd) & Hns & Ht). split_and!; [done|done| |lia].
        intros e' He' [Hee|Hs]%elem_of_cons; [|by apply (Hns e'); [right|]].
        apply Hni. rewrite <-Hee. by apply list_elem_of_fmap_2.
    + split; [done|]. intros ((Hok & _) & _ & Hns & Ht). exfalso.
      rewrite validate_envelope_complete in E; [done|lia|done|apply Hns; by left|lia].
Qed.

(** [validate_enqueue] accepts exactly the batches within every documented bound: at
    most 1000 envelopes, each well-formed, ids pairwise distinct, at most 16 MiB of data in
    all, and unique replacement or debounce only in single-job batches. *)
Theorem validate_enqueue_exact batch :
  validate_enqueue batch = Ok tt
  ↔ Z.of_nat (length batch) ≤ 1000
    ∧ Forall envelope_ok batch
    ∧ NoDup (e_id <$> batch)
    ∧ batch_bytes batch ≤ 16777216
    ∧ (length batch = 1%nat
       ∨ Forall (λ e, e_unique_replace e = 0 ∧ e_unique_debounce_ms e ≤ 0) batch).
Proof.
  unfold validate_enqueue, MAX_ENQUEUE_BATCH_SIZE. rewrite reject_if_ok, bind_ok.
  setoid_rewrite reject_if_ok. rewrite Z.ltb_ge.
  pose proof (validate_envelopes_ok [] 0 batch ltac:(rewrite MAX_ENQUEUE_BYTES_val; lia)) as Hv.
  rewrite is_ok_true, MAX_ENQUEUE_BYTES_val, Z.add_0_l in Hv.
  assert (negb (Z.of_nat (length batch) =? 1)
      && existsb (λ e, negb (e_unique_replace e =? 0) || (0 <? e_unique_debounce_ms e)) batch
      = false
    ↔ (length batch = 1%nat
       ∨ Forall (λ e, e_unique_replace e = 0 ∧ e_unique_debounce_ms e ≤ 0) batch)) as Hlast.
  { destruct (Z.eqb_spec (Z.of_nat (length batch)) 1) as [Hl|Hl]; simpl.
    { split; [intros _; left; lia|done]. }
    rewrite <-not_true_iff_false, existsb_exists, Forall_forall. split.
    - intros Hn. right. intros e He. apply list_elem_of_In in He.
      destruct (Z.eqb_spec (e_unique_replace e) 0) as [H0|H0]; [split; [done|]|].
      + apply Z.nlt_ge. intros Hd%Z.ltb_lt. apply Hn. exists e. rewrite Hd, orb_true_r. done.
      + exfalso. apply Hn. exists e. apply Z.eqb_neq in H0. rewrite H0. done.
    - intros [?|Hf]; [lia|]. intros (e & He%list_elem_of_In & Hb).
      destruct (Hf e He) as [H0 H1]. rewrite (proj2 (Z.eqb_eq _ _) H0) in Hb. simpl in Hb.
      bool_hyps. lia. }
  rewrite <-Hlast. split.
  - intros (Hl & st & Hst & Hr & _). destruct (proj1 Hv) as (H1 & H2 & _ & H3); [eauto|].
    by split_and!.
  - intros (Hl & H1 & H2 & H3 & Hr). split; [done|].
    destruct (proj2 Hv) as [st Hst]; [|eauto]. split_and!; [done|done| |done].
    intros e _. by apply not_elem_of_nil.
Qed.
