(* ===== verification/MemStore.v ===== *)
(** * headgate-testkit: the in-memory store

    Models [MemStore] of [crates/headgate-testkit/src/lib.rs], the complete in-process
    implementation of the [Store] port.  Every operation holds the store's one mutex for
    its whole body, so an operation is a function from the store's contents ([Inner]) and
    the store clock to new contents and a result; operations that fail after a mutation
    keep that mutation.  A [HashMap] is a [gmap]; where the source iterates one, the
    iteration order is the explicit argument [ord], a list of the map's keys. *)

From S2P Require Import Prelude Shared Lifecycle Envelope.
Local Open Scope Z_scope.

(** ** Data *)

Record MemJob := mkMemJob {
  mj_env : Envelope;
  mj_state : string;
  mj_fence : Z;
  mj_lease_id : string;
  mj_lease_expires : Z;
  mj_finalized_at : Z;
  mj_checkpoint : Checkpoint;
  mj_errs : list string;
  mj_rate_charge : Z;
  mj_result : option JobResult;
  mj_output : option JobOutput;
  mj_progress : option JobProgress;
}.

#[export] Instance mem_job_eta : Eta MemJob := λ j,
  mkMemJob (mj_env j) (mj_state j) (mj_fence j) (mj_lease_id j) (mj_lease_expires j)
    (mj_finalized_at j) (mj_checkpoint j) (mj_errs j) (mj_rate_charge j) (mj_result j)
    (mj_output j) (mj_progress j).

(** [MemJob { state, env, ..Default::default() }]. *)
Definition new_job (env : Envelope) (state : string) : MemJob :=
  mkMemJob env state 0 "" 0 0 default_checkpoint [] 0 None None None.

Record RateBucket := mkRateBucket {
  rb_tokens : Z;
  rb_burst : Z;
  rb_limit : Z;
  rb_window : Z;
  rb_refilled : Z;
}.

#[export] Instance rate_bucket_eta : Eta RateBucket := λ b,
  mkRateBucket (rb_tokens b) (rb_burst b) (rb_limit b) (rb_window b) (rb_refilled b).

Module Clock.
Inductive Clock := System | Frozen (ms : Z).
End Clock.

Record Inner := mkInner {
  jobs : gmap string MemJob;
  unique : gmap bytes string;
  throttle : gmap bytes (string * Z);
  quarantine : gmap string bool;
  paused : gmap string bool;
  rate : gmap string RateBucket;
  duties : gmap string (string * Z);
  rr : gmap string Z;
}.

#[export] Instance inner_eta : Eta Inner := λ i,
  mkInner (jobs i) (unique i) (throttle i) (quarantine i) (paused i) (rate i) (duties i) (rr i).

Definition default_inner : Inner := mkInner ∅ ∅ ∅ ∅ ∅ ∅ ∅ ∅.

Record MemStore := mkMemStore {
  inner : Inner;
  clock : Clock.Clock;
  ms_crash_limit : Z;
  ms_retry_base_ms : Z;
  ms_retry_cap_ms : Z;
}.

#[export] Instance mem_store_eta : Eta MemStore := λ s,
  mkMemStore (inner s) (clock s) (ms_crash_limit s) (ms_retry_base_ms s) (ms_retry_cap_ms s).

Definition mem_new : MemStore := mkMemStore default_inner Clock.System 3 1000 3600000.

(** [now]: [sys] is the reading of the system clock. *)
Definition mem_now (sys : Z) (s : MemStore) : Z :=
  match clock s with Clock.System => sys | Clock.Frozen ms => ms end.

Definition freeze_clock_at (ms : Z) (s : MemStore) : MemStore := s <| clock := Clock.Frozen ms |>.
Definition advance_clock (sys by_ms : Z) (s : MemStore) : MemStore :=
  s <| clock := Clock.Frozen (i64_add (mem_now sys s) by_ms) |>.
Definition unfreeze_clock (s : MemStore) : MemStore := s <| clock := Clock.System |>.

(** Replace the job stored under [id]; [get_mut(id).unwrap()] followed by assignments. *)
Definition alter_job (f : MemJob → MemJob) (id : string) (i : Inner) : Inner :=
  i <| jobs := alter f id (jobs i) |>.
Definition remove_job (id : string) (i : Inner) : Inner := i <| jobs := delete id (jobs i) |>.

(** ** Test-facing helpers *)

Definition job_state (id : string) (i : Inner) : option (Envelope * string) :=
  (λ j, (mj_env j, mj_state j)) <$> jobs i !! id.

Definition errors (id : string) (i : Inner) : list string :=
  match jobs i !! id with Some j => mj_errs j | None => [] end.

Definition count_job (queue : option string) (out : gmap string Z) (j : MemJob) : gmap string Z :=
  if match queue with None => true | Some q => String.eqb q (e_queue (mj_env j)) end
  then <[mj_state j := default 0 (out !! mj_state j) + 1]> out
  else out.

Definition counts (ord : list string) (queue : option string) (i : Inner) : gmap string Z :=
  foldl (count_job queue) ∅ (omap (λ id, jobs i !! id) ord).

Definition set_queue_paused (queue : string) (p : bool) (i : Inner) : Inner :=
  i <| paused := <[queue := p]> (paused i) |>.

Definition set_rate_limit (now : Z) (name : string) (limit window_ms burst : Z) (i : Inner) : Inner :=
  i <| rate := <[name := mkRateBucket burst burst limit window_ms now]> (rate i) |>.

Record Enqueued := mkEnqueued {
  q_kind : string;
  q_queue : option string;
  q_payload : option bytes;
  q_scheduled_at_ms : option Z;
  q_partition_key : option string;
  q_count : option nat;
}.

Definition none_or {A} (p : A → bool) (o : option A) : bool :=
  match o with None => true | Some x => p x end.

Definition matches (want : Enqueued) (e : Envelope) : bool :=
  String.eqb (e_kind e) (q_kind want)
  && none_or (λ q, String.eqb q (e_queue e)) (q_queue want)
  && none_or (λ p, String.eqb p (e_payload e)) (q_payload want)
  && none_or (λ s, s =? e_scheduled_at_ms e) (q_scheduled_at_ms want)
  && none_or (λ k, String.eqb k (e_partition_key e)) (q_partition_key want).

Definition env_id_le (a b : Envelope) : Prop := String.le (e_id a) (e_id b).
#[export] Instance env_id_le_dec a b : Decision (env_id_le a b).
Proof. unfold env_id_le. apply _. Defined.

Definition all_enqueued (ord : list string) (i : Inner) : list Envelope :=
  merge_sort env_id_le (omap (λ id, mj_env <$> jobs i !! id) ord).

(** The hits, or [None] where the source renders its diagnostic message. *)
Definition find_enqueued (ord : list string) (i : Inner) (want : Enqueued)
    : option (list Envelope) :=
  let hits := filter (λ e, matches want e = true) (all_enqueued ord i) in
  let ok := match q_count want with
            | Some n => bool_decide (length hits = n)
            | None => negb (bool_decide (hits = [])) end in
  if ok then Some hits else None.

(** ** Helpers of the operations *)

Definition i64_shl (a sh : Z) : Z := wrap_i64 (Z.shiftl a (sh mod 64)).

Definition default_backoff (attempt base cap : Z) : Z :=
  let shift := wrap_u32 (Z.min (i64_saturating_sub attempt 1) 20) in
  Z.min (i64_shl base shift) cap.

Definition drop_lease (j : MemJob) : MemJob :=
  j <| mj_lease_id := "" |> <| mj_lease_expires := 0 |>.

Definition push_err (m : string) (j : MemJob) : MemJob := j <| mj_errs := mj_errs j ++ [m] |>.

Definition release_unique (id : string) (i : Inner) : Inner :=
  match jobs i !! id with
  | None => i
  | Some j =>
      match effective_unique_key (mj_env j) with
      | Some k =>
          if (e_unique_window_ms (mj_env j) =? 0) && bool_decide (unique i !! k = Some id)
          then i <| unique := delete k (unique i) |>
          else i
      | None => i
      end
  end.

Definition holds_lease (j : MemJob) (l : LeaseRef) : bool :=
  String.eqb (mj_state j) "running" && String.eqb (mj_lease_id j) (lr_lease_id l)
  && (mj_fence j =? lr_fence l).

Definition identity (i : Inner) (l : LeaseRef) : result unit StoreError.StoreError :=
  match jobs i !! lr_job_id l with
  | Some j => if holds_lease j l then Ok tt else Err (StoreError.LeaseRejected (lr_job_id l))
  | None => Err (StoreError.LeaseRejected (lr_job_id l))
  end.

(** ** enqueue *)

(** The id pass: which envelopes are replays of a stored job. *)
Fixpoint id_pass (i : Inner) (batch : list Envelope) : result (list bool) StoreError.StoreError :=
  match batch with
  | [] => Ok []
  | e :: batch =>
      match jobs i !! e_id e with
      | Some j =>
          if same_job_content e (e_kind (mj_env j)) (e_fingerprint (mj_env j)) (e_queue (mj_env j))
          then let? skip := id_pass i batch in Ok (true :: skip)
          else Err (StoreError.IdConflict (e_id e))
      | None => let? skip := id_pass i batch in Ok (false :: skip)
      end
  end.

(** The job a unique key is currently held by. *)
Definition unique_holder (now : Z) (i : Inner) (e : Envelope) (k : bytes) : option string :=
  if 0 <? e_unique_window_ms e then
    match throttle i !! k with
    | Some (id, expiry) => if now <? expiry then Some id else None
    | None => None
    end
  else unique i !! k.

Definition has_bit (mask bit : Z) : bool := negb (Z.land mask bit =? 0).

Definition set_payload (e : Envelope) (job : MemJob) : MemJob :=
  job <| mj_env := (mj_env job)
           <| e_schema_version := if e_schema_version e =? 0 then 1 else e_schema_version e |>
           <| e_payload := e_payload e |>
           <| e_fingerprint := e_fingerprint e |> |>.

(** The in-place replacement of a waiting holder, with the [replaced] flag. *)
Definition replace_holder (now : Z) (e : Envelope) (job : MemJob) : MemJob * bool :=
  let mask := e_unique_replace e in
  let '(job, replaced) :=
    if 0 <? e_unique_debounce_ms e then
      let job := set_payload e job in
      (job <| mj_env := (mj_env job)
                <| e_tags := canonical_tags (e_tags e) |>
                <| e_scheduled_at_ms := i64_add now (e_unique_debounce_ms e) |> |>
           <| mj_state := "scheduled" |>, true)
    else (job, false) in
  let '(job, replaced) :=
    if has_bit mask UNIQUE_REPLACE_PAYLOAD then (set_payload e job, true) else (job, replaced) in
  let '(job, replaced) :=
    if has_bit mask UNIQUE_REPLACE_SCHEDULED_AT && String.eqb (mj_state job) "scheduled" then
      (job <| mj_env := (mj_env job)
                <| e_scheduled_at_ms :=
                     if e_scheduled_at_ms e =? 0 then now else e_scheduled_at_ms e |> |>, true)
    else (job, replaced) in
  let '(job, replaced) :=
    if has_bit mask UNIQUE_REPLACE_PRIORITY then
      (job <| mj_env := (mj_env job) <| e_priority := e_priority e |> |>, true)
    else (job, replaced) in
  if has_bit mask UNIQUE_REPLACE_MAX_ATTEMPTS then
    (job <| mj_env := (mj_env job)
              <| e_max_attempts := if e_max_attempts e =? 0 then 25 else e_max_attempts e |> |>,
     true)
  else (job, replaced).

Definition waiting_state (s : string) : bool :=
  String.eqb s "scheduled" || String.eqb s "available" || String.eqb s "retryable".

(** A held unique key: the holder may be rewritten, and the enqueue fails as a duplicate. *)
Definition duplicate (now : Z) (i : Inner) (e : Envelope) (id : string)
    : Inner * StoreError.StoreError :=
  if negb (e_unique_replace e =? 0) || (0 <? e_unique_debounce_ms e) then
    match jobs i !! id with
    | Some job =>
        if waiting_state (mj_state job) then
          let '(job', replaced) := replace_holder now e job in
          (i <| jobs := <[id := job']> (jobs i) |>, StoreError.Duplicate id replaced)
        else (i, StoreError.Duplicate id false)
    | None => (i, StoreError.Duplicate id false)
    end
  else (i, StoreError.Duplicate id false).

(** The validate pass over the envelopes that are not replays. *)
Fixpoint validate_pass (now : Z) (i : Inner) (batch : list (Envelope * bool))
    : Inner * result unit StoreError.StoreError :=
  match batch with
  | [] => (i, Ok tt)
  | (e, true) :: batch => validate_pass now i batch
  | (e, false) :: batch =>
      if negb (String.eqb (e_fingerprint e) "")
         && bool_decide (is_Some (quarantine i !! e_fingerprint e))
      then (i, Err (StoreError.Quarantined (e_fingerprint e)))
      else
        match effective_unique_key e with
        | Some k =>
            match unique_holder now i e k with
            | Some id => let '(i', err) := duplicate now i e id in (i', Err err)
            | None => validate_pass now i batch
            end
        | None => validate_pass now i batch
        end
  end.

(** The envelope as it is stored. *)
Definition stored_env (now : Z) (e : Envelope) : Envelope :=
  let env := e <| e_queue := if String.eqb (e_queue e) "" then "default" else e_queue e |>
               <| e_max_attempts := if e_max_attempts e =? 0 then 25 else e_max_attempts e |>
               <| e_schema_version := if e_schema_version e =? 0 then 1 else e_schema_version e |>
               <| e_weight := effective_weight (e_weight e) |>
               <| e_tags := canonical_tags (e_tags e) |> in
  env <| e_scheduled_at_ms :=
           if 0 <? e_unique_debounce_ms env then i64_add now (e_unique_debounce_ms env)
           else if e_scheduled_at_ms env =? 0 then now else e_scheduled_at_ms env |>.

Definition initial_state (now : Z) (env : Envelope) : string :=
  if e_pending env then "pending"
  else if now <? e_scheduled_at_ms env then "scheduled" else "available".

Definition claim_key (now : Z) (env : Envelope) (i : Inner) : Inner :=
  match effective_unique_key env with
  | Some k =>
      if 0 <? e_unique_window_ms env
      then i <| throttle := <[k := (e_id env, i64_add now (e_unique_window_ms env))]> (throttle i) |>
      else i <| unique := <[k := e_id env]> (unique i) |>
  | None => i
  end.

Definition insert_job (now : Z) (i : Inner) (e : Envelope) : Inner :=
  let env := stored_env now e in
  let i := claim_key now env i in
  i <| jobs := <[e_id env := new_job env (initial_state now env)]> (jobs i) |>.

Fixpoint insert_pass (now : Z) (i : Inner) (batch : list (Envelope * bool)) : Inner :=
  match batch with
  | [] => i
  | (e, true) :: batch => insert_pass now i batch
  | (e, false) :: batch => insert_pass now (insert_job now i e) batch
  end.

Definition enqueue (now : Z) (batch : list Envelope) (i : Inner)
    : Inner * result unit StoreError.StoreError :=
  match validate_enqueue batch with
  | Err err => (i, Err err)
  | Ok _ =>
      match id_pass i batch with
      | Err err => (i, Err err)
      | Ok skip =>
          match validate_pass now i (zip batch skip) with
          | (i', Err err) => (i', Err err)
          | (i', Ok _) => (insert_pass now i' (zip batch skip), Ok tt)
          end
      end
  end.

Definition without_uniqueness (e : Envelope) : Envelope :=
  e <| e_unique_key := None |> <| e_unique_window_ms := 0 |> <| e_unique_replace := 0 |>
    <| e_unique_debounce_ms := 0 |>.

Definition enqueue_without_uniqueness (now : Z) (batch : list Envelope) (i : Inner)
    : Inner * result unit StoreError.StoreError :=
  enqueue now (without_uniqueness <$> batch) i.

(** ** Admission: [admit] is [mem_admit] here *)

(** The lazy refill of a token bucket. *)
Definition refill (now : Z) (b : RateBucket) : RateBucket :=
  if (0 <? rb_limit b) && (0 <? rb_window b) then
    let gained := i64_div (i64_mul (i64_sub now (rb_refilled b)) (rb_limit b)) (rb_window b) in
    if 0 <? gained
    then b <| rb_tokens := Z.min (rb_burst b) (i64_add (rb_tokens b) gained) |>
           <| rb_refilled := now |>
    else b
  else b.

Definition job_cost (e : Envelope) : Z := effective_weight (e_weight e).

(** [admissible]: quarantine, then the fleet rate limit.  [inner.jobs[id]] is present for
    every id the caller passes; an absent id is inadmissible here. *)
Definition admissible (now : Z) (taken : gmap string Z) (id : string) (i : Inner) : Inner * bool :=
  match jobs i !! id with
  | None => (i, false)
  | Some j =>
      let fp := e_fingerprint (mj_env j) in
      let rc := e_rate_class (mj_env j) in
      if negb (String.eqb fp "") && bool_decide (is_Some (quarantine i !! fp)) then (i, false)
      else if String.eqb rc "" then (i, true)
      else match rate i !! rc with
           | None => (i, true)
           | Some b =>
               let b := refill now b in
               (i <| rate := <[rc := b]> (rate i) |>,
                i64_add (default 0 (taken !! rc)) (job_cost (mj_env j)) <=? rb_tokens b)
           end
  end.

(** The candidates of one queue, grouped by partition. *)
Definition candidate (now : Z) (req : AdmitRequest) (queue : string) (j : MemJob) : bool :=
  String.eqb (e_queue (mj_env j)) queue && String.eqb (mj_state j) "available"
  && (e_scheduled_at_ms (mj_env j) <=? now)
  && (String.eqb (e_sticky_worker (mj_env j)) ""
      || String.eqb (e_sticky_worker (mj_env j)) (ar_worker req)).

Definition push_candidate (now : Z) (req : AdmitRequest) (queue : string) (i : Inner)
    (parts : gmap string (list string)) (id : string) : gmap string (list string) :=
  match jobs i !! id with
  | Some j =>
      if candidate now req queue j
      then let p := e_partition_key (mj_env j) in <[p := default [] (parts !! p) ++ [id]]> parts
      else parts
  | None => parts
  end.

Definition group_by_part (now : Z) (ord : list string) (req : AdmitRequest) (queue : string)
    (i : Inner) : gmap string (list string) :=
  foldl (push_candidate now req queue i) ∅ ord.

Definition env_of (i : Inner) (id : string) : Envelope :=
  default default_envelope (mj_env <$> jobs i !! id).

(** Within a partition: priority descending, then due time, then id. *)
Definition draw_le (i : Inner) (a b : string) : Prop :=
  let x := env_of i a in
  let y := env_of i b in
  e_priority y < e_priority x
  ∨ e_priority y = e_priority x
    ∧ (e_scheduled_at_ms x < e_scheduled_at_ms y
       ∨ e_scheduled_at_ms x = e_scheduled_at_ms y ∧ String.le a b).
#[export] Instance draw_le_dec i a b : Decision (draw_le i a b).
Proof. unfold draw_le. apply _. Defined.

Definition sort_parts (i : Inner) (parts : gmap string (list string))
    : gmap string (list string) := merge_sort (draw_le i) <$> parts.

(** What one [mem_admit] call has done so far. *)
Record Draw := mkDraw {
  d_inner : Inner;
  d_by_part : gmap string (list string);
  d_units : list AdmissionUnit;
  d_taken : gmap string Z;
}.

#[export] Instance draw_eta : Eta Draw := λ d,
  mkDraw (d_inner d) (d_by_part d) (d_units d) (d_taken d).

Definition full (req : AdmitRequest) (d : Draw) : bool :=
  ar_capacity req <=? Z.of_nat (length (d_units d)).

(** [while let Some(id) = ids.first()]: drop ids until one is admissible. *)
Fixpoint pick (now : Z) (taken : gmap string Z) (ids : list string) (i : Inner)
    : Inner * list string * option string :=
  match ids with
  | [] => (i, [], None)
  | id :: ids =>
      let '(i, ok) := admissible now taken id i in
      if ok then (i, ids, Some id) else pick now taken ids i
  end.

Definition lease_job (lease_id : string) (expires charge : Z) (j : MemJob) : MemJob :=
  j <| mj_fence := u64_add (mj_fence j) 1 |>
    <| mj_state := "running" |>
    <| mj_lease_id := lease_id |>
    <| mj_lease_expires := expires |>
    <| mj_rate_charge := charge |>.

(** Claim the picked job: lease it, account its cost, emit a unit of one claim. *)
Definition claim_job (now : Z) (req : AdmitRequest) (id : string) (d : Draw) : Draw :=
  match jobs (d_inner d) !! id with
  | None => d
  | Some j =>
      let expires := i64_add now (wrap_i64 (as_millis (ar_lease req))) in
      let rc := e_rate_class (mj_env j) in
      let cost := job_cost (mj_env j) in
      let charged := negb (String.eqb rc "") && bool_decide (is_Some (rate (d_inner d) !! rc)) in
      let j' := lease_job (ar_lease_id req) expires (if charged then cost else 0) j in
      d <| d_inner := (d_inner d) <| jobs := <[id := j']> (jobs (d_inner d)) |> |>
        <| d_taken := if charged
                      then <[rc := i64_add (default 0 (d_taken d !! rc)) cost]> (d_taken d)
                      else d_taken d |>
        <| d_units := d_units d ++
             [[mkClaim (mj_env j') (ar_lease_id req) (mj_fence j') expires (mj_checkpoint j')]] |>
  end.

(** One partition's turn; the flag says whether it yielded a claim. *)
Definition draw_part (now : Z) (req : AdmitRequest) (p : string) (d : Draw) : Draw * bool :=
  match d_by_part d !! p with
  | None => (d, false)
  | Some ids =>
      let '(i, rest, picked) := pick now (d_taken d) ids (d_inner d) in
      let d := d <| d_inner := i |> <| d_by_part := <[p := rest]> (d_by_part d) |> in
      match picked with
      | None => (d, false)
      | Some id => (claim_job now req id d, true)
      end
  end.

(** One round over the partitions in turn order; [progressed] accumulates. *)
Fixpoint draw_round (now : Z) (req : AdmitRequest) (parts : list string) (d : Draw)
    (progressed : bool) : Draw * bool :=
  match parts with
  | [] => (d, progressed)
  | p :: parts =>
      if full req d then (d, progressed)
      else let '(d, ok) := draw_part now req p d in
           draw_round now req parts d (progressed || ok)
  end.

(** The rounds of one queue.  [fuel] bounds their number; a round that makes progress
    removes at least one candidate, so more fuel than candidates never runs out. *)
Fixpoint draw_loop (fuel : nat) (now : Z) (req : AdmitRequest) (parts : list string) (d : Draw)
    : Draw :=
  match fuel with
  | O => d
  | S fuel =>
      let '(d, progressed) := draw_round now req parts d false in
      if negb progressed || full req d then d else draw_loop fuel now req parts d
  end.

(** [parts[(start + i) % len]] for [i] in [0..len]. *)
Definition turn_order (start : nat) (parts : list string) : list string :=
  drop start parts ++ take start parts.

Definition remaining (parts : gmap string (list string)) : nat :=
  sum_list (length ∘ snd <$> map_to_list parts).

Definition part_names (parts : gmap string (list string)) : list string :=
  sort_strings ((map_to_list parts).*1).

Definition draw_queue (now : Z) (ord : list string) (req : AdmitRequest) (d : Draw)
    (queue : string) : Draw :=
  if full req d || default false (paused (d_inner d) !! queue) then d
  else
    let i := d_inner d in
    let by_part := group_by_part now ord req queue i in
    let parts := part_names by_part in
    if bool_decide (parts = []) then d
    else
      let by_part := sort_parts i by_part in
      let r := default 0 (rr i !! queue) in
      let start := Z.to_nat (r mod Z.of_nat (length parts)) in
      let d := d <| d_inner := i <| rr := <[queue := u64_add r 1]> (rr i) |> |>
                 <| d_by_part := by_part |> in
      draw_loop (S (remaining by_part)) now req (turn_order start parts) d.

Definition spend (r : gmap string RateBucket) (t : string * Z) : gmap string RateBucket :=
  alter (λ b, b <| rb_tokens := i64_sub (rb_tokens b) t.2 |>) t.1 r.

Definition mem_admit (now : Z) (ord : list string) (req : AdmitRequest) (i : Inner)
    : Inner * result (list AdmissionUnit) StoreError.StoreError :=
  if duration_is_zero (ar_lease req) then (i, Err (StoreError.Invalid "lease must be >= 1ms"))
  else
    let d := foldl (draw_queue now ord req) (mkDraw i ∅ [] ∅) (ar_queues req) in
    let i := d_inner d in
    (i <| rate := foldl spend (rate i) (map_to_list (d_taken d)) |>, Ok (d_units d)).

(** ** ack *)

(** The reconciliation of an estimated charge with the actual weight; unlike [refill] it
    clamps a clock that ran backwards and always stamps the bucket. *)
Definition reconcile_bucket (now charge actual : Z) (b : RateBucket) : RateBucket :=
  let gained :=
    if (0 <? rb_limit b) && (0 <? rb_window b)
    then i64_div (i64_mul (Z.max (i64_sub now (rb_refilled b)) 0) (rb_limit b)) (rb_window b)
    else 0 in
  let avail := Z.min (rb_burst b) (i64_add (rb_tokens b) gained) in
  b <| rb_tokens := Z.min (rb_burst b) (i64_sub (i64_add avail charge) actual) |>
    <| rb_refilled := now |>.

Definition reconcile_weight (now : Z) (actual_weight : option Z) (id : string) (i : Inner) : Inner :=
  match actual_weight with
  | None => i
  | Some actual =>
      match jobs i !! id with
      | None => i
      | Some j =>
          let charge := mj_rate_charge j in
          let i :=
            if 0 <? charge
            then i <| rate := alter (reconcile_bucket now charge actual)
                                    (e_rate_class (mj_env j)) (rate i) |>
            else i in
          alter_job (λ j, j <| mj_rate_charge := 0 |>) id i
      end
  end.

Definition log_line (logs : list string) : option string :=
  match logs with [] => None | _ => Some ("logs: " +:+ String.concat " | " logs)%stdpp end.

Definition push_log (prefix : string) (logline : option string) (j : MemJob) : MemJob :=
  match logline with Some l => push_err (prefix +:+ l)%stdpp j | None => j end.

(** [j.state = state; j.finalized_at = now] after the lease is dropped. *)
Definition finalize (now : Z) (state : string) (j : MemJob) : MemJob :=
  j <| mj_state := state |> <| mj_finalized_at := now |>.

Definition ack_success (now : Z) (on_keep : MemJob → MemJob) (id : string) (i : Inner) : Inner :=
  let i := release_unique id i in
  match jobs i !! id with
  | None => i
  | Some j =>
      if e_retention_ms (mj_env j) =? 0 then remove_job id i
      else alter_job (λ j, on_keep (finalize now "completed" (drop_lease j))) id i
  end.

(** The job after a [Retry] ack, and whether it was archived. *)
Definition retry_job (now base cap : Z) (err : option string) (delay_ms : option Z)
    (logline : option string) (j : MemJob) : MemJob * bool :=
  let j := j <| mj_env := (mj_env j) <| e_attempt := u32_add (e_attempt (mj_env j)) 1 |> |> in
  let j := drop_lease j in
  let n := e_attempt (mj_env j) in
  let j := push_err ("retry (attempt " +:+ pretty n +:+ "): " +:+ default "" err)%stdpp j in
  let j := push_log "" logline j in
  if n <? e_max_attempts (mj_env j) then
    let backoff :=
      match delay_ms with
      | Some d => if 0 <? d then d else default_backoff n base cap
      | None => default_backoff n base cap
      end in
    (j <| mj_state := "retryable" |>
       <| mj_env := (mj_env j) <| e_scheduled_at_ms := i64_add now backoff |> |>, false)
  else (finalize now "archived" j, true).

Definition park_job (now : Z) (state : string) (err logline : option string) (j : MemJob) : MemJob :=
  let j := finalize now state (drop_lease j) in
  let j := match err with Some e => push_err (state +:+ ": " +:+ e)%stdpp j | None => j end in
  push_log "" logline j.

(** The store's configuration an ack reads. *)
Record RetryPolicy := mkRetryPolicy { rp_base : Z; rp_cap : Z; rp_crash_limit : Z }.

Definition apply_outcome (now : Z) (rp : RetryPolicy) (outcome : Outcome.Outcome)
    (err : option string) (delay_ms : option Z) (logline : option string) (id : string) (i : Inner)
    : Inner * result unit StoreError.StoreError :=
  match outcome with
  | Outcome.Success => (ack_success now (push_log "success " logline) id i, Ok tt)
  | Outcome.Retry =>
      match jobs i !! id with
      | None => (i, Ok tt)
      | Some j =>
          let '(j', archived) := retry_job now (rp_base rp) (rp_cap rp) err delay_ms logline j in
          let i := i <| jobs := <[id := j']> (jobs i) |> in
          (if archived then release_unique id i else i, Ok tt)
      end
  | Outcome.Skip => (release_unique id (alter_job (park_job now "archived" err logline) id i), Ok tt)
  | Outcome.Undecodable =>
      (release_unique id (alter_job (park_job now "undecodable" err logline) id i), Ok tt)
  | Outcome.Revoke => (remove_job id (release_unique id i), Ok tt)
  | Outcome.Snooze =>
      let delay := default 0 delay_ms in
      if delay <=? 0 then (i, Err (StoreError.Invalid "snooze requires delay_ms > 0"))
      else (alter_job (λ j, let j := drop_lease j in
              j <| mj_state := "scheduled" |>
                <| mj_env := (mj_env j) <| e_scheduled_at_ms := i64_add now delay |> |>) id i,
            Ok tt)
  | Outcome.RateLimited =>
      (alter_job (λ j, let j := drop_lease j <| mj_state := "available" |> in
         if now <? e_scheduled_at_ms (mj_env j)
         then j <| mj_env := (mj_env j) <| e_scheduled_at_ms := now |> |> else j) id i, Ok tt)
  | Outcome.LeaseLost =>
      (i, Err (StoreError.Invalid "lease_lost is applied by the reclaimer, not acked"))
  end.

Definition ack_attempt_with_actual_weight (now : Z) (rp : RetryPolicy) (l : LeaseRef)
    (outcome : Outcome.Outcome) (err : option string) (delay_ms : option Z) (logs : list string)
    (actual_weight : option Z) (i : Inner) : Inner * result unit StoreError.StoreError :=
  match identity i l with
  | Err e => (i, Err e)
  | Ok _ =>
      let id := lr_job_id l in
      apply_outcome now rp outcome err delay_ms (log_line logs) id
        (reconcile_weight now actual_weight id i)
  end.

Definition ack_success_with_result (now : Z) (l : LeaseRef) (logs : list string)
    (actual_weight : option Z) (res : JobResult) (i : Inner)
    : Inner * result unit StoreError.StoreError :=
  if r_schema_version res =? 0
  then (i, Err (StoreError.Invalid "result schema_version must be greater than zero"))
  else if MAX_OPAQUE_SCHEMA_VERSION <? r_schema_version res
  then (i, Err (StoreError.Invalid "result schema_version exceeds the portable signed-integer limit"))
  else if 32 * 1024 * 1024 <? str_len (r_bytes res)
  then (i, Err (StoreError.Invalid "result bytes exceed the 32 MiB limit"))
  else
    match identity i l with
    | Err e => (i, Err e)
    | Ok _ =>
        let id := lr_job_id l in
        let on_keep (j : MemJob) := push_log "success " (log_line logs) (j <| mj_result := Some res |>) in
        (ack_success now on_keep id (reconcile_weight now actual_weight id i), Ok tt)
    end.

(** ** The other operations of the port *)

Fixpoint renew_loop (expires : Z) (leases : list LeaseRef) (i : Inner) (lost : list string)
    : Inner * list string :=
  match leases with
  | [] => (i, lost)
  | l :: leases =>
      match jobs i !! lr_job_id l with
      | Some j =>
          if holds_lease j l
          then renew_loop expires leases
                 (alter_job (λ j, j <| mj_lease_expires := expires |>) (lr_job_id l) i) lost
          else renew_loop expires leases i (lost ++ [lr_job_id l])
      | None => renew_loop expires leases i (lost ++ [lr_job_id l])
      end
  end.

Definition renew (now : Z) (leases : list LeaseRef) (lease : duration) (i : Inner)
    : Inner * result (list string) StoreError.StoreError :=
  if duration_is_zero lease then (i, Err (StoreError.Invalid "lease must be >= 1ms"))
  else let '(i, lost) := renew_loop (i64_add now (wrap_i64 (as_millis lease))) leases i [] in
       (i, Ok lost).

Definition checkpoint (l : LeaseRef) (cp : Checkpoint) (i : Inner)
    : Inner * result unit StoreError.StoreError :=
  match identity i l with
  | Err e => (i, Err e)
  | Ok _ => (alter_job (λ j, j <| mj_checkpoint := cp |>) (lr_job_id l) i, Ok tt)
  end.

Record Reclaimed := mkReclaimed {
  rc_job_id : string;
  rc_fingerprint : string;
  rc_crash_attempt : Z;
  rc_quarantined : bool;
}.

(** Charge a crash to the step that was in progress. *)
Fixpoint bump_step (s : string) (l : list (string * Z)) : list (string * Z) :=
  match l with
  | [] => [(s, 1)]
  | (k, n) :: l => if String.eqb k s then (k, u32_add n 1) :: l else (k, n) :: bump_step s l
  end.

Definition attribute_crash (cp : Checkpoint) : Checkpoint :=
  match in_progress_step cp with
  | Some s => cp <| crashes_by_step := bump_step s (crashes_by_step cp) |>
  | None => cp
  end.

Definition crash_job (now : Z) (rp : RetryPolicy) (j : MemJob) : MemJob * bool :=
  let j := j <| mj_env := (mj_env j)
                  <| e_crash_attempt := u32_add (e_crash_attempt (mj_env j)) 1 |> |> in
  let ca := e_crash_attempt (mj_env j) in
  let j := push_err ("lease_lost (crash " +:+ pretty ca +:+ ")")%stdpp (drop_lease j) in
  let j := j <| mj_checkpoint := attribute_crash (mj_checkpoint j) |> in
  if rp_crash_limit rp <=? ca then (finalize now "quarantined" j, true)
  else (j <| mj_state := "retryable" |>
          <| mj_env := (mj_env j)
               <| e_scheduled_at_ms :=
                    i64_add now (default_backoff ca (rp_base rp) (rp_cap rp)) |> |>, false).

Definition expired (now : Z) (j : MemJob) : bool :=
  negb (negb (String.eqb (mj_state j) "running") || (now <? mj_lease_expires j)).

Definition reclaim_one (now : Z) (rp : RetryPolicy) (id : string) (j : MemJob) (i : Inner)
    : Inner * Reclaimed :=
  let '(j', quarantined) := crash_job now rp j in
  let i := i <| jobs := <[id := j']> (jobs i) |> in
  let fp := e_fingerprint (mj_env j') in
  let i :=
    if quarantined then
      let i := release_unique id i in
      if negb (String.eqb fp "") then i <| quarantine := <[fp := true]> (quarantine i) |> else i
    else i in
  (i, mkReclaimed id fp (e_crash_attempt (mj_env j')) quarantined).

Fixpoint reclaim_loop (now limit : Z) (rp : RetryPolicy) (ids : list string) (i : Inner)
    (out : list Reclaimed) : Inner * list Reclaimed :=
  match ids with
  | [] => (i, out)
  | id :: ids =>
      if limit <=? Z.of_nat (length out) then (i, out)
      else
        match jobs i !! id with
        | None => reclaim_loop now limit rp ids i out
        | Some j =>
            if expired now j
            then let '(i, r) := reclaim_one now rp id j i in
                 reclaim_loop now limit rp ids i (out ++ [r])
            else reclaim_loop now limit rp ids i out
        end
  end.

Definition job_ids (i : Inner) : list string := (map_to_list (jobs i)).*1.

Definition reclaim_expired (now : Z) (rp : RetryPolicy) (limit : Z) (i : Inner)
    : Inner * result (list Reclaimed) StoreError.StoreError :=
  let '(i, out) := reclaim_loop now limit rp (sort_strings (job_ids i)) i [] in (i, Ok out).

Definition due (now : Z) (j : MemJob) : bool :=
  (String.eqb (mj_state j) "scheduled" || String.eqb (mj_state j) "retryable")
  && (e_scheduled_at_ms (mj_env j) <=? now).

Fixpoint promote_loop (now limit : Z) (ord : list string) (i : Inner) (n : Z) : Inner * Z :=
  match ord with
  | [] => (i, n)
  | id :: ord =>
      if limit <=? n then (i, n)
      else
        match jobs i !! id with
        | None => promote_loop now limit ord i n
        | Some j =>
            if due now j
            then promote_loop now limit ord
                   (i <| jobs := <[id := j <| mj_state := "available" |>]> (jobs i) |>) (u64_add n 1)
            else promote_loop now limit ord i n
        end
  end.

Definition promote_due (now : Z) (ord : list string) (limit : Z) (i : Inner)
    : Inner * result Z StoreError.StoreError :=
  let '(i, n) := promote_loop now limit ord i 0 in (i, Ok n).

Definition lapsed (now : Z) (j : MemJob) : bool :=
  existsb (String.eqb (mj_state j)) ["completed"; "archived"; "cancelled"; "undecodable"]
  && (0 <? e_retention_ms (mj_env j))
  && (i64_add (mj_finalized_at j) (e_retention_ms (mj_env j)) <=? now).

Definition lapsed_ids (now : Z) (ord : list string) (limit : Z) (i : Inner) : list string :=
  take (Z.to_nat (Z.max limit 0))
    (filter (λ id, from_option (lapsed now) false (jobs i !! id) = true) ord).

Definition evict_retained (now : Z) (ord : list string) (limit : Z) (i : Inner)
    : Inner * result Z StoreError.StoreError :=
  let ids := lapsed_ids now ord limit i in
  (foldl (λ i id, remove_job id i) i ids, Ok (Z.of_nat (length ids))).

Definition claim_duty (now : Z) (name holder : string) (lease : duration) (i : Inner)
    : Inner * result bool StoreError.StoreError :=
  if duration_is_zero lease then (i, Err (StoreError.Invalid "duty lease must be >= 1ms"))
  else
    let busy := match duties i !! name with
                | Some (h, expires) => (now <? expires) && negb (String.eqb h holder)
                | None => false end in
    if busy then (i, Ok false)
    else (i <| duties := <[name := (holder, i64_add now (wrap_i64 (as_millis lease)))]> (duties i) |>,
          Ok true).

Definition release_duty (name holder : string) (i : Inner)
    : Inner * result unit StoreError.StoreError :=
  match duties i !! name with
  | Some (h, _) =>
      if String.eqb h holder then (i <| duties := delete name (duties i) |>, Ok tt) else (i, Ok tt)
  | None => (i, Ok tt)
  end.

Definition write_job_output (now : Z) (l : LeaseRef) (output : JobResult) (i : Inner)
    : Inner * result JobOutput StoreError.StoreError :=
  if r_schema_version output =? 0
  then (i, Err (StoreError.Invalid "output schema_version must be greater than zero"))
  else if MAX_OPAQUE_SCHEMA_VERSION <? r_schema_version output
  then (i, Err (StoreError.Invalid "output schema_version exceeds the portable signed-integer limit"))
  else if 32 * 1024 * 1024 <? str_len (r_bytes output)
  then (i, Err (StoreError.Invalid "output bytes exceed the 32 MiB limit"))
  else
    match identity i l with
    | Err e => (i, Err e)
    | Ok _ =>
        let persisted := mkJobOutput (r_schema_version output) (r_bytes output) (lr_fence l) now in
        (alter_job (λ j, j <| mj_output := Some persisted |>) (lr_job_id l) i, Ok persisted)
    end.

Definition write_job_progress (now : Z) (l : LeaseRef) (update : ProgressUpdate) (i : Inner)
    : Inner * result JobProgress StoreError.StoreError :=
  match validate_progress update with
  | Err e => (i, Err e)
  | Ok _ =>
      match identity i l with
      | Err e => (i, Err e)
      | Ok _ =>
          let persisted :=
            mkJobProgress (pu_current update) (pu_total update) (pu_message update) (lr_fence l) now in
          (alter_job (λ j, j <| mj_progress := Some persisted |>) (lr_job_id l) i, Ok persisted)
      end
  end.

Definition get_job_result (id : string) (i : Inner) : option JobResult :=
  jobs i !! id ≫= mj_result.
Definition get_job_output (id : string) (i : Inner) : option JobOutput :=
  jobs i !! id ≫= mj_output.
Definition get_job_progress (id : string) (i : Inner) : option JobProgress :=
  jobs i !! id ≫= mj_progress.

(** ** The store as a transition system

    A call of any operation, clock control included.  The system clock reading and the
    iteration order of the job map are the environment's choice. *)

Inductive mem_op :=
  | OpEnqueue (batch : list Envelope)
  | OpEnqueueWithoutUniqueness (batch : list Envelope)
  | OpAdmit (req : AdmitRequest)
  | OpAck (l : LeaseRef) (outcome : Outcome.Outcome) (err : option string)
      (delay_ms : option Z) (logs : list string) (actual_weight : option Z)
  | OpAckResult (l : LeaseRef) (logs : list string) (actual_weight : option Z) (res : JobResult)
  | OpRenew (leases : list LeaseRef) (lease : duration)
  | OpCheckpoint (l : LeaseRef) (cp : Checkpoint)
  | OpReclaimExpired (limit : Z)
  | OpPromoteDue (limit : Z)
  | OpEvictRetained (limit : Z)
  | OpClaimDuty (name holder : string) (lease : duration)
  | OpReleaseDuty (name holder : string)
  | OpWriteOutput (l : LeaseRef) (output : JobResult)
  | OpWriteProgress (l : LeaseRef) (update : ProgressUpdate)
  | OpSetQueuePaused (queue : string) (p : bool)
  | OpSetRateLimit (name : string) (limit window_ms burst : Z)
  | OpFreezeClock (ms : Z)
  | OpAdvanceClock (by_ms : Z)
  | OpUnfreezeClock.

Definition retry_policy (s : MemStore) : RetryPolicy :=
  mkRetryPolicy (ms_retry_base_ms s) (ms_retry_cap_ms s) (ms_crash_limit s).

(** The contents after an operation that works on [inner]. *)
Definition run_inner (now : Z) (ord : list string) (rp : RetryPolicy) (o : mem_op) (i : Inner)
    : Inner :=
  match o with
  | OpEnqueue batch => (enqueue now batch i).1
  | OpEnqueueWithoutUniqueness batch => (enqueue_without_uniqueness now batch i).1
  | OpAdmit req => (mem_admit now ord req i).1
  | OpAck l outcome err delay_ms logs actual_weight =>
      (ack_attempt_with_actual_weight now rp l outcome err delay_ms logs actual_weight i).1
  | OpAckResult l logs actual_weight res => (ack_success_with_result now l logs actual_weight res i).1
  | OpRenew leases lease => (renew now leases lease i).1
  | OpCheckpoint l cp => (checkpoint l cp i).1
  | OpReclaimExpired limit => (reclaim_expired now rp limit i).1
  | OpPromoteDue limit => (promote_due now ord limit i).1
  | OpEvictRetained limit => (evict_retained now ord limit i).1
  | OpClaimDuty name holder lease => (claim_duty now name holder lease i).1
  | OpReleaseDuty name holder => (release_duty name holder i).1
  | OpWriteOutput l output => (write_job_output now l output i).1
  | OpWriteProgress l update => (write_job_progress now l update i).1
  | OpSetQueuePaused queue p => set_queue_paused queue p i
  | OpSetRateLimit name limit window_ms burst => set_rate_limit now name limit window_ms burst i
  | OpFreezeClock _ | OpAdvanceClock _ | OpUnfreezeClock => i
  end.

Definition run_op (sys : Z) (ord : list string) (o : mem_op) (s : MemStore) : MemStore :=
  let s' := s <| inner := run_inner (mem_now sys s) ord (retry_policy s) o (inner s) |> in
  match o with
  | OpFreezeClock ms => freeze_clock_at ms s'
  | OpAdvanceClock by_ms => advance_clock sys by_ms s'
  | OpUnfreezeClock => unfreeze_clock s'
  | _ => s'
  end.

Inductive mem_step (s : MemStore) : MemStore → Prop :=
  | mem_step_run sys ord o : ord ≡ₚ job_ids (inner s) → mem_step s (run_op sys ord o s).

Definition mem_reachable (s : MemStore) : Prop := rtc mem_step mem_new s.
