(* ===== verification/MemAdmit.v ===== *)
(** * Admission of the in-memory store

    Theorems about [mem_admit] of [MemStore]: which jobs a call claims and what it leaves
    alone, the capacity bound, the token accounting of rate classes, work conservation,
    and that the [HashMap] iteration order never shows.  One invariant, [drawn], relates
    every intermediate state of the call to the store it started from. *)

From S2P Require Import Prelude Shared Lifecycle Envelope MemStore.
Local Open Scope Z_scope.

(** ** What a call may claim *)

Definition quarantined_fp (i : Inner) (j : MemJob) : bool :=
  negb (String.eqb (e_fingerprint (mj_env j)) "")
  && bool_decide (is_Some (quarantine i !! e_fingerprint (mj_env j))).

(** The class a job is charged to, when its bucket is configured. *)
Definition is_charged (i : Inner) (j : MemJob) : bool :=
  negb (String.eqb (e_rate_class (mj_env j)) "")
  && bool_decide (is_Some (rate i !! e_rate_class (mj_env j))).

Definition charge_of (i : Inner) (j : MemJob) : Z :=
  if is_charged i j then job_cost (mj_env j) else 0.

Definition lease_expiry (now : Z) (req : AdmitRequest) : Z :=
  i64_add now (wrap_i64 (as_millis (ar_lease req))).

Definition leased (now : Z) (req : AdmitRequest) (i : Inner) (j : MemJob) : MemJob :=
  lease_job (ar_lease_id req) (lease_expiry now req) (charge_of i j) j.

Definition claim_of (now : Z) (req : AdmitRequest) (j : MemJob) : Claim :=
  mkClaim (mj_env j) (ar_lease_id req) (u64_add (mj_fence j) 1) (lease_expiry now req)
    (mj_checkpoint j).

(** Eligible in some queue the request polls. *)
Definition eligible (now : Z) (req : AdmitRequest) (i : Inner) (j : MemJob) : Prop :=
  quarantined_fp i j = false
  ∧ ∃ q, q ∈ ar_queues req ∧ default false (paused i !! q) = false
         ∧ candidate now req q j = true.

(** Everything [mem_admit] never writes. *)
Record admit_frame (i0 i : Inner) : Prop := {
  fr_unique : unique i = unique i0;
  fr_throttle : throttle i = throttle i0;
  fr_quarantine : quarantine i = quarantine i0;
  fr_paused : paused i = paused i0;
  fr_duties : duties i = duties i0;
}.

(** Buckets are only ever refilled before the final spending. *)
Definition refilled (now : Z) (r0 r : gmap string RateBucket) : Prop :=
  ∀ rc, r !! rc = r0 !! rc ∨ r !! rc = refill now <$> r0 !! rc.

(** ** Candidate lists *)

(** Drawn from partition [p] of queue [q]. *)
Definition in_part (now : Z) (req : AdmitRequest) (q : string) (i : Inner) (p id : string) : bool :=
  from_option (λ j, candidate now req q j && String.eqb (e_partition_key (mj_env j)) p) false
    (jobs i !! id).

Lemma in_part_true now req q i p id :
  in_part now req q i p id = true
  ↔ ∃ j, jobs i !! id = Some j ∧ candidate now req q j = true ∧ e_partition_key (mj_env j) = p.
Proof.
  unfold in_part. destruct (jobs i !! id) as [j|]; simpl.
  - rewrite andb_true_iff, String.eqb_eq. split; [eauto|]. by intros (? & [= <-] & ? & ?).
  - split; [done|]. by intros (? & ? & _).
Qed.

Lemma group_lookup now req q i ord m p :
  foldl (push_candidate now req q i) m ord !! p =
  match m !! p, filter (λ id, in_part now req q i p id = true) ord with
  | None, [] => None
  | o, l => Some (default [] o ++ l)
  end.
Proof.
  revert m. induction ord as [|id ord IH]; intros m; simpl.
  { rewrite filter_nil. destruct (m !! p); simpl; [by rewrite app_nil_r|done]. }
  rewrite IH, filter_cons. clear IH.
  pose proof (in_part_true now req q i p id) as Hin. unfold push_candidate.
  destruct (jobs i !! id) as [j|]; [|rewrite decide_False; [done|intros (?&?&?&?)%Hin; congruence]].
  destruct (candidate now req q j) eqn:Ec; [|rewrite decide_False; [done|intros (?&?&?&?)%Hin; congruence]].
  destruct (decide (e_partition_key (mj_env j) = p)) as [Hp|Hne].
  - rewrite Hp, lookup_insert_eq, decide_True by (rewrite Hin; eauto). simpl.
    rewrite <-app_assoc. simpl. by destruct (m !! p); destruct (filter _ ord).
  - rewrite lookup_insert_ne, decide_False; [done|intros (?&?&?&?)%Hin; congruence|done].
Qed.

#[export] Instance draw_le_po i : PartialOrder (draw_le i).
Proof.
  unfold draw_le. split; [split|].
  - intros a. right. split; [done|]. right. done.
  - intros a b c H1 H2. destruct H1 as [?|[? [?|[? Hab]]]], H2 as [?|[? [?|[? Hbc]]]];
      [left; lia..|right; split; [lia|left; lia]|right; split; [lia|left; lia]|left; lia
      |right; split; [lia|left; lia]|].
    right. split; [lia|]. right. split; [lia|]. by etrans.
  - intros a b H1 H2. destruct H1 as [?|[? [?|[? Hab]]]], H2 as [?|[? [?|[? Hba]]]]; try lia.
    by apply (anti_symm String.le).
Qed.

#[export] Instance draw_le_total i : Total (draw_le i).
Proof.
  intros a b. unfold draw_le.
  destruct (Z.lt_trichotomy (e_priority (env_of i a)) (e_priority (env_of i b))) as [?|[?|?]];
    [right; lia| |left; lia].
  destruct (Z.lt_trichotomy (e_scheduled_at_ms (env_of i a)) (e_scheduled_at_ms (env_of i b)))
    as [?|[?|?]]; [left; right; lia| |right; right; lia].
  destruct (total String.le a b); [left|right]; right; split; [lia| |lia|]; right; split; (lia || done).
Qed.

(** Sorting by a total order forgets the order of the input. *)
Lemma merge_sort_perm {A} (R : relation A) `{!PartialOrder R, !Total R, !RelDecision R} l1 l2 :
  l1 ≡ₚ l2 → merge_sort R l1 = merge_sort R l2.
Proof.
  intros HP. apply (StronglySorted_unique R); [apply (StronglySorted_merge_sort _)..|].
  by rewrite !merge_sort_Permutation.
Qed.

Lemma sorted_parts_perm now req q i o1 o2 :
  o1 ≡ₚ o2 →
  sort_parts i (group_by_part now o1 req q i) = sort_parts i (group_by_part now o2 req q i).
Proof.
  intros HP. apply map_eq. intros p. unfold sort_parts, group_by_part.
  rewrite !lookup_fmap, !group_lookup, lookup_empty.
  assert (filter (λ id, in_part now req q i p id = true) o1
          ≡ₚ filter (λ id, in_part now req q i p id = true) o2) as Hf by (by rewrite HP).
  revert Hf. generalize (filter (λ id, in_part now req q i p id = true) o1) as l1.
  generalize (filter (λ id, in_part now req q i p id = true) o2) as l2.
  intros l2 l1 Hf. destruct l1 as [|a l1].
  - apply Permutation_nil_l in Hf. by subst.
  - destruct l2 as [|b l2]; [by apply Permutation_nil_r in Hf|]. simpl. f_equal.
    by apply merge_sort_perm; [apply _..|].
Qed.

(** ** The invariant *)

Section mem_admit.
Context (now : Z) (req : AdmitRequest) (i0 : Inner).

(** The state [d] of a call that has claimed the jobs [cs], in that order. *)
Record drawn (cs : list string) (d : Draw) : Prop := {
  dr_nodup : NoDup cs;
  dr_eligible id : id ∈ cs → ∃ j, jobs i0 !! id = Some j ∧ eligible now req i0 j;
  dr_units : d_units d = (λ c, [c]) <$> omap (λ id, claim_of now req <$> jobs i0 !! id) cs;
  dr_jobs id : jobs (d_inner d) !! id =
    if bool_decide (id ∈ cs) then leased now req i0 <$> jobs i0 !! id else jobs i0 !! id;
  dr_frame : admit_frame i0 (d_inner d);
  dr_rate : refilled now (rate i0) (rate (d_inner d));
  dr_len : Z.of_nat (length cs) ≤ Z.max 0 (ar_capacity req);
}.

(** The candidate lists of the queue being drawn. *)
Definition parts_ok (q : string) (cs : list string) (parts : gmap string (list string)) : Prop :=
  ∀ p ids, parts !! p = Some ids →
    NoDup ids ∧ ∀ id, id ∈ ids →
      (id ∉ cs) ∧ (∃ j, jobs i0 !! id = Some j ∧ candidate now req q j = true
                      ∧ e_partition_key (mj_env j) = p).

Lemma sum_list_perm l1 l2 : l1 ≡ₚ l2 → sum_list l1 = sum_list l2.
Proof. induction 1; simpl; lia. Qed.

Lemma omap_length_all {A B} (f : A → option B) l :
  (∀ x, x ∈ l → is_Some (f x)) → length (omap f l) = length l.
Proof.
  induction l as [|x l IH]; intros H; [done|]. csimpl.
  destruct (H x) as [y ->]; [by left|]. simpl. rewrite IH; [done|]. intros. apply H. by right.
Qed.

Lemma remaining_insert parts p ids rest :
  parts !! p = Some ids →
  (remaining (<[p := rest]> parts) + length ids = remaining parts + length rest)%nat.
Proof.
  intros Hp. unfold remaining.
  assert (∀ (m : gmap string (list string)) l, m !! p = Some l →
    sum_list (length ∘ snd <$> map_to_list m)
    = length l + sum_list (length ∘ snd <$> map_to_list (delete p m)))%nat as Hsum.
  { intros m l Hl. rewrite <-(sum_list_perm _ _ (fmap_Permutation _ _ _ (map_to_list_delete m p l Hl))).
    done. }
  rewrite (Hsum _ _ (lookup_insert_eq _ _ _)), (Hsum _ _ Hp), delete_insert_eq. lia.
Qed.

Lemma refill_idem b : refill now (refill now b) = refill now b.
Proof.
  unfold refill at 2 3. destruct (_ && _) eqn:E; [|unfold refill; by rewrite E].
  destruct (0 <? i64_div _ _) eqn:Eg.
  - unfold refill. simpl. unfold upd; simpl. rewrite E.
    unfold i64_sub. rewrite Z.sub_diag. change (wrap_i64 0) with 0.
    unfold i64_mul. rewrite Z.mul_0_l. change (wrap_i64 0) with 0.
    unfold i64_div. by rewrite Z.quot_0_l by (bool_hyps; lia).
  - unfold refill. by rewrite E, Eg.
Qed.

Lemma refilled_refl r : refilled now r r.
Proof. by left. Qed.

Lemma refilled_trans r1 r2 r3 : refilled now r1 r2 → refilled now r2 r3 → refilled now r1 r3.
Proof.
  intros H12 H23 rc. destruct (H12 rc) as [H1|H1], (H23 rc) as [H2|H2];
    rewrite H1 in H2; auto. right. rewrite H2. destruct (r1 !! rc); [|done].
  simpl. by rewrite refill_idem.
Qed.

Lemma refilled_insert r rc b : r !! rc = Some b → refilled now r (<[rc := refill now b]> r).
Proof.
  intros Hb rc'. destruct (decide (rc' = rc)) as [->|Hne].
  - right. by rewrite lookup_insert_eq, Hb.
  - left. by rewrite lookup_insert_ne.
Qed.

Lemma refilled_dom r0 r rc : refilled now r0 r → is_Some (r !! rc) ↔ is_Some (r0 !! rc).
Proof. intros Hr. destruct (Hr rc) as [->| ->]; [done|]. by rewrite fmap_is_Some. Qed.

(** A bucket that has had its refill of this call. *)
Definition settled (r : gmap string RateBucket) (rc : string) (b : RateBucket) : Prop :=
  r !! rc = Some b ∧ refill now b = b.

Lemma settled_refilled r r' rc b : refilled now r r' → settled r rc b → settled r' rc b.
Proof. intros Hr [Hb Hs]. split; [|done]. destruct (Hr rc) as [->| ->]; rewrite Hb; simpl; by rewrite ?Hs. Qed.

Lemma settled_of_refilled r0 r rc b : refilled now r0 r → settled r rc b →
  ∃ b0, r0 !! rc = Some b0 ∧ b = refill now b0.
Proof.
  intros Hr [Hb Hs]. destruct (Hr rc) as [H|H]; rewrite Hb in H; [by eauto|].
  destruct (r0 !! rc); simplify_eq/=. eauto.
Qed.

(** Why [admissible] refused a job, and what it means that it accepted one. *)
Definition taken_of (taken : gmap string Z) (rc : string) : Z := default 0 (taken !! rc).

Definition rejected (taken : gmap string Z) (r : gmap string RateBucket) (i : Inner)
    (id : string) : Prop :=
  ∀ j, jobs i !! id = Some j →
    quarantined_fp i j = true
    ∨ e_rate_class (mj_env j) ≠ "" ∧ ∃ b, settled r (e_rate_class (mj_env j)) b
      ∧ rb_tokens b < i64_add (taken_of taken (e_rate_class (mj_env j))) (job_cost (mj_env j)).

Definition accepted (taken : gmap string Z) (r : gmap string RateBucket) (i : Inner)
    (id : string) : Prop :=
  ∃ j, jobs i !! id = Some j ∧ quarantined_fp i j = false
    ∧ (e_rate_class (mj_env j) = "" ∨ r !! e_rate_class (mj_env j) = None
       ∨ ∃ b, settled r (e_rate_class (mj_env j)) b
         ∧ i64_add (taken_of taken (e_rate_class (mj_env j))) (job_cost (mj_env j)) ≤ rb_tokens b).

Lemma rejected_refilled taken r r' i id :
  refilled now r r' → rejected taken r i id → rejected taken r' i id.
Proof.
  intros Hr Hrej j Hj. destruct (Hrej j Hj) as [?|(? & b & ? & ?)]; [by left|right].
  split; [done|]. exists b. split; [by eapply settled_refilled|done].
Qed.

Lemma admissible_spec taken id i i' ok :
  admissible now taken id i = (i', ok) →
  ∃ r, i' = i <| rate := r |> ∧ refilled now (rate i) r
       ∧ if ok then accepted taken r i id else rejected taken r i id.
Proof.
  unfold admissible. intros H.
  assert (i = i <| rate := rate i |>) as Hi by (by destruct i).
  pose proof (refilled_refl (rate i)) as Hrefl.
  destruct (jobs i !! id) as [j|] eqn:Ej.
  2:{ injection H as <- <-. exists (rate i). split_and!; [done..|]. intros j ?. congruence. }
  fold (quarantined_fp i j) in H. destruct (quarantined_fp i j) eqn:Eq.
  { injection H as <- <-. exists (rate i). split_and!; [done..|]. intros j' ?. simplify_eq. by left. }
  destruct (String.eqb_spec (e_rate_class (mj_env j)) "") as [Erc|Erc].
  { injection H as <- <-. exists (rate i). split_and!; [done..|]. exists j. auto. }
  destruct (rate i !! _) as [b|] eqn:Eb; injection H as <- <-.
  - eexists. split; [done|]. split; [by apply refilled_insert|].
    assert (settled (<[e_rate_class (mj_env j) := refill now b]> (rate i))
              (e_rate_class (mj_env j)) (refill now b)) as Hset.
    { split; [by rewrite lookup_insert_eq|apply refill_idem]. }
    case_if; bool_hyps.
    + exists j. eauto 10.
    + intros j' ?. simplify_eq. right. eauto.
  - exists (rate i). split_and!; [done..|]. exists j. auto.
Qed.

Lemma pick_spec taken ids i i' rest picked :
  pick now taken ids i = (i', rest, picked) →
  ∃ r sk, i' = i <| rate := r |> ∧ refilled now (rate i) r
       ∧ ids = sk ++ option_list picked ++ rest ∧ Forall (rejected taken r i) sk
       ∧ match picked with Some id => accepted taken r i id | None => rest = [] end.
Proof.
  revert i. induction ids as [|id ids IH]; intros i H; simpl in H.
  { injection H as <- <- <-. exists (rate i), []. split_and!; [by destruct i|apply refilled_refl|done|done|done]. }
  destruct (admissible now taken id i) as [i1 ok] eqn:Ea.
  apply admissible_spec in Ea as (r1 & -> & Hr1 & Hok). destruct ok.
  - injection H as <- <- <-. exists r1, []. by split_and!.
  - apply IH in H as (r & sk & -> & Hr & -> & Hsk & Hp). exists r, (id :: sk).
    split_and!; [done|by eapply refilled_trans|done| |done].
    constructor; [by eapply rejected_refilled|done].
Qed.

(** The state after one partition's turn. *)
Definition after_pick (d : Draw) (p : string) (r : gmap string RateBucket) (rest : list string)
    : Draw :=
  d <| d_inner := (d_inner d) <| rate := r |> |> <| d_by_part := <[p := rest]> (d_by_part d) |>.

Lemma draw_part_inv d p d' ok :
  draw_part now req p d = (d', ok) →
  d_by_part d !! p = None ∧ d' = d ∧ ok = false
  ∨ ∃ sk rest r, refilled now (rate (d_inner d)) r
      ∧ Forall (rejected (d_taken d) r (d_inner d)) sk
      ∧ (d_by_part d !! p = Some sk ∧ rest = [] ∧ d' = after_pick d p r [] ∧ ok = false
         ∨ ∃ id, d_by_part d !! p = Some (sk ++ id :: rest)
             ∧ accepted (d_taken d) r (d_inner d) id
             ∧ d' = claim_job now req id (after_pick d p r rest) ∧ ok = true).
Proof.
  unfold draw_part. destruct (d_by_part d !! p) as [ids|] eqn:Ep; [|intros [= <- <-]; auto].
  destruct (pick _ _ _ _) as [[i rest] picked] eqn:Epk.
  apply pick_spec in Epk as (r & sk & -> & Hr & -> & Hsk & Hp). intros H. right.
  exists sk, rest, r. split_and!; [done..|].
  destruct picked as [id|]; injection H as <- <-; [right; by exists id|left].
  subst. simpl. by rewrite app_nil_r.
Qed.

Lemma claim_job_parts id d : d_by_part (claim_job now req id d) = d_by_part d.
Proof. unfold claim_job. by case_match. Qed.

Lemma leased_fields j : mj_env (leased now req i0 j) = mj_env j
  ∧ mj_fence (leased now req i0 j) = u64_add (mj_fence j) 1
  ∧ mj_state (leased now req i0 j) = "running"
  ∧ mj_checkpoint (leased now req i0 j) = mj_checkpoint j.
Proof. done. Qed.

Lemma candidate_available q j : candidate now req q j = true → mj_state j = "available".
Proof. unfold candidate. intros. bool_hyps. done. Qed.

Lemma drawn_set_parts cs d parts : drawn cs d → drawn cs (d <| d_by_part := parts |>).
Proof. by intros []. Qed.

(** Claiming an unclaimed eligible job. *)
Lemma claim_job_drawn cs d id j :
  drawn cs d → id ∉ cs → jobs i0 !! id = Some j → eligible now req i0 j →
  full req d = false → drawn (cs ++ [id]) (claim_job now req id d).
Proof.
  intros Hd Hni Hj Hel Hfull. destruct Hd as [Hnd Helig Hun Hjobs Hfr Hrate Hlen].
  assert (jobs (d_inner d) !! id = Some j) as Hj'.
  { rewrite Hjobs. by rewrite bool_decide_eq_false_2. }
  assert (rate (d_inner d) !! e_rate_class (mj_env j) = rate (d_inner d) !! e_rate_class (mj_env j)
    ∧ bool_decide (is_Some (rate (d_inner d) !! e_rate_class (mj_env j)))
      = bool_decide (is_Some (rate i0 !! e_rate_class (mj_env j)))) as [_ Hch].
  { split; [done|]. apply bool_decide_ext. by eapply refilled_dom. }
  unfold claim_job. rewrite Hj', Hch. fold (is_charged i0 j) (charge_of i0 j).
  fold (lease_expiry now req) (leased now req i0 j).
  constructor; simpl.
  - apply NoDup_app. split_and!; [done|set_solver|apply NoDup_singleton].
  - intros id' [?|?%list_elem_of_singleton]%elem_of_app; [auto|]. subst. eauto.
  - rewrite omap_app, fmap_app, <-Hun. simpl. by rewrite Hj.
  - intros id'. unfold upd; simpl. destruct (decide (id' = id)) as [->|Hne].
    + rewrite lookup_insert_eq, bool_decide_eq_true_2 by set_solver. by rewrite Hj.
    + rewrite lookup_insert_ne, Hjobs by done. rewrite (bool_decide_ext (id' ∈ cs ++ [id]) (id' ∈ cs)); [done|set_solver].
  - destruct Hfr. by constructor.
  - done.
  - unfold full in Hfull. bool_hyps. rewrite Hun, length_fmap in Hfull.
    rewrite omap_length_all in Hfull by (intros ? (j' & -> & _)%Helig; eauto).
    rewrite length_app. simpl. lia.
Qed.

Lemma parts_ok_skip q cs parts p ids sk rest :
  parts_ok q cs parts → parts !! p = Some ids → ids = sk ++ rest →
  parts_ok q cs (<[p := rest]> parts).
Proof.
  intros Hok Hp -> p' ids'. destruct (decide (p' = p)) as [->|Hne].
  - rewrite lookup_insert_eq. intros [= <-]. destruct (Hok _ _ Hp) as [[_ [_ Hnd]]%NoDup_app Hin].
    split; [done|]. intros id Hid. apply Hin. set_solver.
  - rewrite lookup_insert_ne by done. apply Hok.
Qed.

Lemma parts_ok_claim q cs parts p ids sk id rest :
  parts_ok q cs parts → parts !! p = Some ids → ids = sk ++ id :: rest →
  parts_ok q (cs ++ [id]) (<[p := rest]> parts).
Proof.
  intros Hok Hp Hids. destruct (Hok _ _ Hp) as [Hnd Hin]. subst ids.
  assert (id ∉ rest) as Hni.
  { apply NoDup_app in Hnd as (_ & _ & Hnd). by apply NoDup_cons in Hnd as [? _]. }
  destruct (Hin id ltac:(set_solver)) as (_ & jd & Hjd & _ & Hpd).
  pose proof (parts_ok_skip q cs parts p _ (sk ++ [id]) rest Hok Hp
    ltac:(by rewrite <-app_assoc)) as Hok'.
  intros p' ids' Hp'. destruct (Hok' _ _ Hp') as [Hnd' Hin']. split; [done|].
  intros id' Hid'. destruct (Hin' id' Hid') as (Hnc & j & Hj & Hc & Hpj).
  split; [|eauto]. rewrite not_elem_of_app, list_elem_of_singleton. split; [done|].
  intros ->. rewrite Hjd in Hj. simplify_eq. rewrite lookup_insert_eq in Hp'. by simplify_eq.
Qed.

Lemma drawn_after_pick cs d p r l :
  refilled now (rate (d_inner d)) r → drawn cs d → drawn cs (after_pick d p r l).
Proof.
  intros Hr [? ? ? ? [] ? ?]. constructor; auto; [by constructor|]. by eapply refilled_trans.
Qed.

Lemma accepted_eligible q cs d taken r id j :
  q ∈ ar_queues req → default false (paused i0 !! q) = false → drawn cs d → id ∉ cs →
  jobs i0 !! id = Some j → candidate now req q j = true → accepted taken r (d_inner d) id →
  eligible now req i0 j.
Proof.
  intros Hq Hpz Hd Hni Hj Hc (j' & Hj' & Hqf & _).
  rewrite (dr_jobs _ _ Hd), bool_decide_eq_false_2, Hj in Hj' by done. simplify_eq.
  split; [|eauto]. unfold quarantined_fp in *. by rewrite <-(fr_quarantine _ _ (dr_frame _ _ Hd)).
Qed.

Lemma draw_part_drawn q cs d p d' ok :
  q ∈ ar_queues req → default false (paused i0 !! q) = false →
  drawn cs d → parts_ok q cs (d_by_part d) → full req d = false →
  draw_part now req p d = (d', ok) →
  ∃ cs', drawn cs' d' ∧ parts_ok q cs' (d_by_part d').
Proof.
  intros Hq Hpz Hd Hok Hfull [(_ & -> & _)|(sk & rest & r & Hr & _ & Hp)]%draw_part_inv; [by exists cs|].
  pose proof (λ l, drawn_after_pick cs d p r l Hr Hd) as Hd'.
  destruct Hp as [(Ep & -> & -> & _)|(id & Ep & Hacc & -> & _)].
  - exists cs. split; [done|]. eapply parts_ok_skip; eauto. by rewrite app_nil_r.
  - destruct (Hok _ _ Ep) as [_ Hin].
    destruct (Hin id ltac:(set_solver)) as (Hni & j & Hj & Hc & _).
    exists (cs ++ [id]). rewrite claim_job_parts. split; [|by eapply parts_ok_claim].
    eapply claim_job_drawn; eauto. eapply accepted_eligible; eauto.
Qed.

(** ** The loops *)

Lemma draw_round_ind (P : Draw → Prop) parts d pr d' pr' :
  (∀ d p d' ok, P d → full req d = false → draw_part now req p d = (d', ok) → P d') →
  P d → draw_round now req parts d pr = (d', pr') → P d'.
Proof.
  intros Hstep. revert d pr. induction parts as [|p parts IH]; intros d pr HP; simpl.
  { by intros [= <- <-]. }
  destruct (full req d) eqn:Ef; [by intros [= <- <-]|].
  destruct (draw_part now req p d) as [d1 ok] eqn:E1. apply IH. eauto.
Qed.

Lemma draw_loop_ind (P : Draw → Prop) fuel parts d :
  (∀ d p d' ok, P d → full req d = false → draw_part now req p d = (d', ok) → P d') →
  P d → P (draw_loop fuel now req parts d).
Proof.
  intros Hstep. revert d. induction fuel as [|fuel IH]; intros d HP; [done|]. simpl.
  destruct (draw_round now req parts d false) as [d1 pr] eqn:E1.
  assert (P d1) by (eapply draw_round_ind; eauto). case_if; auto.
Qed.

Lemma draw_part_remaining d p d' ok :
  draw_part now req p d = (d', ok) →
  (remaining (d_by_part d') + (if ok then 1 else 0) ≤ remaining (d_by_part d))%nat.
Proof.
  intros [(_ & -> & ->)|(sk & rest & r & _ & _ & Hp)]%draw_part_inv; [lia|].
  destruct Hp as [(Ep & _ & -> & ->)|(id & Ep & _ & -> & ->)]; rewrite ?claim_job_parts;
    [pose proof (remaining_insert _ _ _ [] Ep) as H|pose proof (remaining_insert _ _ _ rest Ep) as H];
    rewrite ?length_app in H; simpl in *; lia.
Qed.

Lemma draw_round_remaining parts d pr d' pr' :
  draw_round now req parts d pr = (d', pr') →
  (remaining (d_by_part d') ≤ remaining (d_by_part d))%nat
  ∧ (pr = false → pr' = true → remaining (d_by_part d') < remaining (d_by_part d))%nat.
Proof.
  revert d pr. induction parts as [|p parts IH]; intros d pr; simpl.
  { intros [= <- <-]. split; [lia|congruence]. }
  destruct (full req d) eqn:Ef; [intros [= <- <-]; split; [lia|congruence]|].
  destruct (draw_part now req p d) as [d1 ok] eqn:E1. intros H.
  apply draw_part_remaining in E1. destruct (IH _ _ H) as [H1 H2]. split; [lia|].
  intros -> ->. destruct ok; [lia|]. specialize (H2 eq_refl eq_refl). lia.
Qed.

(** Fuel beyond the number of candidates is never used up. *)
Lemma draw_loop_fuel f1 f2 parts d :
  (remaining (d_by_part d) < f1)%nat → (remaining (d_by_part d) < f2)%nat →
  draw_loop f1 now req parts d = draw_loop f2 now req parts d.
Proof.
  revert f2 d. induction f1 as [|f1 IH]; intros [|f2] d H1 H2; try lia. simpl.
  destruct (draw_round now req parts d false) as [d1 pr] eqn:E1.
  destruct (negb pr || full req d1) eqn:Ex; [done|]. apply orb_false_iff in Ex as [Hp _].
  apply negb_false_iff in Hp. subst.
  destruct (draw_round_remaining _ _ _ _ _ E1) as [_ Hlt]. specialize (Hlt eq_refl eq_refl).
  apply IH; lia.
Qed.

Lemma draw_loop_exit fuel parts d :
  (remaining (d_by_part d) < fuel)%nat →
  full req (draw_loop fuel now req parts d) = true
  ∨ ∃ d1, draw_round now req parts d1 false = (draw_loop fuel now req parts d, false).
Proof.
  revert d. induction fuel as [|fuel IH]; intros d Hf; [lia|]. simpl.
  destruct (draw_round now req parts d false) as [d1 pr] eqn:E1.
  destruct (negb pr || full req d1) eqn:Ex.
  - destruct (full req d1) eqn:Efl; [by left|]. rewrite orb_false_r in Ex.
    apply negb_true_iff in Ex. subst. right. eauto.
  - apply orb_false_iff in Ex as [Hp _]. apply negb_false_iff in Hp. subst.
    destruct (draw_round_remaining _ _ _ _ _ E1) as [_ Hlt]. specialize (Hlt eq_refl eq_refl).
    apply IH. lia.
Qed.

(** A partition's list that is used up stays so. *)
Definition exhausted (d : Draw) (p : string) : Prop :=
  d_by_part d !! p = None ∨ d_by_part d !! p = Some [].

Lemma draw_part_exhausts d p d' : draw_part now req p d = (d', false) → exhausted d' p.
Proof.
  unfold exhausted. intros [(? & -> & _)|(sk & rest & r & _ & _ & Hp)]%draw_part_inv; [auto|].
  destruct Hp as [(_ & _ & -> & _)|(id & _ & _ & _ & ?)]; [|done].
  right. simpl. by rewrite lookup_insert_eq.
Qed.

Lemma draw_part_keeps_exhausted d p d' ok p' :
  draw_part now req p d = (d', ok) → exhausted d p' → exhausted d' p'.
Proof.
  unfold exhausted. intros [(? & -> & _)|(sk & rest & r & _ & _ & Hp)]%draw_part_inv Hex; [done|].
  destruct Hp as [(Ep & _ & -> & _)|(id & Ep & _ & -> & _)]; rewrite ?claim_job_parts; simpl;
    (destruct (decide (p' = p)) as [->|Hne]; [|by rewrite lookup_insert_ne]).
  - rewrite lookup_insert_eq. auto.
  - rewrite Ep in Hex. destruct Hex as [|[= Hex]]; [done|]. by apply app_nil in Hex as [_ ?].
Qed.

Lemma draw_round_idle parts d pr d' :
  draw_round now req parts d pr = (d', false) → full req d' = false →
  pr = false ∧ (∀ p, p ∈ parts → exhausted d' p) ∧ (∀ p, exhausted d p → exhausted d' p).
Proof.
  revert d pr. induction parts as [|p parts IH]; intros d pr; simpl.
  { intros [= <- ->] _. split_and!; [done| |done]. intros p. by rewrite elem_of_nil. }
  destruct (full req d) eqn:Ef; [intros [= <- ->]; congruence|].
  destruct (draw_part now req p d) as [d1 ok] eqn:E1. intros H Hnf.
  destruct (IH _ _ H Hnf) as (Hpr & Hall & Hkeep). apply orb_false_iff in Hpr as [-> ->].
  split_and!; [done| |].
  - intros p' [->|Hp']%elem_of_cons; [|auto]. by eapply Hkeep, draw_part_exhausts.
  - intros p' Hp'. by eapply Hkeep, draw_part_keeps_exhausted.
Qed.

(** ** A whole queue *)

Lemma leased_not_candidate q j : candidate now req q (leased now req i0 j) = false.
Proof. unfold candidate. simpl. by rewrite andb_false_r. Qed.

Lemma in_part_drawn q cs d p id :
  drawn cs d → in_part now req q (d_inner d) p id = true →
  id ∉ cs ∧ in_part now req q i0 p id = true.
Proof.
  intros Hd. rewrite !in_part_true, (dr_jobs _ _ Hd). intros (j & Hj & Hc & Hp).
  case_bool_decide; [|by eauto 10].
  destruct (jobs i0 !! id); simplify_eq/=. by rewrite leased_not_candidate in Hc.
Qed.

Lemma sort_parts_lookup q ord i p :
  sort_parts i (group_by_part now ord req q i) !! p =
  match filter (λ id, in_part now req q i p id = true) ord with
  | [] => None | l => Some (merge_sort (draw_le i) l) end.
Proof.
  unfold sort_parts, group_by_part. rewrite lookup_fmap, group_lookup, lookup_empty.
  by destruct (filter _ _).
Qed.

Lemma sort_parts_ok q cs d ord :
  drawn cs d → NoDup ord →
  parts_ok q cs (sort_parts (d_inner d) (group_by_part now ord req q (d_inner d))).
Proof.
  intros Hd Hnd p ids. rewrite sort_parts_lookup.
  destruct (filter _ ord) as [|a l] eqn:Ef; [done|]. rewrite <-Ef. clear Ef. intros [= <-]. split.
  - rewrite merge_sort_Permutation. by apply NoDup_filter.
  - intros id. rewrite merge_sort_Permutation, list_elem_of_filter. intros [Hin _].
    apply (in_part_drawn _ cs) in Hin as [? Hin]; [|done]. split; [done|]. by apply in_part_true.
Qed.

Lemma drawn_set_rr cs d m : drawn cs d → drawn cs (d <| d_inner := (d_inner d) <| rr := m |> |>).
Proof. intros [? ? ? ? [] ? ?]. constructor; auto. by constructor. Qed.

Lemma draw_queue_drawn q cs d ord :
  q ∈ ar_queues req → NoDup ord → drawn cs d → ∃ cs', drawn cs' (draw_queue now ord req d q).
Proof.
  intros Hq Hnd Hd. unfold draw_queue. destruct (_ || _) eqn:Ex; [by exists cs|].
  apply orb_false_iff in Ex as [Hf Hpz]. case_bool_decide; [by exists cs|].
  rewrite (fr_paused _ _ (dr_frame _ _ Hd)) in Hpz.
  match goal with |- ∃ _, drawn _ ?d' =>
    cut (∃ cs', drawn cs' d' ∧ parts_ok q cs' (d_by_part d')); [naive_solver|] end.
  apply draw_loop_ind.
  - intros d1 p d2 ok (cs1 & Hd1 & Hok1) Hf1 E. by eapply draw_part_drawn.
  - exists cs. split; [|by apply sort_parts_ok]. apply drawn_set_parts. by apply drawn_set_rr.
Qed.

Lemma drawn_init : drawn [] (mkDraw i0 ∅ [] ∅).
Proof.
  constructor; simpl; try done.
  - constructor.
  - intros id. by rewrite elem_of_nil.
  - apply refilled_refl.
  - lia.
Qed.

(** The draw of a whole call. *)
Definition drawn_all (ord : list string) : Draw :=
  foldl (draw_queue now ord req) (mkDraw i0 ∅ [] ∅) (ar_queues req).

Lemma drawn_all_drawn ord : NoDup ord → ∃ cs, drawn cs (drawn_all ord).
Proof.
  intros Hnd. unfold drawn_all. apply (foldl_inv (λ d, ∃ cs, drawn cs d)).
  - exists []. apply drawn_init.
  - intros d q Hq [cs Hd]. by eapply draw_queue_drawn.
Qed.

Lemma foldl_spend t r rc :
  NoDup t.*1 →
  foldl spend r t !! rc =
  (λ b, match list_to_map (M := gmap string Z) t !! rc with
        | Some n => b <| rb_tokens := i64_sub (rb_tokens b) n |> | None => b end) <$> r !! rc.
Proof.
  revert r. induction t as [|[k n] t IH]; intros r Hnd; csimpl in *.
  { rewrite lookup_empty. by destruct (r !! rc). }
  apply NoDup_cons in Hnd as [Hk Hnd]. rewrite IH by done. unfold spend; simpl.
  destruct (decide (rc = k)) as [->|Hne].
  - rewrite lookup_insert_eq, lookup_alter_eq, (not_elem_of_list_to_map_1 t k) by done.
    by destruct (r !! k).
  - by rewrite lookup_insert_ne, lookup_alter_ne by done.
Qed.

Lemma spend_lookup (taken : gmap string Z) r rc :
  foldl spend r (map_to_list taken) !! rc =
  (λ b, match taken !! rc with
        | Some n => b <| rb_tokens := i64_sub (rb_tokens b) n |> | None => b end) <$> r !! rc.
Proof.
  rewrite foldl_spend by apply NoDup_fst_map_to_list. by rewrite list_to_map_to_list.
Qed.

(** ** Token accounting

    Costs are [u32] weights and bursts leave room for one of them below [i64::MAX], so
    that the sums of a call do not wrap. *)

Definition sane_store : Prop :=
  (∀ rc b, rate i0 !! rc = Some b →
     rb_tokens b ≤ rb_burst b ∧ rb_burst b ≤ i64_max - u32_max)
  ∧ (∀ id j, jobs i0 !! id = Some j → in_u32 (e_weight (mj_env j))).

(** What the claims [cs] cost class [rc]. *)
Definition charge_in (rc id : string) : Z :=
  match jobs i0 !! id with
  | Some j => if String.eqb (e_rate_class (mj_env j)) rc then charge_of i0 j else 0
  | None => 0
  end.
Definition charged (cs : list string) (rc : string) : Z := foldr Z.add 0 (charge_in rc <$> cs).

Record accounted (cs : list string) (d : Draw) : Prop := {
  ac_taken rc : taken_of (d_taken d) rc = charged cs rc;
  ac_tokens rc : is_Some (d_taken d !! rc) →
    ∃ b, settled (rate (d_inner d)) rc b ∧ charged cs rc ≤ rb_tokens b;
}.

(** A candidate the call had to leave behind. *)
Definition blocked (d : Draw) (j : MemJob) : Prop :=
  quarantined_fp i0 j = true
  ∨ is_charged i0 j = true
    ∧ ∃ b, settled (rate (d_inner d)) (e_rate_class (mj_env j)) b
        ∧ rb_tokens b < taken_of (d_taken d) (e_rate_class (mj_env j)) + job_cost (mj_env j).

Definition covered (q : string) (cs : list string) (d : Draw) : Prop :=
  ∀ id j, jobs i0 !! id = Some j → candidate now req q j = true →
    id ∈ cs ∨ (∃ p ids, d_by_part d !! p = Some ids ∧ id ∈ ids) ∨ blocked d j.

Definition served (q : string) (cs : list string) (d : Draw) : Prop :=
  ∀ id j, jobs i0 !! id = Some j → candidate now req q j = true → id ∈ cs ∨ blocked d j.

Lemma charged_snoc cs id rc : charged (cs ++ [id]) rc = charged cs rc + charge_in rc id.
Proof.
  unfold charged. rewrite fmap_app. induction (charge_in rc <$> cs); simpl in *; lia.
Qed.

Lemma refill_tokens b : rb_tokens b ≤ rb_burst b →
  rb_tokens (refill now b) ≤ rb_burst b ∧ rb_burst (refill now b) = rb_burst b.
Proof. unfold refill. intros. repeat case_if; simpl; lia. Qed.

Section sane.
Context (Hsane : sane_store).

Lemma job_cost_range id j : jobs i0 !! id = Some j → 1 ≤ job_cost (mj_env j) ≤ u32_max.
Proof.
  intros Hj. destruct Hsane as [_ Hw]. specialize (Hw _ _ Hj). revert Hw.
  unfold job_cost, effective_weight, in_u32, u32_max, DEFAULT_WEIGHT.
  destruct (Z.eqb_spec (e_weight (mj_env j)) 0); lia.
Qed.

Lemma charge_in_nonneg rc id : 0 ≤ charge_in rc id.
Proof.
  unfold charge_in, charge_of. destruct (jobs i0 !! id) as [j|] eqn:Ej; [|done].
  pose proof (job_cost_range _ _ Ej). repeat case_if; lia.
Qed.

Lemma charged_nonneg cs rc : 0 ≤ charged cs rc.
Proof.
  unfold charged. induction cs as [|id cs IH]; csimpl; [done|].
  pose proof (charge_in_nonneg rc id). lia.
Qed.

Lemma settled_bound cs d rc b :
  drawn cs d → settled (rate (d_inner d)) rc b → rb_tokens b ≤ i64_max - u32_max.
Proof.
  intros Hd Hs. eapply settled_of_refilled in Hs as (b0 & Hb0 & ->); [|apply (dr_rate _ _ Hd)].
  destruct Hsane as [Hr _]. destruct (Hr _ _ Hb0) as [H1 H2].
  destruct (refill_tokens b0 H1). lia.
Qed.

(** The running total of a class never wraps. *)
Lemma taken_add cs d id j :
  drawn cs d → accounted cs d → jobs i0 !! id = Some j →
  i64_add (taken_of (d_taken d) (e_rate_class (mj_env j))) (job_cost (mj_env j))
  = charged cs (e_rate_class (mj_env j)) + job_cost (mj_env j).
Proof.
  intros Hd Ha Hj. set (rc := e_rate_class (mj_env j)).
  pose proof (job_cost_range _ _ Hj) as Hc. pose proof (charged_nonneg cs rc) as H0.
  rewrite (ac_taken _ _ Ha). apply i64_add_id. unfold in_i64, i64_min.
  destruct (d_taken d !! rc) as [n|] eqn:En.
  - destruct (ac_tokens _ _ Ha rc) as (b & Hs & Hle); [by rewrite En|].
    pose proof (settled_bound _ _ _ _ Hd Hs). unfold u32_max, i64_max in *. lia.
  - pose proof (ac_taken _ _ Ha rc) as Ht. unfold taken_of in Ht. rewrite En in Ht. simpl in Ht.
    unfold u32_max, i64_max in *. lia.
Qed.

Lemma accounted_after_pick cs d p r rest :
  refilled now (rate (d_inner d)) r → accounted cs d → accounted cs (after_pick d p r rest).
Proof.
  intros Hr [Ht Hk]. constructor; [done|]. intros rc Hrc.
  destruct (Hk rc Hrc) as (b & Hs & Hle). exists b. split; [|done]. by eapply settled_refilled.
Qed.

Lemma charge_in_self j id :
  jobs i0 !! id = Some j → charge_in (e_rate_class (mj_env j)) id = charge_of i0 j.
Proof. intros Hj. unfold charge_in. by rewrite Hj, String.eqb_refl. Qed.

Lemma charge_in_other rc j id :
  jobs i0 !! id = Some j → rc ≠ e_rate_class (mj_env j) → charge_in rc id = 0.
Proof.
  intros Hj Hne. unfold charge_in. rewrite Hj.
  destruct (String.eqb_spec (e_rate_class (mj_env j)) rc); [congruence|done].
Qed.

(** The fields a claim changes. *)
Lemma claim_job_taken cs d id j :
  drawn cs d → accounted cs d → id ∉ cs → jobs i0 !! id = Some j →
  rate (d_inner (claim_job now req id d)) = rate (d_inner d)
  ∧ d_taken (claim_job now req id d) =
    if is_charged i0 j
    then <[e_rate_class (mj_env j) :=
             charged cs (e_rate_class (mj_env j)) + job_cost (mj_env j)]> (d_taken d)
    else d_taken d.
Proof.
  intros Hd Ha Hni Hj. unfold claim_job.
  rewrite (dr_jobs _ _ Hd), bool_decide_eq_false_2, Hj by done. split; [done|]. simpl.
  unfold is_charged. fold (taken_of (d_taken d) (e_rate_class (mj_env j))).
  rewrite (taken_add cs d id j) by done.
  by rewrite (bool_decide_ext _ _ (refilled_dom _ _ _ (dr_rate _ _ Hd))).
Qed.

Lemma claim_job_accounted cs d id j :
  drawn cs d → accounted cs d → id ∉ cs → jobs i0 !! id = Some j →
  accepted (d_taken d) (rate (d_inner d)) (d_inner d) id →
  accounted (cs ++ [id]) (claim_job now req id d).
Proof.
  intros Hd Ha Hni Hj (j' & Hj' & _ & Hacc).
  rewrite (dr_jobs _ _ Hd), bool_decide_eq_false_2, Hj in Hj' by done. simplify_eq.
  destruct (claim_job_taken cs d id j' Hd Ha Hni Hj) as [Hrate Htk].
  pose proof (charge_in_self j' id Hj) as Hself. unfold charge_of in Hself.
  destruct (is_charged i0 j') eqn:Ech.
  - constructor; intros rc; rewrite charged_snoc, Htk.
    + unfold taken_of. destruct (decide (rc = e_rate_class (mj_env j'))) as [->|Hne].
      * by rewrite lookup_insert_eq, Hself.
      * rewrite lookup_insert_ne, (charge_in_other rc j'), Z.add_0_r by done. apply Ha.
    + rewrite Hrate. destruct (decide (rc = e_rate_class (mj_env j'))) as [->|Hne].
      * intros _. rewrite Hself. rewrite (taken_add cs d id j') in Hacc by done.
        unfold is_charged in Ech. apply andb_true_iff in Ech as [Hrc Hcf]. bool_hyps.
        destruct Hacc as [?|[Hn|(b & ? & ?)]]; [done| |by exists b].
        apply bool_decide_eq_true in Hcf.
        eapply refilled_dom in Hcf; [|apply (dr_rate _ _ Hd)]. rewrite Hn in Hcf. by destruct Hcf.
      * rewrite lookup_insert_ne, (charge_in_other rc j'), Z.add_0_r by done. apply Ha.
  - assert (∀ rc, charge_in rc id = 0) as H0.
    { intros rc. destruct (decide (rc = e_rate_class (mj_env j'))) as [->|Hne]; [done|].
      by eapply charge_in_other. }
    constructor; intros rc; rewrite charged_snoc, H0, Z.add_0_r, Htk, ?Hrate; apply Ha.
Qed.

(** Taking more tokens and refilling only ever blocks more jobs. *)
Lemma blocked_mono d d' j :
  refilled now (rate (d_inner d)) (rate (d_inner d')) →
  (∀ rc, taken_of (d_taken d) rc ≤ taken_of (d_taken d') rc) →
  blocked d j → blocked d' j.
Proof.
  intros Hr Ht [?|(? & b & Hs & Hlt)]; [by left|right]. split; [done|]. exists b.
  split; [by eapply settled_refilled|]. specialize (Ht (e_rate_class (mj_env j))). lia.
Qed.

Lemma rejected_blocked cs d r id j p rest :
  drawn cs d → accounted cs d → id ∉ cs → jobs i0 !! id = Some j →
  refilled now (rate (d_inner d)) r → rejected (d_taken d) r (d_inner d) id →
  blocked (after_pick d p r rest) j.
Proof.
  intros Hd Ha Hni Hj Hr Hrej.
  destruct (Hrej j) as [Hq|(Hrc & b & Hs & Hlt)].
  { by rewrite (dr_jobs _ _ Hd), bool_decide_eq_false_2. }
  - left. unfold quarantined_fp in *. by rewrite (fr_quarantine _ _ (dr_frame _ _ Hd)) in Hq.
  - right. rewrite (taken_add cs d id j) in Hlt by done. split.
    + unfold is_charged. rewrite (proj2 (String.eqb_neq _ _)) by done. simpl.
      apply bool_decide_eq_true_2. eapply settled_of_refilled in Hs as (b0 & -> & _); [eauto|].
      eapply refilled_trans; [apply (dr_rate _ _ Hd)|done].
    + exists b. split; [done|]. simpl. by rewrite (ac_taken _ _ Ha).
Qed.

(** Later in the same call. *)
Definition extends (cs : list string) (d : Draw) (cs' : list string) (d' : Draw) : Prop :=
  cs ⊆ cs' ∧ refilled now (rate (d_inner d)) (rate (d_inner d'))
  ∧ ∀ rc, taken_of (d_taken d) rc ≤ taken_of (d_taken d') rc.

Lemma served_extends q cs d cs' d' :
  extends cs d cs' d' → served q cs d → served q cs' d'.
Proof.
  intros (Hcs & Hr & Ht) Hs id j Hj Hc. destruct (Hs id j Hj Hc) as [?|?]; [left; set_solver|right].
  by eapply blocked_mono.
Qed.

Lemma extends_claim cs d id j p r rest :
  drawn cs d → accounted cs d → id ∉ cs → jobs i0 !! id = Some j →
  refilled now (rate (d_inner d)) r →
  extends cs d (cs ++ [id]) (claim_job now req id (after_pick d p r rest)).
Proof.
  intros Hd Ha Hni Hj Hr. pose proof (drawn_after_pick cs d p r rest Hr Hd) as Hd'.
  destruct (claim_job_taken cs _ id j Hd' (accounted_after_pick cs d p r rest Hr Ha) Hni Hj)
    as [Hrate Htk].
  split_and!; [set_solver|by rewrite Hrate|]. intros rc. rewrite Htk. simpl.
  destruct (is_charged i0 j); [|lia]. unfold taken_of at 2.
  destruct (decide (rc = e_rate_class (mj_env j))) as [->|Hne].
  - rewrite lookup_insert_eq. simpl. rewrite (ac_taken _ _ Ha).
    pose proof (job_cost_range _ _ Hj). lia.
  - rewrite lookup_insert_ne by done. unfold taken_of. lia.
Qed.

(** The invariant of one queue's rounds, with the accounts. *)
Definition sound (q : string) (done : list string) (cs : list string) (d : Draw) : Prop :=
  drawn cs d ∧ parts_ok q cs (d_by_part d) ∧ accounted cs d ∧ covered q cs d
  ∧ ∀ q', q' ∈ done → served q' cs d.

Lemma covered_step q cs d cs' d' p (l l' sk : list string) :
  covered q cs d → extends cs d cs' d' →
  d_by_part d !! p = Some l → d_by_part d' = <[p := l']> (d_by_part d) →
  (∀ id, id ∈ l → id ∈ l' ∨ id ∈ cs' ∨ id ∈ sk) →
  (∀ id j, id ∈ sk → jobs i0 !! id = Some j → blocked d' j) →
  covered q cs' d'.
Proof.
  intros Hcov (Hsub & Hr & Ht) Hp Hbp Hl Hsk id j Hj Hc.
  destruct (Hcov id j Hj Hc) as [?|[(p1 & ids & Hp1 & Hid)|?]].
  - left. set_solver.
  - rewrite Hbp. destruct (decide (p1 = p)) as [->|Hne].
    + rewrite Hp in Hp1. simplify_eq. destruct (Hl id Hid) as [?|[?|?]]; [|by left|].
      * right; left. exists p, l'. by rewrite lookup_insert_eq.
      * right; right. eauto.
    + right; left. exists p1, ids. by rewrite lookup_insert_ne.
  - right; right. by eapply blocked_mono.
Qed.

Lemma draw_part_sound q done cs d p d' ok :
  q ∈ ar_queues req → default false (paused i0 !! q) = false →
  sound q done cs d → full req d = false → draw_part now req p d = (d', ok) →
  ∃ cs', sound q done cs' d'.
Proof.
  intros Hq Hpz (Hd & Hok & Ha & Hcov & Hdone) Hfull Hdp.
  pose proof Hdp as [(_ & -> & _)|(sk & rest & r & Hr & Hsk & Hp)]%draw_part_inv; [by exists cs|].
  pose proof (λ l, drawn_after_pick cs d p r l Hr Hd) as Hd'.
  assert (∀ l id j, Forall (rejected (d_taken d) r (d_inner d)) sk → id ∈ sk → id ∉ cs →
    jobs i0 !! id = Some j → blocked (after_pick d p r l) j) as Hbl.
  { intros l id j Hf Hid Hni Hj. rewrite Forall_forall in Hf.
    eapply rejected_blocked; eauto. }
  destruct Hp as [(Ep & -> & -> & _)|(id & Ep & Hacc & -> & _)].
  - assert (extends cs d cs (after_pick d p r [])) as Hext by (by split_and!).
    exists cs. split_and!; [done| |by apply accounted_after_pick| |].
    + eapply parts_ok_skip; eauto. by rewrite app_nil_r.
    + eapply (covered_step q cs d cs _ p sk [] sk); eauto.
      intros id j Hid. eapply Hbl; eauto. by apply (proj2 (Hok _ _ Ep)).
    + intros q' Hq'. eapply served_extends; eauto.
  - destruct (Hok _ _ Ep) as [_ Hin].
    destruct (Hin id ltac:(set_solver)) as (Hni & j & Hj & Hc & _).
    pose proof (extends_claim cs d id j p r rest Hd Ha Hni Hj Hr) as Hext.
    pose proof (accounted_after_pick cs d p r rest Hr Ha) as Ha'.
    destruct (claim_job_taken cs _ id j (Hd' rest) Ha' Hni Hj) as [Hrate _].
    exists (cs ++ [id]). unfold sound. rewrite claim_job_parts. split_and!.
    + eapply claim_job_drawn; eauto. eapply accepted_eligible; eauto.
    + by eapply parts_ok_claim.
    + eapply claim_job_accounted; eauto.
    + eapply (covered_step q cs d _ _ p _ rest sk); eauto; [by rewrite claim_job_parts|set_solver|].
      intros id' j' Hid' Hj'. eapply (blocked_mono (after_pick d p r rest)).
      * rewrite Hrate. apply refilled_refl.
      * intros rc. destruct Hext as (_ & _ & Ht). apply Ht.
      * eapply Hbl; eauto. apply Hin. set_solver.
    + intros q' Hq'. eapply served_extends; eauto.
Qed.

(** Every queue polled so far is served, unless it is paused or the call is full. *)
Definition queues_served (done cs : list string) (d : Draw) : Prop :=
  drawn cs d ∧ accounted cs d
  ∧ (full req d = true
     ∨ ∀ q, q ∈ done → default false (paused i0 !! q) = false → served q cs d).

Lemma covered_init q ord cs d :
  drawn cs d → ord ≡ₚ job_ids i0 →
  covered q cs (d <| d_inner := (d_inner d)
                      <| rr := <[q := u64_add (default 0 (rr (d_inner d) !! q)) 1]> (rr (d_inner d)) |> |>
                  <| d_by_part := sort_parts (d_inner d) (group_by_part now ord req q (d_inner d)) |>).
Proof.
  intros Hd Hord id j Hj Hc. destruct (decide (id ∈ cs)) as [|Hni]; [by left|right; left].
  exists (e_partition_key (mj_env j)). simpl. rewrite sort_parts_lookup.
  assert (id ∈ filter (λ id, in_part now req q (d_inner d) (e_partition_key (mj_env j)) id = true) ord)
    as Hin.
  { rewrite list_elem_of_filter, in_part_true, (dr_jobs _ _ Hd), bool_decide_eq_false_2 by done.
    split; [by eauto|]. rewrite Hord. unfold job_ids. apply list_elem_of_fmap.
    exists (id, j). split; [done|]. by apply elem_of_map_to_list. }
  destruct (filter _ ord) as [|a l] eqn:Ef; [by apply elem_of_nil in Hin|].
  eexists. split; [done|]. by rewrite merge_sort_Permutation.
Qed.

Lemma elem_of_part_names (parts : gmap string (list string)) p :
  p ∈ part_names parts ↔ is_Some (parts !! p).
Proof.
  unfold part_names, sort_strings. rewrite merge_sort_Permutation, list_elem_of_fmap. split.
  - intros ([k v] & -> & H%elem_of_map_to_list). eauto.
  - intros [v Hv]. exists (p, v). split; [done|]. by apply elem_of_map_to_list.
Qed.

Lemma elem_of_turn_order n l x : x ∈ turn_order n l ↔ x ∈ l.
Proof. unfold turn_order. by rewrite Permutation_app_comm, take_drop. Qed.

Lemma draw_loop_exhausts fuel start parts d :
  d_by_part d = parts → (remaining parts < fuel)%nat →
  let d' := draw_loop fuel now req (turn_order start (part_names parts)) d in
  full req d' = true ∨ ∀ p, exhausted d' p.
Proof.
  intros Hp Hf. simpl. destruct (full req _) eqn:Ef; [by left|right].
  destruct (draw_loop_exit fuel (turn_order start (part_names parts)) d) as [?|[d1 Hd1]];
    [by rewrite Hp|congruence|].
  intros p. destruct (parts !! p) as [l|] eqn:El.
  - destruct (draw_round_idle _ _ _ _ Hd1 Ef) as (_ & Hall & _). apply Hall.
    rewrite elem_of_turn_order, elem_of_part_names. eauto.
  - apply (draw_loop_ind (λ d, exhausted d p)).
    + intros d2 p2 d3 ok He _ Hdp. by eapply draw_part_keeps_exhausted.
    + left. by rewrite Hp.
Qed.

Lemma covered_exhausted q cs d : covered q cs d → (∀ p, exhausted d p) → served q cs d.
Proof.
  intros Hcov Hex id j Hj Hc. destruct (Hcov id j Hj Hc) as [?|[(p & ids & Hp & Hid)|?]]; auto.
  destruct (Hex p) as [Hn|Hn]; rewrite Hp in Hn; simplify_eq. by apply elem_of_nil in Hid.
Qed.

Lemma part_names_sort i parts : part_names (sort_parts i parts) = part_names parts.
Proof.
  unfold part_names, sort_parts, sort_strings. f_equal. rewrite map_to_list_fmap.
  rewrite <-list_fmap_compose. by apply list_fmap_ext.
Qed.

Lemma draw_queue_served q done cs d ord :
  q ∈ ar_queues req → ord ≡ₚ job_ids i0 → queues_served done cs d →
  ∃ cs', queues_served (done ++ [q]) cs' (draw_queue now ord req d q).
Proof.
  intros Hq Hord (Hd & Ha & Hs). unfold draw_queue.
  assert (NoDup ord) as Hnd by (rewrite Hord; apply NoDup_fst_map_to_list).
  destruct (full req d) eqn:Ef; [exists cs; split_and!; auto; by left|].
  destruct Hs as [?|Hs]; [congruence|]. rewrite (fr_paused _ _ (dr_frame _ _ Hd)), orb_false_l.
  destruct (default false (paused i0 !! q)) eqn:Epz.
  { exists cs. split_and!; [done..|right]. intros q' [?| ->%list_elem_of_singleton]%elem_of_app; [auto|congruence]. }
  set (bp := group_by_part now ord req q (d_inner d)).
  pose proof (covered_init q ord cs d Hd Hord) as Hcov. fold bp in Hcov.
  case_bool_decide as Hnil.
  { exists cs. split_and!; [done..|right].
    intros q' [?| ->%list_elem_of_singleton]%elem_of_app ?; [auto|].
    apply (covered_exhausted q cs _ Hcov). intros p. left. simpl.
    apply eq_None_not_Some. rewrite <-elem_of_part_names, part_names_sort, Hnil.
    apply not_elem_of_nil. }
  cbv zeta. match goal with |- context [draw_loop ?f _ _ ?o ?d0] =>
    set (fuel := f); set (ord' := o); set (d1 := d0) end.
  assert (∃ cs', sound q (filter (λ q, default false (paused i0 !! q) = false) done) cs'
    (draw_loop fuel now req ord' d1)) as (cs' & Hd' & Hok' & Ha' & Hcov' & Hdone').
  { apply draw_loop_ind; [intros ? ? ? ? [? ?] ? ?; by eapply draw_part_sound|].
    exists cs. split_and!; [apply drawn_set_parts; by apply drawn_set_rr|by apply sort_parts_ok
      |by destruct Ha|done|]. intros q' [? ?]%list_elem_of_filter. by apply Hs. }
  exists cs'. split_and!; [done..|].
  destruct (draw_loop_exhausts fuel (Z.to_nat (default 0 (rr (d_inner d) !! q) mod
    Z.of_nat (length (part_names bp)))) (sort_parts (d_inner d) bp) d1 eq_refl ltac:(unfold fuel; lia))
    as [Hfull|Hex]; rewrite part_names_sort in *; [by left|right].
  intros q' [?| ->%list_elem_of_singleton]%elem_of_app Hz.
  - apply Hdone'. by apply list_elem_of_filter.
  - by apply covered_exhausted.
Qed.
End sane.
End mem_admit.

(** ** Theorems about [mem_admit] *)

Lemma admit_unfold now ord req i :
  duration_is_zero (ar_lease req) = false →
  mem_admit now ord req i =
  let d := drawn_all now req i ord in
  ((d_inner d) <| rate := foldl spend (rate (d_inner d)) (map_to_list (d_taken d)) |>,
   Ok (d_units d)).
Proof. unfold mem_admit. by intros ->. Qed.

Lemma perm_job_ids_nodup ord i : ord ≡ₚ job_ids i → NoDup ord.
Proof. intros ->. apply NoDup_fst_map_to_list. Qed.

Lemma drawn_all_served now req i ord :
  sane_store i → ord ≡ₚ job_ids i →
  ∃ cs, queues_served now req i (ar_queues req) cs (drawn_all now req i ord).
Proof.
  intros Hsane Hord. unfold drawn_all.
  assert (∀ qs done d, (∃ cs, queues_served now req i done cs d) → qs ⊆ ar_queues req →
    ∃ cs, queues_served now req i (done ++ qs) cs (foldl (draw_queue now ord req) d qs)) as H.
  { induction qs as [|q qs IH]; intros done d [cs Hd] Hsub; simpl.
    - exists cs. by rewrite app_nil_r.
    - rewrite cons_middle, app_assoc. apply IH; [|set_solver].
      eapply draw_queue_served; eauto. set_solver. }
  apply (H _ []); [|done]. exists []. split_and!; [apply drawn_init| |right; set_solver].
  constructor; [done|]. intros rc. simpl. rewrite lookup_empty. by intros [].
Qed.

(** What a call did: the jobs [cs] it claimed, as the store and the reply show it. *)
Definition admitted (now : Z) (req : AdmitRequest) (i i' : Inner) (units : list AdmissionUnit)
    (cs : list string) : Prop :=
  NoDup cs
  ∧ units = (λ c, [c]) <$> omap (λ id, claim_of now req <$> jobs i !! id) cs
  ∧ ∀ id, jobs i' !! id =
      if bool_decide (id ∈ cs) then leased now req i <$> jobs i !! id else jobs i !! id.

Lemma drawn_admitted now req i cs d r :
  drawn now req i cs d → admitted now req i ((d_inner d) <| rate := r |>) (d_units d) cs.
Proof. intros Hd. split_and!; apply Hd. Qed.

(** What a job of queue [q] needs to be claimed, apart from its quarantine and its rate
    class: available, due, and not pinned to another worker. *)
Record ready_in (now : Z) (req : AdmitRequest) (q : string) (j : MemJob) : Prop := {
  ri_queue : e_queue (mj_env j) = q;
  ri_state : mj_state j = "available";
  ri_due : e_scheduled_at_ms (mj_env j) ≤ now;
  ri_sticky : e_sticky_worker (mj_env j) = "" ∨ e_sticky_worker (mj_env j) = ar_worker req;
}.

Lemma candidate_ready now req q j : candidate now req q j = true ↔ ready_in now req q j.
Proof.
  unfold candidate. rewrite !andb_true_iff, orb_true_iff, !String.eqb_eq, Z.leb_le.
  split; [intros (((? & ?) & ?) & ?); by constructor|by intros []].
Qed.

(** The conditions under which a claim is legitimate. *)
Definition claimable (now : Z) (req : AdmitRequest) (i : Inner) (j : MemJob) : Prop :=
  (e_fingerprint (mj_env j) = "" ∨ quarantine i !! e_fingerprint (mj_env j) = None)
  ∧ ∃ q, q ∈ ar_queues req ∧ paused i !! q ≠ Some true ∧ ready_in now req q j.

Lemma not_quarantined i j :
  quarantined_fp i j = false
  ↔ e_fingerprint (mj_env j) = "" ∨ quarantine i !! e_fingerprint (mj_env j) = None.
Proof.
  unfold quarantined_fp. rewrite andb_false_iff, negb_false_iff, String.eqb_eq, bool_decide_eq_false.
  by rewrite <-eq_None_not_Some.
Qed.

Lemma eligible_claimable now req i j : eligible now req i j → claimable now req i j.
Proof.
  intros (Hq & q & Hin & Hp & Hc). split; [by apply not_quarantined|].
  exists q. split_and!; [done|intros E; by rewrite E in Hp|by apply candidate_ready].
Qed.

(** An admission with a non-zero lease succeeds; it claims distinct jobs, at most the
    requested capacity, each of which was available, due, not pinned to another worker, not
    quarantined, and in a polled queue that is not paused.  Exactly those jobs become
    running under the caller's lease with the next fence, the reply lists exactly their
    claims, and no other job, unique key, throttle, quarantine, pause or duty changes. *)
Theorem admit_claims_eligible now ord req i :
  ord ≡ₚ job_ids i → duration_is_zero (ar_lease req) = false → 0 ≤ ar_capacity req →
  ∃ cs i' units, mem_admit now ord req i = (i', Ok units)
    ∧ admitted now req i i' units cs
    ∧ Z.of_nat (length cs) ≤ ar_capacity req
    ∧ (∀ id, id ∈ cs → ∃ j, jobs i !! id = Some j ∧ claimable now req i j)
    ∧ admit_frame i i'.
Proof.
  intros Hord Hl Hc. rewrite admit_unfold by done.
  destruct (drawn_all_drawn now req i ord) as [cs Hd]; [by eapply perm_job_ids_nodup|].
  eexists cs, _, _. split; [done|]. split; [by apply drawn_admitted|].
  pose proof (dr_len _ _ _ _ _ Hd). split_and!; [lia| |by destruct Hd as [? ? ? ? []]].
  intros id Hin. destruct (dr_eligible _ _ _ _ _ Hd id Hin) as (j & ? & ?). eauto using eligible_claimable.
Qed.

(** C7.  No admission overdraws a rate class: what the claims of one call charge to a class
    is covered by the tokens its bucket holds after the lazy refill, and exactly that amount
    is spent. *)
Theorem admit_never_overdraws now ord req i :
  ord ≡ₚ job_ids i → duration_is_zero (ar_lease req) = false → sane_store i →
  ∃ cs i' units, mem_admit now ord req i = (i', Ok units)
    ∧ admitted now req i i' units cs
    ∧ ∀ rc b, rate i !! rc = Some b →
        if charged i cs rc =? 0 then rate i' !! rc = Some b ∨ rate i' !! rc = Some (refill now b)
        else charged i cs rc ≤ rb_tokens (refill now b)
             ∧ rate i' !! rc = Some ((refill now b)
                 <| rb_tokens := rb_tokens (refill now b) - charged i cs rc |>).
Proof.
  intros Hord Hl Hsane. rewrite admit_unfold by done.
  destruct (drawn_all_served now req i ord) as (cs & Hd & Ha & _); [done..|].
  eexists cs, _, _. split; [done|]. split; [by apply drawn_admitted|].
  intros rc b Hb. cbn [rate upd]. unfold upd; cbn [rate]. rewrite spend_lookup.
  pose proof (charged_nonneg i Hsane cs rc) as H0. pose proof (ac_taken _ _ _ _ Ha rc) as Ht.
  unfold taken_of in Ht. destruct (d_taken _ !! rc) as [n|] eqn:En; simpl in Ht.
  - destruct (ac_tokens _ _ _ _ Ha rc) as (b' & Hs & Hle); [by rewrite En|].
    pose proof (settled_bound now req i Hsane _ _ _ _ Hd Hs) as Hmax.
    eapply settled_of_refilled in Hs as Hb'; [|apply (dr_rate _ _ _ _ _ Hd)].
    destruct Hb' as (b0 & Hb0 & ->). rewrite Hb in Hb0. injection Hb0 as <-.
    destruct Hs as [-> _]. simpl. rewrite i64_sub_id by (unfold in_i64, i64_min, i64_max, u32_max in *; lia).
    subst n. destruct (Z.eqb_spec (charged i cs rc) 0) as [E|E]; [|by split].
    right. rewrite E, Z.sub_0_r. by destruct (refill now b).
  - rewrite <-Ht. simpl.
    destruct (dr_rate _ _ _ _ _ Hd rc) as [-> | ->]; rewrite Hb; simpl; auto.
Qed.

(** C10.  Admission is work-conserving: when a call returns fewer claims than its capacity,
    every candidate it left behind in a polled queue that is not paused is quarantined, or
    charged to a class whose bucket, after the call, holds fewer tokens than the job costs. *)
Theorem admit_work_conserving now ord req i :
  ord ≡ₚ job_ids i → duration_is_zero (ar_lease req) = false → sane_store i →
  ∃ cs i' units, mem_admit now ord req i = (i', Ok units)
    ∧ admitted now req i i' units cs
    ∧ (Z.of_nat (length units) < ar_capacity req →
       ∀ q id j, q ∈ ar_queues req → paused i !! q ≠ Some true →
         jobs i !! id = Some j → ready_in now req q j → id ∉ cs →
         quarantined_fp i j = true
         ∨ is_charged i j = true
           ∧ ∃ b, rate i' !! e_rate_class (mj_env j) = Some b ∧ rb_tokens b < job_cost (mj_env j)).
Proof.
  intros Hord Hl Hsane. rewrite admit_unfold by done.
  destruct (drawn_all_served now req i ord) as (cs & Hd & Ha & Hs); [done..|].
  eexists cs, _, _. split; [done|]. split; [by apply drawn_admitted|].
  intros Hlt q id j Hq Hpz Hj Hc%candidate_ready Hni.
  assert (default false (paused i !! q) = false) as Hpz' by (by destruct (paused i !! q) as [[]|]).
  destruct Hs as [Hf|Hs]; [unfold full in Hf; bool_hyps; lia|].
  destruct (Hs q Hq Hpz' id j Hj Hc) as [?|[?|(Hch & b & Hset & Hb)]]; [done|by left|right].
  split; [done|]. set (rc := e_rate_class (mj_env j)) in *.
  unfold upd; cbn [rate]. rewrite spend_lookup. destruct Hset as [Hb' Hset]. rewrite Hb'. simpl.
  pose proof (charged_nonneg i Hsane cs rc) as H0. pose proof (ac_taken _ _ _ _ Ha rc) as Ht.
  unfold taken_of in Ht, Hb. destruct (d_taken _ !! rc) as [n|] eqn:En; simpl in *; [|eexists; split; [done|lia]].
  eexists. split; [done|]. simpl. subst n.
  destruct (ac_tokens _ _ _ _ Ha rc) as (b' & [Hb'' _] & Hle); [by rewrite En|].
  rewrite Hb' in Hb''. injection Hb'' as <-.
  pose proof (settled_bound now req i Hsane _ _ _ _ Hd (conj Hb' Hset)) as Hmax.
  rewrite i64_sub_id by (unfold in_i64, i64_min, i64_max, u32_max in *; lia). lia.
Qed.

Lemma draw_queue_perm now o1 o2 req d q :
  o1 ≡ₚ o2 → draw_queue now o1 req d q = draw_queue now o2 req d q.
Proof.
  intros HP. unfold draw_queue. destruct (_ || _); [done|].
  pose proof (sorted_parts_perm now req q (d_inner d) o1 o2 HP) as Hs.
  assert (part_names (group_by_part now o1 req q (d_inner d))
          = part_names (group_by_part now o2 req q (d_inner d))) as Hn.
  { rewrite <-(part_names_sort (d_inner d)), Hs. apply part_names_sort. }
  by rewrite Hn, Hs.
Qed.

(** The iteration order of the job [HashMap] is invisible: for any two orders of the
    same keys an admission makes the same claims in the same order and leaves the same
    store. *)
Theorem admit_order_irrelevant now o1 o2 req i :
  o1 ≡ₚ o2 → mem_admit now o1 req i = mem_admit now o2 req i.
Proof.
  intros HP. unfold mem_admit. destruct (duration_is_zero _); [done|].
  assert (∀ qs d, foldl (draw_queue now o1 req) d qs = foldl (draw_queue now o2 req) d qs) as ->;
    [|done].
  induction qs as [|q qs IH]; intros d; simpl; [done|]. by rewrite (draw_queue_perm now o1 o2).
Qed.

(** The turn order is the rotation the source indexes: the [k]-th turn of a round goes to
    partition [(start + k) % len]. *)
Lemma turn_order_lookup start parts k :
  (start < length parts)%nat → (k < length parts)%nat →
  turn_order start parts !! k = parts !! ((start + k) mod length parts)%nat.
Proof.
  intros Hs Hk. unfold turn_order. destruct (decide (start + k < length parts)%nat) as [Hlt|Hge].
  - rewrite lookup_app_l by (rewrite length_drop; lia). rewrite lookup_drop.
    by rewrite Nat.mod_small.
  - rewrite lookup_app_r by (rewrite length_drop; lia). rewrite length_drop.
    rewrite lookup_take_lt by lia. f_equal.
    replace (start + k)%nat with (start + k - length parts + 1 * length parts)%nat by lia.
    rewrite Nat.Div0.mod_add, Nat.mod_small; lia.
Qed.

(** The round-robin loop of a queue terminates: whatever the partitions hold, fuel
    beyond the number of candidates left never changes the result, and the loop stops either
    because the call is full or after a round in which no partition yielded a claim. *)
Theorem draw_loop_terminates now req parts d fuel :
  (remaining (d_by_part d) < fuel)%nat →
  draw_loop fuel now req parts d = draw_loop (S (remaining (d_by_part d))) now req parts d
  ∧ (full req (draw_loop fuel now req parts d) = true
     ∨ ∃ d1, draw_round now req parts d1 false = (draw_loop fuel now req parts d, false)).
Proof.
  intros Hf. split; [apply draw_loop_fuel; [done|lia]|]. by apply draw_loop_exit.
Qed.

(** ** Witnesses: two tenants behind one rate class *)

Definition demo_env (id part : string) (prio : Z) : Envelope :=
  default_envelope <| e_id := id |> <| e_kind := "mail" |> <| e_partition_key := part |>
    <| e_rate_class := "smtp" |> <| e_weight := 2 |> <| e_priority := prio |>
    <| e_scheduled_at_ms := 5 |>.

Definition demo_store : Inner :=
  set_rate_limit 10 "smtp" 1 1000 5
    (enqueue 10 [demo_env "a1" "a" 0; demo_env "a2" "a" 9; demo_env "b1" "b" 0] default_inner).1.

Definition demo_request : AdmitRequest :=
  mkAdmitRequest "w" "lease-1" ["default"] 10 30000000000 0.

Definition reply_ids (r : Inner * result (list AdmissionUnit) StoreError.StoreError) : list string :=
  match r.2 with Ok units => (λ c, e_id (c_envelope c)) <$> mjoin units | Err _ => [] end.

Lemma demo_sane : sane_store demo_store.
Proof.
  split.
  - change (map_Forall (λ _ b, rb_tokens b ≤ rb_burst b ∧ rb_burst b ≤ i64_max - u32_max)
              (rate demo_store)).
    apply (bool_decide_unpack _). by vm_compute.
  - change (map_Forall (λ _ j, 0 ≤ e_weight (mj_env j) ∧ e_weight (mj_env j) ≤ u32_max)
              (jobs demo_store)).
    apply (bool_decide_unpack _). by vm_compute.
Qed.

Lemma admit_claims_eligible_witness :
  reply_ids (mem_admit 10 (job_ids demo_store) demo_request demo_store) = ["a2"; "b1"]
  ∧ ∃ cs i' units, mem_admit 10 (job_ids demo_store) demo_request demo_store = (i', Ok units)
      ∧ admitted 10 demo_request demo_store i' units cs
      ∧ Z.of_nat (length cs) ≤ 10
      ∧ (∀ id, id ∈ cs → ∃ j, jobs demo_store !! id = Some j ∧ claimable 10 demo_request demo_store j)
      ∧ admit_frame demo_store i'.
Proof.
  split; [by vm_compute|].
  apply (admit_claims_eligible 10 (job_ids demo_store) demo_request demo_store); done.
Defined.

Lemma admit_never_overdraws_witness :
  ∃ cs i' units, mem_admit 10 (job_ids demo_store) demo_request demo_store = (i', Ok units)
    ∧ admitted 10 demo_request demo_store i' units cs
    ∧ ∀ rc b, rate demo_store !! rc = Some b →
        if charged demo_store cs rc =? 0
        then rate i' !! rc = Some b ∨ rate i' !! rc = Some (refill 10 b)
        else charged demo_store cs rc ≤ rb_tokens (refill 10 b)
             ∧ rate i' !! rc = Some ((refill 10 b)
                 <| rb_tokens := rb_tokens (refill 10 b) - charged demo_store cs rc |>).
Proof.
  apply (admit_never_overdraws 10 (job_ids demo_store) demo_request demo_store);
    [done|done|apply demo_sane].
Defined.

Lemma admit_work_conserving_witness :
  rb_tokens <$> rate (mem_admit 10 (job_ids demo_store) demo_request demo_store).1 !! "smtp" = Some 1
  ∧ ∃ cs i' units, mem_admit 10 (job_ids demo_store) demo_request demo_store = (i', Ok units)
    ∧ admitted 10 demo_request demo_store i' units cs
    ∧ (Z.of_nat (length units) < ar_capacity demo_request →
       ∀ q id j, q ∈ ar_queues demo_request → paused demo_store !! q ≠ Some true →
         jobs demo_store !! id = Some j → ready_in 10 demo_request q j → id ∉ cs →
         quarantined_fp demo_store j = true
         ∨ is_charged demo_store j = true
           ∧ ∃ b, rate i' !! e_rate_class (mj_env j) = Some b ∧ rb_tokens b < job_cost (mj_env j)).
Proof.
  split; [by vm_compute|].
  apply (admit_work_conserving 10 (job_ids demo_store) demo_request demo_store);
    [done|done|apply demo_sane].
Defined.

Lemma admit_order_irrelevant_witness :
  job_ids demo_store ≠ rev (job_ids demo_store)
  ∧ mem_admit 10 (job_ids demo_store) demo_request demo_store
    = mem_admit 10 (rev (job_ids demo_store)) demo_request demo_store.
Proof.
  split; [by vm_compute|]. apply admit_order_irrelevant. apply Permutation_rev.
Defined.

Definition demo_draw : Draw :=
  mkDraw demo_store
    (sort_parts demo_store
       (group_by_part 10 (job_ids demo_store) demo_request "default" demo_store)) [] ∅.

Lemma draw_loop_terminates_witness :
  remaining (d_by_part demo_draw) = 3%nat
  ∧ draw_loop 9 10 demo_request ["a"; "b"] demo_draw
    = draw_loop (S (remaining (d_by_part demo_draw))) 10 demo_request ["a"; "b"] demo_draw.
Proof.
  split; [by vm_compute|].
  apply (draw_loop_terminates 10 demo_request ["a"; "b"] demo_draw 9). vm_compute. lia.
Defined.
