(* ===== verification/MemInv.v ===== *)
(** * Invariants of the in-memory store

    The well-formedness of [MemStore]'s contents, that every operation preserves it, and
    what it gives: stored envelopes are normalised, a lease exists only on a running job,
    and the uniqueness index only ever names live jobs that carry the indexed key. *)

From S2P Require Import Prelude Shared Lifecycle Envelope MemStore MemAdmit.
Local Open Scope Z_scope.

(** The spelling of the states in [MemJob::state]. *)
Definition state_name (s : State.State) : string :=
  match s with
  | State.Pending => "pending"
  | State.Scheduled => "scheduled"
  | State.Available => "available"
  | State.Running => "running"
  | State.Retryable => "retryable"
  | State.Completed => "completed"
  | State.Archived => "archived"
  | State.Cancelled => "cancelled"
  | State.Quarantined => "quarantined"
  | State.Undecodable => "undecodable"
  | State.Deleted => "deleted"
  end.

Lemma state_name_inj s1 s2 : state_name s1 = state_name s2 → s1 = s2.
Proof. by destruct s1, s2. Qed.

Definition in_state (j : MemJob) (s : State.State) : Prop := mj_state j = state_name s.

Definition live (j : MemJob) : Prop := ∃ s, in_state j s ∧ is_terminal s = false.

Record job_ok (id : string) (j : MemJob) : Prop := {
  jo_id : e_id (mj_env j) = id;
  jo_state : ∃ s, in_state j s ∧ s ≠ State.Deleted;
  jo_lease : mj_state j ≠ "running" → mj_lease_id j = "" ∧ mj_lease_expires j = 0;
  jo_norm : e_queue (mj_env j) ≠ "" ∧ e_max_attempts (mj_env j) ≠ 0
            ∧ e_schema_version (mj_env j) ≠ 0 ∧ e_weight (mj_env j) ≠ 0;
  jo_times : 0 ≤ e_retention_ms (mj_env j) ∧ 0 ≤ e_unique_window_ms (mj_env j);
}.

(** The lifecycle uniqueness key of a job: the windowed mode uses [throttle] instead. *)
Definition indexed_by (e : Envelope) (k : bytes) : Prop :=
  effective_unique_key e = Some k ∧ e_unique_window_ms e = 0.

Record store_ok (js : gmap string MemJob) (u : gmap bytes string) : Prop := {
  so_jobs id j : js !! id = Some j → job_ok id j;
  so_unique k id : u !! k = Some id → ∃ j, js !! id = Some j ∧ live j ∧ indexed_by (mj_env j) k;
}.

Definition inner_ok (i : Inner) : Prop := store_ok (jobs i) (unique i).

(** ** Single-job updates *)

(** The envelope fields an update may not change. *)
Definition same_key (e e' : Envelope) : Prop :=
  effective_unique_key e = effective_unique_key e' ∧ e_unique_window_ms e = e_unique_window_ms e'.

Lemma same_key_indexed e e' k : same_key e e' → indexed_by e k → indexed_by e' k.
Proof. unfold same_key, indexed_by. intros [-> ->]. done. Qed.

Lemma store_ok_insert js u id j' :
  store_ok js u → job_ok id j' →
  (∀ k, u !! k = Some id → live j' ∧ indexed_by (mj_env j') k) →
  store_ok (<[id := j']> js) u.
Proof.
  intros [Hj Hu] Hok Hk. constructor.
  - intros id' j. destruct (decide (id' = id)) as [->|Hne].
    + rewrite lookup_insert_eq. by intros [= <-].
    + rewrite lookup_insert_ne by done. apply Hj.
  - intros k id' H. destruct (decide (id' = id)) as [->|Hne].
    + rewrite lookup_insert_eq. exists j'. destruct (Hk k H). done.
    + rewrite lookup_insert_ne by done. by apply Hu.
Qed.

(** An update that keeps the job alive and its key. *)
Lemma store_ok_update js u id j j' :
  store_ok js u → js !! id = Some j → job_ok id j' → same_key (mj_env j) (mj_env j') →
  (live j → live j') → store_ok (<[id := j']> js) u.
Proof.
  intros Hok Hj Hj' Hsk Hl. apply store_ok_insert; [done..|]. intros k Hk.
  destruct (so_unique _ _ Hok k id Hk) as (j0 & Hj0 & Hl0 & Hix). simplify_eq.
  split; [auto|]. by eapply same_key_indexed.
Qed.

Lemma store_ok_delete js u id :
  store_ok js u → (∀ k, u !! k ≠ Some id) → store_ok (delete id js) u.
Proof.
  intros [Hj Hu] Hn. constructor.
  - intros id' j [_ ?]%lookup_delete_Some. auto.
  - intros k id' H. destruct (Hu k id' H) as (j & ? & ?). exists j. split; [|done].
    rewrite lookup_delete_ne; [done|]. intros ->. by apply (Hn k).
Qed.

(** ** Releasing a unique key *)

Lemma release_unique_frame id i :
  jobs (release_unique id i) = jobs i ∧ throttle (release_unique id i) = throttle i
  ∧ quarantine (release_unique id i) = quarantine i ∧ rate (release_unique id i) = rate i
  ∧ duties (release_unique id i) = duties i.
Proof. unfold release_unique. by repeat case_match. Qed.

Lemma release_unique_spec id i j k id' :
  inner_ok i → jobs i !! id = Some j →
  unique (release_unique id i) !! k = Some id' ↔ unique i !! k = Some id' ∧ id' ≠ id.
Proof.
  intros Hok Hj. unfold release_unique. rewrite Hj.
  assert (∀ k, unique i !! k = Some id → indexed_by (mj_env j) k) as Hix.
  { intros k0 Hk0. destruct (so_unique _ _ Hok _ _ Hk0) as (j0 & ? & _ & ?). by simplify_eq. }
  destruct (effective_unique_key (mj_env j)) as [k0|] eqn:Ek.
  - destruct (_ && _) eqn:Eb.
    + apply andb_true_iff in Eb as [Hw Hu%bool_decide_eq_true]. unfold upd; simpl.
      rewrite lookup_delete_Some. split; [|naive_solver].
      intros [Hne ?]. split; [done|]. intros ->. destruct (Hix k) as [??]; [done|]. congruence.
    + split; [|naive_solver]. intros H. split; [done|]. intros ->.
      destruct (Hix k H) as [Hk Hw]. rewrite Ek in Hk. simplify_eq.
      rewrite Hw, bool_decide_eq_true_2 in Eb; done.
  - split; [|naive_solver]. intros H. split; [done|]. intros ->.
    destruct (Hix k H) as [Hk Hw]. congruence.
Qed.

Lemma release_unique_ok id i : inner_ok i → inner_ok (release_unique id i).
Proof.
  intros Hok. destruct (jobs i !! id) as [j|] eqn:Ej.
  - destruct (release_unique_frame id i) as (Hj & _). constructor; rewrite Hj; [apply Hok|].
    intros k id'. rewrite (release_unique_spec _ _ j) by done. intros [? _]. by eapply so_unique.
  - unfold release_unique. by rewrite Ej.
Qed.

(** Release commutes with an update that keeps the key. *)
Lemma release_unique_insert id i j j' :
  jobs i !! id = Some j → same_key (mj_env j) (mj_env j') →
  release_unique id (i <| jobs := <[id := j']> (jobs i) |>)
  = (release_unique id i) <| jobs := <[id := j']> (jobs i) |>.
Proof.
  intros Hj [Hk Hw]. unfold release_unique. unfold upd; simpl.
  rewrite lookup_insert_eq, Hj, Hk, Hw. by repeat case_match.
Qed.

(** Finalising a job: its key is released, its record replaced or removed. *)
Lemma finalize_ok id i j j' :
  inner_ok i → jobs i !! id = Some j → job_ok id j' →
  inner_ok ((release_unique id i) <| jobs := <[id := j']> (jobs i) |>).
Proof.
  intros Hok Hj Hj'. unfold inner_ok. unfold upd; simpl.
  pose proof (release_unique_ok id i Hok) as Hr. unfold inner_ok in Hr.
  rewrite (proj1 (release_unique_frame id i)) in Hr.
  apply store_ok_insert; [done..|]. intros k Hk.
  by apply (release_unique_spec id i j) in Hk as [_ ?].
Qed.

Lemma remove_ok id i j :
  inner_ok i → jobs i !! id = Some j → inner_ok (remove_job id (release_unique id i)).
Proof.
  intros Hok Hj. unfold inner_ok, remove_job. unfold upd; simpl. apply store_ok_delete.
  - apply (release_unique_ok id i Hok).
  - intros k Hk. by apply (release_unique_spec id i j) in Hk as [_ ?].
Qed.

(** ** What an ack does to its job *)

Definition ctx_of (rp : RetryPolicy) (j : MemJob) : TransitionCtx :=
  mkCtx (e_attempt (mj_env j)) (e_max_attempts (mj_env j)) (e_crash_attempt (mj_env j))
    (rp_crash_limit rp) (e_retention_ms (mj_env j)).

(** The lease is dropped; only counters, due time and history move. *)
Record job_moved (j j' : MemJob) : Prop := {
  jm_lease : mj_lease_id j' = "" ∧ mj_lease_expires j' = 0;
  jm_fence : mj_fence j' = mj_fence j;
  jm_env : ∃ a c t, mj_env j' = (mj_env j) <| e_attempt := a |> <| e_crash_attempt := c |>
                                  <| e_scheduled_at_ms := t |>;
}.

Lemma alter_job_insert i id j f :
  jobs i !! id = Some j → alter_job f id i = i <| jobs := <[id := f j]> (jobs i) |>.
Proof.
  intros Hj. unfold alter_job.
  assert (alter f id (jobs i) = <[id := f j]> (jobs i)) as ->; [|done].
  apply map_eq. intros id'. destruct (decide (id' = id)) as [->|Hne].
  - by rewrite lookup_alter_eq, lookup_insert_eq, Hj.
  - by rewrite lookup_alter_ne, lookup_insert_ne by done.
Qed.

Lemma env_moved_id (e : Envelope) :
  ∃ a c t, e = e <| e_attempt := a |> <| e_crash_attempt := c |> <| e_scheduled_at_ms := t |>.
Proof. exists (e_attempt e), (e_crash_attempt e), (e_scheduled_at_ms e). by destruct e. Qed.

Lemma job_moved_same_key j j' : job_moved j j' → same_key (mj_env j) (mj_env j').
Proof. intros [_ _ (a & c & t & ->)]. done. Qed.

Lemma job_moved_ok id j j' s :
  job_ok id j → job_moved j j' → in_state j' s → s ≠ State.Deleted → job_ok id j'.
Proof.
  intros [Hid _ _ Hn Ht] [Hl _ (a & c & t & Henv)] Hs Hd.
  constructor; rewrite ?Henv; [done|by exists s|done|done|done].
Qed.

Lemma push_log_fields p l j :
  mj_env (push_log p l j) = mj_env j ∧ mj_state (push_log p l j) = mj_state j
  ∧ mj_fence (push_log p l j) = mj_fence j ∧ mj_lease_id (push_log p l j) = mj_lease_id j
  ∧ mj_lease_expires (push_log p l j) = mj_lease_expires j.
Proof. by destruct l. Qed.

(** The store after the job's move to state [s]. *)
Definition moved_store (id : string) (i : Inner) (s : State.State) (j' : MemJob) : Inner :=
  (if is_terminal s then release_unique id i else i) <| jobs := <[id := j']> (jobs i) |>.

Lemma moved_store_live id i s j' :
  is_terminal s = false → moved_store id i s j' = i <| jobs := <[id := j']> (jobs i) |>.
Proof. unfold moved_store. by intros ->. Qed.

Lemma moved_store_terminal id i s j j' :
  is_terminal s = true → jobs i !! id = Some j → same_key (mj_env j) (mj_env j') →
  release_unique id (i <| jobs := <[id := j']> (jobs i) |>) = moved_store id i s j'.
Proof. unfold moved_store. intros -> Hj Hk. by apply release_unique_insert with j. Qed.

Lemma retry_job_spec now rp err d log j j' archived :
  retry_job now (rp_base rp) (rp_cap rp) err d log j = (j', archived) →
  let s := transition State.Running Outcome.Retry (ctx_of rp j) in
  in_state j' s ∧ job_moved j j' ∧ archived = is_terminal s
  ∧ e_attempt (mj_env j') = u32_add (e_attempt (mj_env j)) 1
  ∧ e_crash_attempt (mj_env j') = e_crash_attempt (mj_env j).
Proof.
  unfold retry_job, in_state. destruct log as [l|]; simpl;
    destruct (u32_add (e_attempt (mj_env j)) 1 <? e_max_attempts (mj_env j)) eqn:E;
    intros [= <- <-]; (split_and!; [done| |done|done|done]); constructor; try done;
    do 3 eexists; reflexivity.
Qed.

Lemma ack_success_spec now on_keep id i j :
  jobs i !! id = Some j → 0 ≤ e_retention_ms (mj_env j) →
  ack_success now on_keep id i =
  if 0 <? e_retention_ms (mj_env j)
  then moved_store id i State.Completed (on_keep (finalize now "completed" (drop_lease j)))
  else remove_job id (release_unique id i).
Proof.
  intros Hj Hr. unfold ack_success. rewrite (proj1 (release_unique_frame id i)), Hj.
  destruct (Z.eqb_spec (e_retention_ms (mj_env j)) 0) as [->|Hne]; [done|].
  destruct (Z.ltb_spec 0 (e_retention_ms (mj_env j))); [|lia].
  rewrite (alter_job_insert _ _ j); rewrite (proj1 (release_unique_frame id i)); done.
Qed.

(** The effect of an accepted outcome is the row of the transition table. *)
Definition outcome_applied (rp : RetryPolicy) (o : Outcome.Outcome) (id : string) (i : Inner)
    (j : MemJob) (i' : Inner) : Prop :=
  let s := transition State.Running o (ctx_of rp j) in
  if decide (s = State.Deleted) then i' = remove_job id (release_unique id i)
  else ∃ j', i' = moved_store id i s j' ∧ in_state j' s ∧ job_moved j j'
         ∧ e_attempt (mj_env j') =
             (if decide (o = Outcome.Retry) then u32_add (e_attempt (mj_env j)) 1
              else e_attempt (mj_env j))
         ∧ e_crash_attempt (mj_env j') = e_crash_attempt (mj_env j).

Lemma park_job_spec now s err log j :
  s = State.Archived ∨ s = State.Undecodable →
  in_state (park_job now (state_name s) err log j) s
  ∧ job_moved j (park_job now (state_name s) err log j)
  ∧ mj_env (park_job now (state_name s) err log j) = mj_env j.
Proof.
  intros _. unfold park_job, in_state. destruct err, log;
    (split; [done|]; split; [|done]; constructor; [done|done|apply env_moved_id]).
Qed.

Lemma apply_outcome_spec now rp o err d log id i j :
  jobs i !! id = Some j → 0 ≤ e_retention_ms (mj_env j) →
  match apply_outcome now rp o err d log id i with
  | (i', Err _) => i' = i
  | (i', Ok _) => outcome_applied rp o id i j i'
  end.
Proof.
  intros Hj Hr. unfold outcome_applied. destruct o; simpl.
  - rewrite (ack_success_spec _ _ _ _ j) by done.
    destruct (Z.ltb_spec 0 (e_retention_ms (mj_env j))); simpl; [|done].
    eexists. split; [done|]. destruct log; (split_and!; [done| |done|done]);
      (constructor; [done|done|apply env_moved_id]).
  - rewrite Hj. destruct (retry_job _ _ _ _ _ _ j) as [j' archived] eqn:E.
    apply retry_job_spec in E as (Hs & Hm & -> & Ha & Hc). simpl in *.
    destruct (_ <? _) eqn:Elt; simpl in *; exists j'; split_and!; try done.
    eapply moved_store_terminal; [done..|by apply job_moved_same_key].
  - rewrite (alter_job_insert _ _ j) by done.
    destruct (park_job_spec now State.Archived err log j) as (? & Hm & He); [auto|].
    eexists. split_and!; [|done..|by rewrite He|by rewrite He].
    eapply moved_store_terminal; [done..|by apply job_moved_same_key].
  - done.
  - destruct (default 0 d <=? 0); [done|]. simpl. rewrite (alter_job_insert _ _ j) by done.
    eexists. split; [done|]. split_and!; [done| |done|done]. constructor; [done|done|].
    do 3 eexists. reflexivity.
  - done.
  - rewrite (alter_job_insert _ _ j) by done.
    destruct (park_job_spec now State.Undecodable err log j) as (? & Hm & He); [auto|].
    eexists. split_and!; [|done..|by rewrite He|by rewrite He].
    eapply moved_store_terminal; [done..|by apply job_moved_same_key].
  - rewrite (alter_job_insert _ _ j) by done. eexists. split; [done|].
    destruct (now <? _); (split_and!; [done| |done|done]); (constructor; [done|done|]);
      [do 3 eexists; reflexivity|apply env_moved_id].
Qed.

Lemma moved_ok id i s j j' :
  inner_ok i → jobs i !! id = Some j → in_state j' s → s ≠ State.Deleted → job_moved j j' →
  inner_ok (moved_store id i s j').
Proof.
  intros Hok Hj Hs Hd Hm. pose proof (so_jobs _ _ Hok _ _ Hj) as Hjo.
  pose proof (job_moved_ok _ _ _ _ Hjo Hm Hs Hd) as Hjo'. unfold moved_store.
  destruct (is_terminal s) eqn:Et; [by apply finalize_ok with j|].
  unfold inner_ok, upd; simpl. eapply store_ok_update; eauto; [by apply job_moved_same_key|].
  intros _. by exists s.
Qed.

Lemma outcome_applied_ok rp o id i j i' :
  inner_ok i → jobs i !! id = Some j → outcome_applied rp o id i j i' → inner_ok i'.
Proof.
  intros Hok Hj. unfold outcome_applied. case_decide as Hd.
  - intros ->. by eapply remove_ok.
  - intros (j' & -> & Hs & Hm & _). by eapply moved_ok.
Qed.

(** ** Every operation preserves the invariant *)

Lemma identity_ok i l :
  identity i l = Ok tt ↔ ∃ j, jobs i !! lr_job_id l = Some j ∧ holds_lease j l = true.
Proof.
  unfold identity. destruct (jobs i !! lr_job_id l) as [j|]; [|split; [done|by intros (? & ? & _)]].
  destruct (holds_lease j l) eqn:E; split; try done; [by eauto|].
  intros (j' & [= <-] & ?). congruence.
Qed.

Lemma identity_cases i l :
  identity i l = Ok tt ∨ identity i l = Err (StoreError.LeaseRejected (lr_job_id l)).
Proof. unfold identity. repeat case_match; auto. Qed.

Lemma holds_lease_true j l :
  holds_lease j l = true
  ↔ mj_state j = "running" ∧ mj_lease_id j = lr_lease_id l ∧ mj_fence j = lr_fence l.
Proof.
  unfold holds_lease. rewrite !andb_true_iff, !String.eqb_eq, Z.eqb_eq. tauto.
Qed.

(** Updates of a held job that keep envelope, state, fence and lease id. *)
Record job_touched (j j' : MemJob) : Prop := {
  jt_env : mj_env j' = mj_env j;
  jt_state : mj_state j' = mj_state j;
  jt_fence : mj_fence j' = mj_fence j;
  jt_lease : mj_lease_id j' = mj_lease_id j;
}.

Lemma job_touched_refl j : job_touched j j.
Proof. done. Qed.

Lemma touched_ok id i j j' :
  inner_ok i → jobs i !! id = Some j → mj_state j = "running" → job_touched j j' →
  inner_ok (i <| jobs := <[id := j']> (jobs i) |>).
Proof.
  intros Hok Hj Hr [He Hs Hf Hl]. unfold inner_ok, upd; simpl.
  eapply store_ok_update; eauto.
  - destruct (so_jobs _ _ Hok _ _ Hj). constructor; rewrite ?He, ?Hs; try done.
    unfold in_state. by rewrite Hs.
  - unfold same_key. by rewrite He.
  - intros (s & Hin & ?). exists s. unfold in_state in *. by rewrite Hs.
Qed.

Lemma touched_rate_ok id i j j' r :
  inner_ok i → jobs i !! id = Some j → mj_state j = "running" → job_touched j j' →
  inner_ok (i <| rate := r |> <| jobs := <[id := j']> (jobs i) |>).
Proof. intros Hok Hj Hr Ht. apply (touched_ok id i j j' Hok Hj Hr Ht). Qed.

Lemma reconcile_weight_spec now aw id i j :
  jobs i !! id = Some j →
  ∃ r j', reconcile_weight now aw id i = i <| rate := r |> <| jobs := <[id := j']> (jobs i) |>
          ∧ job_touched j j'.
Proof.
  intros Hj. unfold reconcile_weight. destruct aw as [a|].
  - rewrite Hj. case_if.
    + exists (alter (reconcile_bucket now (mj_rate_charge j) a) (e_rate_class (mj_env j)) (rate i)).
      eexists. split; [by rewrite (alter_job_insert _ _ j)|done].
    + exists (rate i). eexists. split; [rewrite (alter_job_insert _ _ j) by done; by destruct i|done].
  - exists (rate i), j. split; [|done]. unfold upd; simpl. rewrite insert_id by done. by destruct i.
Qed.

Lemma ack_ok now rp l o err d logs aw i :
  inner_ok i → inner_ok (ack_attempt_with_actual_weight now rp l o err d logs aw i).1.
Proof.
  intros Hok. unfold ack_attempt_with_actual_weight.
  destruct (identity i l) eqn:E; [|done]. destruct a.
  apply identity_ok in E as (j & Hj & [Hrun _]%holds_lease_true).
  destruct (reconcile_weight_spec now aw (lr_job_id l) i j Hj) as (r & j' & -> & Ht).
  assert (inner_ok (i <| rate := r |> <| jobs := <[lr_job_id l := j']> (jobs i) |>)) as Hok'
    by (by apply (touched_rate_ok (lr_job_id l) i j j' r)).
  pose proof (apply_outcome_spec now rp o err d (log_line logs) (lr_job_id l)
    (i <| rate := r |> <| jobs := <[lr_job_id l := j']> (jobs i) |>) j'
    (lookup_insert_eq _ _ _)) as Hap.
  destruct (apply_outcome _ _ _ _ _ _ _ _) as [i' []]; simpl.
  - eapply (outcome_applied_ok rp o); [apply Hok'|by apply lookup_insert_eq|]. apply Hap.
    rewrite (jt_env _ _ Ht). apply (so_jobs _ _ Hok _ _ Hj).
  - rewrite Hap; [done|]. rewrite (jt_env _ _ Ht). apply (so_jobs _ _ Hok _ _ Hj).
Qed.

Lemma ack_success_ok now on_keep id i j :
  (∀ j, job_touched j (on_keep j) ∧ mj_lease_expires (on_keep j) = mj_lease_expires j) →
  inner_ok i → jobs i !! id = Some j → inner_ok (ack_success now on_keep id i).
Proof.
  intros Hk Hok Hj.
  rewrite (ack_success_spec _ _ _ _ j) by (done || apply (so_jobs _ _ Hok _ _ Hj)).
  destruct (0 <? _); [|by eapply remove_ok].
  destruct (Hk (finalize now "completed" (drop_lease j))) as [[He Hs Hf Hl] Hx].
  eapply moved_ok; [done|done|done|done|]. constructor; [by rewrite Hl, Hx|by rewrite Hf|].
  rewrite He. apply env_moved_id.
Qed.

Lemma ack_result_ok now l logs aw res i :
  inner_ok i → inner_ok (ack_success_with_result now l logs aw res i).1.
Proof.
  intros Hok. unfold ack_success_with_result. repeat (case_if; [done|]).
  destruct (identity i l) eqn:E; [|done]. destruct a.
  apply identity_ok in E as (j & Hj & [Hrun _]%holds_lease_true).
  destruct (reconcile_weight_spec now aw (lr_job_id l) i j Hj) as (r & j' & -> & Ht). simpl.
  eapply ack_success_ok; [|by eapply touched_rate_ok|by apply lookup_insert_eq].
  intros j0. by destruct (log_line logs).
Qed.

Lemma renew_loop_ok expires leases i lost :
  inner_ok i → inner_ok (renew_loop expires leases i lost).1.
Proof.
  revert i lost. induction leases as [|l leases IH]; intros i lost Hok; [done|]. simpl.
  destruct (jobs i !! lr_job_id l) as [j|] eqn:Ej; [|auto].
  destruct (holds_lease j l) eqn:Eh; [|auto]. apply holds_lease_true in Eh as [Hr _].
  rewrite (alter_job_insert _ _ j) by done. apply IH. by eapply touched_ok.
Qed.

Lemma alter_held_ok i l f :
  inner_ok i → identity i l = Ok tt → (∀ j, job_touched j (f j)) →
  inner_ok (alter_job f (lr_job_id l) i).
Proof.
  intros Hok (j & Hj & [Hr _]%holds_lease_true)%identity_ok Hf.
  rewrite (alter_job_insert _ _ j) by done. by eapply touched_ok.
Qed.

(** A lost lease: the crash budget's row of the transition table. *)
Lemma crash_job_spec now rp j j' q :
  crash_job now rp j = (j', q) →
  let s := transition State.Running Outcome.LeaseLost (ctx_of rp j) in
  in_state j' s ∧ job_moved j j' ∧ q = is_terminal s
  ∧ e_attempt (mj_env j') = e_attempt (mj_env j)
  ∧ e_crash_attempt (mj_env j') = u32_add (e_crash_attempt (mj_env j)) 1
  ∧ e_fingerprint (mj_env j') = e_fingerprint (mj_env j).
Proof.
  unfold crash_job, in_state. simpl.
  destruct (Z.leb_spec (rp_crash_limit rp) (u32_add (e_crash_attempt (mj_env j)) 1)),
    (Z.ltb_spec (u32_add (e_crash_attempt (mj_env j)) 1) (rp_crash_limit rp)); try lia;
    intros [= <- <-]; (split_and!; [done| |done..]); (constructor; [done|done|]);
    do 3 eexists; reflexivity.
Qed.

(** The store after a reclaim of [j]. *)
Lemma reclaim_one_spec now rp id j i :
  jobs i !! id = Some j →
  let s := transition State.Running Outcome.LeaseLost (ctx_of rp j) in
  ∃ j' qs, reclaim_one now rp id j i =
      ((moved_store id i s j') <| quarantine := qs |>,
       mkReclaimed id (e_fingerprint (mj_env j)) (e_crash_attempt (mj_env j')) (is_terminal s))
    ∧ in_state j' s ∧ job_moved j j'
    ∧ e_attempt (mj_env j') = e_attempt (mj_env j)
    ∧ e_crash_attempt (mj_env j') = u32_add (e_crash_attempt (mj_env j)) 1
    ∧ qs = if is_terminal s && negb (String.eqb (e_fingerprint (mj_env j)) "")
           then <[e_fingerprint (mj_env j) := true]> (quarantine i) else quarantine i.
Proof.
  intros Hj s. unfold reclaim_one. destruct (crash_job now rp j) as [j' q] eqn:E.
  apply crash_job_spec in E as (Hs & Hm & Hq & Ha & Hc & Hf). fold s in Hs, Hq. subst q.
  exists j'. eexists. split; [|split_and!; [done..|reflexivity]].
  rewrite Hf. destruct (is_terminal s) eqn:Et.
  - rewrite (moved_store_terminal id i s j j') by (done || by apply job_moved_same_key).
    assert (quarantine (moved_store id i s j') = quarantine i) as Hqu.
    { unfold moved_store. rewrite Et. apply release_unique_frame. }
    rewrite Hqu. destruct (negb _); [done|]. cbn [andb].
    f_equal. rewrite <-Hqu. by destruct (moved_store id i s j').
  - rewrite moved_store_live by done. by destruct i.
Qed.

Lemma reclaim_one_ok now rp id j i :
  inner_ok i → jobs i !! id = Some j → inner_ok (reclaim_one now rp id j i).1.
Proof.
  intros Hok Hj. destruct (reclaim_one_spec now rp id j i Hj) as (j' & qs & -> & Hs & Hm & _).
  simpl in *. eapply (moved_ok id i _ j j'); eauto. by case_if.
Qed.

Lemma reclaim_loop_ok now limit rp ids i out :
  inner_ok i → inner_ok (reclaim_loop now limit rp ids i out).1.
Proof.
  revert i out. induction ids as [|id ids IH]; intros i out Hok; simpl; [done|].
  case_if; [done|]. destruct (jobs i !! id) as [j|] eqn:Ej; [|auto].
  destruct (expired now j); [|auto].
  pose proof (reclaim_one_ok now rp id j i Hok Ej). destruct (reclaim_one now rp id j i). auto.
Qed.

Lemma due_spec now j :
  due now j = true → (in_state j State.Scheduled ∨ in_state j State.Retryable)
                     ∧ e_scheduled_at_ms (mj_env j) ≤ now.
Proof.
  unfold due, in_state. rewrite andb_true_iff, orb_true_iff, !String.eqb_eq, Z.leb_le. done.
Qed.

Lemma promote_job_ok id j : job_ok id j → (in_state j State.Scheduled ∨ in_state j State.Retryable) →
  job_ok id (j <| mj_state := "available" |>).
Proof.
  intros [? ? Hl ? ?] Hs. constructor; try done.
  - exists State.Available. done.
  - intros _. apply Hl. unfold in_state in Hs. destruct Hs as [-> | ->]; done.
Qed.

Lemma promote_loop_ok now limit ord i n :
  inner_ok i → inner_ok (promote_loop now limit ord i n).1.
Proof.
  revert i n. induction ord as [|id ord IH]; intros i n Hok; simpl; [done|].
  case_if; [done|]. destruct (jobs i !! id) as [j|] eqn:Ej; [|auto].
  destruct (due now j) eqn:Ed; [|auto]. apply IH. apply due_spec in Ed as [Hs _].
  unfold inner_ok, upd; simpl. eapply store_ok_update; eauto.
  - apply promote_job_ok; [|done]. by apply (so_jobs _ _ Hok).
  - done.
  - intros _. exists State.Available. done.
Qed.

Lemma lapsed_not_live now j : lapsed now j = true → live j → False.
Proof.
  unfold lapsed. rewrite !andb_true_iff. intros [[Hs _] _] (s & Hin & Ht). unfold in_state in Hin.
  rewrite Hin in Hs. destruct s; done.
Qed.

Lemma evict_ok now ord limit i : inner_ok i → inner_ok (evict_retained now ord limit i).1.
Proof.
  intros Hok. unfold evict_retained. simpl.
  assert (∀ ids i, inner_ok i →
    (∀ id j, id ∈ ids → jobs i !! id = Some j → lapsed now j = true) →
    inner_ok (foldl (λ i id, remove_job id i) i ids)) as H.
  { clear. induction ids as [|id ids IH]; intros i Hok Hl; simpl; [done|]. apply IH.
    - unfold inner_ok, remove_job, upd; simpl. apply store_ok_delete; [done|]. intros k Hk.
      destruct (so_unique _ _ Hok _ _ Hk) as (j & Hj & Hlive & _).
      eapply lapsed_not_live; [|done]. eapply Hl; [|done]. by left.
    - intros id' j Hid Hj. apply (lookup_delete_Some (jobs i)) in Hj as [_ Hj].
      eapply Hl; [|done]. by right. }
  apply H; [done|]. intros id j Hid Hj. unfold lapsed_ids in Hid.
  apply elem_of_take in Hid as (n & Hn & _).
  apply list_elem_of_lookup_2, list_elem_of_filter in Hn as [Hn _]. by rewrite Hj in Hn.
Qed.

Lemma admit_ok now ord req i : NoDup ord → inner_ok i → inner_ok (mem_admit now ord req i).1.
Proof.
  intros Hnd Hok. destruct (duration_is_zero (ar_lease req)) eqn:Ez.
  { unfold mem_admit. by rewrite Ez. }
  rewrite admit_unfold by done. destruct (drawn_all_drawn now req i ord Hnd) as [cs Hd].
  set (d := drawn_all now req i ord) in *. destruct Hd as [_ Hel _ Hjobs [Hun _ _ _ _] _ _].
  change (store_ok (jobs (d_inner d)) (unique (d_inner d))). rewrite Hun. constructor.
  - intros id j. rewrite Hjobs. case_bool_decide as Hin; [|apply Hok].
    destruct (jobs i !! id) as [j0|] eqn:Ej; intros [= <-].
    destruct (so_jobs _ _ Hok _ _ Ej). constructor; try done. by exists State.Running.
  - intros k id Hk. destruct (so_unique _ _ Hok _ _ Hk) as (j & Hj & Hl & Hix).
    rewrite Hjobs, Hj. case_bool_decide as Hin; [|by eauto].
    eexists. split; [done|]. split; [by exists State.Running|done].
Qed.

(** *** enqueue *)

Lemma id_pass_spec i batch skip :
  id_pass i batch = Ok skip →
  Forall2 (λ e (b : bool),
    if b then ∃ j, jobs i !! e_id e = Some j
                   ∧ same_job_content e (e_kind (mj_env j)) (e_fingerprint (mj_env j))
                       (e_queue (mj_env j)) = true
    else jobs i !! e_id e = None) batch skip.
Proof.
  revert skip. induction batch as [|e batch IH]; intros skip; simpl; [intros [= <-]; constructor|].
  destruct (jobs i !! e_id e) as [j|] eqn:Ej; [destruct (same_job_content _ _ _ _) eqn:Es; [|done]|];
    (destruct (id_pass i batch) as [sk|]; [|done]); intros [= <-]; (constructor; [eauto|auto]).
Qed.

(** What a unique replacement may change: payload, tags, due time, priority, attempt limit
    and a move to [scheduled]. *)
Record job_replaced (j j' : MemJob) : Prop := {
  jr_key : same_key (mj_env j) (mj_env j');
  jr_ident : e_id (mj_env j') = e_id (mj_env j) ∧ e_queue (mj_env j') = e_queue (mj_env j)
             ∧ e_kind (mj_env j') = e_kind (mj_env j)
             ∧ e_weight (mj_env j') = e_weight (mj_env j)
             ∧ e_retention_ms (mj_env j') = e_retention_ms (mj_env j)
             ∧ e_attempt (mj_env j') = e_attempt (mj_env j)
             ∧ e_crash_attempt (mj_env j') = e_crash_attempt (mj_env j);
  jr_norm : (e_max_attempts (mj_env j) ≠ 0 → e_max_attempts (mj_env j') ≠ 0)
            ∧ (e_schema_version (mj_env j) ≠ 0 → e_schema_version (mj_env j') ≠ 0);
  jr_state : mj_state j' = mj_state j ∨ mj_state j' = "scheduled";
  jr_rest : mj_fence j' = mj_fence j ∧ mj_lease_id j' = mj_lease_id j
            ∧ mj_lease_expires j' = mj_lease_expires j ∧ mj_checkpoint j' = mj_checkpoint j
            ∧ mj_errs j' = mj_errs j;
}.

Lemma job_replaced_refl j : job_replaced j j.
Proof. by constructor; [..|left|]. Qed.

Lemma job_replaced_trans j1 j2 j3 : job_replaced j1 j2 → job_replaced j2 j3 → job_replaced j1 j3.
Proof.
  intros [[? ?] ? [? ?] ? ?] [[? ?] ? [? ?] Hs ?]. destruct_and?. constructor.
  - by split; etrans.
  - by split_and!; etrans.
  - split; auto.
  - destruct Hs as [-> | ->]; auto.
  - by split_and!; etrans.
Qed.

Lemma default_nonzero z d : d ≠ 0 → (if z =? 0 then d else z) ≠ 0.
Proof. by destruct (Z.eqb_spec z 0). Qed.

Lemma set_payload_replaced e j : job_replaced j (set_payload e j).
Proof.
  constructor; [done|done| |by left|done]. split; [done|]. intros _. simpl. by apply default_nonzero.
Qed.

(** One optional assignment of [replace_holder]. *)
Lemma replaced_if (b : bool) j j' p (f : MemJob) :
  (if b then (f, true) else (j, p)) = j' → (b = true → job_replaced j f) → job_replaced j j'.1.
Proof. intros <-. destruct b; simpl; auto using job_replaced_refl. Qed.

Lemma replace_holder_spec now e j : job_replaced j (replace_holder now e j).1.
Proof.
  unfold replace_holder.
  match goal with |- context [if 0 <? ?z then ?t else ?u] => destruct (if 0 <? z then t else u) as [j1 r1] eqn:E1 end.
  apply replaced_if in E1; [|intros _; eapply job_replaced_trans; [apply (set_payload_replaced e)|];
    constructor; [done|done|by split|by right|done]]. simpl in E1.
  match goal with |- context [if has_bit ?m UNIQUE_REPLACE_PAYLOAD then ?t else ?u] =>
    destruct (if has_bit m UNIQUE_REPLACE_PAYLOAD then t else u) as [j2 r2] eqn:E2 end.
  apply replaced_if in E2; [|intros _; apply set_payload_replaced]. simpl in E2.
  match goal with |- context [if ?c && ?c' then ?t else ?u] =>
    destruct (if c && c' then t else u) as [j3 r3] eqn:E3 end.
  apply replaced_if in E3; [|intros _; constructor; [done|done|by split|by left|done]]. simpl in E3.
  match goal with |- context [if has_bit ?m UNIQUE_REPLACE_PRIORITY then ?t else ?u] =>
    destruct (if has_bit m UNIQUE_REPLACE_PRIORITY then t else u) as [j4 r4] eqn:E4 end.
  apply replaced_if in E4; [|intros _; constructor; [done|done|by split|by left|done]]. simpl in E4.
  assert (job_replaced j j4) as H4 by eauto 8 using job_replaced_trans.
  destruct (has_bit _ _); [|done]. eapply job_replaced_trans; [exact H4|].
  constructor; [done|done| |by left|done]. split; [|done]. intros _. by apply default_nonzero.
Qed.

Lemma waiting_state_true s :
  waiting_state s = true ↔ s = "scheduled" ∨ s = "available" ∨ s = "retryable".
Proof. unfold waiting_state. rewrite !orb_true_iff, !String.eqb_eq. tauto. Qed.

Lemma replaced_ok id j j' : job_ok id j → waiting_state (mj_state j) = true → job_replaced j j' →
  job_ok id j' ∧ live j'.
Proof.
  intros [Hid Hs Hl Hn Ht] Hw [[_ Hwin] (Hi & Hq & _ & Hwt & Hr & _) [Hm Hv] Hst (_ & Hli & Hle & _)].
  apply waiting_state_true in Hw.
  assert (waiting_state (mj_state j') = true) as Hw'.
  { apply waiting_state_true. destruct Hst as [-> | ->]; tauto. }
  apply waiting_state_true in Hw'.
  assert (∃ s, in_state j' s ∧ is_terminal s = false) as (s & Hs' & Hterm).
  { unfold in_state. destruct Hw' as [->|[-> | ->]];
      [exists State.Scheduled|exists State.Available|exists State.Retryable]; done. }
  split; [|by exists s]. constructor.
  - congruence.
  - exists s. split; [done|]. by intros ->.
  - intros _. rewrite Hli, Hle. apply Hl. intros Heq. rewrite Heq in Hw. naive_solver.
  - destruct_and! Hn. rewrite Hq, Hwt. auto.
  - rewrite Hr, <-Hwin. done.
Qed.

Lemma duplicate_ok now i e id : inner_ok i → inner_ok (duplicate now i e id).1.
Proof.
  intros Hok. unfold duplicate. case_if; [|done].
  destruct (jobs i !! id) as [j|] eqn:Ej; [|done].
  destruct (waiting_state (mj_state j)) eqn:Ew; [|done].
  pose proof (replace_holder_spec now e j) as Hr. destruct (replace_holder now e j) as [j' r].
  simpl in *. destruct (replaced_ok id j j' (so_jobs _ _ Hok _ _ Ej) Ew Hr) as [? ?].
  unfold inner_ok, upd; simpl. eapply store_ok_update; eauto. apply Hr.
Qed.

(** The validate pass changes nothing when it accepts. *)
Lemma validate_pass_spec now i l :
  match validate_pass now i l with
  | (i', Ok _) => i' = i
      ∧ ∀ e, (e, false) ∈ l →
          (e_fingerprint e = "" ∨ quarantine i !! e_fingerprint e = None)
          ∧ (∀ k, effective_unique_key e = Some k → unique_holder now i e k = None)
  | (i', Err err) => i' = i ∨ ∃ e id, (e, false) ∈ l ∧ (i', err) = duplicate now i e id
  end.
Proof.
  induction l as [|[e []] l IH]; simpl.
  - split; [done|]. intros e He. by apply elem_of_nil in He.
  - destruct (validate_pass now i l) as [i' []].
    + destruct IH as [-> IH]. split; [done|]. intros e' [?|?]%elem_of_cons; [done|auto].
    + destruct IH as [?|(e' & id & ? & ?)]; [auto|right]. exists e', id. split; [by right|done].
  - destruct (_ && _) eqn:Eq; [by left|].
    assert (e_fingerprint e = "" ∨ quarantine i !! e_fingerprint e = None) as Hf.
    { apply andb_false_iff in Eq as [Eq|Eq]; bool_hyps; [auto|right].
      apply bool_decide_eq_false in Eq. by apply eq_None_not_Some. }
    assert ((∀ k, effective_unique_key e = Some k → unique_holder now i e k = None) →
      match validate_pass now i l with
      | (i', Ok _) => i' = i ∧ ∀ e0, (e0, false) ∈ (e, false) :: l →
          (e_fingerprint e0 = "" ∨ quarantine i !! e_fingerprint e0 = None)
          ∧ (∀ k, effective_unique_key e0 = Some k → unique_holder now i e0 k = None)
      | (i', Err err) => i' = i ∨ ∃ e0 id, (e0, false) ∈ (e, false) :: l ∧ (i', err) = duplicate now i e0 id
      end) as Hrest.
    { intros Hk. destruct (validate_pass now i l) as [i' []].
      - destruct IH as [-> IH]. split; [done|]. intros e' [[= ->]|?]%elem_of_cons; auto.
      - destruct IH as [?|(e' & id & ? & ?)]; [auto|right]. exists e', id. split; [by right|done]. }
    destruct (effective_unique_key e) as [k|] eqn:Ek; [|by apply Hrest].
    destruct (unique_holder now i e k) as [id|] eqn:Eh.
    + destruct (duplicate now i e id) as [i' err] eqn:Ed. right. exists e, id.
      split; [by left|done].
    + apply Hrest. by intros k' [= <-].
Qed.

Lemma stored_env_fields now e :
  let env := stored_env now e in
  e_id env = e_id e ∧ e_queue env ≠ "" ∧ e_max_attempts env ≠ 0 ∧ e_schema_version env ≠ 0
  ∧ e_weight env ≠ 0 ∧ e_retention_ms env = e_retention_ms e
  ∧ e_unique_window_ms env = e_unique_window_ms e
  ∧ effective_unique_key env = effective_unique_key e.
Proof.
  simpl. split_and!; try done.
  - by destruct (String.eqb_spec (e_queue e) "").
  - by apply default_nonzero.
  - by apply default_nonzero.
  - unfold effective_weight. by apply default_nonzero.
Qed.

Lemma initial_state_live now env :
  ∃ s, initial_state now env = state_name s ∧ is_terminal s = false
       ∧ s ≠ State.Running ∧ s ≠ State.Retryable.
Proof.
  unfold initial_state. destruct (e_pending env); [by exists State.Pending|].
  destruct (now <? _); [by exists State.Scheduled|by exists State.Available].
Qed.

Lemma new_job_ok now e :
  0 ≤ e_retention_ms e → 0 ≤ e_unique_window_ms e →
  job_ok (e_id e) (new_job (stored_env now e) (initial_state now (stored_env now e)))
  ∧ live (new_job (stored_env now e) (initial_state now (stored_env now e))).
Proof.
  intros Hr Hw. destruct (initial_state_live now (stored_env now e)) as (s & Hs & Ht & _).
  destruct (stored_env_fields now e) as (Hid & Hq & Hm & Hv & Hwt & Hre & Hwi & _).
  split; [|exists s; done]. constructor; simpl; try done.
  exists s. split; [done|]. by intros ->.
Qed.

(** Inserting a fresh job. *)
Lemma insert_job_ok now i e :
  inner_ok i → jobs i !! e_id e = None → 0 ≤ e_retention_ms e → 0 ≤ e_unique_window_ms e →
  inner_ok (insert_job now i e).
Proof.
  intros Hok Hfresh Hr Hw. destruct (new_job_ok now e Hr Hw) as [Hj Hl].
  assert (∀ k, unique i !! k ≠ Some (e_id e)) as Hno.
  { intros k Hk. destruct (so_unique _ _ Hok _ _ Hk) as (j & ? & _). congruence. }
  destruct (stored_env_fields now e) as (Hid & _ & _ & _ & _ & _ & Hwi & Hkey).
  unfold insert_job, claim_key. cbv zeta. rewrite Hid, Hkey, Hwi.
  set (j := new_job _ _) in *.
  destruct (effective_unique_key e) as [k|] eqn:Ek.
  2:{ apply store_ok_insert; [done..|]. intros k Hk. by destruct (Hno k). }
  destruct (Z.ltb_spec 0 (e_unique_window_ms e)).
  { apply store_ok_insert; [apply Hok|done|]. intros k' Hk. by destruct (Hno k'). }
  unfold inner_ok, upd; simpl. constructor.
  - intros id' j'. destruct (decide (id' = e_id e)) as [->|Hne].
    + rewrite lookup_insert_eq. by intros [= <-].
    + rewrite lookup_insert_ne by done. apply Hok.
  - intros k' id'. destruct (decide (k' = k)) as [->|Hne].
    + rewrite lookup_insert_eq. intros [= <-]. rewrite lookup_insert_eq. exists j.
      split_and!; [done|done|]. split; [by rewrite <-Ek|]. simpl. lia.
    + rewrite lookup_insert_ne by done. intros Hk'.
      destruct (so_unique _ _ Hok _ _ Hk') as (j' & Hj' & ?). exists j'.
      rewrite lookup_insert_ne; [done|]. intros Heq. subst id'. by destruct (Hno k').
Qed.

Lemma insert_job_jobs now i e :
  jobs (insert_job now i e) =
  <[e_id e := new_job (stored_env now e) (initial_state now (stored_env now e))]> (jobs i).
Proof. unfold insert_job, claim_key. by repeat case_match. Qed.

(** The envelopes an enqueue really inserts. *)
Definition fresh_of (l : list (Envelope * bool)) : list Envelope :=
  (filter (λ p, p.2 = false) l).*1.

Lemma insert_pass_foldl now i l : insert_pass now i l = foldl (insert_job now) i (fresh_of l).
Proof.
  unfold fresh_of. revert i. induction l as [|[e []] l IH]; intros i; [done|..];
    cbn [insert_pass]; rewrite filter_cons; [by rewrite decide_False|by rewrite decide_True].
Qed.

Lemma insert_all_ok now es i :
  inner_ok i → (∀ e, e ∈ es → jobs i !! e_id e = None) → NoDup (e_id <$> es) →
  Forall (λ e, 0 ≤ e_retention_ms e ∧ 0 ≤ e_unique_window_ms e) es →
  inner_ok (foldl (insert_job now) i es).
Proof.
  revert i. induction es as [|e es IH]; intros i Hok Hfr Hnd Hall; csimpl in *; [done|].
  apply NoDup_cons in Hnd as [Hni Hnd]. apply Forall_cons in Hall as [[Hr Hw] Hall].
  apply IH; [|  |done|done].
  - apply insert_job_ok; auto. apply Hfr. by left.
  - intros e' He'. rewrite insert_job_jobs, lookup_insert_ne; [apply Hfr; by right|].
    intros Heq. apply Hni. apply list_elem_of_fmap. by exists e'.
Qed.

Lemma validate_enqueue_sound batch :
  validate_enqueue batch = Ok tt → Forall envelope_ok batch ∧ NoDup (e_id <$> batch).
Proof.
  unfold validate_enqueue. rewrite reject_if_ok, bind_ok. intros (_ & st & Hst & _).
  destruct (proj1 (validate_envelopes_ok [] 0 batch ltac:(rewrite MAX_ENQUEUE_BYTES_val; lia)))
    as (H1 & H2 & _); [|done]. by rewrite Hst.
Qed.

Lemma fresh_of_zip i batch skip :
  id_pass i batch = Ok skip →
  (∀ e, e ∈ fresh_of (zip batch skip) ↔ e ∈ batch ∧ jobs i !! e_id e = None)
  ∧ sublist (fresh_of (zip batch skip)) batch.
Proof.
  intros H%id_pass_spec. unfold fresh_of. induction H as [|e b batch skip Hb H [IH1 IH2]]; csimpl.
  { split; [|constructor]. intros e. rewrite elem_of_nil. naive_solver. }
  rewrite filter_cons. destruct b.
  - rewrite decide_False by done. destruct Hb as (j & Hj & _). split; [|by constructor].
    intros e'. rewrite IH1, elem_of_cons. split; [naive_solver|]. intros [[->|?] ?]; [congruence|done].
  - rewrite decide_True by done. csimpl. split; [|by constructor].
    intros e'. rewrite !elem_of_cons, IH1. split; [|tauto]. intros [->|?]; tauto.
Qed.

Lemma enqueue_ok now batch i : inner_ok i → inner_ok (enqueue now batch i).1.
Proof.
  intros Hok. unfold enqueue. destruct (validate_enqueue batch) as [[]|] eqn:Ev; [|done].
  destruct (id_pass i batch) as [skip|] eqn:Ei; [|done].
  pose proof (validate_pass_spec now i (zip batch skip)) as Hv.
  destruct (validate_pass now i (zip batch skip)) as [i' []].
  - destruct Hv as [-> _]. simpl. rewrite insert_pass_foldl.
    apply validate_enqueue_sound in Ev as [Hall Hnd]. apply fresh_of_zip in Ei as [Hfr Hsub].
    apply insert_all_ok; [done| | |].
    + intros e [_ He]%Hfr. done.
    + eapply sublist_NoDup; [done|]. by apply fmap_sublist.
    + apply Forall_forall. intros e [He _]%Hfr. rewrite Forall_forall in Hall.
      destruct (Hall e He). tauto.
  - simpl. destruct Hv as [->|(env & id & _ & Hd)]; [done|].
    pose proof (duplicate_ok now i env id Hok) as Hdo. by rewrite <-Hd in Hdo.
Qed.

(** *** Any operation *)

Lemma run_inner_ok now ord rp o i :
  ord ≡ₚ job_ids i → inner_ok i → inner_ok (run_inner now ord rp o i).
Proof.
  intros Hord Hok. destruct o; simpl; try done.
  - by apply enqueue_ok.
  - by apply enqueue_ok.
  - apply admit_ok; [by eapply perm_job_ids_nodup|done].
  - by apply ack_ok.
  - by apply ack_result_ok.
  - unfold renew. case_if; [done|]. pose proof (renew_loop_ok
      (i64_add now (wrap_i64 (as_millis lease))) leases i [] Hok).
    by destruct (renew_loop _ leases i []).
  - unfold checkpoint. destruct (identity i l) as [[]|] eqn:E; [|done]. by apply alter_held_ok.
  - unfold reclaim_expired. pose proof (reclaim_loop_ok now limit rp (sort_strings (job_ids i)) i [] Hok).
    by destruct (reclaim_loop _ _ _ _ _ _).
  - unfold promote_due. pose proof (promote_loop_ok now limit ord i 0 Hok).
    by destruct (promote_loop _ _ _ _ _).
  - by apply evict_ok.
  - unfold claim_duty. by repeat case_match.
  - unfold release_duty. by repeat case_match.
  - unfold write_job_output. repeat (case_if; [done|]).
    destruct (identity i l) as [[]|] eqn:E; [|done]. by apply alter_held_ok.
  - unfold write_job_progress. destruct (validate_progress update); [|done].
    destruct (identity i l) as [[]|] eqn:E; [|done]. by apply alter_held_ok.
Qed.

Lemma run_op_inner sys ord o s :
  inner (run_op sys ord o s) = run_inner (mem_now sys s) ord (retry_policy s) o (inner s).
Proof. by destruct o. Qed.

Lemma mem_new_ok : inner_ok (inner mem_new).
Proof. by constructor. Qed.

Lemma mem_step_ok s s' : mem_step s s' → inner_ok (inner s) → inner_ok (inner s').
Proof. intros [sys ord o Hord] Hok. rewrite run_op_inner. by apply run_inner_ok. Qed.

Lemma mem_reachable_ok s : mem_reachable s → inner_ok (inner s).
Proof.
  unfold mem_reachable. intros Hr. pose proof mem_new_ok as Hok. revert Hok.
  induction Hr as [|s1 s2 s3 Hstep _ IH]; [done|]. intros Hok. by eapply IH, mem_step_ok.
Qed.

(** In every reachable store each job is filed under its own id, in one of the ten
    stored states, with a normalised envelope (queue, attempt limit, schema version and
    weight filled in), and a job that is not running holds no lease. *)
Theorem reachable_jobs_well_formed s :
  mem_reachable s → ∀ id j, jobs (inner s) !! id = Some j → job_ok id j.
Proof. intros Hr id j. apply (mem_reachable_ok s Hr). Qed.

(** C9.  In every reachable store the lifecycle uniqueness index names only live jobs that
    carry the indexed key: no completed, archived, quarantined, evicted or deleted job ever
    blocks a new enqueue of its key. *)
Theorem unique_index_names_live_jobs s :
  mem_reachable s → ∀ k id, unique (inner s) !! k = Some id →
  ∃ j, jobs (inner s) !! id = Some j ∧ live j ∧ indexed_by (mj_env j) k.
Proof. intros Hr k id. apply (mem_reachable_ok s Hr). Qed.

(** ** Witnesses *)

Definition demo_mem : MemStore :=
  run_op 10 [] (OpEnqueue [(demo_env "a1" "a" 0) <| e_unique_key := Some "k" |>]) mem_new.

Lemma demo_mem_reachable : mem_reachable demo_mem.
Proof. apply rtc_once, mem_step_run. by vm_compute. Qed.

Lemma reachable_jobs_well_formed_witness :
  ∃ j, jobs (inner demo_mem) !! "a1" = Some j ∧ job_ok "a1" j.
Proof.
  eexists. split; [by vm_compute|].
  apply (reachable_jobs_well_formed demo_mem demo_mem_reachable "a1"). by vm_compute.
Defined.

Definition demo_key : bytes :=
  default "" (effective_unique_key ((demo_env "a1" "a" 0) <| e_unique_key := Some "k" |>)).

Lemma unique_index_names_live_jobs_witness :
  ∃ j, jobs (inner demo_mem) !! "a1" = Some j ∧ live j ∧ indexed_by (mj_env j) demo_key.
Proof.
  apply (unique_index_names_live_jobs demo_mem demo_mem_reachable demo_key "a1"). by vm_compute.
Defined.
