(* ===== verification/MemLease.v ===== *)
(** * Leases, outcomes and uniqueness of the in-memory store

    Theorems about what the operations of [MemStore] do to jobs over time: an ack applies
    the row of the transition table, a settled lease stays rejected, a claim that [mem_admit]
    hands out is honoured, a lost lease costs a crash attempt and quarantines at the limit,
    [enqueue] is all-or-nothing and replays as a no-op, a lifecycle key has one live job,
    eviction only deletes lapsed terminal jobs, and duty leases exclude other holders. *)

From S2P Require Import Prelude Shared Lifecycle Envelope MemStore MemAdmit MemInv.
Local Open Scope Z_scope.

(** ** How one operation changes a job that it does not create *)

Record evolves (j j' : MemJob) : Prop := {
  ev_fence : mj_fence j' = mj_fence j;
  ev_lease : mj_state j' = "running" →
    mj_state j = "running" ∧ mj_lease_id j' = mj_lease_id j ∧ mj_env j' = mj_env j;
  ev_key : same_key (mj_env j) (mj_env j');
  ev_live : live j' → live j;
}.

Lemma evolves_refl j : evolves j j.
Proof. done. Qed.

Lemma evolves_trans j1 j2 j3 : evolves j1 j2 → evolves j2 j3 → evolves j1 j3.
Proof.
  intros [Hf Hl [Hk Hw] Hv] [Hf' Hl' [Hk' Hw'] Hv']. constructor.
  - congruence.
  - intros (? & -> & ->)%Hl'. by apply Hl.
  - split; congruence.
  - auto.
Qed.

(** No job is created, and an index entry is dropped only with its job. *)
Record updates (i i' : Inner) : Prop := {
  up_jobs id j' : jobs i' !! id = Some j' → ∃ j, jobs i !! id = Some j ∧ evolves j j';
  up_unique k id : unique i !! k = Some id →
    unique i' !! k = Some id ∨ ∀ j', jobs i' !! id = Some j' → live j' → False;
}.

Lemma updates_refl i : updates i i.
Proof. constructor; eauto using evolves_refl. Qed.

Lemma updates_trans i1 i2 i3 : updates i1 i2 → updates i2 i3 → updates i1 i3.
Proof.
  intros [Hj Hu] [Hj' Hu']. constructor.
  - intros id j3 H3. destruct (Hj' _ _ H3) as (j2 & H2 & E23).
    destruct (Hj _ _ H2) as (j1 & H1 & E12). exists j1. split; [done|]. by eapply evolves_trans.
  - intros k id Hk. destruct (Hu k id Hk) as [?|Hd]; [by apply Hu'|right].
    intros j3 H3 Hl. destruct (Hj' _ _ H3) as (j2 & H2 & E23).
    eapply Hd; [done|]. by apply E23.
Qed.

Lemma updates_same_jobs i i' : jobs i' = jobs i → unique i' = unique i → updates i i'.
Proof. intros Hj Hu. constructor; rewrite ?Hj, ?Hu; eauto using evolves_refl. Qed.

Lemma updates_insert i id j j' :
  jobs i !! id = Some j → evolves j j' → updates i (i <| jobs := <[id := j']> (jobs i) |>).
Proof.
  intros Hj He. constructor; unfold upd; simpl; [|by auto].
  intros id' j1. destruct (decide (id' = id)) as [->|Hne].
  - rewrite lookup_insert_eq. intros [= <-]. eauto.
  - rewrite lookup_insert_ne by done. eauto using evolves_refl.
Qed.

Lemma terminal_not_live j s : in_state j s → is_terminal s = true → live j → False.
Proof.
  intros Hs Ht (s' & Hs' & Ht'). unfold in_state in *. rewrite Hs in Hs'.
  apply state_name_inj in Hs'. congruence.
Qed.

Lemma running_live j : mj_state j = "running" → live j.
Proof. intros. by exists State.Running. Qed.

Lemma job_moved_evolves j j' s :
  mj_state j = "running" → job_moved j j' → in_state j' s → s ≠ State.Running → evolves j j'.
Proof.
  intros Hr [Hl Hf He] Hs Hne. constructor.
  - done.
  - intros Hr'. unfold in_state in Hs. rewrite Hr' in Hs. by apply (state_name_inj State.Running) in Hs.
  - by apply job_moved_same_key.
  - intros _. by apply running_live.
Qed.

Lemma release_unique_updates id i j :
  inner_ok i → jobs i !! id = Some j → ∀ k id', unique i !! k = Some id' → id' ≠ id →
  unique (release_unique id i) !! k = Some id'.
Proof. intros Hok Hj k id' Hk Hne. by apply (release_unique_spec id i j). Qed.

Lemma moved_updates id i s j j' :
  inner_ok i → jobs i !! id = Some j → mj_state j = "running" → job_moved j j' →
  in_state j' s → s ≠ State.Running → updates i (moved_store id i s j').
Proof.
  intros Hok Hj Hr Hm Hs Hne. pose proof (job_moved_evolves j j' s Hr Hm Hs Hne) as He.
  unfold moved_store. destruct (is_terminal s) eqn:Et; [|by apply updates_insert with j].
  constructor; unfold upd; simpl.
  - intros id' j1. destruct (decide (id' = id)) as [->|?].
    + rewrite lookup_insert_eq. intros [= <-]. eauto.
    + rewrite lookup_insert_ne by done. eauto using evolves_refl.
  - intros k id' Hk. destruct (decide (id' = id)) as [->|?].
    + right. intros j1. rewrite lookup_insert_eq. intros [= <-]. by apply terminal_not_live with s.
    + left. by eapply release_unique_updates.
Qed.

Lemma removed_updates id i j :
  inner_ok i → jobs i !! id = Some j → updates i (remove_job id (release_unique id i)).
Proof.
  intros Hok Hj. constructor; unfold remove_job, upd; simpl.
  - intros id' j'. rewrite (proj1 (release_unique_frame id i)). intros [_ ?]%lookup_delete_Some.
    eauto using evolves_refl.
  - intros k id' Hk. destruct (decide (id' = id)) as [->|?].
    + right. intros j'. by rewrite lookup_delete_eq.
    + left. by eapply release_unique_updates.
Qed.

Lemma transition_not_running o ctx : transition State.Running o ctx ≠ State.Running.
Proof. destruct o; simpl; by repeat case_if. Qed.

Lemma outcome_updates rp o id i j i' :
  inner_ok i → jobs i !! id = Some j → mj_state j = "running" →
  outcome_applied rp o id i j i' → updates i i'.
Proof.
  intros Hok Hj Hr. unfold outcome_applied. case_decide.
  - intros ->. by eapply removed_updates.
  - intros (j' & -> & Hs & Hm & _). eapply moved_updates; eauto. apply transition_not_running.
Qed.

Lemma touched_evolves j j' : job_touched j j' → evolves j j'.
Proof.
  intros [He Hs Hf Hl]. constructor; [done| | |].
  - intros. split_and!; congruence.
  - unfold same_key. by rewrite He.
  - unfold live, in_state. by rewrite Hs.
Qed.

(** The store an ack works on once the lease is checked: charge and bucket reconciled. *)
Definition reconciled (id : string) (i : Inner) (r : gmap string RateBucket) (j' : MemJob) : Inner :=
  i <| rate := r |> <| jobs := <[id := j']> (jobs i) |>.

Lemma reconciled_updates id i r j j' :
  jobs i !! id = Some j → job_touched j j' → updates i (reconciled id i r j').
Proof.
  intros Hj Ht.
  eapply updates_trans; [by apply (updates_insert i id j j'), touched_evolves|].
  by apply updates_same_jobs.
Qed.

(** An ack either is refused with the lease untouched, or reports an invalid outcome, or
    applies the outcome. *)
Lemma ack_spec now rp l o err d logs aw i i' res :
  inner_ok i → ack_attempt_with_actual_weight now rp l o err d logs aw i = (i', res) →
  (identity i l = Err (StoreError.LeaseRejected (lr_job_id l))
   ∧ res = Err (StoreError.LeaseRejected (lr_job_id l)) ∧ i' = i)
  ∨ ∃ j r j', jobs i !! lr_job_id l = Some j ∧ holds_lease j l = true ∧ job_touched j j'
      ∧ inner_ok (reconciled (lr_job_id l) i r j')
      ∧ match res with
        | Err _ => i' = reconciled (lr_job_id l) i r j'
        | Ok _ => outcome_applied rp o (lr_job_id l) (reconciled (lr_job_id l) i r j') j' i'
        end.
Proof.
  intros Hok. unfold ack_attempt_with_actual_weight.
  destruct (identity_cases i l) as [E|E]; rewrite E; [|intros [= <- <-]; by left].
  apply identity_ok in E as (j & Hj & Hh). pose proof Hh as [Hrun _]%holds_lease_true.
  destruct (reconcile_weight_spec now aw (lr_job_id l) i j Hj) as (r & j' & -> & Ht).
  fold (reconciled (lr_job_id l) i r j'). intros Ha. right. exists j, r, j'.
  split_and!; [done|done|done|by eapply touched_rate_ok|].
  pose proof (apply_outcome_spec now rp o err d (log_line logs) (lr_job_id l)
    (reconciled (lr_job_id l) i r j') j' (lookup_insert_eq _ _ _)) as Hap.
  rewrite Ha in Hap. apply Hap. rewrite (jt_env _ _ Ht). apply (so_jobs _ _ Hok _ _ Hj).
Qed.

Lemma ack_updates now rp l o err d logs aw i :
  inner_ok i → updates i (ack_attempt_with_actual_weight now rp l o err d logs aw i).1.
Proof.
  intros Hok. destruct (ack_attempt_with_actual_weight _ _ _ _ _ _ _ _ _) as [i' res] eqn:E.
  apply ack_spec in E as [(_ & _ & ->)|(j & r & j' & Hj & Hh & Ht & Hok' & Hr)];
    [apply updates_refl| |done].
  apply holds_lease_true in Hh as [Hrun _].
  eapply updates_trans; [by eapply reconciled_updates|].
  destruct res; simpl; [|rewrite Hr; apply updates_refl].
  eapply outcome_updates; [done|apply lookup_insert_eq| |done]. by rewrite (jt_state _ _ Ht).
Qed.

Lemma ack_result_updates now l logs aw res i :
  inner_ok i → updates i (ack_success_with_result now l logs aw res i).1.
Proof.
  intros Hok. unfold ack_success_with_result. repeat (case_if; [apply updates_refl|]).
  destruct (identity i l) as [[]|] eqn:E; [|apply updates_refl].
  apply identity_ok in E as (j & Hj & [Hrun _]%holds_lease_true).
  destruct (reconcile_weight_spec now aw (lr_job_id l) i j Hj) as (r & j' & -> & Ht).
  fold (reconciled (lr_job_id l) i r j'). cbn [fst].
  assert (inner_ok (reconciled (lr_job_id l) i r j')) as Hok' by (by eapply touched_rate_ok).
  eapply updates_trans; [by eapply reconciled_updates|].
  rewrite (ack_success_spec _ _ _ _ j');
    [|apply lookup_insert_eq|rewrite (jt_env _ _ Ht); apply (so_jobs _ _ Hok _ _ Hj)].
  destruct (0 <? _); [|by eapply removed_updates; [|apply lookup_insert_eq]].
  eapply moved_updates; [done|apply lookup_insert_eq|by rewrite (jt_state _ _ Ht)| | |done];
    destruct (log_line logs); try done; (constructor; [done|done|apply env_moved_id]).
Qed.

Lemma renew_loop_updates expires leases i lost :
  updates i (renew_loop expires leases i lost).1.
Proof.
  revert i lost. induction leases as [|l leases IH]; intros i lost; simpl; [apply updates_refl|].
  destruct (jobs i !! lr_job_id l) as [j|] eqn:Ej; [|auto].
  destruct (holds_lease j l); [|auto]. rewrite (alter_job_insert _ _ j) by done.
  eapply updates_trans; [|apply IH]. eapply updates_insert; [done|]. by apply touched_evolves.
Qed.

Lemma alter_held_updates i l f :
  identity i l = Ok tt → (∀ j, job_touched j (f j)) → updates i (alter_job f (lr_job_id l) i).
Proof.
  intros (j & Hj & _)%identity_ok Hf. rewrite (alter_job_insert _ _ j) by done.
  eapply updates_insert; [done|]. by apply touched_evolves.
Qed.

Lemma reclaim_loop_updates now limit rp ids i out :
  inner_ok i → updates i (reclaim_loop now limit rp ids i out).1.
Proof.
  revert i out. induction ids as [|id ids IH]; intros i out Hok; simpl; [apply updates_refl|].
  case_if; [apply updates_refl|]. destruct (jobs i !! id) as [j|] eqn:Ej; [|auto].
  destruct (expired now j) eqn:Ex; [|auto].
  assert (mj_state j = "running") as Hrun.
  { unfold expired in Ex. bool_hyps. done. }
  pose proof (reclaim_one_ok now rp id j i Hok Ej) as Hok'.
  destruct (reclaim_one_spec now rp id j i Ej) as (j' & qs & Heq & Hs & Hm & _).
  rewrite Heq in *. simpl in Hok'. eapply updates_trans; [|by apply IH].
  apply (updates_trans _ (moved_store id i (transition State.Running Outcome.LeaseLost (ctx_of rp j)) j'));
    [|by apply updates_same_jobs].
  eapply moved_updates; eauto. apply transition_not_running.
Qed.

Lemma promote_loop_updates now limit ord i n : updates i (promote_loop now limit ord i n).1.
Proof.
  revert i n. induction ord as [|id ord IH]; intros i n; simpl; [apply updates_refl|].
  case_if; [apply updates_refl|]. destruct (jobs i !! id) as [j|] eqn:Ej; [|auto].
  destruct (due now j) eqn:Ed; [|auto]. eapply updates_trans; [|apply IH].
  eapply updates_insert; [done|]. apply due_spec in Ed as [Hs _].
  constructor; [done|done|done|]. intros _. unfold live.
  destruct Hs; [exists State.Scheduled|exists State.Retryable]; done.
Qed.

Lemma evict_updates now ord limit i : updates i (evict_retained now ord limit i).1.
Proof.
  unfold evict_retained. simpl. generalize (lapsed_ids now ord limit i) as ids.
  intros ids. revert i. induction ids as [|id ids IH]; intros i; simpl; [apply updates_refl|].
  eapply updates_trans; [|apply IH]. constructor; [|by auto].
  intros id' j' H. apply (lookup_delete_Some (jobs i)) in H as [_ ?]. eauto using evolves_refl.
Qed.

Definition is_enqueue (o : mem_op) : bool :=
  match o with OpEnqueue _ | OpEnqueueWithoutUniqueness _ => true | _ => false end.
Definition is_admit (o : mem_op) : bool := match o with OpAdmit _ => true | _ => false end.

Lemma run_inner_updates now ord rp o i :
  inner_ok i → is_enqueue o = false → is_admit o = false → updates i (run_inner now ord rp o i).
Proof.
  intros Hok Hne Hna. destruct o; simpl; try done; try (apply updates_refl); try by apply updates_same_jobs.
  - by apply ack_updates.
  - by apply ack_result_updates.
  - unfold renew. case_if; [apply updates_refl|].
    pose proof (renew_loop_updates (i64_add now (wrap_i64 (as_millis lease))) leases i []) as Hu.
    by destruct (renew_loop _ leases i []).
  - unfold checkpoint. destruct (identity i l) as [[]|] eqn:E; [|apply updates_refl].
    by apply alter_held_updates.
  - unfold reclaim_expired.
    pose proof (reclaim_loop_updates now limit rp (sort_strings (job_ids i)) i [] Hok) as Hu.
    by destruct (reclaim_loop _ _ _ _ _ _).
  - unfold promote_due. pose proof (promote_loop_updates now limit ord i 0) as Hu.
    by destruct (promote_loop _ _ _ _ _).
  - apply evict_updates.
  - unfold claim_duty. repeat case_match; (apply updates_refl || by apply updates_same_jobs).
  - unfold release_duty. repeat case_match; (apply updates_refl || by apply updates_same_jobs).
  - unfold write_job_output. repeat (case_if; [apply updates_refl|]).
    destruct (identity i l) as [[]|] eqn:E; [|apply updates_refl]. by apply alter_held_updates.
  - unfold write_job_progress. destruct (validate_progress update); [|apply updates_refl].
    destruct (identity i l) as [[]|] eqn:E; [|apply updates_refl]. by apply alter_held_updates.
Qed.

(** *** enqueue: jobs that were there stay, at most one holder rewritten *)

Lemma insert_all_jobs now es i id :
  NoDup (e_id <$> es) →
  jobs (foldl (insert_job now) i es) !! id =
  match list_find (λ e, e_id e = id) es with
  | Some (_, e) => Some (new_job (stored_env now e) (initial_state now (stored_env now e)))
  | None => jobs i !! id
  end.
Proof.
  revert i. induction es as [|e es IH]; intros i Hnd; csimpl in *; [done|].
  apply NoDup_cons in Hnd as [Hni Hnd]. rewrite IH by done. rewrite insert_job_jobs.
  case_decide as E.
  - subst id. rewrite lookup_insert_eq. destruct (list_find _ es) as [[n e']|] eqn:Ef; [|done].
    apply list_find_Some in Ef as (Hl & He & _). exfalso. apply Hni, list_elem_of_fmap.
    exists e'. split; [done|]. by eapply list_elem_of_lookup_2.
  - rewrite lookup_insert_ne by done. destruct (list_find _ es) as [[n e']|]; done.
Qed.

Lemma replaced_evolves j j' :
  waiting_state (mj_state j) = true → job_replaced j j' → evolves j j'.
Proof.
  intros Hw [Hk _ _ Hs (Hf & Hl & _)]. apply waiting_state_true in Hw. constructor.
  - done.
  - intros Hr. exfalso. destruct Hs as [Hs|Hs]; rewrite Hs in Hr; [|done].
    rewrite Hr in Hw. naive_solver.
  - done.
  - intros _. unfold live, in_state. destruct Hw as [->|[-> | ->]];
      [exists State.Scheduled|exists State.Available|exists State.Retryable]; done.
Qed.

Lemma duplicate_updates now i e id : updates i (duplicate now i e id).1.
Proof.
  unfold duplicate. case_if; [|apply updates_refl].
  destruct (jobs i !! id) as [j|] eqn:Ej; [|apply updates_refl].
  destruct (waiting_state (mj_state j)) eqn:Ew; [|apply updates_refl].
  pose proof (replace_holder_spec now e j) as Hr. destruct (replace_holder now e j) as [j' r].
  eapply updates_insert; [done|]. by apply replaced_evolves.
Qed.

(** An accepted enqueue inserts exactly the envelopes whose id is new. *)
Lemma enqueue_cases now batch i :
  match enqueue now batch i with
  | (i', Ok _) => ∃ es, sublist es batch ∧ NoDup (e_id <$> es) ∧ validate_enqueue batch = Ok tt
      ∧ (∀ e, e ∈ es ↔ e ∈ batch ∧ jobs i !! e_id e = None)
      ∧ (∀ e, e ∈ es → (e_fingerprint e = "" ∨ quarantine i !! e_fingerprint e = None)
          ∧ (∀ k, effective_unique_key e = Some k → unique_holder now i e k = None))
      ∧ (∀ e, e ∈ batch → e ∉ es → ∃ j, jobs i !! e_id e = Some j
          ∧ same_job_content e (e_kind (mj_env j)) (e_fingerprint (mj_env j)) (e_queue (mj_env j)) = true)
      ∧ i' = foldl (insert_job now) i es
  | (i', Err err) => i' = i ∨ ∃ e id, e ∈ batch ∧ (i', err) = duplicate now i e id
  end.
Proof.
  unfold enqueue. destruct (validate_enqueue batch) as [[]|] eqn:Ev; [|by left].
  destruct (id_pass i batch) as [skip|] eqn:Ei; [|by left].
  pose proof (validate_pass_spec now i (zip batch skip)) as Hv.
  pose proof (fresh_of_zip i batch skip Ei) as [Hfr Hsub].
  assert (∀ e, e ∈ fresh_of (zip batch skip) ↔ (e, false) ∈ zip batch skip) as Hzip.
  { intros e. unfold fresh_of. rewrite list_elem_of_fmap. setoid_rewrite list_elem_of_filter. split.
    - intros ([e' b] & -> & ? & ?). simpl in *. by subst.
    - intros H. by exists (e, false). }
  destruct (validate_pass now i (zip batch skip)) as [i' []].
  - destruct Hv as [-> Hv]. exists (fresh_of (zip batch skip)).
    apply validate_enqueue_sound in Ev as Hs. destruct Hs as [_ Hnd]. split_and!; [done| |done|done| | |by rewrite insert_pass_foldl].
    + eapply sublist_NoDup; [done|]. by apply fmap_sublist.
    + intros e He. by apply Hv, Hzip.
    + intros e He Hn. apply id_pass_spec in Ei. apply list_elem_of_lookup in He as [n Hn'].
      destruct (Forall2_lookup_l _ _ _ _ _ Ei Hn') as (b & Hb & HP). destruct b; [done|].
      exfalso. apply Hn, Hfr. split; [by eapply list_elem_of_lookup_2|done].
  - destruct Hv as [->|(e' & id & Hin & Hd)]; [by left|right]. exists e', id.
    split; [|done]. by eapply elem_of_zip_l.
Qed.

(** ** Fencing *)

Lemma enqueue_old_jobs now batch i id j j' :
  jobs i !! id = Some j → jobs (enqueue now batch i).1 !! id = Some j' → evolves j j'.
Proof.
  intros Hj Hj'. pose proof (enqueue_cases now batch i) as Hc.
  destruct (enqueue now batch i) as [i' []]; simpl in Hj'.
  - destruct Hc as (es & _ & Hnd & _ & Hes & _ & _ & ->). rewrite insert_all_jobs in Hj' by done.
    destruct (list_find _ es) as [[n e0]|] eqn:Ef.
    + apply list_find_Some in Ef as (Hl & <- & _). apply list_elem_of_lookup_2, Hes in Hl as [_ Hl].
      congruence.
    + rewrite Hj in Hj'. injection Hj' as <-. apply evolves_refl.
  - destruct Hc as [->|(e' & id' & _ & Hd)].
    + rewrite Hj in Hj'. injection Hj' as <-. apply evolves_refl.
    + pose proof (duplicate_updates now i e' id') as Hu. rewrite <-Hd in Hu.
      destruct (up_jobs _ _ Hu _ _ Hj') as (j0 & ? & ?). by simplify_eq.
Qed.

(** A job that an operation keeps evolves, or is admitted under the next fence. *)
Lemma run_inner_job now ord rp o i id j j' :
  inner_ok i → ord ≡ₚ job_ids i → jobs i !! id = Some j →
  jobs (run_inner now ord rp o i) !! id = Some j' →
  evolves j j' ∨ mj_state j = "available" ∧ mj_state j' = "running"
                 ∧ mj_fence j' = u64_add (mj_fence j) 1.
Proof.
  intros Hok Hord Hj Hj'. destruct (is_enqueue o) eqn:Ee.
  { left. destruct o; try done; by eapply enqueue_old_jobs. }
  destruct (is_admit o) eqn:Ea.
  - destruct o; try done. simpl in Hj'. destruct (duration_is_zero (ar_lease req)) eqn:Ez.
    { unfold mem_admit in Hj'. rewrite Ez in Hj'. simplify_eq/=. left. apply evolves_refl. }
    rewrite admit_unfold in Hj' by done.
    destruct (drawn_all_drawn now req i ord) as [cs Hd]; [by eapply perm_job_ids_nodup|].
    change (jobs (d_inner (drawn_all now req i ord)) !! id = Some j') in Hj'.
    rewrite (dr_jobs _ _ _ _ _ Hd), Hj in Hj'. case_bool_decide as Hin; simplify_eq/=.
    + right. destruct (dr_eligible _ _ _ _ _ Hd id Hin) as (j0 & ? & _ & q & _ & _ & Hc).
      simplify_eq. split; [by eapply candidate_available|done].
    + left. apply evolves_refl.
  - left. destruct (up_jobs _ _ (run_inner_updates now ord rp o i Hok Ee Ea) _ _ Hj')
      as (j0 & ? & ?). by simplify_eq.
Qed.

(** The lease [l] is over: its job has a later fence, or the same fence and is not running. *)
Definition lease_over (l : LeaseRef) (i : Inner) : Prop :=
  ∃ j, jobs i !! lr_job_id l = Some j
       ∧ (lr_fence l < mj_fence j ∨ lr_fence l = mj_fence j ∧ mj_state j ≠ "running").

Lemma lease_over_rejected l i :
  lease_over l i → identity i l = Err (StoreError.LeaseRejected (lr_job_id l)).
Proof.
  intros (j & Hj & Hd). unfold identity. rewrite Hj.
  destruct (holds_lease j l) eqn:E; [|done]. apply holds_lease_true in E as (Hr & _ & Hf).
  destruct Hd as [?|[_ ?]]; [lia|done].
Qed.

(** While a lease is held its envelope stays as it was claimed. *)
Definition lease_held (l : LeaseRef) (e : Envelope) (i : Inner) : Prop :=
  ∃ j, jobs i !! lr_job_id l = Some j ∧ holds_lease j l = true ∧ mj_env j = e.

(** Steps during which job [id] is not deleted and its fence has room to grow. *)
Definition keeps_job (id : string) (i i' : Inner) : Prop :=
  ∃ now ord rp o, ord ≡ₚ job_ids i ∧ i' = run_inner now ord rp o i
    ∧ is_Some (jobs i' !! id)
    ∧ ∀ j, jobs i !! id = Some j → 0 ≤ mj_fence j < u64_max.

Lemma lease_over_step l i i' :
  inner_ok i → keeps_job (lr_job_id l) i i' → lease_over l i → lease_over l i'.
Proof.
  intros Hok (now & ord & rp & o & Hord & -> & [j' Hj'] & Hroom) (j & Hj & Hd).
  exists j'. split; [done|]. specialize (Hroom _ Hj).
  destruct (run_inner_job _ _ _ _ _ _ _ _ Hok Hord Hj Hj') as [[Hf Hl _ _]|(_ & _ & Hf)].
  - rewrite Hf. destruct Hd as [?|[? Hnr]]; [by left|right]. split; [done|].
    intros Hr. by destruct (Hl Hr).
  - left. rewrite Hf. unfold u64_add. rewrite wrap_u64_id by (unfold in_u64, u64_max in *; lia).
    destruct Hd as [?|[? _]]; lia.
Qed.

Lemma lease_held_step l e i i' :
  inner_ok i → keeps_job (lr_job_id l) i i' → lease_held l e i → lease_held l e i' ∨ lease_over l i'.
Proof.
  intros Hok (now & ord & rp & o & Hord & -> & [j' Hj'] & Hroom) (j & Hj & Hh & He).
  specialize (Hroom _ Hj). apply holds_lease_true in Hh as (Hr & Hid & Hf).
  destruct (run_inner_job _ _ _ _ _ _ _ _ Hok Hord Hj Hj') as [[Hf' Hl _ _]|(Ha & _)]; [|congruence].
  destruct (decide (mj_state j' = "running")) as [Hr'|Hr'].
  - left. destruct (Hl Hr') as (_ & Hid' & He'). exists j'. split_and!; [done| |congruence].
    apply holds_lease_true. split_and!; congruence.
  - right. exists j'. split; [done|]. right. split; [congruence|done].
Qed.

Lemma keeps_job_ok id i i' : inner_ok i → keeps_job id i i' → inner_ok i'.
Proof. intros Hok (now & ord & rp & o & Hord & -> & _). by apply run_inner_ok. Qed.

Lemma lease_held_run l e i i' :
  inner_ok i → rtc (keeps_job (lr_job_id l)) i i' → lease_held l e i ∨ lease_over l i →
  inner_ok i' ∧ (lease_held l e i' ∨ lease_over l i').
Proof.
  intros Hok Hr. revert Hok. induction Hr as [|i1 i2 i3 Hstep _ IH]; [by auto|]. intros Hok Hd.
  apply IH; [by eapply keeps_job_ok|].
  destruct Hd; [by eapply lease_held_step|right; by eapply lease_over_step].
Qed.

Lemma lease_over_run l i i' :
  inner_ok i → rtc (keeps_job (lr_job_id l)) i i' → lease_over l i → lease_over l i'.
Proof.
  intros Hok Hr. revert Hok. induction Hr as [|i1 i2 i3 Hstep _ IH]; [done|]. intros Hok Hd.
  apply IH; [by eapply keeps_job_ok|by eapply lease_over_step].
Qed.

(** An accepted ack ends its lease. *)
Lemma ack_ends_lease now rp l o err d logs aw i i' :
  inner_ok i → ack_attempt_with_actual_weight now rp l o err d logs aw i = (i', Ok tt) →
  is_Some (jobs i' !! lr_job_id l) → lease_over l i'.
Proof.
  intros Hok Ha [j' Hj']. pose proof (ack_updates now rp l o err d logs aw i Hok) as Hu.
  rewrite Ha in Hu. simpl in Hu.
  apply ack_spec in Ha as [(_ & ? & _)|(j & r & j0 & Hj & Hh & Ht & Hok' & Hap)]; [done| |done].
  apply holds_lease_true in Hh as (Hrun & _ & Hf). exists j'. split; [done|].
  destruct (up_jobs _ _ Hu _ _ Hj') as (j1 & ? & [Hf' _ _ _]). simplify_eq. right.
  split; [congruence|]. unfold outcome_applied in Hap. case_decide as Hd.
  { subst i'. unfold remove_job, upd in Hj'. simpl in Hj'. by rewrite lookup_delete_eq in Hj'. }
  destruct Hap as (j2 & -> & Hs & _). unfold moved_store, upd in Hj'. simpl in Hj'.
  rewrite lookup_insert_eq in Hj'. injection Hj' as <-. intros Hr. unfold in_state in Hs.
  rewrite Hr in Hs. apply (state_name_inj State.Running) in Hs.
  by apply (transition_not_running o (ctx_of rp j0)).
Qed.

(** A lease acks at most once: after an accepted ack, however the store is used, as
    long as the job is not deleted, every further ack, checkpoint or progress write under
    the same lease is rejected without any effect. *)
Theorem settled_lease_stays_rejected now rp l o err d logs aw i i1 i2 :
  inner_ok i →
  ack_attempt_with_actual_weight now rp l o err d logs aw i = (i1, Ok tt) →
  is_Some (jobs i1 !! lr_job_id l) →
  rtc (keeps_job (lr_job_id l)) i1 i2 →
  (∀ now' rp' o' err' d' logs' aw',
     ack_attempt_with_actual_weight now' rp' l o' err' d' logs' aw' i2
     = (i2, Err (StoreError.LeaseRejected (lr_job_id l))))
  ∧ (∀ cp, checkpoint l cp i2 = (i2, Err (StoreError.LeaseRejected (lr_job_id l))))
  ∧ (∀ now' u, validate_progress u = Ok tt →
       write_job_progress now' l u i2 = (i2, Err (StoreError.LeaseRejected (lr_job_id l)))).
Proof.
  intros Hok Ha Hs Hr.
  assert (inner_ok i1) as Hok1.
  { pose proof (ack_ok now rp l o err d logs aw i Hok) as H. by rewrite Ha in H. }
  pose proof (ack_ends_lease _ _ _ _ _ _ _ _ _ _ Hok Ha Hs) as Hover.
  pose proof (lease_over_run l i1 i2 Hok1 Hr Hover) as Hrej%lease_over_rejected.
  unfold ack_attempt_with_actual_weight, checkpoint, write_job_progress.
  split_and!; intros; by simplify_eq; rewrite ?H, Hrej.
Qed.

(** ** Acks and the transition table *)

(** C8.  An accepted ack moves its job exactly as the transition table of headgate-core
    says: to the table's state, or out of the store when that is [Deleted]; the lease is
    dropped, only a retry consumes an attempt, no other job changes, and a job that became
    terminal no longer holds its uniqueness key. *)
Theorem ack_follows_transition_table now rp l o err d logs aw i i' :
  inner_ok i →
  ack_attempt_with_actual_weight now rp l o err d logs aw i = (i', Ok tt) →
  ∃ j, jobs i !! lr_job_id l = Some j ∧ holds_lease j l = true
    ∧ let s := transition State.Running o (ctx_of rp j) in
      (if decide (s = State.Deleted) then jobs i' !! lr_job_id l = None
       else ∃ j', jobs i' !! lr_job_id l = Some j' ∧ in_state j' s
              ∧ mj_lease_id j' = "" ∧ mj_fence j' = mj_fence j
              ∧ e_attempt (mj_env j') = (if decide (o = Outcome.Retry)
                   then u32_add (e_attempt (mj_env j)) 1 else e_attempt (mj_env j))
              ∧ e_crash_attempt (mj_env j') = e_crash_attempt (mj_env j))
      ∧ (∀ id, id ≠ lr_job_id l → jobs i' !! id = jobs i !! id)
      ∧ (is_terminal s = true → ∀ k, unique i' !! k ≠ Some (lr_job_id l)).
Proof.
  intros Hok Ha.
  apply ack_spec in Ha as [(_ & ? & _)|(j & r & j0 & Hj & Hh & Ht & Hok' & Hap)]; [done| |done].
  exists j. split_and!; [done|done|]. assert (ctx_of rp j0 = ctx_of rp j) as Hctx.
  { unfold ctx_of. by rewrite (jt_env _ _ Ht). }
  unfold outcome_applied in Hap. rewrite Hctx in Hap. cbv zeta in *.
  set (s := transition State.Running o (ctx_of rp j)) in *.
  assert (∀ k, unique (release_unique (lr_job_id l) (reconciled (lr_job_id l) i r j0)) !! k
               ≠ Some (lr_job_id l)) as Hrel.
  { intros k Hk. by apply (release_unique_spec _ _ j0) in Hk as [_ ?]; [|done|apply lookup_insert_eq]. }
  case_decide as Hd.
  - subst i'. split_and!.
    + unfold remove_job, upd; simpl. apply lookup_delete_eq.
    + intros id Hne. unfold remove_job, upd; simpl.
      rewrite lookup_delete_ne, (proj1 (release_unique_frame _ _)) by done. simpl.
      by rewrite lookup_insert_ne.
    + intros _. apply Hrel.
  - destruct Hap as (j' & -> & Hs & [[Hl _] Hf _] & Hat & Hcr). split_and!.
    + exists j'. rewrite <-(jt_env _ _ Ht), <-(jt_fence _ _ Ht). split_and!; try done.
      unfold moved_store, upd; simpl. apply lookup_insert_eq.
    + intros id Hne. unfold moved_store, upd; simpl. by rewrite !lookup_insert_ne.
    + intros Hterm. unfold moved_store. rewrite Hterm. apply Hrel.
Qed.

Lemma ack_accepts now rp l o err d logs aw i :
  is_ok (ack_attempt_with_actual_weight now rp l o err d logs aw i).2
  = is_ok (identity i l) && is_ok (validate_ack_request o d).
Proof.
  unfold ack_attempt_with_actual_weight. destruct (identity_cases i l) as [E|E]; rewrite E; [|done].
  apply identity_ok in E as (j & Hj & _). simpl.
  destruct (reconcile_weight_spec now aw (lr_job_id l) i j Hj) as (r & j' & -> & Ht).
  unfold validate_ack_request, validate_ack, apply_outcome.
  destruct o; try done; cbn [jobs upd]; unfold upd; simpl.
  - rewrite lookup_insert_eq. by destruct (retry_job _ _ _ _ _ _ _).
  - destruct d as [z|]; simpl; [|done]. by destruct (Z.leb_spec z 0), (Z.ltb_spec 0 z); try lia.
Qed.

(** An ack is accepted exactly when its lease is the job's current one and
    headgate-core's shared request validation accepts the outcome and delay. *)
Theorem ack_accepts_exactly now rp l o err d logs aw i :
  is_ok (ack_attempt_with_actual_weight now rp l o err d logs aw i).2
  = is_ok (identity i l) && is_ok (validate_ack_request o d).
Proof. apply ack_accepts. Qed.

(** ** Admission hands out valid leases *)

(** Every claim an admission returns is honoured: in the store it leaves behind, the
    claim's lease reference passes the identity check of every fenced operation. *)
Theorem admitted_claims_are_honoured now ord req i i' units c :
  inner_ok i → ord ≡ₚ job_ids i → mem_admit now ord req i = (i', Ok units) →
  [c] ∈ units → identity i' (lease_ref c) = Ok tt.
Proof.
  intros Hok Hord Ha Hc. destruct (duration_is_zero (ar_lease req)) eqn:Ez.
  { unfold mem_admit in Ha. by rewrite Ez in Ha. }
  rewrite admit_unfold in Ha by done. injection Ha as <- <-.
  destruct (drawn_all_drawn now req i ord) as [cs Hd]; [by eapply perm_job_ids_nodup|].
  rewrite (dr_units _ _ _ _ _ Hd) in Hc. apply list_elem_of_fmap in Hc as (c' & [= <-] & Hc).
  apply list_elem_of_omap in Hc as (id & Hin & Hcl).
  destruct (jobs i !! id) as [j|] eqn:Ej; simplify_eq/=.
  apply identity_ok. exists (leased now req i j). unfold lease_ref; simpl.
  rewrite (jo_id _ _ (so_jobs _ _ Hok _ _ Ej)).
  change (jobs _) with (jobs (d_inner (drawn_all now req i ord))).
  rewrite (dr_jobs _ _ _ _ _ Hd), bool_decide_eq_true_2, Ej by done. split; [done|].
  by apply holds_lease_true.
Qed.

(** ** Lost leases *)

(** What the sweep did to the store, given the records it reported. *)
Definition swept (now : Z) (rp : RetryPolicy) (i i' : Inner) (out : list Reclaimed) : Prop :=
  ∀ id j, jobs i !! id = Some j →
    if bool_decide (id ∈ rc_job_id <$> out) then
      expired now j = true
      ∧ let s := transition State.Running Outcome.LeaseLost (ctx_of rp j) in
        ∃ j', jobs i' !! id = Some j' ∧ in_state j' s ∧ mj_lease_id j' = ""
          ∧ e_attempt (mj_env j') = e_attempt (mj_env j)
          ∧ e_crash_attempt (mj_env j') = u32_add (e_crash_attempt (mj_env j)) 1
          ∧ (s = State.Quarantined → e_fingerprint (mj_env j) ≠ "" →
             quarantine i' !! e_fingerprint (mj_env j) = Some true)
    else jobs i' !! id = Some j.

Lemma moved_store_other id i s j' id' :
  id' ≠ id → jobs (moved_store id i s j') !! id' = jobs i !! id'.
Proof. intros Hne. unfold moved_store, upd; simpl. by rewrite lookup_insert_ne. Qed.

Lemma moved_store_quarantine id i s j' : quarantine (moved_store id i s j') = quarantine i.
Proof. unfold moved_store. destruct (is_terminal s); [apply release_unique_frame|done]. Qed.

Lemma expired_running now j : expired now j = true → mj_state j = "running".
Proof. unfold expired. intros. bool_hyps. done. Qed.

(** One reclaimed job, seen from the store the sweep started from. *)
Lemma swept_step now rp i0 i out id j :
  swept now rp i0 i out → id ∉ rc_job_id <$> out → jobs i0 !! id = Some j → expired now j = true →
  jobs i !! id = Some j ∧
  let '(i', r) := reclaim_one now rp id j i in
  rc_job_id r = id ∧ swept now rp i0 i' (out ++ [r]).
Proof.
  intros Hsw Hni Hj0 Hx. assert (jobs i !! id = Some j) as Hj.
  { specialize (Hsw id j Hj0). by rewrite bool_decide_eq_false_2 in Hsw. }
  split; [done|].
  destruct (reclaim_one_spec now rp id j i Hj) as (j' & qs & -> & Hs & Hm & Hat & Hcr & Hqs).
  split; [done|]. intros id' j1 Hj1. rewrite fmap_app. cbn [fmap list_fmap rc_job_id].
  destruct (decide (id' = id)) as [->|Hne].
  - rewrite bool_decide_eq_true_2 by set_solver. rewrite Hj0 in Hj1. injection Hj1 as <-.
    split; [done|]. exists j'. split_and!; [|done|apply Hm|done|done|].
    + unfold moved_store, upd; cbn [jobs]. apply lookup_insert_eq.
    + intros Hsq Hfp. unfold upd; cbn [quarantine]. rewrite Hqs, Hsq.
      rewrite (proj2 (String.eqb_neq _ _)) by done. apply lookup_insert_eq.
  - rewrite (bool_decide_ext (id' ∈ (rc_job_id <$> out) ++ [id]) (id' ∈ rc_job_id <$> out)) by set_solver.
    specialize (Hsw id' j1 Hj1). unfold upd; cbn [jobs quarantine].
    rewrite moved_store_other by done. case_bool_decide; [|done].
    destruct Hsw as (? & j2 & ? & ? & ? & ? & ? & Hq). split; [done|]. exists j2.
    split_and!; try done. intros Hsq Hfp. rewrite Hqs. specialize (Hq Hsq Hfp).
    destruct (_ && _); [|done].
    destruct (decide (e_fingerprint (mj_env j1) = e_fingerprint (mj_env j))) as [->|?];
      [apply lookup_insert_eq|by rewrite lookup_insert_ne].
Qed.

Lemma reclaim_loop_grows now limit rp ids i out :
  ∃ t, (reclaim_loop now limit rp ids i out).2 = out ++ t.
Proof.
  revert i out. induction ids as [|id ids IH]; intros i out; simpl; [exists []; by rewrite app_nil_r|].
  case_if; [exists []; by rewrite app_nil_r|]. destruct (jobs i !! id) as [j|]; [|auto].
  destruct (expired now j); [|auto]. destruct (reclaim_one now rp id j i) as [i1 r].
  destruct (IH i1 (out ++ [r])) as [t ->]. exists (r :: t). by rewrite <-app_assoc.
Qed.

Lemma reclaim_loop_spec now limit rp ids i0 i out :
  NoDup ids → (∀ id, id ∈ ids → is_Some (jobs i0 !! id)) →
  (∀ id, id ∈ ids → id ∉ rc_job_id <$> out) → swept now rp i0 i out →
  let '(i', out') := reclaim_loop now limit rp ids i out in
  swept now rp i0 i' out'
  ∧ (Z.of_nat (length out) ≤ Z.max 0 limit → Z.of_nat (length out') ≤ Z.max 0 limit)
  ∧ (Z.of_nat (length out') < limit → ∀ id j, id ∈ ids → jobs i0 !! id = Some j →
     expired now j = true → id ∈ rc_job_id <$> out').
Proof.
  revert i out. induction ids as [|id ids IH]; intros i out Hnd Hin Hni Hsw; simpl.
  { split_and!; [done|done|]. intros _ id j Hid. by apply elem_of_nil in Hid. }
  apply NoDup_cons in Hnd as [Hid Hnd].
  assert (∀ id', id' ∈ ids → id' ∉ rc_job_id <$> out) as Hni' by (intros; apply Hni; by right).
  assert (∀ id', id' ∈ ids → is_Some (jobs i0 !! id')) as Hin' by (intros; apply Hin; by right).
  destruct (Z.leb_spec limit (Z.of_nat (length out))); [split_and!; [done|done|intros; lia]|].
  destruct (Hin id) as [j Hj0]; [by left|].
  assert (jobs i !! id = Some j) as Hj.
  { specialize (Hsw id j Hj0). rewrite bool_decide_eq_false_2 in Hsw; [done|]. apply Hni. by left. }
  rewrite Hj. destruct (expired now j) eqn:Ex.
  - destruct (swept_step now rp i0 i out id j Hsw) as [_ Hst]; [apply Hni; by left|done|done|].
    destruct (reclaim_one now rp id j i) as [i1 r]. destruct Hst as [Hr Hsw'].
    pose proof (reclaim_loop_grows now limit rp ids i1 (out ++ [r])) as [t Ht].
    pose proof (IH i1 (out ++ [r]) Hnd Hin') as H0.
    destruct (reclaim_loop now limit rp ids i1 (out ++ [r])) as [i' out']. simpl in Ht.
    destruct H0 as (H1 & H2 & H3); [|done|].
    { intros id' Hid'. rewrite fmap_app, not_elem_of_app. csimpl. split; [auto|].
      rewrite list_elem_of_singleton, Hr. intros ->. done. }
    split_and!; [done|intros _; apply H2; rewrite length_app; simpl; lia|].
    intros Hl id' j1 [->|?]%elem_of_cons Hj1 Hx1; [|by eauto]. rewrite Ht, !fmap_app, <-Hr. set_solver.
  - pose proof (IH i out Hnd Hin' Hni' Hsw) as H0.
    destruct (reclaim_loop now limit rp ids i out) as [i' out']. destruct H0 as (H1 & H2 & H3).
    split_and!; [done|done|]. intros Hl id' j1 [->|?]%elem_of_cons Hj1 Hx1; [congruence|eauto].
Qed.

(** The reclaim sweep takes at most [limit] running jobs whose lease has expired,
    charges each a crash attempt (never an attempt), and moves it by the lease-lost row of
    the transition table; at the crash limit the job's fingerprint is quarantined.  All
    other jobs are untouched, and when the limit is not reached no expired lease is left. *)
Theorem reclaim_expired_spec now rp limit i :
  ∃ i' out, reclaim_expired now rp limit i = (i', Ok out)
    ∧ swept now rp i i' out
    ∧ Z.of_nat (length out) ≤ Z.max 0 limit
    ∧ (Z.of_nat (length out) < limit →
       ∀ id j, jobs i !! id = Some j → expired now j = true → id ∈ rc_job_id <$> out).
Proof.
  unfold reclaim_expired.
  pose proof (reclaim_loop_spec now limit rp (sort_strings (job_ids i)) i i []) as Hl.
  assert (∀ id, id ∈ sort_strings (job_ids i) ↔ is_Some (jobs i !! id)) as Hids.
  { intros id. unfold sort_strings, job_ids. rewrite merge_sort_Permutation, list_elem_of_fmap. split.
    - intros ([k v] & -> & H%elem_of_map_to_list). eauto.
    - intros [v Hv]. exists (id, v). split; [done|]. by apply elem_of_map_to_list. }
  destruct (reclaim_loop now limit rp (sort_strings (job_ids i)) i []) as [i' out].
  destruct Hl as (H1 & H2 & H3).
  - unfold sort_strings. rewrite merge_sort_Permutation. apply NoDup_fst_map_to_list.
  - intros id. apply Hids.
  - intros id _. apply not_elem_of_nil.
  - intros id j Hj. by rewrite bool_decide_eq_false_2 by apply not_elem_of_nil.
  - exists i', out. split_and!; [done|done|apply H2; simpl; lia|].
    intros Hlt id j Hj Hx. eapply H3; eauto. apply Hids. eauto.
Qed.

(** ** Enqueue *)

Lemma id_pass_replay i batch :
  (∀ e, e ∈ batch → ∃ j, jobs i !! e_id e = Some j
     ∧ same_job_content e (e_kind (mj_env j)) (e_fingerprint (mj_env j)) (e_queue (mj_env j)) = true) →
  id_pass i batch = Ok (replicate (length batch) true).
Proof.
  induction batch as [|e batch IH]; intros H; simpl; [done|].
  destruct (H e) as (j & -> & ->); [by left|]. rewrite IH; [done|]. intros. apply H. by right.
Qed.

Lemma passes_replay now i batch :
  validate_pass now i (zip batch (replicate (length batch) true)) = (i, Ok tt)
  ∧ insert_pass now i (zip batch (replicate (length batch) true)) = i.
Proof. by induction batch. Qed.

Lemma stored_same_content now e :
  same_job_content e (e_kind (stored_env now e)) (e_fingerprint (stored_env now e))
    (e_queue (stored_env now e)) = true.
Proof.
  unfold same_job_content, enqueue_queue, effective_queue, DEFAULT_QUEUE. simpl.
  by rewrite !String.eqb_refl.
Qed.

(** Enqueue is idempotent: repeating an accepted batch, at any later time, succeeds
    and leaves the store as it was. *)
Theorem enqueue_replay_is_noop now now' batch i i1 :
  enqueue now batch i = (i1, Ok tt) → enqueue now' batch i1 = (i1, Ok tt).
Proof.
  intros He. pose proof (enqueue_cases now batch i) as Hc. rewrite He in Hc.
  destruct Hc as (es & Hsub & Hnd & Hv & Hes & _ & Hold & ->). unfold enqueue. rewrite Hv.
  rewrite id_pass_replay.
  { destruct (passes_replay now' (foldl (insert_job now) i es) batch) as [-> ->]. done. }
  intros e Hin. rewrite insert_all_jobs by done.
  destruct (list_find (λ e', e_id e' = e_id e) es) as [[n e']|] eqn:Ef.
  - apply list_find_Some in Ef as (Hl & Hid & _). apply list_elem_of_lookup_2 in Hl.
    assert (e' = e) as ->.
    { apply validate_enqueue_sound in Hv as [_ Hndb].
      apply Hes in Hl as [Hl _]. apply list_elem_of_lookup in Hl as [a Ha].
      apply list_elem_of_lookup in Hin as [b Hb].
      assert (a = b) as ->; [|congruence].
      eapply NoDup_lookup; [exact Hndb|rewrite list_lookup_fmap, Ha; done|].
      by rewrite list_lookup_fmap, Hb; simpl; rewrite Hid. }
    eexists. split; [done|]. apply stored_same_content.
  - apply list_find_None in Ef. rewrite Forall_forall in Ef. apply Hold; [done|].
    intros Hine. by apply (Ef e Hine).
Qed.

Lemma replace_holder_false now e j : (replace_holder now e j).2 = false → (replace_holder now e j).1 = j.
Proof. unfold replace_holder. by repeat case_if. Qed.

Lemma duplicate_spec now i e id i' err :
  duplicate now i e id = (i', err) →
  ∃ replaced, err = StoreError.Duplicate id replaced
    ∧ (replaced = false → i' = i)
    ∧ (replaced = true → ∃ j j', jobs i !! id = Some j ∧ waiting_state (mj_state j) = true
         ∧ job_replaced j j' ∧ i' = i <| jobs := <[id := j']> (jobs i) |>).
Proof.
  unfold duplicate. intros H.
  assert ((i', err) = (i, StoreError.Duplicate id false) → ∃ replaced,
    err = StoreError.Duplicate id replaced ∧ (replaced = false → i' = i)
    ∧ (replaced = true → ∃ j j', jobs i !! id = Some j ∧ waiting_state (mj_state j) = true
         ∧ job_replaced j j' ∧ i' = i <| jobs := <[id := j']> (jobs i) |>)) as Hno.
  { intros [= -> ->]. by exists false. }
  case_if_in H; [|auto]. destruct (jobs i !! id) as [j|] eqn:Ej; [|auto].
  destruct (waiting_state (mj_state j)) eqn:Ew; [|auto].
  pose proof (replace_holder_spec now e j) as Hr. pose proof (replace_holder_false now e j) as Hf.
  destruct (replace_holder now e j) as [j' r]. simpl in *. injection H as <- <-. exists r.
  split_and!; [done| |by eauto 10]. intros Hz. rewrite Hf by done. unfold upd.
  rewrite insert_id by done. by destruct i.
Qed.

(** Enqueue is all-or-nothing.  A rejected batch leaves the store as it was, except
    that a duplicate reported as replaced has rewritten the waiting holder of the key in
    place (payload, tags, due time, priority or attempt limit; never its id, key, fence or
    attempts).  An accepted batch stores every envelope: the new ids as normalised jobs with
    no attempt history, the known ids as they were; it touches no other job, and none of its
    new envelopes carries a quarantined fingerprint or a held key. *)
Theorem enqueue_all_or_nothing now batch i :
  match enqueue now batch i with
  | (i', Err err) =>
      i' = i ∨ ∃ id j j', err = StoreError.Duplicate id true ∧ jobs i !! id = Some j
        ∧ waiting_state (mj_state j) = true ∧ job_replaced j j'
        ∧ i' = i <| jobs := <[id := j']> (jobs i) |>
  | (i', Ok _) =>
      (∀ id j, jobs i !! id = Some j → jobs i' !! id = Some j)
      ∧ (∀ e, e ∈ batch → jobs i !! e_id e = None →
           jobs i' !! e_id e = Some (new_job (stored_env now e) (initial_state now (stored_env now e)))
           ∧ (e_fingerprint e = "" ∨ quarantine i !! e_fingerprint e = None)
           ∧ ∀ k, effective_unique_key e = Some k → unique_holder now i e k = None)
      ∧ (∀ id, (∀ e, e ∈ batch → e_id e ≠ id) → jobs i' !! id = jobs i !! id)
  end.
Proof.
  pose proof (enqueue_cases now batch i) as Hc. destruct (enqueue now batch i) as [i' []].
  - destruct Hc as (es & _ & Hnd & _ & Hes & Hq & _ & ->). split_and!.
    + intros id j Hj. rewrite insert_all_jobs by done.
      destruct (list_find _ es) as [[n e0]|] eqn:Ef; [|done].
      apply list_find_Some in Ef as (Hl & <- & _). apply list_elem_of_lookup_2, Hes in Hl as [_ Hl].
      congruence.
    + intros e0 Hin Hnone. split; [|apply Hq, Hes; done]. rewrite insert_all_jobs by done.
      destruct (list_find (λ e', e_id e' = e_id e0) es) as [[n e']|] eqn:Ef.
      * apply list_find_Some in Ef as (Hl & Hid & _).
        assert (e0 ∈ es) as [b Hb]%list_elem_of_lookup by (by apply Hes).
        assert (n = b) as ->; [|by simplify_eq].
        eapply NoDup_lookup; [exact Hnd|by rewrite list_lookup_fmap, Hl|].
        by rewrite list_lookup_fmap, Hb; simpl; rewrite Hid.
      * apply list_find_None in Ef. rewrite Forall_forall in Ef. exfalso.
        apply (Ef e0); [by apply Hes|done].
    + intros id Hid. rewrite insert_all_jobs by done.
      destruct (list_find _ es) as [[n e0]|] eqn:Ef; [|done].
      apply list_find_Some in Ef as (Hl & He & _). apply list_elem_of_lookup_2, Hes in Hl as [Hl _].
      by destruct (Hid e0).
  - destruct Hc as [->|(e' & id & _ & Hd)]; [by left|]. symmetry in Hd.
    apply duplicate_spec in Hd as ([] & -> & Hf & Ht); [right|left; auto].
    destruct Ht as (j & j' & ? & ? & ? & ->); [done|]. eauto 10.
Qed.

(** ** One live job per lifecycle key *)

Definition index_complete (i : Inner) : Prop :=
  ∀ id j k, jobs i !! id = Some j → live j → indexed_by (mj_env j) k → unique i !! k = Some id.

Lemma updates_complete i i' : updates i i' → index_complete i → index_complete i'.
Proof.
  intros [Hj Hu] Hc id j' k Hj' Hl Hk. destruct (Hj _ _ Hj') as (j & Hij & [_ _ [Hk' Hw'] Hlive]).
  assert (unique i !! k = Some id) as Hix.
  { eapply Hc; eauto. destruct Hk. split; congruence. }
  destruct (Hu _ _ Hix) as [?|Hn]; [done|]. by destruct (Hn j').
Qed.

(** A lifecycle key is asked for by at most one id of a batch. *)
Definition keys_distinct (batch : list Envelope) : Prop :=
  ∀ e1 e2 k, e1 ∈ batch → e2 ∈ batch → indexed_by e1 k → indexed_by e2 k → e_id e1 = e_id e2.

Lemma insert_job_unique now i e k :
  unique (insert_job now i e) !! k =
  if bool_decide (effective_unique_key e = Some k) && negb (0 <? e_unique_window_ms e)
  then Some (e_id e) else unique i !! k.
Proof.
  destruct (stored_env_fields now e) as (Hid & _ & _ & _ & _ & _ & Hwi & Hkey).
  unfold insert_job, claim_key. cbv zeta. rewrite Hkey, Hwi, Hid.
  destruct (effective_unique_key e) as [k'|]; [|done].
  destruct (0 <? e_unique_window_ms e); unfold upd; simpl; [by rewrite andb_false_r|].
  rewrite andb_true_r. case_bool_decide as E; [injection E as ->; apply lookup_insert_eq|].
  by rewrite lookup_insert_ne by congruence.
Qed.

Lemma insert_job_complete now i e :
  inner_ok i → index_complete i → jobs i !! e_id e = None → 0 ≤ e_unique_window_ms e →
  (∀ k, indexed_by e k → unique i !! k = None) → index_complete (insert_job now i e).
Proof.
  intros Hok Hc Hfresh Hw Hfree id j k Hj Hl Hk.
  destruct (stored_env_fields now e) as (_ & _ & _ & _ & _ & _ & Hwi & Hkey).
  rewrite insert_job_unique. rewrite insert_job_jobs in Hj.
  destruct (decide (id = e_id e)) as [->|Hne].
  - rewrite lookup_insert_eq in Hj. injection Hj as <-. destruct Hk as [Hk Hz].
    change (effective_unique_key (stored_env now e) = Some k) in Hk. rewrite Hkey in Hk.
    change (e_unique_window_ms (stored_env now e) = 0) in Hz. rewrite Hwi in Hz.
    by rewrite bool_decide_eq_true_2, Hz.
  - rewrite lookup_insert_ne in Hj by done. pose proof (Hc _ _ _ Hj Hl Hk) as Hix.
    destruct (_ && _) eqn:E; [|done]. apply andb_true_iff in E as [Hke%bool_decide_eq_true Hwe].
    bool_hyps. exfalso. rewrite Hfree in Hix; [done|]. split; [done|lia].
Qed.

Lemma insert_all_complete now es i :
  inner_ok i → index_complete i → (∀ e, e ∈ es → jobs i !! e_id e = None) →
  NoDup (e_id <$> es) → Forall (λ e, 0 ≤ e_retention_ms e ∧ 0 ≤ e_unique_window_ms e) es →
  keys_distinct es → (∀ e k, e ∈ es → indexed_by e k → unique i !! k = None) →
  index_complete (foldl (insert_job now) i es).
Proof.
  revert i. induction es as [|e es IH]; intros i Hok Hc Hfr Hnd Hall Hdk Hfree; csimpl in *; [done|].
  apply NoDup_cons in Hnd as [Hni Hnd]. apply Forall_cons in Hall as [[Hr Hw] Hall].
  assert (∀ e', e' ∈ es → e_id e' ≠ e_id e) as Hne.
  { intros e' He' Heq. apply Hni, list_elem_of_fmap. eauto. }
  apply IH; [| | |done|done| |].
  - apply insert_job_ok; auto. apply Hfr. by left.
  - apply insert_job_complete; auto; [apply Hfr; by left|]. intros k. apply Hfree. by left.
  - intros e' He'. rewrite insert_job_jobs, lookup_insert_ne; [apply Hfr; by right|].
    intros Heq. by apply (Hne e').
  - intros e1 e2 k H1 H2. apply Hdk; by right.
  - intros e' k He' Hk. rewrite insert_job_unique.
    destruct (_ && _) eqn:E; [|apply (Hfree e'); [by right|done]].
    apply andb_true_iff in E as [Hke%bool_decide_eq_true Hwe]. bool_hyps. exfalso.
    apply (Hne e' He'). eapply (Hdk e' e k); [by right|by left|done|]. split; [done|lia].
Qed.

Lemma enqueue_complete now batch i :
  inner_ok i → index_complete i → keys_distinct batch → index_complete (enqueue now batch i).1.
Proof.
  intros Hok Hc Hdk. pose proof (enqueue_cases now batch i) as Hcase.
  destruct (enqueue now batch i) as [i' []].
  - destruct Hcase as (es & Hsub & Hnd & Hv & Hes & Hq & _ & ->). simpl.
    apply validate_enqueue_sound in Hv as [Hall _]. rewrite Forall_forall in Hall.
    apply insert_all_complete; try done.
    + intros e [_ He]%Hes. done.
    + apply Forall_forall. intros e [He _]%Hes. destruct (Hall e He). tauto.
    + intros e1 e2 k [H1 _]%Hes [H2 _]%Hes. by apply Hdk.
    + intros e k He [Hk Hz]. destruct (Hq e He) as [_ Hh]. specialize (Hh k Hk).
      unfold unique_holder in Hh. by rewrite Hz in Hh.
  - simpl. destruct Hcase as [->|(e' & id & _ & Hd)]; [done|].
    pose proof (duplicate_updates now i e' id) as Hu. rewrite <-Hd in Hu. by eapply updates_complete.
Qed.

Lemma admit_complete now ord req i :
  NoDup ord → index_complete i → index_complete (mem_admit now ord req i).1.
Proof.
  intros Hnd Hc. destruct (duration_is_zero (ar_lease req)) eqn:Ez.
  { unfold mem_admit. by rewrite Ez. }
  rewrite admit_unfold by done. destruct (drawn_all_drawn now req i ord Hnd) as [cs Hd].
  set (d := drawn_all now req i ord) in *. destruct Hd as [_ Hel _ Hjobs [Hun _ _ _ _] _ _].
  intros id j k Hj Hl Hk. change (unique _) with (unique (d_inner d)).
  change (jobs _) with (jobs (d_inner d)) in Hj. rewrite Hun. rewrite Hjobs in Hj.
  case_bool_decide as Hin; [|by eapply Hc].
  destruct (Hel id Hin) as (j0 & Hj0 & _ & q & _ & _ & Hcand). rewrite Hj0 in Hj. simplify_eq/=.
  apply (Hc id j0 k); [done| |done]. exists State.Available.
  split; [|done]. by eapply candidate_available.
Qed.

Definition op_keys_distinct (o : mem_op) : Prop :=
  match o with OpEnqueue batch => keys_distinct batch | _ => True end.

(** Steps of producers that never put one lifecycle key twice into a batch. *)
Definition distinct_step (i i' : Inner) : Prop :=
  ∃ now ord rp o, ord ≡ₚ job_ids i ∧ op_keys_distinct o ∧ i' = run_inner now ord rp o i.

Lemma distinct_step_complete i i' :
  distinct_step i i' → inner_ok i → index_complete i → index_complete i'.
Proof.
  intros (now & ord & rp & o & Hord & Hdk & ->) Hok Hc.
  destruct (is_enqueue o) eqn:Ee.
  { destruct o as [batch|batch| | | | | | | | | | | | | | | | |]; try done; simpl.
    - by apply enqueue_complete.
    - apply enqueue_complete; [done|done|]. intros e1 e2 k H1 _ [Hk _].
      apply list_elem_of_fmap in H1 as (e & -> & _). done. }
  destruct (is_admit o) eqn:Ea.
  { destruct o; try done. simpl. apply admit_complete; [|done]. by eapply perm_job_ids_nodup. }
  eapply updates_complete; [|done]. by apply run_inner_updates.
Qed.

(** At most one live job per lifecycle key: however the store is used, as long as no
    batch asks for the same key twice, two live jobs with the same effective unique key are
    the same job. *)
Theorem one_live_job_per_key i id1 id2 j1 j2 k :
  rtc distinct_step default_inner i →
  jobs i !! id1 = Some j1 → live j1 → indexed_by (mj_env j1) k →
  jobs i !! id2 = Some j2 → live j2 → indexed_by (mj_env j2) k → id1 = id2.
Proof.
  intros Hr. assert (inner_ok i ∧ index_complete i) as [_ Hc].
  { assert (inner_ok default_inner ∧ index_complete default_inner) as H0 by (split; [by constructor|done]).
    revert H0. induction Hr as [|i1 i2 i3 Hs _ IH]; [done|]. intros [Hok Hc]. apply IH.
    split; [|by eapply distinct_step_complete].
    destruct Hs as (now & ord & rp & o & Hord & _ & ->). by apply run_inner_ok. }
  intros Hj1 Hl1 Hk1 Hj2 Hl2 Hk2.
  pose proof (Hc _ _ _ Hj1 Hl1 Hk1). pose proof (Hc _ _ _ Hj2 Hl2 Hk2). congruence.
Qed.

(** ** Promotion and eviction *)

Lemma promote_loop_spec now limit ord i n :
  NoDup ord → 0 ≤ n → n + Z.of_nat (length ord) ≤ u64_max →
  let '(i', n') := promote_loop now limit ord i n in
  n ≤ n' ∧ (n ≤ Z.max 0 limit → n' ≤ Z.max 0 limit)
  ∧ (∀ id, id ∉ ord → jobs i' !! id = jobs i !! id)
  ∧ ∀ id j, jobs i !! id = Some j →
      (jobs i' !! id = Some j ∧ (n' < limit → id ∈ ord → due now j = false))
      ∨ (due now j = true ∧ jobs i' !! id = Some (j <| mj_state := "available" |>)).
Proof.
  revert i n. induction ord as [|a ord IH]; intros i n Hnd Hn Hsz; simpl.
  { split_and!; [lia|done|done|]. intros id j Hj. left. split; [done|]. intros _ H.
    by apply elem_of_nil in H. }
  apply NoDup_cons in Hnd as [Ha Hnd]. simpl in Hsz.
  destruct (Z.leb_spec limit n); [split_and!; [lia|done|done|intros; left; split; [done|lia]]|].
  assert ((due now <$> jobs i !! a ≠ Some true) →
    let '(i', n') := promote_loop now limit ord i n in
    n ≤ n' ∧ (n ≤ Z.max 0 limit → n' ≤ Z.max 0 limit)
    ∧ (∀ id, id ∉ a :: ord → jobs i' !! id = jobs i !! id)
    ∧ ∀ id j, jobs i !! id = Some j →
        (jobs i' !! id = Some j ∧ (n' < limit → id ∈ a :: ord → due now j = false))
        ∨ (due now j = true ∧ jobs i' !! id = Some (j <| mj_state := "available" |>))) as Hskip.
  { intros Hna. specialize (IH i n Hnd Hn ltac:(lia)).
    destruct (promote_loop now limit ord i n) as [i' n']. destruct IH as (H1 & H2 & H3 & H4).
    split_and!; [done|done|intros id Hid; apply H3; set_solver|]. intros id j Hj.
    destruct (H4 id j Hj) as [[? Hd]|?]; [left|by right]. split; [done|].
    intros Hl [->|?]%elem_of_cons; [|auto]. rewrite Hj in Hna. simpl in Hna.
    destruct (due now j); congruence. }
  destruct (jobs i !! a) as [ja|] eqn:Ea; [|by apply Hskip].
  destruct (due now ja) eqn:Ed; [|apply Hskip; simpl; congruence]. clear Hskip.
  assert (u64_add n 1 = n + 1) as Hn1 by (apply wrap_u64_id; unfold in_u64; lia). rewrite Hn1.
  set (i1 := i <| jobs := _ |>).
  specialize (IH i1 (n + 1) Hnd ltac:(lia) ltac:(lia)).
  destruct (promote_loop now limit ord i1 (n + 1)) as [i' n']. destruct IH as (H1 & H2 & H3 & H4).
  split_and!; [lia|intros; apply H2; lia| |].
  - intros id Hid. rewrite H3 by set_solver. unfold i1, upd; simpl.
    rewrite lookup_insert_ne; [done|]. set_solver.
  - intros id j Hj. destruct (decide (id = a)) as [->|Hne].
    + right. rewrite Ea in Hj. injection Hj as <-. split; [done|]. rewrite H3 by done.
      unfold i1, upd; simpl. apply lookup_insert_eq.
    + destruct (H4 id j) as [[? Hd]|?]; [unfold i1, upd; simpl; by rewrite lookup_insert_ne| |by right].
      left. split; [done|]. intros Hl [?|?]%elem_of_cons; [done|auto].
Qed.

(** Promotion makes available only jobs that are scheduled or retryable and due (the
    due and backoff rows of the lifecycle table), at most [limit] of them; every other job
    is untouched, and when the limit is not reached nothing due is left waiting. *)
Theorem promote_due_spec now ord limit i :
  ord ≡ₚ job_ids i → Z.of_nat (length ord) < u64_max →
  ∃ i' n, promote_due now ord limit i = (i', Ok n)
    ∧ n ≤ Z.max 0 limit
    ∧ ∀ id j, jobs i !! id = Some j →
        (jobs i' !! id = Some j ∧ (n < limit → due now j = false))
        ∨ (∃ s ev, in_state j s ∧ lifecycle_transition s ev = Some State.Available
            ∧ (ev = LifecycleEvent.ScheduleDue ∨ ev = LifecycleEvent.BackoffDue)
            ∧ e_scheduled_at_ms (mj_env j) ≤ now
            ∧ jobs i' !! id = Some (j <| mj_state := "available" |>)).
Proof.
  intros Hord Hsz. unfold promote_due.
  pose proof (promote_loop_spec now limit ord i 0 ltac:(by eapply perm_job_ids_nodup) ltac:(lia)
    ltac:(lia)) as H. destruct (promote_loop now limit ord i 0) as [i' n].
  destruct H as (_ & H2 & _ & H4). exists i', n. split_and!; [done|apply H2; lia|].
  intros id j Hj. destruct (H4 id j Hj) as [[? Hd]|[Hd Hj']]; [left|right].
  - split; [done|]. intros Hl. apply Hd; [done|]. rewrite Hord. unfold job_ids.
    apply list_elem_of_fmap. exists (id, j). split; [done|]. by apply elem_of_map_to_list.
  - apply due_spec in Hd as [[Hs|Hs] Ht];
      [exists State.Scheduled, LifecycleEvent.ScheduleDue|exists State.Retryable, LifecycleEvent.BackoffDue];
      split_and!; auto.
Qed.

(** Eviction deletes only finished jobs whose positive retention has lapsed, never a
    live or quarantined one, and at most [limit] of them; every other job stays as it is. *)
Theorem evict_retained_spec now ord limit i :
  ord ≡ₚ job_ids i →
  ∃ i' n, evict_retained now ord limit i = (i', Ok n)
    ∧ n ≤ Z.max 0 limit
    ∧ ∀ id j, jobs i !! id = Some j →
        jobs i' !! id = Some j ∧ (n < limit → lapsed now j = false)
        ∨ jobs i' !! id = None ∧ lapsed now j = true
          ∧ (live j → False) ∧ ¬ in_state j State.Quarantined.
Proof.
  intros Hord. unfold evict_retained. eexists _, _. split; [done|].
  unfold lapsed_ids. set (p := λ id, from_option (lapsed now) false (jobs i !! id) = true).
  set (all := filter p ord). rewrite length_take. split; [lia|].
  assert (∀ ids i1 id, jobs (foldl (λ i id, remove_job id i) i1 ids) !! id
    = if bool_decide (id ∈ ids) then None else jobs i1 !! id) as Hdel.
  { clear. induction ids as [|a ids IH]; intros i1 id; simpl; [done|]. rewrite IH.
    unfold remove_job, upd; simpl. destruct (decide (id = a)) as [->|Hne].
    - rewrite lookup_delete_eq. rewrite (bool_decide_eq_true_2 (a ∈ a :: ids)) by by left.
      by case_bool_decide.
    - rewrite lookup_delete_ne by done. rewrite (bool_decide_ext (id ∈ a :: ids) (id ∈ ids)); [done|].
      rewrite elem_of_cons. tauto. }
  intros id j Hj. rewrite Hdel. case_bool_decide as Hin.
  - right. assert (lapsed now j = true) as Hl.
    { apply elem_of_take in Hin as (n & Hn & _).
      apply list_elem_of_lookup_2, list_elem_of_filter in Hn as [Hn _]. unfold p in Hn. by rewrite Hj in Hn. }
    split_and!; [done|done|by apply lapsed_not_live with now|].
    intros Hq. unfold in_state in Hq. unfold lapsed in Hl. by rewrite Hq in Hl.
  - left. split; [done|]. intros Hlt. destruct (lapsed now j) eqn:El; [|done]. exfalso. apply Hin.
    rewrite take_ge by lia. apply list_elem_of_filter. unfold p. rewrite Hj. split; [done|].
    rewrite Hord. unfold job_ids. apply list_elem_of_fmap. exists (id, j).
    split; [done|]. by apply elem_of_map_to_list.
Qed.

(** ** Duties *)

Lemma enqueue_duties now batch i : duties (enqueue now batch i).1 = duties i.
Proof.
  pose proof (enqueue_cases now batch i) as Hc. destruct (enqueue now batch i) as [i' []]; simpl.
  - destruct Hc as (es & _ & _ & _ & _ & _ & _ & ->). clear. revert i.
    induction es as [|e0 es IH]; intros i; simpl; [done|]. rewrite IH.
    unfold insert_job, claim_key. by repeat case_match.
  - destruct Hc as [->|(e' & id & _ & Hd)]; [done|]. unfold duplicate in Hd.
    repeat case_match; by simplify_eq.
Qed.

Lemma admit_duties now ord req i : NoDup ord → duties (mem_admit now ord req i).1 = duties i.
Proof.
  intros Hnd. destruct (duration_is_zero (ar_lease req)) eqn:Ez; [unfold mem_admit; by rewrite Ez|].
  rewrite admit_unfold by done. destruct (drawn_all_drawn now req i ord Hnd) as [cs Hd].
  exact (fr_duties _ _ (dr_frame _ _ _ _ _ Hd)).
Qed.

Lemma alter_job_duties f id i : duties (alter_job f id i) = duties i.
Proof. done. Qed.

Lemma release_unique_duties id i : duties (release_unique id i) = duties i.
Proof. apply release_unique_frame. Qed.

Lemma reconcile_duties now aw id i : duties (reconcile_weight now aw id i) = duties i.
Proof. unfold reconcile_weight. by repeat case_match. Qed.

Lemma ack_success_duties now f id i : duties (ack_success now f id i) = duties i.
Proof.
  unfold ack_success, remove_job. repeat case_match; simpl; by rewrite ?alter_job_duties, release_unique_duties.
Qed.

Lemma apply_outcome_duties now rp o err d log id i :
  duties (apply_outcome now rp o err d log id i).1 = duties i.
Proof.
  destruct o; simpl; rewrite ?ack_success_duties, ?release_unique_duties; try done.
  - repeat case_match; simpl; rewrite ?release_unique_duties; done.
  - by destruct (_ <=? 0).
Qed.

Lemma reclaim_loop_duties now limit rp ids i out :
  duties (reclaim_loop now limit rp ids i out).1 = duties i.
Proof.
  revert i out. induction ids as [|id ids IH]; intros i out; simpl; [done|].
  case_if; [done|]. destruct (jobs i !! id) as [j|] eqn:Ej; [|done].
  destruct (expired now j); [|done].
  destruct (reclaim_one_spec now rp id j i Ej) as (j' & qs & -> & _). rewrite IH.
  unfold moved_store, upd; simpl. destruct (is_terminal _); [apply release_unique_duties|done].
Qed.

Lemma renew_loop_duties ex ls i lost : duties (renew_loop ex ls i lost).1 = duties i.
Proof.
  revert i lost. induction ls as [|l ls IH]; intros i lost; simpl; [done|].
  repeat case_match; rewrite IH; done.
Qed.

Lemma promote_loop_duties now limit ord i n : duties (promote_loop now limit ord i n).1 = duties i.
Proof.
  revert i n. induction ord as [|a ord IH]; intros i n; simpl; [done|].
  repeat case_match; rewrite ?IH; done.
Qed.

Lemma evict_duties now ord limit i : duties (evict_retained now ord limit i).1 = duties i.
Proof.
  unfold evict_retained. cbn [fst]. generalize (lapsed_ids now ord limit i) as ids. intros ids.
  revert i. induction ids as [|a ids IH]; intros i; [done|]. cbn [foldl]. by rewrite IH.
Qed.

(** Operations that are not the holder's own claim or release of the duty. *)
Definition not_holders_own (name h : string) (o : mem_op) : Prop :=
  match o with
  | OpClaimDuty n h' _ | OpReleaseDuty n h' => ~ (n = name ∧ h' = h)
  | _ => True
  end.

(** Duty leases are exclusive: while a duty is held and its lease has not expired, no
    operation other than the holder's own claim or release changes the duty, and every other
    holder's claim is refused. *)
Theorem duty_lease_is_exclusive now ord rp o i name h expires :
  ord ≡ₚ job_ids i → duties i !! name = Some (h, expires) → now < expires →
  not_holders_own name h o →
  duties (run_inner now ord rp o i) !! name = Some (h, expires)
  ∧ ∀ h' lease, h' ≠ h → duration_is_zero lease = false →
      (claim_duty now name h' lease i).2 = Ok false.
Proof.
  intros Hord Hd Hlt Hno. split.
  2:{ intros h' lease Hne Hz. unfold claim_duty. rewrite Hz, Hd.
      rewrite (proj2 (Z.ltb_lt _ _)), (proj2 (String.eqb_neq h h')) by congruence. done. }
  rewrite <-Hd. destruct o as [batch|batch| | | | | | | | |n h' lease|n h'| | | | | | |]; simpl; try done.
  - by rewrite enqueue_duties.
  - unfold enqueue_without_uniqueness. by rewrite enqueue_duties.
  - by rewrite admit_duties by (by eapply perm_job_ids_nodup).
  - unfold ack_attempt_with_actual_weight. case_match; [|done].
    by rewrite apply_outcome_duties, reconcile_duties.
  - unfold ack_success_with_result. repeat (case_if; [done|]). case_match; [|done]. simpl.
    by rewrite ack_success_duties, reconcile_duties.
  - unfold renew. case_if; [done|]. pose proof (renew_loop_duties
      (i64_add now (wrap_i64 (as_millis lease))) leases i []) as H.
    destruct (renew_loop _ leases i []). simpl in *. by rewrite H.
  - unfold checkpoint. by case_match.
  - unfold reclaim_expired. pose proof (reclaim_loop_duties now limit rp (sort_strings (job_ids i)) i []) as H.
    destruct (reclaim_loop _ _ _ _ _ _). simpl in *. by rewrite H.
  - unfold promote_due. pose proof (promote_loop_duties now limit ord i 0) as H.
    destruct (promote_loop _ _ _ _ _). simpl in *. by rewrite H.
  - pose proof (evict_duties now ord limit i) as H. simpl in H. by rewrite H.
  - unfold claim_duty. case_if; [done|]. destruct (decide (n = name)) as [->|Hne].
    + rewrite Hd, (proj2 (Z.ltb_lt _ _)) by done. simpl.
      destruct (String.eqb_spec h h') as [->|]; simpl; [|exact Hd]. exfalso. by apply Hno.
    + case_if; [done|]. unfold upd; simpl. by rewrite lookup_insert_ne.
  - unfold release_duty. destruct (decide (n = name)) as [->|Hne].
    + rewrite Hd. destruct (String.eqb_spec h h') as [->|]; simpl; [|exact Hd]. exfalso. by apply Hno.
    + destruct (duties i !! n) as [[h0 e0]|]; [|done]. case_if; [|done]. unfold upd; simpl.
      by rewrite lookup_delete_ne.
  - unfold write_job_output. repeat (case_if; [done|]). by case_match.
  - unfold write_job_progress. by repeat case_match.
Qed.

(** ** Witnesses: one admitted job, settled, then swept *)

Definition demo_policy : RetryPolicy := mkRetryPolicy 1000 3600000 3.
Definition demo_admitted : Inner := (mem_admit 10 (job_ids demo_store) demo_request demo_store).1.
Definition demo_lease : LeaseRef := mkLeaseRef "a2" "lease-1" 1.
Definition demo_acked : Inner :=
  (ack_attempt_with_actual_weight 20 demo_policy demo_lease Outcome.Retry (Some "boom") None [] None
     demo_admitted).1.

Lemma set_rate_limit_ok now n l w b i : inner_ok i → inner_ok (set_rate_limit now n l w b i).
Proof. done. Qed.

Lemma demo_store_ok : inner_ok demo_store.
Proof. apply set_rate_limit_ok, enqueue_ok, mem_new_ok. Qed.

Lemma demo_admitted_ok : inner_ok demo_admitted.
Proof. apply admit_ok; [by eapply perm_job_ids_nodup|apply demo_store_ok]. Qed.

Lemma demo_ack_accepted :
  ack_attempt_with_actual_weight 20 demo_policy demo_lease Outcome.Retry (Some "boom") None [] None
    demo_admitted = (demo_acked, Ok tt).
Proof.
  assert (is_ok (ack_attempt_with_actual_weight 20 demo_policy demo_lease Outcome.Retry (Some "boom")
    None [] None demo_admitted).2 = true) as H by (by vm_compute).
  unfold demo_acked. destruct (ack_attempt_with_actual_weight _ _ _ _ _ _ _ _ _) as [i r].
  by destruct r as [[]|].
Qed.

Definition demo_later : Inner :=
  run_inner 5000 (job_ids demo_acked) demo_policy (OpPromoteDue 10) demo_acked.

Lemma demo_keeps : rtc (keeps_job "a2") demo_acked demo_later.
Proof.
  apply rtc_once. exists 5000, (job_ids demo_acked), demo_policy, (OpPromoteDue 10).
  split_and!; [reflexivity|reflexivity|apply (bool_decide_unpack _); by vm_compute|].
  intros j Hj. assert (mj_fence <$> jobs demo_acked !! "a2" = Some 1) as H by (by vm_compute).
  rewrite Hj in H. injection H as ->. unfold u64_max. lia.
Qed.

Lemma settled_lease_stays_rejected_witness :
  (ack_attempt_with_actual_weight 6000 demo_policy demo_lease Outcome.Success None None [] None
     demo_later).2 = Err (StoreError.LeaseRejected "a2").
Proof.
  destruct (settled_lease_stays_rejected 20 demo_policy demo_lease Outcome.Retry (Some "boom") None []
    None demo_admitted demo_acked demo_later demo_admitted_ok demo_ack_accepted
    ltac:(apply (bool_decide_unpack _); by vm_compute) demo_keeps) as [H _].
  by rewrite H.
Defined.

Lemma ack_follows_transition_table_witness :
  ∃ j, jobs demo_admitted !! "a2" = Some j ∧ holds_lease j demo_lease = true
    ∧ ∃ j', jobs demo_acked !! "a2" = Some j' ∧ mj_state j' = "retryable".
Proof.
  destruct (ack_follows_transition_table 20 demo_policy demo_lease Outcome.Retry (Some "boom") None []
    None demo_admitted demo_acked demo_admitted_ok demo_ack_accepted) as (j & Hj & Hh & _).
  exists j. split; [done|]. split; [done|]. eexists. split; by vm_compute.
Defined.

Lemma admitted_claims_are_honoured_witness :
  ∃ units c, (mem_admit 10 (job_ids demo_store) demo_request demo_store).2 = Ok units
    ∧ [c] ∈ units ∧ identity demo_admitted (lease_ref c) = Ok tt.
Proof.
  destruct (mem_admit 10 (job_ids demo_store) demo_request demo_store) as [i' r] eqn:E.
  assert (r = (mem_admit 10 (job_ids demo_store) demo_request demo_store).2) as Hr by (by rewrite E).
  vm_compute in Hr. subst r. eexists _, _. split; [done|]. split; [left|].
  assert (demo_admitted = i') as -> by (unfold demo_admitted; by rewrite E).
  eapply (admitted_claims_are_honoured 10 (job_ids demo_store) demo_request demo_store);
    [apply demo_store_ok|done|exact E|left].
Defined.

Lemma enqueue_replay_is_noop_witness :
  ∃ i1, enqueue 10 [demo_env "a1" "a" 0] default_inner = (i1, Ok tt)
    ∧ enqueue 99 [demo_env "a1" "a" 0] i1 = (i1, Ok tt).
Proof.
  destruct (enqueue 10 [demo_env "a1" "a" 0] default_inner) as [i1 r] eqn:E.
  assert (r = Ok tt) as ->.
  { change r with (i1, r).2. rewrite <-E. by vm_compute. }
  exists i1. split; [done|]. by apply (enqueue_replay_is_noop 10 99 _ default_inner i1).
Defined.

Definition keyed (id : string) : Envelope := (demo_env id "a" 0) <| e_unique_key := Some "k" |>.

Definition demo_keyed : Inner :=
  run_inner 10 [] demo_policy (OpEnqueue [keyed "a1"]) default_inner.

Lemma demo_distinct : rtc distinct_step default_inner demo_keyed.
Proof.
  apply rtc_once. exists 10, [], demo_policy, (OpEnqueue [keyed "a1"]). split; [by vm_compute|].
  split; [|reflexivity]. intros e1 e2 k H1 H2 _ _.
  apply list_elem_of_singleton in H1, H2. by subst.
Qed.

Lemma one_live_job_per_key_witness :
  (∃ j, jobs demo_keyed !! "a1" = Some j ∧ live j) ∧
  ∀ id j, jobs demo_keyed !! id = Some j → live j → indexed_by (mj_env j) demo_key → id = "a1".
Proof.
  assert (∃ j, jobs demo_keyed !! "a1" = Some j ∧ live j ∧ indexed_by (mj_env j) demo_key)
    as (j & Hj & Hl & Hk).
  { eexists. split; [by vm_compute|]. split; [by exists State.Available|done]. }
  split; [by exists j|]. intros id j' Hj' Hl' Hk'.
  apply (one_live_job_per_key demo_keyed id "a1" j' j demo_key demo_distinct Hj' Hl' Hk' Hj Hl Hk).
Defined.

Lemma promote_due_spec_witness :
  ∃ i' n, promote_due 5000 (job_ids demo_acked) 10 demo_acked = (i', Ok n) ∧ n ≤ 10.
Proof.
  destruct (promote_due_spec 5000 (job_ids demo_acked) 10 demo_acked) as (i' & n & H & Hn & _);
    [done|by vm_compute|]. exists i', n. split; [done|lia].
Defined.

Lemma evict_retained_spec_witness :
  ∃ i' n, evict_retained 5000 (job_ids demo_acked) 10 demo_acked = (i', Ok n) ∧ n ≤ 10.
Proof.
  destruct (evict_retained_spec 5000 (job_ids demo_acked) 10 demo_acked) as (i' & n & H & Hn & _);
    [done|]. exists i', n. split; [done|lia].
Defined.

Definition demo_duty : Inner := (claim_duty 100 "reaper" "w1" 1000000000 default_inner).1.

Lemma duty_lease_is_exclusive_witness :
  duties (run_inner 200 [] demo_policy (OpReleaseDuty "reaper" "w2") demo_duty) !! "reaper"
  = Some ("w1", 1100).
Proof.
  apply (duty_lease_is_exclusive 200 [] demo_policy (OpReleaseDuty "reaper" "w2") demo_duty "reaper" "w1" 1100);
    [by vm_compute|by vm_compute|lia|]. by intros [_ ?].
Defined.

(** Two envelopes of one batch with the same lifecycle key are both stored, so that two
    live jobs share the key; the index keeps the second. *)
Lemma in_batch_duplicate_keys_both_stored :
  let r := enqueue 10 [keyed "a1"; keyed "a2"] default_inner in
  r.2 = Ok tt
  ∧ (mj_state <$> jobs r.1 !! "a1" = Some "available")
  ∧ (mj_state <$> jobs r.1 !! "a2" = Some "available")
  ∧ effective_unique_key (keyed "a1") = effective_unique_key (keyed "a2")
  ∧ unique r.1 !! demo_key = Some "a2".
Proof. by vm_compute. Qed.

(** A snooze without a delay is refused, but the token reconciliation that precedes the
    check has already been applied. *)
Lemma refused_snooze_still_reconciles :
  let r := ack_attempt_with_actual_weight 20 demo_policy demo_lease Outcome.Snooze None None []
             (Some 0) demo_admitted in
  is_ok r.2 = false
  ∧ rb_tokens <$> rate demo_admitted !! "smtp" = Some 1
  ∧ rb_tokens <$> rate r.1 !! "smtp" = Some 3
  ∧ mj_rate_charge <$> jobs r.1 !! "a2" = Some 0.
Proof. by vm_compute. Qed.
