(* ===== verification/Graph.v ===== *)
(** * The dependency-graph check of headgate-workflow

    [crates/headgate-workflow/src/lib.rs] decides acyclicity in four places (bundles,
    grafts, drafts, coordinators) with the same loop: count in-degrees, queue the nodes
    without dependencies in [HashMap] order, and count how many nodes the queue visits.
    This file models that loop once and proves that it accepts exactly the acyclic graphs,
    whatever the iteration order. *)

From S2P Require Import Prelude.
Local Open Scope Z_scope.

Abbreviation Indegree := (gmap string Z) (only parsing).
Abbreviation Outgoing := (gmap string (list string)) (only parsing).

(** [nodes.iter().map(|n| (n.name, 0)).collect()]. *)
Definition init_indegree (names : list string) : Indegree :=
  list_to_map ((λ n, (n, 0)) <$> names).

(** [*indegree.get_mut(node) += 1; outgoing.entry(dep).or_default().push(node)]. *)
Definition add_edge (g : Indegree * Outgoing) (e : string * string) : Indegree * Outgoing :=
  (alter (λ d, d + 1) e.2 g.1, <[e.1 := default [] (g.2 !! e.1) ++ [e.2]]> g.2).

(** [*degree -= 1; if *degree == 0 { ready.push_back(child) }]. *)
Definition relax_child (st : list string * Indegree) (child : string) : list string * Indegree :=
  match st.2 !! child with
  | Some degree =>
      let degree := degree - 1 in
      (if degree =? 0 then st.1 ++ [child] else st.1, <[child := degree]> st.2)
  | None => st
  end.

(** [while let Some(name) = ready.pop_front()]; every node is popped at most once. *)
Fixpoint kahn (fuel : nat) (ready : list string) (indegree : Indegree) (outgoing : Outgoing)
    (visited : Z) : Z :=
  match fuel, ready with
  | S fuel, name :: ready =>
      let '(ready, indegree) :=
        foldl relax_child (ready, indegree) (default [] (outgoing !! name)) in
      kahn fuel ready indegree outgoing (visited + 1)
  | _, _ => visited
  end.

Definition initial_ready (ord : list string) (indegree : Indegree) : list string :=
  filter (λ n, indegree !! n = Some 0) ord.

(** [visited == nodes.len()]. *)
Definition all_visited (ord : list string) (count : nat) (g : Indegree * Outgoing) : bool :=
  kahn count (initial_ready ord g.1) g.1 g.2 0 =? Z.of_nat count.

(** ** Correctness *)

(** [dep] must finish before [node]. *)
Definition depends (E : list (string * string)) (dep node : string) : Prop := (dep, node) ∈ E.
Definition acyclic (E : list (string * string)) : Prop := ∀ n, ¬ tc (depends E) n n.

Definition graph_of (names : list string) (E : list (string * string)) : Indegree * Outgoing :=
  foldl add_edge (init_indegree names, ∅) E.

Definition occ (n : string) (l : list string) : Z := Z.of_nat (length (filter (λ x, x = n) l)).

Lemma occ_cons n x l : occ n (x :: l) = (if decide (x = n) then 1 else 0) + occ n l.
Proof. unfold occ. rewrite filter_cons. case_decide; simpl; lia. Qed.

Lemma occ_nonneg n l : 0 ≤ occ n l.
Proof. unfold occ. lia. Qed.

Lemma occ_pos n l : 0 < occ n l ↔ n ∈ l.
Proof.
  induction l as [|x l IH]; [split; [done|by intros ?%elem_of_nil]|].
  rewrite occ_cons, elem_of_cons, <-IH. pose proof (occ_nonneg n l). case_decide; [subst|].
  - split; [by left|lia].
  - split; [right; lia|]. intros [?|?]; [congruence|lia].
Qed.

(** The in-degree of [n] once the nodes [V] are done. *)
Definition pending_deps (E : list (string * string)) (V : list string) (n : string) : Z :=
  Z.of_nat (length (filter (λ e, e.2 = n ∧ e.1 ∉ V) E)).

Definition succs (E : list (string * string)) (d : string) : list string :=
  (filter (λ e, e.1 = d) E).*2.

Lemma graph_of_spec (names : list string) E g0 :
  (∀ e, e ∈ E → e.2 ∈ names) → (∀ n, n ∈ names → is_Some (g0.1 !! n)) →
  let g := foldl add_edge g0 E in
  (∀ n, n ∈ names → g.1 !! n = (λ d, d + pending_deps E [] n) <$> g0.1 !! n)
  ∧ ∀ d, default [] (g.2 !! d) = default [] (g0.2 !! d) ++ succs E d.
Proof.
  revert g0. induction E as [|[d n] E IH]; intros g0 Hn H0; simpl.
  { split.
    - intros n Hn'. destruct (H0 n Hn') as [z ->]. simpl. f_equal. unfold pending_deps. simpl. lia.
    - intros d. by rewrite app_nil_r. }
  destruct (IH (add_edge g0 (d, n))) as [H1 H2].
  - intros e He. apply Hn. by right.
  - intros m Hm. unfold add_edge; simpl. destruct (decide (n = m)) as [->|?].
    + rewrite lookup_alter_eq, fmap_is_Some. auto.
    + rewrite lookup_alter_ne by done. auto.
  - split.
    + intros m Hm. rewrite H1 by done. destruct (H0 m Hm) as [z Hz]. unfold pending_deps, add_edge.
      rewrite filter_cons. simpl. destruct (decide (n = m)) as [->|?].
      * rewrite lookup_alter_eq, Hz, decide_True by (split; [done|apply not_elem_of_nil]). simpl. f_equal. lia.
      * rewrite lookup_alter_ne, Hz, decide_False by tauto. done.
    + intros d'. rewrite H2. unfold succs, add_edge. rewrite filter_cons. simpl. case_decide as Ed.
      * subst. rewrite lookup_insert_eq. simpl. by rewrite <-app_assoc.
      * by rewrite lookup_insert_ne.
Qed.

Lemma relax_children l R D :
  (∀ n, n ∈ l → is_Some (D !! n)) → (∀ n z, n ∈ l → D !! n = Some z → occ n l ≤ z) →
  ∃ P D', foldl relax_child (R, D) l = (R ++ P, D') ∧ NoDup P
    ∧ (∀ n, D' !! n = (λ z, z - occ n l) <$> D !! n)
    ∧ (∀ n, n ∈ P ↔ n ∈ l ∧ D !! n = Some (occ n l)).
Proof.
  revert R D. induction l as [|c l IH]; intros R D Hin Hle; simpl.
  { exists [], D. rewrite app_nil_r. split_and!; [done|constructor| |].
    - intros n. unfold occ; simpl. destruct (D !! n); simpl; [|done]. f_equal. lia.
    - intros n. rewrite elem_of_nil. tauto. }
  destruct (Hin c) as [z Hz]; [by left|]. unfold relax_child at 2; simpl. rewrite Hz.
  set (D1 := <[c := z - 1]> D).
  assert (∀ n, D1 !! n = (λ z, z - (if decide (c = n) then 1 else 0)) <$> D !! n) as HD1.
  { intros n. unfold D1. destruct (decide (c = n)) as [->|?].
    - by rewrite lookup_insert_eq, Hz.
    - rewrite lookup_insert_ne by done. destruct (D !! n); simpl; [|done]. f_equal. lia. }
  destruct (IH (if z - 1 =? 0 then R ++ [c] else R) D1) as (P & D' & Hf & HP & HD' & HPin).
  { intros n Hn. rewrite HD1, fmap_is_Some. apply Hin. by right. }
  { intros n y Hn. rewrite HD1. destruct (D !! n) as [y0|] eqn:E; [|done]. intros [= <-].
    specialize (Hle n y0 ltac:(by right) E). rewrite occ_cons in Hle. lia. }
  assert (∀ n, D' !! n = (λ z, z - occ n (c :: l)) <$> D !! n) as HDfin.
  { intros n. rewrite HD', HD1. destruct (D !! n); simpl; [|done]. f_equal. rewrite occ_cons. lia. }
  pose proof (Hle c z ltac:(by left) Hz) as Hc. rewrite occ_cons, decide_True in Hc by done.
  pose proof (occ_nonneg c l) as Hc0.
  assert (∀ n, n ∈ P ↔ n ∈ l ∧ D !! n = Some (occ n (c :: l))) as HPin'.
  { intros n. rewrite HPin, HD1, occ_cons. split; intros [Hl HDn]; (split; [done|]);
      destruct (D !! n); simplify_eq/=; f_equal; lia. }
  destruct (Z.eqb_spec (z - 1) 0) as [Ez|Ez].
  - exists (c :: P), D'. rewrite Hf, <-app_assoc. split_and!; [done| |done|].
    + apply NoDup_cons. split; [|done]. rewrite HPin'. intros [Hl _]. apply occ_pos in Hl. lia.
    + intros n. rewrite elem_of_cons, HPin', elem_of_cons. split; [|tauto].
      intros [->|?]; [|tauto]. split; [by left|]. rewrite Hz. f_equal. rewrite occ_cons, decide_True by done. lia.
  - exists P, D'. rewrite Hf. split_and!; [done|done|done|]. intros n. rewrite HPin', elem_of_cons.
    split; [tauto|]. intros [[->|?] Hn]; [|done]. split; [|done]. apply occ_pos.
    rewrite Hz in Hn. injection Hn as Hn. rewrite occ_cons, decide_True in Hn by done. lia.
Qed.

Lemma tc_flip {A} (R : relation A) x y : tc (flip R) x y → tc R y x.
Proof. induction 1 as [x y H|x y z H _ IH]; [by apply tc_once|]. by eapply tc_r. Qed.

Lemma acc_no_cycle {A} (R : relation A) x : Acc R x → ¬ tc R x x.
Proof.
  induction 1 as [x _ IH]. intros Ht.
  assert (∃ y, rtc R x y ∧ R y x) as (y & Hxy & Hyx).
  { apply (tc_ind_r (R := R) (λ z, ∃ y, rtc R x y ∧ R y z) x); [| |done].
    - intros y Hy. exists x. split; [constructor|done].
    - intros y z Hy Hyz _. exists y. split; [by apply tc_rtc|done]. }
  apply (IH y Hyx). eapply tc_rtc_r; [by apply tc_once|done].
Qed.

Section kahn.
Context (names : list string) (E : list (string * string)).
Context (Hnodup : NoDup names).
Context (HE : ∀ e, e ∈ E → e.1 ∈ names ∧ e.2 ∈ names).

Record visiting (V R : list string) (D : Indegree) : Prop := {
  vi_nodup : NoDup (V ++ R);
  vi_sub n : n ∈ V ++ R → n ∈ names;
  vi_degree n : n ∈ names → D !! n = Some (pending_deps E V n);
  vi_ready n : n ∈ names → n ∈ V ++ R ↔ pending_deps E V n = 0;
  vi_acc n : n ∈ V ++ R → Acc (depends E) n;
}.

Lemma pending_deps_zero V n :
  pending_deps E V n = 0 ↔ ∀ d, depends E d n → d ∈ V.
Proof.
  unfold pending_deps, depends. split.
  - intros H d Hd. destruct (decide (d ∈ V)) as [|Hn]; [done|].
    destruct (filter (λ e, e.2 = n ∧ e.1 ∉ V) E) as [|x l] eqn:Ef; [|simpl in H; lia].
    assert ((d, n) ∈ filter (λ e, e.2 = n ∧ e.1 ∉ V) E) as Hin by (by apply list_elem_of_filter).
    rewrite Ef in Hin. by apply elem_of_nil in Hin.
  - intros H. destruct (filter (λ e, e.2 = n ∧ e.1 ∉ V) E) as [|[d n'] l] eqn:Ef; [done|].
    assert ((d, n') ∈ filter (λ e, e.2 = n ∧ e.1 ∉ V) E) as Hin by (rewrite Ef; by left).
    apply list_elem_of_filter in Hin as [[Hx Hnv] Hin]. simpl in *. subst n'.
    by destruct (Hnv (H d Hin)).
Qed.

Lemma pending_deps_snoc V x n :
  x ∉ V → pending_deps E (V ++ [x]) n = pending_deps E V n - occ n (succs E x).
Proof.
  intros Hx. clear HE. unfold pending_deps, occ, succs. induction E as [|[d m] E' IH]; [done|].
  rewrite !filter_cons. simpl.
  destruct (decide (m = n)) as [->|Hm], (decide (d = x)) as [->|Hd].
  - rewrite decide_False by set_solver. rewrite decide_True by done.
    csimpl. rewrite filter_cons, decide_True by done. simpl. lia.
  - destruct (decide (d ∈ V)).
    + rewrite !decide_False by set_solver. done.
    + rewrite !decide_True by set_solver. simpl. lia.
  - rewrite !decide_False by tauto. csimpl. rewrite filter_cons, decide_False by done. done.
  - rewrite !decide_False by tauto. done.
Qed.

Lemma occ_le_pending V x n : x ∉ V → occ n (succs E x) ≤ pending_deps E V n.
Proof. intros Hx. pose proof (pending_deps_snoc V x n Hx). unfold pending_deps in *. lia. Qed.

Lemma elem_of_succs x n : n ∈ succs E x ↔ depends E x n.
Proof.
  unfold succs, depends. rewrite list_elem_of_fmap. split.
  - intros ([d m] & -> & [<- ?]%list_elem_of_filter). done.
  - intros H. exists (x, n). split; [done|]. by apply list_elem_of_filter.
Qed.

(** One pop. *)
Lemma visit_step V x R D (O : Outgoing) :
  visiting V (x :: R) D → (∀ d, default [] (O !! d) = succs E d) →
  ∃ P D', foldl relax_child (R, D) (default [] (O !! x)) = (R ++ P, D')
    ∧ visiting (V ++ [x]) (R ++ P) D'.
Proof.
  intros Hv HO. rewrite HO. destruct Hv as [Hnd Hsub Hdeg Hready Hacc].
  assert (x ∉ V) as Hx by (apply NoDup_app in Hnd as (_ & Hd & _); intros ?; apply (Hd x); [done|by left]).
  assert (∀ n, n ∈ succs E x → n ∈ names) as Hs by (intros n Hn%elem_of_succs; by apply (HE (x, n))).
  destruct (relax_children (succs E x) R D) as (P & D' & -> & HP & HD' & HPin).
  { intros n Hn%Hs. rewrite Hdeg by done. eauto. }
  { intros n z Hn%Hs Hz. rewrite Hdeg in Hz by done. injection Hz as <-. by apply occ_le_pending. }
  exists P, D'. split; [done|].
  assert (∀ n, n ∈ P ↔ n ∈ succs E x ∧ pending_deps E V n = occ n (succs E x)) as HPin'.
  { intros n. rewrite HPin. split; intros [Hn Heq]; (split; [done|]); rewrite Hdeg in * by auto;
      congruence. }
  assert (∀ n, n ∈ names → n ∈ (V ++ [x]) ++ R ++ P ↔ pending_deps E (V ++ [x]) n = 0) as Hready'.
  { intros n Hn. rewrite pending_deps_snoc by done. pose proof (Hready n Hn) as Hr.
    pose proof (occ_pos n (succs E x)) as Ho. pose proof (occ_nonneg n (succs E x)) as Ho0.
    pose proof (occ_le_pending V x n Hx) as Hle.
    assert (n ∈ (V ++ [x]) ++ R ++ P ↔ n ∈ V ++ x :: R ∨ n ∈ P) as -> by set_solver.
    rewrite Hr, HPin'. split.
    - intros [Hz|[_ Hz]]; lia.
    - intros Hz. destruct (decide (n ∈ succs E x)) as [Hs'|Hs'].
      + right. split; [done|lia].
      + left. assert (occ n (succs E x) = 0) by (destruct (Z.eq_dec (occ n (succs E x)) 0); [done|];
          exfalso; apply Hs', Ho; lia). lia. }
  constructor.
  - rewrite <-app_assoc. change ([x] ++ R ++ P) with ((x :: R) ++ P). rewrite app_assoc.
    apply NoDup_app. split_and!; [done| |done]. intros n Hn [Hns Heq]%HPin'.
    apply (Hready n) in Hn; [|auto]. apply occ_pos in Hns. lia.
  - intros n. rewrite !elem_of_app. intros [[?|Hn]|[?|Hn]].
    + apply Hsub. set_solver.
    + apply Hsub. set_solver.
    + apply Hsub. set_solver.
    + apply HPin' in Hn as [Hn _]. auto.
  - intros n Hn. rewrite HD', Hdeg by done. simpl. by rewrite pending_deps_snoc.
  - done.
  - intros n Hn. assert (n ∈ names) as Hnn.
    { rewrite !elem_of_app in Hn. destruct Hn as [[?|?]|[?|Hn]];
        [apply Hsub; set_solver..|apply HPin' in Hn as [Hn _]; auto]. }
    apply Hready' in Hn; [|done]. rewrite pending_deps_zero in Hn. constructor.
    intros d Hd%Hn. apply Hacc. set_solver.
Qed.

Lemma kahn_spec fuel V R D (O : Outgoing) :
  visiting V R D → (∀ d, default [] (O !! d) = succs E d) →
  (length names ≤ length V + fuel)%nat →
  ∃ V' D', visiting V' [] D'
    ∧ kahn fuel R D O (Z.of_nat (length V)) = Z.of_nat (length V').
Proof.
  revert V R D. induction fuel as [|fuel IH]; intros V R D Hv HO Hf.
  - assert (R = []) as ->.
    { destruct R as [|x R]; [done|]. exfalso. destruct Hv as [Hnd Hsub _ _ _].
      assert (length (V ++ x :: R) ≤ length names)%nat; [|rewrite length_app in *; simpl in *; lia].
      apply submseteq_length, NoDup_submseteq; [done|auto]. }
    by exists V, D.
  - destruct R as [|x R]; [by exists V, D|]. simpl.
    destruct (visit_step V x R D O Hv HO) as (P & D' & -> & Hv').
    replace (Z.of_nat (length V) + 1) with (Z.of_nat (length (V ++ [x])))
      by (rewrite length_app; simpl; lia).
    apply IH; [done|done|]. rewrite length_app. simpl. lia.
Qed.

Lemma init_indegree_zero n : n ∈ names → init_indegree names !! n = Some 0.
Proof.
  intros Hn. unfold init_indegree. apply elem_of_list_to_map_1.
  - rewrite <-list_fmap_compose. simpl. by rewrite list_fmap_id.
  - apply list_elem_of_fmap. by exists n.
Qed.

Lemma visiting_init ord :
  ord ≡ₚ names → visiting [] (initial_ready ord (graph_of names E).1) (graph_of names E).1.
Proof.
  intros Hord. pose proof init_indegree_zero as H0.
  destruct (graph_of_spec names E (init_indegree names, ∅)) as [Hd _].
  { intros e He. by apply HE. } { intros n Hn. simpl. rewrite H0 by done. eauto. }
  assert (∀ n, n ∈ names → (graph_of names E).1 !! n = Some (pending_deps E [] n)) as Hdeg.
  { intros n Hn. unfold graph_of. rewrite Hd by done. simpl. by rewrite H0. }
  assert (∀ n, n ∈ names → n ∈ initial_ready ord (graph_of names E).1 ↔ pending_deps E [] n = 0) as Hr.
  { intros n Hn. unfold initial_ready. rewrite list_elem_of_filter, Hord, Hdeg by done.
    split; [intros [[= ->] _]; done|intros ->; done]. }
  assert (∀ n, n ∈ initial_ready ord (graph_of names E).1 → n ∈ names) as Hs.
  { intros n. unfold initial_ready. rewrite list_elem_of_filter, Hord. tauto. }
  constructor; simpl.
  - unfold initial_ready. apply NoDup_filter. by rewrite Hord.
  - done.
  - done.
  - done.
  - intros n Hn. pose proof (Hs n Hn) as Hnn. apply Hr in Hn; [|done].
    constructor. intros d Hd'. rewrite pending_deps_zero in Hn. by apply Hn, elem_of_nil in Hd'.
Qed.

Lemma tc_names a b : tc (depends E) a b → a ∈ names ∧ b ∈ names.
Proof.
  induction 1 as [a b H|a b c H _ [_ ?]]; [by apply (HE (a, b))|]. split; [|done].
  by apply (HE (a, b)).
Qed.

(** A finite acyclic dependency relation is well-founded. *)
Lemma acyclic_acc n : acyclic E → Acc (depends E) n.
Proof.
  intros Hac. apply (tc_finite_sn (R := flip (depends E))).
  - intros m Hm%tc_flip. by apply (Hac m).
  - exists names. intros m Hm%tc_flip. by apply tc_names in Hm as [? _].
Qed.

Lemma all_visited_acyclic ord :
  ord ≡ₚ names → all_visited ord (length names) (graph_of names E) = true ↔ acyclic E.
Proof.
  intros Hord. unfold all_visited.
  destruct (kahn_spec (length names) [] (initial_ready ord (graph_of names E).1)
    (graph_of names E).1 (graph_of names E).2 (visiting_init ord Hord)) as (V & D & Hv & Hk).
  { destruct (graph_of_spec names E (init_indegree names, ∅)) as [_ Ho].
    - intros e He. by apply HE.
    - intros n Hn. simpl. rewrite init_indegree_zero by done. eauto.
    - intros d. unfold graph_of. rewrite Ho. simpl. by rewrite lookup_empty. }
  { simpl. lia. }
  change (Z.of_nat (length [])) with 0 in Hk. rewrite Hk, Z.eqb_eq. destruct Hv as [Hnd Hsub _ Hready Hacc].
  rewrite app_nil_r in *. split.
  - intros Hl n Ht. assert (names ≡ₚ V) as HP.
    { symmetry. apply submseteq_length_Permutation; [|lia]. apply NoDup_submseteq; [done|auto]. }
    apply tc_names in Ht as Hn. destruct Hn as [Hn _].
    assert (Acc (depends E) n) as Ha by (apply Hacc; by rewrite <-HP).
    by apply (acc_no_cycle (depends E) n).
  - intros Hac. assert (∀ n, n ∈ names → n ∈ V) as Hall.
    { intros n Hn. pose proof (acyclic_acc n Hac) as Ha. revert Hn. induction Ha as [n _ IH]. intros Hn. apply Hready; [done|].
      apply pending_deps_zero. intros d Hd. apply IH; [done|]. by apply (HE (d, n)). }
    assert (names ≡ₚ V) as ->; [|done]. apply NoDup_Permutation; [done|done|].
    intros n. split; auto.
Qed.
End kahn.
