(* ===== verification/Workflow.v ===== *)
(** * headgate-workflow: building and validating workflows

    Models the builder side of [crates/headgate-workflow/src/lib.rs]: draft nodes, the
    three graph validators ([validate_graph], [validate_graft_nodes],
    [validate_coordinator]), [Workflow::prepare], [WorkflowGraft::prepare] and
    [prepare_bundle], together with [prepare_envelope] of [crates/headgate/src/lib.rs].
    The CEL compiler, the JSON encoder of payloads and SHA-256 are third-party code and
    enter as parameters.  [HashMap] iteration orders are explicit arguments. *)

From S2P Require Import Prelude Shared Envelope Graph.
Local Open Scope Z_scope.

Definition DEFAULT_RETENTION_MS : Z := 7 * 24 * 60 * 60 * 1000.
Definition MAX_WORKFLOW_NODES : Z := MAX_ENQUEUE_BATCH_SIZE - 1.
Definition MAX_WORKFLOW_EDGES : Z := 10000.
Definition MAX_WORKFLOW_EVENTS : nat := 256.

(** ** Data *)

Module DraftNodeKind.
Inductive DraftNodeKind :=
  | Task (envelope : Envelope)
  | Signal (signal : string)
  | TimerAt (wake_at_ms : Z)
  | TimerAfter (delay_ms : Z)
  | ChildWorkflow (workflow_id : string)
  | Condition (expression : string).
End DraftNodeKind.

Record DraftNode := mkDraftNode {
  dn_name : string;
  dn_kind : DraftNodeKind.DraftNodeKind;
  dn_deps : list string;
}.

Record WorkflowRetryPolicy := mkRetryGenerations { max_generations : Z; backoff_ms : Z }.

Record Workflow := mkWorkflow {
  wf_id : string;
  wf_nodes : list DraftNode;
  wf_queue : string;
  wf_retention_ms : Z;
  wf_failed_subgraph_retry : bool;
  wf_retry_policy : option WorkflowRetryPolicy;
}.

#[export] Instance workflow_eta : Eta Workflow := λ w,
  mkWorkflow (wf_id w) (wf_nodes w) (wf_queue w) (wf_retention_ms w)
    (wf_failed_subgraph_retry w) (wf_retry_policy w).

Record WorkflowGraft := mkWorkflowGraft {
  gr_workflow_id : string;
  gr_expected_revision : Z;
  gr_nodes : list DraftNode;
  gr_queue : string;
  gr_retention_ms : Z;
}.

#[export] Instance workflow_graft_eta : Eta WorkflowGraft := λ g,
  mkWorkflowGraft (gr_workflow_id g) (gr_expected_revision g) (gr_nodes g) (gr_queue g)
    (gr_retention_ms g).

Module NodeType.
Inductive NodeType := Task | Signal | Timer | ChildWorkflow | Condition.
End NodeType.

#[export] Instance node_type_eq_dec : EqDecision NodeType.NodeType.
Proof. solve_decision. Defined.

Record NodeSpec := mkNodeSpec {
  n_name : string;
  n_job_id : string;
  n_deps : list string;
  n_kind : NodeType.NodeType;
  n_signal : option string;
  n_wake_at_ms : option Z;
  n_delay_ms : option Z;
  n_child_workflow_id : option string;
  n_condition : option string;
}.

Record CoordinatorTask := mkCoordinatorTask {
  ct_workflow_id : string;
  ct_nodes : list NodeSpec;
  ct_failed_subgraph_retry : bool;
  ct_retry_policy : option WorkflowRetryPolicy;
}.

(** The typed payloads of the crate's task kinds. *)
Inductive WorkflowTask :=
  | CoordinatorPayload (t : CoordinatorTask)
  | SignalPayload (workflow_id signal : string)
  | TimerPayload (workflow_id : string) (wake_at_ms delay_ms : option Z)
  | ChildPayload (parent_workflow_id child_workflow_id : string)
  | ConditionPayload (workflow_id expression : string)
  | GraftPayload (workflow_id : string) (expected_revision : Z) (nodes : list NodeSpec)
  | RetryPayload (workflow_id : string) (expected_revision : Z).

(** [Task::TYPE]; [Task::VERSION] is 1 for all of them. *)
Definition task_type (t : WorkflowTask) : string :=
  match t with
  | CoordinatorPayload _ => "headgate:workflow"
  | SignalPayload _ _ => "headgate:workflow-signal"
  | TimerPayload _ _ _ => "headgate:workflow-timer"
  | ChildPayload _ _ => "headgate:workflow-child"
  | ConditionPayload _ _ => "headgate:workflow-condition"
  | GraftPayload _ _ _ => "headgate:workflow-graft"
  | RetryPayload _ _ => "headgate:workflow-retry"
  end.

Definition graft_receipt_id (workflow_id : string) (revision : Z) : string :=
  (workflow_id +:+ ":graft:" +:+ pretty revision)%stdpp.
Definition retry_receipt_id (workflow_id : string) (revision : Z) : string :=
  (workflow_id +:+ ":retry:" +:+ pretty revision)%stdpp.

(** ** Builders *)

Definition workflow_new (id : string) : Workflow :=
  mkWorkflow id [] "headgate-workflow" DEFAULT_RETENTION_MS false None.

Definition workflow_retention (d : duration) (w : Workflow) : result Workflow string :=
  let ms := as_millis d in
  if i64_max <? ms then Err "workflow retention is too large"
  else if ms <=? 0 then Err "workflow retention must be at least 1ms"
  else Ok (w <| wf_retention_ms := ms |>).

Definition failed_subgraph_retry (w : Workflow) : Workflow := w <| wf_failed_subgraph_retry := true |>.

Definition automatic_retry (max_gen : Z) (backoff : duration) (w : Workflow)
    : result Workflow string :=
  let ms := as_millis backoff in
  if i64_max <? ms then Err "workflow retry backoff is too large"
  else if (max_gen <? 2) || (ms <=? 0)
  then Err "automatic workflow retry requires at least 2 generations and 1ms backoff"
  else Ok (w <| wf_failed_subgraph_retry := true |>
             <| wf_retry_policy := Some (mkRetryGenerations max_gen ms) |>).

Definition add_node (name : string) (kind : DraftNodeKind.DraftNodeKind) (deps : list string)
    (w : Workflow) : Workflow :=
  w <| wf_nodes := wf_nodes w ++ [mkDraftNode name kind deps] |>.

Definition coordinator_queue (queue : string) (w : Workflow) : Workflow := w <| wf_queue := queue |>.
Definition add (name : string) (e : Envelope) : list string → Workflow → Workflow :=
  add_node name (DraftNodeKind.Task e).
Definition add_signal (name signal : string) : list string → Workflow → Workflow :=
  add_node name (DraftNodeKind.Signal signal).
Definition add_timer_at (name : string) (wake_at_ms : Z) : list string → Workflow → Workflow :=
  add_node name (DraftNodeKind.TimerAt wake_at_ms).
Definition add_child (name workflow_id : string) : list string → Workflow → Workflow :=
  add_node name (DraftNodeKind.ChildWorkflow workflow_id).
Definition add_condition (name expression : string) : list string → Workflow → Workflow :=
  add_node name (DraftNodeKind.Condition expression).

Definition add_timer_after (name : string) (delay : duration) (deps : list string) (w : Workflow)
    : result Workflow string :=
  let ms := as_millis delay in
  if i64_max <? ms then Err "workflow timer delay is too large"
  else if ms <=? 0 then Err "workflow timer delay must be at least 1ms"
  else Ok (add_node name (DraftNodeKind.TimerAfter ms) deps w).

Definition graft_new (workflow_id : string) (expected_revision : Z) : WorkflowGraft :=
  mkWorkflowGraft workflow_id expected_revision [] "headgate-workflow" DEFAULT_RETENTION_MS.

Definition graft_queue (queue : string) (g : WorkflowGraft) : WorkflowGraft := g <| gr_queue := queue |>.

Definition graft_retention (d : duration) (g : WorkflowGraft) : result WorkflowGraft string :=
  let ms := as_millis d in
  if i64_max <? ms then Err "workflow graft retention is too large"
  else if ms <=? 0 then Err "workflow graft retention must be at least 1ms"
  else Ok (g <| gr_retention_ms := ms |>).

Definition graft_add (name : string) (e : Envelope) (deps : list string) (g : WorkflowGraft)
    : WorkflowGraft :=
  g <| gr_nodes := gr_nodes g ++ [mkDraftNode name (DraftNodeKind.Task e) deps] |>.

(** The workflows the public builder can produce. *)
Inductive built : Workflow → Prop :=
  | built_new id : built (workflow_new id)
  | built_queue queue w : built w → built (coordinator_queue queue w)
  | built_retention d w w' : built w → workflow_retention d w = Ok w' → built w'
  | built_failed_subgraph_retry w : built w → built (failed_subgraph_retry w)
  | built_automatic_retry m d w w' : built w → automatic_retry m d w = Ok w' → built w'
  | built_add name e deps w : built w → built (add name e deps w)
  | built_add_signal name signal deps w : built w → built (add_signal name signal deps w)
  | built_add_timer_at name t deps w : built w → built (add_timer_at name t deps w)
  | built_add_timer_after name d deps w w' :
      built w → add_timer_after name d deps w = Ok w' → built w'
  | built_add_child name id deps w : built w → built (add_child name id deps w)
  | built_add_condition name c deps w : built w → built (add_condition name c deps w).

Definition err_if {A} (b : bool) (m : string) (k : result A string) : result A string :=
  if b then Err m else k.
Notation "'fail_if' b 'with' m 'in' k" := (err_if b m k)
  (at level 10, b at level 200, m at level 200, k at level 200) : rust_scope.

Definition is_empty {A} (l : list A) : bool := match l with [] => true | _ => false end.
Definition none_or_empty (o : option string) : bool :=
  match o with None => true | Some s => String.eqb s "" end.
Definition contains (l : list string) (x : string) : bool := bool_decide (x ∈ l).

Abbreviation Graph := (gmap string Z * gmap string (list string))%type (only parsing).

Section workflow.
(** [cel::Program::compile(e).is_ok()], the payload encoder and the digest. *)
Context (cel_compiles : string → bool).
Context (encode : WorkflowTask → result bytes string).
Context (sha256 : bytes → bytes).

(** ** Graph validation *)

Definition validate_condition (expression : string) : result unit string :=
  fail_if String.eqb expression "" || (1024 <? str_len expression)
    with "workflow CEL condition must contain 1-1024 bytes" in
  fail_if negb (cel_compiles expression) with "invalid workflow CEL condition" in
  Ok tt.

(** The dependency loop of one draft node. *)
Fixpoint draft_deps (names : list string) (name : string) (unique deps : list string)
    (g : Graph) : result Graph string :=
  match deps with
  | [] => Ok g
  | dep :: deps =>
      fail_if negb (contains names dep)
        with ("task `" +:+ name +:+ "` depends on missing task `" +:+ dep +:+ "`")%stdpp in
      fail_if contains unique dep
        with ("task `" +:+ name +:+ "` repeats dependency `" +:+ dep +:+ "`")%stdpp in
      draft_deps names name (dep :: unique) deps (add_edge g (dep, name))
  end.

Definition check_draft_kind (node : DraftNode) : result unit string :=
  let name := dn_name node in
  match dn_kind node with
  | DraftNodeKind.Task _ => Ok tt
  | DraftNodeKind.Signal signal =>
      fail_if String.eqb signal ""
        with ("workflow signal node `" +:+ name +:+ "` has an empty signal")%stdpp in Ok tt
  | DraftNodeKind.TimerAt wake_at_ms =>
      fail_if wake_at_ms <=? 0
        with ("workflow timer node `" +:+ name
              +:+ "` must have a positive absolute wake time")%stdpp in Ok tt
  | DraftNodeKind.TimerAfter _ =>
      fail_if is_empty (dn_deps node)
        with ("relative workflow timer `" +:+ name
              +:+ "` requires at least one dependency")%stdpp in Ok tt
  | DraftNodeKind.ChildWorkflow workflow_id =>
      fail_if String.eqb workflow_id ""
        with ("workflow child node `" +:+ name +:+ "` has an empty workflow id")%stdpp in Ok tt
  | DraftNodeKind.Condition expression => validate_condition expression
  end.

Fixpoint draft_nodes (names : list string) (nodes : list DraftNode) (g : Graph) (edges : Z)
    : result (Graph * Z) string :=
  match nodes with
  | [] => Ok (g, edges)
  | node :: nodes =>
      fail_if 128 <? str_len (dn_name node)
        with ("workflow task name `" +:+ dn_name node +:+ "` exceeds 128 bytes")%stdpp in
      let? _ := check_draft_kind node in
      let edges := u64_saturating_add edges (Z.of_nat (length (dn_deps node))) in
      let? g := draft_deps names (dn_name node) [] (dn_deps node) g in
      draft_nodes names nodes g edges
  end.

Definition validate_graph (ord : list string) (nodes : list DraftNode) : result unit string :=
  fail_if MAX_WORKFLOW_NODES <? Z.of_nat (length nodes)
    with "workflow must contain at most 999 tasks" in
  let names := dn_name <$> nodes in
  fail_if negb (length (remove_dups names) =? length nodes)%nat || contains names ""
    with "workflow task names must be non-empty and unique" in
  let? ge := draft_nodes names nodes (init_indegree names, ∅) 0 in
  fail_if MAX_WORKFLOW_EDGES <? ge.2
    with "workflow must contain at most 10000 dependency edges" in
  fail_if negb (all_visited ord (length nodes) ge.1)
    with "workflow dependency graph contains a cycle" in
  Ok tt.

(** Grafts: dependencies outside the graft are allowed and checked on acceptance. *)
Fixpoint graft_deps (names : list string) (name : string) (unique deps : list string)
    (g : Graph) (edges : Z) : result (Graph * Z) string :=
  match deps with
  | [] => Ok (g, edges)
  | dep :: deps =>
      let edges := u64_saturating_add edges 1 in
      fail_if contains unique dep
        with ("workflow graft task `" +:+ name +:+ "` repeats dependency `" +:+ dep +:+ "`")%stdpp in
      fail_if String.eqb dep name
        with ("workflow graft task `" +:+ name +:+ "` depends on itself")%stdpp in
      graft_deps names name (dep :: unique) deps
        (if contains names dep then add_edge g (dep, name) else g) edges
  end.

Fixpoint graft_edges (names : list string) (nodes : list NodeSpec) (g : Graph) (edges : Z)
    : result (Graph * Z) string :=
  match nodes with
  | [] => Ok (g, edges)
  | node :: nodes =>
      let? ge := graft_deps names (n_name node) [] (n_deps node) g edges in
      graft_edges names nodes ge.1 ge.2
  end.

Definition validate_graft_nodes (ord : list string) (nodes : list NodeSpec) : result unit string :=
  let names := n_name <$> nodes in
  let? ge := graft_edges names nodes (init_indegree names, ∅) 0 in
  fail_if MAX_WORKFLOW_EDGES <? ge.2
    with "workflow graft must contain at most 10000 dependency edges" in
  fail_if negb (all_visited ord (length nodes) ge.1)
    with "workflow graft dependency graph contains a cycle" in
  Ok tt.

(** The validity of one stored node, apart from its name being new. *)
Definition invalid_spec (node : NodeSpec) : bool :=
  let kind := n_kind node in
  String.eqb (n_name node) "" || (128 <? str_len (n_name node))
  || String.eqb (n_job_id node) "" || (MAX_JOB_IDENTIFIER_LEN <? str_len (n_job_id node))
  || (bool_decide (kind = NodeType.Signal) && none_or_empty (n_signal node))
  || (bool_decide (kind = NodeType.Timer)
      && match n_wake_at_ms node, n_delay_ms node with
         | Some at_ms, None => at_ms <=? 0
         | None, Some delay => (delay <=? 0) || is_empty (n_deps node)
         | _, _ => true
         end)
  || (negb (bool_decide (kind = NodeType.Signal)) && bool_decide (is_Some (n_signal node)))
  || (negb (bool_decide (kind = NodeType.Timer))
      && (bool_decide (is_Some (n_wake_at_ms node)) || bool_decide (is_Some (n_delay_ms node))))
  || (bool_decide (kind = NodeType.ChildWorkflow) && none_or_empty (n_child_workflow_id node))
  || (negb (bool_decide (kind = NodeType.ChildWorkflow))
      && bool_decide (is_Some (n_child_workflow_id node)))
  || (bool_decide (kind = NodeType.Condition)
      && match n_condition node with
         | None => true | Some c => negb (is_ok (validate_condition c)) end)
  || (negb (bool_decide (kind = NodeType.Condition)) && bool_decide (is_Some (n_condition node))).

Fixpoint spec_nodes (names : list string) (nodes : list NodeSpec) (edges : Z)
    : result (list string * Z) string :=
  match nodes with
  | [] => Ok (names, edges)
  | node :: nodes =>
      fail_if invalid_spec node || contains names (n_name node)
        with "workflow coordinator contains an invalid task" in
      spec_nodes (n_name node :: names) nodes
        (u64_saturating_add edges (Z.of_nat (length (n_deps node))))
  end.

Fixpoint spec_deps (names : list string) (name : string) (unique deps : list string)
    (g : Graph) : result Graph string :=
  match deps with
  | [] => Ok g
  | dep :: deps =>
      fail_if negb (contains names dep)
        with "workflow coordinator contains a missing dependency" in
      fail_if contains unique dep with "workflow coordinator repeats a dependency" in
      spec_deps names name (dep :: unique) deps (add_edge g (dep, name))
  end.

Fixpoint spec_edges (names : list string) (nodes : list NodeSpec) (g : Graph)
    : result Graph string :=
  match nodes with
  | [] => Ok g
  | node :: nodes =>
      let? g := spec_deps names (n_name node) [] (n_deps node) g in
      spec_edges names nodes g
  end.

Definition bad_retry_policy (w : CoordinatorTask) : bool :=
  match ct_retry_policy w with
  | Some p => (max_generations p <? 2) || (backoff_ms p <=? 0) || negb (ct_failed_subgraph_retry w)
  | None => false
  end.

Definition validate_coordinator (ord : list string) (w : CoordinatorTask) : result unit string :=
  let nodes := ct_nodes w in
  fail_if String.eqb (ct_workflow_id w) "" with "workflow coordinator id must not be empty" in
  fail_if is_empty nodes || (MAX_WORKFLOW_NODES <? Z.of_nat (length nodes))
    with "workflow coordinator must contain 1-999 tasks" in
  fail_if bad_retry_policy w with "workflow coordinator contains an invalid retry policy" in
  let? ne := spec_nodes [] nodes 0 in
  fail_if MAX_WORKFLOW_EDGES <? ne.2
    with "workflow coordinator must contain at most 10000 dependency edges" in
  let? g := spec_edges ne.1 nodes (init_indegree (n_name <$> nodes), ∅) in
  fail_if negb (all_visited ord (length nodes) g)
    with "workflow coordinator dependency graph contains a cycle" in
  Ok tt.

(** ** Preparing a batch *)

(** [headgate::prepare_envelope]. *)
Definition prepare_envelope (env : Envelope) : result Envelope string :=
  let? _ := validate_kind (e_kind env) in
  let env := if String.eqb (e_fingerprint env) ""
             then env <| e_fingerprint := fingerprint sha256 (e_kind env) (e_payload env) |>
             else env in
  let env := env <| e_weight := effective_weight (e_weight env) |> in
  fail_if e_unique_window_ms env <? 0 with "unique_window_ms must be >= 0" in
  Ok env.

(** The envelope of a task of this crate before it is prepared. *)
Definition task_envelope (t : WorkflowTask) (queue : string) : result Envelope string :=
  let? payload := encode t in
  Ok (default_envelope <| e_kind := task_type t |> <| e_schema_version := 1 |>
        <| e_fingerprint := fingerprint sha256 (task_type t) payload |>
        <| e_payload := payload |> <| e_queue := queue |>).

(** The envelope and node type of a draft node, as [prepare] matches on its kind. *)
Definition draft_spec (w : Workflow) (node : DraftNode) : result (Envelope * NodeSpec) string :=
  let spec kind signal wake delay child cond :=
    mkNodeSpec (dn_name node) "" (dn_deps node) kind signal wake delay child cond in
  match dn_kind node with
  | DraftNodeKind.Task e => Ok (e, spec NodeType.Task None None None None None)
  | DraftNodeKind.Signal signal =>
      let? e := task_envelope (SignalPayload (wf_id w) signal) (wf_queue w) in
      Ok (e, spec NodeType.Signal (Some signal) None None None None)
  | DraftNodeKind.TimerAt wake_at_ms =>
      let? e := task_envelope (TimerPayload (wf_id w) (Some wake_at_ms) None) (wf_queue w) in
      Ok (e <| e_scheduled_at_ms := wake_at_ms |>,
          spec NodeType.Timer None (Some wake_at_ms) None None None)
  | DraftNodeKind.TimerAfter delay_ms =>
      let? e := task_envelope (TimerPayload (wf_id w) None (Some delay_ms)) (wf_queue w) in
      Ok (e, spec NodeType.Timer None None (Some delay_ms) None None)
  | DraftNodeKind.ChildWorkflow workflow_id =>
      fail_if String.eqb workflow_id (wf_id w) with "workflow cannot contain itself as a child" in
      let? e := task_envelope (ChildPayload (wf_id w) workflow_id) (wf_queue w) in
      Ok (e, spec NodeType.ChildWorkflow None None None (Some workflow_id) None)
  | DraftNodeKind.Condition expression =>
      let? e := task_envelope (ConditionPayload (wf_id w) expression) (wf_queue w) in
      Ok (e, spec NodeType.Condition None None None None (Some expression))
  end.

Definition set_job_id (n : NodeSpec) (job_id : string) : NodeSpec :=
  mkNodeSpec (n_name n) job_id (n_deps n) (n_kind n) (n_signal n) (n_wake_at_ms n)
    (n_delay_ms n) (n_child_workflow_id n) (n_condition n).

Definition prepare_node (w : Workflow) (node : DraftNode) : result (NodeSpec * Envelope) string :=
  let? es := draft_spec w node in
  let e := es.1 in let spec := es.2 in
  let e := if String.eqb (e_id e) ""
           then e <| e_id := (wf_id w +:+ ":" +:+ dn_name node)%stdpp |> else e in
  let e := if e_retention_ms e <? wf_retention_ms w
           then e <| e_retention_ms := wf_retention_ms w |> else e in
  let e := if bool_decide (n_kind spec = NodeType.Timer) && bool_decide (is_Some (n_wake_at_ms spec))
           then e <| e_pending := false |>
           else e <| e_pending := true |> <| e_scheduled_at_ms := 0 |> in
  let? e := prepare_envelope e in
  Ok (set_job_id spec (e_id e), e).

Fixpoint prepare_nodes (w : Workflow) (nodes : list DraftNode)
    : result (list (NodeSpec * Envelope)) string :=
  match nodes with
  | [] => Ok []
  | node :: nodes =>
      let? se := prepare_node w node in
      let? rest := prepare_nodes w nodes in
      Ok (se :: rest)
  end.

(** [Workflow::prepare]: the coordinator first, then the children. *)
Definition workflow_prepare (ord : list string) (w : Workflow) : result (list Envelope) string :=
  fail_if String.eqb (wf_id w) "" with "workflow id must not be empty" in
  fail_if is_empty (wf_nodes w) with "workflow must contain at least one task" in
  let? _ := validate_graph ord (wf_nodes w) in
  let? ses := prepare_nodes w (wf_nodes w) in
  let task := mkCoordinatorTask (wf_id w) (ses.*1) (wf_failed_subgraph_retry w)
                (wf_retry_policy w) in
  let? e := task_envelope (CoordinatorPayload task) (wf_queue w) in
  let? coordinator := prepare_envelope
    (e <| e_id := (wf_id w +:+ ":coordinator")%stdpp |> <| e_retention_ms := wf_retention_ms w |>) in
  Ok (coordinator :: ses.*2).

(** ** Grafts *)

(** One iteration of [WorkflowGraft::prepare]'s loop over its nodes. *)
Definition graft_node (g : WorkflowGraft) (next_revision : Z) (names : list string)
    (node : DraftNode) : result (NodeSpec * Envelope) string :=
  fail_if String.eqb (dn_name node) "" || (128 <? str_len (dn_name node))
          || contains names (dn_name node)
    with "workflow graft task names must be non-empty and unique" in
  match dn_kind node with
  | DraftNodeKind.Task e =>
      let e := if String.eqb (e_id e) ""
               then e <| e_id := (gr_workflow_id g +:+ ":g" +:+ pretty next_revision +:+ ":"
                                  +:+ dn_name node)%stdpp |> else e in
      let e := e <| e_pending := true |> <| e_scheduled_at_ms := 0 |> in
      let e := if e_retention_ms e <? gr_retention_ms g
               then e <| e_retention_ms := gr_retention_ms g |> else e in
      let? e := prepare_envelope e in
      Ok (mkNodeSpec (dn_name node) (e_id e) (dn_deps node) NodeType.Task None None None None None, e)
  | _ => Err "workflow graft currently accepts ordinary tasks only"
  end.

Fixpoint graft_nodes (g : WorkflowGraft) (next_revision : Z) (names : list string)
    (nodes : list DraftNode) : result (list (NodeSpec * Envelope)) string :=
  match nodes with
  | [] => Ok []
  | node :: nodes =>
      let? se := graft_node g next_revision names node in
      let? rest := graft_nodes g next_revision (dn_name node :: names) nodes in
      Ok (se :: rest)
  end.

(** [WorkflowGraft::prepare]: the pending receipt first, then the grafted tasks. *)
Definition graft_prepare (ord : list string) (g : WorkflowGraft) : result (list Envelope) string :=
  fail_if String.eqb (gr_workflow_id g) "" with "workflow id must not be empty" in
  fail_if gr_expected_revision g =? 0
    with "workflow graft expected revision must be at least 1" in
  fail_if is_empty (gr_nodes g) || (MAX_WORKFLOW_NODES <? Z.of_nat (length (gr_nodes g)))
    with "workflow graft must contain 1-999 tasks" in
  match u64_checked_add (gr_expected_revision g) 1 with
  | None => Err "workflow graft revision would overflow"
  | Some next_revision =>
      let? ses := graft_nodes g next_revision [] (gr_nodes g) in
      let? _ := validate_graft_nodes ord (ses.*1) in
      let? e := task_envelope
        (GraftPayload (gr_workflow_id g) (gr_expected_revision g) (ses.*1)) (gr_queue g) in
      let? receipt := prepare_envelope
        (e <| e_id := graft_receipt_id (gr_workflow_id g) next_revision |>
           <| e_pending := true |> <| e_retention_ms := gr_retention_ms g |>) in
      Ok (receipt :: ses.*2)
  end.

(** ** Bundles *)

Definition child_link (node : DraftNode) : option string :=
  match dn_kind node with DraftNodeKind.ChildWorkflow id => Some id | _ => None end.

(** The child links of one workflow, each distinct child once. *)
Fixpoint bundle_children (ids : list string) (id : string) (children links : list string)
    (g : Graph) : result Graph string :=
  match links with
  | [] => Ok g
  | child :: links =>
      fail_if negb (contains ids child)
        with ("atomic workflow bundle is missing child `" +:+ child +:+ "`")%stdpp in
      if contains children child then bundle_children ids id children links g
      else bundle_children ids id (child :: children) links (add_edge g (id, child))
  end.

Fixpoint bundle_links (ids : list string) (ws : list Workflow) (g : Graph) : result Graph string :=
  match ws with
  | [] => Ok g
  | w :: ws =>
      let? g := bundle_children ids (wf_id w) [] (omap child_link (wf_nodes w)) g in
      bundle_links ids ws g
  end.

Fixpoint bundle_batch (ords : string → list string) (ws : list Workflow) (batch : list Envelope)
    : result (list Envelope) string :=
  match ws with
  | [] => Ok batch
  | w :: ws =>
      let? envs := workflow_prepare (ords (wf_id w)) w in
      let batch := batch ++ envs in
      fail_if MAX_ENQUEUE_BATCH_SIZE <? Z.of_nat (length batch)
        with "workflow bundle must contain at most 1000 jobs" in
      bundle_batch ords ws batch
  end.

Definition prepare_bundle (ord : list string) (ords : string → list string) (ws : list Workflow)
    : result (list Envelope) string :=
  fail_if is_empty ws with "workflow bundle must contain at least one workflow" in
  let ids := wf_id <$> ws in
  fail_if negb (length (remove_dups ids) =? length ws)%nat || contains ids ""
    with "workflow bundle ids must be non-empty and unique" in
  let? g := bundle_links ids ws (init_indegree ids, ∅) in
  fail_if negb (all_visited ord (length ws) g)
    with "cross-workflow child graph contains a cycle" in
  bundle_batch ords ws [].
End workflow.
