(* ===== verification/WorkflowSpec.v ===== *)
(** * Correctness of workflow building

    The three graph validators of [Workflow.v] decide exactly the well-formed graphs;
    a prepared workflow is accepted by the coordinator that will run it; a prepared
    bundle has no cross-workflow cycle. *)

From S2P Require Import Prelude Shared Envelope Graph Workflow.
Local Open Scope Z_scope.

(** ** Specifications *)

(** The dependency edges of a list of [(name, deps)] pairs. *)
Definition edges_of (l : list (string * list string)) : list (string * string) :=
  l ≫= λ nd, (λ dep, (dep, nd.1)) <$> nd.2.

Definition draft_pairs (nodes : list DraftNode) := (λ n, (dn_name n, dn_deps n)) <$> nodes.
Definition spec_pairs (nodes : list NodeSpec) := (λ n, (n_name n, n_deps n)) <$> nodes.

(** Names are unique, dependencies are known and not repeated, no cycle, bounded. *)
Record dag_ok (l : list (string * list string)) : Prop := {
  dag_names : NoDup l.*1;
  dag_deps n deps : (n, deps) ∈ l → NoDup deps ∧ deps ⊆ l.*1;
  dag_edges : Z.of_nat (length (edges_of l)) ≤ MAX_WORKFLOW_EDGES;
  dag_acyclic : acyclic (edges_of l);
}.

Section spec.
Context (cel_compiles : string → bool).

Definition condition_ok (c : string) : Prop :=
  c ≠ "" ∧ str_len c ≤ 1024 ∧ cel_compiles c = true.

Definition draft_kind_ok (n : DraftNode) : Prop :=
  match dn_kind n with
  | DraftNodeKind.Task _ => True
  | DraftNodeKind.Signal s => s ≠ ""
  | DraftNodeKind.TimerAt t => 0 < t
  | DraftNodeKind.TimerAfter _ => dn_deps n ≠ []
  | DraftNodeKind.ChildWorkflow c => c ≠ ""
  | DraftNodeKind.Condition c => condition_ok c
  end.

Definition draft_ok (n : DraftNode) : Prop :=
  dn_name n ≠ "" ∧ str_len (dn_name n) ≤ 128 ∧ draft_kind_ok n.

(** The optional fields of a stored node are exactly those of its kind. *)
Definition spec_kind_ok (n : NodeSpec) : Prop :=
  match n_kind n, n_signal n, n_wake_at_ms n, n_delay_ms n, n_child_workflow_id n, n_condition n with
  | NodeType.Task, None, None, None, None, None => True
  | NodeType.Signal, Some s, None, None, None, None => s ≠ ""
  | NodeType.Timer, None, Some t, None, None, None => 0 < t
  | NodeType.Timer, None, None, Some d, None, None => 0 < d ∧ n_deps n ≠ []
  | NodeType.ChildWorkflow, None, None, None, Some c, None => c ≠ ""
  | NodeType.Condition, None, None, None, None, Some c => condition_ok c
  | _, _, _, _, _, _ => False
  end.

Definition spec_ok (n : NodeSpec) : Prop :=
  n_name n ≠ "" ∧ str_len (n_name n) ≤ 128 ∧ n_job_id n ≠ ""
  ∧ str_len (n_job_id n) ≤ MAX_JOB_IDENTIFIER_LEN ∧ spec_kind_ok n.

Definition retry_policy_ok (w : CoordinatorTask) : Prop :=
  match ct_retry_policy w with
  | Some p => 2 ≤ max_generations p ∧ 0 < backoff_ms p ∧ ct_failed_subgraph_retry w = true
  | None => True
  end.

Lemma err_if_Ok {A} b m (k : result A string) a :
  err_if b m k = Ok a ↔ b = false ∧ k = Ok a.
Proof. destruct b; simpl; split; [done|by intros [? ?]|done|by intros [? ?]]. Qed.

Lemma bind_Ok {A B E} (r : result A E) (k : A → result B E) b :
  (let? a := r in k a) = Ok b ↔ ∃ a, r = Ok a ∧ k a = Ok b.
Proof. destruct r; split; [eauto|by intros (? & [= ->] & ?)|done|by intros (? & ? & ?)]. Qed.

Lemma contains_true l x : contains l x = true ↔ x ∈ l.
Proof. unfold contains. by rewrite bool_decide_eq_true. Qed.
Lemma contains_false l x : contains l x = false ↔ x ∉ l.
Proof. unfold contains. by rewrite bool_decide_eq_false. Qed.

Lemma remove_dups_length (l : list string) :
  (length (remove_dups l) =? length l)%nat = true ↔ NoDup l.
Proof.
  rewrite Nat.eqb_eq. split.
  - induction l as [|x l IH]; simpl; [constructor|].
    assert (length (remove_dups l) ≤ length l)%nat as Hle.
    { clear. induction l as [|y l IH]; simpl; [done|]. case_decide; simpl; lia. }
    case_decide as Hx; intros Hl; [lia|]. injection Hl as Hl. constructor; [done|by apply IH].
  - induction 1 as [|x l Hx Hnd IH]; [done|]. simpl. case_decide; [done|]. simpl. by rewrite IH.
Qed.

(** ** Dependency loops *)

Definition name_edges (name : string) (deps : list string) : list (string * string) :=
  (λ dep, (dep, name)) <$> deps.

Lemma edges_of_cons n deps l : edges_of ((n, deps) :: l) = name_edges n deps ++ edges_of l.
Proof. done. Qed.

Lemma elem_of_edges_of l d n : (d, n) ∈ edges_of l ↔ ∃ deps, (n, deps) ∈ l ∧ d ∈ deps.
Proof.
  unfold edges_of. rewrite list_elem_of_bind. split.
  - intros ([n' deps] & (d' & [= <- <-] & Hd)%list_elem_of_fmap & Hl). eauto.
  - intros (deps & Hl & Hd). exists (n, deps). split; [|done].
    apply list_elem_of_fmap. eauto.
Qed.

Lemma draft_deps_Ok names name u deps g g' :
  draft_deps names name u deps g = Ok g' ↔
  deps ⊆ names ∧ NoDup deps ∧ (∀ d, d ∈ deps → d ∉ u)
  ∧ g' = foldl add_edge g (name_edges name deps).
Proof.
  revert u g. induction deps as [|d deps IH]; intros u g; cbn [draft_deps].
  { split; [intros [= ->]; split_and!; [set_solver|constructor|set_solver|done]|by intros (_ & _ & _ & ->)]. }
  rewrite !err_if_Ok, IH, negb_false_iff, contains_true, contains_false, NoDup_cons.
  cbn [name_edges fmap list_fmap foldl]. split.
  - intros (Hd & Hu & Hs & Hnd & Hnu & ->). split_and!; [set_solver|set_solver|done|set_solver|done].
  - intros (Hs & [Hd Hnd] & Hnu & ->). split_and!; [set_solver|set_solver|set_solver|done|set_solver|done].
Qed.

Lemma spec_deps_Ok names name u deps g g' :
  spec_deps names name u deps g = Ok g' ↔ draft_deps names name u deps g = Ok g'.
Proof.
  revert u g. induction deps as [|d deps IH]; intros u g; [done|].
  cbn [spec_deps draft_deps]. by rewrite !err_if_Ok, IH.
Qed.

Lemma check_draft_kind_Ok n :
  check_draft_kind cel_compiles n = Ok tt ↔ draft_kind_ok n.
Proof.
  unfold check_draft_kind, draft_kind_ok, validate_condition, condition_ok.
  destruct (dn_kind n); rewrite ?err_if_Ok, ?orb_false_iff, ?negb_false_iff, ?Z.leb_gt,
    ?Z.ltb_ge, ?String.eqb_neq; try tauto.
  destruct (dn_deps n); simpl; intuition congruence.
Qed.

(** The edge count of a node list, as the saturating counter sees it. *)
Lemma saturating_edges edges n deps l :
  0 ≤ edges ≤ u64_max →
  0 ≤ u64_saturating_add edges (Z.of_nat (length deps)) ≤ u64_max
  ∧ Z.min u64_max (u64_saturating_add edges (Z.of_nat (length deps))
                   + Z.of_nat (length (edges_of l)))
    = Z.min u64_max (edges + Z.of_nat (length (edges_of ((n, deps) :: l)))).
Proof.
  intros He. rewrite edges_of_cons, length_app. unfold name_edges. rewrite length_fmap.
  unfold u64_saturating_add. lia.
Qed.

Lemma draft_nodes_Ok names nodes g edges ge :
  0 ≤ edges ≤ u64_max →
  draft_nodes cel_compiles names nodes g edges = Ok ge ↔
  (∀ n, n ∈ nodes → str_len (dn_name n) ≤ 128 ∧ draft_kind_ok n
                    ∧ NoDup (dn_deps n) ∧ dn_deps n ⊆ names)
  ∧ ge = (foldl add_edge g (edges_of (draft_pairs nodes)),
          Z.min u64_max (edges + Z.of_nat (length (edges_of (draft_pairs nodes))))).
Proof.
  revert g edges. induction nodes as [|n nodes IH]; intros g edges He; cbn [draft_nodes].
  { simpl. rewrite Z.add_0_r, Z.min_r by lia. split; [intros [= <-]|intros [_ ->]]; set_solver. }
  cbn [draft_pairs fmap list_fmap]. fold (draft_pairs nodes).
  destruct (saturating_edges edges (dn_name n) (dn_deps n) (draft_pairs nodes) He) as [He' Hsum].
  rewrite err_if_Ok, Z.ltb_ge, bind_Ok. setoid_rewrite bind_Ok.
  setoid_rewrite draft_deps_Ok. rewrite <-Hsum, edges_of_cons, foldl_app. split.
  - intros (Hl & [] & Hk%check_draft_kind_Ok & g' & (Hs & Hnd & _ & ->) & [Hr ->]%IH); [|done].
    split; [|done]. intros m [->|Hm]%elem_of_cons; [done|by apply Hr].
  - intros [Hr ->]. destruct (Hr n) as (Hl & Hk & Hnd & Hs); [set_solver|].
    split; [done|]. exists tt. split; [by apply check_draft_kind_Ok|].
    eexists. split_and!; [done|done|set_solver|done|].
    apply IH; [done|]. split; [|done]. intros m Hm. apply Hr. set_solver.
Qed.

Lemma dag_names_in l e : (∀ n deps, (n, deps) ∈ l → deps ⊆ l.*1) → e ∈ edges_of l → e.1 ∈ l.*1 ∧ e.2 ∈ l.*1.
Proof.
  destruct e as [d n]. intros Hl (deps & Hin & Hd)%elem_of_edges_of. simpl. split.
  - by apply (Hl n deps).
  - apply list_elem_of_fmap. by exists (n, deps).
Qed.

(** The tests both whole-graph validators end with. *)
Lemma dag_ok_tests l ord :
  ord ≡ₚ l.*1 → NoDup l.*1 → (∀ n deps, (n, deps) ∈ l → NoDup deps ∧ deps ⊆ l.*1) →
  Z.min u64_max (Z.of_nat (length (edges_of l))) ≤ MAX_WORKFLOW_EDGES
    ∧ all_visited ord (length l) (graph_of l.*1 (edges_of l)) = true
  ↔ dag_ok l.
Proof.
  intros Hord Hnd Hd. assert (length l = length l.*1) as -> by by rewrite length_fmap.
  rewrite all_visited_acyclic; [|done| |done].
  2:{ intros e. apply dag_names_in. intros n deps Hin. by apply (Hd n deps). }
  unfold MAX_WORKFLOW_EDGES, u64_max. split.
  - intros [Hm Ha]. split; [done|done|unfold MAX_WORKFLOW_EDGES; lia|done].
  - intros []. unfold MAX_WORKFLOW_EDGES in *. split; [lia|done].
Qed.

Lemma draft_pairs_names nodes : (draft_pairs nodes).*1 = dn_name <$> nodes.
Proof. unfold draft_pairs. by rewrite <-list_fmap_compose. Qed.
Lemma spec_pairs_names nodes : (spec_pairs nodes).*1 = n_name <$> nodes.
Proof. unfold spec_pairs. by rewrite <-list_fmap_compose. Qed.
Lemma elem_of_draft_pairs nodes x : x ∈ draft_pairs nodes ↔ ∃ n, x = (dn_name n, dn_deps n) ∧ n ∈ nodes.
Proof. apply list_elem_of_fmap. Qed.
Lemma elem_of_spec_pairs nodes x : x ∈ spec_pairs nodes ↔ ∃ n, x = (n_name n, n_deps n) ∧ n ∈ nodes.
Proof. apply list_elem_of_fmap. Qed.

(** ** Exactness of the validators *)

Lemma validate_graph_iff ord nodes :
  ord ≡ₚ dn_name <$> nodes →
  validate_graph cel_compiles ord nodes = Ok tt ↔
  Z.of_nat (length nodes) ≤ MAX_WORKFLOW_NODES ∧ Forall draft_ok nodes ∧ dag_ok (draft_pairs nodes).
Proof.
  intros Hord. unfold validate_graph.
  rewrite !err_if_Ok, Z.ltb_ge, orb_false_iff, negb_false_iff, contains_false, bind_Ok.
  rewrite <-(length_fmap dn_name nodes) at 2. rewrite remove_dups_length.
  setoid_rewrite draft_nodes_Ok; [|unfold u64_max; lia].
  rewrite Z.add_0_l, Forall_forall, <-draft_pairs_names. fold (graph_of (draft_pairs nodes).*1 (edges_of (draft_pairs nodes))).
  rewrite <-draft_pairs_names in Hord. pose proof (dag_ok_tests (draft_pairs nodes) ord Hord) as Ht.
  assert (length (draft_pairs nodes) = length nodes) as Hlen by apply length_fmap. rewrite Hlen in Ht.
  split.
  - intros (Hn & [Hnd He] & ge & [Hns ->] & [Hb [Hv _]%err_if_Ok]%err_if_Ok). simpl in *.
    apply Z.ltb_ge in Hb. apply negb_false_iff in Hv. split_and!; [done| |].
    + intros n Hin. destruct (Hns n Hin) as (? & ? & _). split_and!; [|done|done].
      intros E. apply He. rewrite draft_pairs_names. rewrite <-E. by apply list_elem_of_fmap_2.
    + apply Ht; [done| |done]. intros n deps (x & [= -> ->] & Hx)%elem_of_draft_pairs. by apply Hns.
  - intros (Hn & Hok & Hdag). pose proof Hdag as [Hnd Hd _ _].
    apply Ht in Hdag as [Hb Hv]; [|done|done]. split_and!; [done|done| |].
    + rewrite draft_pairs_names. intros (x & Hx & Hin)%list_elem_of_fmap.
      by destruct (Hok x Hin) as [? _].
    + eexists. split; [split; [|done]|].
      * intros n Hin. destruct (Hok n Hin) as (_ & ? & ?). split_and!; [done|done| |].
        all: apply (Hd (dn_name n) (dn_deps n)), elem_of_draft_pairs; eauto.
      * simpl. rewrite !err_if_Ok, Z.ltb_ge, negb_false_iff. by split_and!.
Qed.

Lemma validate_condition_ok c : is_ok (validate_condition cel_compiles c) = true ↔ condition_ok c.
Proof.
  unfold validate_condition, condition_ok. split.
  - intros [u [[? ?]%orb_false_iff [? _]%err_if_Ok]%err_if_Ok]%is_ok_true. by bool_hyps.
  - intros (?%String.eqb_neq & ?%Z.ltb_ge & Hc). apply is_ok_true. exists tt.
    rewrite !err_if_Ok, orb_false_iff, negb_false_iff. by split_and!.
Qed.

Lemma is_empty_false {A} (l : list A) : is_empty l = false ↔ l ≠ [].
Proof. by destruct l. Qed.

Lemma invalid_spec_ok n : invalid_spec cel_compiles n = false ↔ spec_ok n.
Proof.
  unfold invalid_spec, spec_ok, spec_kind_ok, none_or_empty.
  rewrite !orb_false_iff, !Z.ltb_ge, !String.eqb_neq.
  destruct (n_kind n), (n_signal n), (n_wake_at_ms n), (n_delay_ms n), (n_child_workflow_id n),
    (n_condition n); simpl;
    rewrite ?orb_false_iff, ?Z.leb_gt, ?String.eqb_neq, ?is_empty_false, ?negb_false_iff,
      ?validate_condition_ok; intuition congruence.
Qed.

Lemma spec_nodes_Ok names nodes edges ne :
  0 ≤ edges ≤ u64_max →
  spec_nodes cel_compiles names nodes edges = Ok ne ↔
  Forall spec_ok nodes ∧ NoDup (n_name <$> nodes) ∧ (∀ n, n ∈ nodes → n_name n ∉ names)
  ∧ ne = (reverse (n_name <$> nodes) ++ names,
          Z.min u64_max (edges + Z.of_nat (length (edges_of (spec_pairs nodes))))).
Proof.
  revert names edges. induction nodes as [|n nodes IH]; intros names edges He; cbn [spec_nodes].
  { simpl. rewrite Z.add_0_r, Z.min_r by lia. change (reverse []) with (@nil string).
    split; [intros [= <-]|by intros (_ & _ & _ & ->)]. split_and!; [done|constructor|set_solver|done]. }
  cbn [spec_pairs fmap list_fmap]. fold (spec_pairs nodes).
  destruct (saturating_edges edges (n_name n) (n_deps n) (spec_pairs nodes) He) as [He' Hsum].
  rewrite err_if_Ok, orb_false_iff, invalid_spec_ok, contains_false, IH by done.
  rewrite Hsum, Forall_cons, NoDup_cons. rewrite reverse_cons, <-app_assoc. simpl. split.
  - intros ([Hok Hn] & Hall & Hnd & Hf & ->). split_and!; [done|done| |done| |done].
    + intros (m & Hm & Hin)%list_elem_of_fmap. apply (Hf m Hin). rewrite Hm. left.
    + intros m [->|Hm]%elem_of_cons; [done|]. specialize (Hf m Hm). set_solver.
  - intros ([Hok Hall] & [Hn Hnd] & Hf & ->). split_and!; [done|apply Hf; left|done|done| |done].
    intros m Hm [E|Hin]%elem_of_cons; [|by apply (Hf m); [right|]].
    apply Hn. rewrite <-E. by apply list_elem_of_fmap_2.
Qed.

Lemma spec_edges_Ok names nodes g g' :
  spec_edges names nodes g = Ok g' ↔
  (∀ n, n ∈ nodes → NoDup (n_deps n) ∧ n_deps n ⊆ names)
  ∧ g' = foldl add_edge g (edges_of (spec_pairs nodes)).
Proof.
  revert g. induction nodes as [|n nodes IH]; intros g; cbn [spec_edges].
  { split; [intros [= ->]|intros [_ ->]]; set_solver. }
  rewrite bind_Ok. setoid_rewrite spec_deps_Ok. setoid_rewrite draft_deps_Ok. setoid_rewrite IH.
  cbn [spec_pairs fmap list_fmap]. fold (spec_pairs nodes). rewrite edges_of_cons, foldl_app. split.
  - intros (g1 & (Hs & Hnd & _ & ->) & Hr & ->). split; [|done].
    intros m [->|Hm]%elem_of_cons; [done|by apply Hr].
  - intros [Hr ->]. destruct (Hr n) as [? ?]; [left|]. eexists. split_and!; [done|done|set_solver|done| |done].
    intros m Hm. apply Hr. by right.
Qed.

Lemma bad_retry_policy_ok w : bad_retry_policy w = false ↔ retry_policy_ok w.
Proof.
  unfold bad_retry_policy, retry_policy_ok. destruct (ct_retry_policy w); [|done].
  rewrite !orb_false_iff, Z.ltb_ge, Z.leb_gt, negb_false_iff. tauto.
Qed.

Lemma validate_coordinator_iff ord w :
  ord ≡ₚ n_name <$> ct_nodes w →
  validate_coordinator cel_compiles ord w = Ok tt ↔
  ct_workflow_id w ≠ "" ∧ ct_nodes w ≠ [] ∧ Z.of_nat (length (ct_nodes w)) ≤ MAX_WORKFLOW_NODES
  ∧ retry_policy_ok w ∧ Forall spec_ok (ct_nodes w) ∧ dag_ok (spec_pairs (ct_nodes w)).
Proof.
  intros Hord. unfold validate_coordinator. set (nodes := ct_nodes w) in *.
  rewrite !err_if_Ok, orb_false_iff, is_empty_false, Z.ltb_ge, String.eqb_neq, bad_retry_policy_ok, bind_Ok.
  setoid_rewrite spec_nodes_Ok; [|unfold u64_max; lia]. setoid_rewrite err_if_Ok. setoid_rewrite bind_Ok.
  setoid_rewrite spec_edges_Ok. setoid_rewrite err_if_Ok. setoid_rewrite negb_false_iff. setoid_rewrite Z.ltb_ge.
  rewrite Z.add_0_l, <-spec_pairs_names. fold (graph_of (spec_pairs nodes).*1 (edges_of (spec_pairs nodes))).
  rewrite <-spec_pairs_names in Hord. pose proof (dag_ok_tests (spec_pairs nodes) ord Hord) as Ht.
  assert (length (spec_pairs nodes) = length nodes) as Hlen by apply length_fmap. rewrite Hlen in Ht.
  assert (∀ P : list string, P ⊆ reverse (spec_pairs nodes).*1 ++ [] ↔ P ⊆ (spec_pairs nodes).*1) as Hsub.
  { intros P. rewrite app_nil_r. unfold subseteq, list_subseteq. by setoid_rewrite elem_of_reverse. }
  split.
  - intros (? & [? ?] & ? & ne & (Hok & Hnd & _ & ->) & Hb & g & [Hns ->] & Hv & _). simpl in *.
    split_and!; try done. apply Ht; [done| |done].
    intros n deps (x & [= -> ->] & Hx)%elem_of_spec_pairs. rewrite <-Hsub. by apply Hns.
  - intros (? & ? & ? & ? & Hok & Hdag). pose proof Hdag as [Hnd Hd _ _].
    apply Ht in Hdag as [Hb Hv]; [|done|done]. split_and!; try done.
    eexists. split; [split_and!; [done|done|set_solver|done]|]. split; [done|]. simpl.
    eexists. split_and!; [|done|done|done]. intros n Hin. rewrite Hsub.
    apply (Hd (n_name n) (n_deps n)), elem_of_spec_pairs; eauto.
Qed.
End spec.

(** ** Preparing *)

(** What the builder's own argument checks guarantee. *)
Definition node_delay_ok (n : DraftNode) : Prop :=
  match dn_kind n with DraftNodeKind.TimerAfter d => 0 < d | _ => True end.

Record builder_ok (w : Workflow) : Prop := {
  bo_retention : 0 < wf_retention_ms w;
  bo_delays : Forall node_delay_ok (wf_nodes w);
  bo_policy p : wf_retry_policy w = Some p →
    2 ≤ max_generations p ∧ 0 < backoff_ms p ∧ wf_failed_subgraph_retry w = true;
}.

Lemma add_node_ok name kind deps w :
  builder_ok w → node_delay_ok (mkDraftNode name kind deps) → builder_ok (add_node name kind deps w).
Proof.
  intros [] Hn. split; simpl; [done| |done]. apply Forall_app. split; [done|by constructor].
Qed.

Lemma built_ok w : built w → builder_ok w.
Proof.
  induction 1 as [id|q w _ [] |d w w' _ [] E|w _ []|m d w w' _ [] E|n e ds w _ IH|n sg ds w _ IH
    |n t ds w _ IH|n d ds w w' _ IH E|n i ds w _ IH|n c ds w _ IH];
    try (by apply add_node_ok).
  - split; simpl; [unfold DEFAULT_RETENTION_MS; lia|constructor|done].
  - by split.
  - unfold workflow_retention in E. repeat case_if_in E; simplify_eq. bool_hyps. by split.
  - split; simpl; [done|done|]. intros p Hp. by destruct (bo_policy0 p Hp) as (? & ? & _).
  - unfold automatic_retry in E. repeat case_if_in E; simplify_eq. bool_hyps.
    split; simpl; [done|done|]. intros p [= <-]. simpl. lia.
  - unfold add_timer_after in E. repeat case_if_in E; simplify_eq. bool_hyps. by apply add_node_ok.
Qed.

Section prepare.
Context (cel_compiles : string → bool).
Context (encode : WorkflowTask → result bytes string).
Context (sha256 : bytes → bytes).

(** [prepare_envelope] rewrites only the fingerprint and the weight. *)
Lemma prepare_envelope_fields e e' :
  prepare_envelope sha256 e = Ok e' →
  e_id e' = e_id e ∧ e_pending e' = e_pending e ∧ e_scheduled_at_ms e' = e_scheduled_at_ms e
  ∧ e_retention_ms e' = e_retention_ms e ∧ e_payload e' = e_payload e ∧ e_kind e' = e_kind e.
Proof.
  unfold prepare_envelope. intros (? & _ & H)%bind_Ok. apply err_if_Ok in H as [_ [= <-]].
  by case_if.
Qed.

Lemma task_envelope_payload t q e :
  task_envelope encode sha256 t q = Ok e → encode t = Ok (e_payload e) ∧ e_id e = "".
Proof. unfold task_envelope. intros (p & Hp & [= <-])%bind_Ok. done. Qed.

(** The stored node of a draft node, but for its job id. *)
Definition spec_of (n : DraftNode) : NodeSpec :=
  match dn_kind n with
  | DraftNodeKind.Task _ =>
      mkNodeSpec (dn_name n) "" (dn_deps n) NodeType.Task None None None None None
  | DraftNodeKind.Signal s =>
      mkNodeSpec (dn_name n) "" (dn_deps n) NodeType.Signal (Some s) None None None None
  | DraftNodeKind.TimerAt t =>
      mkNodeSpec (dn_name n) "" (dn_deps n) NodeType.Timer None (Some t) None None None
  | DraftNodeKind.TimerAfter d =>
      mkNodeSpec (dn_name n) "" (dn_deps n) NodeType.Timer None None (Some d) None None
  | DraftNodeKind.ChildWorkflow c =>
      mkNodeSpec (dn_name n) "" (dn_deps n) NodeType.ChildWorkflow None None None (Some c) None
  | DraftNodeKind.Condition c =>
      mkNodeSpec (dn_name n) "" (dn_deps n) NodeType.Condition None None None None (Some c)
  end.

(** Whether a draft node is an absolute timer, the only kind not stored as pending. *)
Definition absolute_timer (n : DraftNode) : option Z :=
  match dn_kind n with DraftNodeKind.TimerAt t => Some t | _ => None end.

Definition child_of (w : Workflow) (n : DraftNode) (se : NodeSpec * Envelope) : Prop :=
  se.1 = set_job_id (spec_of n) (e_id se.2) ∧ e_id se.2 ≠ ""
  ∧ wf_retention_ms w ≤ e_retention_ms se.2
  ∧ (e_pending se.2, e_scheduled_at_ms se.2)
    = match absolute_timer n with Some t => (false, t) | None => (true, 0) end.

Lemma draft_spec_Ok w n e s :
  draft_spec encode sha256 w n = Ok (e, s) →
  s = spec_of n ∧ (∀ t, absolute_timer n = Some t → e_scheduled_at_ms e = t).
Proof.
  unfold draft_spec, spec_of, absolute_timer. destruct (dn_kind n); intros H.
  1: by simplify_eq.
  4: apply err_if_Ok in H as [_ H].
  all: apply bind_Ok in H as (? & _ & H); simplify_eq; split; [done|]; by intros ? [=]; subst.
Qed.

Lemma default_id_nonempty a b : (a +:+ ":" +:+ b)%stdpp ≠ "".
Proof. by destruct a. Qed.

Lemma prepare_node_Ok w n se : prepare_node encode sha256 w n = Ok se → child_of w n se.
Proof.
  unfold prepare_node. intros ([e s] & [-> Ht]%draft_spec_Ok & H)%bind_Ok. cbn [fst snd] in H.
  apply bind_Ok in H as (e' & (Hid & Hp & Hs & Hr & _)%prepare_envelope_fields & [= <-]).
  assert ((bool_decide (n_kind (spec_of n) = NodeType.Timer)
           && bool_decide (is_Some (n_wake_at_ms (spec_of n))))
          = match absolute_timer n with Some _ => true | None => false end) as Htimer.
  { unfold spec_of, absolute_timer. by destruct (dn_kind n). }
  rewrite Htimer in Hid, Hp, Hs, Hr. split_and!; simpl.
  - done.
  - rewrite Hid. destruct (String.eqb (e_id e) "") eqn:E; bool_hyps;
      repeat case_if; destruct (absolute_timer n); simpl; try done; apply default_id_nonempty.
  - rewrite Hr. destruct (String.eqb (e_id e) ""), (absolute_timer n); simpl; repeat case_ltb;
      bool_hyps; simpl in *; lia.
  - rewrite Hp, Hs. destruct (absolute_timer n) as [t|]; [|done].
    rewrite <-(Ht t) by done. by destruct (String.eqb (e_id e) ""); simpl; case_if.
Qed.

Lemma prepare_nodes_Ok w nodes ses :
  prepare_nodes encode sha256 w nodes = Ok ses → Forall2 (child_of w) nodes ses.
Proof.
  revert ses. induction nodes as [|n nodes IH]; intros ses; cbn [prepare_nodes].
  - intros [= <-]. constructor.
  - intros (se & Hse%prepare_node_Ok & H)%bind_Ok.
    apply bind_Ok in H as (rest & Hr & [= <-]). constructor; eauto.
Qed.

Lemma child_of_pairs w nodes ses :
  Forall2 (child_of w) nodes ses → spec_pairs (ses.*1) = draft_pairs nodes.
Proof.
  induction 1 as [|n [s e] nodes ses (Hs & _) _ IH]; [done|].
  cbn [spec_pairs draft_pairs fmap list_fmap]. fold (spec_pairs ses.*1) (draft_pairs nodes).
  rewrite IH. f_equal. simpl in Hs. subst s. unfold spec_of. simpl. by destruct (dn_kind n).
Qed.

Lemma child_of_ids w nodes ses :
  Forall2 (child_of w) nodes ses → n_job_id <$> ses.*1 = e_id <$> ses.*2.
Proof.
  induction 1 as [|n [s e] nodes ses (Hs & _) _ IH]; [done|]. simpl in Hs. subst s. csimpl.
  by rewrite IH.
Qed.

(** A valid draft becomes a valid stored node. *)
Lemma child_of_spec_ok w n se :
  child_of w n se → draft_ok cel_compiles n → node_delay_ok n →
  str_len (e_id se.2) ≤ MAX_JOB_IDENTIFIER_LEN → spec_ok cel_compiles se.1.
Proof.
  destruct se as [s e]. intros (-> & Hid & _) (Hn & Hl & Hk) Hd Hlen. simpl in *.
  unfold spec_ok, spec_kind_ok, spec_of, draft_kind_ok, node_delay_ok in *.
  destruct (dn_kind n); simpl in *; by split_and!.
Qed.

Lemma child_of_specs_ok w nodes ses :
  Forall2 (child_of w) nodes ses → Forall (draft_ok cel_compiles) nodes →
  Forall node_delay_ok nodes → Forall (λ e, str_len (e_id e) ≤ MAX_JOB_IDENTIFIER_LEN) ses.*2 →
  Forall (spec_ok cel_compiles) ses.*1.
Proof.
  induction 1 as [|n se nodes ses Hc _ IH]; simpl; [done|].
  intros [? ?]%Forall_cons [? ?]%Forall_cons [? ?]%Forall_cons.
  constructor; [by eapply child_of_spec_ok|by apply IH].
Qed.

Lemma workflow_prepare_Ok ord w batch :
  workflow_prepare cel_compiles encode sha256 ord w = Ok batch →
  wf_id w ≠ "" ∧ wf_nodes w ≠ [] ∧ validate_graph cel_compiles ord (wf_nodes w) = Ok tt
  ∧ ∃ ses c, Forall2 (child_of w) (wf_nodes w) ses ∧ batch = c :: ses.*2
    ∧ e_id c = (wf_id w +:+ ":coordinator")%stdpp
    ∧ encode (CoordinatorPayload (mkCoordinatorTask (wf_id w) (ses.*1)
                (wf_failed_subgraph_retry w) (wf_retry_policy w))) = Ok (e_payload c).
Proof.
  unfold workflow_prepare. intros [Hid [Hne H]%err_if_Ok]%err_if_Ok.
  apply String.eqb_neq in Hid. apply is_empty_false in Hne.
  apply bind_Ok in H as ([] & Hv & H). apply bind_Ok in H as (ses & Hses%prepare_nodes_Ok & H).
  apply bind_Ok in H as (e & [Henc _]%task_envelope_payload & H).
  apply bind_Ok in H as (c & (Hc & _ & _ & _ & Hp & _)%prepare_envelope_fields & [= <-]).
  split_and!; [done|done|done|]. exists ses, c. split_and!; [done|done|done|].
  by rewrite Hp.
Qed.
End prepare.

(** ** Bundles *)

Definition links (w : Workflow) : list string := omap child_link (wf_nodes w).

(** The links not yet in [seen], each once. *)
Fixpoint new_links (seen l : list string) : list string :=
  match l with
  | [] => []
  | c :: l => if contains seen c then new_links seen l else c :: new_links (c :: seen) l
  end.

Definition bundle_edges (ws : list Workflow) : list (string * string) :=
  ws ≫= λ w, (λ c, (wf_id w, c)) <$> new_links [] (links w).

(** Workflow [a] waits for its child workflow [b]. *)
Definition links_to (ws : list Workflow) (a b : string) : Prop :=
  ∃ w n, w ∈ ws ∧ wf_id w = a ∧ n ∈ wf_nodes w ∧ dn_kind n = DraftNodeKind.ChildWorkflow b.

Lemma elem_of_new_links seen l c : c ∈ new_links seen l ↔ c ∈ l ∧ c ∉ seen.
Proof.
  revert seen. induction l as [|d l IH]; intros seen; simpl; [set_solver|].
  destruct (contains seen d) eqn:E.
  - apply contains_true in E. rewrite IH, elem_of_cons. split; [tauto|]. by intros [[->|?] ?].
  - apply contains_false in E. rewrite !elem_of_cons, IH, elem_of_cons. split.
    + intros [->|[? ?]]; tauto.
    + intros [[->|?] ?]; [by left|]. destruct (decide (c = d)); [by left|right; tauto].
Qed.

Lemma elem_of_links w c :
  c ∈ links w ↔ ∃ n, n ∈ wf_nodes w ∧ dn_kind n = DraftNodeKind.ChildWorkflow c.
Proof.
  unfold links. rewrite list_elem_of_omap. unfold child_link. split.
  - intros (n & Hn & Hk). exists n. split; [done|]. destruct (dn_kind n); naive_solver.
  - intros (n & Hn & Hk). exists n. by rewrite Hk.
Qed.

Lemma depends_bundle ws a b : depends (bundle_edges ws) a b ↔ links_to ws a b.
Proof.
  unfold depends, bundle_edges, links_to. rewrite list_elem_of_bind. split.
  - intros (w & (c & [= -> ->] & [Hc _]%elem_of_new_links)%list_elem_of_fmap & Hw).
    apply elem_of_links in Hc as (n & ? & ?). by exists w, n.
  - intros (w & n & Hw & <- & Hn & Hk). exists w. split; [|done].
    apply list_elem_of_fmap_2, elem_of_new_links. split; [|set_solver].
    apply elem_of_links. eauto.
Qed.

Lemma bundle_children_Ok ids id seen l g g' :
  bundle_children ids id seen l g = Ok g' ↔
  l ⊆ ids ∧ g' = foldl add_edge g ((λ c, (id, c)) <$> new_links seen l).
Proof.
  revert seen g. induction l as [|c l IH]; intros seen g; cbn [bundle_children new_links].
  { split; [intros [= ->]|intros [_ ->]]; set_solver. }
  rewrite err_if_Ok, negb_false_iff, contains_true.
  destruct (contains seen c); rewrite IH; cbn [fmap list_fmap foldl];
    split; intros H; destruct_and!; split_and!; set_solver.
Qed.

Lemma bundle_links_Ok ids ws g g' :
  bundle_links ids ws g = Ok g' ↔
  (∀ w, w ∈ ws → links w ⊆ ids) ∧ g' = foldl add_edge g (bundle_edges ws).
Proof.
  revert g. induction ws as [|w ws IH]; intros g; cbn [bundle_links].
  { split; [intros [= ->]|intros [_ ->]]; set_solver. }
  rewrite bind_Ok. setoid_rewrite bundle_children_Ok. setoid_rewrite IH.
  change (bundle_edges (w :: ws)) with
    (((λ c, (wf_id w, c)) <$> new_links [] (links w)) ++ bundle_edges ws).
  rewrite foldl_app. split.
  - intros (g1 & [Hl ->] & Hr & ->). split; [|done]. intros v [->|Hv]%elem_of_cons; [done|by apply Hr].
  - intros [Hr ->]. eexists. split_and!; [apply Hr; left|done| |done]. intros v Hv. apply Hr. by right.
Qed.

Section bundle.
Context (cel_compiles : string → bool).
Context (encode : WorkflowTask → result bytes string).
Context (sha256 : bytes → bytes).

Definition prepared (ords : string → list string) (w : Workflow) (part : list Envelope) : Prop :=
  workflow_prepare cel_compiles encode sha256 (ords (wf_id w)) w = Ok part.

Lemma bundle_batch_Ok ords ws batch b :
  Z.of_nat (length batch) ≤ 1000 →
  bundle_batch cel_compiles encode sha256 ords ws batch = Ok b ↔
  ∃ parts, Forall2 (prepared ords) ws parts ∧ b = batch ++ concat parts ∧ Z.of_nat (length b) ≤ 1000.
Proof.
  revert batch b. induction ws as [|w ws IH]; intros batch b Hb; cbn [bundle_batch].
  { split.
    - intros [= <-]. exists []. rewrite app_nil_r. split_and!; [constructor|done|done].
    - intros (parts & ->%Forall2_nil_inv_l & -> & _). by rewrite app_nil_r. }
  rewrite bind_Ok. split.
  - intros (part & Hp & [Hl%Z.ltb_ge Hr]%err_if_Ok). apply IH in Hr as (parts & Hps & -> & Hlen); [|done].
    exists (part :: parts). rewrite concat_cons, app_assoc. split_and!; [constructor; [exact Hp|exact Hps]|done|done].
  - intros (ps & (part & parts & Hp & Hps & ->)%Forall2_cons_inv_l & -> & Hlen).
    simpl in *. rewrite app_assoc in Hlen |- *. exists part.
    assert (Z.of_nat (length (batch ++ part)) ≤ 1000) as Hp1 by (rewrite (length_app (batch ++ part)) in Hlen; lia).
    split; [done|]. apply err_if_Ok. split; [by apply Z.ltb_ge|]. apply IH; [done|]. eauto.
Qed.

Lemma prepare_bundle_iff ord ords ws batch :
  ord ≡ₚ wf_id <$> ws →
  prepare_bundle cel_compiles encode sha256 ord ords ws = Ok batch ↔
  ws ≠ [] ∧ NoDup (wf_id <$> ws) ∧ "" ∉ wf_id <$> ws
  ∧ (∀ w, w ∈ ws → links w ⊆ wf_id <$> ws) ∧ acyclic (bundle_edges ws)
  ∧ ∃ parts, Forall2 (prepared ords) ws parts ∧ batch = concat parts ∧ Z.of_nat (length batch) ≤ 1000.
Proof.
  intros Hord. unfold prepare_bundle.
  rewrite !err_if_Ok, is_empty_false, orb_false_iff, negb_false_iff, contains_false, bind_Ok.
  rewrite <-(length_fmap wf_id ws) at 1. rewrite remove_dups_length.
  setoid_rewrite bundle_links_Ok. setoid_rewrite err_if_Ok. setoid_rewrite negb_false_iff.
  setoid_rewrite bundle_batch_Ok; [|simpl; lia]. simpl.
  fold (graph_of (wf_id <$> ws) (bundle_edges ws)).
  assert (NoDup (wf_id <$> ws) → (∀ w, w ∈ ws → links w ⊆ wf_id <$> ws) →
    all_visited ord (length ws) (graph_of (wf_id <$> ws) (bundle_edges ws)) = true
    ↔ acyclic (bundle_edges ws)) as Hav.
  { intros Hnd Hl. rewrite <-(length_fmap wf_id ws). apply all_visited_acyclic; [done| |done].
    intros [a b] (w & n & Hw & <- & Hn & Hk)%depends_bundle. simpl. split; [by apply (list_elem_of_fmap_2 wf_id)|].
    apply (Hl w Hw), elem_of_links. eauto. }
  split.
  - intros (? & [Hnd ?] & g & [Hl ->] & Hv & Hp). rewrite Hav in Hv by done. by split_and!.
  - intros (? & Hnd & ? & Hl & Ha & Hp). rewrite <-Hav in Ha by done. split_and!; [done|done|done|].
    eexists. by split_and!.
Qed.
End bundle.

(** ** Grafts *)

(** The dependencies of a graft between its own nodes; the others refer to the running
    workflow and are checked when the graft is accepted. *)
Definition internal_pairs (l : list (string * list string)) : list (string * list string) :=
  (λ nd, (nd.1, filter (.∈ l.*1) nd.2)) <$> l.

Definition restrict_pairs (names : list string) (l : list (string * list string)) :
  list (string * list string) := (λ nd, (nd.1, filter (.∈ names) nd.2)) <$> l.

Lemma graft_deps_Ok names name u deps g edges ge :
  0 ≤ edges ≤ u64_max →
  graft_deps names name u deps g edges = Ok ge →
  NoDup deps ∧ (∀ d, d ∈ deps → d ∉ u) ∧ name ∉ deps
  ∧ ge = (foldl add_edge g (name_edges name (filter (.∈ names) deps)),
          Z.min u64_max (edges + Z.of_nat (length deps))).
Proof.
  revert u g edges. induction deps as [|d deps IH]; intros u g edges He; cbn [graft_deps].
  { intros [= <-]. split_and!; [constructor|set_solver|set_solver|].
    simpl. f_equal. lia. }
  intros [Hu%contains_false [Hn%String.eqb_neq H]%err_if_Ok]%err_if_Ok.
  apply IH in H as (Hnd & Hf & Hname & ->); [|unfold u64_saturating_add; lia].
  split_and!.
  - constructor; [|done]. intros Hd. apply (Hf d Hd). left.
  - intros x [->|Hx]%elem_of_cons; [done|]. specialize (Hf x Hx). set_solver.
  - set_solver.
  - rewrite filter_cons. unfold contains. f_equal.
    + case_bool_decide as E; [rewrite decide_True by done|rewrite decide_False by done]; done.
    + unfold u64_saturating_add. simpl length. lia.
Qed.

Lemma graft_edges_Ok names nodes g edges ge :
  0 ≤ edges ≤ u64_max →
  graft_edges names nodes g edges = Ok ge →
  (∀ n, n ∈ nodes → NoDup (n_deps n) ∧ n_name n ∉ n_deps n)
  ∧ ge.1 = foldl add_edge g (edges_of (restrict_pairs names (spec_pairs nodes)))
  ∧ ge.2 = Z.min u64_max (edges + Z.of_nat (length (edges_of (spec_pairs nodes)))).
Proof.
  revert g edges. induction nodes as [|n nodes IH]; intros g edges He; cbn [graft_edges].
  { intros [= <-]. simpl. split_and!; [set_solver|done|lia]. }
  intros (ge' & (Hnd & _ & Hn & ->)%graft_deps_Ok & H)%bind_Ok; [|done].
  cbn [fst snd] in H. apply IH in H as (Hr & Hg & Hz); [|lia].
  cbn [spec_pairs restrict_pairs fmap list_fmap]. fold (spec_pairs nodes).
  fold (restrict_pairs names (spec_pairs nodes)). rewrite !edges_of_cons, foldl_app.
  split_and!; [|done|].
  - intros m [->|Hm]%elem_of_cons; [done|by apply Hr].
  - rewrite Hz, length_app. unfold name_edges. rewrite length_fmap. cbn [n_deps]. lia.
Qed.

(** An accepted graft has bounded, irreflexive, unrepeated dependencies and no cycle among
    its own nodes. *)
Lemma validate_graft_nodes_sound ord nodes :
  ord ≡ₚ n_name <$> nodes → NoDup (n_name <$> nodes) →
  validate_graft_nodes ord nodes = Ok tt →
  (∀ n, n ∈ nodes → NoDup (n_deps n) ∧ n_name n ∉ n_deps n)
  ∧ Z.of_nat (length (edges_of (spec_pairs nodes))) ≤ MAX_WORKFLOW_EDGES
  ∧ acyclic (edges_of (internal_pairs (spec_pairs nodes))).
Proof.
  intros Hord Hnames. unfold validate_graft_nodes. intros (ge & Hge & H)%bind_Ok.
  apply graft_edges_Ok in Hge as (Hr & Hg & Hz); [|unfold u64_max; lia].
  apply err_if_Ok in H as [Hb%Z.ltb_ge [Hv%negb_false_iff _]%err_if_Ok].
  split_and!; [done|unfold MAX_WORKFLOW_EDGES, u64_max in *; lia|].
  rewrite <-spec_pairs_names in Hord, Hnames, Hg. unfold internal_pairs.
  fold (restrict_pairs (spec_pairs nodes).*1 (spec_pairs nodes)).
  rewrite <-(all_visited_acyclic (spec_pairs nodes).*1 _ Hnames) with (ord := ord); [|clear -nodes|done].
  - rewrite Hg in Hv. unfold graph_of. rewrite <-Hv. f_equal. unfold spec_pairs. by rewrite !length_fmap.
  - intros [d n] (deps & ([n' deps'] & [= -> ->] & Hx)%list_elem_of_fmap & [Hd _]%list_elem_of_filter)%elem_of_edges_of.
    split; [done|]. by apply (list_elem_of_fmap_2 fst) in Hx.
Qed.

Section graft.
Context (encode : WorkflowTask → result bytes string).
Context (sha256 : bytes → bytes).

Definition grafted (g : WorkflowGraft) (n : DraftNode) (se : NodeSpec * Envelope) : Prop :=
  dn_name n ≠ "" ∧ str_len (dn_name n) ≤ 128
  ∧ se.1 = mkNodeSpec (dn_name n) (e_id se.2) (dn_deps n) NodeType.Task None None None None None
  ∧ e_pending se.2 = true ∧ e_scheduled_at_ms se.2 = 0 ∧ gr_retention_ms g ≤ e_retention_ms se.2.

Lemma graft_node_Ok g rev names n se :
  graft_node sha256 g rev names n = Ok se → dn_name n ∉ names ∧ grafted g n se.
Proof.
  unfold graft_node. intros [[[Hn%String.eqb_neq Hl%Z.ltb_ge]%orb_false_iff Hc%contains_false]%orb_false_iff H]%err_if_Ok.
  destruct (dn_kind n); try done.
  apply bind_Ok in H as (e & (Hid & Hp & Hs & Hr & _)%prepare_envelope_fields & [= <-]).
  split; [done|]. unfold grafted. split_and!; [done|done|done| | |]; simpl.
  - rewrite Hp. by repeat case_if.
  - rewrite Hs. by repeat case_if.
  - rewrite Hr. destruct (String.eqb (e_id envelope) ""); case_ltb; bool_hyps; simpl in *; lia.
Qed.

Lemma graft_nodes_Ok g rev names nodes ses :
  graft_nodes sha256 g rev names nodes = Ok ses →
  Forall2 (grafted g) nodes ses ∧ NoDup (dn_name <$> nodes) ∧ (∀ n, n ∈ nodes → dn_name n ∉ names).
Proof.
  revert names ses. induction nodes as [|n nodes IH]; intros names ses; cbn [graft_nodes].
  { intros [= <-]. split_and!; [constructor|constructor|set_solver]. }
  intros (se & [Hn Hse]%graft_node_Ok & H)%bind_Ok.
  apply bind_Ok in H as (rest & (Hr & Hnd & Hf)%IH & [= <-]).
  split_and!; [by constructor| |].
  - csimpl. constructor; [|done]. intros (m & Hm & Hin)%list_elem_of_fmap.
    apply (Hf m Hin). rewrite Hm. left.
  - intros m [->|Hm]%elem_of_cons; [done|]. specialize (Hf m Hm). set_solver.
Qed.

Lemma grafted_pairs g nodes ses : Forall2 (grafted g) nodes ses → spec_pairs ses.*1 = draft_pairs nodes.
Proof.
  induction 1 as [|n [s e] nodes ses (_ & _ & Hs & _) _ IH]; [done|].
  cbn [spec_pairs draft_pairs fmap list_fmap]. fold (spec_pairs ses.*1) (draft_pairs nodes).
  rewrite IH. simpl in Hs. by subst s.
Qed.
End graft.

(** ** Properties *)

(** C25.  [validate_graph] accepts exactly the workflows of at most 999 nodes with
    distinct non-empty names of at most 128 bytes, well-formed kinds, known and
    unrepeated dependencies, at most 10000 edges and no dependency cycle, whatever order
    the in-degree map is iterated in. *)
Theorem validate_graph_exact (cel_compiles : string → bool) (ord : list string)
    (nodes : list DraftNode) :
  ord ≡ₚ dn_name <$> nodes →
  validate_graph cel_compiles ord nodes = Ok tt ↔
  Z.of_nat (length nodes) ≤ 999
  ∧ Forall (λ n, dn_name n ≠ "" ∧ str_len (dn_name n) ≤ 128 ∧ draft_kind_ok cel_compiles n) nodes
  ∧ NoDup (dn_name <$> nodes)
  ∧ (∀ n, n ∈ nodes → NoDup (dn_deps n) ∧ dn_deps n ⊆ dn_name <$> nodes)
  ∧ Z.of_nat (length (edges_of (draft_pairs nodes))) ≤ 10000
  ∧ acyclic (edges_of (draft_pairs nodes)).
Proof.
  intros Hord. rewrite validate_graph_iff by done.
  change MAX_WORKFLOW_NODES with 999. fold (draft_ok cel_compiles).
  split.
  - intros (? & ? & [Hnd Hd He Ha]). rewrite draft_pairs_names in Hnd, Hd. split_and!; try done.
    intros n Hn. apply (Hd (dn_name n)), elem_of_draft_pairs. eauto.
  - intros (? & ? & Hnd & Hd & He & Ha). split_and!; [done|done|]. split; [by rewrite draft_pairs_names| |done|done].
    intros n deps (x & [= -> ->] & Hx)%elem_of_draft_pairs. rewrite draft_pairs_names. by apply Hd.
Qed.

Definition demo_nodes : list DraftNode :=
  [mkDraftNode "fetch" (DraftNodeKind.Task default_envelope) [];
   mkDraftNode "wait" (DraftNodeKind.TimerAfter 5) ["fetch"];
   mkDraftNode "join" (DraftNodeKind.Signal "go") ["fetch"; "wait"]].

Lemma validate_graph_exact_witness :
  acyclic (edges_of (draft_pairs demo_nodes))
  ∧ validate_graph (λ _, true) ["join"; "wait"; "fetch"] demo_nodes = Ok tt.
Proof.
  split; [|vm_compute; reflexivity].
  apply (validate_graph_exact (λ _, true) ["fetch"; "wait"; "join"]); [reflexivity|].
  vm_compute; reflexivity.
Defined.

(** Every workflow built with the public builder whose [prepare] succeeds, and whose
    job ids fit the identifier limit the store enforces, yields a batch that starts with
    its coordinator: the coordinator's payload encodes a task that [validate_coordinator]
    accepts (under any iteration order), that lists the same nodes and dependencies, and
    whose job ids are those of the children, in order; every child is pending and
    unscheduled, except absolute timers, which are scheduled at their wake time. *)
Theorem prepared_workflow_accepted (cel_compiles : string → bool)
    (encode : WorkflowTask → result bytes string) (sha256 : bytes → bytes)
    (ord ord' : list string) (w : Workflow) (batch : list Envelope) :
  built w → ord ≡ₚ dn_name <$> wf_nodes w → ord' ≡ₚ dn_name <$> wf_nodes w →
  workflow_prepare cel_compiles encode sha256 ord w = Ok batch →
  Forall (λ e, str_len (e_id e) ≤ MAX_JOB_IDENTIFIER_LEN) batch →
  ∃ task coordinator children, batch = coordinator :: children
    ∧ encode (CoordinatorPayload task) = Ok (e_payload coordinator)
    ∧ validate_coordinator cel_compiles ord' task = Ok tt
    ∧ spec_pairs (ct_nodes task) = draft_pairs (wf_nodes w)
    ∧ n_job_id <$> ct_nodes task = e_id <$> children
    ∧ Forall2 (λ n e, (e_pending e, e_scheduled_at_ms e)
        = match absolute_timer n with Some t => (false, t) | None => (true, 0) end)
        (wf_nodes w) children.
Proof.
  intros [_ Hdel Hpol]%built_ok Hord Hord' Hprep Hids.
  apply workflow_prepare_Ok in Hprep as (Hid & Hne & Hv & ses & c & Hc & -> & _ & Henc).
  apply validate_graph_iff in Hv as (Hlen & Hok & Hdag); [|done].
  apply Forall_cons in Hids as [_ Hids]. pose proof (Forall2_length _ _ _ Hc) as Hl.
  pose proof (child_of_pairs w _ _ Hc) as Hpairs.
  eexists _, c, ses.*2. split_and!; [done|exact Henc| |done|by eapply child_of_ids|].
  - apply validate_coordinator_iff; simpl.
    { by rewrite <-spec_pairs_names, Hpairs, draft_pairs_names. }
    split_and!; [done| | | | |by rewrite Hpairs].
    + intros E%fmap_nil_inv. subst ses. by apply Forall2_nil_inv_r in Hc.
    + by rewrite length_fmap, <-Hl.
    + unfold retry_policy_ok. simpl. destruct (wf_retry_policy w) as [p|] eqn:Ep; [|done]. by apply Hpol.
    + by eapply child_of_specs_ok.
  - rewrite Forall2_fmap_r. eapply Forall2_impl; [exact Hc|]. intros n se (_ & _ & _ & ?). done.
Qed.

Definition demo_encode (t : WorkflowTask) : result bytes string := Ok (task_type t).
Definition demo_task : Envelope := default_envelope <| e_kind := "demo:task" |>.
Definition demo_workflow : Workflow :=
  add_signal "join" "go" ["fetch"] (add "fetch" demo_task [] (workflow_new "wf")).

Lemma prepared_workflow_accepted_witness :
  ∃ batch task, workflow_prepare (λ _, true) demo_encode id ["fetch"; "join"] demo_workflow = Ok batch
    ∧ validate_coordinator (λ _, true) ["join"; "fetch"] task = Ok tt
    ∧ n_job_id <$> ct_nodes task = ["wf:fetch"; "wf:join"].
Proof.
  eexists.
  edestruct (prepared_workflow_accepted (λ _, true) demo_encode id ["fetch"; "join"] ["join"; "fetch"]
    demo_workflow) as (task & c & children & Hb & _ & Hv & _ & Hids & _).
  - apply built_add_signal, built_add, built_new.
  - reflexivity.
  - apply Permutation_swap.
  - vm_compute; reflexivity.
  - repeat constructor; vm_compute; discriminate.
  - exists task. split; [vm_compute; reflexivity|]. split; [exact Hv|].
    injection Hb as <- <-. rewrite Hids. reflexivity.
Defined.

(** [prepare_bundle] succeeds exactly when the bundle is non-empty, its ids are
    distinct and non-empty, every child link names a member, the cross-workflow child
    graph has no cycle, every member prepares on its own and the total is at most 1000
    jobs; the batch is then the members' batches in order. *)
Theorem prepare_bundle_exact (cel_compiles : string → bool)
    (encode : WorkflowTask → result bytes string) (sha256 : bytes → bytes)
    (ord : list string) (ords : string → list string) (ws : list Workflow) (batch : list Envelope) :
  ord ≡ₚ wf_id <$> ws →
  prepare_bundle cel_compiles encode sha256 ord ords ws = Ok batch ↔
  ws ≠ [] ∧ NoDup (wf_id <$> ws) ∧ "" ∉ wf_id <$> ws
  ∧ (∀ a b, links_to ws a b → b ∈ wf_id <$> ws) ∧ (∀ a, ¬ tc (links_to ws) a a)
  ∧ Z.of_nat (length batch) ≤ 1000
  ∧ ∃ parts, batch = concat parts
    ∧ Forall2 (λ w, λ part, workflow_prepare cel_compiles encode sha256 (ords (wf_id w)) w = Ok part)
        ws parts.
Proof.
  intros Hord. rewrite prepare_bundle_iff by done.
  assert ((∀ w, w ∈ ws → links w ⊆ wf_id <$> ws) ↔ ∀ a b, links_to ws a b → b ∈ wf_id <$> ws) as ->.
  { split.
    - intros H a b (w & n & Hw & _ & Hn & Hk). apply (H w Hw), elem_of_links. eauto.
    - intros H w Hw c (n & Hn & Hk)%elem_of_links. apply (H (wf_id w)). by exists w, n. }
  assert (acyclic (bundle_edges ws) ↔ ∀ a, ¬ tc (links_to ws) a a) as ->.
  { unfold acyclic. split; intros H a Ht; apply (H a); revert Ht; apply (tc_congruence id);
      intros x y; by rewrite depends_bundle. }
  unfold prepared. naive_solver.
Qed.

Lemma prepare_bundle_exact_witness :
  let parent := add_child "sub" "child" [] (workflow_new "parent") in
  let child := add "fetch" demo_task [] (workflow_new "child") in
  (∀ a, ¬ tc (links_to [parent; child]) a a)
  ∧ is_ok (prepare_bundle (λ _, true) demo_encode id ["child"; "parent"] (λ _, ["sub"]) [parent; child])
    = is_ok (prepare_bundle (λ _, true) demo_encode id ["parent"; "child"] (λ _, ["sub"]) [parent; child]).
Proof.
  intros parent child.
  edestruct (prepare_bundle_exact (λ _, true) demo_encode id ["parent"; "child"]
    (λ id, if String.eqb id "parent" then ["sub"] else ["fetch"]) [parent; child]) as [H _].
  { reflexivity. }
  split; [|vm_compute; reflexivity].
  apply H. vm_compute; reflexivity.
Defined.

(** A successfully prepared graft is one pending receipt, whose id is the receipt id
    of the next revision (which does not overflow), followed by one pending, unscheduled
    task per node, retained at least as long as the graft; node names are distinct, no
    node depends on itself or repeats a dependency, and the dependencies among the grafted
    nodes form no cycle. *)
Theorem graft_prepare_sound (encode : WorkflowTask → result bytes string) (sha256 : bytes → bytes)
    (ord : list string) (g : WorkflowGraft) (batch : list Envelope) :
  ord ≡ₚ dn_name <$> gr_nodes g →
  graft_prepare encode sha256 ord g = Ok batch →
  ∃ receipt ses, batch = receipt :: ses.*2
    ∧ e_id receipt = graft_receipt_id (gr_workflow_id g) (gr_expected_revision g + 1)
    ∧ gr_expected_revision g < u64_max ∧ e_pending receipt = true
    ∧ encode (GraftPayload (gr_workflow_id g) (gr_expected_revision g) ses.*1) = Ok (e_payload receipt)
    ∧ Forall2 (grafted g) (gr_nodes g) ses
    ∧ NoDup (dn_name <$> gr_nodes g)
    ∧ (∀ n, n ∈ gr_nodes g → NoDup (dn_deps n) ∧ dn_name n ∉ dn_deps n)
    ∧ acyclic (edges_of (internal_pairs (draft_pairs (gr_nodes g)))).
Proof.
  intros Hord. unfold graft_prepare. intros [_ [_ [_ H]%err_if_Ok]%err_if_Ok]%err_if_Ok.
  unfold u64_checked_add in H. case_if_in H; [|done]. bool_hyps.
  apply bind_Ok in H as (ses & (Hses & Hnd & _)%graft_nodes_Ok & H).
  apply bind_Ok in H as ([] & Hv & H).
  apply bind_Ok in H as (e & [Henc _]%task_envelope_payload & H).
  apply bind_Ok in H as (c & (Hid & Hp & _ & _ & Hpay & _)%prepare_envelope_fields & [= <-]).
  pose proof (grafted_pairs g _ _ Hses) as Hpairs.
  apply validate_graft_nodes_sound in Hv as (Hr & _ & Ha);
    [|by rewrite <-spec_pairs_names, Hpairs, draft_pairs_names..].
  exists c, ses. split_and!; [done|done|lia|done|by rewrite Hpay|done|done| |by rewrite <-Hpairs].
  intros n Hn. assert ((dn_name n, dn_deps n) ∈ spec_pairs ses.*1) as (x & [= -> ->] & Hx)%elem_of_spec_pairs.
  { rewrite Hpairs. apply elem_of_draft_pairs. eauto. }
  by apply Hr.
Qed.

Lemma graft_prepare_sound_witness :
  let g := graft_add "b" demo_task ["a"] (graft_add "a" demo_task ["fetch"] (graft_new "wf" 3)) in
  ∃ batch receipt children,
    graft_prepare demo_encode id ["a"; "b"] g = Ok batch ∧ batch = receipt :: children
    ∧ e_id receipt = "wf:graft:4" ∧ acyclic (edges_of (internal_pairs (draft_pairs (gr_nodes g)))).
Proof.
  intros g.
  edestruct (graft_prepare_sound demo_encode id ["a"; "b"] g)
    as (receipt & ses & Hb & Hid & _ & _ & _ & _ & _ & _ & Ha).
  - reflexivity.
  - vm_compute; reflexivity.
  - eexists _, _, _. split; [vm_compute; reflexivity|]. split; [exact Hb|]. split; [|exact Ha].
    rewrite Hid. vm_compute; reflexivity.
Defined.
