(* ===== verification/Core.v ===== *)
(** * headgate-core: trace context, capabilities and policy data

    Models the pure part of [crates/headgate-core/src/lib.rs] that is not the envelope
    ([Envelope.v]) nor the transition table ([Lifecycle.v]): W3C trace context, store
    capabilities, the job summary of the inspection port, noisy-neighbour detection,
    policy validation and the admission explanation handed to operators. *)

From S2P Require Import Prelude Shared Envelope.
Local Open Scope Z_scope.

(** ** Trace context *)

Definition TRACEPARENT : string := "traceparent".
Definition TRACESTATE : string := "tracestate".

Record TraceContext := mkTraceContext {
  trace_id : string;
  span_id : string;
  trace_flags : Z;
  trace_state : string;
}.

Definition sampled (tc : TraceContext) : bool := negb (Z.land (trace_flags tc) 1 =? 0).

Definition to_traceparent (tc : TraceContext) : string :=
  ("00-" +:+ trace_id tc +:+ "-" +:+ span_id tc +:+ "-" +:+ hex2 (trace_flags tc))%stdpp.

Definition is_hex_byte (c : ascii) : bool :=
  is_ascii_digit c || ((97 <=? byte_val c) && (byte_val c <=? 102)).

Definition is_lower_hex (s : string) (len : nat) : bool :=
  (String.length s =? len)%nat && str_forall is_hex_byte s.

(** [value.split('-')]: always at least one part. *)
Fixpoint split_dash (s : string) : list string :=
  match s with
  | EmptyString => [EmptyString]
  | String c s =>
      match split_dash s with
      | part :: parts =>
          if Ascii.eqb c "-" then EmptyString :: part :: parts else String c part :: parts
      | [] => [str1 c]
      end
  end.

Definition all_zero (s : string) : bool := str_forall (Ascii.eqb "0") s.

(** [u8::from_str_radix(flags, 16).ok()] on a two-digit value. *)
Definition parse_hex2 (s : string) : option Z :=
  match s with
  | String a (String b EmptyString) =>
      match hex_val a, hex_val b with Some x, Some y => Some (16 * x + y) | _, _ => None end
  | _ => None
  end.

Definition parse_traceparent (value : string) : option TraceContext :=
  match split_dash value with
  | [version; tid; sid; flags] =>
      if negb (String.eqb version "00") || negb (is_lower_hex tid 32)
         || negb (is_lower_hex sid 16) || negb (is_lower_hex flags 2) then None
      else if all_zero tid || all_zero sid then None
      else f ← parse_hex2 flags; Some (mkTraceContext tid sid f "")
  | _ => None
  end.

(** The dispatch-time read of an envelope's headers. *)
Definition trace_context (headers : gmap string string) : option TraceContext :=
  h ← headers !! TRACEPARENT;
  tc ← parse_traceparent h;
  Some (mkTraceContext (trace_id tc) (span_id tc) (trace_flags tc)
          (default "" (headers !! TRACESTATE))).

(** ** Capabilities *)

Definition Caps := Z.
Definition TRANSACTIONAL : Caps := 1.
Definition NOTIFYING : Caps := 2.
Definition INSPECT : Caps := 4.
Definition has (self c : Caps) : bool := negb (Z.land self c =? 0).

(** What a store advertises and which upcasts it provides. *)
Record StorePorts := mkPorts {
  caps : Caps;
  as_transactional : bool;
  as_notifying : bool;
  as_inspect : bool;
}.

Definition capability_checks (s : StorePorts) : list (string * (bool * bool)) :=
  [("transactional", (has (caps s) TRANSACTIONAL, as_transactional s));
   ("notifying", (has (caps s) NOTIFYING, as_notifying s));
   ("inspect", (has (caps s) INSPECT, as_inspect s))].

Definition show_bool (b : bool) : string := if b then "true" else "false".

Fixpoint check_capabilities (l : list (string * (bool * bool)))
    : result unit StoreError.StoreError :=
  match l with
  | [] => Ok tt
  | (name, (advertised, available)) :: l =>
      if negb (Bool.eqb advertised available)
      then Err (StoreError.Invalid ("store capability `" +:+ name +:+ "` is advertised="
                  +:+ show_bool advertised +:+ " but available=" +:+ show_bool available)%stdpp)
      else check_capabilities l
  end.

Definition validate_store_capabilities (s : StorePorts) : result unit StoreError.StoreError :=
  check_capabilities (capability_checks s).

(** ** Inspection data *)

Record JobSummary := mkJobSummary {
  js_id : string;
  js_kind : string;
  js_queue : string;
  js_state : string;
  js_schema_version : Z;
  js_priority : Z;
  js_attempt : Z;
  js_crash_attempt : Z;
  js_max_attempts : Z;
  js_partition_key : string;
  js_rate_class : string;
  js_sticky_worker : string;
  js_weight : Z;
  js_fingerprint : string;
  js_enqueued_at_ms : Z;
  js_scheduled_at_ms : Z;
  js_claimed_at_ms : option Z;
  js_periodic_schedule_id : string;
  js_periodic_tick_ms : Z;
  js_finalized_at_ms : option Z;
  js_payload : option bytes;
  js_headers : gmap string string;
  js_errors_json : string;
  js_tags : list string;
}.

Definition is_orphaned (j : JobSummary) : bool := 0 <? js_crash_attempt j.

(** A partition is noisy when it holds at least two jobs and more than twice its peers'
    mean.  The products fit [u128], so they are exact. *)
Definition others_load (loads : list (string * Z)) (i : nat) : Z :=
  foldr Z.add 0 (imap (λ j l, if (j =? i)%nat then 0 else Z.max (snd l) 0) loads).

Definition is_noisy (loads : list (string * Z)) (i : nat) (n : Z) : bool :=
  negb (n <? 2) && (2 * others_load loads i <? n * (Z.of_nat (length loads) - 1)).

Definition noisy_partition_keys (loads : list (string * Z)) : gset string :=
  if (length loads <? 2)%nat then ∅
  else list_to_set (omap id (imap (λ i l,
    if is_noisy loads i (Z.max (snd l) 0) then Some (fst l) else None) loads)).

(** ** Policy configuration *)

Record RateClassConfig := mkRateClassConfig {
  rcc_name : string;
  rcc_limit : Z;
  rcc_window_ms : Z;
  rcc_burst : Z;
  rcc_paused : bool;
}.

Definition validate_rate_class_config (cfg : RateClassConfig) : result unit StoreError.StoreError :=
  reject_if rcc_window_ms cfg <? 1 with "window_ms must be >= 1" in
  reject_if (rcc_limit cfg <? 0) || (rcc_burst cfg <? 1) with "limit must be >= 0 and burst >= 1" in
  Ok tt.

Module SaturationStrategy.
Inductive SaturationStrategy := Queue | Discard | CancelRunning | CancelIncoming.

Definition as_str (s : SaturationStrategy) : string :=
  match s with
  | Queue => "queue"
  | Discard => "discard"
  | CancelRunning => "cancel_running"
  | CancelIncoming => "cancel_incoming"
  end.

Definition try_from (value : string) : result SaturationStrategy StoreError.StoreError :=
  if String.eqb value "queue" then Ok Queue
  else if String.eqb value "discard" then Ok Discard
  else if String.eqb value "cancel_running" then Ok CancelRunning
  else if String.eqb value "cancel_incoming" then Ok CancelIncoming
  else Err (StoreError.Invalid ("unknown saturation strategy `" +:+ value +:+ "`")%stdpp).
End SaturationStrategy.

Record ConcurrencyLimitConfig := mkConcurrencyLimit {
  cl_name : string;
  cl_queue : string;
  cl_max_concurrent : Z;
  cl_on_saturated : SaturationStrategy.SaturationStrategy;
}.

Definition validate_concurrency_limit (cfg : ConcurrencyLimitConfig)
    : result Z StoreError.StoreError :=
  reject_if String.eqb (cl_name cfg) "" || String.eqb (cl_queue cfg) ""
    with "name and queue must not be empty" in
  reject_if cl_max_concurrent cfg =? 0 with "max_concurrent must be >= 1" in
  reject_if i64_max <? cl_max_concurrent cfg with "max_concurrent is too large" in
  Ok (cl_max_concurrent cfg).

Definition SCHEDULE_EVENT_LIMIT : Z := 100.
Definition DURABLE_EVENT_LIMIT : Z := 100.

Definition validate_schedule_event_limit (limit : Z) : result unit StoreError.StoreError :=
  if (limit =? 0) || (SCHEDULE_EVENT_LIMIT <? limit)
  then Err (StoreError.Invalid "schedule event limit must be between 1 and 100") else Ok tt.

Definition validate_durable_event_limit (limit : Z) : result unit StoreError.StoreError :=
  reject_if (limit =? 0) || (DURABLE_EVENT_LIMIT <? limit)
    with "durable event limit must be between 1 and 100" in
  Ok tt.

(** ** The operator-facing admission explanation *)

Module BlockedBy.
Inductive BlockedBy := RateClass | ConcurrencyLimit | Fairness | Quarantine | Schedule | QueuePaused.

Definition as_str (b : BlockedBy) : string :=
  match b with
  | RateClass => "rate_class"
  | ConcurrencyLimit => "concurrency_limit"
  | Fairness => "fairness"
  | Quarantine => "quarantine"
  | Schedule => "schedule"
  | QueuePaused => "queue_paused"
  end.
End BlockedBy.

Record AdmissionExplain := mkExplain {
  ae_state : string;
  ae_admissible : bool;
  ae_blocked_by : option BlockedBy.BlockedBy;
  ae_detail : list (string * string);
  ae_estimated_admission_ms : option Z;
}.

(** The [match] of [evaluate_admission]; [None] is its [unreachable!]. *)
Definition blocked_of_str (s : string) : option BlockedBy.BlockedBy :=
  if String.eqb s "rate_class" then Some BlockedBy.RateClass
  else if String.eqb s "concurrency_limit" then Some BlockedBy.ConcurrencyLimit
  else if String.eqb s "fairness" then Some BlockedBy.Fairness
  else if String.eqb s "quarantine" then Some BlockedBy.Quarantine
  else if String.eqb s "schedule" then Some BlockedBy.Schedule
  else if String.eqb s "queue_paused" then Some BlockedBy.QueuePaused
  else None.

(** [None] is a panic. *)
Definition explain_admission (f : AdmissionFacts) : option AdmissionExplain :=
  let e := evaluate_admission f in
  match blocked_by e with
  | Some s =>
      b ← blocked_of_str s;
      Some (mkExplain (f_state f) (admissible e) (Some b) (detail e) (estimated_admission_ms e))
  | None => Some (mkExplain (f_state f) (admissible e) None (detail e) (estimated_admission_ms e))
  end.

(** ** Schedules and bulk requests *)

Module ScheduleEventOutcome.
Inductive ScheduleEventOutcome := Enqueued | Deduplicated | Failed | Skipped.

Definition as_str (o : ScheduleEventOutcome) : string :=
  match o with
  | Enqueued => "enqueued"
  | Deduplicated => "deduplicated"
  | Failed => "failed"
  | Skipped => "skipped"
  end.

Definition parse (value : string) : option ScheduleEventOutcome :=
  if String.eqb value "enqueued" then Some Enqueued
  else if String.eqb value "deduplicated" then Some Deduplicated
  else if String.eqb value "failed" then Some Failed
  else if String.eqb value "skipped" then Some Skipped
  else None.
End ScheduleEventOutcome.

Record BulkRequest := mkBulkRequest {
  br_id : string;
  br_action : string;
  br_queue : option string;
  br_state : option string;
  br_kind : option string;
  br_partition_key : option string;
  br_older_than_ms : option Z;
  br_dry_run : bool;
}.

Definition is_some {A} (o : option A) : bool := match o with Some _ => true | None => false end.

Definition has_selector (r : BulkRequest) : bool :=
  is_some (br_queue r) || is_some (br_state r) || is_some (br_kind r)
  || is_some (br_partition_key r) || is_some (br_older_than_ms r).

(** ** Lemmas: trace context *)

Definition no_dash (s : string) : Prop := str_forall (λ c, negb (Ascii.eqb c "-")) s = true.

Lemma split_dash_no_dash s : no_dash s → split_dash s = [s].
Proof.
  unfold no_dash. induction s as [|c s IH]; [done|]. cbn [str_forall split_dash].
  intros [Hc%negb_true_iff Hs]%andb_true_iff. by rewrite IH, Hc.
Qed.

Lemma split_dash_app s t : no_dash s → split_dash (s +:+ "-" +:+ t)%stdpp = s :: split_dash t.
Proof.
  unfold no_dash. induction s as [|c s IH]; cbn [str_forall].
  - intros _. change ("" +:+ "-" +:+ t)%stdpp with (String "-" t). cbn [split_dash].
    destruct (split_dash t) eqn:E; [|done]. destruct t as [|c t]; [done|]. simpl in E.
    destruct (split_dash t); [done|]. by destruct (Ascii.eqb c "-").
  - intros [Hc%negb_true_iff Hs]%andb_true_iff.
    change (String c s +:+ "-" +:+ t)%stdpp with (String c (s +:+ "-" +:+ t)%stdpp).
    cbn [split_dash]. by rewrite IH, Hc.
Qed.

(** [join '-' (split '-' s) = s]. *)
Fixpoint join_dash (l : list string) : string :=
  match l with
  | [] => ""
  | [s] => s
  | s :: l => (s +:+ "-" +:+ join_dash l)%stdpp
  end.

Lemma join_split_dash s : join_dash (split_dash s) = s.
Proof.
  induction s as [|c s IH]; [done|]. cbn [split_dash].
  destruct (split_dash s) as [|part parts] eqn:E; [by rewrite <-IH|].
  destruct (Ascii.eqb_spec c "-") as [->|Hc].
  - change (join_dash ("" :: part :: parts)) with (String "-" (join_dash (part :: parts))). by rewrite IH.
  - rewrite <-IH. by destruct parts.
Qed.

Lemma is_hex_byte_val c : is_hex_byte c = true ↔ is_Some (hex_val c).
Proof.
  unfold is_hex_byte, hex_val. destruct (is_ascii_digit c); simpl; [by eauto|].
  destruct ((97 <=? byte_val c) && (byte_val c <=? 102)); split; intros H; [by eauto|done|done|by destruct H].
Qed.

Lemma hex_no_dash s : str_forall is_hex_byte s = true → no_dash s.
Proof.
  unfold no_dash. induction s as [|c s IH]; [done|]. cbn [str_forall].
  intros [Hc Hs]%andb_true_iff. rewrite IH by done.
  by destruct c as [[] [] [] [] [] [] [] []].
Qed.

Lemma hex_digit_hex n : 0 ≤ n < 16 → is_hex_byte (hex_digit n) = true.
Proof. intros Hn. apply is_hex_byte_val. rewrite hex_val_digit by done. eauto. Qed.

Lemma parse_hex2_spec s f :
  is_lower_hex s 2 = true → parse_hex2 s = Some f ↔ 0 ≤ f < 256 ∧ s = hex2 f.
Proof.
  unfold is_lower_hex. intros [Hl%Nat.eqb_eq Hs]%andb_true_iff.
  destruct s as [|a [|b [|c s]]]; try done. cbn [str_forall] in Hs. bool_hyps.
  destruct (proj1 (is_hex_byte_val a)) as [x Hx]; [done|].
  destruct (proj1 (is_hex_byte_val b)) as [y Hy]; [done|].
  simpl. rewrite Hx, Hy. apply hex_digit_val in Hx as [Hx <-], Hy as [Hy <-].
  unfold hex2, str1. split.
  - intros [= <-]. split; [lia|].
    replace ((16 * x + y) / 16) with x by div_lia. by replace ((16 * x + y) mod 16) with y by div_lia.
  - intros [Hf [= Ea Eb]]. apply (f_equal hex_val) in Ea, Eb.
    rewrite !hex_val_digit in Ea by div_lia. rewrite !hex_val_digit in Eb by div_lia.
    simplify_eq. f_equal. div_lia.
Qed.

(** The trace contexts W3C allows. *)
Record trace_ok (tc : TraceContext) : Prop := {
  tr_trace : is_lower_hex (trace_id tc) 32 = true;
  tr_trace_nonzero : all_zero (trace_id tc) = false;
  tr_span : is_lower_hex (span_id tc) 16 = true;
  tr_span_nonzero : all_zero (span_id tc) = false;
  tr_flags : 0 ≤ trace_flags tc < 256;
}.

Lemma lower_hex_no_dash s n : is_lower_hex s n = true → no_dash s.
Proof. unfold is_lower_hex. intros [_ H]%andb_true_iff. by apply hex_no_dash. Qed.

Lemma hex2_lower_hex f : 0 ≤ f < 256 → is_lower_hex (hex2 f) 2 = true.
Proof.
  intros Hf. unfold is_lower_hex, hex2, str1. simpl.
  rewrite !hex_digit_hex by div_lia. done.
Qed.

Lemma split_to_traceparent tc : trace_ok tc →
  split_dash (to_traceparent tc) = ["00"; trace_id tc; span_id tc; hex2 (trace_flags tc)].
Proof.
  intros []. unfold to_traceparent.
  set (rest := (trace_id tc +:+ _)%stdpp).
  change ("00-" +:+ rest)%stdpp with ("00" +:+ "-" +:+ rest)%stdpp. subst rest.
  rewrite !split_dash_app by (done || by eapply lower_hex_no_dash).
  rewrite split_dash_no_dash; [done|]. eapply lower_hex_no_dash, hex2_lower_hex; done.
Qed.

Lemma parse_traceparent_spec v tc :
  parse_traceparent v = Some tc ↔ trace_ok tc ∧ trace_state tc = "" ∧ v = to_traceparent tc.
Proof.
  split.
  - unfold parse_traceparent. intros H. pose proof (join_split_dash v) as Hj.
    destruct (split_dash v) as [|ver [|tid [|sid [|fl [|]]]]]; try done.
    case_if_in H; [done|]. case_if_in H; [done|]. bool_hyps.
    destruct (parse_hex2 fl) as [f|] eqn:Ef; [|done]. injection H as <-.
    apply parse_hex2_spec in Ef as [Hf ->]; [|done]. split; [by split|]. split; [done|]. by rewrite <-Hj; subst.
  - intros (Hok & Hs & ->). unfold parse_traceparent. rewrite split_to_traceparent by done.
    destruct Hok. rewrite tr_trace0, tr_span0, hex2_lower_hex by done.
    rewrite tr_trace_nonzero0, tr_span_nonzero0. change (String.eqb "00" "00") with true. cbn [negb orb].
    rewrite (proj2 (parse_hex2_spec (hex2 (trace_flags tc)) (trace_flags tc) (hex2_lower_hex _ tr_flags0)))
      by done.
    destruct tc; simpl in *. by subst.
Qed.

(** ** Lemmas: noisy partitions *)

Definition total_load (loads : list (string * Z)) : Z := foldr Z.add 0 ((λ l, Z.max (snd l) 0) <$> loads).

Lemma imap_others (f : string * Z → Z) (loads : list (string * Z)) k i l :
  loads !! i = Some l →
  foldr Z.add 0 (imap (λ j l, if (k + j =? k + i)%nat then 0 else f l) loads) + f l
  = foldr Z.add 0 (f <$> loads).
Proof.
  revert k i. induction loads as [|a loads IH]; intros k [|i] H; simplify_eq/=.
  - rewrite Nat.eqb_refl.
    assert (imap ((λ j l, if (k + j =? k + 0)%nat then 0 else f l) ∘ S) loads = f <$> loads) as ->; [|lia].
    rewrite <-(imap_const f). apply imap_ext. intros j x _. simpl.
    destruct (Nat.eqb_spec (k + S j) (k + 0)); [lia|done].
  - specialize (IH (S k) i H). destruct (Nat.eqb_spec (k + 0) (k + S i)); [lia|].
    rewrite (imap_ext _ (λ j l, if (S k + j =? S k + i)%nat then 0 else f l)); [lia|].
    intros j x _. simpl. by replace (k + S j)%nat with (S (k + j)) by lia; replace (k + S i)%nat with (S (k + i)) by lia.
Qed.

Lemma others_load_total loads i l :
  loads !! i = Some l → others_load loads i = total_load loads - Z.max (snd l) 0.
Proof.
  intros H. pose proof (imap_others (λ l, Z.max (snd l) 0) loads 0 i l H) as Hs. simpl in Hs.
  unfold others_load, total_load. lia.
Qed.

Lemma total_load_nonneg ls : 0 ≤ total_load ls.
Proof.
  induction ls as [|a ls IH]; [done|]. change (0 ≤ Z.max (snd a) 0 + total_load ls). lia.
Qed.

(** The loads of a part of the partitions do not exceed the total. *)
Definition heavy (c T : Z) (l : string * Z) : bool := 2 * T <? c * Z.max (snd l) 0.

Lemma heavy_count c T loads :
  0 ≤ c →
  2 * T * Z.of_nat (length (List.filter (heavy c T) loads)) ≤ c * total_load loads
  ∧ (List.filter (heavy c T) loads ≠ [] →
     2 * T * Z.of_nat (length (List.filter (heavy c T) loads)) < c * total_load loads).
Proof.
  intros Hc.
  induction loads as [|a loads [IH IH']]; cbn [List.filter]; [split; [unfold total_load; simpl; lia|done]|].
  change (total_load (a :: loads)) with (Z.max (snd a) 0 + total_load loads).
  set (L := List.filter (heavy c T) loads) in *. pose proof (total_load_nonneg loads).
  rewrite Z.mul_add_distr_l. destruct (heavy c T a) eqn:E; unfold heavy in E; bool_hyps; cbn [length].
  - rewrite Nat2Z.inj_succ, Z.mul_succ_r. split; [lia|intros _; lia].
  - assert (0 ≤ c * Z.max a.2 0) by (apply Z.mul_nonneg_nonneg; lia).
    split; [lia|]. intros Hne. specialize (IH' Hne). lia.
Qed.

Lemma omap_imap_length {A B} (g : nat → A → option B) (h : A → bool) l :
  (∀ i x, l !! i = Some x → is_Some (g i x) → h x = true) →
  (length (omap id (imap g l)) ≤ length (List.filter h l))%nat.
Proof.
  revert g. induction l as [|x l IH]; intros g Hg; [done|].
  assert (length (omap id (imap (g ∘ S) l)) ≤ length (List.filter h l))%nat as Hl.
  { apply IH. intros i y Hi Hs. by apply (Hg (S i)). }
  change (imap g (x :: l)) with (g 0%nat x :: imap (g ∘ S) l). cbn [List.filter]. csimpl.
  destruct (g 0%nat x) eqn:E; cbn [id].
  - rewrite (Hg 0%nat x) by eauto. cbn [length]. lia.
  - destruct (h x); cbn [length]; lia.
Qed.

Lemma size_list_to_set_le (l : list string) : (size (list_to_set (C:=gset string) l) ≤ length l)%nat.
Proof.
  induction l as [|x l IH]; [done|]. simpl. rewrite size_union_alt, size_singleton.
  pose proof (subseteq_size (list_to_set (C:=gset string) l ∖ {[x]}) (list_to_set l) ltac:(set_solver)). lia.
Qed.

Lemma is_noisy_heavy loads i l :
  loads !! i = Some l → is_noisy loads i (Z.max (snd l) 0) = true →
  heavy (Z.of_nat (length loads) + 1) (total_load loads) l = true.
Proof.
  intros Hi [_ Hn%Z.ltb_lt]%andb_true_iff. rewrite (others_load_total _ _ _ Hi) in Hn.
  unfold heavy. apply Z.ltb_lt. lia.
Qed.

(** ** Properties *)

(** [parse_traceparent] accepts exactly the values that [to_traceparent] prints from a
    W3C-valid context (32 and 16 lower-case hexadecimal digits, not all zero, eight flag
    bits) and returns that context: the two are mutually inverse, byte for byte. *)
Theorem traceparent_round_trip (v : string) (tc : TraceContext) :
  parse_traceparent v = Some tc ↔ trace_ok tc ∧ trace_state tc = "" ∧ v = to_traceparent tc.
Proof. apply parse_traceparent_spec. Qed.

(** Noisy-neighbour detection marks at most half of the partitions, whatever their
    loads; in particular a single partition is never noisy. *)
Theorem noisy_partitions_at_most_half (loads : list (string * Z)) :
  (2 * size (noisy_partition_keys loads) ≤ length loads)%nat.
Proof.
  unfold noisy_partition_keys. destruct (length loads <? 2)%nat; [rewrite size_empty; lia|].
  set (g := λ i l, if is_noisy loads i (Z.max (snd l) 0) then Some (fst l) else None).
  set (h := heavy (Z.of_nat (length loads) + 1) (total_load loads)).
  assert (length (omap id (imap g loads)) ≤ length (List.filter h loads))%nat as Hlen.
  { apply omap_imap_length. subst g. intros i x Hi [y Hy]. simpl in Hy.
    destruct (is_noisy loads i _) eqn:E; [|done]. by eapply is_noisy_heavy. }
  assert (size (list_to_set (C:=gset string) (omap id (imap g loads)))
          ≤ length (omap id (imap g loads)))%nat as Hs by apply size_list_to_set_le.
  destruct (heavy_count (Z.of_nat (length loads) + 1) (total_load loads) loads) as [_ Hh]; [lia|].
  fold h in Hh. destruct (List.filter h loads) eqn:E; [simpl in Hlen; lia|].
  specialize (Hh ltac:(done)). set (m := length (p :: l)) in *.
  assert (2 * Z.of_nat m < Z.of_nat (length loads) + 1); [|lia].
  pose proof (total_load_nonneg loads). nia.
Qed.

(** The admission explanation is total (its [unreachable!] arm is never taken) and
    agrees with the gate: an available job is reported blocked by the first clause of the
    gate that holds it back, and admissible exactly when no clause does. *)
Theorem explain_admission_agrees (f : AdmissionFacts) :
  ∃ e, explain_admission f = Some e
    ∧ (f_state f = "available" →
       (BlockedBy.as_str <$> ae_blocked_by e) = first_blocking (gate_clauses f)
       ∧ (ae_admissible e = true ↔ first_blocking (gate_clauses f) = None))
    ∧ (f_state f ≠ "available" → ae_admissible e = bool_decide (f_state f = "running")).
Proof.
  pose proof (evaluate_admission_available f) as Ha. pose proof (evaluate_admission_other f) as Ho.
  assert (blocked_by (evaluate_admission f) = None
          ∨ ∃ b, blocked_by (evaluate_admission f) = Some (BlockedBy.as_str b)
                 ∧ blocked_of_str (BlockedBy.as_str b) = Some b) as Hb.
  { destruct (decide (f_state f = "available")) as [Hs|Hs].
    - destruct (Ha Hs) as [-> _]. unfold first_blocking, gate_clauses. simpl.
      repeat case_if; simpl; try (by left); right;
        first [by exists BlockedBy.QueuePaused|by exists BlockedBy.Schedule|by exists BlockedBy.Quarantine
                 |by exists BlockedBy.RateClass|by exists BlockedBy.ConcurrencyLimit].
    - destruct (Ho Hs) as [_ ->]. repeat case_bool_decide; try (by left); right;
        first [by exists BlockedBy.Schedule|by exists BlockedBy.Quarantine]. }
  unfold explain_admission. destruct Hb as [Hb|(b & Hb & Hs)]; rewrite Hb; [|rewrite Hs].
  all: eexists; split; [reflexivity|]; simpl; split; intros Hst.
  1, 3: destruct (Ha Hst) as [H1 H2]; split; [by rewrite <-H1, Hb|done].
  all: by destruct (Ho Hst).
Qed.
