(* ===== verification/Tick.v ===== *)
(** * headgate-workflow: the coordinator's decisions

    Models the pure functions a coordinator tick is made of
    ([crates/headgate-workflow/src/lib.rs]): the durable cursor and its bounded event
    log, completion evidence, the failed closure, CEL conditions, relative timers, and
    the decision a tick takes from one read of the node states.  [HashSet] is [gset],
    [HashMap] is [gmap]; the CEL interpreter is a parameter. *)

From S2P Require Import Prelude Shared Envelope Graph Workflow Core.
Local Open Scope Z_scope.

(** ** The cursor *)

Record WorkflowEvent := mkWorkflowEvent {
  ev_sequence : Z;
  ev_event : string;
  ev_node : option string;
  ev_revision : Z;
  ev_generation : Z;
  ev_at_ms : option Z;
}.

Record WorkflowCursor := mkWorkflowCursor {
  c_revision : Z;
  c_completed : list string;
  c_completed_at_ms : gmap string Z;
  c_grafts : list NodeSpec;
  c_pending_graft_receipt : option string;
  c_generation : Z;
  c_failed : bool;
  c_pending_retry_receipt : option string;
  c_automatic_retry_pending : bool;
  c_events : list WorkflowEvent;
}.

#[export] Instance workflow_cursor_eta : Eta WorkflowCursor := λ c,
  mkWorkflowCursor (c_revision c) (c_completed c) (c_completed_at_ms c) (c_grafts c)
    (c_pending_graft_receipt c) (c_generation c) (c_failed c) (c_pending_retry_receipt c)
    (c_automatic_retry_pending c) (c_events c).

Definition default_cursor : WorkflowCursor :=
  mkWorkflowCursor 1 [] ∅ [] None 1 false None false [].

(** [events.drain(..excess)] once more than [MAX_WORKFLOW_EVENTS] are kept. *)
Definition trim_events (events : list WorkflowEvent) : list WorkflowEvent :=
  if (MAX_WORKFLOW_EVENTS <? length events)%nat
  then drop (length events - MAX_WORKFLOW_EVENTS) events else events.

Definition next_sequence (events : list WorkflowEvent) : Z :=
  match last events with Some e => u64_saturating_add (ev_sequence e) 1 | None => 1 end.

Definition record_event (event : string) (node : option string) (at_ms : option Z)
    (c : WorkflowCursor) : result WorkflowCursor string :=
  let sequence := next_sequence (c_events c) in
  fail_if (sequence =? u64_max) && is_some (last (c_events c))
    with "workflow event sequence overflow" in
  Ok (c <| c_events := trim_events (c_events c ++
        [mkWorkflowEvent sequence event node (c_revision c) (c_generation c) at_ms]) |>).

Definition effective_workflow (base : CoordinatorTask) (c : WorkflowCursor) : CoordinatorTask :=
  mkCoordinatorTask (ct_workflow_id base) (ct_nodes base ++ c_grafts c)
    (ct_failed_subgraph_retry base) (ct_retry_policy base).

(** ** Node states *)

Abbreviation States := (gmap string (option JobSummary)) (only parsing).

(** [state.get(name).and_then(Option::as_ref)]. *)
Definition job_of (state : States) (name : string) : option JobSummary := mjoin (state !! name).

Definition is_virtual (kind : NodeType.NodeType) : bool :=
  match kind with
  | NodeType.Signal | NodeType.Timer | NodeType.Condition => true
  | NodeType.Task | NodeType.ChildWorkflow => false
  end.

Definition has_name (name : string) (l : list NodeSpec) : bool :=
  existsb (λ n, String.eqb (n_name n) name) l.

Definition completed_set (w : CoordinatorTask) (names : list string) : gset string :=
  list_to_set (filter (λ n, has_name n (ct_nodes w) = true) names).

Definition completed_names (w : CoordinatorTask) (completed : gset string) : list string :=
  n_name <$> filter (λ n, n_name n ∈ completed) (ct_nodes w).

Definition effective_state (node : NodeSpec) (job : option JobSummary) (completed : gset string)
    : option string :=
  if bool_decide (n_name node ∈ completed) then Some "completed"
  else match js_state <$> job with
       | Some s => if is_virtual (n_kind node) && String.eqb s "completed" then Some "pending" else Some s
       | None => None
       end.

Definition state_of (state : States) (completed : gset string) (node : NodeSpec) : option string :=
  effective_state node (job_of state (n_name node)) completed.

(** [None | Some("archived" | "cancelled" | "quarantined" | "undecodable")]. *)
Definition failed_state (s : option string) : bool :=
  match s with
  | None => true
  | Some s => String.eqb s "archived" || String.eqb s "cancelled" || String.eqb s "quarantined"
              || String.eqb s "undecodable"
  end.

(** [Some("pending" | "scheduled" | "available" | "retryable")]. *)
Definition deletable_state (s : option string) : bool :=
  match s with
  | None => false
  | Some s => String.eqb s "pending" || String.eqb s "scheduled" || String.eqb s "available"
              || String.eqb s "retryable"
  end.

(** ** The failed closure *)

Definition initially_failed (nodes : list NodeSpec) (state : States) (completed : gset string)
    : gset string :=
  list_to_set (n_name <$> filter (λ n, failed_state (state_of state completed n) = true) nodes).

(** One pass over the nodes, inserting as it goes. *)
Definition fail_pass (nodes : list NodeSpec) (failed : gset string) : gset string :=
  foldl (λ failed node,
    if existsb (λ dep, bool_decide (dep ∈ failed)) (n_deps node)
    then {[n_name node]} ∪ failed else failed) failed nodes.

(** [loop] until a pass inserts nothing; a pass that inserts adds a node name, so as many
    passes as nodes are enough. *)
Fixpoint fail_loop (fuel : nat) (nodes : list NodeSpec) (failed : gset string) : gset string :=
  match fuel with
  | O => failed
  | S fuel =>
      let failed' := fail_pass nodes failed in
      if (size failed' =? size failed)%nat then failed' else fail_loop fuel nodes failed'
  end.

Definition failed_set (w : CoordinatorTask) (state : States) (completed : gset string) : gset string :=
  fail_loop (S (length (ct_nodes w))) (ct_nodes w) (initially_failed (ct_nodes w) state completed).

(** ** Completion evidence *)

Record Evidence := mkEvidence {
  evd_changed : bool;
  evd_completed : gset string;
  evd_at_ms : gmap string Z;
}.

Definition job_completed (state : States) (name : string) : bool :=
  match job_of state name with Some job => String.eqb (js_state job) "completed" | None => false end.

(** The first loop: tasks and child links whose job completed. *)
Definition task_evidence (state : States) (e : Evidence) (node : NodeSpec) : Evidence :=
  match job_of state (n_name node) with
  | Some job =>
      if negb (is_virtual (n_kind node)) && String.eqb (js_state job) "completed" then
        let fresh := bool_decide (n_name node ∉ evd_completed e) in
        let completed := {[n_name node]} ∪ evd_completed e in
        match js_finalized_at_ms job with
        | Some at_ms =>
            mkEvidence
              (evd_changed e || fresh || bool_decide (evd_at_ms e !! n_name node ≠ Some at_ms))
              completed (<[n_name node := at_ms]> (evd_at_ms e))
        | None => mkEvidence (evd_changed e || fresh) completed (evd_at_ms e)
        end
      else e
  | None => e
  end.

Definition eligible (nodes : list NodeSpec) (state : States) (completed : gset string) : list string :=
  n_name <$> filter (λ n, is_virtual (n_kind n) && bool_decide (n_name n ∉ completed)
    && forallb (λ dep, bool_decide (dep ∈ completed)) (n_deps n)
    && job_completed state (n_name n) = true) nodes.

Definition stamp (state : States) (m : gmap string Z) (name : string) : gmap string Z :=
  match job_of state name ≫= js_finalized_at_ms with
  | Some at_ms => <[name := at_ms]> m
  | None => m
  end.

(** [loop] until no virtual node is eligible; each round completes at least one node. *)
Fixpoint evidence_loop (fuel : nat) (nodes : list NodeSpec) (state : States) (e : Evidence) : Evidence :=
  match fuel with
  | O => e
  | S fuel =>
      match eligible nodes state (evd_completed e) with
      | [] => e
      | names =>
          evidence_loop fuel nodes state
            (mkEvidence true (list_to_set names ∪ evd_completed e)
               (foldl (stamp state) (evd_at_ms e) names))
      end
  end.

Definition record_completion_evidence (w : CoordinatorTask) (state : States)
    (completed : gset string) (completed_at_ms : gmap string Z) : Evidence :=
  evidence_loop (S (length (ct_nodes w))) (ct_nodes w) state
    (foldl (task_evidence state) (mkEvidence false completed completed_at_ms) (ct_nodes w)).

(** ** Timers and conditions *)

Fixpoint anchor_loop (name : string) (m : gmap string Z) (deps : list string) (anchor : option Z)
    : result (option Z) string :=
  match deps with
  | [] => Ok anchor
  | dep :: deps =>
      match m !! dep with
      | None => Err ("workflow timer `" +:+ name +:+ "` has no durable completion timestamp for `"
                     +:+ dep +:+ "`")%stdpp
      | Some at_ms =>
          anchor_loop name m deps
            (Some (match anchor with Some current => Z.max current at_ms | None => at_ms end))
      end
  end.

Definition dependency_completion_anchor (node : NodeSpec) (m : gmap string Z) : result Z string :=
  let? anchor := anchor_loop (n_name node) m (n_deps node) None in
  match anchor with
  | Some a => Ok a
  | None => Err ("relative workflow timer `" +:+ n_name node +:+ "` requires at least one dependency")%stdpp
  end.

(** [cel::Value], as far as the coordinator looks at it, and the variables it binds. *)
Inductive CelValue := CelBool (b : bool) | CelOther.

Record CelContext := mkCelContext {
  cel_revision : Z;
  cel_generation : Z;
  cel_states : gmap string string;
  cel_completed : gmap string bool;
}.

(** [upstream.expect("validated dependency")]: [Err] stands for that panic. *)
Fixpoint deps_complete (nodes : list NodeSpec) (state : States) (completed : gset string)
    (deps : list string) : result bool string :=
  match deps with
  | [] => Ok true
  | dep :: deps =>
      match List.find (λ n, String.eqb (n_name n) dep) nodes with
      | None => Err "validated dependency"
      | Some upstream =>
          if bool_decide (effective_state upstream (job_of state dep) completed = Some "completed")
          then deps_complete nodes state completed deps else Ok false
      end
  end.

Definition dependencies_complete (w : CoordinatorTask) (node : NodeSpec) (state : States)
    (completed : gset string) : result bool string :=
  deps_complete (ct_nodes w) state completed (n_deps node).

Section decisions.
Context (cel_compiles : string → bool).
Context (cel_execute : string → CelContext → result CelValue string).

Definition cel_context (c : WorkflowCursor) (w : CoordinatorTask) (state : States)
    (completed : gset string) : CelContext :=
  mkCelContext (c_revision c) (c_generation c)
    (list_to_map (reverse ((λ n, (n_name n, default "missing" (state_of state completed n))) <$> ct_nodes w)))
    (list_to_map (reverse ((λ n, (n_name n, bool_decide (n_name n ∈ completed))) <$> ct_nodes w))).

Definition evaluate_condition (node : NodeSpec) (c : WorkflowCursor) (w : CoordinatorTask)
    (state : States) (completed : gset string) : result bool string :=
  match n_condition node with
  | None => Err ("workflow condition `" +:+ n_name node +:+ "` has no expression")%stdpp
  | Some expression =>
      fail_if negb (cel_compiles expression)
        with ("invalid workflow CEL condition `" +:+ n_name node +:+ "`")%stdpp in
      match cel_execute expression (cel_context c w state completed) with
      | Err _ => Err ("workflow CEL condition `" +:+ n_name node +:+ "` failed")%stdpp
      | Ok (CelBool value) => Ok value
      | Ok CelOther => Err ("workflow CEL condition `" +:+ n_name node +:+ "` must return bool")%stdpp
      end
  end.

(** ** The decision *)

(** [(job_id, delete)] pairs, or the one relative timer to schedule. *)
Inductive Decision :=
  | Mutate (mutations : list (string * bool))
  | Schedule (job_id : string) (wake_at_ms : Z).

(** [cond && dependencies_complete(..)], evaluated left to right. *)
Definition ready_if (b : bool) (w : CoordinatorTask) (node : NodeSpec) (state : States)
    (completed : gset string) : result bool string :=
  if b then dependencies_complete w node state completed else Ok false.

(** The three readiness tests of one node that is not failed. *)
Definition ready_task (w : CoordinatorTask) (node : NodeSpec) (state : States)
    (completed : gset string) : result bool string :=
  ready_if (negb (is_virtual (n_kind node))
    && bool_decide (state_of state completed node = Some "pending")) w node state completed.

Definition ready_condition (c : WorkflowCursor) (w : CoordinatorTask) (node : NodeSpec)
    (state : States) (completed : gset string) : result bool string :=
  let? ready := ready_if (bool_decide (n_kind node = NodeType.Condition)
    && bool_decide (state_of state completed node = Some "pending")) w node state completed in
  if ready then evaluate_condition node c w state completed else Ok false.

Definition ready_timer (w : CoordinatorTask) (node : NodeSpec) (state : States)
    (completed : gset string) : result bool string :=
  ready_if (bool_decide (n_kind node = NodeType.Timer) && is_some (n_delay_ms node)
    && bool_decide (state_of state completed node = Some "pending")) w node state completed.

Definition push_if (b : bool) (m : string * bool) (l : list (string * bool)) :=
  if b then l ++ [m] else l.

(** The [for] loop that collects the mutations of a tick. *)
Fixpoint plan_nodes (c : WorkflowCursor) (w : CoordinatorTask) (state : States)
    (completed failed : gset string) (nodes : list NodeSpec) (mutations : list (string * bool))
    : result Decision string :=
  match nodes with
  | [] => Ok (Mutate mutations)
  | node :: nodes =>
      if bool_decide (n_name node ∈ failed) then
        plan_nodes c w state completed failed nodes
          (push_if (negb (ct_failed_subgraph_retry w)
                    && deletable_state (state_of state completed node)) (n_job_id node, true) mutations)
      else
        let? task := ready_task w node state completed in
        let mutations := push_if task (n_job_id node, false) mutations in
        let? cond := ready_condition c w node state completed in
        let mutations := push_if cond (n_job_id node, false) mutations in
        let? timer := ready_timer w node state completed in
        if timer then
          let? anchor := dependency_completion_anchor node (c_completed_at_ms c) in
          match i64_checked_add anchor (default 0 (n_delay_ms node)) with
          | None => Err ("workflow timer `" +:+ n_name node +:+ "` deadline overflow")%stdpp
          | Some wake_at_ms => Ok (Schedule (n_job_id node) wake_at_ms)
          end
        else plan_nodes c w state completed failed nodes mutations
  end.

Definition plan (c : WorkflowCursor) (w : CoordinatorTask) (state : States)
    (completed failed : gset string) : result Decision string :=
  plan_nodes c w state completed failed (ct_nodes w) [].
End decisions.

Module Tick.
Inductive Tick := Waiting | Succeeded | Failed.
End Tick.

(** The closing loop of a tick that has nothing to change. *)
Fixpoint verdict_loop (state : States) (completed failed_nodes : gset string)
    (nodes : list NodeSpec) (failed : bool) : Tick.Tick :=
  match nodes with
  | [] => if failed then Tick.Failed else Tick.Succeeded
  | node :: nodes =>
      if bool_decide (n_name node ∈ failed_nodes)
      then verdict_loop state completed failed_nodes nodes true
      else
        let s := state_of state completed node in
        if bool_decide (s = Some "completed") then verdict_loop state completed failed_nodes nodes failed
        else if failed_state s then verdict_loop state completed failed_nodes nodes true
        else Tick.Waiting
  end.

Definition verdict (w : CoordinatorTask) (state : States) (completed failed_nodes : gset string)
    : Tick.Tick :=
  verdict_loop state completed failed_nodes (ct_nodes w) false.

(** The [node_completed] events of a tick, in node order. *)
Fixpoint record_completions (before completed : gset string) (nodes : list NodeSpec)
    (c : WorkflowCursor) : result WorkflowCursor string :=
  match nodes with
  | [] => Ok c
  | node :: nodes =>
      if bool_decide (n_name node ∉ before) && bool_decide (n_name node ∈ completed) then
        let? c := record_event "node_completed" (Some (n_name node))
                    (c_completed_at_ms c !! n_name node) c in
        record_completions before completed nodes c
      else record_completions before completed nodes c
  end.
