(* ===== verification/TickSpec.v ===== *)
(** * Correctness of a coordinator tick

    The failed set is the downstream closure of the failed nodes, completion evidence is
    the least set closed under the completion rules, the plan of a tick touches exactly the
    nodes that are ready or doomed, the verdict is exact, and a tick that neither acts nor
    ends is waiting for something outside the coordinator. *)

From S2P Require Import Prelude Shared Envelope Graph Workflow WorkflowSpec Core Tick.
Local Open Scope Z_scope.

(** ** The failed closure *)

(** [b] directly depends on [a]. *)
Definition downstream (nodes : list NodeSpec) (a b : string) : Prop :=
  ∃ n, n ∈ nodes ∧ n_name n = b ∧ a ∈ n_deps n.

Definition closed (nodes : list NodeSpec) (F : gset string) : Prop :=
  ∀ a b, downstream nodes a b → a ∈ F → b ∈ F.

Definition names_of (nodes : list NodeSpec) : gset string := list_to_set (n_name <$> nodes).

Lemma elem_of_names nodes x : x ∈ names_of nodes ↔ ∃ n, n ∈ nodes ∧ n_name n = x.
Proof.
  unfold names_of. rewrite elem_of_list_to_set, list_elem_of_fmap. naive_solver.
Qed.

Lemma size_names nodes : (size (names_of nodes) ≤ length nodes)%nat.
Proof. unfold names_of. etrans; [apply size_list_to_set_le|]. by rewrite length_fmap. Qed.

Lemma existsb_deps (F : gset string) deps :
  existsb (λ dep, bool_decide (dep ∈ F)) deps = true ↔ ∃ d, d ∈ deps ∧ d ∈ F.
Proof.
  rewrite existsb_exists. setoid_rewrite list_elem_of_In. setoid_rewrite bool_decide_eq_true. done.
Qed.

Lemma fail_pass_sub nodes F : F ⊆ fail_pass nodes F.
Proof.
  unfold fail_pass. apply (foldl_inv (λ G, F ⊆ G)); [done|].
  intros G n _ HG. destruct (existsb _ _); set_solver.
Qed.

Lemma fail_pass_names nodes F : F ⊆ names_of nodes → fail_pass nodes F ⊆ names_of nodes.
Proof.
  intros HF. unfold fail_pass. apply (foldl_inv (λ G, G ⊆ names_of nodes)); [done|].
  intros G n Hn HG. destruct (existsb _ _); [|done].
  assert (n_name n ∈ names_of nodes) by (apply elem_of_names; eauto). set_solver.
Qed.

(** A pass only adds nodes with a failed dependency. *)
Lemma fail_pass_sound nodes (P : string → Prop) F :
  (∀ a b, downstream nodes a b → P a → P b) → (∀ x, x ∈ F → P x) → ∀ x, x ∈ fail_pass nodes F → P x.
Proof.
  intros Hc HF. unfold fail_pass. apply (foldl_inv (λ G, ∀ x, x ∈ G → P x)); [done|].
  intros G n Hn HG x. destruct (existsb _ _) eqn:E; [|by apply HG].
  apply existsb_deps in E as (d & Hd & HdG).
  intros [->%elem_of_singleton|?]%elem_of_union; [|by apply HG].
  apply (Hc d); [by exists n|by apply HG].
Qed.

(** A pass that adds nothing shows the set closed. *)
Lemma fail_pass_closed nodes F : fail_pass nodes F = F → closed nodes F.
Proof.
  intros HF a b (n & Hn & <- & Ha) HaF. rewrite <-HF. unfold fail_pass.
  apply list_elem_of_split in Hn as (l1 & l2 & ->). rewrite foldl_app. simpl.
  set (G := foldl _ F l1). assert (F ⊆ G) as HG by apply (fail_pass_sub l1 F).
  rewrite (proj2 (existsb_deps G (n_deps n))) by (exists a; set_solver).
  pose proof (fail_pass_sub l2 ({[n_name n]} ∪ G)) as Hs. unfold fail_pass in Hs. set_solver.
Qed.

Lemma fail_loop_spec fuel nodes F :
  F ⊆ names_of nodes → (size (names_of nodes) < size F + fuel)%nat →
  F ⊆ fail_loop fuel nodes F ∧ closed nodes (fail_loop fuel nodes F).
Proof.
  revert F. induction fuel as [|fuel IH]; intros F HF Hf.
  { apply subseteq_size in HF. lia. }
  cbn [fail_loop]. pose proof (fail_pass_sub nodes F) as Hsub.
  destruct (Nat.eqb_spec (size (fail_pass nodes F)) (size F)) as [E|E].
  - assert (fail_pass nodes F = F) as HE by (symmetry; apply set_subseteq_size_eq; [done|lia]).
    rewrite HE. split; [done|by apply fail_pass_closed].
  - pose proof (subseteq_size _ _ Hsub). destruct (IH (fail_pass nodes F)) as [H1 H2];
      [by apply fail_pass_names|lia|]. split; [set_solver|done].
Qed.

Lemma fail_loop_sound fuel nodes (P : string → Prop) F :
  (∀ a b, downstream nodes a b → P a → P b) → (∀ x, x ∈ F → P x) →
  ∀ x, x ∈ fail_loop fuel nodes F → P x.
Proof.
  intros Hc. revert F. induction fuel as [|fuel IH]; intros F HF x; [by apply HF|].
  cbn [fail_loop]. pose proof (fail_pass_sound nodes P F Hc HF) as Hp.
  destruct (_ =? _)%nat; [by apply Hp|by apply IH].
Qed.

Definition root_failed (nodes : list NodeSpec) (state : States) (completed : gset string)
    (x : string) : Prop :=
  ∃ n, n ∈ nodes ∧ n_name n = x ∧ failed_state (state_of state completed n) = true.

Lemma elem_of_initially_failed nodes state completed x :
  x ∈ initially_failed nodes state completed ↔ root_failed nodes state completed x.
Proof.
  unfold initially_failed, root_failed. rewrite elem_of_list_to_set, list_elem_of_fmap.
  setoid_rewrite list_elem_of_filter. naive_solver.
Qed.

Lemma elem_of_failed_set w state completed x :
  x ∈ failed_set w state completed ↔
  ∃ r, root_failed (ct_nodes w) state completed r ∧ rtc (downstream (ct_nodes w)) r x.
Proof.
  unfold failed_set. set (nodes := ct_nodes w).
  setoid_rewrite <-elem_of_initially_failed.
  set (F := initially_failed nodes state completed).
  assert (F ⊆ names_of nodes) as HF.
  { intros y (n & Hn & <- & _)%elem_of_initially_failed. apply elem_of_names. eauto. }
  pose proof (size_names nodes) as Hsz.
  destruct (fail_loop_spec (S (length nodes)) nodes F HF) as [Hsub Hcl]; [lia|]. split.
  - apply (fail_loop_sound _ nodes (λ y, ∃ r, r ∈ F ∧ rtc (downstream nodes) r y)).
    + intros a b Hab (r & Hr & Hra). exists r. split; [done|]. by eapply rtc_r.
    + intros y Hy. exists y. split; [done|constructor].
  - intros (r & Hr & Hrx). apply Hsub in Hr. induction Hrx as [|a b c Hab _ IH]; [done|].
    apply IH. by eapply Hcl.
Qed.

(** ** Completion evidence *)

(** The rules of completion: what was recorded before stays; a task or child link is
    completed by its job; a signal, timer or condition by its job once all of its
    dependencies are completed. *)
Inductive done (nodes : list NodeSpec) (state : States) (before : gset string) : string → Prop :=
  | done_before x : x ∈ before → done nodes state before x
  | done_task n : n ∈ nodes → is_virtual (n_kind n) = false → job_completed state (n_name n) = true →
      done nodes state before (n_name n)
  | done_virtual n : n ∈ nodes → is_virtual (n_kind n) = true → job_completed state (n_name n) = true →
      (∀ d, d ∈ n_deps n → done nodes state before d) → done nodes state before (n_name n).

Lemma task_evidence_completed state e n :
  evd_completed (task_evidence state e n) =
  if negb (is_virtual (n_kind n)) && job_completed state (n_name n)
  then {[n_name n]} ∪ evd_completed e else evd_completed e.
Proof.
  unfold task_evidence, job_completed. destruct (job_of state (n_name n)) as [job|].
  - destruct (negb (is_virtual (n_kind n)) && _); [|done]. by destruct (js_finalized_at_ms job).
  - by destruct (negb (is_virtual (n_kind n))).
Qed.

Lemma tasks_evidence_completed state nodes e x :
  x ∈ evd_completed (foldl (task_evidence state) e nodes) ↔
  x ∈ evd_completed e ∨ ∃ n, n ∈ nodes ∧ n_name n = x ∧ is_virtual (n_kind n) = false
                          ∧ job_completed state x = true.
Proof.
  revert e. induction nodes as [|n nodes IH]; intros e; simpl.
  { split; [by left|]. intros [?|(? & ?%elem_of_nil & _)]; done. }
  rewrite IH, task_evidence_completed.
  setoid_rewrite elem_of_cons. destruct (negb (is_virtual (n_kind n)) && _) eqn:E.
  - bool_hyps. rewrite elem_of_union, elem_of_singleton. split.
    + intros [[->|?]|(m & ? & ?)]; [right; exists n; by split_and!; [left| |..]|by left|right; exists m; tauto].
    + intros [?|(m & [->|?] & <- & ?)]; [tauto|tauto|right; by exists m].
  - split.
    + intros [?|(m & ? & ?)]; [by left|right; exists m; tauto].
    + intros [?|(m & [->|?] & <- & Hv & Hj)]; [tauto| |right; by exists m].
      by rewrite Hv, Hj in E.
Qed.

Lemma elem_of_eligible nodes state completed x :
  x ∈ eligible nodes state completed ↔
  ∃ n, n ∈ nodes ∧ n_name n = x ∧ is_virtual (n_kind n) = true ∧ x ∉ completed
       ∧ (∀ d, d ∈ n_deps n → d ∈ completed) ∧ job_completed state x = true.
Proof.
  unfold eligible. rewrite list_elem_of_fmap. setoid_rewrite list_elem_of_filter.
  setoid_rewrite andb_true_iff. setoid_rewrite andb_true_iff. setoid_rewrite andb_true_iff.
  setoid_rewrite bool_decide_eq_true. setoid_rewrite forallb_forall. split.
  - intros (n & -> & (((Hv & Hx) & Hd) & Hj) & Hn). exists n. split_and!; try done.
    intros d Hin. specialize (Hd d). rewrite bool_decide_eq_true in Hd. apply Hd. by apply list_elem_of_In.
  - intros (n & Hn & <- & Hv & Hx & Hd & Hj). exists n. split_and!; try done.
    intros d Hin. apply bool_decide_eq_true, Hd. by apply list_elem_of_In.
Qed.

Lemma evidence_loop_spec fuel nodes state before e :
  (∀ x, x ∈ evd_completed e → done nodes state before x) →
  (size (names_of nodes) < size (evd_completed e ∩ names_of nodes) + fuel)%nat →
  let e' := evidence_loop fuel nodes state e in
  evd_completed e ⊆ evd_completed e' ∧ (∀ x, x ∈ evd_completed e' → done nodes state before x)
  ∧ eligible nodes state (evd_completed e') = [].
Proof.
  revert e. induction fuel as [|fuel IH]; intros e He Hf.
  { pose proof (subseteq_size (evd_completed e ∩ names_of nodes) (names_of nodes) ltac:(set_solver)). lia. }
  cbn [evidence_loop]. destruct (eligible nodes state (evd_completed e)) as [|x l] eqn:El; [done|].
  set (L := x :: l) in *.
  assert (∀ y, y ∈ L → y ∈ names_of nodes ∧ y ∉ evd_completed e ∧ done nodes state before y) as HL.
  { intros y Hy. rewrite <-El in Hy. apply elem_of_eligible in Hy as (n & Hn & <- & Hv & Hc & Hd & Hj).
    split_and!; [apply elem_of_names; eauto|done|]. apply done_virtual; auto. }
  edestruct IH as (H1 & H2 & H3).
  3:{ split_and!; [|exact H2|exact H3]. etrans; [|exact H1]. simpl. set_solver. }
  - cbn [evd_completed]. intros y [Hy%elem_of_list_to_set|Hy]%elem_of_union; [by apply HL|by apply He].
  - cbn [evd_completed]. destruct (HL x) as (Hx & Hnx & _); [left|].
    assert (evd_completed e ∩ names_of nodes ⊂ (list_to_set L ∪ evd_completed e) ∩ names_of nodes) as Hlt.
    { split; [set_solver|]. intros Hsub. apply Hnx. specialize (Hsub x). set_solver. }
    apply subset_size in Hlt. lia.
Qed.

Lemma record_completion_evidence_done w state before at_ms x :
  x ∈ evd_completed (record_completion_evidence w state before at_ms) ↔ done (ct_nodes w) state before x.
Proof.
  unfold record_completion_evidence. set (nodes := ct_nodes w).
  set (e := foldl (task_evidence state) _ nodes).
  assert (∀ y, y ∈ evd_completed e ↔ y ∈ before ∨ ∃ n, n ∈ nodes ∧ n_name n = y
    ∧ is_virtual (n_kind n) = false ∧ job_completed state y = true) as He.
  { intros y. subst e. by rewrite tasks_evidence_completed. }
  destruct (evidence_loop_spec (S (length nodes)) nodes state before e) as (Hsub & Hs & Hel).
  { intros y [?|(n & ? & <- & ? & ?)]%He; [by apply done_before|by apply done_task]. }
  { pose proof (size_names nodes). lia. }
  split; [apply Hs|]. induction 1 as [y Hy|n Hn Hv Hj|n Hn Hv Hj _ IH].
  - apply Hsub, He. by left.
  - apply Hsub, He. right. by exists n.
  - destruct (decide (n_name n ∈ evd_completed (evidence_loop (S (length nodes)) nodes state e)))
      as [|Hnot]; [done|].
    assert (n_name n ∈ eligible nodes state (evd_completed (evidence_loop (S (length nodes)) nodes state e)))
      as Hin by (apply elem_of_eligible; by exists n).
    rewrite Hel in Hin. by apply elem_of_nil in Hin.
Qed.

Lemma evidence_loop_unchanged fuel nodes state e :
  evd_changed (evidence_loop fuel nodes state e) = false → evidence_loop fuel nodes state e = e.
Proof.
  revert e. induction fuel as [|fuel IH]; intros e; cbn [evidence_loop]; [done|].
  destruct (eligible _ _ _); [done|]. intros H. rewrite (IH _ H) in H. done.
Qed.

Lemma task_evidence_unchanged state e n :
  evd_changed (task_evidence state e n) = false → task_evidence state e n = e.
Proof.
  unfold task_evidence. destruct (job_of state (n_name n)) as [job|]; [|done].
  destruct (_ && _); [|done]. destruct (js_finalized_at_ms job) as [a|]; simpl.
  - intros [[Hc Hn]%orb_false_iff Ha]%orb_false_iff. rewrite Hc, Hn, Ha.
    apply bool_decide_eq_false, dec_stable in Hn, Ha. rewrite insert_id by done.
    replace ({[n_name n]} ∪ evd_completed e) with (evd_completed e) by set_solver.
    destruct e; simpl in *. by subst.
  - intros [Hc Hn]%orb_false_iff. rewrite Hc, Hn. apply bool_decide_eq_false, dec_stable in Hn.
    replace ({[n_name n]} ∪ evd_completed e) with (evd_completed e) by set_solver.
    destruct e; simpl in *. by subst.
Qed.

Lemma tasks_evidence_unchanged state nodes e :
  evd_changed (foldl (task_evidence state) e nodes) = false →
  foldl (task_evidence state) e nodes = e.
Proof.
  revert e. induction nodes as [|n nodes IH]; intros e; simpl; [done|].
  intros H. pose proof (IH _ H) as E. rewrite E in H |- *. by apply task_evidence_unchanged.
Qed.

(** ** States *)

Lemma find_named (nodes : list NodeSpec) n :
  NoDup (n_name <$> nodes) → n ∈ nodes → List.find (λ m, String.eqb (n_name m) (n_name n)) nodes = Some n.
Proof.
  induction nodes as [|m nodes IH]; csimpl; [by intros _ ?%elem_of_nil|].
  intros [Hm Hnd]%NoDup_cons [->|Hn]%elem_of_cons; [by rewrite String.eqb_refl|].
  destruct (String.eqb_spec (n_name m) (n_name n)) as [E|_]; [|by apply IH].
  destruct Hm. rewrite E. by apply list_elem_of_fmap_2.
Qed.

(** A node of the workflow is complete for its dependents. *)
Definition complete (nodes : list NodeSpec) (state : States) (completed : gset string) (d : string) : Prop :=
  ∃ n, n ∈ nodes ∧ n_name n = d ∧ state_of state completed n = Some "completed".

Lemma deps_complete_spec nodes state completed deps :
  NoDup (n_name <$> nodes) → (∀ d, d ∈ deps → d ∈ n_name <$> nodes) →
  ∃ b, deps_complete nodes state completed deps = Ok b
    ∧ (b = true ↔ ∀ d, d ∈ deps → complete nodes state completed d).
Proof.
  intros Hnd. induction deps as [|d deps IH]; intros Hin; cbn [deps_complete].
  { exists true. split; [done|]. split; [|done]. by intros _ d ?%elem_of_nil. }
  destruct (proj1 (list_elem_of_fmap _ _ _) (Hin d ltac:(left))) as (n & -> & Hn).
  rewrite find_named by done. fold (state_of state completed n).
  destruct IH as (b & Hb & Hiff); [intros e He; apply Hin; by right|].
  case_bool_decide as Hc.
  - exists b. split; [done|]. rewrite Hiff. split.
    + intros H e [->|He]%elem_of_cons; [by exists n|by apply H].
    + intros H e He. apply H. by right.
  - exists false. split; [done|]. split; [done|]. intros H.
    destruct (H (n_name n)) as (m & Hm & Hnm & Hsm); [left|]. exfalso. apply Hc.
    assert (Some m = Some n) as [= <-]; [|done].
    by rewrite <-(find_named nodes m), <-(find_named nodes n), Hnm.
Qed.

(** ** Timers *)

(** [a] is the latest completion time of the dependencies. *)
Definition latest (m : gmap string Z) (deps : list string) (a : Z) : Prop :=
  (∃ d, d ∈ deps ∧ m !! d = Some a) ∧ ∀ d, d ∈ deps → ∃ t, m !! d = Some t ∧ t ≤ a.

Lemma anchor_loop_Ok name m deps acc r :
  anchor_loop name m deps acc = Ok r →
  (∀ d, d ∈ deps → ∃ t a, m !! d = Some t ∧ r = Some a ∧ t ≤ a)
  ∧ (∀ a, acc = Some a → ∃ b, r = Some b ∧ a ≤ b)
  ∧ (r = acc ∨ ∃ d a, d ∈ deps ∧ m !! d = Some a ∧ r = Some a).
Proof.
  revert acc. induction deps as [|d deps IH]; intros acc; cbn [anchor_loop].
  { intros [= <-]. split_and!; [by intros d ?%elem_of_nil|intros a ->; exists a; split; [done|lia]|by left]. }
  destruct (m !! d) as [t|] eqn:Hd; [|done]. intros H. apply IH in H as (H1 & H2 & H3).
  destruct (H2 _ eq_refl) as (b & -> & Hb). split_and!.
  - intros x [->|Hx]%elem_of_cons; [|by apply H1]. exists t, b. split_and!; [done|done|].
    destruct acc; lia.
  - intros a ->. exists b. split; [done|lia].
  - destruct H3 as [H3|(x & a & Hx & Hm & Ha)]; [|right; exists x, a; split_and!; [by right|done|done]].
    destruct acc as [a|]; injection H3 as ->; [|right; exists d, t; split_and!; [left|done|done]].
    destruct (Z.max_spec a t) as [[? ->]|[? ->]]; [right; exists d, t; split_and!; [left|done|done]|by left].
Qed.

Lemma dependency_completion_anchor_latest n m a :
  dependency_completion_anchor n m = Ok a → latest m (n_deps n) a.
Proof.
  unfold dependency_completion_anchor. intros ([b|] & H & [= ->])%bind_Ok.
  apply anchor_loop_Ok in H as (H1 & _ & H3). split.
  - destruct H3 as [?|(d & b & Hd & Hm & [= ->])]; [done|eauto].
  - intros d Hd. destruct (H1 d Hd) as (t & b & Hm & [= ->] & Hle). eauto.
Qed.

(** ** The plan *)

Section plan.
Context (cel_compiles : string → bool).
Context (cel_execute : string → CelContext → result CelValue string).
Context (c : WorkflowCursor) (w : CoordinatorTask) (state : States) (completed failed : gset string).
Context (Hnd : NoDup (n_name <$> ct_nodes w)).
Context (Hdeps : ∀ n d, n ∈ ct_nodes w → d ∈ n_deps n → d ∈ n_name <$> ct_nodes w).

(** Pending, with every dependency completed. *)
Definition awaiting (n : NodeSpec) : Prop :=
  state_of state completed n = Some "pending"
  ∧ ∀ d, d ∈ n_deps n → complete (ct_nodes w) state completed d.

Definition condition_holds (n : NodeSpec) : Prop :=
  evaluate_condition cel_compiles cel_execute n c w state completed = Ok true.

(** The node is promoted by this tick. *)
Definition promotable (n : NodeSpec) : Prop :=
  n_name n ∉ failed ∧ awaiting n
  ∧ (is_virtual (n_kind n) = false ∨ (n_kind n = NodeType.Condition ∧ condition_holds n)).

(** The node is deleted by this tick. *)
Definition doomed (n : NodeSpec) : Prop :=
  n_name n ∈ failed ∧ ct_failed_subgraph_retry w = false
  ∧ deletable_state (state_of state completed n) = true.

Definition timer_due (n : NodeSpec) : Prop :=
  n_name n ∉ failed ∧ awaiting n ∧ n_kind n = NodeType.Timer ∧ is_Some (n_delay_ms n).

Lemma ready_if_spec b n :
  n ∈ ct_nodes w →
  ∃ r, ready_if (b && bool_decide (state_of state completed n = Some "pending")) w n state completed = Ok r
    ∧ (r = true ↔ b = true ∧ awaiting n).
Proof.
  intros Hn. unfold ready_if, awaiting, dependencies_complete.
  destruct (deps_complete_spec (ct_nodes w) state completed (n_deps n) Hnd) as (r & Hr & Hiff);
    [by intros d; apply Hdeps|].
  destruct b; simpl; [|exists false; split; [done|]; split; [done|by intros [? ?]]].
  case_bool_decide as Hp; [|exists false; split; [done|]; split; [done|by intros (_ & ? & _)]].
  exists r. split; [done|]. rewrite Hiff. tauto.
Qed.

(** What one node contributes to the mutations. *)
Definition touches (n : NodeSpec) (m : string * bool) : Prop :=
  (m = (n_job_id n, true) ∧ doomed n) ∨ (m = (n_job_id n, false) ∧ promotable n).

Lemma elem_of_push_if b m l x : x ∈ push_if b m l ↔ x ∈ l ∨ b = true ∧ x = m.
Proof.
  unfold push_if. destruct b; [|naive_solver]. rewrite elem_of_app, list_elem_of_singleton. naive_solver.
Qed.

Lemma plan_failed_node n l x :
  n_name n ∈ failed →
  x ∈ push_if (negb (ct_failed_subgraph_retry w) && deletable_state (state_of state completed n))
        (n_job_id n, true) l ↔ x ∈ l ∨ touches n x.
Proof.
  intros Hf. rewrite elem_of_push_if, andb_true_iff, negb_true_iff.
  unfold touches, doomed, promotable. tauto.
Qed.

Lemma plan_live_node n l task cond x :
  n_name n ∉ failed →
  (task = true ↔ negb (is_virtual (n_kind n)) = true ∧ awaiting n) →
  (cond = true ↔ (n_kind n = NodeType.Condition ∧ awaiting n) ∧ condition_holds n) →
  x ∈ push_if cond (n_job_id n, false) (push_if task (n_job_id n, false) l) ↔ x ∈ l ∨ touches n x.
Proof.
  intros Hf Ht Hc. rewrite !elem_of_push_if, Ht, Hc, negb_true_iff.
  unfold touches, doomed, promotable. tauto.
Qed.

Lemma ready_condition_spec n r :
  n ∈ ct_nodes w → ready_condition cel_compiles cel_execute c w n state completed = Ok r →
  (r = true ↔ (n_kind n = NodeType.Condition ∧ awaiting n) ∧ condition_holds n).
Proof.
  intros Hn. unfold ready_condition. intros (b & Hb & Hr)%bind_Ok.
  destruct (ready_if_spec (bool_decide (n_kind n = NodeType.Condition)) n Hn) as (b' & Hb' & Hiff).
  rewrite Hb in Hb'. injection Hb' as <-. rewrite bool_decide_eq_true in Hiff.
  unfold condition_holds. destruct b.
  - rewrite Hr. split; [|by intros [_ [= ->]]]. intros ->. split; [by apply Hiff|done].
  - injection Hr as <-. split; [done|]. intros [H _]. by apply Hiff in H.
Qed.

(** The decision taken over [nodes] when [l] was collected before. *)
Definition plan_ok (nodes : list NodeSpec) (l : list (string * bool)) (dec : Decision) : Prop :=
  match dec with
  | Mutate ms =>
      (∀ x, x ∈ ms ↔ x ∈ l ∨ ∃ n, n ∈ nodes ∧ touches n x) ∧ (∀ n, n ∈ nodes → ¬ timer_due n)
  | Schedule id at_ms =>
      ∃ front n back a d, nodes = front ++ n :: back ∧ (∀ m, m ∈ front → ¬ timer_due m)
        ∧ timer_due n ∧ id = n_job_id n ∧ n_delay_ms n = Some d
        ∧ latest (c_completed_at_ms c) (n_deps n) a ∧ at_ms = a + d ∧ in_i64 at_ms
  end.

Lemma plan_ok_cons n nodes l l' dec :
  (∀ x, x ∈ l' ↔ x ∈ l ∨ touches n x) → ¬ timer_due n → plan_ok nodes l' dec → plan_ok (n :: nodes) l dec.
Proof.
  intros Hl' Hnt. destruct dec as [ms|id at_ms]; simpl.
  - intros [Hms Htd]. split.
    + intros x. rewrite Hms, Hl'. setoid_rewrite elem_of_cons. split.
      * intros [[?|?]|(m & ? & ?)]; [by left|right; exists n; tauto|right; exists m; tauto].
      * intros [?|(m & [->|?] & ?)]; [tauto|tauto|right; eauto].
    + intros m [->|Hm]%elem_of_cons; [done|by apply Htd].
  - intros (front & m & back & a & d & -> & Hf & Hr). exists (n :: front), m, back, a, d.
    split; [done|]. split; [|exact Hr]. intros x [->|Hx]%elem_of_cons; [done|by apply Hf].
Qed.

Lemma ready_timer_spec n r :
  n ∈ ct_nodes w → n_name n ∉ failed → ready_timer w n state completed = Ok r → (r = true ↔ timer_due n).
Proof.
  intros Hn Hf. unfold ready_timer.
  destruct (ready_if_spec (bool_decide (n_kind n = NodeType.Timer) && is_some (n_delay_ms n)) n Hn)
    as (r' & -> & Hiff).
  intros [= ->]. rewrite Hiff, andb_true_iff, bool_decide_eq_true. unfold timer_due.
  destruct (n_delay_ms n); simpl; [naive_solver eauto|]. split; [by intros [[_ ?] _]|].
  intros (_ & _ & _ & [? ?]). done.
Qed.

Lemma plan_nodes_Ok nodes l dec :
  (∀ n, n ∈ nodes → n ∈ ct_nodes w) →
  plan_nodes cel_compiles cel_execute c w state completed failed nodes l = Ok dec →
  plan_ok nodes l dec.
Proof.
  revert l. induction nodes as [|n nodes IH]; intros l Hin; cbn [plan_nodes].
  { intros [= <-]. split; [|by intros n ?%elem_of_nil].
    intros x. split; [by left|]. intros [?|(n & ?%elem_of_nil & _)]; done. }
  assert (n ∈ ct_nodes w) as Hn by (apply Hin; left).
  assert (∀ m, m ∈ nodes → m ∈ ct_nodes w) as Hin' by (intros; apply Hin; by right).
  case_bool_decide as Hf.
  { intros H. eapply plan_ok_cons; [| |by eapply IH]; [intros x; by apply plan_failed_node|].
    by intros [? _]. }
  intros (task & Ht & H)%bind_Ok. apply bind_Ok in H as (cond & Hcond & H).
  apply bind_Ok in H as (timer & Htimer%ready_timer_spec & H); [|done|done].
  destruct (ready_if_spec (negb (is_virtual (n_kind n))) n Hn) as (r & Hr & Htask).
  unfold ready_task in Ht. rewrite Hr in Ht. injection Ht as ->.
  pose proof (ready_condition_spec n cond Hn Hcond) as Hc.
  destruct timer.
  - destruct (proj1 Htimer eq_refl) as (_ & Ha & Hk & [d Hd]).
    apply bind_Ok in H as (a & Hanchor%dependency_completion_anchor_latest & H).
    rewrite Hd in H. unfold i64_checked_add in H.
    case_if_in H; [|done]. injection H as <-. bool_hyps. exists [], n, nodes, a, d.
    split_and!; [done|by intros m ?%elem_of_nil|by apply Htimer|done..].
  - eapply plan_ok_cons; [| |by eapply IH]; [intros x; by apply plan_live_node|].
    intros H'%Htimer. done.
Qed.
End plan.

(** ** The verdict *)

Section verdict.
Context (state : States) (completed failed_nodes : gset string).

Definition node_failed (n : NodeSpec) : Prop :=
  n_name n ∈ failed_nodes ∨ failed_state (state_of state completed n) = true.
Definition node_completed (n : NodeSpec) : Prop :=
  n_name n ∉ failed_nodes ∧ state_of state completed n = Some "completed".

Definition verdict_ok (nodes : list NodeSpec) (failed : bool) (v : Tick.Tick) : Prop :=
  match v with
  | Tick.Succeeded => failed = false ∧ ∀ n, n ∈ nodes → node_completed n
  | Tick.Failed => (failed = true ∨ ∃ n, n ∈ nodes ∧ node_failed n)
                   ∧ ∀ n, n ∈ nodes → node_failed n ∨ node_completed n
  | Tick.Waiting => ∃ n, n ∈ nodes ∧ ¬ node_failed n ∧ ¬ node_completed n
  end.

(** A settled node is accounted for in the flag. *)
Lemma verdict_ok_cons n nodes failed b v :
  node_failed n ∨ node_completed n → (b = true ↔ failed = true ∨ node_failed n) →
  verdict_ok nodes b v → verdict_ok (n :: nodes) failed v.
Proof.
  intros Hn Hb. destruct v; simpl; setoid_rewrite elem_of_cons.
  - intros (m & ? & ?). exists m. tauto.
  - intros [-> H]. assert (failed ≠ true ∧ ¬ node_failed n) as [Hf Hnf].
    { split; intros ?; (assert (false = true) by tauto); done. }
    split; [by apply not_true_is_false|]. intros m [->|?]; [|by apply H]. by destruct Hn.
  - intros [H1 H2]. split; [|by intros m [->|?]; [|apply H2]].
    destruct H1 as [H1|(m & ? & ?)]; [|right; exists m; tauto].
    apply Hb in H1 as [?|?]; [by left|right; exists n; tauto].
Qed.

Lemma verdict_loop_spec nodes failed :
  verdict_ok nodes failed (verdict_loop state completed failed_nodes nodes failed).
Proof.
  revert failed. induction nodes as [|n nodes IH]; intros failed; cbn [verdict_loop].
  { destruct failed; (split; [by auto|]); by intros n ?%elem_of_nil. }
  case_bool_decide as Hf.
  { apply (verdict_ok_cons n nodes failed true); [by left; left| |done]. unfold node_failed. tauto. }
  case_bool_decide as Hc.
  { apply (verdict_ok_cons n nodes failed failed); [by right| |done]. unfold node_failed. rewrite Hc. simpl.
    split; [by left|]. intros [?|[?|?]]; done. }
  destruct (failed_state _) eqn:Efs.
  { apply (verdict_ok_cons n nodes failed true); [by left; right| |done]. unfold node_failed. tauto. }
  exists n. split; [left|]. unfold node_failed, node_completed. rewrite Efs. split; [by intros [?|?]|tauto].
Qed.
End verdict.

(** ** Progress *)

Lemma valid_workflow cel_compiles ord w :
  ord ≡ₚ n_name <$> ct_nodes w → validate_coordinator cel_compiles ord w = Ok tt →
  NoDup (n_name <$> ct_nodes w)
  ∧ (∀ n d, n ∈ ct_nodes w → d ∈ n_deps n → d ∈ n_name <$> ct_nodes w)
  ∧ (∀ x, Acc (downstream (ct_nodes w)) x) ∧ Forall (spec_ok cel_compiles) (ct_nodes w).
Proof.
  intros Hord (_ & _ & _ & _ & Hok & [Hnd Hd _ Ha])%validate_coordinator_iff; [|done].
  rewrite spec_pairs_names in Hnd.
  assert (∀ n d, n ∈ ct_nodes w → d ∈ n_deps n → d ∈ n_name <$> ct_nodes w) as Hdeps.
  { intros n d Hn Hdn. rewrite <-spec_pairs_names.
    apply (Hd (n_name n) (n_deps n)); [apply elem_of_spec_pairs; eauto|done]. }
  split_and!; [done|done| |done]. intros x.
  assert (Acc (depends (edges_of (spec_pairs (ct_nodes w)))) x) as Hacc.
  { apply (acyclic_acc (n_name <$> ct_nodes w)); [|done].
    intros [a b] (deps & (n & [= -> ->] & Hn)%elem_of_spec_pairs & Hdn)%elem_of_edges_of.
    split; [by eapply Hdeps|by apply (list_elem_of_fmap_2 n_name)]. }
  induction Hacc as [x _ IH]. constructor. intros y (n & Hn & <- & Hdn). apply IH.
  apply elem_of_edges_of. exists (n_deps n). split; [apply elem_of_spec_pairs; eauto|done].
Qed.

Lemma all_or_some {A} (P : A → Prop) (l : list A) :
  (∀ x, x ∈ l → P x ∨ ¬ P x) → (∀ x, x ∈ l → P x) ∨ ∃ x, x ∈ l ∧ ¬ P x.
Proof.
  induction l as [|x l IH]; intros Hd; [left; by intros x ?%elem_of_nil|].
  destruct (Hd x ltac:(left)) as [Hx|Hx]; [|right; exists x; split; [left|done]].
  destruct IH as [H|(y & Hy & Hn)]; [intros y Hy; apply Hd; by right| |right; exists y; split; [by right|done]].
  left. intros y [->|Hy]%elem_of_cons; auto.
Qed.

Section progress.
Context (w : CoordinatorTask) (state : States) (completed : gset string).
Context (Hnd : NoDup (n_name <$> ct_nodes w)).
Context (Hdeps : ∀ n d, n ∈ ct_nodes w → d ∈ n_deps n → d ∈ n_name <$> ct_nodes w).
Context (Hacc : ∀ x, Acc (downstream (ct_nodes w)) x).

Abbreviation failed := (failed_set w state completed).
Abbreviation open_node n := (¬ node_failed state completed failed n ∧ ¬ node_completed state completed failed n).

Lemma failed_set_downstream m n :
  m ∈ ct_nodes w → n ∈ ct_nodes w → n_name m ∈ n_deps n →
  node_failed state completed failed m → n_name n ∈ failed.
Proof.
  intros Hm Hn Hd Hf. apply elem_of_failed_set.
  assert (n_name m ∈ failed) as (r & Hr & Hrm)%elem_of_failed_set.
  { destruct Hf as [?|Hf]; [done|]. apply elem_of_failed_set. exists (n_name m).
    split; [by exists m|constructor]. }
  exists r. split; [done|]. eapply rtc_r; [done|]. by exists n.
Qed.

(** Below any open node there is one whose dependencies are all completed. *)
Lemma minimal_open n :
  n ∈ ct_nodes w → open_node n →
  ∃ m, m ∈ ct_nodes w ∧ open_node m ∧ ∀ d, d ∈ n_deps m → complete (ct_nodes w) state completed d.
Proof.
  pose proof (Hacc (n_name n)) as Ha. remember (n_name n) as x eqn:Ex. revert n Ex.
  induction Ha as [x _ IH]. intros n -> Hn Ho.
  destruct (all_or_some (complete (ct_nodes w) state completed) (n_deps n)) as [Hall|(d & Hd & Hnc)].
  - intros d Hd. destruct (proj1 (list_elem_of_fmap _ _ _) (Hdeps n d Hn Hd)) as (m & -> & Hm).
    destruct (decide (state_of state completed m = Some "completed")) as [E|E]; [left; by exists m|right].
    intros (m' & Hm' & Hnm & Hs). apply E.
    assert (Some m' = Some m) as [= <-]; [|done].
    by rewrite <-(find_named (ct_nodes w) m'), <-(find_named (ct_nodes w) m), Hnm.
  - by exists n.
  - destruct (proj1 (list_elem_of_fmap _ _ _) (Hdeps n d Hn Hd)) as (m & -> & Hm).
    apply (IH (n_name m)) with (n := m); [by exists n|done|done|]. split.
    + intros Hf. apply (proj1 Ho). left. by eapply failed_set_downstream.
    + intros [_ Hs]. apply Hnc. by exists m.
Qed.
End progress.

(** ** The event log *)

(** Consecutive sequence numbers. *)
Definition numbered (events : list WorkflowEvent) : Prop :=
  ∀ i e e', events !! i = Some e → events !! S i = Some e' → ev_sequence e' = ev_sequence e + 1.

Lemma numbered_drop k events : numbered events → numbered (drop k events).
Proof.
  intros H i e e'. rewrite !lookup_drop. replace (k + S i)%nat with (S (k + i)) by lia. apply H.
Qed.

Lemma numbered_snoc events e :
  numbered events → (∀ l, last events = Some l → ev_sequence e = ev_sequence l + 1) → numbered (events ++ [e]).
Proof.
  intros H Hl i a b Ha Hb. destruct (decide (S i < length events)%nat) as [Hi|Hi].
  - rewrite lookup_app_l in Ha by lia. rewrite lookup_app_l in Hb by lia. by eapply H.
  - pose proof (lookup_lt_Some _ _ _ Hb) as Hlt. rewrite length_app in Hlt. simpl in Hlt.
    assert (S i = length events) as E by lia.
    rewrite lookup_app_l in Ha by lia. rewrite E, list_lookup_middle in Hb by done. injection Hb as <-.
    apply Hl. rewrite last_lookup, <-E. done.
Qed.

Lemma trim_events_numbered events : numbered events → numbered (trim_events events).
Proof. intros H. unfold trim_events. case_if; [by apply numbered_drop|done]. Qed.

Lemma trim_events_length events : (length (trim_events events) ≤ MAX_WORKFLOW_EVENTS)%nat.
Proof.
  unfold trim_events. destruct (_ <? _)%nat eqn:E.
  - rewrite length_drop. apply Nat.ltb_lt in E. lia.
  - by apply Nat.ltb_ge in E.
Qed.

Lemma trim_events_last events e : last (trim_events (events ++ [e])) = Some e.
Proof.
  unfold trim_events. destruct (_ <? _)%nat eqn:E; [|by rewrite last_snoc].
  apply Nat.ltb_lt in E. rewrite length_app in *. simpl in *.
  rewrite drop_app_le by (unfold MAX_WORKFLOW_EVENTS in *; lia). by rewrite last_snoc.
Qed.

(** ** Properties *)

(** The failed set a tick computes is exactly the set of nodes reachable, along
    dependency edges, from a node whose effective state is missing, archived, cancelled,
    quarantined or undecodable; the loop always reaches its fixed point. *)
Theorem failed_set_is_downstream_closure (w : CoordinatorTask) (state : States)
    (completed : gset string) (x : string) :
  x ∈ failed_set w state completed ↔
  ∃ n, n ∈ ct_nodes w ∧ failed_state (state_of state completed n) = true
    ∧ rtc (downstream (ct_nodes w)) (n_name n) x.
Proof.
  rewrite elem_of_failed_set. unfold root_failed. split.
  - intros (r & (n & Hn & <- & Hf) & Hr). by exists n.
  - intros (n & Hn & Hf & Hr). exists (n_name n). split; [by exists n|done].
Qed.

(** Completion evidence is the least set that keeps what was recorded, adds every
    task or child link whose job completed, and adds a signal, timer or condition whose
    job completed once all of its dependencies are in the set (an early signal is
    buffered, never consumed early); when the change flag is false nothing changed. *)
Theorem completion_evidence_is_least (w : CoordinatorTask) (state : States)
    (before : gset string) (at_ms : gmap string Z) :
  let e := record_completion_evidence w state before at_ms in
  (∀ x, x ∈ evd_completed e ↔ done (ct_nodes w) state before x)
  ∧ (evd_changed e = false → evd_completed e = before ∧ evd_at_ms e = at_ms).
Proof.
  intros e. split; [intros x; apply record_completion_evidence_done|].
  subst e. unfold record_completion_evidence. intros H.
  pose proof (evidence_loop_unchanged _ _ _ _ H) as E. rewrite E in H |- *.
  by rewrite (tasks_evidence_unchanged _ _ _ H).
Qed.

(** C31.  What one tick does to the jobs of a coordinator task that passes validation.  When a
    relative timer is due (pending, not failed, its dependencies completed), the tick schedules
    the first such timer in node order, to wake its delay after the latest completion of its
    dependencies, within [i64], and promotes and deletes nothing.  When none is due it promotes
    exactly the pending, not failed nodes whose dependencies are all completed and that are
    tasks, child links or conditions evaluating to true, and deletes exactly the waiting nodes
    of the failed set, those only when failed-subgraph retry is off. *)
Theorem tick_plan_exact (cel_compiles : string → bool)
    (cel_execute : string → CelContext → result CelValue string) (ord : list string)
    (c : WorkflowCursor) (w : CoordinatorTask) (state : States) (completed failed : gset string)
    (dec : Decision) :
  ord ≡ₚ n_name <$> ct_nodes w → validate_coordinator cel_compiles ord w = Ok tt →
  plan cel_compiles cel_execute c w state completed failed = Ok dec →
  match dec with
  | Mutate ms => (∀ n, n ∈ ct_nodes w → ¬ timer_due w state completed failed n)
      ∧ ∀ (id : string) (delete : bool), (id, delete) ∈ ms ↔
          ∃ n, n ∈ ct_nodes w ∧ n_job_id n = id
            ∧ if delete then doomed w state completed failed n
              else promotable cel_compiles cel_execute c w state completed failed n
  | Schedule id wake => ∃ front n back a d, ct_nodes w = front ++ n :: back ∧ n_job_id n = id
      ∧ (∀ m, m ∈ front → ¬ timer_due w state completed failed m)
      ∧ timer_due w state completed failed n ∧ n_delay_ms n = Some d
      ∧ latest (c_completed_at_ms c) (n_deps n) a ∧ wake = a + d ∧ in_i64 wake
  end.
Proof.
  intros Hord (Hnd & Hdeps & _)%valid_workflow H; [|done].
  apply plan_nodes_Ok in H; [|done|done|done]. destruct dec as [ms|id wake]; simpl in H.
  - destruct H as [H Htd]. split; [exact Htd|]. intros id delete. rewrite H. unfold touches. split.
    + intros [?%elem_of_nil|(n & Hn & [[[= -> ->] Hd]|[[= -> ->] Hp]])]; [done|by exists n..].
    + intros (n & Hn & <- & Hd). right. exists n. split; [done|]. destruct delete; [by left|by right].
  - destruct H as (front & n & back & a & d & ? & ? & ? & -> & ?). exists front, n, back, a, d. tauto.
Qed.

Definition demo_summary (id state : string) : JobSummary :=
  mkJobSummary id "demo:task" "q" state 1 0 0 0 25 "" "" "" 1 "" 0 0 None "" 0 (Some 40) None ∅ "" [].
Definition demo_task_node (name : string) (deps : list string) : NodeSpec :=
  mkNodeSpec name ("wf:" +:+ name)%stdpp deps NodeType.Task None None None None None.
Definition demo_coordinator : CoordinatorTask :=
  mkCoordinatorTask "wf"
    [demo_task_node "a" [];
     mkNodeSpec "b" "wf:b" ["a"] NodeType.Signal (Some "go") None None None None;
     demo_task_node "c" ["a"]] false None.
Definition demo_states : States :=
  {[ "a" := Some (demo_summary "wf:a" "completed"); "b" := Some (demo_summary "wf:b" "pending");
     "c" := Some (demo_summary "wf:c" "pending") ]}.
Definition demo_cel (e : string) (_ : CelContext) : result CelValue string := Ok (CelBool true).

Lemma tick_plan_exact_witness :
  promotable (λ _, true) demo_cel default_cursor demo_coordinator demo_states {["a"]} ∅
    (demo_task_node "c" ["a"]).
Proof.
  pose proof (tick_plan_exact (λ _, true) demo_cel ["c"; "b"; "a"] default_cursor demo_coordinator
    demo_states {["a"]} ∅ (Mutate [("wf:c", false)])) as H.
  simpl in H. destruct (proj1 (proj2 (H ltac:(apply reverse_Permutation with (l := ["a"; "b"; "c"]))
    ltac:(vm_compute; reflexivity) ltac:(vm_compute; reflexivity)) "wf:c" false)) as (n & Hn & Hid & Hp).
  { apply list_elem_of_here. }
  apply list_elem_of_In in Hn. destruct Hn as [<-|[<-|[<-|[]]]]; [discriminate Hid|discriminate Hid|exact Hp].
Defined.

(** C30.  No coordinator gets stuck: when a tick over a valid workflow finds nothing to do
    and the workflow is not over, some node that is neither failed nor completed has all of
    its dependencies completed and is held by something outside the coordinator: it is
    already scheduled, available, running or retrying, or it is a pending signal, absolute
    timer or condition that does not hold. *)
Theorem idle_tick_waits_for_the_outside (cel_compiles : string → bool)
    (cel_execute : string → CelContext → result CelValue string) (ord : list string)
    (c : WorkflowCursor) (w : CoordinatorTask) (state : States) (completed : gset string) :
  let failed := failed_set w state completed in
  ord ≡ₚ n_name <$> ct_nodes w → validate_coordinator cel_compiles ord w = Ok tt →
  plan cel_compiles cel_execute c w state completed failed = Ok (Mutate []) →
  verdict w state completed failed = Tick.Waiting →
  ∃ n s, n ∈ ct_nodes w ∧ n_name n ∉ failed ∧ state_of state completed n = Some s ∧ s ≠ "completed"
    ∧ (∀ d, d ∈ n_deps n → complete (ct_nodes w) state completed d)
    ∧ (s ≠ "pending" ∨ n_kind n = NodeType.Signal
       ∨ (n_kind n = NodeType.Timer ∧ is_Some (n_wake_at_ms n))
       ∨ (n_kind n = NodeType.Condition
          ∧ ¬ condition_holds cel_compiles cel_execute c w state completed n)).
Proof.
  intros failed Hord (Hnd & Hdeps & Hacc & Hok)%valid_workflow Hplan Hv; [|done].
  pose proof (verdict_loop_spec state completed failed (ct_nodes w) false) as Hw.
  unfold verdict in Hv. rewrite Hv in Hw. destruct Hw as (n0 & Hn0 & Hopen).
  destruct (minimal_open w state completed Hnd Hdeps Hacc n0 Hn0 Hopen) as (n & Hn & [Hnf Hnc] & Hd).
  apply plan_nodes_Ok in Hplan as [Hms Htd]; [|done|done|done].
  assert (n_name n ∉ failed) as Hf by (intros ?; apply Hnf; by left).
  destruct (state_of state completed n) as [s|] eqn:Es; [|destruct Hnf; right; by rewrite Es].
  exists n, s. split_and!; [done|done|done| |done|].
  { intros ->. by apply Hnc. }
  destruct (decide (s = "pending")) as [->|]; [right|by left].
  assert (awaiting w state completed n) as Haw by done.
  assert (¬ promotable cel_compiles cel_execute c w state completed failed n) as Hnp.
  { intros Hp. assert ((n_job_id n, false) ∈ []) as []%elem_of_nil.
    apply Hms. right. exists n. split; [done|by right]. }
  specialize (Htd n Hn). unfold promotable, timer_due in Hnp, Htd.
  rewrite Forall_forall in Hok. destruct (Hok n Hn) as (_ & _ & _ & _ & Hk). unfold spec_kind_ok in Hk.
  destruct (n_kind n) eqn:Ek; simpl in Hnp; [tauto|by left| |tauto|].
  - right; left. split; [done|]. destruct (n_wake_at_ms n); [by eauto|].
    destruct (n_signal n), (n_delay_ms n); try done. destruct Htd. by eauto.
  - right; right. split; [done|]. intros Hc. apply Hnp. tauto.
Qed.

Lemma idle_tick_waits_for_the_outside_witness :
  ∃ n, n ∈ ct_nodes demo_coordinator ∧ n_kind n = NodeType.Signal
    ∧ ∀ d, d ∈ n_deps n → complete (ct_nodes demo_coordinator)
        (<["c" := Some (demo_summary "wf:c" "completed")]> demo_states) {["a"; "c"]} d.
Proof.
  destruct (idle_tick_waits_for_the_outside (λ _, true) demo_cel ["c"; "b"; "a"] default_cursor
    demo_coordinator (<["c" := Some (demo_summary "wf:c" "completed")]> demo_states) {["a"; "c"]})
    as (n & s & Hn & _ & Hs & Hc & Hd & _).
  - apply reverse_Permutation with (l := ["a"; "b"; "c"]).
  - vm_compute; reflexivity.
  - vm_compute; reflexivity.
  - vm_compute; reflexivity.
  - exists n. split; [exact Hn|]. split; [|exact Hd].
    apply list_elem_of_In in Hn. destruct Hn as [<-|[<-|[<-|[]]]]; [|reflexivity|];
      exfalso; apply Hc; vm_compute in Hs; injection Hs as <-; reflexivity.
Defined.

(** The closing verdict of a tick: it succeeds only when every node is completed and
    none failed, and it fails only when some node failed and all others are failed or
    completed. *)
Theorem verdict_exact (w : CoordinatorTask) (state : States) (completed : gset string) :
  let failed := failed_set w state completed in
  let ok (n : NodeSpec) := n_name n ∉ failed ∧ state_of state completed n = Some "completed" in
  (verdict w state completed failed = Tick.Succeeded ↔ ∀ n, n ∈ ct_nodes w → ok n)
  ∧ (verdict w state completed failed = Tick.Failed ↔
     (∃ n, n ∈ ct_nodes w ∧ n_name n ∈ failed) ∧ ∀ n, n ∈ ct_nodes w → n_name n ∈ failed ∨ ok n).
Proof.
  intros failed ok.
  pose proof (verdict_loop_spec state completed failed (ct_nodes w) false) as H.
  fold (verdict w state completed failed) in H.
  assert (∀ n, n ∈ ct_nodes w → node_failed state completed failed n ↔ n_name n ∈ failed) as Hf.
  { intros n Hn. unfold node_failed. split; [|by left]. intros [?|Hs]; [done|].
    apply elem_of_failed_set. exists (n_name n). split; [by exists n|constructor]. }
  destruct (verdict w state completed failed) eqn:Ev; simpl in H.
  - destruct H as (n & Hn & Hnf & Hnc). rewrite Hf in Hnf by done. split; (split; [done|]).
    + intros Hall. by destruct (Hnc (Hall n Hn)).
    + intros [_ Hall]. by destruct (Hall n Hn).
  - destruct H as [_ H]. split; [by split|]. split; [done|].
    intros [(n & Hn & Hin) _]. by destruct (H n Hn).
  - destruct H as [[?|(n & Hn & Hnf)] Hall]; [done|]. apply Hf in Hnf; [|done]. split; (split; [try done|]).
    + intros H. by destruct (H n Hn).
    + intros _. split; [by exists n|]. intros m Hm. rewrite <-Hf by done. by apply Hall.
    + done.
Qed.

(** Recording an event keeps the log consecutively numbered and at most 256 entries
    long, with the new event last, stamped with the cursor's revision and generation; it
    changes nothing else of the cursor, and it is refused only when the sequence would
    reach the end of [u64]. *)
Theorem record_event_log (event : string) (node : option string) (at_ms : option Z)
    (c : WorkflowCursor) :
  numbered (c_events c) →
  match record_event event node at_ms c with
  | Ok c' => c' = c <| c_events := c_events c' |> ∧ numbered (c_events c')
      ∧ (length (c_events c') ≤ 256)%nat
      ∧ ∃ e, last (c_events c') = Some e ∧ ev_event e = event ∧ ev_node e = node
          ∧ ev_revision e = c_revision c ∧ ev_generation e = c_generation c
          ∧ ev_sequence e = match last (c_events c) with Some l => ev_sequence l + 1 | None => 1 end
  | Err _ => ∃ l, last (c_events c) = Some l ∧ u64_max ≤ ev_sequence l + 1
  end.
Proof.
  intros Hn. unfold record_event, next_sequence. destruct (last (c_events c)) as [l|] eqn:El; simpl.
  - rewrite andb_true_r. destruct (u64_saturating_add (ev_sequence l) 1 =? u64_max) eqn:E; bool_hyps; simpl.
    + exists l. unfold u64_saturating_add in E. split; [done|lia].
    + assert (u64_saturating_add (ev_sequence l) 1 = ev_sequence l + 1) as Hs
        by (unfold u64_saturating_add in *; lia).
      split_and!; [done| |apply trim_events_length|].
      * apply trim_events_numbered, numbered_snoc; [done|]. simpl. rewrite El. by intros l' [= <-].
      * eexists. split; [apply trim_events_last|]. by split_and!.
  - split_and!; [done| |apply trim_events_length|].
    + apply trim_events_numbered, numbered_snoc; [done|]. by rewrite El.
    + eexists. split; [apply trim_events_last|]. by split_and!.
Qed.

Lemma record_event_log_witness :
  ∃ c', record_event "workflow_started" None None default_cursor = Ok c' ∧ numbered (c_events c').
Proof.
  pose proof (record_event_log "workflow_started" None None default_cursor) as H.
  eexists. split; [vm_compute; reflexivity|].
  apply H. intros i e e' Hi. destruct i; discriminate Hi.
Defined.
