(* ===== verification/Coordinator.v ===== *)
(** * headgate-workflow: the coordinator and its operators

    Models the effectful half of [crates/headgate-workflow/src/lib.rs]: the coordinator
    handler with everything it calls (retry and graft reconciliation, the tick, automatic
    retries), the child-link handler, and the operator requests (failed-subgraph retry with
    recovery, signal emission, cancellation, inspection).  The store is reached through the
    [Inspect] port of [headgate-core]; here it is a type class over an abstract store, so
    that the theorems hold of every adapter.  Serde encoders and decoders are parameters.
    Calls of one handler run against a store nobody else changes meanwhile; calls the
    source issues concurrently ([buffer_unordered]) run in list order. *)

From S2P Require Import Prelude Shared Envelope Graph Workflow Core Tick.
Local Open Scope Z_scope.

(** ** The port *)

Record DurableEvent := mkDurableEvent {
  de_event_id : Z;
  de_scope : string;
  de_topic : string;
  de_idempotency_key : string;
  de_payload : bytes;
  de_source : bytes;
  de_recorded_at_ms : Z;
}.

Record JobFilter := mkJobFilter {
  jf_queue : option string;
  jf_state : option string;
  jf_kind : option string;
  jf_kind_prefix : option string;
  jf_partition_key : option string;
  jf_id : option string;
  jf_fingerprint : option string;
  jf_rate_class : option string;
  jf_priority : option Z;
  jf_tags_all : list string;
  jf_tags_any : list string;
}.

Record JobPage := mkJobPage { jp_jobs : list JobSummary; jp_next_cursor : option string }.

(** The operations of [trait Inspect] this crate calls.  A failing operation changes
    nothing; its error is its message. *)
Class Inspect (S : Type) := {
  get_job : string → bool → S → result (option JobSummary) string;
  list_jobs : JobFilter → option string → Z → S → result JobPage string;
  has_checkpoint_inspect : bool;
  get_job_checkpoint : string → S → result (option Checkpoint) string;
  has_output_inspect : bool;
  inspect_output : string → S → result (option JobOutput) string;
  promote_job : string → S → result S string;
  schedule_pending_job : string → Z → S → result S string;
  delete_job : string → S → result S string;
  operator_retry : string → S → result S string;
  operator_cancel : string → S → result S string;
  inspect_enqueue : list Envelope → S → result S string;
  quarantine_release : string → S → result S string;
  edit_payload : string → bytes → Z → string → S → result S string;
  append_durable_event : DurableEvent → S → result (DurableEvent * bool * S) string;
  list_durable_events : string → option Z → Z → S → result (list DurableEvent) string;
}.

(** What the coordinator's own [JobCtx] writes. *)
Class CoordinatorCtx (S : Type) := {
  set_cursor : bytes → S → result S string;
  persist_output : Z → bytes → S → result S string;
}.

(** ** Effects *)

(** A fallible computation over a store; effects done before an error stay. *)
Definition M (S A : Type) : Type := S → result A string * S.

#[export] Instance M_ret {S} : MRet (M S) := λ A a s, (Ok a, s).
#[export] Instance M_bind {S} : MBind (M S) := λ A B k m s,
  match m s with
  | (Ok a, s) => k a s
  | (Err e, s) => (Err e, s)
  end.

Definition throw {S A} (e : string) : M S A := λ s, (Err e, s).
Definition lift {S A} (r : result A string) : M S A := λ s, (r, s).
Definition read {S A} (f : S → result A string) : M S A := λ s, (f s, s).
Definition write {S} (f : S → result S string) : M S unit := λ s,
  match f s with Ok s' => (Ok tt, s') | Err e => (Err e, s) end.
Definition ok_or {S A} (o : option A) (e : string) : M S A :=
  match o with Some a => mret a | None => throw e end.
(** [match .. { Ok(a) => .., Err(e) => .. }] on a computation. *)
Definition attempt {S A} (m : M S A) : M S (result A string) := λ s, let '(r, s) := m s in (Ok r, s).

Definition require {S} (b : bool) (e : string) : M S unit := if b then mret tt else throw e.

(** ** Results of a handler and of operator requests *)

(** [Ok(())], or the [Control] a handler returns as its error; other errors are [Err]. *)
Inductive Handled := Finished | Snoozed (ms : Z) | Skipped.

Record RetryReceipt := mkRetryReceipt { rr_revision : Z; rr_generation : Z }.

Record WorkflowRecovery := mkRecovery {
  wr_node : string;
  wr_payload : option bytes;
  wr_schema_version : option Z;
  wr_release_quarantine : bool;
}.

Record CancelReceipt := mkCancelReceipt { cr_workflows : nat; cr_jobs : Z }.

Definition coordinator_id (workflow_id : string) : string := (workflow_id +:+ ":coordinator")%stdpp.

Definition one_of (l : list string) (s : string) : bool := existsb (String.eqb s) l.

Section coordinator.
Context {S : Type} `{Inspect S} `{CoordinatorCtx S}.
Context (cel_compiles : string → bool).
Context (cel_execute : string → CelContext → result CelValue string).
Context (sha256 : bytes → bytes).
(** Serde. *)
Context (encode : WorkflowTask → result bytes string).
Context (decode_coordinator : bytes → result CoordinatorTask string).
Context (decode_graft : bytes → result (string * Z * list NodeSpec) string).
Context (decode_retry : bytes → result (string * Z) string).
Context (encode_cursor : WorkflowCursor → result bytes string).
Context (decode_cursor : bytes → result WorkflowCursor string).
(** The iteration order of the in-degree map of [validate_coordinator]. *)
Context (ords : list string → list string).

Definition validate (w : CoordinatorTask) : result unit string :=
  validate_coordinator cel_compiles (ords (n_name <$> ct_nodes w)) w.

Definition persist_workflow_cursor (c : WorkflowCursor) : M S unit :=
  b ← lift (encode_cursor c);
  _ ← write (set_cursor b);
  write (persist_output 1 b).

(** ** Grafts and retries *)

Fixpoint reject_jobs (ids : list string) : M S unit :=
  match ids with
  | [] => mret tt
  | job_id :: ids =>
      job ← read (get_job job_id false);
      match job with
      | None => reject_jobs ids
      | Some job =>
          if one_of ["pending"; "scheduled"; "available"; "retryable"] (js_state job) then
            _ ← write (delete_job job_id);
            reject_jobs ids
          else throw ("rejected workflow graft job `" +:+ job_id +:+ "` is already `"
                      +:+ js_state job +:+ "`")%stdpp
      end
  end.

Definition reject_graft (receipt_id : string) (nodes : list NodeSpec) : M S unit :=
  reject_jobs ((n_job_id <$> nodes) ++ [receipt_id]).

Fixpoint nodes_to_retry (nodes : list NodeSpec) : M S (list string) :=
  match nodes with
  | [] => mret []
  | node :: nodes =>
      job ← read (get_job (n_job_id node) false);
      job ← ok_or job ("retry-enabled workflow node `" +:+ n_job_id node +:+ "` is missing")%stdpp;
      if one_of ["archived"; "cancelled"] (js_state job) then
        rest ← nodes_to_retry nodes; mret (n_job_id node :: rest)
      else if one_of ["pending"; "scheduled"; "retryable"; "available"; "running"; "completed"]
                (js_state job) then nodes_to_retry nodes
      else throw ("workflow node `" +:+ n_job_id node +:+ "` cannot be retried from `"
                  +:+ js_state job +:+ "`")%stdpp
  end.

Definition failed_nodes_to_retry (w : CoordinatorTask) : M S (list string) := nodes_to_retry (ct_nodes w).

Fixpoint reopen_failed_nodes (jobs : list string) : M S unit :=
  match jobs with
  | [] => mret tt
  | job_id :: jobs => _ ← write (operator_retry job_id); reopen_failed_nodes jobs
  end.

(** The retry receipt both [enqueue_automatic_retry] and the operator request enqueue. *)
Definition retry_receipt (workflow_id : string) (expected_revision next_revision : Z)
    (queue : string) : result Envelope string :=
  let? e := task_envelope encode sha256 (RetryPayload workflow_id expected_revision) queue in
  prepare_envelope sha256 (e <| e_id := retry_receipt_id workflow_id next_revision |>
    <| e_pending := true |> <| e_retention_ms := DEFAULT_RETENTION_MS |>).

(** ** [request_failed_subgraph_retry_with_recovery] *)

(** The recovery of one node. *)
Definition recover_node (nodes : list NodeSpec) (r : WorkflowRecovery) : M S unit :=
  node ← ok_or (last (filter (λ n, n_name n = wr_node r) nodes))
           ("workflow recovery names unknown node `" +:+ wr_node r +:+ "`")%stdpp;
  job ← read (get_job (n_job_id node) true);
  job ← ok_or job ("workflow node `" +:+ n_job_id node +:+ "` is missing")%stdpp;
  if String.eqb (js_state job) "quarantined" then
    if wr_release_quarantine r then write (quarantine_release (js_fingerprint job))
    else throw ("workflow node `" +:+ wr_node r +:+ "` requires explicit quarantine release")%stdpp
  else if String.eqb (js_state job) "undecodable" then
    replacement ← ok_or (wr_payload r) ("undecodable workflow node `" +:+ wr_node r
                           +:+ "` requires replacement payload")%stdpp;
    version ← ok_or (wr_schema_version r) ("undecodable workflow node `" +:+ wr_node r
                       +:+ "` requires schema_version")%stdpp;
    _ ← write (edit_payload (n_job_id node) replacement version
                 (fingerprint sha256 (js_kind job) replacement));
    write (operator_retry (n_job_id node))
  else if one_of ["archived"; "cancelled"; "available"] (js_state job) then mret tt
  else throw ("workflow node `" +:+ wr_node r +:+ "` does not require recovery from `"
              +:+ js_state job +:+ "`")%stdpp.

Fixpoint recover_nodes (nodes : list NodeSpec) (recovered : list string)
    (recoveries : list WorkflowRecovery) : M S unit :=
  match recoveries with
  | [] => mret tt
  | r :: recoveries =>
      _ ← require (negb (contains recovered (wr_node r)))
            ("workflow recovery repeats node `" +:+ wr_node r +:+ "`")%stdpp;
      _ ← recover_node nodes r;
      recover_nodes nodes (wr_node r :: recovered) recoveries
  end.

(** No node may still need recovery. *)
Fixpoint check_recovered (nodes : list NodeSpec) : M S unit :=
  match nodes with
  | [] => mret tt
  | node :: nodes =>
      job ← read (get_job (n_job_id node) false);
      match job with
      | Some job =>
          _ ← require (negb (one_of ["quarantined"; "undecodable"] (js_state job)))
                ("workflow node `" +:+ n_name node +:+ "` requires recovery from `"
                 +:+ js_state job +:+ "`")%stdpp;
          check_recovered nodes
      | None => check_recovered nodes
      end
  end.

Definition load_coordinator (workflow_id : string) : M S (JobSummary * CoordinatorTask) :=
  job ← read (get_job (coordinator_id workflow_id) true);
  job ← ok_or job ("workflow `" +:+ workflow_id +:+ "` was not found")%stdpp;
  payload ← ok_or (js_payload job) "workflow coordinator payload was not returned";
  match decode_coordinator payload with
  | Ok task => mret (job, task)
  | Err _ => throw "invalid workflow coordinator"
  end.

(** [operator_retry(&coordinator_id)], accepting that it is already reopened. *)
Definition reopen_coordinator (id : string) : M S unit :=
  r ← attempt (write (operator_retry id));
  match r with
  | Ok _ => mret tt
  | Err e =>
      current ← read (get_job id false);
      match current with
      | Some job => require (one_of ["available"; "running"] (js_state job)) e
      | None => throw e
      end
  end.

Definition request_failed_subgraph_retry_with_recovery (workflow_id : string)
    (expected_revision : Z) (recoveries : list WorkflowRecovery) : M S RetryReceipt :=
  _ ← require (negb (String.eqb workflow_id "" || (expected_revision =? 0)))
        "workflow id and expected revision must be set";
  jt ← load_coordinator workflow_id;
  let job := jt.1 in let task := jt.2 in
  _ ← require (ct_failed_subgraph_retry task)
        "workflow was not created with failed-subgraph retry enabled";
  _ ← require (String.eqb (js_state job) "archived") "workflow retry requires an archived coordinator";
  _ ← recover_nodes (ct_nodes task) [] recoveries;
  _ ← check_recovered (ct_nodes task);
  _ ← require has_checkpoint_inspect "workflow retry requires checkpoint inspection support";
  cp ← read (get_job_checkpoint (coordinator_id workflow_id));
  cp ← ok_or cp "workflow coordinator checkpoint is missing";
  _ ← require (bool_decide (cursor_step cp = Some "headgate:workflow-state"))
        "workflow coordinator has no workflow-state checkpoint";
  b ← ok_or (cursor cp) "workflow coordinator cursor is missing";
  c ← match decode_cursor b with Ok c => mret c | Err _ => throw "invalid workflow cursor" end;
  _ ← require (c_failed c && (c_revision c =? expected_revision)) "workflow retry revision conflict";
  next_revision ← ok_or (u64_checked_add expected_revision 1) "workflow retry revision would overflow";
  generation ← ok_or (u32_checked_add (c_generation c) 1) "workflow generation would overflow";
  receipt ← lift (retry_receipt workflow_id expected_revision next_revision (js_queue job));
  _ ← write (inspect_enqueue [receipt]);
  _ ← reopen_coordinator (coordinator_id workflow_id);
  mret (mkRetryReceipt next_revision generation).

Definition request_failed_subgraph_retry (workflow_id : string) (expected_revision : Z)
    : M S RetryReceipt :=
  request_failed_subgraph_retry_with_recovery workflow_id expected_revision [].

(** ** Reconciling a retry *)

(** One child link of [retry_failed_children]. *)
Definition retry_failed_child (node : NodeSpec) : M S unit :=
  match n_child_workflow_id node with
  | None => mret tt
  | Some child =>
      link ← read (get_job (n_job_id node) false);
      match link with
      | None => mret tt
      | Some link =>
          if negb (one_of ["archived"; "cancelled"] (js_state link)) then mret tt else
          job ← read (get_job (coordinator_id child) false);
          job ← ok_or job ("child workflow `" +:+ child +:+ "` is missing")%stdpp;
          if negb (String.eqb (js_state job) "archived") then mret tt else
          cp ← read (get_job_checkpoint (coordinator_id child));
          cp ← ok_or cp ("child workflow `" +:+ child +:+ "` has no checkpoint")%stdpp;
          b ← ok_or (cursor cp) "child workflow cursor is missing";
          c ← lift (decode_cursor b);
          _ ← request_failed_subgraph_retry child (c_revision c);
          mret tt
      end
  end.

Fixpoint retry_children (nodes : list NodeSpec) : M S unit :=
  match nodes with
  | [] => mret tt
  | node :: nodes =>
      _ ← if bool_decide (n_kind node = NodeType.ChildWorkflow) then retry_failed_child node else mret tt;
      retry_children nodes
  end.

Definition retry_failed_children (w : CoordinatorTask) : M S unit :=
  _ ← require has_checkpoint_inspect
        "child retry propagation requires checkpoint inspection support";
  retry_children (ct_nodes w).

(** The accepted retry receipt: [Some] ends the tick, [None] goes on with the cursor. *)
Definition settle_retry (base : CoordinatorTask) (c : WorkflowCursor)
    : M S (WorkflowCursor * option Tick.Tick) :=
  match c_pending_retry_receipt c with
  | None => mret (c, None)
  | Some receipt_id =>
      receipt ← read (get_job receipt_id false);
      receipt ← ok_or receipt ("accepted workflow retry receipt `" +:+ receipt_id +:+ "` is missing")%stdpp;
      if String.eqb (js_state receipt) "pending" then
        jobs ← failed_nodes_to_retry (effective_workflow base c);
        _ ← reopen_failed_nodes jobs;
        _ ← write (promote_job receipt_id);
        mret (c, Some Tick.Waiting)
      else if one_of ["available"; "running"] (js_state receipt) then mret (c, Some Tick.Waiting)
      else if String.eqb (js_state receipt) "completed" then
        let c := c <| c_pending_retry_receipt := None |> in
        _ ← persist_workflow_cursor c;
        mret (c, None)
      else throw ("accepted workflow retry receipt `" +:+ receipt_id +:+ "` entered `"
                  +:+ js_state receipt +:+ "`")%stdpp
  end.

(** A graft competing for the same revision is rejected. *)
Definition reject_competing (base : CoordinatorTask) (next_revision : Z) : M S unit :=
  let id := graft_receipt_id (ct_workflow_id base) next_revision in
  competing ← read (get_job id true);
  match competing with
  | None => mret tt
  | Some job =>
      _ ← require (String.eqb (js_state job) "pending")
            ("competing workflow graft receipt `" +:+ id +:+ "` entered `" +:+ js_state job +:+ "`")%stdpp;
      let nodes := match js_payload job with
                   | Some p => match decode_graft p with Ok g => g.2 | Err _ => [] end
                   | None => []
                   end in
      reject_graft id nodes
  end.

(** The cursor of an accepted retry. *)
Definition accept_retry (c : WorkflowCursor) (next_revision : Z) (receipt_id : string)
    : result WorkflowCursor string :=
  match u32_checked_add (c_generation c) 1 with
  | None => Err "workflow generation would overflow"
  | Some generation =>
      let? c := record_event "workflow_retry_accepted" None None
        (c <| c_generation := generation |> <| c_revision := next_revision |> <| c_failed := false |>) in
      Ok (c <| c_pending_retry_receipt := Some receipt_id |>)
  end.

Definition reconcile_retry (base : CoordinatorTask) (c : WorkflowCursor)
    : M S (WorkflowCursor * option Tick.Tick) :=
  cr ← settle_retry base c;
  match cr with
  | (c, Some t) => mret (c, Some t)
  | (c, None) =>
      next_revision ← ok_or (u64_checked_add (c_revision c) 1) "workflow revision would overflow";
      let receipt_id := retry_receipt_id (ct_workflow_id base) next_revision in
      receipt ← read (get_job receipt_id true);
      match receipt with
      | None => mret (c, None)
      | Some receipt =>
          _ ← require (String.eqb (js_state receipt) "pending")
                ("unaccepted workflow retry receipt `" +:+ receipt_id +:+ "` entered `"
                 +:+ js_state receipt +:+ "`")%stdpp;
          payload ← ok_or (js_payload receipt)
                      ("workflow retry receipt `" +:+ receipt_id +:+ "` did not return its payload")%stdpp;
          match decode_retry payload with
          | Err _ => _ ← reject_graft receipt_id []; mret (c, Some Tick.Failed)
          | Ok (workflow_id, expected_revision) =>
              if negb (ct_failed_subgraph_retry base) || negb (c_failed c)
                 || negb (String.eqb workflow_id (ct_workflow_id base))
                 || negb (expected_revision =? c_revision c) then
                _ ← reject_graft receipt_id [];
                mret (c, Some (if c_failed c then Tick.Failed else Tick.Waiting))
              else
                _ ← reject_competing base next_revision;
                let w := effective_workflow base c in
                _ ← retry_failed_children w;
                jobs ← attempt (failed_nodes_to_retry w);
                match jobs with
                | Err _ => _ ← reject_graft receipt_id []; mret (c, Some Tick.Failed)
                | Ok jobs =>
                    c ← lift (accept_retry c next_revision receipt_id);
                    _ ← persist_workflow_cursor c;
                    _ ← reopen_failed_nodes jobs;
                    _ ← write (promote_job receipt_id);
                    mret (c, Some Tick.Waiting)
                end
          end
      end
  end.

(** ** Reconciling a graft *)

Definition settle_graft (c : WorkflowCursor) : M S (WorkflowCursor * option Tick.Tick) :=
  match c_pending_graft_receipt c with
  | None => mret (c, None)
  | Some receipt_id =>
      receipt ← read (get_job receipt_id false);
      receipt ← ok_or receipt ("accepted workflow graft receipt `" +:+ receipt_id +:+ "` is missing")%stdpp;
      if String.eqb (js_state receipt) "pending" then
        _ ← write (promote_job receipt_id);
        mret (c, Some Tick.Waiting)
      else if one_of ["available"; "running"] (js_state receipt) then mret (c, Some Tick.Waiting)
      else if String.eqb (js_state receipt) "completed" then
        let c := c <| c_pending_graft_receipt := None |> in
        _ ← persist_workflow_cursor c;
        mret (c, None)
      else throw ("accepted workflow graft receipt `" +:+ receipt_id +:+ "` entered `"
                  +:+ js_state receipt +:+ "`")%stdpp
  end.

(** The cursor of an accepted graft. *)
Definition accept_graft (c : WorkflowCursor) (next_revision : Z) (nodes : list NodeSpec)
    (receipt_id : string) : result WorkflowCursor string :=
  let? c := record_event "workflow_graft_accepted" None None
    (c <| c_revision := next_revision |> <| c_grafts := c_grafts c ++ nodes |>) in
  Ok (c <| c_pending_graft_receipt := Some receipt_id |>).

Definition graft_candidate (base : CoordinatorTask) (c : WorkflowCursor) (nodes : list NodeSpec)
    : CoordinatorTask :=
  effective_workflow base (c <| c_grafts := c_grafts c ++ nodes |>).

Definition reconcile_graft (base : CoordinatorTask) (c : WorkflowCursor)
    : M S (WorkflowCursor * option Tick.Tick) :=
  _ ← require (negb (c_revision c =? 0)) "workflow cursor contains revision zero";
  cr ← settle_graft c;
  match cr with
  | (c, Some t) => mret (c, Some t)
  | (c, None) =>
      next_revision ← ok_or (u64_checked_add (c_revision c) 1) "workflow revision would overflow";
      let receipt_id := graft_receipt_id (ct_workflow_id base) next_revision in
      receipt ← read (get_job receipt_id true);
      match receipt with
      | None => mret (c, None)
      | Some receipt =>
          _ ← require (String.eqb (js_state receipt) "pending")
                ("unaccepted workflow graft receipt `" +:+ receipt_id +:+ "` entered `"
                 +:+ js_state receipt +:+ "`")%stdpp;
          payload ← ok_or (js_payload receipt)
                      ("workflow graft receipt `" +:+ receipt_id +:+ "` did not return its payload")%stdpp;
          match decode_graft payload with
          | Err _ => _ ← reject_graft receipt_id []; mret (c, Some Tick.Waiting)
          | Ok (workflow_id, expected_revision, nodes) =>
              if negb (String.eqb workflow_id (ct_workflow_id base))
                 || negb (expected_revision =? c_revision c) || is_empty nodes || c_failed c
                 || negb (is_ok (validate (graft_candidate base c nodes))) then
                _ ← reject_graft receipt_id nodes;
                mret (c, Some Tick.Waiting)
              else
                c ← lift (accept_graft c next_revision nodes receipt_id);
                _ ← persist_workflow_cursor c;
                _ ← write (promote_job receipt_id);
                mret (c, Some Tick.Waiting)
          end
      end
  end.

(** ** The tick *)

Fixpoint read_states (nodes : list NodeSpec) : M S States :=
  match nodes with
  | [] => mret ∅
  | node :: nodes =>
      job ← read (get_job (n_job_id node) false);
      rest ← read_states nodes;
      mret (<[n_name node := job]> rest)
  end.

Fixpoint apply_mutations (ms : list (string * bool)) : M S unit :=
  match ms with
  | [] => mret tt
  | (job_id, delete) :: ms =>
      _ ← write (if delete : bool then delete_job job_id else promote_job job_id);
      apply_mutations ms
  end.

Definition tick_with_evidence (w : CoordinatorTask) (c : WorkflowCursor) (persist : bool)
    : M S (WorkflowCursor * Tick.Tick) :=
  _ ← lift (validate w);
  let before := completed_set w (c_completed c) in
  state ← read_states (ct_nodes w);
  let e := record_completion_evidence w state before (c_completed_at_ms c) in
  let completed := evd_completed e in
  c ← lift (record_completions before completed (ct_nodes w)
              (c <| c_completed_at_ms := evd_at_ms e |>));
  c ← (if evd_changed e && persist then
         let c := c <| c_completed := completed_names w completed |> in
         _ ← persist_workflow_cursor c; mret c
       else mret c);
  let failed := failed_set w state completed in
  dec ← lift (plan cel_compiles cel_execute c w state completed failed);
  match dec with
  | Schedule job_id wake_at_ms =>
      _ ← write (schedule_pending_job job_id wake_at_ms);
      mret (c, Tick.Waiting)
  | Mutate [] => mret (c, verdict w state completed failed)
  | Mutate ms => _ ← apply_mutations ms; mret (c, Tick.Waiting)
  end.

(** ** The handler *)

Definition enqueue_automatic_retry (base : CoordinatorTask) (c : WorkflowCursor) (queue : string)
    : M S WorkflowCursor :=
  _ ← require (c_failed c) "automatic retry is pending for a non-failed workflow";
  next_revision ← ok_or (u64_checked_add (c_revision c) 1) "workflow retry revision would overflow";
  receipt ← lift (retry_receipt (ct_workflow_id base) (c_revision c) next_revision queue);
  _ ← write (inspect_enqueue [receipt]);
  let c := c <| c_automatic_retry_pending := false |> in
  _ ← persist_workflow_cursor c;
  mret c.

Definition handled_of (poll_ms : Z) (t : Tick.Tick) : Handled :=
  match t with
  | Tick.Waiting => Snoozed poll_ms
  | Tick.Succeeded => Finished
  | Tick.Failed => Skipped
  end.

(** The failed branch of the handler's final [match]. *)
Definition finish_failed (task : CoordinatorTask) (c : WorkflowCursor) : M S Handled :=
  c ← lift
    (if ct_failed_subgraph_retry task then
       let c := c <| c_failed := true |> in
       if match ct_retry_policy task with
          | Some p => c_generation c <? max_generations p | None => false end
       then record_event "automatic_retry_scheduled" None None (c <| c_automatic_retry_pending := true |>)
       else record_event "workflow_failed" None None c
     else record_event "workflow_failed" None None c);
  _ ← persist_workflow_cursor c;
  if c_automatic_retry_pending c then
    p ← ok_or (ct_retry_policy task) "automatic retry policy";
    _ ← require (negb (backoff_ms p <? 0)) "invalid workflow retry backoff";
    mret (Snoozed (backoff_ms p))
  else mret Skipped.

Definition finish_tick (task : CoordinatorTask) (c : WorkflowCursor) (poll_ms : Z) (t : Tick.Tick)
    : M S Handled :=
  match t with
  | Tick.Waiting => mret (Snoozed poll_ms)
  | Tick.Succeeded =>
      c ← lift (record_event "workflow_succeeded" None None c);
      _ ← persist_workflow_cursor c;
      mret Finished
  | Tick.Failed => finish_failed task c
  end.

(** The closure [register_coordinator] hands to [step_cursor]; [saved] is the cursor the
    checkpoint holds, [queue] the coordinator's own queue. *)
Definition coordinator_handler (task : CoordinatorTask) (saved : option bytes) (queue : string)
    (poll_ms : Z) : M S Handled :=
  c ← match saved with Some b => lift (decode_cursor b) | None => mret default_cursor end;
  c ← (if is_empty (c_events c) then
         c ← lift (record_event "workflow_started" None None c);
         _ ← persist_workflow_cursor c; mret c
       else mret c);
  c ← (if c_automatic_retry_pending c then enqueue_automatic_retry task c queue else mret c);
  cr ← reconcile_retry task c;
  match cr with
  | (_, Some t) => mret (handled_of poll_ms t)
  | (c, None) =>
      cr ← reconcile_graft task c;
      match cr with
      | (_, Some t) => mret (handled_of poll_ms t)
      | (c, None) =>
          ct ← tick_with_evidence (effective_workflow task c) c true;
          finish_tick task ct.1 poll_ms ct.2
      end
  end.

(** The handler of a child link. *)
Definition child_handler (parent child : string) (poll_ms : Z) : M S Handled :=
  _ ← require (negb (String.eqb child "" || String.eqb child parent)) "invalid child workflow link";
  job ← read (get_job (coordinator_id child) false);
  job ← ok_or job ("child workflow `" +:+ coordinator_id child +:+ "` was not found")%stdpp;
  mret (if String.eqb (js_state job) "completed" then Finished
        else if one_of ["archived"; "cancelled"; "quarantined"; "undecodable"] (js_state job) then Skipped
        else Snoozed poll_ms).
End coordinator.
