(* ===== verification/Operators.v ===== *)
(** * headgate-workflow: operator requests

    Signals, cancellation and inspection of running workflows
    ([crates/headgate-workflow/src/lib.rs]), over the same [Inspect] port as the
    coordinator. *)

From S2P Require Import Prelude Shared Envelope Graph Workflow Core Tick Coordinator.
Local Open Scope Z_scope.

Definition MAX_SIGNAL_PAYLOAD_BYTES : Z := 64 * 1024.
Definition MAX_SIGNAL_SOURCE_BYTES : Z := 16 * 1024.

Record SignalEmission := mkEmission {
  em_signal : string;
  em_idempotency_key : string;
  em_payload : json;
  em_source : json;
}.

Record WorkflowSignal := mkWorkflowSignal {
  ws_id : Z;
  ws_signal : string;
  ws_idempotency_key : string;
  ws_payload : json;
  ws_source : json;
  ws_recorded_at_ms : Z;
}.

Record SignalReceipt := mkSignalReceipt {
  sr_matched : nat;
  sr_promoted : nat;
  sr_inserted : bool;
  sr_emission : WorkflowSignal;
}.

Record WorkflowNode := mkWorkflowNode {
  wn_name : string;
  wn_job_id : string;
  wn_kind : NodeType.NodeType;
  wn_job_kind : string;
  wn_state : string;
  wn_dependencies : list string;
  wn_dependents : list string;
  wn_signal : option string;
  wn_wake_at_ms : option Z;
  wn_delay_ms : option Z;
  wn_child_workflow_id : option string;
  wn_condition : option string;
  wn_completed_at_ms : option Z;
}.

Record WorkflowSnapshot := mkSnapshot {
  sn_workflow_id : string;
  sn_coordinator_job_id : string;
  sn_coordinator_state : string;
  sn_revision : Z;
  sn_generation : Z;
  sn_failed : bool;
  sn_failed_subgraph_retry : bool;
  sn_retry_policy : option WorkflowRetryPolicy;
  sn_nodes : list WorkflowNode;
}.

Record WorkflowSummary := mkWorkflowSummary {
  wsm_workflow_id : string;
  wsm_coordinator_job_id : string;
  wsm_state : string;
  wsm_enqueued_at_ms : Z;
  wsm_scheduled_at_ms : Z;
  wsm_finalized_at_ms : option Z;
}.

Record WorkflowPage := mkWorkflowPage { wp_workflows : list WorkflowSummary; wp_next_cursor : option string }.

Definition snapshot_node (s : WorkflowSnapshot) (name : string) : option WorkflowNode :=
  List.find (λ n, String.eqb (wn_name n) name) (sn_nodes s).
Definition snapshot_dependencies (s : WorkflowSnapshot) (name : string) : option (list WorkflowNode) :=
  node ← snapshot_node s name; Some (omap (snapshot_node s) (wn_dependencies node)).
Definition snapshot_dependents (s : WorkflowSnapshot) (name : string) : option (list WorkflowNode) :=
  node ← snapshot_node s name; Some (omap (snapshot_node s) (wn_dependents node)).

Definition workflow_signal_scope (workflow_id : string) : string :=
  ("workflow:" +:+ workflow_id +:+ ":signals")%stdpp.

(** [str::strip_suffix(..).unwrap_or(s)]. *)
Fixpoint strip_suffix_or (suffix s : string) : string :=
  if String.eqb s suffix then "" else
  match s with EmptyString => "" | String c s => String c (strip_suffix_or suffix s) end.

(** One entry of [list_workflows]. *)
Definition workflow_summary (j : JobSummary) : WorkflowSummary :=
  mkWorkflowSummary (strip_suffix_or ":coordinator" (js_id j)) (js_id j) (js_state j)
    (js_enqueued_at_ms j) (js_scheduled_at_ms j) (js_finalized_at_ms j).

Section operators.
Context {S : Type} `{Inspect S}.
Context (decode_coordinator : bytes → result CoordinatorTask string).
Context (decode_cursor : bytes → result WorkflowCursor string).
(** [serde_json::to_vec] and [serde_json::from_slice] of a [Value]. *)
Context (to_vec : json → result bytes string).
Context (from_slice : bytes → result json string).

(** ** Signals *)

Definition workflow_signal (e : DurableEvent) : result WorkflowSignal string :=
  match from_slice (de_payload e), from_slice (de_source e) with
  | Err _, _ => Err "invalid signal payload"
  | Ok _, Err _ => Err "invalid signal source"
  | Ok p, Ok s => Ok (mkWorkflowSignal (de_event_id e) (de_topic e) (de_idempotency_key e) p s
                        (de_recorded_at_ms e))
  end.

Definition signal_jobs (task : CoordinatorTask) (signal : string) : list string :=
  n_job_id <$> filter (λ n, n_kind n = NodeType.Signal ∧ n_signal n = Some signal) (ct_nodes task).

(** Release one signal job; [true] when this call promoted it. *)
Definition release_signal (job_id : string) : M S bool :=
  job ← read (get_job job_id false);
  job ← ok_or job ("signal job `" +:+ job_id +:+ "` was not found")%stdpp;
  if String.eqb (js_state job) "pending" then
    r ← attempt (write (promote_job job_id));
    match r with
    | Ok _ => mret true
    | Err e =>
        current ← read (get_job job_id false);
        match current with
        | Some job =>
            _ ← require (one_of ["available"; "running"; "completed"] (js_state job)) e; mret false
        | None => throw e
        end
    end
  else
    _ ← require (one_of ["available"; "running"; "completed"] (js_state job))
          ("signal job `" +:+ job_id +:+ "` cannot be emitted from state `" +:+ js_state job +:+ "`")%stdpp;
    mret false.

Fixpoint release_signals (jobs : list string) : M S nat :=
  match jobs with
  | [] => mret 0%nat
  | job_id :: jobs =>
      b ← release_signal job_id;
      n ← release_signals jobs;
      mret (if b : bool then (1 + n)%nat else n)
  end.

Definition append_event (e : DurableEvent) : M S (DurableEvent * bool) := λ s,
  match append_durable_event e s with
  | Ok (stored, inserted, s') => (Ok (stored, inserted), s')
  | Err m => (Err m, s)
  end.

Definition emit_signal_with (workflow_id : string) (em : SignalEmission) : M S SignalReceipt :=
  _ ← require (negb (String.eqb workflow_id "" || String.eqb (em_signal em) ""))
        "workflow id and signal must not be empty";
  jt ← load_coordinator decode_coordinator workflow_id;
  let jobs := signal_jobs jt.2 (em_signal em) in
  _ ← require (negb (is_empty jobs))
        ("workflow `" +:+ workflow_id +:+ "` has no signal `" +:+ em_signal em +:+ "`")%stdpp;
  _ ← require (negb (String.eqb (em_idempotency_key em) "")) "signal idempotency key must not be empty";
  payload ← lift (to_vec (em_payload em));
  source ← lift (to_vec (em_source em));
  _ ← require (negb (MAX_SIGNAL_PAYLOAD_BYTES <? str_len payload))
        "signal payload must be at most 65536 bytes";
  _ ← require (negb (MAX_SIGNAL_SOURCE_BYTES <? str_len source))
        "signal source must be at most 16384 bytes";
  si ← append_event (mkDurableEvent 0 (workflow_signal_scope workflow_id) (em_signal em)
                       (em_idempotency_key em) payload source 0);
  promoted ← release_signals jobs;
  emission ← lift (workflow_signal si.1);
  mret (mkSignalReceipt (length jobs) promoted si.2 emission).

Definition emit_signal (workflow_id signal : string) : M S SignalReceipt :=
  emit_signal_with workflow_id
    (mkEmission signal ("legacy:" +:+ signal)%stdpp JNull (JObject [])).

Fixpoint collect_signals (l : list DurableEvent) : result (list WorkflowSignal) string :=
  match l with
  | [] => Ok []
  | e :: l => let? s := workflow_signal e in let? rest := collect_signals l in Ok (s :: rest)
  end.

Definition list_signals (workflow_id : string) (before_id : option Z) (limit : Z)
    : M S (list WorkflowSignal) :=
  _ ← require (negb (String.eqb workflow_id "")) "workflow id must not be empty";
  l ← read (list_durable_events (workflow_signal_scope workflow_id) before_id limit);
  lift (collect_signals l).

(** ** Cancellation *)

Definition cancellable (s : string) : bool :=
  one_of ["pending"; "scheduled"; "available"; "running"; "retryable"] s.

(** Cancel what can be cancelled among [ids]; the number of jobs cancelled. *)
Fixpoint cancel_jobs (ids : list string) : M S Z :=
  match ids with
  | [] => mret 0
  | job_id :: ids =>
      job ← read (get_job job_id false);
      match job with
      | None => cancel_jobs ids
      | Some job =>
          if cancellable (js_state job) then
            _ ← write (operator_cancel job_id);
            n ← cancel_jobs ids;
            mret (1 + n)
          else cancel_jobs ids
      end
  end.

(** One workflow: its base nodes, then its coordinator; returns the child workflows. *)
Definition cancel_one (current : string) : M S (list string * Z) :=
  jt ← load_coordinator decode_coordinator current;
  n ← cancel_jobs ((n_job_id <$> ct_nodes jt.2) ++ [coordinator_id current]);
  mret (omap n_child_workflow_id (ct_nodes jt.2), n).

(** [pending.pop_front()] until an unvisited workflow comes up. *)
Fixpoint next_unvisited (visited pending : list string) : option (string * list string) :=
  match pending with
  | [] => None
  | w :: pending => if contains visited w then next_unvisited visited pending else Some (w, pending)
  end.

(** The traversal; every round visits a new workflow and at most [MAX_WORKFLOW_NODES] are
    allowed, so that many rounds and one are enough. *)
Fixpoint cancel_loop (fuel : nat) (propagate : bool) (visited pending : list string) (jobs : Z)
    : M S CancelReceipt :=
  match fuel with
  | O => throw "out of fuel"
  | Datatypes.S fuel =>
      match next_unvisited visited pending with
      | None => mret (mkCancelReceipt (length visited) jobs)
      | Some (current, pending) =>
          let visited := current :: visited in
          _ ← require (negb (MAX_WORKFLOW_NODES <? Z.of_nat (length visited)))
                "workflow cancellation exceeds the bounded nested-workflow limit";
          cn ← cancel_one current;
          cancel_loop fuel propagate visited (pending ++ (if propagate then cn.1 else [])) (jobs + cn.2)
      end
  end.

Definition cancel_workflow (workflow_id : string) (propagate_children : bool) : M S CancelReceipt :=
  _ ← require (negb (String.eqb workflow_id "")) "workflow id must not be empty";
  cancel_loop 1001 propagate_children [] [workflow_id] 0.

(** ** Inspection *)

Definition terminal_state (s : string) : bool :=
  one_of ["completed"; "archived"; "cancelled"; "quarantined"; "undecodable"] s.

Definition load_workflow_cursor (job_id state : string) : M S WorkflowCursor :=
  _ ← require has_checkpoint_inspect "workflow inspection requires checkpoint inspection support";
  cp ← read (get_job_checkpoint job_id);
  match cp with
  | None => mret default_cursor
  | Some cp =>
      _ ← require (match cursor_step cp with
                   | Some step => String.eqb step "headgate:workflow-state" | None => true end)
            "workflow coordinator has no workflow-state checkpoint";
      b ← match cursor cp with
          | Some b => mret (Some b)
          | None => if has_output_inspect
                    then o ← read (inspect_output job_id); mret (o_bytes <$> o) else mret None
          end;
      _ ← require (is_some b || negb (terminal_state state))
            "terminal workflow has no durable coordinator output";
      match b with
      | None => mret default_cursor
      | Some b => match decode_cursor b with Ok c => mret c | Err _ => throw "invalid workflow cursor" end
      end
  end.

Definition workflow_events (workflow_id : string) : M S (list WorkflowEvent) :=
  _ ← require has_checkpoint_inspect "workflow history requires checkpoint inspection support";
  cp ← read (get_job_checkpoint (coordinator_id workflow_id));
  cp ← ok_or cp ("workflow `" +:+ workflow_id +:+ "` was not found")%stdpp;
  _ ← require (match cursor_step cp with
               | Some step => String.eqb step "headgate:workflow-state" | None => true end)
        "workflow coordinator has no workflow-state checkpoint";
  b ← match cursor cp with
      | Some b => mret b
      | None =>
          _ ← require has_output_inspect "workflow history requires output inspection support";
          o ← read (inspect_output (coordinator_id workflow_id));
          o ← ok_or o "workflow has no durable history";
          mret (o_bytes o)
      end;
  match decode_cursor b with Ok c => mret (c_events c) | Err _ => throw "invalid workflow cursor" end.

(** The nodes that list [name] as a dependency, once per occurrence, in node order. *)
Definition dependents_of (nodes : list NodeSpec) (name : string) : list string :=
  nodes ≫= λ n, (λ _, n_name n) <$> filter (λ d, d = name) (n_deps n).

Definition inspect_node (c : WorkflowCursor) (nodes : list NodeSpec) (node : NodeSpec) : M S WorkflowNode :=
  job ← read (get_job (n_job_id node) false);
  let '(state, kind) :=
    match job with
    | None => (if contains (c_completed c) (n_name node) then "completed" else "missing", "")
    | Some job => (js_state job, js_kind job)
    end in
  mret (mkWorkflowNode (n_name node) (n_job_id node) (n_kind node) kind state (n_deps node)
          (dependents_of nodes (n_name node)) (n_signal node) (n_wake_at_ms node) (n_delay_ms node)
          (n_child_workflow_id node) (n_condition node) (c_completed_at_ms c !! n_name node)).

Fixpoint inspect_nodes (c : WorkflowCursor) (all nodes : list NodeSpec) : M S (list WorkflowNode) :=
  match nodes with
  | [] => mret []
  | node :: nodes =>
      n ← inspect_node c all node;
      rest ← inspect_nodes c all nodes;
      mret (n :: rest)
  end.

Definition inspect_workflow (workflow_id : string) : M S WorkflowSnapshot :=
  _ ← require (negb (String.eqb workflow_id "")) "workflow id must not be empty";
  jt ← load_coordinator decode_coordinator workflow_id;
  let job := jt.1 in let base := jt.2 in
  c ← load_workflow_cursor (coordinator_id workflow_id) (js_state job);
  let nodes := ct_nodes (effective_workflow base c) in
  ns ← inspect_nodes c nodes nodes;
  mret (mkSnapshot workflow_id (coordinator_id workflow_id) (js_state job) (c_revision c)
          (c_generation c) (c_failed c) (ct_failed_subgraph_retry base) (ct_retry_policy base) ns).

Definition list_workflows (cursor : option string) (limit : Z) : M S WorkflowPage :=
  _ ← require ((1 <=? limit) && (limit <=? 200)) "workflow list limit must be between 1 and 200";
  page ← read (list_jobs (mkJobFilter None None (Some "headgate:workflow") None None None None None None [] [])
                 cursor limit);
  mret (mkWorkflowPage (workflow_summary <$> jp_jobs page) (jp_next_cursor page)).

Definition workflow_node (workflow_id node : string) : M S WorkflowNode :=
  s ← inspect_workflow workflow_id;
  ok_or (snapshot_node s node) ("workflow node `" +:+ node +:+ "` was not found")%stdpp.
Definition workflow_dependencies (workflow_id node : string) : M S (list WorkflowNode) :=
  s ← inspect_workflow workflow_id;
  ok_or (snapshot_dependencies s node) ("workflow node `" +:+ node +:+ "` was not found")%stdpp.
Definition workflow_dependents (workflow_id node : string) : M S (list WorkflowNode) :=
  s ← inspect_workflow workflow_id;
  ok_or (snapshot_dependents s node) ("workflow node `" +:+ node +:+ "` was not found")%stdpp.
End operators.
