(* ===== verification/CoordSpec.v ===== *)
(** * Correctness of the coordinator

    What the port promises ([InspectLaws], an abstract view of the store that every
    operation acts on in its documented way) and what the coordinator makes of it: on
    every exit, errors included, the cursor it has persisted describes a valid workflow at
    most one revision further, and a tick changes exactly the jobs its plan names. *)

From S2P Require Import Prelude Shared Envelope Graph Workflow WorkflowSpec Core Tick TickSpec Coordinator.
Local Open Scope Z_scope.

(** ** The promise of the port *)

(** [view] is the state of every job, [payloads] its payload, [saved] the cursor bytes of
    the coordinator's own checkpoint.  The laws are the transitions the port documents for each operation. *)
Class InspectLaws (S : Type) `{Inspect S} `{CoordinatorCtx S} := {
  view : S → gmap string string;
  payloads : S → gmap string bytes;
  saved : S → option bytes;
  get_job_view id p s o : get_job id p s = Ok o → js_state <$> o = view s !! id;
  get_job_payload id s o : get_job id true s = Ok o → o ≫= js_payload = payloads s !! id;
  promote_job_view id s s' : promote_job id s = Ok s' →
    view s !! id = Some "pending" ∧ view s' = <[id := "available"]> (view s) ∧ saved s' = saved s;
  schedule_pending_job_view id t s s' : schedule_pending_job id t s = Ok s' →
    view s !! id = Some "pending" ∧ view s' = <[id := "scheduled"]> (view s) ∧ saved s' = saved s;
  delete_job_view id s s' : delete_job id s = Ok s' →
    view s !! id ≠ Some "running" ∧ view s' = delete id (view s) ∧ saved s' = saved s;
  operator_retry_view id s s' : operator_retry id s = Ok s' →
    view s' = <[id := "available"]> (view s) ∧ saved s' = saved s;
  operator_cancel_view id s s' : operator_cancel id s = Ok s' →
    (∃ st, view s !! id = Some st) ∧ view s' = <[id := "cancelled"]> (view s)
    ∧ payloads s' = payloads s ∧ saved s' = saved s;
  inspect_enqueue_saved batch s s' : inspect_enqueue batch s = Ok s' → saved s' = saved s;
  quarantine_release_saved fp s s' : quarantine_release fp s = Ok s' → saved s' = saved s;
  edit_payload_view id b v fp s s' : edit_payload id b v fp s = Ok s' →
    view s' = view s ∧ saved s' = saved s;
  set_cursor_view b s s' : set_cursor b s = Ok s' → view s' = view s ∧ saved s' = Some b;
  persist_output_view n b s s' : persist_output n b s = Ok s' → view s' = view s ∧ saved s' = saved s;
}.

(** ** Triples

    [triple I m Q]: [m] preserves [I] whether it succeeds or fails, and its result
    satisfies [Q]. *)

Section triples.
Context {S : Type} (I : S → Prop).

Definition triple {A} (m : M S A) (Q : A → Prop) : Prop :=
  ∀ s, I s → I (m s).2 ∧ ∀ a, (m s).1 = Ok a → Q a.

Lemma triple_ret {A} (a : A) (Q : A → Prop) : Q a → triple (mret a) Q.
Proof. intros HQ s Hs. split; [done|]. by intros ? [= <-]. Qed.

Lemma triple_bind {A B} (m : M S A) (k : A → M S B) (P : A → Prop) (Q : B → Prop) :
  triple m P → (∀ a, P a → triple (k a) Q) → triple (m ≫= k) Q.
Proof.
  intros Hm Hk s Hs. destruct (Hm s Hs) as [HI HP].
  unfold mbind, M_bind. destruct (m s) as [[a|e] s'] eqn:E; simpl in *; [|done].
  by apply (Hk a (HP a eq_refl) s').
Qed.

Lemma triple_throw {A} e (Q : A → Prop) : triple (throw e) Q.
Proof. by intros s Hs. Qed.
Lemma triple_lift {A} (r : result A string) (Q : A → Prop) : (∀ a, r = Ok a → Q a) → triple (lift r) Q.
Proof. by intros HQ s Hs. Qed.
Lemma triple_read {A} (f : S → result A string) (Q : A → Prop) :
  (∀ s a, I s → f s = Ok a → Q a) → triple (read f) Q.
Proof. intros HQ s Hs. split; [done|]. intros a Ha. by eapply HQ. Qed.
Lemma triple_write f (Q : unit → Prop) :
  (∀ s s', I s → f s = Ok s' → I s' ∧ Q tt) → triple (write f) Q.
Proof.
  intros HQ s Hs. unfold write. destruct (f s) as [s'|e] eqn:E; simpl.
  - destruct (HQ s s' Hs E). split; [done|]. by intros [] _.
  - done.
Qed.
Lemma triple_require b e (Q : unit → Prop) : (b = true → Q tt) → triple (require b e) Q.
Proof. destruct b; intros HQ; [by apply triple_ret, HQ|apply triple_throw]. Qed.
Lemma triple_ok_or {A} (o : option A) e (Q : A → Prop) : (∀ a, o = Some a → Q a) → triple (ok_or o e) Q.
Proof. destruct o; intros HQ; [by apply triple_ret, HQ|apply triple_throw]. Qed.
Lemma triple_lift_eq {A} (r : result A string) : triple (lift r) (λ a, r = Ok a).
Proof. by apply triple_lift. Qed.
Lemma triple_ok_or_eq {A} (o : option A) e : triple (ok_or o e) (λ a, o = Some a).
Proof. by apply triple_ok_or. Qed.
Lemma triple_attempt {A} (m : M S A) (Q : A → Prop) :
  triple m Q → triple (attempt m) (λ r, ∀ a, r = Ok a → Q a).
Proof.
  intros Hm s Hs. destruct (Hm s Hs) as [HI HQ]. unfold attempt. destruct (m s) as [r s']; simpl in *.
  split; [done|]. by intros r' [= <-].
Qed.
Lemma triple_weaken {A} (m : M S A) (P Q : A → Prop) :
  triple m P → (∀ a, P a → Q a) → triple m Q.
Proof. intros Hm HPQ s Hs. destruct (Hm s Hs). split; [done|]. eauto. Qed.

(** One step of a run: what holds of every run of the continuation from a state the
    invariant allows, and of every failure of the step, holds of the whole run. *)
Lemma triple_seq {A B} (m : M S A) (k : A → M S B) (P : A → Prop) (R : result B string * S → Prop) s :
  triple m P → I s → (∀ a s', P a → I s' → R (k a s')) → (∀ e s', I s' → R (Err e, s')) →
  R ((m ≫= k) s).
Proof.
  intros Hm Hs Hk He. destruct (Hm s Hs) as [HI HP]. unfold mbind, M_bind.
  destruct (m s) as [[a|e] s'] eqn:E; simpl in *; [by apply Hk; [apply HP|]|by apply He].
Qed.
End triples.

(** The postcondition of a step whose result does not matter. *)
Definition any {A} (_ : A) : Prop := True.

Create HintDb coordinator discriminated.
#[export] Hint Resolve triple_attempt : coordinator.

(** Walk through monadic code: every step has a postcondition of its own ([any] unless a
    lemma of the hint base [coordinator] gives a better one); writes are closed by the hints. *)
Ltac triple_step :=
  match goal with
  | |- triple _ (mret _) _ => apply triple_ret
  | |- triple _ (throw _) _ => apply triple_throw
  | |- triple _ (lift _) _ => apply triple_lift; intros ? ?
  | |- triple _ (read _) _ => apply triple_read; intros ? ? ? ?
  | |- triple _ (require _ _) _ => apply triple_require; intros ?
  | |- triple _ (ok_or _ _) _ => apply triple_ok_or; intros ? ?
  | |- triple _ (?m ≫= _) _ => first
      [ eapply triple_bind; [solve [eauto 4 with coordinator nocore]|intros ? ?; cbv beta in * |-]
      | eapply triple_bind; [apply triple_lift_eq || apply triple_ok_or_eq|intros ? ?; cbv beta in * |-]
      | eapply (triple_bind _ _ _ any); [|intros ? _] ]
  | |- triple _ (match ?x with _ => _ end) _ => destruct x eqn:?
  | |- any _ => exact I
  end.
Ltac triple_tac := repeat (triple_step; cbv zeta); try solve [eauto 4 with coordinator nocore].

(** ** The cursor *)

(** What decides the revision a cursor is at. *)
Definition same_revision (c0 c : WorkflowCursor) : Prop :=
  c_revision c = c_revision c0 ∧ c_grafts c = c_grafts c0 ∧ c_generation c = c_generation c0.

(** The history is the old one or grew; the newest [MAX_WORKFLOW_EVENTS] entries are kept. *)
Definition history_grows (l l' : list WorkflowEvent) : Prop :=
  l' = l ∨ ∃ new, l' = trim_events (l ++ new).

(** The names of the nodes a workflow at this cursor has. *)
Definition known_names (base : CoordinatorTask) (c : WorkflowCursor) : list string :=
  n_name <$> ct_nodes (effective_workflow base c).

(** The progress recorded in [c0] is still there in [c]: the history, the completed nodes and
    their times.  What is new among the completed are nodes of the workflow. *)
Record carried (base : CoordinatorTask) (c0 c : WorkflowCursor) : Prop := {
  ca_events : history_grows (c_events c0) (c_events c);
  ca_completed : ∀ n, n ∈ c_completed c0 → n ∈ known_names base c0 → n ∈ c_completed c;
  ca_known : ∀ n, n ∈ c_completed c → n ∈ c_completed c0 ∨ n ∈ known_names base c0;
  ca_times : dom (c_completed_at_ms c0) ⊆ dom (c_completed_at_ms c);
}.

(** A pending receipt stays or is settled; a pending automatic retry stays or is enqueued. *)
Definition settled (o o' : option string) : Prop := o' = o ∨ o' = None.
Definition enqueued (b b' : bool) : Prop := b' = b ∨ b' = false.

(** No accepted request, and no verdict yet, since [c0]. *)
Record unmoved (base : CoordinatorTask) (c0 c : WorkflowCursor) : Prop := {
  um_revision : same_revision c0 c;
  um_carried : carried base c0 c;
  um_failed : c_failed c = c_failed c0;
  um_graft : settled (c_pending_graft_receipt c0) (c_pending_graft_receipt c);
  um_retry : settled (c_pending_retry_receipt c0) (c_pending_retry_receipt c);
  um_automatic : enqueued (c_automatic_retry_pending c0) (c_automatic_retry_pending c);
}.

(** [c] is [c0] with the verdict that the workflow failed: it is marked failed if it may be
    retried, and an automatic retry is due if the policy has generations left. *)
Record judged (base : CoordinatorTask) (c0 c : WorkflowCursor) : Prop := {
  ju_revision : same_revision c0 c;
  ju_carried : carried base c0 c;
  ju_failed : c_failed c = ct_failed_subgraph_retry base || c_failed c0;
  ju_graft : settled (c_pending_graft_receipt c0) (c_pending_graft_receipt c);
  ju_retry : settled (c_pending_retry_receipt c0) (c_pending_retry_receipt c);
  ju_automatic : enqueued (c_automatic_retry_pending c0) (c_automatic_retry_pending c)
    ∨ c_automatic_retry_pending c = true ∧ ct_failed_subgraph_retry base = true
      ∧ ∃ p, ct_retry_policy base = Some p ∧ c_generation c0 < max_generations p;
}.

(** [c] is [c0] after one accepted graft: a workflow that had not failed grew by new nodes
    into a workflow that validates, and the graft's receipt is pending. *)
Record grafted (valid : CoordinatorTask → Prop) (base : CoordinatorTask) (c0 c : WorkflowCursor)
    : Prop := {
  gr_open : c_failed c0 = false ∧ c_failed c = false;
  gr_revision : c_revision c = c_revision c0 + 1 ∧ c_generation c = c_generation c0;
  gr_nodes : ∃ nodes, nodes ≠ [] ∧ c_grafts c = c_grafts c0 ++ nodes;
  gr_valid : valid (effective_workflow base c);
  gr_carried : carried base c0 c;
  gr_receipt : c_pending_graft_receipt c = Some (graft_receipt_id (ct_workflow_id base) (c_revision c));
  gr_event : ev_event <$> last (c_events c) = Some "workflow_graft_accepted";
  gr_retry : settled (c_pending_retry_receipt c0) (c_pending_retry_receipt c);
  gr_automatic : enqueued (c_automatic_retry_pending c0) (c_automatic_retry_pending c);
}.

(** [c] is [c0] after one accepted retry of a failed workflow that allows it. *)
Record retried (base : CoordinatorTask) (c0 c : WorkflowCursor) : Prop := {
  re_failed : c_failed c0 = true ∧ c_failed c = false ∧ ct_failed_subgraph_retry base = true;
  re_revision : c_revision c = c_revision c0 + 1 ∧ c_generation c = c_generation c0 + 1;
  re_nodes : c_grafts c = c_grafts c0;
  re_carried : carried base c0 c;
  re_receipt : c_pending_retry_receipt c = Some (retry_receipt_id (ct_workflow_id base) (c_revision c));
  re_event : ev_event <$> last (c_events c) = Some "workflow_retry_accepted";
  re_graft : settled (c_pending_graft_receipt c0) (c_pending_graft_receipt c);
  re_automatic : enqueued (c_automatic_retry_pending c0) (c_automatic_retry_pending c);
}.

Definition evolves (valid : CoordinatorTask → Prop) (base : CoordinatorTask) (c0 c : WorkflowCursor)
    : Prop :=
  unmoved base c0 c ∨ judged base c0 c ∨ grafted valid base c0 c ∨ retried base c0 c.

Lemma trim_events_drop l : trim_events l = drop (length l - MAX_WORKFLOW_EVENTS) l.
Proof.
  unfold trim_events. destruct (Nat.ltb_spec MAX_WORKFLOW_EVENTS (length l)); [done|].
  by replace (length l - MAX_WORKFLOW_EVENTS)%nat with 0%nat by lia.
Qed.

Lemma trim_events_app l l' : trim_events (trim_events l ++ l') = trim_events (l ++ l').
Proof.
  rewrite !trim_events_drop. set (k := (length l - MAX_WORKFLOW_EVENTS)%nat).
  assert (k ≤ length l)%nat by lia. rewrite <-(drop_app_le l l' k), drop_drop by lia.
  f_equal. rewrite length_drop, !length_app. lia.
Qed.

Lemma history_refl l : history_grows l l.
Proof. by left. Qed.
Lemma history_trim l l' new : history_grows l l' → history_grows l (trim_events (l' ++ new)).
Proof.
  intros [->|[a ->]]; right; [by exists new|]. exists (a ++ new). by rewrite trim_events_app, app_assoc.
Qed.

Lemma carried_refl base c : carried base c c.
Proof. constructor; auto using history_refl. Qed.
Lemma carried_fields base c0 c c' :
  c_events c' = c_events c → c_completed c' = c_completed c → c_completed_at_ms c' = c_completed_at_ms c →
  carried base c0 c → carried base c0 c'.
Proof. intros H1 H2 H3 []. by constructor; rewrite ?H1, ?H2, ?H3. Qed.

(** A cursor differs from an unmoved one in a receipt or flag that was settled. *)
Ltac solve_unmoved Hc :=
  let Hk := fresh in destruct Hc as [? Hk ? ? ? ?];
  constructor; try done; [by eapply carried_fields, Hk|by right].

Lemma unmoved_refl base c : unmoved base c c.
Proof. constructor; try apply carried_refl; by repeat split || left. Qed.
Lemma unmoved_evolves valid base c0 c : unmoved base c0 c → evolves valid base c0 c.
Proof. by left. Qed.

Lemma evolves_valid (valid : CoordinatorTask → Prop) base c0 c :
  evolves valid base c0 c → valid (effective_workflow base c0) → valid (effective_workflow base c).
Proof.
  unfold effective_workflow.
  intros [[(_ & -> & _)]|[[(_ & -> & _)]|[[]|[_ _ -> _]]]]; done.
Qed.

Lemma record_event_only ev n at_ms c c' :
  record_event ev n at_ms c = Ok c' →
  ∃ e, ev_event e = ev ∧ c' = c <| c_events := trim_events (c_events c ++ [e]) |>.
Proof. unfold record_event. intros [_ H]%err_if_Ok. injection H as <-. by exists (mkWorkflowEvent (next_sequence (c_events c)) ev n (c_revision c) (c_generation c) at_ms). Qed.

Lemma carried_event base c0 c e :
  carried base c0 c → carried base c0 (c <| c_events := trim_events (c_events c ++ [e]) |>).
Proof. intros []. constructor; try done. by apply history_trim. Qed.

Lemma record_event_unmoved ev n at_ms base c0 c c' :
  record_event ev n at_ms c = Ok c' → unmoved base c0 c → unmoved base c0 c'.
Proof.
  intros (e & _ & ->)%record_event_only []. constructor; try done. by apply carried_event.
Qed.

Lemma judged_event base c0 c e failed automatic :
  unmoved base c0 c → failed = ct_failed_subgraph_retry base || c_failed c0 →
  enqueued (c_automatic_retry_pending c0) automatic
  ∨ automatic = true ∧ ct_failed_subgraph_retry base = true
    ∧ (∃ p, ct_retry_policy base = Some p ∧ c_generation c0 < max_generations p) →
  judged base c0 (c <| c_failed := failed |> <| c_automatic_retry_pending := automatic |>
                    <| c_events := trim_events (c_events c ++ [e]) |>).
Proof.
  intros [? Hk _ ? ? _] -> Ha. constructor; try done. destruct Hk. constructor; try done. by apply history_trim.
Qed.

Lemma record_completions_unmoved before completed nodes base c0 c c' :
  record_completions before completed nodes c = Ok c' → unmoved base c0 c → unmoved base c0 c'.
Proof.
  revert c. induction nodes as [|n nodes IH]; intros c; simpl; [by intros [= <-]|].
  case_match; [|apply IH]. intros (c1 & H1 & H2)%bind_Ok ?.
  eapply IH; [done|]. by eapply record_event_unmoved.
Qed.

(** ** Completion evidence adds *)

Lemma task_evidence_times state e n : dom (evd_at_ms e) ⊆ dom (evd_at_ms (task_evidence state e n)).
Proof. unfold task_evidence. repeat case_match; simpl; try done. rewrite dom_insert. set_solver. Qed.

Lemma stamps_times state names m : dom m ⊆ dom (foldl (stamp state) m names).
Proof.
  revert m. induction names as [|x names IH]; intros m; simpl; [done|]. etrans; [|apply IH].
  unfold stamp. case_match; [|done]. rewrite dom_insert. set_solver.
Qed.

Lemma evidence_loop_times fuel nodes state e :
  dom (evd_at_ms e) ⊆ dom (evd_at_ms (evidence_loop fuel nodes state e)).
Proof.
  revert e. induction fuel as [|fuel IH]; intros e; cbn [evidence_loop]; [done|].
  destruct (eligible nodes state (evd_completed e)) as [|x l]; [done|].
  etrans; [|apply IH]. apply stamps_times.
Qed.

Lemma evidence_times w state before at_ms :
  dom at_ms ⊆ dom (evd_at_ms (record_completion_evidence w state before at_ms)).
Proof.
  unfold record_completion_evidence. etrans; [|apply evidence_loop_times].
  assert (∀ nodes e, dom (evd_at_ms e) ⊆ dom (evd_at_ms (foldl (task_evidence state) e nodes))) as H;
    [|exact (H _ (mkEvidence _ _ _))].
  induction nodes as [|n nodes IH]; intros e; simpl; [done|]. etrans; [|apply IH]. apply task_evidence_times.
Qed.

Lemma evidence_keeps base c state at_ms n :
  let w := effective_workflow base c in
  let e := record_completion_evidence w state (completed_set w (c_completed c)) at_ms in
  n ∈ c_completed c → n ∈ known_names base c → n ∈ completed_names w (evd_completed e).
Proof.
  intros w e Hn (node & -> & Hnode)%list_elem_of_fmap. apply list_elem_of_fmap_2, list_elem_of_filter.
  split; [|done]. apply record_completion_evidence_done, done_before.
  unfold completed_set. apply elem_of_list_to_set, list_elem_of_filter. split; [|done].
  apply existsb_exists. exists node. split; [by apply list_elem_of_In|apply String.eqb_refl].
Qed.

Lemma completed_names_known base c completed n :
  n ∈ completed_names (effective_workflow base c) completed → n ∈ known_names base c.
Proof.
  unfold completed_names. intros (node & -> & [_ Hn]%list_elem_of_filter)%list_elem_of_fmap.
  by apply list_elem_of_fmap_2.
Qed.

Lemma known_names_unmoved base c0 c : unmoved base c0 c → known_names base c = known_names base c0.
Proof. intros [(_ & Hg & _)]. unfold known_names, effective_workflow. by rewrite Hg. Qed.

Lemma unmoved_times base c0 c m :
  unmoved base c0 c → dom (c_completed_at_ms c) ⊆ dom m →
  unmoved base c0 (c <| c_completed_at_ms := m |>).
Proof. intros [? [] ? ? ? ?] Hm. constructor; try done. constructor; try done. by etrans. Qed.

Lemma unmoved_completed base c0 c l :
  unmoved base c0 c →
  (∀ n, n ∈ c_completed c → n ∈ known_names base c → n ∈ l) → (∀ n, n ∈ l → n ∈ known_names base c) →
  unmoved base c0 (c <| c_completed := l |>).
Proof.
  intros Hu. rewrite (known_names_unmoved _ _ _ Hu). destruct Hu as [? [] ? ? ? ?]. intros Hk Hl.
  constructor; try done. constructor; try done; simpl; auto.
Qed.

Lemma record_completions_only before completed nodes c c' :
  record_completions before completed nodes c = Ok c' →
  c_completed c' = c_completed c ∧ c_grafts c' = c_grafts c
  ∧ c_completed_at_ms c' = c_completed_at_ms c.
Proof.
  revert c. induction nodes as [|n nodes IH]; intros c; simpl; [by intros [= <-]|].
  case_match; [|apply IH]. intros (c1 & (e & _ & ->)%record_event_only & H2)%bind_Ok. by apply IH in H2.
Qed.

Section cursor.
Context {S : Type} `{HI : Inspect S} `{HC : CoordinatorCtx S} `{!InspectLaws S}.
Context (cel_compiles : string → bool) (cel_execute : string → CelContext → result CelValue string).
Context (sha256 : bytes → bytes) (encode : WorkflowTask → result bytes string).
Context (decode_coordinator : bytes → result CoordinatorTask string).
Context (decode_graft : bytes → result (string * Z * list NodeSpec) string).
Context (decode_retry : bytes → result (string * Z) string).
Context (encode_cursor : WorkflowCursor → result bytes string).
Context (decode_cursor : bytes → result WorkflowCursor string).
Context (ords : list string → list string).
Context (cursor_serde : ∀ c b, encode_cursor c = Ok b → decode_cursor b = Ok c).

(** The cursor the checkpoint holds. *)
Definition cursor_of (o : option bytes) : result WorkflowCursor string :=
  match o with Some b => decode_cursor b | None => Ok default_cursor end.

Definition valid (w : CoordinatorTask) : Prop := validate cel_compiles ords w = Ok tt.

Context (base : CoordinatorTask) (c0 : WorkflowCursor).

Definition on_track (s : S) : Prop :=
  ∃ c, cursor_of (saved s) = Ok c ∧ evolves valid base c0 c.

Lemma on_track_saved s s' : saved s' = saved s → on_track s → on_track s'.
Proof. unfold on_track. by intros ->. Qed.

Lemma write_on_track f (Q : unit → Prop) :
  (∀ s s', f s = Ok s' → saved s' = saved s) → Q tt → triple on_track (write f) Q.
Proof.
  intros Hf HQ. apply triple_write. intros s s' Hs E. split; [|done].
  eapply on_track_saved; [|done]. by eapply Hf.
Qed.

Lemma promote_on_track id : triple on_track (write (promote_job id)) any.
Proof. apply write_on_track; [|done]. intros s s' H. by apply promote_job_view in H as (_ & _ & ?). Qed.
Lemma schedule_on_track id t : triple on_track (write (schedule_pending_job id t)) any.
Proof.
  apply write_on_track; [|done]. intros s s' H. by apply schedule_pending_job_view in H as (_ & _ & ?).
Qed.
Lemma delete_on_track id : triple on_track (write (delete_job id)) any.
Proof. apply write_on_track; [|done]. intros s s' H. by apply delete_job_view in H as (_ & _ & ?). Qed.
Lemma retry_on_track id : triple on_track (write (operator_retry id)) any.
Proof. apply write_on_track; [|done]. intros s s' H. by apply operator_retry_view in H as (_ & ?). Qed.
Lemma enqueue_on_track batch : triple on_track (write (inspect_enqueue batch)) any.
Proof. apply write_on_track; [|done]. intros s s'. apply inspect_enqueue_saved. Qed.
Lemma release_on_track fp : triple on_track (write (quarantine_release fp)) any.
Proof. apply write_on_track; [|done]. intros s s'. apply quarantine_release_saved. Qed.
Lemma edit_on_track id b v fp : triple on_track (write (edit_payload id b v fp)) any.
Proof. apply write_on_track; [|done]. intros s s' H. by apply edit_payload_view in H as (_ & ?). Qed.
Hint Resolve promote_on_track schedule_on_track delete_on_track retry_on_track enqueue_on_track
  release_on_track edit_on_track : coordinator.

Lemma persist_on_track c :
  evolves valid base c0 c → triple on_track (persist_workflow_cursor encode_cursor c) any.
Proof.
  intros Hc. unfold persist_workflow_cursor.
  eapply (triple_bind _ _ _ (λ b, decode_cursor b = Ok c)).
  { apply triple_lift. intros b. apply cursor_serde. }
  intros b Hb. apply (triple_bind _ _ _ any); [|intros _ _].
  - apply triple_write. intros s s' _ [_ E]%set_cursor_view. split; [|done].
    exists c. split; [|done]. unfold cursor_of. by rewrite E.
  - apply write_on_track; [|done]. intros s s' H. by apply persist_output_view in H as [_ ?].
Qed.

Hint Resolve persist_on_track unmoved_evolves : coordinator.

Lemma reject_jobs_on_track ids : triple on_track (reject_jobs ids) any.
Proof. induction ids; simpl; triple_tac. Qed.
Lemma reject_graft_on_track id nodes : triple on_track (reject_graft id nodes) any.
Proof. apply reject_jobs_on_track. Qed.
Lemma nodes_to_retry_on_track nodes : triple on_track (nodes_to_retry nodes) any.
Proof. induction nodes; simpl; triple_tac. Qed.
Lemma reopen_on_track jobs : triple on_track (reopen_failed_nodes jobs) any.
Proof. induction jobs; simpl; triple_tac. Qed.
Lemma recover_node_on_track nodes r : triple on_track (recover_node sha256 nodes r) any.
Proof. unfold recover_node. triple_tac. Qed.
Hint Resolve reject_graft_on_track nodes_to_retry_on_track reopen_on_track recover_node_on_track
  : coordinator.
Lemma recover_nodes_on_track nodes recovered rs :
  triple on_track (recover_nodes sha256 nodes recovered rs) any.
Proof. revert recovered. induction rs; intros recovered; simpl; triple_tac. Qed.
Lemma check_recovered_on_track nodes : triple on_track (check_recovered nodes) any.
Proof. induction nodes; simpl; triple_tac. Qed.
Lemma load_coordinator_on_track id : triple on_track (load_coordinator decode_coordinator id) any.
Proof. unfold load_coordinator. triple_tac. Qed.
Lemma reopen_coordinator_on_track id : triple on_track (reopen_coordinator id) any.
Proof. unfold reopen_coordinator. triple_tac. Qed.
Hint Resolve recover_nodes_on_track check_recovered_on_track load_coordinator_on_track
  reopen_coordinator_on_track : coordinator.

Lemma request_retry_on_track id rev rs :
  triple on_track (request_failed_subgraph_retry_with_recovery sha256 encode decode_coordinator
                     decode_cursor id rev rs) any.
Proof. unfold request_failed_subgraph_retry_with_recovery. triple_tac. Qed.
Hint Resolve request_retry_on_track : coordinator.

Lemma retry_failed_child_on_track node :
  triple on_track (retry_failed_child sha256 encode decode_coordinator decode_cursor node) any.
Proof. unfold retry_failed_child, request_failed_subgraph_retry. triple_tac. Qed.
Hint Resolve retry_failed_child_on_track : coordinator.
Lemma retry_failed_children_on_track w :
  triple on_track (retry_failed_children sha256 encode decode_coordinator decode_cursor w) any.
Proof.
  unfold retry_failed_children. triple_tac. induction (ct_nodes w); simpl; triple_tac.
Qed.
Lemma reject_competing_on_track next : triple on_track (reject_competing decode_graft base next) any.
Proof. unfold reject_competing. triple_tac. Qed.
Hint Resolve retry_failed_children_on_track reject_competing_on_track : coordinator.

(** The result of a reconciliation that lets the tick go on. *)
Definition goes_on (cr : WorkflowCursor * option Tick.Tick) : Prop := cr.2 = None → unmoved base c0 cr.1.

Lemma settle_retry_on_track c :
  unmoved base c0 c → triple on_track (settle_retry encode_cursor base c) (λ cr, unmoved base c0 cr.1).
Proof.
  intros Hc. unfold settle_retry, failed_nodes_to_retry.
  assert (unmoved base c0 (c <| c_pending_retry_receipt := None |>)) as Hc' by solve_unmoved Hc.
  pose proof (persist_on_track _ (unmoved_evolves valid base _ _ Hc')). triple_tac; done.
Qed.

Lemma accept_retry_on_track c next b1 b2 :
  unmoved base c0 c →
  negb (ct_failed_subgraph_retry base) || negb (c_failed c) || b1 || b2 = false →
  u64_checked_add (c_revision c) 1 = Some next →
  triple on_track (lift (accept_retry c next (retry_receipt_id (ct_workflow_id base) next)))
    (evolves valid base c0).
Proof.
  intros [(Hr & Hg & Hn) Hk Hf Hpg Hpr Ha] H Hnext. apply triple_lift. intros c'. unfold accept_retry.
  destruct (u32_checked_add _ _) as [g|] eqn:Eg; [|done]. intros (c1 & H1 & [= <-])%bind_Ok.
  apply record_event_only in H1 as (e & He & ->). unfold u32_checked_add, u64_checked_add in *.
  bool_hyps. case_match; [|done]. case_match; [|done]. simplify_eq.
  right; right; right. constructor; simpl; rewrite <-?Hr, <-?Hn, <-?Hg, <-?Hf; try done.
  - destruct Hk. constructor; try done. by apply history_trim.
  - rewrite trim_events_last. simpl. by rewrite He.
Qed.
Hint Resolve accept_retry_on_track : coordinator.

Lemma reconcile_retry_on_track c :
  unmoved base c0 c →
  triple on_track (reconcile_retry sha256 encode decode_coordinator decode_graft decode_retry
                     encode_cursor decode_cursor base c) goes_on.
Proof.
  intros Hc. unfold reconcile_retry, failed_nodes_to_retry.
  eapply triple_bind; [by apply settle_retry_on_track|]. intros [c1 [t|]] Hc1; [by apply triple_ret|].
  simpl in Hc1. triple_tac; try done. by intros ?.
Qed.

Lemma settle_graft_on_track c :
  unmoved base c0 c → triple on_track (settle_graft encode_cursor c) (λ cr, unmoved base c0 cr.1).
Proof.
  intros Hc. unfold settle_graft.
  assert (unmoved base c0 (c <| c_pending_graft_receipt := None |>)) as Hc' by solve_unmoved Hc.
  pose proof (persist_on_track _ (unmoved_evolves valid base _ _ Hc')). triple_tac; done.
Qed.

Lemma accept_graft_on_track c next nodes b1 b2 :
  unmoved base c0 c →
  b1 || b2 || is_empty nodes || c_failed c
    || negb (is_ok (validate cel_compiles ords (graft_candidate base c nodes))) = false →
  u64_checked_add (c_revision c) 1 = Some next →
  triple on_track (lift (accept_graft c next nodes (graft_receipt_id (ct_workflow_id base) next)))
    (evolves valid base c0).
Proof.
  intros [(Hr & Hg & Hn) Hk Hf Hpg Hpr Ha] H Hnext. apply triple_lift. intros c'. unfold accept_graft.
  intros (c1 & H1 & [= <-])%bind_Ok.
  apply record_event_only in H1 as (e & He & ->). unfold u64_checked_add in *.
  bool_hyps. case_match; [|done]. simplify_eq.
  right; right; left. constructor; simpl; rewrite <-?Hr, <-?Hn, <-?Hg, <-?Hf; try done.
  - exists nodes. split; [|done]. by intros ->.
  - change (valid (graft_candidate base c nodes)). unfold valid. by destruct (validate _ _ _) as [[]|].
  - destruct Hk. constructor; try done. by apply history_trim.
  - rewrite trim_events_last. simpl. by rewrite He.
Qed.
Hint Resolve accept_graft_on_track : coordinator.

Lemma reconcile_graft_on_track c :
  unmoved base c0 c →
  triple on_track (reconcile_graft cel_compiles decode_graft encode_cursor ords base c) goes_on.
Proof.
  intros Hc. unfold reconcile_graft. apply (triple_bind _ _ _ any); [by apply triple_require|].
  intros _ _. eapply triple_bind; [by apply settle_graft_on_track|].
  intros [c1 [t|]] Hc1; [by apply triple_ret|].
  simpl in Hc1. triple_tac; try done. by intros ?.
Qed.

Lemma read_states_on_track nodes : triple on_track (read_states nodes) any.
Proof. induction nodes; simpl; triple_tac. Qed.
Lemma apply_mutations_on_track ms : triple on_track (apply_mutations ms) any.
Proof. induction ms as [|[id []] ms IH]; simpl; triple_tac. Qed.
Hint Resolve read_states_on_track apply_mutations_on_track : coordinator.

Lemma tick_on_track c persist :
  unmoved base c0 c →
  triple on_track (tick_with_evidence cel_compiles cel_execute encode_cursor ords
                     (effective_workflow base c) c persist)
    (λ ct, unmoved base c0 ct.1).
Proof.
  intros Hc. unfold tick_with_evidence. set (w := effective_workflow base c).
  eapply triple_bind; [by apply triple_lift_eq|intros _ _].
  eapply triple_bind; [by apply read_states_on_track|intros state _]. cbv zeta.
  set (e := record_completion_evidence w state _ _).
  eapply triple_bind; [by apply triple_lift_eq|intros c1 H1]. cbv beta in H1.
  pose proof (record_completions_only _ _ _ _ _ H1) as (Hcc & Hgc & _). simpl in Hcc, Hgc.
  eapply (record_completions_unmoved _ _ _ base c0) in H1; [|by apply unmoved_times, evidence_times].
  apply (triple_bind _ _ _ (unmoved base c0)); [|intros c2 Hc2; triple_tac; done].
  case_match; [|by apply triple_ret].
  assert (effective_workflow base c1 = w) as Hw by (unfold w, effective_workflow; by rewrite Hgc).
  assert (unmoved base c0 (c1 <| c_completed := completed_names w (evd_completed e) |>)) as Hn.
  { apply unmoved_completed; [done|..]; unfold known_names; rewrite ?Hcc, Hw; intros n.
    - apply evidence_keeps.
    - apply completed_names_known. }
  eapply (triple_bind _ _ _ any); [by apply persist_on_track, unmoved_evolves|].
  intros _ _. by apply triple_ret.
Qed.

Lemma enqueue_automatic_retry_on_track c queue :
  unmoved base c0 c → triple on_track (enqueue_automatic_retry sha256 encode encode_cursor base c queue)
                   (unmoved base c0).
Proof.
  intros Hc. unfold enqueue_automatic_retry.
  assert (unmoved base c0 (c <| c_automatic_retry_pending := false |>)) as Hc'
    by solve_unmoved Hc.
  pose proof (persist_on_track _ (unmoved_evolves valid base _ _ Hc')). triple_tac; done.
Qed.

Lemma finish_tick_on_track c poll t :
  unmoved base c0 c → triple on_track (finish_tick encode_cursor base c poll t) any.
Proof.
  intros Hc. unfold finish_tick, finish_failed. destruct t; [by apply triple_ret| |].
  - eapply triple_bind; [by apply triple_lift_eq|intros c1 H1]. cbv beta in H1.
    eapply (record_event_unmoved _ _ _ base c0) in H1; [|done]. triple_tac.
  - eapply (triple_bind _ _ _ (evolves valid base c0)); [|intros; triple_tac].
    apply triple_lift. intros c1 H1. right; left. pose proof (um_automatic _ _ _ Hc) as Ha.
    destruct (ct_failed_subgraph_retry base) eqn:Er.
    2:{ apply record_event_only in H1 as (e & _ & ->).
        apply (judged_event base c0 c e (c_failed c) (c_automatic_retry_pending c)); [done| |by left].
        by rewrite Er, (um_failed _ _ _ Hc). }
    destruct (match ct_retry_policy base with Some p => _ | None => _ end) eqn:Ep;
      apply record_event_only in H1 as (e & _ & ->).
    + apply (judged_event base c0 c e true true); [done|by rewrite Er|right].
      destruct (ct_retry_policy base) as [p|] eqn:Eq; [|done]. apply Z.ltb_lt in Ep.
      destruct Hc as [(_ & _ & Hg) _ _ _ _ _]. split_and!; [done|done|]. exists p. by rewrite <-Hg.
    + apply (judged_event base c0 c e true (c_automatic_retry_pending c)); [done|by rewrite Er|by left].
Qed.

Lemma handler_on_track o queue poll :
  cursor_of o = Ok c0 →
  triple on_track (coordinator_handler cel_compiles cel_execute sha256 encode decode_coordinator
    decode_graft decode_retry encode_cursor decode_cursor ords base o queue poll) any.
Proof.
  intros Ho. unfold coordinator_handler.
  apply (triple_bind _ _ _ (unmoved base c0)).
  { destruct o; simpl in Ho; [apply triple_lift; intros c Hc; rewrite Ho in Hc|apply triple_ret]; simplify_eq; apply unmoved_refl. }
  intros c1 Hc1. apply (triple_bind _ _ _ (unmoved base c0)).
  { case_match; [|by apply triple_ret].
    eapply triple_bind; [by apply triple_lift_eq|intros c2 H2]. cbv beta in H2.
    eapply (record_event_unmoved _ _ _ base c0) in H2; [|done].
    eapply (triple_bind _ _ _ any); [by apply persist_on_track, unmoved_evolves|].
    intros _ _. by apply triple_ret. }
  intros c2 Hc2. apply (triple_bind _ _ _ (unmoved base c0)).
  { case_match; [by apply enqueue_automatic_retry_on_track|by apply triple_ret]. }
  intros c3 Hc3. eapply triple_bind; [by apply reconcile_retry_on_track|].
  intros [c4 [t|]] Hc4; [by apply triple_ret|].
  eapply triple_bind; [by apply reconcile_graft_on_track, Hc4|].
  intros [c5 [t|]] Hc5; [by apply triple_ret|].
  eapply triple_bind; [by apply tick_on_track, Hc5|]. intros [c6 t] Hc6. by apply finish_tick_on_track.
Qed.
End cursor.

(** ** The jobs a tick changes *)

Section tick.
Context {S : Type} `{HI : Inspect S} `{HC : CoordinatorCtx S} `{!InspectLaws S}.
Context (cel_compiles : string → bool) (cel_execute : string → CelContext → result CelValue string).
Context (encode_cursor : WorkflowCursor → result bytes string).
Context (ords : list string → list string).

(** Two runs of [promote_job] and [delete_job] on the same job are never planned. *)
Definition consistent (ms : list (string * bool)) : Prop := ∀ id, (id, true) ∈ ms → (id, false) ∉ ms.

Definition mutation_view (ms : list (string * bool)) (v v' : gmap string string) : Prop :=
  ∀ id, v' !! id = v !! id
    ∨ ((id, false) ∈ ms ∧ v !! id = Some "pending" ∧ v' !! id = Some "available")
    ∨ ((id, true) ∈ ms ∧ v' !! id = None).

Lemma promote_mutation_view ms v v1 v' id :
  consistent ms → (id, false) ∈ ms → v1 !! id = Some "pending" →
  v' = <[id := "available"]> v1 → mutation_view ms v v1 → mutation_view ms v v'.
Proof.
  intros Hms Hid Hp -> Hv j. destruct (decide (j = id)) as [->|Hj].
  - rewrite lookup_insert_eq. right; left. destruct (Hv id) as [E|[(_ & _ & E)|[_ E]]];
      rewrite E in Hp; done.
  - rewrite lookup_insert_ne by done. apply Hv.
Qed.

Lemma delete_mutation_view ms v v1 v' id :
  (id, true) ∈ ms → v' = delete id v1 → mutation_view ms v v1 → mutation_view ms v v'.
Proof.
  intros Hid -> Hv j. destruct (decide (j = id)) as [->|Hj].
  - rewrite lookup_delete_eq. auto.
  - rewrite lookup_delete_ne by done. apply Hv.
Qed.

Lemma apply_mutations_view ms l v :
  consistent ms → l ⊆ ms → triple (λ s, mutation_view ms v (view s)) (apply_mutations l) any.
Proof.
  intros Hms. induction l as [|[id d] l IH]; intros Hl; simpl; [by apply triple_ret|].
  apply (triple_bind _ _ _ any); [|intros _ _; apply IH; set_solver].
  assert ((id, d) ∈ ms) by set_solver. apply triple_write. intros s s' Hv E. split; [|done].
  destruct d.
  - apply delete_job_view in E as (_ & E & _). by eapply delete_mutation_view.
  - apply promote_job_view in E as (Hp & E & _). by eapply promote_mutation_view.
Qed.

(** A run of [apply_mutations] that succeeds has done every one of them. *)
Lemma apply_mutations_done ms l s s' :
  consistent ms → l ⊆ ms → apply_mutations l s = (Ok tt, s') →
  (∀ id, id ∉ l.*1 → view s' !! id = view s !! id)
  ∧ ∀ id (d : bool), (id, d) ∈ l → view s' !! id = if d then None else Some "available".
Proof.
  intros Hms. revert s. induction l as [|[id d] l IH]; intros s Hl; simpl.
  { intros [= ->]. split; [done|]. by intros ? ? ?%elem_of_nil. }
  unfold mbind, M_bind at 1, write. destruct ((if d then _ else _) s) as [s1|e] eqn:E; [|done].
  intros Hrun. destruct (IH s1 ltac:(set_solver) Hrun) as [Hf Hd].
  assert (view s1 = if d then delete id (view s) else <[id := "available"]> (view s)) as Ev.
  { destruct d; [by apply delete_job_view in E as (_ & ? & _)|by apply promote_job_view in E as (_ & ? & _)]. }
  assert (∀ d', (id, d') ∈ l → d' = d) as Huniq.
  { intros d' Hd'. destruct d, d'; try done; exfalso; apply (Hms id); apply Hl; set_solver. }
  split.
  - intros j Hj. rewrite not_elem_of_cons in Hj. destruct Hj. rewrite Hf, Ev by done. destruct d;
      [by rewrite lookup_delete_ne|by rewrite lookup_insert_ne].
  - intros j d'. rewrite elem_of_cons. intros [[= -> ->]|Hj]; [|by apply Hd].
    destruct (decide (id ∈ l.*1)) as [([? d'] & ? & Hin)%list_elem_of_fmap|Hn]; simplify_eq/=.
    + rewrite (Hd _ _ Hin). by rewrite (Huniq _ Hin).
    + rewrite Hf, Ev by done. destruct d; [by rewrite lookup_delete_eq|by rewrite lookup_insert_eq].
Qed.

(** The states a tick reads are those of the store. *)
Definition agrees (w : CoordinatorTask) (state : States) (v : gmap string string) : Prop :=
  ∀ n, n ∈ ct_nodes w → js_state <$> job_of state (n_name n) = v !! n_job_id n.

Lemma read_states_view nodes v :
  NoDup (n_name <$> nodes) →
  triple (λ s, view s = v) (read_states nodes)
    (λ state, ∀ n, n ∈ nodes → js_state <$> job_of state (n_name n) = v !! n_job_id n).
Proof.
  induction nodes as [|n nodes IH]; intros Hnd; simpl.
  { apply triple_ret. by intros ? ?%elem_of_nil. }
  apply NoDup_cons in Hnd as [Hn Hnd].
  apply (triple_bind _ _ _ (λ o, js_state <$> o = v !! n_job_id n)).
  { apply triple_read. intros s o <-. apply get_job_view. }
  intros o Ho. eapply triple_bind; [by apply IH|]. intros st Hst. apply triple_ret.
  intros m [->|Hm]%elem_of_cons; unfold job_of; [by rewrite lookup_insert_eq|].
  rewrite lookup_insert_ne; [by apply Hst|].
  intros E. apply Hn. rewrite E. by apply (list_elem_of_fmap_2 n_name).
Qed.

Lemma persist_view c v :
  triple (λ s : S, view s = v) (persist_workflow_cursor encode_cursor c) any.
Proof.
  unfold persist_workflow_cursor. eapply triple_bind; [by apply triple_lift_eq|intros b _].
  apply (triple_bind _ _ _ any); [|intros _ _]; apply triple_write; intros s s' Hv E; split; try done.
  - by apply set_cursor_view in E as [-> _].
  - by apply persist_output_view in E as [-> _].
Qed.

(** What a tick of [w] may have done to the jobs, by the states it read. *)
Section effect.
Context (w : CoordinatorTask) (c : WorkflowCursor) (state : States) (completed failed : gset string).

Definition tick_change (v v' : gmap string string) : Prop := ∀ id,
  v' !! id = v !! id
  ∨ ∃ n, n ∈ ct_nodes w ∧ n_job_id n = id
    ∧ ((promotable cel_compiles cel_execute c w state completed failed n
        ∧ v !! id = Some "pending" ∧ v' !! id = Some "available")
       ∨ (timer_due w state completed failed n
          ∧ v !! id = Some "pending" ∧ v' !! id = Some "scheduled")
       ∨ (doomed w state completed failed n ∧ v' !! id = None)).

(** A tick that returned has scheduled one relative timer, or has released and deleted
    every node it had to. *)
Definition tick_done (v' : gmap string string) : Prop :=
  (∃ n, n ∈ ct_nodes w ∧ timer_due w state completed failed n ∧ v' !! n_job_id n = Some "scheduled")
  ∨ ∀ n, n ∈ ct_nodes w →
      (promotable cel_compiles cel_execute c w state completed failed n →
         v' !! n_job_id n = Some "available")
      ∧ (doomed w state completed failed n → v' !! n_job_id n = None).

Context (Hnd : NoDup (n_name <$> ct_nodes w)) (Hids : NoDup (n_job_id <$> ct_nodes w)).
Context (Hdeps : ∀ n d, n ∈ ct_nodes w → d ∈ n_deps n → d ∈ n_name <$> ct_nodes w).

Lemma same_node n m : n ∈ ct_nodes w → m ∈ ct_nodes w → n_job_id n = n_job_id m → n = m.
Proof.
  intros Hn Hm E. apply list_elem_of_lookup in Hn as [i Hi], Hm as [j Hj].
  assert (i = j) as ->; [|congruence].
  apply (NoDup_lookup _ _ _ (n_job_id n) Hids); rewrite list_lookup_fmap;
    [by rewrite Hi|by rewrite Hj, E].
Qed.

Lemma planned_mutation ms :
  plan cel_compiles cel_execute c w state completed failed = Ok (Mutate ms) →
  ∀ id (d : bool), (id, d) ∈ ms ↔ ∃ n, n ∈ ct_nodes w ∧ n_job_id n = id
    ∧ if d then doomed w state completed failed n
      else promotable cel_compiles cel_execute c w state completed failed n.
Proof.
  intros Hp. apply plan_nodes_Ok in Hp as [H _]; [|done..]. intros id d. rewrite H. unfold touches. split.
  - intros [?%elem_of_nil|(n & Hn & [[[= -> ->] Hd]|[[= -> ->] Hd]])]; [done|by exists n..].
  - intros (n & Hn & <- & Hd). right. exists n. split; [done|]. destruct d; [by left|by right].
Qed.

Lemma planned_consistent ms :
  plan cel_compiles cel_execute c w state completed failed = Ok (Mutate ms) → consistent ms.
Proof.
  intros Hp id. rewrite !(planned_mutation _ Hp). intros (n & Hn & <- & Hd & _) (m & Hm & E & Hd' & _).
  by rewrite (same_node m n Hm Hn E) in Hd'.
Qed.

Lemma mutations_effect ms s r s' :
  plan cel_compiles cel_execute c w state completed failed = Ok (Mutate ms) →
  apply_mutations ms s = (r, s') →
  tick_change (view s) (view s') ∧ (r = Ok tt → tick_done (view s')).
Proof.
  intros Hp Hrun. pose proof (planned_consistent _ Hp) as Hc. pose proof (planned_mutation _ Hp) as Hms.
  split.
  - destruct (apply_mutations_view ms ms (view s) Hc ltac:(done) s) as [Hv _]; [by left|].
    rewrite Hrun in Hv. intros id. destruct (Hv id) as [?|[(Hin & ? & ?)|[Hin ?]]]; [by left|right..];
      apply Hms in Hin as (n & ? & ? & ?); exists n; auto 7.
  - intros ->. destruct (apply_mutations_done ms ms s s' Hc ltac:(done) Hrun) as [_ Hd]. right.
    intros n Hn. split; intros Hx; [apply (Hd _ false)|apply (Hd _ true)]; apply Hms; by exists n.
Qed.
End effect.

(** The run of a tick from a store with job states [v]. *)
Definition tick_effect (w : CoordinatorTask) (c : WorkflowCursor) (v : gmap string string)
    (rs : result (WorkflowCursor * Tick.Tick) string * S) : Prop :=
  (view rs.2 = v ∧ is_ok rs.1 = false)
  ∨ ∃ state c',
      let e := record_completion_evidence w state (completed_set w (c_completed c)) (c_completed_at_ms c) in
      let failed := failed_set w state (evd_completed e) in
      agrees w state v ∧ c_completed_at_ms c' = evd_at_ms e
      ∧ tick_change w c' state (evd_completed e) failed v (view rs.2)
      ∧ ∀ ct, rs.1 = Ok ct →
          tick_done w c' state (evd_completed e) failed (view rs.2)
          ∧ (ct.2 ≠ Tick.Waiting → view rs.2 = v ∧ ct.2 = verdict w state (evd_completed e) failed).

Lemma tick_effect_failed w c s e : tick_effect w c (view s) (Err e, s).
Proof. by left. Qed.

Lemma plan_effect w c c' state s dec :
  let e := record_completion_evidence w state (completed_set w (c_completed c)) (c_completed_at_ms c) in
  let failed := failed_set w state (evd_completed e) in
  NoDup (n_name <$> ct_nodes w) → NoDup (n_job_id <$> ct_nodes w) →
  (∀ n d, n ∈ ct_nodes w → d ∈ n_deps n → d ∈ n_name <$> ct_nodes w) →
  agrees w state (view s) → c_completed_at_ms c' = evd_at_ms e →
  plan cel_compiles cel_execute c' w state (evd_completed e) failed = Ok dec →
  tick_effect w c (view s)
    (match dec with
     | Schedule job_id wake_at_ms =>
         _ ← write (schedule_pending_job job_id wake_at_ms); mret (c', Tick.Waiting)
     | Mutate [] => mret (c', verdict w state (evd_completed e) failed)
     | Mutate ms => _ ← apply_mutations ms; mret (c', Tick.Waiting)
     end s).
Proof.
  intros e failed Hnd Hids Hdeps Hst Hc' Hp.
  destruct dec as [ms|id wake].
  - destruct (apply_mutations ms s) as [r s'] eqn:Hrun.
    destruct (mutations_effect w c' state (evd_completed e) failed Hnd Hids Hdeps ms s r s' Hp Hrun)
      as [Hch Hdone].
    right. exists state, c'. fold e. fold failed. split_and!; [done|done| |].
    + destruct ms as [|m ms]; [by left|]. unfold mbind, M_bind. rewrite Hrun. by destruct r as [[]|].
    + destruct ms as [|m ms]; [injection Hrun as <- <-|].
      * intros ? [= <-]. split; [by apply Hdone|done].
      * unfold mbind, M_bind. rewrite Hrun. destruct r as [[]|]; [|done]. intros ? [= <-].
        split; [by apply Hdone|done].
  - apply plan_nodes_Ok in Hp as (front & n & back & a & d & Hns & _ & Ht & -> & _); [|done..].
    assert (n ∈ ct_nodes w) as Hn by (rewrite Hns; set_solver).
    unfold mbind, M_bind, write. destruct (schedule_pending_job _ _ s) as [s'|m] eqn:E; [|by left].
    apply schedule_pending_job_view in E as (Hpend & Ev & _).
    right. exists state, c'. fold e. fold failed. split_and!; [done|done| |].
    + intros id. simpl. rewrite Ev. destruct (decide (id = n_job_id n)) as [->|Hne];
        [|left; by rewrite lookup_insert_ne].
      right. exists n. rewrite lookup_insert_eq. auto 7.
    + intros ? [= <-]. simpl. rewrite Ev. split; [|done]. left. exists n. by rewrite lookup_insert_eq.
Qed.

Lemma tick_effect_holds w c persist s :
  (∀ l, ords l ≡ₚ l) → NoDup (n_job_id <$> ct_nodes w) →
  tick_effect w c (view s) (tick_with_evidence cel_compiles cel_execute encode_cursor ords w c persist s).
Proof.
  intros Hords Hids. set (v := view s). assert (view s = v) as Hs by done. clearbody v.
  assert (∀ e s', view s' = v → tick_effect w c v (Err e, s')) as Hfail by (intros ? ? <-; by left).
  unfold tick_with_evidence.
  eapply (triple_seq (λ s, view s = v)); [by apply triple_lift_eq|done|intros [] s1 Hval Hs1|done].
  apply valid_workflow in Hval as (Hnd & Hdeps & _); [|done].
  eapply (triple_seq (λ s, view s = v)); [by apply read_states_view|done|intros state s2 Hst Hs2|done].
  cbv zeta. eapply (triple_seq (λ s, view s = v)); [by apply triple_lift_eq|done|intros c1 s3 Hc1 Hs3|done].
  apply record_completions_only in Hc1 as (_ & _ & Hc1). simpl in Hc1.
  eapply (triple_seq (λ s, view s = v) _ _ (λ c2, c_completed_at_ms c2 = c_completed_at_ms c1));
    [|done|intros c2 s4 Hc2 Hs4|done].
  { case_match; [|by apply triple_ret].
    eapply triple_bind; [apply persist_view|]. intros _ _. by apply triple_ret. }
  eapply (triple_seq (λ s, view s = v)); [by apply triple_lift_eq|done|intros dec s5 Hdec <-|done].
  apply plan_effect; [done..|by rewrite Hc2|done].
Qed.
End tick.
