(* ===== verification/Table.v ===== *)
(** * A store behind the [Inspect] port

    The documented transitions of [trait Inspect] ([crates/headgate-core/src/lib.rs]) over
    one table of jobs, with a serialisation of workflow cursors that round-trips.  It
    discharges [InspectLaws], so what is proved against the port holds of a store that
    exists, and the theorems can be run. *)

From S2P Require Import Prelude Shared Envelope Graph Workflow Core Tick Coordinator CoordSpec.
Local Open Scope Z_scope.

Record Table := mkTable {
  tb_jobs : gmap string JobSummary;
  tb_self : string;
  tb_saved : option bytes;
  tb_events : list DurableEvent;
}.

#[export] Instance table_eta : Eta Table := λ t,
  mkTable (tb_jobs t) (tb_self t) (tb_saved t) (tb_events t).
#[export] Instance job_summary_eta : Eta JobSummary := λ j,
  mkJobSummary (js_id j) (js_kind j) (js_queue j) (js_state j) (js_schema_version j) (js_priority j)
    (js_attempt j) (js_crash_attempt j) (js_max_attempts j) (js_partition_key j) (js_rate_class j)
    (js_sticky_worker j) (js_weight j) (js_fingerprint j) (js_enqueued_at_ms j)
    (js_scheduled_at_ms j) (js_claimed_at_ms j) (js_periodic_schedule_id j) (js_periodic_tick_ms j)
    (js_finalized_at_ms j) (js_payload j) (js_headers j) (js_errors_json j) (js_tags j).

(** Move a job that is in one of the states [from]. *)
Definition move (from : list string) (f : JobSummary → JobSummary) (id : string) (t : Table)
    : result Table string :=
  match tb_jobs t !! id with
  | None => Err "job not found"
  | Some j => if one_of from (js_state j) then Ok (t <| tb_jobs := <[id := f j]> (tb_jobs t) |>)
              else Err "transition is not defined"
  end.

Definition to_state (st : string) (j : JobSummary) : JobSummary := j <| js_state := st |>.

Definition table_insert (e : Envelope) (jobs : gmap string JobSummary) : gmap string JobSummary :=
  match jobs !! e_id e with
  | Some _ => jobs
  | None => <[e_id e := mkJobSummary (e_id e) (e_kind e) (e_queue e)
                (if e_pending e then "pending" else "available") (e_schema_version e) 0 0 0
                (e_max_attempts e) "" "" "" 1 (e_fingerprint e) 0 0 None "" 0 None
                (Some (e_payload e)) ∅ "" []]> jobs
  end.

Definition same_event (e e' : DurableEvent) : bool :=
  String.eqb (de_scope e) (de_scope e') && String.eqb (de_topic e) (de_topic e')
  && String.eqb (de_idempotency_key e) (de_idempotency_key e').

#[export] Instance table_inspect : Inspect Table := {|
  get_job id payload t := Ok ((λ j, if payload then j else j <| js_payload := None |>) <$> tb_jobs t !! id);
  list_jobs f _ limit t := Ok (mkJobPage (take (Z.to_nat limit)
    (filter (λ j, match jf_kind f with Some k => String.eqb (js_kind j) k | None => true end = true)
       (snd <$> map_to_list (tb_jobs t)))) None);
  has_checkpoint_inspect := true;
  get_job_checkpoint id t := Ok
    (if String.eqb id (tb_self t)
     then Some (mkCheckpoint None [] None (Some "headgate:workflow-state") (tb_saved t) 1 "" [])
     else None);
  has_output_inspect := false;
  inspect_output _ _ := Ok None;
  promote_job := move ["pending"] (to_state "available");
  schedule_pending_job id at_ms := move ["pending"] (λ j, to_state "scheduled" j <| js_scheduled_at_ms := at_ms |>) id;
  delete_job id t := match tb_jobs t !! id with
    | None => Err "job not found"
    | Some j => if String.eqb (js_state j) "running" then Err "cannot delete a running job; cancel it first"
                else Ok (t <| tb_jobs := delete id (tb_jobs t) |>)
    end;
  operator_retry := move ["archived"; "cancelled"; "undecodable"] (to_state "available");
  operator_cancel := move ["pending"; "scheduled"; "available"; "running"; "retryable"] (to_state "cancelled");
  inspect_enqueue batch t := Ok (t <| tb_jobs := foldr table_insert (tb_jobs t) batch |>);
  quarantine_release fp t := Ok (t <| tb_jobs := (λ j,
    if String.eqb (js_fingerprint j) fp && String.eqb (js_state j) "quarantined"
    then to_state "available" j else j) <$> tb_jobs t |>);
  edit_payload id payload version fp t := match tb_jobs t !! id with
    | None => Err "job not found"
    | Some j => if String.eqb (js_state j) "running" then Err "cannot edit a running job"
                else Ok (t <| tb_jobs := <[id := j <| js_payload := Some payload |>
                       <| js_schema_version := version |> <| js_fingerprint := fp |>]> (tb_jobs t) |>)
    end;
  append_durable_event e t := match List.find (same_event e) (tb_events t) with
    | Some stored => Ok (stored, false, t)
    | None => let stored := mkDurableEvent (1 + Z.of_nat (length (tb_events t))) (de_scope e) (de_topic e)
                (de_idempotency_key e) (de_payload e) (de_source e) (de_recorded_at_ms e) in
              Ok (stored, true, t <| tb_events := stored :: tb_events t |>)
    end;
  list_durable_events scope before limit t := Ok (take (Z.to_nat limit)
    (filter (λ e, String.eqb (de_scope e) scope
        && match before with Some b => de_event_id e <? b | None => true end = true)
       (tb_events t)));
|}.

#[export] Instance table_ctx : CoordinatorCtx Table := {|
  set_cursor b t := Ok (t <| tb_saved := Some b |>);
  persist_output _ _ t := Ok t;
|}.

(** ** The laws of the port *)

Definition table_view (t : Table) : gmap string string := js_state <$> tb_jobs t.

Lemma move_view from f id t t' st :
  (∀ j, js_state (f j) = st) → move from f id t = Ok t' →
  (∃ s, table_view t !! id = Some s ∧ one_of from s = true)
  ∧ table_view t' = <[id := st]> (table_view t) ∧ tb_saved t' = tb_saved t.
Proof.
  intros Hf. unfold move, table_view. destruct (tb_jobs t !! id) as [j|] eqn:E; [|done].
  destruct (one_of _ _) eqn:Ho; [|done]. intros [= <-]. split_and!; [|by rewrite <-(Hf j), <-fmap_insert|done].
  exists (js_state j). by rewrite lookup_fmap, E.
Qed.

Lemma one_of_single s x : one_of [x] s = true → s = x.
Proof. unfold one_of. simpl. rewrite orb_false_r. apply String.eqb_eq. Qed.

#[export] Program Instance table_laws : InspectLaws Table := {|
  view := table_view;
  payloads t := omap js_payload (tb_jobs t);
  saved := tb_saved;
|}.
Next Obligation.
  intros id p s o [= <-]. unfold table_view. rewrite lookup_fmap.
  destruct (tb_jobs s !! id); [by destruct p|done].
Qed.
Next Obligation.
  intros id s o [= <-]. rewrite lookup_omap. by destruct (tb_jobs s !! id).
Qed.
Next Obligation.
  intros id s s' H. eapply move_view in H as ((st & Hst & ->%one_of_single) & ? & ?); done.
Qed.
Next Obligation.
  intros id at_ms s s' H. eapply move_view in H as ((st & Hst & ->%one_of_single) & ? & ?); done.
Qed.
Next Obligation.
  intros id s s'. simpl. unfold table_view. rewrite lookup_fmap.
  destruct (tb_jobs s !! id) as [j|]; [|done]. destruct (String.eqb _ _) eqn:E; [done|].
  intros [= <-]. split_and!; [|by rewrite <-fmap_delete|done].
  apply String.eqb_neq in E. simpl. congruence.
Qed.
Next Obligation. intros id s s' H. eapply move_view in H as (_ & ? & ?); done. Qed.
Next Obligation.
  intros id s s' H. pose proof H as Hm.
  eapply (move_view _ _ _ _ _ "cancelled") in H as ((st & ? & _) & ? & ?); [|done]. split_and!; [by exists st|done| |done].
  unfold table_inspect, operator_cancel, move in Hm. destruct (tb_jobs s !! id) as [j|] eqn:E; [|done].
  destruct (one_of _ _); [|done]. injection Hm as <-. apply map_eq. intros i.
  rewrite !lookup_omap. unfold upd at 1; cbn [tb_jobs].
  destruct (decide (i = id)) as [->|]; [by rewrite lookup_insert_eq, E|by rewrite lookup_insert_ne].
Qed.
Next Obligation. by intros batch s s' [= <-]. Qed.
Next Obligation. by intros fp s s' [= <-]. Qed.
Next Obligation.
  intros id b v fp s s'. simpl. destruct (tb_jobs s !! id) as [j|] eqn:E; [|done].
  destruct (String.eqb _ _); [done|]. intros [= <-]. split; [|done].
  etransitivity; [apply (fmap_insert js_state)|]. apply insert_id. unfold table_view. by rewrite lookup_fmap, E.
Qed.
Next Obligation. by intros b s s' [= <-]. Qed.
Next Obligation. by intros n b s s' [= <-]. Qed.

(** ** A serialisation of cursors *)

#[export] Instance node_spec_eq_dec : EqDecision NodeSpec.
Proof. solve_decision. Defined.
#[export] Instance workflow_event_eq_dec : EqDecision WorkflowEvent.
Proof. solve_decision. Defined.
#[export] Instance workflow_cursor_eq_dec : EqDecision WorkflowCursor.
Proof. solve_decision. Defined.

#[export] Instance node_type_countable : Countable NodeType.NodeType.
Proof.
  refine (inj_countable' (λ k, match k with NodeType.Task => 0%nat | NodeType.Signal => 1%nat
                       | NodeType.Timer => 2%nat | NodeType.ChildWorkflow => 3%nat
                       | NodeType.Condition => 4%nat end)
    (λ n, match n with 0%nat => NodeType.Task | 1%nat => NodeType.Signal | 2%nat => NodeType.Timer
          | 3%nat => NodeType.ChildWorkflow | _ => NodeType.Condition end) _).
  by intros [].
Defined.
#[export] Instance node_spec_countable : Countable NodeSpec.
Proof.
  refine (inj_countable' (λ n, (n_name n, n_job_id n, n_deps n, n_kind n, n_signal n, n_wake_at_ms n, n_delay_ms n,
                        n_child_workflow_id n, n_condition n))
    (λ '(a, b, c, d, e, f, g, h, i), mkNodeSpec a b c d e f g h i) _).
  by intros [].
Defined.
#[export] Instance workflow_event_countable : Countable WorkflowEvent.
Proof.
  refine (inj_countable' (λ e, (ev_sequence e, ev_event e, ev_node e, ev_revision e, ev_generation e, ev_at_ms e))
    (λ '(a, b, c, d, e, f), mkWorkflowEvent a b c d e f) _).
  by intros [].
Defined.
#[export] Instance workflow_cursor_countable : Countable WorkflowCursor.
Proof.
  refine (inj_countable' (λ c, (c_revision c, c_completed c, c_completed_at_ms c, c_grafts c,
      c_pending_graft_receipt c, c_generation c, c_failed c, c_pending_retry_receipt c,
      c_automatic_retry_pending c, c_events c))
    (λ '(a, b, c, d, e, f, g, h, i, j), mkWorkflowCursor a b c d e f g h i j) _).
  by intros [].
Defined.

Fixpoint bits (p : positive) : string :=
  match p with xH => "" | xO p => String "0" (bits p) | xI p => String "1" (bits p) end.
Fixpoint unbits (s : string) : positive :=
  match s with
  | EmptyString => xH
  | String c s => if Ascii.eqb c "0" then xO (unbits s) else xI (unbits s)
  end.
Lemma unbits_bits p : unbits (bits p) = p.
Proof. induction p; simpl; congruence. Qed.

Definition cursor_to_bytes (c : WorkflowCursor) : result bytes string := Ok (bits (encode c)).
Definition cursor_of_bytes (b : bytes) : result WorkflowCursor string :=
  match decode (unbits b) with Some c => Ok c | None => Err "invalid workflow cursor" end.

Lemma cursor_bytes_round_trip c b : cursor_to_bytes c = Ok b → cursor_of_bytes b = Ok c.
Proof. intros [= <-]. unfold cursor_of_bytes. by rewrite unbits_bits, decode_encode. Qed.
