(* ===== verification/CoordTheorems.v ===== *)
(** * Properties of the coordinator and of cancellation

    The traversal of [cancel_workflow] against the reachability of child links, and the
    properties of the coordinator handler, the tick and cancellation, each applied at a
    concrete store. *)

From S2P Require Import Prelude Shared Envelope Graph Workflow WorkflowSpec Core Tick TickSpec Coordinator Operators CoordSpec Table.
Local Open Scope Z_scope.

(** ** Cancellation *)

Section cancel.
Context {S : Type} `{HI : Inspect S} `{HC : CoordinatorCtx S} `{!InspectLaws S}.
Context (decode_coordinator : bytes → result CoordinatorTask string).

(** The coordinator task of a workflow, by the payloads [p]. *)
Definition task_at (p : gmap string bytes) (id : string) : option CoordinatorTask :=
  b ← p !! coordinator_id id;
  match decode_coordinator b with Ok t => Some t | Err _ => None end.

Definition children (t : CoordinatorTask) : list string := omap n_child_workflow_id (ct_nodes t).
Definition targets (id : string) (t : CoordinatorTask) : list string :=
  (n_job_id <$> ct_nodes t) ++ [coordinator_id id].

Definition links (p : gmap string bytes) (a b : string) : Prop :=
  ∃ t, task_at p a = Some t ∧ b ∈ children t.

(** [id] is a job cancellation of the workflows [ws] is meant for. *)
Definition targeted (p : gmap string bytes) (ws : list string) (id : string) : Prop :=
  ∃ x t, x ∈ ws ∧ task_at p x = Some t ∧ id ∈ targets x t.

(** The store with the jobs [C] cancelled, everything else as in [v]. *)
Definition cancelled_view (v : gmap string string) (C : gset string) : gmap string string :=
  map_imap (λ id st, Some (if bool_decide (id ∈ C) then "cancelled" else st)) v.

Context (v : gmap string string) (p : gmap string bytes).

(** Between two steps: [C] is what has been cancelled so far. *)
Definition cancelling (ws : list string) (C : gset string) (s : S) : Prop :=
  payloads s = p ∧ view s = cancelled_view v C
  ∧ ∀ id, id ∈ C → targeted p ws id ∧ ∃ st, v !! id = Some st ∧ cancellable st = true.

Lemma cancelled_view_insert C id :
  is_Some (v !! id) → <[id := "cancelled"]> (cancelled_view v C) = cancelled_view v ({[id]} ∪ C).
Proof.
  intros [st Hst]. apply map_eq. intros i. unfold cancelled_view. rewrite !map_lookup_imap.
  destruct (decide (i = id)) as [->|Hi].
  - rewrite lookup_insert_eq, Hst. simpl. rewrite bool_decide_true by set_solver. done.
  - rewrite lookup_insert_ne, map_lookup_imap by done. destruct (v !! i); simpl; [|done].
    f_equal. assert (i ∈ C ↔ i ∈ {[id]} ∪ C) as Hiff by set_solver.
    by rewrite (bool_decide_ext _ _ Hiff).
Qed.

Lemma cancelled_view_lookup C id :
  cancelled_view v C !! id = if bool_decide (id ∈ C) then (λ _, "cancelled") <$> v !! id else v !! id.
Proof.
  unfold cancelled_view. rewrite map_lookup_imap. destruct (v !! id); simpl; by case_bool_decide.
Qed.

(** What the state read of a job says about it. *)
Lemma cancel_step ws C s id o :
  cancelling ws C s → targeted p ws id → get_job id false s = Ok o →
  if match o with Some j => cancellable (js_state j) | None => false end
  then id ∉ C ∧ ∀ s', operator_cancel id s = Ok s' → cancelling ws ({[id]} ∪ C) s'
  else ∀ st, v !! id = Some st → cancellable st = true → id ∈ C.
Proof.
  intros (Hp & Hv & HC1) Ht E%get_job_view. rewrite Hv, cancelled_view_lookup in E.
  destruct o as [j|]; simpl in E.
  - destruct (cancellable (js_state j)) eqn:Ec.
    + assert (id ∉ C) as Hn.
      { intros Hin. rewrite bool_decide_true in E by done. destruct (v !! id); [|done].
        injection E as E. by rewrite E in Ec. }
      rewrite bool_decide_false in E by done. split; [done|].
      intros s' (_ & Hv' & Hp' & _)%operator_cancel_view.
      split_and!; [congruence|rewrite Hv', Hv; apply cancelled_view_insert; eauto|].
      intros i [->%elem_of_singleton|Hi]%elem_of_union; [eauto|by apply HC1].
    + intros st Hst Hc. case_bool_decide; [done|]. rewrite Hst in E. injection E as <-. congruence.
  - intros st Hst _. case_bool_decide; [done|]. by rewrite Hst in E.
Qed.

(** Cancelling a list of jobs adds exactly the cancellable ones. *)
Definition cancel_post (ws ids : list string) (C : gset string) (rs : result Z string * S) : Prop :=
  ∃ C', cancelling ws C' rs.2 ∧ C ⊆ C'
    ∧ ∀ n, rs.1 = Ok n → n = Z.of_nat (size C') - Z.of_nat (size C)
        ∧ ∀ id st, id ∈ ids → v !! id = Some st → cancellable st = true → id ∈ C'.

Lemma cancel_post_err ws ids C e s : cancelling ws C s → cancel_post ws ids C (Err e, s).
Proof. by exists C. Qed.

Lemma cancel_jobs_spec ws ids C s :
  (∀ id, id ∈ ids → targeted p ws id) → cancelling ws C s → cancel_post ws ids C (cancel_jobs ids s).
Proof.
  revert C s. induction ids as [|id ids IH]; intros C s Ht Hs; simpl.
  { exists C. split_and!; [done|done|]. intros n [= <-]. split; [lia|]. by intros ? ? ?%elem_of_nil. }
  assert (∀ id, id ∈ ids → targeted p ws id) as Ht' by (intros; apply Ht; by right).
  unfold mbind, M_bind, read. destruct (get_job id false s) as [o|e] eqn:E; [|by apply cancel_post_err].
  apply (cancel_step ws C) in E; [|done|apply Ht; left].
  destruct (match o with Some j => cancellable (js_state j) | None => false end) eqn:Eo.
  - destruct o as [j|]; [|done]. rewrite Eo. destruct E as [Hn Hgo].
    unfold write. destruct (operator_cancel id s) as [s1|e] eqn:E1; [|by apply cancel_post_err].
    destruct (IH _ _ Ht' (Hgo _ eq_refl)) as (C' & HC' & Hsub & Hres).
    destruct (cancel_jobs ids s1) as [[n1|e] s2]; simpl in *;
      exists C'; split_and!; try done; [set_solver| |set_solver].
    intros n [= <-]. destruct (Hres _ eq_refl) as [-> Hall].
    rewrite size_union, size_singleton in * by set_solver. split; [lia|].
    intros i st [->|Hi]%elem_of_cons; [set_solver|by apply Hall].
  - assert (cancel_post ws (id :: ids) C (cancel_jobs ids s)) as Hgo.
    { destruct (IH _ _ Ht' Hs) as (C' & HC' & Hsub & Hres). exists C'. split_and!; [done..|].
      intros n Hr. destruct (Hres n Hr) as [? Hall]. split; [done|].
      intros i st [->|Hi]%elem_of_cons Hst Hc; [|by eapply Hall]. apply Hsub. by eapply E. }
    destruct o as [j|]; [by rewrite Eo|done].
Qed.

(** ** The traversal *)

Context (propagate : bool) (root : string).

Definition reach : string → string → Prop := rtc (λ a b, propagate = true ∧ links p a b).

(** [x] has been processed: its cancellable jobs are in [C] and its children known. *)
Definition processed (ws : list string) (C : gset string) (x : string) : Prop :=
  ∃ t, task_at p x = Some t ∧ (propagate = true → ∀ y, y ∈ children t → y ∈ ws)
    ∧ ∀ id st, id ∈ targets x t → v !! id = Some st → cancellable st = true → id ∈ C.

Definition cancel_run (rs : result CancelReceipt string * S) : Prop :=
  ∃ ws C, NoDup ws ∧ (∀ x, x ∈ ws → reach root x) ∧ cancelling ws C rs.2
    ∧ ∀ receipt, rs.1 = Ok receipt →
        cr_workflows receipt = length ws ∧ cr_jobs receipt = Z.of_nat (size C)
        ∧ root ∈ ws ∧ ∀ x, x ∈ ws → processed ws C x.

Lemma cancel_run_err ws C e s :
  NoDup ws → (∀ x, x ∈ ws → reach root x) → cancelling ws C s → cancel_run (Err e, s).
Proof. intros. by exists ws, C. Qed.

Lemma cancelling_mono ws ws' C s : ws ⊆ ws' → cancelling ws C s → cancelling ws' C s.
Proof.
  intros Hws (? & ? & HC1). split_and!; [done..|]. intros id Hid.
  destruct (HC1 id Hid) as [(x & t & ? & ?) ?]. split; [|done]. exists x, t. set_solver.
Qed.

Lemma processed_mono ws ws' C C' x : ws ⊆ ws' → C ⊆ C' → processed ws C x → processed ws' C' x.
Proof.
  intros Hws HCC (t & ? & Hch & Ht). exists t. split_and!; [done| |].
  - intros Hpr y Hy. by apply Hws, Hch.
  - intros id st ? ? ?. by eapply HCC, Ht.
Qed.

Lemma next_unvisited_None visited pending :
  next_unvisited visited pending = None → pending ⊆ visited.
Proof.
  induction pending as [|x l IH]; simpl; [set_solver|]. destruct (contains _ _) eqn:E; [|done].
  apply contains_true in E. intros H%IH. set_solver.
Qed.
Lemma next_unvisited_Some visited pending x l :
  next_unvisited visited pending = Some (x, l) →
  x ∉ visited ∧ x ∈ pending ∧ l ⊆ pending ∧ pending ⊆ x :: l ++ visited.
Proof.
  induction pending as [|y l' IH]; simpl; [done|]. destruct (contains _ _) eqn:E.
  - apply contains_true in E. intros (? & ? & ? & ?)%IH. set_solver.
  - apply contains_false in E. intros [= <- <-]. set_solver.
Qed.

Lemma load_task ws C s id a s' :
  cancelling ws C s → load_coordinator decode_coordinator id s = (a, s') →
  s' = s ∧ ∀ jt, a = Ok jt → task_at p id = Some jt.2.
Proof.
  intros (Hp & _) H. unfold load_coordinator, mbind, M_bind, read in H.
  destruct (get_job _ true s) as [o|e] eqn:E; [|by simplify_eq].
  apply get_job_payload in E. unfold task_at. rewrite <-Hp, <-E.
  destruct o as [j|]; simpl in *; [|by simplify_eq]. destruct (js_payload j); simpl in *; [|by simplify_eq].
  destruct (decode_coordinator _) as [t|]; injection H as <- <-; (split; [done|]); [|done].
  intros jt E2. by injection E2 as <-.
Qed.

(** One workflow of the traversal. *)
Lemma cancel_one_spec ws C x s :
  x ∈ ws → cancelling ws C s →
  match cancel_one decode_coordinator x s with
  | (Ok (ch, n), s') => ∃ C', cancelling ws C' s' ∧ C ⊆ C'
      ∧ n = Z.of_nat (size C') - Z.of_nat (size C)
      ∧ ∃ t, task_at p x = Some t ∧ ch = children t
        ∧ ∀ id st, id ∈ targets x t → v !! id = Some st → cancellable st = true → id ∈ C'
  | (Err _, s') => ∃ C', cancelling ws C' s'
  end.
Proof.
  intros Hx HC1. unfold cancel_one, mbind at 1, M_bind at 1.
  destruct (load_coordinator _ x s) as [[[j t]|e] s1] eqn:E;
    destruct (load_task ws C s x _ _ HC1 E) as [-> Ht]; [|by exists C].
  specialize (Ht _ eq_refl). simpl in *. unfold mbind, M_bind.
  destruct (cancel_jobs_spec ws (targets x t) C s) as (C' & HC' & Hsub & Hres); [|done|].
  { intros id Hid. by exists x, t. }
  change (_ ++ [coordinator_id x]) with (targets x t).
  destruct (cancel_jobs (targets x t) s) as [[n|e] s2]; simpl in *; [|by exists C'].
  destruct (Hres n eq_refl). exists C'. eauto 10.
Qed.

Lemma cancel_loop_spec fuel visited pending C jobs s :
  NoDup visited → (∀ x, x ∈ visited ++ pending → reach root x) → root ∈ visited ++ pending →
  cancelling visited C s → jobs = Z.of_nat (size C) →
  (∀ x, x ∈ visited → processed (visited ++ pending) C x) →
  cancel_run (cancel_loop decode_coordinator fuel propagate visited pending jobs s).
Proof.
  revert visited pending C jobs s. induction fuel as [|fuel IH]; simpl;
    intros visited pending C jobs s Hnd Hreach Hroot HC1 Hjobs Hproc.
  { eapply cancel_run_err; [done| |done]. set_solver. }
  destruct (next_unvisited visited pending) as [[x l]|] eqn:En.
  2: { apply next_unvisited_None in En. exists visited, C. split_and!; [done|set_solver|done|].
       intros ? [= <-]. split_and!; [done|done|set_solver|]. intros x Hx.
       eapply processed_mono; [|done|by apply Hproc]. set_solver. }
  apply next_unvisited_Some in En as (Hx & Hxp & Hl & Hsub).
  assert (∀ l' y, y ∈ visited ++ pending → y ∈ (x :: visited) ++ l ++ l') as Hpend.
  { clear -Hsub. set_solver. }
  assert (NoDup (x :: visited)) as Hnd' by by constructor.
  assert (∀ y, y ∈ x :: visited → reach root y) as Hreach' by set_solver.
  apply (cancelling_mono _ (x :: visited)) in HC1; [|set_solver].
  unfold mbind at 1, M_bind at 1, require. destruct (negb _); [|by eapply cancel_run_err].
  simpl. pose proof (cancel_one_spec (x :: visited) C x s ltac:(left) HC1) as Hone.
  unfold mbind, M_bind. destruct (cancel_one _ x s) as [[[ch n]|e] s1];
    [|destruct Hone as [C' ?]; by eapply cancel_run_err].
  destruct Hone as (C' & HC' & HCC & -> & t & Ht & -> & Hall). simpl.
  eapply IH; [done| | |exact HC'|lia|].
  - intros y. rewrite !elem_of_app. intros [?|[?|Hy]]; [by apply Hreach'|set_solver|].
    destruct propagate eqn:Epr; [|set_solver]. eapply rtc_r; [by apply (Hreach' x); left|]. split; [done|].
    by exists t.
  - by apply Hpend.
  - intros y [->|Hy]%elem_of_cons.
    + exists t. split_and!; [done| |done]. intros -> z Hz. rewrite !elem_of_app. auto.
    + eapply processed_mono; [|exact HCC|by apply Hproc]. intros z. by apply Hpend.
Qed.

(** The closure is exact: a processed set is closed under the links it follows. *)
Lemma processed_reach ws C :
  root ∈ ws → (∀ x, x ∈ ws → processed ws C x) → ∀ x, reach root x → x ∈ ws.
Proof.
  intros Hroot Hproc x Hr. unfold reach in Hr.
  assert (∀ a, a ∈ ws → rtc (λ a b, propagate = true ∧ links p a b) a x → x ∈ ws) as H; [|by eapply H].
  clear Hr Hroot. intros a Ha Hr. induction Hr as [|a b c [Hp (t & Ht & Hb)] _ IH]; [done|].
  apply IH. destruct (Hproc a Ha) as (t' & Ht' & Hch & _). simplify_eq. by apply Hch.
Qed.
End cancel.

Lemma cancel_loop_fuel {S} `{Inspect S} decode_coordinator propagate f1 f2 visited pending jobs s :
  (1000 ≤ f1 + length visited)%nat → (1000 ≤ f2 + length visited)%nat →
  (length visited ≤ 999)%nat →
  cancel_loop decode_coordinator f1 propagate visited pending jobs s
  = cancel_loop decode_coordinator f2 propagate visited pending jobs s.
Proof.
  revert f2 visited pending jobs s. induction f1 as [|f1 IH]; intros f2 visited pending jobs s H1 H2 Hv; [lia|].
  destruct f2 as [|f2]; [lia|]. cbn [cancel_loop].
  destruct (next_unvisited visited pending) as [[x l]|]; [|done].
  unfold mbind, M_bind, require. destruct (MAX_WORKFLOW_NODES <? _) eqn:E; [done|]. simpl.
  apply Z.ltb_ge in E. unfold MAX_WORKFLOW_NODES, MAX_ENQUEUE_BATCH_SIZE in E. cbn [length] in E.
  destruct (cancel_one _ x s) as [[a|e] s1]; [|done]. apply IH; cbn [length]; lia.
Qed.

(** ** Properties *)

(** A workflow with one child workflow, and the child, in one table. *)
Definition parent_task : CoordinatorTask :=
  mkCoordinatorTask "wf"
    [demo_task_node "a" []; demo_task_node "b" ["a"];
     mkNodeSpec "k" "wf:k" ["a"] NodeType.ChildWorkflow None None None (Some "kid") None] true None.
Definition kid_task : CoordinatorTask := mkCoordinatorTask "kid" [demo_task_node "z" []] false None.
Definition demo_decode (b : bytes) : result CoordinatorTask string :=
  if String.eqb b "parent" then Ok parent_task
  else if String.eqb b "kid" then Ok kid_task else Err "malformed".
Definition demo_job (id state : string) : string * JobSummary := (id, demo_summary id state).
Definition demo_coordinator_job (id payload : string) : string * JobSummary :=
  (id, (demo_summary id "running") <| js_payload := Some payload |>).
Definition demo_table : Table :=
  mkTable (list_to_map [demo_job "wf:a" "completed"; demo_job "wf:b" "pending"; demo_job "wf:k" "pending";
      demo_job "wf:z" "scheduled"; demo_job "wf:late" "pending";
      demo_coordinator_job "wf:coordinator" "parent"; demo_coordinator_job "kid:coordinator" "kid"])
    "wf:coordinator" None [].

(** C28.  How the persisted cursor evolves.  On every exit of the coordinator handler, errors
    included, the cursor in the checkpoint carries the progress of the one it started from: the
    history is the old one with events appended (the last 256 kept), completed nodes of the
    workflow stay completed and only nodes of the workflow join them, and no completion time is
    lost.  Beyond that it is one of four: nothing but settled receipts and an enqueued automatic
    retry; the verdict that the workflow failed, marked only if it may be retried and with an
    automatic retry due only if the policy has generations left; one accepted graft onto a
    workflow that had not failed, one revision on, with new nodes, a result that validates, and
    its receipt pending; or one accepted retry of a failed workflow that allows it, one revision
    and one generation on, unmarked, with its receipt pending.  So a workflow that validated
    before the handler ran validates after it. *)
Theorem coordinator_cursor_evolves {S} `{Inspect S} `{CoordinatorCtx S} `{!InspectLaws S}
    cel_compiles cel_execute sha256 encode decode_coordinator decode_graft decode_retry
    encode_cursor decode_cursor ords (base : CoordinatorTask) (queue : string) (poll_ms : Z)
    (s : S) (c0 : WorkflowCursor) :
  (∀ c b, encode_cursor c = Ok b → decode_cursor b = Ok c) →
  cursor_of decode_cursor (saved s) = Ok c0 →
  ∃ c, cursor_of decode_cursor (saved (coordinator_handler cel_compiles cel_execute sha256 encode
         decode_coordinator decode_graft decode_retry encode_cursor decode_cursor ords base (saved s)
         queue poll_ms s).2) = Ok c
    ∧ evolves (valid cel_compiles ords) base c0 c
    ∧ (valid cel_compiles ords (effective_workflow base c0) →
       valid cel_compiles ords (effective_workflow base c)).
Proof.
  intros Hserde Hs.
  destruct (handler_on_track cel_compiles cel_execute sha256 encode decode_coordinator decode_graft
    decode_retry encode_cursor decode_cursor ords Hserde base c0 (saved s) queue poll_ms Hs s)
    as [(c & Hc & Hev) _].
  { exists c0. split; [done|]. apply unmoved_evolves, unmoved_refl. }
  exists c. split_and!; [done|done|]. by apply evolves_valid.
Qed.

Definition demo_graft : string * Z * list NodeSpec := ("wf", 1, [mkNodeSpec "late" "wf:late" ["b"] NodeType.Task None None None None None]).
Definition demo_graft_table : Table :=
  demo_table <| tb_jobs := <["wf:graft:2" := (demo_summary "wf:graft:2" "pending") <| js_payload := Some "graft" |>]>
    (tb_jobs demo_table) |>.
Definition demo_run : result Handled string * Table :=
  coordinator_handler (λ _, true) demo_cel (λ b, b) demo_encode demo_decode (λ _, Ok demo_graft)
    (λ _, Err "malformed") cursor_to_bytes cursor_of_bytes (λ l, l) parent_task None "q" 1000 demo_graft_table.

Lemma coordinator_cursor_evolves_witness :
  match cursor_of cursor_of_bytes (saved demo_run.2) with
  | Ok c => c_revision c = 2 ∧ valid (λ _, true) (λ l, l) (effective_workflow parent_task c)
  | Err _ => False
  end.
Proof.
  assert (cursor_of cursor_of_bytes (saved demo_graft_table) = Ok default_cursor) as H0 by reflexivity.
  destruct (coordinator_cursor_evolves (λ _, true) demo_cel (λ b, b) demo_encode demo_decode
    (λ _, Ok demo_graft) (λ _, Err "malformed") cursor_to_bytes cursor_of_bytes (λ l, l) parent_task
    "q" 1000 demo_graft_table default_cursor cursor_bytes_round_trip H0) as (c & Hc & _ & Hv).
  assert (cursor_of cursor_of_bytes (saved demo_run.2) = Ok c) as E by exact Hc.
  rewrite E. split; [|apply Hv; vm_compute; reflexivity].
  assert (match cursor_of cursor_of_bytes (saved demo_run.2) with Ok c => c_revision c | Err _ => 0 end = 2)
    as E2 by (vm_compute; reflexivity).
  by rewrite E in E2.
Defined.

(** C29.  What a tick does to the jobs of a task whose nodes have distinct job ids, on every
    exit: it fails before touching any, or, by
    the states it read, every job it changed is a pending node it had to release (now
    available), a relative timer that is due (now scheduled) or a node doomed by a failure
    (now deleted).  A tick that returns has scheduled one timer or released and deleted
    every such node; one that returns a verdict has changed nothing. *)
Theorem tick_changes_exactly_its_plan {S} `{Inspect S} `{CoordinatorCtx S} `{!InspectLaws S}
    cel_compiles cel_execute encode_cursor ords (w : CoordinatorTask) (c : WorkflowCursor)
    (persist : bool) (s : S) :
  (∀ l, ords l ≡ₚ l) → NoDup (n_job_id <$> ct_nodes w) →
  let rs := tick_with_evidence cel_compiles cel_execute encode_cursor ords w c persist s in
  (view rs.2 = view s ∧ is_ok rs.1 = false)
  ∨ ∃ state c',
      let e := record_completion_evidence w state (completed_set w (c_completed c)) (c_completed_at_ms c) in
      let failed := failed_set w state (evd_completed e) in
      (∀ n, n ∈ ct_nodes w → js_state <$> job_of state (n_name n) = view s !! n_job_id n)
      ∧ c_completed_at_ms c' = evd_at_ms e
      ∧ tick_change cel_compiles cel_execute w c' state (evd_completed e) failed (view s) (view rs.2)
      ∧ ∀ ct, rs.1 = Ok ct →
          tick_done cel_compiles cel_execute w c' state (evd_completed e) failed (view rs.2)
          ∧ (ct.2 ≠ Tick.Waiting →
             view rs.2 = view s ∧ ct.2 = verdict w state (evd_completed e) failed).
Proof. intros Hords Hids. by apply tick_effect_holds. Qed.

Definition demo_tick : result (WorkflowCursor * Tick.Tick) string * Table :=
  tick_with_evidence (λ _, true) demo_cel cursor_to_bytes (λ l, l) parent_task default_cursor true demo_table.

Lemma tick_changes_exactly_its_plan_witness :
  view demo_tick.2 !! "wf:b" = Some "available" ∧
  ∃ state c',
    let e := record_completion_evidence parent_task state ∅ ∅ in
    tick_change (λ _, true) demo_cel parent_task c' state (evd_completed e)
      (failed_set parent_task state (evd_completed e)) (view demo_table) (view demo_tick.2).
Proof.
  split; [vm_compute; reflexivity|].
  assert (NoDup (n_job_id <$> ct_nodes parent_task)) as Hids.
  { apply (bool_decide_unpack _). vm_compute. exact I. }
  destruct (tick_changes_exactly_its_plan (λ _, true) demo_cel cursor_to_bytes (λ l, l) parent_task
    default_cursor true demo_table (λ l, Permutation_refl l) Hids) as [[_ Hbad]|(st & c' & _ & _ & Hch & _)].
  - vm_compute in Hbad. discriminate Hbad.
  - exists st, c'. exact Hch.
Defined.

(** Cancelling a workflow, on every exit: nothing but cancellable jobs named by the
    coordinator tasks of workflows reachable over child links (the workflow alone when
    children are not propagated to) changes, and those become cancelled.  When the request
    succeeds, the workflows it counts are exactly the reachable ones, every cancellable
    job of theirs is cancelled, and the job count is the number of jobs cancelled. *)
Theorem cancel_workflow_exact {S} `{Inspect S} `{CoordinatorCtx S} `{!InspectLaws S}
    decode_coordinator (id : string) (propagate : bool) (s : S) :
  let rs := cancel_workflow decode_coordinator id propagate s in
  let reachable := reach decode_coordinator (payloads s) propagate id in
  ∃ (ws : list string) (C : gset string),
    view rs.2 = cancelled_view (view s) C
    ∧ (∀ x, x ∈ ws → reachable x)
    ∧ (∀ j, j ∈ C → targeted decode_coordinator (payloads s) ws j
        ∧ ∃ st, view s !! j = Some st ∧ cancellable st = true)
    ∧ ∀ receipt, rs.1 = Ok receipt →
        NoDup ws ∧ (∀ x, x ∈ ws ↔ reachable x)
        ∧ cr_workflows receipt = length ws ∧ cr_jobs receipt = Z.of_nat (size C)
        ∧ ∀ j st, targeted decode_coordinator (payloads s) ws j → view s !! j = Some st →
            cancellable st = true → j ∈ C.
Proof.
  intros rs reachable. assert (view s = cancelled_view (view s) ∅) as Hv0.
  { apply map_eq. intros j. rewrite cancelled_view_lookup. by rewrite bool_decide_false by set_solver. }
  assert (cancelling decode_coordinator (view s) (payloads s) [] ∅ s) as Hstart.
  { split_and!; [done|done|]. by intros j ?%elem_of_empty. }
  assert (cancel_run decode_coordinator (view s) (payloads s) propagate id rs) as Hrun.
  { subst rs. unfold cancel_workflow, mbind, M_bind, require.
    destruct (negb _); [|exists [], ∅; split_and!; [constructor|by intros ? ?%elem_of_nil|done|done]].
    eapply cancel_loop_spec; [constructor| |set_solver|exact Hstart|done|by intros ? ?%elem_of_nil].
    intros x Hx%elem_of_app; destruct Hx as [Hx%elem_of_nil|Hx%list_elem_of_singleton]; [done|subst x; apply rtc_refl]. }
  destruct Hrun as (ws & C & Hnd & Hr & (Hp & Hv & HC1) & Hok). exists ws, C. split_and!; [done..|].
  intros receipt Hrec. destruct (Hok receipt Hrec) as (Hlen & Hjobs & Hroot & Hproc).
  split_and!; [done| |done|done|].
  - intros x. split; [apply Hr|]. by eapply processed_reach.
  - intros j st (x & t & Hx & Ht & Hj) Hst Hc. destruct (Hproc x Hx) as (t' & Ht' & _ & Hall).
    simplify_eq. by eapply Hall.
Qed.

Definition demo_cancel : result CancelReceipt string * Table := cancel_workflow demo_decode "wf" true demo_table.

(** The grafted job ["wf:late"] of the workflow stays pending. *)
Lemma cancel_workflow_exact_witness :
  demo_cancel.1 = Ok (mkCancelReceipt 2 5)
  ∧ view demo_cancel.2 !! "wf:z" = Some "cancelled" ∧ view demo_cancel.2 !! "wf:late" = Some "pending"
  ∧ ∃ C : gset string, size C = 5%nat ∧ view demo_cancel.2 = cancelled_view (view demo_table) C.
Proof.
  assert (demo_cancel.1 = Ok (mkCancelReceipt 2 5)) as E by (vm_compute; reflexivity).
  split_and!; [exact E|vm_compute; reflexivity|vm_compute; reflexivity|].
  destruct (cancel_workflow_exact demo_decode "wf" true demo_table) as (ws & C & Hv & _ & _ & Hok).
  exists C. split; [|exact Hv]. destruct (Hok _ E) as (_ & _ & _ & Hj & _). simpl in Hj. lia.
Defined.

(** The traversal of child workflows always ends: every round visits a workflow not
    seen before and the node limit bounds how many there can be, so that any number of
    rounds beyond the bound gives the same result. *)
Theorem cancel_traversal_ends {S} `{Inspect S} decode_coordinator (id : string) (propagate : bool)
    (fuel : nat) (s : S) :
  (1001 ≤ fuel)%nat → id ≠ "" →
  cancel_loop decode_coordinator fuel propagate [] [id] 0 s = cancel_workflow decode_coordinator id propagate s.
Proof.
  intros Hf Hid. unfold cancel_workflow, require. apply String.eqb_neq in Hid. rewrite Hid.
  apply cancel_loop_fuel; cbn [length]; lia.
Qed.

Lemma cancel_traversal_ends_witness :
  (cancel_loop demo_decode 2000 true [] ["wf"] 0 demo_table).1 = Ok (mkCancelReceipt 2 5).
Proof.
  rewrite (cancel_traversal_ends demo_decode "wf" true 2000 demo_table); [|lia|discriminate].
  vm_compute. reflexivity.
Defined.
