(* ===== verification/Breaker.v ===== *)
(** * headgate: the producer's availability circuit breaker

    Models [crates/headgate/src/circuit_breaker.rs]: the configuration check, the machine
    behind the mutex, [acquire], [finish], [exclude] and [snapshot], and the permits that
    producers hold.  Every method runs under the lock with one reading of the clock, which
    is its argument [now]; what concurrent producers do is a sequence of such calls
    ([breaker_step]).  The generation is a wrapping [u64]. *)

From S2P Require Import Prelude Shared.
Local Open Scope Z_scope.

Module CircuitState.
Inductive CircuitState := Closed | Open | HalfOpen.
End CircuitState.

Record CircuitBreakerConfig := mkCircuitBreakerConfig {
  failure_threshold : Z;
  recovery_timeout : duration;
  half_open_max_calls : Z;
}.

Record CircuitRejected := mkCircuitRejected {
  rej_state : CircuitState.CircuitState;
  rej_retry_after_ms : Z;
}.

Record CircuitSnapshot := mkCircuitSnapshot {
  sn_state : CircuitState.CircuitState;
  sn_consecutive_failures : Z;
  sn_half_open_successes : Z;
  sn_half_open_in_flight : Z;
  sn_retry_after_ms : Z;
}.

Inductive Mode :=
  | Closed (failures : Z)
  | Open (opened_at_ms : Z)
  | HalfOpen (successes in_flight : Z).

Record Machine := mkMachine { generation : Z; mode : Mode }.

(** What [Shared] holds besides the clock and the machine. *)
Record BreakerParams := mkBreakerParams {
  bp_failure_threshold : Z;
  bp_recovery_timeout_ms : Z;
  bp_half_open_max_calls : Z;
}.

Record CircuitPermit := mkCircuitPermit {
  cp_generation : Z;
  cp_state : CircuitState.CircuitState;
}.

Definition with_clock (config : CircuitBreakerConfig) : result (BreakerParams * Machine) string :=
  if failure_threshold config =? 0 then Err "circuit failure_threshold must be >= 1"
  else if half_open_max_calls config =? 0 then Err "circuit half_open_max_calls must be >= 1"
  else if u64_max <? as_millis (recovery_timeout config)
  then Err "circuit recovery_timeout exceeds u64 milliseconds"
  else if as_millis (recovery_timeout config) =? 0
  then Err "circuit recovery_timeout must be at least 1ms"
  else Ok (mkBreakerParams (failure_threshold config) (as_millis (recovery_timeout config))
             (half_open_max_calls config), mkMachine 0 (Closed 0)).

Section breaker.
Context (b : BreakerParams).

Definition advance_open (m : Machine) (now : Z) : Machine :=
  match mode m with
  | Open opened_at_ms =>
      if bp_recovery_timeout_ms b <=? u64_saturating_sub now opened_at_ms
      then mkMachine (u64_add (generation m) 1) (HalfOpen 0 0) else m
  | _ => m
  end.

Definition retry_after_ms (opened_at_ms now : Z) : Z :=
  u64_saturating_sub (bp_recovery_timeout_ms b) (u64_saturating_sub now opened_at_ms).

Definition circuit_snapshot (m : Machine) (now : Z) : Machine * CircuitSnapshot :=
  let m := advance_open m now in
  (m, match mode m with
      | Closed failures => mkCircuitSnapshot CircuitState.Closed failures 0 0 0
      | Open opened => mkCircuitSnapshot CircuitState.Open 0 0 0 (retry_after_ms opened now)
      | HalfOpen successes in_flight => mkCircuitSnapshot CircuitState.HalfOpen 0 successes in_flight 0
      end).

Definition acquire (m : Machine) (now : Z) : Machine * result CircuitPermit CircuitRejected :=
  let m := advance_open m now in
  match mode m with
  | Closed _ => (m, Ok (mkCircuitPermit (generation m) CircuitState.Closed))
  | Open opened => (m, Err (mkCircuitRejected CircuitState.Open (retry_after_ms opened now)))
  | HalfOpen successes in_flight =>
      if bp_half_open_max_calls b <=? u32_saturating_add successes in_flight
      then (m, Err (mkCircuitRejected CircuitState.HalfOpen 0))
      else (mkMachine (generation m) (HalfOpen successes (u32_add in_flight 1)),
            Ok (mkCircuitPermit (generation m) CircuitState.HalfOpen))
  end.

(** [CircuitBreaker::finish], which [CircuitPermit::finish] calls. *)
Definition circuit_finish (m : Machine) (now : Z) (p : CircuitPermit) (unavailable : bool) : Machine :=
  if negb (generation m =? cp_generation p) then m else
  match mode m, cp_state p, unavailable with
  | Closed _, CircuitState.Closed, false => mkMachine (generation m) (Closed 0)
  | Closed failures, CircuitState.Closed, true =>
      let failures := u32_saturating_add failures 1 in
      if bp_failure_threshold b <=? failures
      then mkMachine (u64_add (generation m) 1) (Open now)
      else mkMachine (generation m) (Closed failures)
  | HalfOpen successes in_flight, CircuitState.HalfOpen, false =>
      let in_flight := u32_saturating_sub in_flight 1 in
      let successes := u32_saturating_add successes 1 in
      if bp_half_open_max_calls b <=? successes
      then mkMachine (u64_add (generation m) 1) (Closed 0)
      else mkMachine (generation m) (HalfOpen successes in_flight)
  | HalfOpen _ _, CircuitState.HalfOpen, true => mkMachine (u64_add (generation m) 1) (Open now)
  | _, _, _ => m
  end.

(** [CircuitBreaker::exclude], which dropping an unfinished permit calls. *)
Definition exclude (m : Machine) (p : CircuitPermit) : Machine :=
  match cp_state p with
  | CircuitState.HalfOpen =>
      if negb (generation m =? cp_generation p) then m else
      match mode m with
      | HalfOpen successes in_flight =>
          mkMachine (generation m) (HalfOpen successes (u32_saturating_sub in_flight 1))
      | _ => m
      end
  | _ => m
  end.

(** ** Concurrent producers

    The machine and the permits that are still out. *)

Record World := mkWorld { machine : Machine; permits : list CircuitPermit }.

Inductive breaker_op :=
  | Acquire (now : Z)
  | Finish (i : nat) (now : Z) (unavailable : bool)
  | DropPermit (i : nat)
  | Snapshot (now : Z).

Definition breaker_run (o : breaker_op) (w : World) : World :=
  match o with
  | Acquire now =>
      match acquire (machine w) now with
      | (m, Ok p) => mkWorld m (p :: permits w)
      | (m, Err _) => mkWorld m (permits w)
      end
  | Finish i now unavailable =>
      match permits w !! i with
      | Some p => mkWorld (circuit_finish (machine w) now p unavailable) (delete i (permits w))
      | None => w
      end
  | DropPermit i =>
      match permits w !! i with
      | Some p => mkWorld (exclude (machine w) p) (delete i (permits w))
      | None => w
      end
  | Snapshot now => mkWorld (circuit_snapshot (machine w) now).1 (permits w)
  end.

Definition breaker_step (w w' : World) : Prop := ∃ o, w' = breaker_run o w.
End breaker.

(** ** The invariant *)

Definition params_ok (b : BreakerParams) : Prop :=
  1 ≤ bp_failure_threshold b ≤ u32_max ∧ 1 ≤ bp_recovery_timeout_ms b ≤ u64_max
  ∧ 1 ≤ bp_half_open_max_calls b ≤ u32_max.

Definition is_probe (g : Z) (p : CircuitPermit) : bool :=
  (cp_generation p =? g)
  && match cp_state p with CircuitState.HalfOpen => true | _ => false end.

(** The recovery probes of phase [g] that are still out. *)
Fixpoint probes (g : Z) (ps : list CircuitPermit) : Z :=
  match ps with
  | [] => 0
  | p :: ps => (if is_probe g p then 1 else 0) + probes g ps
  end.

Definition mode_ok (b : BreakerParams) (w : World) : Prop :=
  match mode (machine w) with
  | Closed failures => 0 ≤ failures < bp_failure_threshold b
  | Open _ => True
  | HalfOpen successes in_flight =>
      in_flight = probes (generation (machine w)) (permits w)
      ∧ 0 ≤ successes < bp_half_open_max_calls b ∧ successes + in_flight ≤ bp_half_open_max_calls b
  end.

(** After [n] calls: the generation has not wrapped, so no permit is of a later phase. *)
Definition world_ok (b : BreakerParams) (n : Z) (w : World) : Prop :=
  0 ≤ generation (machine w) ≤ n
  ∧ (∀ p, p ∈ permits w → cp_generation p ≤ generation (machine w)) ∧ mode_ok b w.

Lemma with_clock_ok config b m :
  0 ≤ failure_threshold config ≤ u32_max → 0 ≤ half_open_max_calls config ≤ u32_max →
  0 ≤ as_millis (recovery_timeout config) →
  with_clock config = Ok (b, m) → params_ok b ∧ m = mkMachine 0 (Closed 0).
Proof.
  unfold with_clock. intros Ht Hh Hr. repeat case_match; try done. intros [= <- <-].
  bool_hyps. split; [|done]. unfold params_ok. simpl. lia.
Qed.

Lemma probes_nonneg g ps : 0 ≤ probes g ps.
Proof. induction ps as [|p ps IH]; simpl; [lia|]. destruct (is_probe g p); lia. Qed.

Lemma probes_later g ps : (∀ p, p ∈ ps → cp_generation p ≤ g) → probes (g + 1) ps = 0.
Proof.
  induction ps as [|p ps IH]; intros Hps; simpl; [done|].
  rewrite IH by (intros; apply Hps; by right). unfold is_probe.
  pose proof (Hps p ltac:(left)). assert (cp_generation p =? g + 1 = false) as -> by lia. done.
Qed.

Lemma probes_delete g ps i p :
  ps !! i = Some p → probes g (delete i ps) = probes g ps - if is_probe g p then 1 else 0.
Proof.
  revert i. induction ps as [|q ps IH]; intros i; [done|]. destruct i as [|i]; simpl.
  - intros [= ->]. lia.
  - intros Hp. rewrite (IH i Hp). lia.
Qed.

Lemma elem_of_delete (ps : list CircuitPermit) i p : p ∈ delete i ps → p ∈ ps.
Proof.
  revert i. induction ps as [|q ps IH]; intros i; [done|]. destruct i; simpl; [by right|].
  intros [->|H]%elem_of_cons; [left|right; by eapply IH].
Qed.

Lemma world_ok_mono b n n' w : n ≤ n' → world_ok b n w → world_ok b n' w.
Proof. intros Hn (? & ? & ?). split_and!; [lia|lia|done|done]. Qed.

Lemma u64_add_small a : 0 ≤ a < u64_max → u64_add a 1 = a + 1.
Proof. intros. apply wrap_u64_id. unfold in_u64, u64_max in *. lia. Qed.

Section invariant.
Context (b : BreakerParams) (Hb : params_ok b) (n : Z) (Hn : n < u64_max).

(** Moving on to a new phase. *)
Lemma new_phase g md md' ps ps' :
  world_ok b n (mkWorld (mkMachine g md) ps) → (∀ p, p ∈ ps' → p ∈ ps) →
  match md' with
  | Closed f => f = 0 | Open _ => True | HalfOpen s k => s = 0 ∧ k = 0
  end →
  world_ok b (n + 1) (mkWorld (mkMachine (u64_add g 1) md') ps').
Proof.
  intros (Hg & Hps & _) Hsub Hmd. simpl in *. rewrite u64_add_small by lia.
  assert (∀ p, p ∈ ps' → cp_generation p ≤ g) as Hps' by (intros; apply Hps; auto).
  split_and!; simpl; [lia|lia|intros p Hp; specialize (Hps' p Hp); lia|]. unfold mode_ok. simpl.
  destruct Hb as (? & ? & ?). destruct md'; [lia|done|]. destruct Hmd as [-> ->].
  rewrite probes_later by done. lia.
Qed.

Lemma advance_open_ok w now :
  world_ok b n w → world_ok b (n + 1) (mkWorld (advance_open b (machine w) now) (permits w)).
Proof.
  intros Hw. unfold advance_open. destruct w as [[g md] ps]. simpl in *.
  destruct md; try (eapply world_ok_mono; [|exact Hw]; lia).
  case_match; [|eapply world_ok_mono; [|exact Hw]; lia]. by eapply new_phase.
Qed.

Lemma acquire_ok w now :
  world_ok b n w → world_ok b (n + 1) (breaker_run b (Acquire now) w).
Proof.
  intros Hw%(advance_open_ok _ now). simpl. unfold acquire. cbv zeta.
  destruct (advance_open b (machine w) now) as [g md]. destruct Hw as (Hg & Hps & Hmd). simpl in *.
  assert (∀ p ps, cp_generation p = g → (∀ q, q ∈ ps → cp_generation q ≤ g) →
    ∀ q, q ∈ p :: ps → cp_generation q ≤ g) as Hcons.
  { intros p ps Hp H q [->|Hq]%elem_of_cons; [lia|by apply H]. }
  destruct md as [f|o|s k]; simpl.
  - split_and!; simpl; [lia|lia|by apply Hcons|done].
  - split_and!; simpl; [lia|lia|done|done].
  - destruct Hmd as (Hk & Hs & Hsk). simpl in Hk. pose proof (probes_nonneg g (permits w)).
    destruct Hb as (_ & _ & Hmax). destruct (_ <=? _) eqn:E; bool_hyps.
    { split_and!; simpl; [lia|lia|done|]. by split_and!. }
    simpl.
    unfold u32_saturating_add, u32_max in *.
    split_and!; simpl; [lia|lia|by apply Hcons|]. unfold mode_ok. simpl. unfold is_probe. simpl.
    rewrite Z.eqb_refl. simpl. unfold u32_add. rewrite wrap_u32_id by (unfold in_u32, u32_max; lia). lia.
Qed.

Lemma finish_ok w i now u :
  world_ok b n w → world_ok b (n + 1) (breaker_run b (Finish i now u) w).
Proof.
  intros Hw. simpl. destruct (permits w !! i) as [p|] eqn:Hi; [|eapply world_ok_mono; [|exact Hw]; lia].
  destruct w as [[g md] ps]. simpl in *. pose proof Hw as (Hg & Hps & Hmd).
  assert (∀ q, q ∈ delete i ps → q ∈ ps) as Hsub by (intros ?; apply elem_of_delete).
  assert (mode_ok b (mkWorld (mkMachine g md) (delete i ps)) →
          world_ok b (n + 1) (mkWorld (mkMachine g md) (delete i ps))) as Hsame.
  { intros Hm. split_and!; simpl in *; [lia|lia|auto|done]. }
  assert (∀ md', match md' with Closed f => f = 0 | Open _ => True | HalfOpen s k => s = 0 ∧ k = 0 end →
    world_ok b (n + 1) (mkWorld (mkMachine (u64_add g 1) md') (delete i ps))) as Hnew.
  { intros md' H. by eapply new_phase. }
  pose proof (probes_delete g ps i p Hi) as Hd. pose proof (probes_nonneg g (delete i ps)) as Hpos.
  unfold circuit_finish, is_probe, mode_ok in *. simpl in *. rewrite (Z.eqb_sym g).
  destruct (cp_generation p =? g) eqn:Eg; simpl in *.
  2: { apply Hsame. destruct md; [done|done|]. simpl in *. lia. }
  destruct Hb as (Hth & _ & Hmax). unfold u32_saturating_add, u32_saturating_sub, u32_max in *.
  destruct md as [f|o|s k], (cp_state p), u; simpl in *;
    try (apply Hsame; simpl in *; lia); try (apply Hnew; done);
    try (case_match; bool_hyps; [by apply Hnew|]); split_and!; simpl in *; try lia; auto;
    unfold mode_ok; simpl; lia.
Qed.

Lemma drop_ok w i :
  world_ok b n w → world_ok b (n + 1) (breaker_run b (DropPermit i) w).
Proof.
  intros Hw. simpl. destruct (permits w !! i) as [p|] eqn:Hi; [|eapply world_ok_mono; [|exact Hw]; lia].
  destruct w as [[g md] ps]. destruct Hw as (Hg & Hps & Hmd). simpl in *.
  assert (∀ q, q ∈ delete i ps → cp_generation q ≤ g) as Hps' by (intros; eapply Hps, elem_of_delete; done).
  pose proof (probes_delete g ps i p Hi) as Hd. pose proof (probes_nonneg g (delete i ps)) as Hpos.
  unfold exclude, is_probe, mode_ok in *. simpl in *. rewrite (Z.eqb_sym g).
  unfold u32_saturating_sub.
  destruct (cp_state p), (cp_generation p =? g); simpl in *; destruct md; simpl in *;
    split_and!; simpl; try done; try lia; unfold mode_ok; simpl; lia.
Qed.

Lemma breaker_run_ok w o : world_ok b n w → world_ok b (n + 1) (breaker_run b o w).
Proof.
  destruct o; [apply acquire_ok|apply finish_ok|apply drop_ok|]. intros Hw. by apply advance_open_ok.
Qed.
End invariant.

Lemma breaker_steps_ok b k w w' n :
  params_ok b → nsteps (breaker_step b) k w w' → n + Z.of_nat k ≤ u64_max →
  world_ok b n w → world_ok b (n + Z.of_nat k) w'.
Proof.
  intros Hb Hk. revert n. induction Hk as [w|k w w1 w2 [o ->] _ IH]; intros n Hn Hw.
  - by rewrite Z.add_0_r.
  - replace (n + Z.of_nat (Datatypes.S k)) with (n + 1 + Z.of_nat k) by lia.
    apply IH; [lia|]. apply breaker_run_ok; [done|lia|done].
Qed.

(** ** Sequences of calls *)

Definition breaker_runs (b : BreakerParams) : World → list breaker_op → World :=
  foldl (λ w o, breaker_run b o w).
Lemma breaker_runs_steps b w os : nsteps (breaker_step b) (length os) w (breaker_runs b w os).
Proof.
  revert w. induction os as [|o os IH]; intros w; [constructor|].
  econstructor; [by eexists|apply IH].
Qed.

Section calls.
Context (b : BreakerParams) (Hb : params_ok b).

(** One enqueue through the breaker: rejected, or finished with the store's answer. *)
Definition call (m : Machine) (c : Z * bool) : Machine :=
  match acquire b m c.1 with
  | (m, Ok p) => circuit_finish b m c.1 p c.2
  | (m, Err _) => m
  end.
Definition calls : Machine → list (Z * bool) → Machine := foldl call.

(** How many calls have failed in a row, after [f] failures. *)
Definition streak (f : Z) (outcomes : list bool) : Z :=
  foldl (λ f (unavailable : bool), if unavailable then f + 1 else 0) f outcomes.

Lemma streak_nonneg f l : 0 ≤ f → 0 ≤ streak f l.
Proof.
  revert f. induction l as [|u l IH]; intros f Hf; [done|].
  apply (IH (if u then f + 1 else 0)). case_match; lia.
Qed.

Lemma call_closed g f c :
  0 ≤ f < bp_failure_threshold b →
  call (mkMachine g (Closed f)) c
  = if c.2 then if f + 1 =? bp_failure_threshold b then mkMachine (u64_add g 1) (Open c.1)
                else mkMachine g (Closed (f + 1))
    else mkMachine g (Closed 0).
Proof.
  intros Hf. destruct c as [now u]. unfold call, acquire, circuit_finish. simpl. rewrite Z.eqb_refl. simpl.
  destruct u; [|done]. destruct Hb as (Hth & _). unfold u32_saturating_add, u32_max in *.
  rewrite Z.min_r by lia.
  destruct (f + 1 =? _) eqn:E1, (_ <=? f + 1) eqn:E2; bool_hyps; lia || done.
Qed.

Lemma calls_closed g f cs :
  0 ≤ f < bp_failure_threshold b →
  (∀ pre, pre `prefix_of` cs.*2 → streak f pre < bp_failure_threshold b) →
  calls (mkMachine g (Closed f)) cs = mkMachine g (Closed (streak f cs.*2)).
Proof.
  revert f. induction cs as [|[now u] cs IH]; intros f Hf Hp; [done|].
  assert (streak f [u] < bp_failure_threshold b) as H1.
  { apply Hp. exists cs.*2. done. }
  simpl. rewrite call_closed by done. simpl in *.
  assert (∀ pre, pre `prefix_of` cs.*2 → streak (if u then f + 1 else 0) pre < bp_failure_threshold b) as Hp'.
  { intros pre [l Hpre]. apply (Hp (u :: pre)). exists l. change (u :: cs.*2 = u :: pre ++ l). by f_equal. }
  destruct u; [destruct (f + 1 =? _) eqn:E; bool_hyps; [lia|]|]; (rewrite IH; [done|lia|done]).
Qed.

Lemma call_probe g s now :
  0 ≤ s < bp_half_open_max_calls b →
  call (mkMachine g (HalfOpen s 0)) (now, false)
  = if s + 1 =? bp_half_open_max_calls b then mkMachine (u64_add g 1) (Closed 0)
    else mkMachine g (HalfOpen (s + 1) 0).
Proof.
  intros Hs. destruct Hb as (_ & _ & Hm). unfold call, acquire. simpl.
  unfold u32_saturating_add, u32_max in *. rewrite Z.min_r by lia.
  destruct (_ <=? s + 0) eqn:E; bool_hyps; [lia|]. unfold circuit_finish. simpl. rewrite Z.eqb_refl. simpl.
  unfold u32_saturating_add, u32_saturating_sub, u32_max. rewrite Z.min_r by lia.
  destruct (s + 1 =? _) eqn:E1, (_ <=? s + 1) eqn:E2; bool_hyps; lia || done.
Qed.

Lemma probes_recover g s cs :
  0 ≤ s → s + Z.of_nat (length cs) = bp_half_open_max_calls b → cs ≠ [] →
  (∀ c, c ∈ cs → c.2 = false) →
  calls (mkMachine g (HalfOpen s 0)) cs = mkMachine (u64_add g 1) (Closed 0).
Proof.
  revert s. induction cs as [|[now u] cs IH]; intros s Hs Hlen Hne Hok; [done|].
  assert (u = false) as -> by (apply (Hok (now, u)); left). simpl in Hlen.
  cbn [calls foldl]. rewrite call_probe by lia.
  destruct (s + 1 =? _) eqn:E; bool_hyps.
  - assert (cs = []) as -> by (destruct cs; [done|simpl in *; lia]). done.
  - apply IH; [lia|lia| |intros; apply Hok; by right]. intros ->. simpl in *. lia.
Qed.

(** The first call after the recovery timeout starts the half-open phase. *)
Lemma advance_due g opened now :
  opened + bp_recovery_timeout_ms b ≤ now →
  advance_open b (mkMachine g (Open opened)) now = mkMachine (u64_add g 1) (HalfOpen 0 0).
Proof.
  intros H. unfold advance_open. simpl. destruct Hb as (_ & ? & _). unfold u64_saturating_sub.
  destruct (_ <=? _) eqn:E; bool_hyps; [done|lia].
Qed.
Lemma advance_early g opened now :
  now < opened + bp_recovery_timeout_ms b →
  advance_open b (mkMachine g (Open opened)) now = mkMachine g (Open opened).
Proof.
  intros H. unfold advance_open. simpl. destruct Hb as (_ & ? & _). unfold u64_saturating_sub.
  destruct (_ <=? _) eqn:E; bool_hyps; [lia|done].
Qed.
Lemma call_due g opened now u :
  opened + bp_recovery_timeout_ms b ≤ now →
  call (mkMachine g (Open opened)) (now, u) = call (mkMachine (u64_add g 1) (HalfOpen 0 0)) (now, u).
Proof. intros H. unfold call, acquire. cbv zeta. simpl. by rewrite advance_due. Qed.
End calls.

(** ** Properties *)

(** C34.  Whatever concurrent producers do with a configured breaker, in any run shorter
    than the generation counter: a closed circuit has counted fewer failures than its
    threshold, and a half-open circuit's in-flight count is exactly the number of its own
    probes still out, so that no more probes are ever out at one time than configured. *)
Theorem breaker_probe_budget (config : CircuitBreakerConfig) (b : BreakerParams) (m : Machine)
    (k : nat) (w : World) :
  0 ≤ failure_threshold config ≤ u32_max → 0 ≤ half_open_max_calls config ≤ u32_max →
  0 ≤ as_millis (recovery_timeout config) → with_clock config = Ok (b, m) →
  nsteps (breaker_step b) k (mkWorld m []) w → Z.of_nat k ≤ u64_max →
  match mode (machine w) with
  | Closed failures => 0 ≤ failures < failure_threshold config
  | Open _ => True
  | HalfOpen successes in_flight =>
      in_flight = probes (generation (machine w)) (permits w)
      ∧ 0 ≤ successes < half_open_max_calls config
      ∧ successes + in_flight ≤ half_open_max_calls config
  end.
Proof.
  intros Ht Hh Hr Hc Hk Hlen.
  assert (bp_failure_threshold b = failure_threshold config
          ∧ bp_half_open_max_calls b = half_open_max_calls config) as [Et Eh].
  { unfold with_clock in Hc. repeat case_match; try done. by injection Hc as <- <-. }
  apply with_clock_ok in Hc as [Hb ->]; [|done..].
  apply (breaker_steps_ok b k _ w 0 Hb) in Hk as (_ & _ & Hm); [|lia|].
  - unfold mode_ok in Hm. by rewrite Et, Eh in Hm.
  - split_and!; simpl; [lia|lia|by intros ? ?%elem_of_nil|]. unfold mode_ok. simpl.
    destruct Hb as (? & _). lia.
Qed.

Definition demo_config : CircuitBreakerConfig := mkCircuitBreakerConfig 2 100000000 2.
Definition demo_params : BreakerParams := mkBreakerParams 2 100 2.

(** Two failures open the circuit; after the timeout a probe is out. *)
Definition demo_ops : list breaker_op :=
  [Acquire 0; Acquire 1; Finish 0 5 true; Finish 0 6 true; Acquire 50; Acquire 106].
Definition demo_world : World := breaker_runs demo_params (mkWorld (mkMachine 0 (Closed 0)) []) demo_ops.

Lemma breaker_probe_budget_witness :
  mode (machine demo_world) = HalfOpen 0 1 ∧ 1 = probes (generation (machine demo_world)) (permits demo_world).
Proof.
  split; [vm_compute; reflexivity|].
  assert (0 ≤ 2 ≤ u32_max) as H2 by (vm_compute; split; discriminate).
  pose proof (breaker_probe_budget demo_config demo_params (mkMachine 0 (Closed 0)) 6 demo_world
    H2 H2 ltac:(vm_compute; discriminate) ltac:(vm_compute; reflexivity) (breaker_runs_steps _ _ demo_ops)
    ltac:(vm_compute; discriminate)) as [H _].
  exact H.
Defined.

(** The timeline of a circuit driven by one producer: it opens at the call that makes
    the failures in a row reach the threshold and not before; while open it rejects every
    call before the recovery timeout, naming exactly the time left; from the timeout on,
    the configured number of successful probes closes it, and a failing probe opens it
    again at that moment. *)
Theorem breaker_timeline (b : BreakerParams) (g : Z) :
  params_ok b → 0 ≤ g < u64_max - 1 →
  (∀ cs now, (∀ pre, pre `prefix_of` cs.*2 → streak 0 pre < bp_failure_threshold b) →
     calls b (mkMachine g (Closed 0)) (cs ++ [(now, true)])
     = if streak 0 cs.*2 + 1 =? bp_failure_threshold b then mkMachine (g + 1) (Open now)
       else mkMachine g (Closed (streak 0 cs.*2 + 1)))
  ∧ (∀ opened now, opened ≤ now < opened + bp_recovery_timeout_ms b →
       acquire b (mkMachine g (Open opened)) now
       = (mkMachine g (Open opened),
          Err (mkCircuitRejected CircuitState.Open (opened + bp_recovery_timeout_ms b - now))))
  ∧ (∀ opened cs, Z.of_nat (length cs) = bp_half_open_max_calls b →
       (∀ c, c ∈ cs → opened + bp_recovery_timeout_ms b ≤ c.1 ∧ c.2 = false) →
       calls b (mkMachine g (Open opened)) cs = mkMachine (g + 2) (Closed 0))
  ∧ (∀ opened now, opened + bp_recovery_timeout_ms b ≤ now →
       call b (mkMachine g (Open opened)) (now, true) = mkMachine (g + 2) (Open now)).
Proof.
  intros Hb Hg. pose proof Hb as (Hth & Hto & Hmax). split_and!.
  - intros cs now Hp. assert (0 ≤ streak 0 cs.*2) as Hpos.
    { by apply streak_nonneg. }
    unfold calls. rewrite foldl_snoc. fold (calls b). rewrite calls_closed; [|done|lia|done].
    rewrite call_closed; [|done|split; [done|by apply Hp]]. simpl. by rewrite u64_add_small by lia.
  - intros opened now H. unfold acquire. rewrite advance_early; [|done|lia]. cbv zeta. simpl.
    unfold retry_after_ms, u64_saturating_sub. do 3 f_equal. lia.
  - intros opened cs Hlen Hcs. destruct cs as [|[now u] cs]; [simpl in Hlen; lia|].
    cbn [calls foldl]. rewrite call_due; [|done|apply (Hcs (now, u)); left].
    change (calls b (mkMachine (u64_add g 1) (HalfOpen 0 0)) ((now, u) :: cs) = mkMachine (g + 2) (Closed 0)).
    rewrite probes_recover; [|done|lia|lia|done|intros c Hc; by apply Hcs].
    rewrite !u64_add_small; [|lia|rewrite u64_add_small; lia]. f_equal. lia.
  - intros opened now H. rewrite call_due by done. unfold call, acquire. cbv zeta. simpl.
    unfold u32_saturating_add, u32_max. destruct (_ <=? _) eqn:E; bool_hyps; [lia|].
    unfold circuit_finish. simpl. rewrite Z.eqb_refl. simpl.
    rewrite !u64_add_small; [|lia|rewrite u64_add_small; lia]. f_equal. lia.
Qed.

Lemma breaker_timeline_witness :
  calls demo_params (mkMachine 0 (Closed 0)) [(1, true); (2, false); (3, true); (4, true)]
  = mkMachine 1 (Open 4)
  ∧ calls demo_params (mkMachine 1 (Open 4)) [(104, false); (105, false)] = mkMachine 3 (Closed 0).
Proof.
  assert (params_ok demo_params) as Hb by (vm_compute; repeat split; discriminate).
  destruct (breaker_timeline demo_params 0 Hb ltac:(vm_compute; split; [discriminate|reflexivity]))
    as (Hopen & _).
  destruct (breaker_timeline demo_params 1 Hb ltac:(vm_compute; split; [discriminate|reflexivity]))
    as (_ & _ & Hrec & _).
  split.
  - apply (Hopen [(1, true); (2, false); (3, true)] 4). intros pre [l Hl].
    destruct pre as [|a [|a1 [|a2 [|a3 pre]]]]; simplify_eq/=; vm_compute; reflexivity.
  - apply Hrec; [reflexivity|].
    intros c [->|[->|[]%elem_of_nil]%elem_of_cons]%elem_of_cons; (split; [vm_compute; discriminate|reflexivity]).
Defined.
