(* ===== verification/ScheduleSpec.v ===== *)
(** * headgate: schedule specifications

    Models [crates/headgate/src/schedule_spec.rs]: the [CRON_TZ=] prefix, the
    epoch-aligned [@every:<ms>] form, the normalisation of crontab fields with its
    day-of-week translation, the union of day-of-month and day-of-week, zoned evaluation
    and the enumeration of due ticks.  The [cron] and [chrono-tz] crates are parameters:
    [cron_parse] and [cron_after] (the next occurrence strictly after an instant), the
    range of [from_timestamp_millis], zone lookup, the local wall clock of an instant and
    the earliest instant of a wall clock.  Instants and wall clocks are milliseconds. *)

From S2P Require Import Prelude Shared.
Local Open Scope Z_scope.

(** ** Text *)

Fixpoint strip_prefix (pre s : string) : option string :=
  match pre, s with
  | EmptyString, _ => Some s
  | String a pre, String b s => if Ascii.eqb a b then strip_prefix pre s else None
  | _, _ => None
  end.

(** The length in bytes of the [char::is_whitespace] character a UTF-8 string starts with. *)
Definition whitespace (s : string) : option nat :=
  match s with
  | String a rest =>
      let a := byte_val a in
      if ((9 <=? a) && (a <=? 13)) || (a =? 32) then Some 1%nat else
      match rest with
      | String b rest =>
          let b := byte_val b in
          if (a =? 194) && ((b =? 133) || (b =? 160)) then Some 2%nat else
          match rest with
          | String c _ =>
              let c := byte_val c in
              if ((a =? 225) && (b =? 154) && (c =? 128))
                 || ((a =? 226) && (b =? 128)
                     && (((128 <=? c) && (c <=? 138)) || (c =? 168) || (c =? 169) || (c =? 175)))
                 || ((a =? 226) && (b =? 129) && (c =? 159))
                 || ((a =? 227) && (b =? 128) && (c =? 128)) then Some 3%nat else None
          | EmptyString => None
          end
      | EmptyString => None
      end
  | EmptyString => None
  end.

(** [s[..i]] and [s[i..]] at the first whitespace character, if any. *)
Fixpoint break_whitespace (s : string) : string * option string :=
  match whitespace s with
  | Some _ => ("", Some s)
  | None =>
      match s with
      | EmptyString => ("", None)
      | String c s' => let '(a, r) := break_whitespace s' in (String c a, r)
      end
  end.

Fixpoint trim_from (skip : nat) (s : string) : string :=
  match skip, s with
  | S skip, String _ s => trim_from skip s
  | _, EmptyString => ""
  | O, String _ s' => match whitespace s with Some k => trim_from (pred k) s' | None => s end
  end.
Definition trim_start (s : string) : string := trim_from 0 s.

Definition push_word (w : string) (l : list string) : list string :=
  if String.eqb w "" then l else w :: l.

Fixpoint words_from (skip : nat) (s : string) : string * list string :=
  match s with
  | EmptyString => ("", [])
  | String c s' =>
      match skip with
      | S skip => words_from skip s'
      | O => match whitespace s with
             | Some k => let '(w, l) := words_from (pred k) s' in ("", push_word w l)
             | None => let '(w, l) := words_from 0 s' in (String c w, l)
             end
      end
  end.
(** [str::split_whitespace]. *)
Definition split_whitespace (s : string) : list string :=
  let '(w, l) := words_from 0 s in push_word w l.

(** [str::split(c)] and [str::split_once(c)]. *)
Fixpoint split_char (c : ascii) (s : string) : list string :=
  match s with
  | EmptyString => [""]
  | String a s =>
      if Ascii.eqb a c then "" :: split_char c s
      else match split_char c s with
           | w :: l => String a w :: l
           | [] => [String a ""]
           end
  end.
Fixpoint split_once (c : ascii) (s : string) : option (string * string) :=
  match s with
  | EmptyString => None
  | String a s =>
      if Ascii.eqb a c then Some ("", s)
      else match split_once c s with Some (x, y) => Some (String a x, y) | None => None end
  end.

Definition digit (c : ascii) : option Z :=
  if is_ascii_digit c then Some (byte_val c - 48) else None.

Fixpoint digits (acc : Z) (s : string) : option Z :=
  match s with
  | EmptyString => Some acc
  | String c s => match digit c with Some d => digits (10 * acc + d) s | None => None end
  end.
Definition decimal (s : string) : option Z := match s with EmptyString => None | _ => digits 0 s end.

(** [str::parse::<i64>]. *)
Definition parse_i64 (s : string) : option Z :=
  let v := match s with
           | String c rest =>
               if Ascii.eqb c "-" then Z.opp <$> decimal rest
               else if Ascii.eqb c "+" then decimal rest else decimal s
           | EmptyString => None
           end in
  match v with
  | Some z => if (i64_min <=? z) && (z <=? i64_max) then Some z else None
  | None => None
  end.

(** ** Time zones *)

Definition TZ_PREFIX : string := "CRON_TZ=".
Definition MAX_WALL_CANDIDATES : nat := 100000.

Definition zone_char (c : ascii) : bool :=
  is_ascii_alphanumeric c || Ascii.eqb c "_" || Ascii.eqb c "+" || Ascii.eqb c "-".

Definition zone_segment (s : string) : bool :=
  match s with
  | String c _ => is_ascii_upper c && str_forall zone_char s
  | EmptyString => false
  end.

Definition zone_name_is_wellformed (name : string) : bool :=
  negb (String.eqb name "" || (64 <? str_len name)) && forallb zone_segment (split_char "/" name).

(** ** Fields *)

(** A POSIX day number as the crate's: 0 and 7 are both Sunday, which is 1. *)
Definition shift_dow (tok : string) : option Z :=
  match parse_i64 tok with
  | Some d => if (0 <=? d) && (d <=? 7) then Some (d mod 7 + 1) else None
  | None => None
  end.

Definition translate_range (range : string) : string :=
  match split_once "-" range with
  | Some (a, b) =>
      match shift_dow a, shift_dow b with
      | Some a, Some b => if b <? a then (pretty a +:+ "-7,1")%stdpp
                          else (pretty a +:+ "-" +:+ pretty b)%stdpp
      | _, _ => range
      end
  | None => match shift_dow range with Some d => pretty d | None => range end
  end.

Definition translate_part (part : string) : string :=
  match split_once "/" part with
  | Some (range, step) => (translate_range range +:+ "/" +:+ step)%stdpp
  | None => translate_range part
  end.

Definition translate_posix_dow (field : string) : string :=
  String.concat "," (translate_part <$> split_char "," field).

Definition normalized_fields (body spec : string) : result (list string) string :=
  let fields := split_whitespace body in
  let fields := if (length fields =? 5)%nat then "0" :: fields else fields in
  match fields with
  | [f0; f1; f2; f3; f4; f5] => Ok [f0; f1; f2; f3; f4; translate_posix_dow f5]
  | _ => Err ("bad cron `" +:+ spec +:+ "`: want 5 fields, or 6 with seconds")%stdpp
  end.

Definition restricted (f : string) : bool := negb (String.eqb f "*") && negb (String.eqb f "?").

Section spec.
Context {Cron Tz : Type}.
Context (cron_parse : string → result Cron string).
Context (cron_after : Cron → Z → option Z).
Context (in_range : Z → bool).
Context (tz_parse : string → option Tz).
Context (local_wall : Tz → Z → Z).
Context (earliest : Tz → Z → option Z).

Definition split_tz (spec : string) : result (option Tz * string) string :=
  match strip_prefix TZ_PREFIX spec with
  | None => Ok (None, spec)
  | Some rest =>
      let '(name, body) :=
        match break_whitespace rest with
        | (name, Some tail) => (name, trim_start tail)
        | (name, None) => (name, "")
        end in
      let bad := Err ("unknown timezone `" +:+ name +:+ "`")%stdpp in
      if negb (zone_name_is_wellformed name) then bad
      else match tz_parse name with Some tz => Ok (Some tz, body) | None => bad end
  end.

Definition parse_one (normalized original : string) : result Cron string :=
  match cron_parse normalized with
  | Ok c => Ok c
  | Err e => Err ("bad cron `" +:+ original +:+ "`: " +:+ e)%stdpp
  end.

Definition compile (body spec : string) : result (list Cron) string :=
  let? fields := normalized_fields body spec in
  match fields with
  | [f0; f1; f2; dom; f4; dow] =>
      if restricted dom && restricted dow then
        let? a := parse_one (String.concat " " [f0; f1; f2; dom; f4; "*"]) spec in
        let? b := parse_one (String.concat " " [f0; f1; f2; "*"; f4; dow]) spec in
        Ok [a; b]
      else let? a := parse_one (String.concat " " fields) spec in Ok [a]
  | _ => Err "unreachable"
  end.

Definition instant (ms : Z) : result Z string :=
  if in_range ms then Ok ms else Err ("timestamp " +:+ pretty ms +:+ " out of range")%stdpp.

Definition opt_min (a b : option Z) : option Z :=
  match a, b with
  | Some a, Some b => Some (Z.min a b)
  | Some a, None | None, Some a => Some a
  | None, None => None
  end.

Definition no_future (spec : string) : string := ("cron `" +:+ spec +:+ "` has no future occurrence")%stdpp.

Definition next_wall (scheds : list Cron) (spec : string) (after_ms : Z) : result Z string :=
  let? after := instant after_ms in
  match foldr opt_min None ((λ s, cron_after s after) <$> scheds) with
  | Some t => Ok t
  | None => Err (no_future spec)
  end.

Fixpoint wall_loop (fuel : nat) (scheds : list Cron) (spec : string) (after_ms : Z) (tz : Tz) (wall : Z)
    : result Z string :=
  match fuel with
  | O => Err (no_future spec)
  | S fuel =>
      let? next := next_wall scheds spec wall in
      let? wall := instant next in
      match earliest tz wall with
      | Some ms => if after_ms <? ms then Ok ms else wall_loop fuel scheds spec after_ms tz wall
      | None => wall_loop fuel scheds spec after_ms tz wall
      end
  end.

Definition next_local (scheds : list Cron) (spec : string) (after_ms : Z) (tz : Tz) : result Z string :=
  let? i := instant after_ms in
  wall_loop MAX_WALL_CANDIDATES scheds spec after_ms tz (local_wall tz i).

Definition next_after (spec : string) (after_ms : Z) : result Z string :=
  let? tb := split_tz spec in
  let '(tz, body) := tb in
  match strip_prefix "@every:" body with
  | Some ms =>
      match tz with
      | Some _ => Err ("`@every` is epoch-aligned UTC and takes no CRON_TZ: `" +:+ spec +:+ "`")%stdpp
      | None =>
          match parse_i64 ms with
          | None => Err ("bad @every spec `" +:+ spec +:+ "`")%stdpp
          | Some n =>
              if n <? 1 then Err "@every period must be >= 1ms"
              else Ok (i64_mul (i64_add (after_ms / n) 1) n)
          end
      end
  | None =>
      let? scheds := compile body spec in
      match tz with
      | None => next_wall scheds spec after_ms
      | Some tz => next_local scheds spec after_ms tz
      end
  end.

(** [ticks.push(t)] and dropping the oldest beyond [cap]. *)
Definition push_tick (cap : nat) (ticks : list Z) (t : Z) : list Z :=
  let ticks := ticks ++ [t] in
  if (cap <? length ticks)%nat then tail ticks else ticks.

Fixpoint tick_loop (fuel : nat) (spec : string) (now_ms : Z) (cap : nat) (t : Z) (ticks : list Z)
    : result (list Z) string :=
  match fuel with
  | O => Ok ticks
  | S fuel =>
      let? t := next_after spec t in
      if now_ms <? t then Ok ticks
      else tick_loop fuel spec now_ms cap t (push_tick cap ticks t)
  end.

Definition due_ticks (spec : string) (first_ms now_ms : Z) (cap : nat) : result (list Z) string :=
  if now_ms <? first_ms then Ok []
  else tick_loop 10000 spec now_ms cap first_ms [first_ms].

Definition validate_spec (spec : string) : result unit string :=
  let? _ := next_after spec 0 in Ok tt.
End spec.

(** ** Meaning of a day-of-week field *)

(** The crate's reading of a numeric field: a comma list of days and ascending ranges. *)
Definition crate_fires (field : string) (day : Z) : bool :=
  existsb (λ part,
    match split_once "-" part with
    | Some (a, b) =>
        match parse_i64 a, parse_i64 b with
        | Some a, Some b => (a <=? day) && (day <=? b)
        | _, _ => false
        end
    | None => match parse_i64 part with Some d => d =? day | None => false end
    end) (split_char "," field).

(** The POSIX reading of the range [a-b]: weekday [w] with Sunday 0, and 7 Sunday too. *)
Definition posix_fires (a b w : Z) : bool := existsb (λ d, d mod 7 =? w) (seqZ a (b - a + 1)).

Definition range_text (a b : Z) : string := (pretty a +:+ "-" +:+ pretty b)%stdpp.

(** ** Due ticks as a reference enumeration *)

Section due.
Context {Cron Tz : Type}.
Context (cron_parse : string → result Cron string) (cron_after : Cron → Z → option Z).
Context (in_range : Z → bool) (tz_parse : string → option Tz).
Context (local_wall : Tz → Z → Z) (earliest : Tz → Z → option Z).
Notation next := (next_after cron_parse cron_after in_range tz_parse local_wall earliest).

(** [l] is every tick after [t] up to [now]. *)
Inductive successors (spec : string) (now : Z) : Z → list Z → Prop :=
  | succ_none t u : next spec t = Ok u → now < u → successors spec now t []
  | succ_tick t u l : next spec t = Ok u → u ≤ now → successors spec now u l →
      successors spec now t (u :: l).

Definition lastn {A} (n : nat) (l : list A) : list A := drop (length l - n) l.

Lemma push_tick_lastn cap (l : list Z) t :
  (1 ≤ cap)%nat → push_tick cap (lastn cap l) t = lastn cap (l ++ [t]).
Proof.
  intros Hc. unfold push_tick, lastn. rewrite !length_app, length_drop. simpl.
  destruct (decide (length l < cap)%nat) as [H|H].
  - replace (length l - cap)%nat with 0%nat by lia. replace (length l + 1 - cap)%nat with 0%nat by lia.
    rewrite !drop_0. destruct (_ <? _)%nat eqn:E; [apply Nat.ltb_lt in E; lia|done].
  - assert ((cap <? length l - (length l - cap) + 1)%nat = true) as -> by (apply Nat.ltb_lt; lia).
    replace (length l + 1 - cap)%nat with (S (length l - cap)) by lia.
    rewrite drop_app_le by lia.
    assert (∀ k (l : list Z), (k < length l)%nat → tail (drop k l ++ [t]) = drop (S k) l ++ [t]) as Ht.
    { clear. induction k as [|k IH]; intros [|x l] Hk; simpl in *; [lia|done|lia|]. apply IH. lia. }
    apply Ht. lia.
Qed.

Lemma tick_loop_spec fuel spec now cap t l pre :
  (1 ≤ cap)%nat → successors spec now t l →
  tick_loop cron_parse cron_after in_range tz_parse local_wall earliest fuel spec now cap t (lastn cap pre)
  = Ok (lastn cap (pre ++ take fuel l)).
Proof.
  intros Hc Hl. revert fuel pre. induction Hl as [t u Hn Hu|t u l Hn Hu _ IH]; intros fuel pre.
  - rewrite take_nil, app_nil_r. destruct fuel; simpl; [done|]. rewrite Hn.
    destruct (now <? u) eqn:E; bool_hyps; [done|lia].
  - destruct fuel as [|fuel]; simpl; [by rewrite app_nil_r|]. rewrite Hn.
    destruct (now <? u) eqn:E; bool_hyps; [lia|]. rewrite push_tick_lastn by done.
    rewrite IH. by rewrite <-app_assoc.
Qed.

(** No tick that is due lies in the future. *)
Lemma tick_loop_le fuel spec now cap t ticks l :
  Forall (λ x, x ≤ now) ticks →
  tick_loop cron_parse cron_after in_range tz_parse local_wall earliest fuel spec now cap t ticks = Ok l →
  Forall (λ x, x ≤ now) l.
Proof.
  revert t ticks. induction fuel as [|fuel IH]; intros t ticks Hf; simpl; [by intros [= <-]|].
  destruct (next spec t) as [u|]; [|done]. destruct (now <? u) eqn:E; [by intros [= <-]|].
  apply IH. bool_hyps. unfold push_tick. assert (Forall (λ x, x ≤ now) (ticks ++ [u])) as H.
  { apply Forall_app. split; [done|]. by constructor. }
  case_match; [|done]. by destruct H.
Qed.
Lemma due_ticks_le spec first now cap l :
  due_ticks cron_parse cron_after in_range tz_parse local_wall earliest spec first now cap = Ok l →
  Forall (λ x, x ≤ now) l.
Proof.
  unfold due_ticks. destruct (now <? first) eqn:E; [by intros [= <-]|]. bool_hyps.
  apply tick_loop_le. by constructor.
Qed.

(** A zoned or unzoned cron tick is strictly later, when the crate's are. *)
Lemma opt_min_after (t : Z) a b u :
  (∀ v, a = Some v → t < v) → (∀ v, b = Some v → t < v) → opt_min a b = Some u → t < u.
Proof.
  intros Ha Hb. destruct a as [x|], b as [y|]; simpl; intros [= <-]; [|by apply Ha|by apply Hb].
  specialize (Ha x eq_refl). specialize (Hb y eq_refl). lia.
Qed.

Lemma next_wall_after scheds spec t u :
  (∀ c t u, cron_after c t = Some u → t < u) →
  next_wall cron_after in_range scheds spec t = Ok u → t < u.
Proof.
  intros Hc. unfold next_wall, instant. destruct (in_range t); [|done].
  destruct (foldr _ _ _) as [v|] eqn:E; [|done]. intros [= <-]. revert v E.
  induction scheds as [|s l IH]; intros v; simpl; [done|]. apply opt_min_after; [apply Hc|apply IH].
Qed.

Lemma wall_loop_after fuel scheds spec t tz wall u :
  wall_loop cron_after in_range earliest fuel scheds spec t tz wall = Ok u → t < u.
Proof.
  revert wall. induction fuel as [|fuel IH]; intros wall; simpl; [done|].
  destruct (next_wall _ _ _ _ _) as [n|]; [|done]. destruct (instant _ _) as [w|]; [|done].
  destruct (earliest tz w) as [ms|]; [|apply IH]. destruct (t <? ms) eqn:E; [|apply IH].
  intros [= <-]. by apply Z.ltb_lt.
Qed.

Lemma every_next s n t :
  parse_i64 s = Some n → 1 ≤ n →
  next ("@every:" +:+ s)%stdpp t = Ok (i64_mul (i64_add (t / n) 1) n).
Proof.
  intros Hs Hn. unfold next_after, split_tz.
  change (strip_prefix TZ_PREFIX _) with (@None string). cbv iota beta.
  change (strip_prefix "@every:" _) with (Some s). cbv iota beta. rewrite Hs. destruct (n <? 1) eqn:E; bool_hyps; [lia|done].
Qed.
End due.

(** ** Properties *)

(** An [@every] schedule has the ticks every node derives alike: the next tick after
    any instant is the least multiple of the period strictly later than it, as long as it
    is an [i64]. *)
Theorem every_next_after_exact {Cron Tz : Type} (cron_parse : string → result Cron string)
    (cron_after : Cron → Z → option Z) (in_range : Z → bool) (tz_parse : string → option Tz)
    (local_wall : Tz → Z → Z) (earliest : Tz → Z → option Z) (s : string) (n t : Z) :
  parse_i64 s = Some n → 1 ≤ n → in_i64 t → t + n ≤ i64_max →
  ∃ u, next_after cron_parse cron_after in_range tz_parse local_wall earliest ("@every:" +:+ s)%stdpp t = Ok u
    ∧ t < u ∧ (n | u) ∧ ∀ m, (n | m) → t < m → u ≤ m.
Proof.
  intros Hs Hn Ht Hov. exists ((t / n + 1) * n).
  assert (t / n * n ≤ t < t / n * n + n) as Hdiv by (pose proof (Z.div_mod t n); pose proof (Z.mod_pos_bound t n); nia).
  assert (in_i64 (t / n + 1)) as H1 by (unfold in_i64, i64_min, i64_max in *; nia).
  assert (in_i64 ((t / n + 1) * n)) as H2 by (unfold in_i64, i64_min, i64_max in *; nia).
  split_and!.
  - rewrite every_next with (n := n) by done. unfold i64_mul, i64_add.
    rewrite (wrap_i64_id (t / n + 1)) by done. by rewrite wrap_i64_id.
  - lia.
  - by exists (t / n + 1).
  - intros m [k ->] Hm. assert (t / n < k) by (apply Z.div_lt_upper_bound; lia). nia.
Qed.

Lemma every_next_after_exact_witness :
  ∃ u, next_after (λ _, Err "no cron") (λ (_ : unit) _, None) (λ _, true) (λ _, None)
         (λ (_ : unit) t, t) (λ _ t, Some t) "@every:1000" 999 = Ok u ∧ u ≤ 1000.
Proof.
  destruct (every_next_after_exact (λ _, Err "no cron") (λ (_ : unit) _, None) (λ _, true) (λ _, None)
    (λ (_ : unit) t, t) (λ _ t, Some t) "1000" 1000 999) as (u & Hu & _ & _ & Hleast);
    [vm_compute; reflexivity|lia|unfold in_i64, i64_min, i64_max; lia|unfold i64_max; lia|].
  exists u. split; [exact Hu|]. apply Hleast; [by exists 1|lia].
Defined.

(** C40.  Due ticks, for any specification: when [l] enumerates the ticks after the stored
    one up to now, what is returned is the last [cap] of the stored tick and the first
    10000 of [l], in order; so it is the most recent due ticks exactly when no more than
    10000 were missed. *)
Theorem due_ticks_exact {Cron Tz : Type} (cron_parse : string → result Cron string)
    (cron_after : Cron → Z → option Z) (in_range : Z → bool) (tz_parse : string → option Tz)
    (local_wall : Tz → Z → Z) (earliest : Tz → Z → option Z) (spec : string)
    (first now : Z) (cap : nat) (l : list Z) :
  (1 ≤ cap)%nat → first ≤ now →
  successors cron_parse cron_after in_range tz_parse local_wall earliest spec now first l →
  due_ticks cron_parse cron_after in_range tz_parse local_wall earliest spec first now cap
  = Ok (lastn cap (first :: take 10000 l)).
Proof.
  intros Hc Hf Hl. unfold due_ticks. destruct (now <? first) eqn:E; bool_hyps; [lia|].
  assert ([first] = lastn cap [first]) as E1.
  { unfold lastn. simpl length. by replace (1 - cap)%nat with 0%nat by lia. }
  rewrite E1 at 1. exact (tick_loop_spec _ _ _ _ _ _ 10000 spec now cap first l [first] Hc Hl).
Qed.

Definition demo_due := due_ticks (λ _, Err "no cron") (λ (_ : unit) _, None) (λ _, true) (λ _, None)
  (λ (_ : unit) t, t) (λ _ t, Some t).

Lemma due_ticks_exact_witness : demo_due "@every:1000" 1000 3500 2 = Ok [2000; 3000].
Proof.
  unfold demo_due. rewrite (due_ticks_exact _ _ _ _ _ _ "@every:1000" 1000 3500 2 [2000; 3000]);
    [reflexivity|lia|lia|].
  eapply succ_tick; [vm_compute; reflexivity|lia|]. eapply succ_tick; [vm_compute; reflexivity|lia|].
  eapply succ_none; [vm_compute; reflexivity|lia].
Defined.

(** The scan stops after 10000 ticks: a schedule that missed more fires an old one. *)
Lemma long_outage_fires_a_stale_tick : demo_due "@every:1" 0 20000 1 = Ok [10000].
Proof. vm_compute. reflexivity. Qed.

(** A numeric day-of-week range is translated to the days it names: for every
    ascending POSIX range but [0-7], the crate fires on a weekday exactly when the range
    contains it, Sunday being both 0 and 7. *)
Theorem dow_translation_exact (a b w : Z) :
  0 ≤ a ≤ b → b ≤ 7 → (a = 0 ∧ b = 7 → False) → 0 ≤ w ≤ 6 →
  crate_fires (translate_posix_dow (range_text a b)) (w + 1) = posix_fires a b w.
Proof.
  intros Ha Hb Hne Hw.
  assert (forallb (λ a, forallb (λ b, forallb (λ w,
    (b <? a) || ((a =? 0) && (b =? 7))
    || Bool.eqb (crate_fires (translate_posix_dow (range_text a b)) (w + 1)) (posix_fires a b w))
    (seqZ 0 7)) (seqZ 0 8)) (seqZ 0 8) = true) as H by (vm_compute; reflexivity).
  rewrite forallb_forall in H.
  specialize (H a). rewrite <-list_elem_of_In, elem_of_seqZ in H. specialize (H ltac:(lia)).
  rewrite forallb_forall in H. specialize (H b). rewrite <-list_elem_of_In, elem_of_seqZ in H.
  specialize (H ltac:(lia)). rewrite forallb_forall in H. specialize (H w).
  rewrite <-list_elem_of_In, elem_of_seqZ in H. specialize (H ltac:(lia)).
  rewrite !orb_true_iff, andb_true_iff in H.
  destruct H as [[H|[H1 H2]]|H]; [bool_hyps; lia|bool_hyps; tauto|by apply Bool.eqb_prop].
Qed.

Lemma dow_translation_exact_witness :
  crate_fires (translate_posix_dow "5-7") 1 = true ∧ crate_fires (translate_posix_dow "5-7") 2 = false.
Proof.
  split.
  - exact (dow_translation_exact 5 7 0 ltac:(lia) ltac:(lia) ltac:(lia) ltac:(lia)).
  - exact (dow_translation_exact 5 7 1 ltac:(lia) ltac:(lia) ltac:(lia) ltac:(lia)).
Defined.

(** The range [0-7] names every day and fires on Sundays only; a descending range loses
    the days after Sunday; a step applies to the split-off Sunday alone. *)
Lemma dow_translation_gaps :
  translate_posix_dow "0-7" = "1-1" ∧ translate_posix_dow "6-2" = "7-7,1"
  ∧ translate_posix_dow "5-7/2" = "6-7,1/2".
Proof. split_and!; vm_compute; reflexivity. Qed.
