(* ===== verification/Scheduler.v ===== *)
(** * headgate: the leaderless scheduler sweep

    Models [crates/headgate/src/scheduler.rs] over the scheduling part of [trait Inspect]:
    the due schedules, one enqueue per tick behind the tick's own id and unique key, the
    audit event, and the compare-and-set advance.  Observers ([PeriodicEnqueueHook]) and
    log lines leave no trace.  The port's laws are the documented behaviour of its
    operations; calls of racing nodes are interleaved at the granularity of port calls. *)

From S2P Require Import Prelude Shared Envelope Core ScheduleSpec.
Local Open Scope Z_scope.

Record Schedule := mkSchedule {
  sc_id : string;
  sc_kind : string;
  sc_payload : bytes;
  sc_queue : string;
  sc_partition_key : string;
  sc_rate_class : string;
  sc_priority : Z;
  sc_max_attempts : Z;
  sc_retention_ms : Z;
  sc_spec : string;
  sc_next_run_ms : Z;
  sc_last_enqueued_ms : option Z;
  sc_on_missed : MissedPolicy.MissedPolicy;
  sc_backfill_limit : Z;
  sc_paused : bool;
}.

Record ScheduleEvent := mkScheduleEvent {
  se_event_id : Z;
  se_schedule_id : string;
  se_tick_ms : Z;
  se_job_id : string;
  se_outcome : ScheduleEventOutcome.ScheduleEventOutcome;
  se_reason : string;
  se_recorded_at_ms : Z;
}.

(** The operations the sweep calls.  An enqueue may change the store even when it is
    refused; the other operations change nothing when they fail. *)
Class SchedulePort (S : Type) := {
  due_schedules : Z → S → result (list Schedule * Z) StoreError.StoreError;
  sched_enqueue : Envelope → S → result unit StoreError.StoreError * S;
  record_schedule_event : ScheduleEvent → S → result S StoreError.StoreError;
  advance_schedule : string → Z → Z → S → result (bool * S) StoreError.StoreError;
}.

Section scheduler.
Context {S : Type} `{SchedulePort S}.
Context (sha256 : bytes → bytes).
Context {Cron Tz : Type} (cron_parse : string → result Cron string) (cron_after : Cron → Z → option Z).
Context (in_range : Z → bool) (tz_parse : string → option Tz).
Context (local_wall : Tz → Z → Z) (earliest : Tz → Z → option Z).

Definition tick_id (s : Schedule) (tick : Z) : string := ("sched-" +:+ sc_id s +:+ "-" +:+ pretty tick)%stdpp.
Definition tick_key (s : Schedule) (tick : Z) : bytes := ("sched:" +:+ sc_id s +:+ ":" +:+ pretty tick)%stdpp.

Definition tick_envelope (s : Schedule) (tick : Z) : Envelope :=
  default_envelope <| e_id := tick_id s tick |> <| e_kind := sc_kind s |>
    <| e_fingerprint := fingerprint sha256 (sc_kind s) (sc_payload s) |>
    <| e_payload := sc_payload s |> <| e_queue := sc_queue s |>
    <| e_partition_key := sc_partition_key s |> <| e_rate_class := sc_rate_class s |>
    <| e_priority := sc_priority s |> <| e_max_attempts := sc_max_attempts s |>
    <| e_retention_ms := sc_retention_ms s |> <| e_scheduled_at_ms := 0 |>
    <| e_periodic_schedule_id := sc_id s |> <| e_periodic_tick_ms := tick |>
    <| e_unique_key := Some (tick_key s tick) |>.

(** Outcome, reason and job id of the audit event. *)
Definition audit (id : string) (r : result unit StoreError.StoreError)
    : ScheduleEventOutcome.ScheduleEventOutcome * string * string :=
  match r with
  | Ok _ => (ScheduleEventOutcome.Enqueued, "accepted", id)
  | Err (StoreError.Duplicate existing_id _) => (ScheduleEventOutcome.Deduplicated, "unique_key", existing_id)
  | Err (StoreError.IdConflict job_id) => (ScheduleEventOutcome.Deduplicated, "id_conflict", job_id)
  | Err (StoreError.Quarantined _) => (ScheduleEventOutcome.Skipped, "quarantined", id)
  | Err (StoreError.Backpressure _ _ _ _) => (ScheduleEventOutcome.Failed, "backpressure", id)
  | Err (StoreError.Unavailable _) => (ScheduleEventOutcome.Failed, "store_unavailable", id)
  | Err (StoreError.Invalid _) => (ScheduleEventOutcome.Failed, "invalid_request", id)
  | Err _ => (ScheduleEventOutcome.Failed, "store_error", id)
  end.

(** One tick: enqueue, audit, and what the answer means for the sweep. *)
Definition fire_tick (s : Schedule) (tick : Z) (st : S) : result Z StoreError.StoreError * S :=
  let env := tick_envelope s tick in
  let '(r, st) := sched_enqueue env st in
  let '(outcome, reason, job_id) := audit (e_id env) r in
  match record_schedule_event (mkScheduleEvent 0 (sc_id s) tick job_id outcome reason 0) st with
  | Err e => (Err e, st)
  | Ok st =>
      match r with
      | Ok _ => (Ok 1, st)
      | Err (StoreError.Duplicate _ _) | Err (StoreError.IdConflict _) | Err (StoreError.Quarantined _) =>
          (Ok 0, st)
      | Err e => (Err e, st)
      end
  end.

Fixpoint fire_ticks (s : Schedule) (ticks : list Z) (st : S) : result Z StoreError.StoreError * S :=
  match ticks with
  | [] => (Ok 0, st)
  | tick :: ticks =>
      match fire_tick s tick st with
      | (Err e, st) => (Err e, st)
      | (Ok n, st) =>
          match fire_ticks s ticks st with
          | (Err e, st) => (Err e, st)
          | (Ok m, st) => (Ok (u64_add n m), st)
          end
      end
  end.

(** A schedule whose spec does not parse is parked an hour out. *)
Definition park (s : Schedule) (now : Z) (st : S) : result Z StoreError.StoreError * S :=
  match record_schedule_event (mkScheduleEvent 0 (sc_id s) (sc_next_run_ms s) ""
          ScheduleEventOutcome.Failed "invalid_spec" 0) st with
  | Err e => (Err e, st)
  | Ok st =>
      match advance_schedule (sc_id s) (sc_next_run_ms s) (i64_add now 3600000) st with
      | Ok (_, st) => (Ok 0, st)
      | Err _ => (Ok 0, st)
      end
  end.

Definition ticks_to_fire (s : Schedule) (ticks : list Z) (last : Z) : list Z :=
  match sc_on_missed s with
  | MissedPolicy.Skip | MissedPolicy.RunOnce => [last]
  | MissedPolicy.Backfill => ticks
  end.

Definition fire_schedule (s : Schedule) (now : Z) (st : S) : result Z StoreError.StoreError * S :=
  let cap := Z.to_nat (Z.max (sc_backfill_limit s) 1) in
  match due_ticks cron_parse cron_after in_range tz_parse local_wall earliest (sc_spec s)
          (sc_next_run_ms s) now cap with
  | Err _ => park s now st
  | Ok ticks =>
      match last ticks with
      | None => (Ok 0, st)
      | Some last =>
          match next_after cron_parse cron_after in_range tz_parse local_wall earliest (sc_spec s)
                  (Z.max now last) with
          | Err e => (Err (StoreError.Invalid e), st)
          | Ok next =>
              match fire_ticks s (ticks_to_fire s ticks last) st with
              | (Err e, st) => (Err e, st)
              | (Ok fired, st) =>
                  match advance_schedule (sc_id s) (sc_next_run_ms s) next st with
                  | Err e => (Err e, st)
                  | Ok (_, st) => (Ok fired, st)
                  end
              end
          end
      end
  end.

Fixpoint sweep_all (l : list Schedule) (now : Z) (st : S) : Z * S :=
  match l with
  | [] => (0, st)
  | s :: l =>
      let '(r, st) := fire_schedule s now st in
      let '(m, st) := sweep_all l now st in
      (match r with Ok n => u64_add n m | Err _ => m end, st)
  end.

Definition scheduler_sweep_with_hooks (st : S) : result Z StoreError.StoreError * S :=
  match due_schedules 50 st with
  | Err e => (Err e, st)
  | Ok (l, now) => let '(n, st) := sweep_all l now st in (Ok n, st)
  end.
End scheduler.

(** ** What the port promises *)

(** [next_run]: the next unfired tick of every schedule.  [rows] and [keys]: the job ids
    and unique keys the store has accepted; [barred]: quarantined fingerprints. *)
Class ScheduleLaws (S : Type) `{SchedulePort S} := {
  next_run : S → gmap string Z;
  rows : S → gset string;
  keys : S → gset bytes;
  barred : S → gset string;
  enqueue_law env s r s' : sched_enqueue env s = (r, s') →
    next_run s' = next_run s ∧ barred s' = barred s ∧ rows s ⊆ rows s' ∧ keys s ⊆ keys s'
    ∧ match r with
      | Ok _ => e_id env ∈ rows s'
      | Err (StoreError.Duplicate _ _) => ∃ k, e_unique_key env = Some k ∧ k ∈ keys s'
      | Err (StoreError.IdConflict _) => e_id env ∈ rows s'
      | Err (StoreError.Quarantined _) => e_fingerprint env ∈ barred s'
      | Err _ => True
      end;
  record_law ev s s' : record_schedule_event ev s = Ok s' →
    next_run s' = next_run s ∧ barred s' = barred s ∧ rows s' = rows s ∧ keys s' = keys s;
  advance_law id from to s b s' : advance_schedule id from to s = Ok (b, s') →
    barred s' = barred s ∧ rows s' = rows s ∧ keys s' = keys s
    ∧ b = bool_decide (next_run s !! id = Some from)
    ∧ next_run s' = if b then <[id := to]> (next_run s) else next_run s;
}.

Section laws.
Context {S : Type} `{SchedulePort S} `{!ScheduleLaws S}.
Context (sha256 : bytes → bytes) (s : Schedule).

(** The tick has a job, by its id or its key, or is barred by quarantine. *)
Definition settled (st : S) (tick : Z) : Prop :=
  tick_id s tick ∈ rows st ∨ tick_key s tick ∈ keys st
  ∨ fingerprint sha256 (sc_kind s) (sc_payload s) ∈ barred st.

Definition grows (st st' : S) : Prop :=
  barred st' = barred st ∧ rows st ⊆ rows st' ∧ keys st ⊆ keys st'.

Lemma grows_settled st st' tick : grows st st' → settled st tick → settled st' tick.
Proof. intros (Hb & Hr & Hk). unfold settled. rewrite Hb. set_solver. Qed.

Lemma fire_tick_spec tick st r st' :
  fire_tick sha256 s tick st = (r, st') →
  next_run st' = next_run st ∧ grows st st' ∧ ∀ n, r = Ok n → settled st' tick.
Proof.
  unfold fire_tick. destruct (sched_enqueue _ st) as [re st1] eqn:E.
  apply enqueue_law in E as (Hn & Hb & Hr & Hk & Hans). destruct (audit _ re) as [[o rsn] j].
  destruct (record_schedule_event _ st1) as [st2|e] eqn:E2; [|intros [= <- <-]; by split_and!].
  apply record_law in E2 as (Hn2 & Hb2 & Hr2 & Hk2). intros Hres.
  assert (st2 = st') as -> by (destruct re as [|[]]; by injection Hres).
  split; [congruence|]. split; [split_and!; [by rewrite Hb2, Hb|by rewrite Hr2|by rewrite Hk2]|]. intros n ->.
  unfold settled. rewrite Hb2, Hr2, Hk2.
  destruct re as [[]|[]]; try discriminate Hres; [by left|destruct Hans as (k & [= <-] & Hin); auto|by left|auto].
Qed.

Lemma fire_ticks_spec ticks st r st' :
  fire_ticks sha256 s ticks st = (r, st') →
  next_run st' = next_run st ∧ grows st st' ∧ ∀ n, r = Ok n → Forall (settled st') ticks.
Proof.
  revert st r. induction ticks as [|tick ticks IH]; intros st r; simpl.
  { intros [= <- <-]. by split_and!. }
  destruct (fire_tick _ _ tick st) as [[n|e] st1] eqn:E1; apply fire_tick_spec in E1 as (Hn1 & Hg1 & Ht1);
    [|intros [= <- <-]; by split_and!].
  destruct (fire_ticks _ _ ticks st1) as [rm st2] eqn:E2. intros Hres.
  assert (st2 = st') as -> by (destruct rm; by injection Hres).
  apply IH in E2 as (Hn2 & Hg2 & Ht2).
  assert (grows st st') as Hg.
  { destruct Hg1 as (? & ? & ?), Hg2 as (? & ? & ?). split_and!; [congruence|set_solver|set_solver]. }
  split_and!; [congruence|apply Hg..|]. intros m ->. destruct rm as [m2|]; [|done].
  constructor; [|by eapply Ht2]. eapply grows_settled; [exact Hg2|by eapply Ht1].
Qed.
End laws.

(** ** Properties *)

(** C33.  No tick is lost: however a sweep of one schedule ends, its stored next tick is
    unchanged, or it was still the one the sweep read and has moved to a later time than
    now, and, for a specification that parses, only after every tick to fire had a job by
    its id or unique key or was barred by quarantine.  A sweep that fails moves nothing. *)
Theorem fire_schedule_never_loses_a_tick {S} `{SchedulePort S} `{!ScheduleLaws S}
    (sha256 : bytes → bytes) {Cron Tz : Type} (cron_parse : string → result Cron string)
    (cron_after : Cron → Z → option Z) (in_range : Z → bool) (tz_parse : string → option Tz)
    (local_wall : Tz → Z → Z) (earliest : Tz → Z → option Z)
    (s : Schedule) (now : Z) (st : S) r st' :
  (∀ u, next_after cron_parse cron_after in_range tz_parse local_wall earliest (sc_spec s) now = Ok u →
     now < u) →
  in_i64 now → now + 3600000 ≤ i64_max →
  fire_schedule sha256 cron_parse cron_after in_range tz_parse local_wall earliest s now st = (r, st') →
  next_run st' = next_run st
  ∨ (∃ n, r = Ok n) ∧ next_run st !! sc_id s = Some (sc_next_run_ms s)
    ∧ ∃ to, now < to ∧ next_run st' = <[sc_id s := to]> (next_run st)
      ∧ ∀ ticks, due_ticks cron_parse cron_after in_range tz_parse local_wall earliest (sc_spec s)
                   (sc_next_run_ms s) now (Z.to_nat (Z.max (sc_backfill_limit s) 1)) = Ok ticks →
          ∃ l, last ticks = Some l ∧ Forall (settled sha256 s st') (ticks_to_fire s ticks l).
Proof.
  intros Hstrict Hnow Hov. unfold fire_schedule.
  destruct (due_ticks _ _ _ _ _ _ _ _ _ _) as [ticks|e] eqn:Ed.
  2: { unfold park. destruct (record_schedule_event _ st) as [st1|e1] eqn:E1; [|intros [= <- <-]; by left].
       apply record_law in E1 as (Hn1 & _).
       destruct (advance_schedule _ _ _ st1) as [[b st2]|e2] eqn:E2; [|intros [= <- <-]; by left].
       apply advance_law in E2 as (_ & _ & _ & Hb & Hn2). intros [= <- <-]. rewrite Hn1 in Hb, Hn2.
       case_bool_decide as Hc; subst b; [right|by left]. split_and!; [by eexists|done|].
       exists (now + 3600000). split_and!; [lia| |done].
       rewrite Hn2. unfold i64_add. rewrite wrap_i64_id; [done|]. unfold in_i64, i64_min in *. lia. }
  destruct (last ticks) as [l|] eqn:El; [|intros [= <- <-]; by left].
  assert (Z.max now l = now) as ->.
  { apply due_ticks_le in Ed. rewrite Forall_forall in Ed. apply Z.max_l, Ed. by apply last_Some_elem_of. }
  destruct (next_after _ _ _ _ _ _ _ _) as [to|e] eqn:En; [|intros [= <- <-]; by left].
  destruct (fire_ticks _ _ _ st) as [[fired|e] st1] eqn:Ef;
    apply fire_ticks_spec in Ef as (Hn1 & Hg & Hs); [|intros [= <- <-]; by left].
  destruct (advance_schedule _ _ _ st1) as [[b st2]|e] eqn:E2; [|intros [= <- <-]; by left].
  apply advance_law in E2 as (Hb2 & Hr2 & Hk2 & Hb & Hn2). intros [= <- <-]. rewrite Hn1 in Hb, Hn2.
  case_bool_decide as Hc; subst b; [right|by left]. split_and!; [by eexists|done|].
  specialize (Hstrict to eq_refl). exists to. split_and!; [lia|done|].
  intros ticks' [= <-]. exists l. split; [done|]. eapply Forall_impl; [by eapply Hs|].
  intros tick. apply grows_settled. by split_and!; [|rewrite Hr2|rewrite Hk2].
Qed.

(** A store of schedules and accepted ticks. *)
Record DemoStore := mkDemoStore { ds_next : gmap string Z; ds_rows : gset string; ds_keys : gset bytes }.

#[export] Instance demo_port : SchedulePort DemoStore := {|
  due_schedules _ _ := Ok ([], 0);
  sched_enqueue env st :=
    match e_unique_key env with
    | Some k => if bool_decide (k ∈ ds_keys st) then (Err (StoreError.Duplicate "" false), st)
                else (Ok tt, mkDemoStore (ds_next st) ({[e_id env]} ∪ ds_rows st) ({[k]} ∪ ds_keys st))
    | None => (Ok tt, mkDemoStore (ds_next st) ({[e_id env]} ∪ ds_rows st) (ds_keys st))
    end;
  record_schedule_event _ st := Ok st;
  advance_schedule id from to st :=
    if bool_decide (ds_next st !! id = Some from)
    then Ok (true, mkDemoStore (<[id := to]> (ds_next st)) (ds_rows st) (ds_keys st))
    else Ok (false, st);
|}.

#[export] Program Instance demo_laws : ScheduleLaws DemoStore := {|
  next_run := ds_next; rows := ds_rows; keys := ds_keys; barred _ := ∅;
|}.
Next Obligation.
  intros env s r s'. simpl. destruct (e_unique_key env) as [k|] eqn:Ek.
  - case_bool_decide as Hk; intros [= <- <-]; simpl.
    + split_and!; try done. by exists k.
    + split_and!; try done; set_solver.
  - intros [= <- <-]. simpl. split_and!; try done; set_solver.
Qed.
Next Obligation. by intros ev s s' [= <-]. Qed.
Next Obligation.
  intros id from to s b s'. simpl. case_bool_decide; intros [= <- <-]; by split_and!.
Qed.

Definition demo_schedule : Schedule :=
  mkSchedule "s1" "mail" "p" "q" "" "" 0 3 0 "@every:1000" 1000 None MissedPolicy.Backfill 5 false.
Definition demo_fire (st : DemoStore) : result Z StoreError.StoreError * DemoStore :=
  fire_schedule (λ b, b) (λ _, Err "no cron") (λ (_ : unit) _, None) (λ _, true) (λ _, None)
    (λ (_ : unit) t, t) (λ _ t, Some t) demo_schedule 3500 st.
Definition demo_store : DemoStore := mkDemoStore {[ "s1" := 1000 ]} ∅ ∅.

Lemma fire_schedule_never_loses_a_tick_witness :
  (demo_fire demo_store).1 = Ok 3 ∧ next_run (demo_fire demo_store).2 !! "s1" = Some 4000
  ∧ (next_run (demo_fire demo_store).2 = next_run demo_store
     ∨ ∃ to, 3500 < to ∧ next_run (demo_fire demo_store).2 = <["s1" := to]> (next_run demo_store)).
Proof.
  split_and!; [vm_compute; reflexivity|vm_compute; reflexivity|].
  destruct (demo_fire demo_store) as [r st'] eqn:E.
  destruct (fire_schedule_never_loses_a_tick (λ b, b) (λ _, Err "no cron") (λ (_ : unit) _, None)
    (λ _, true) (λ _, None) (λ (_ : unit) t, t) (λ _ t, Some t) demo_schedule 3500 demo_store r st')
    as [H|(_ & _ & to & Hto & H & _)].
  - intros u Hu. vm_compute in Hu. injection Hu as <-. lia.
  - unfold in_i64, i64_min, i64_max; lia.
  - unfold i64_max; lia.
  - exact E.
  - by left.
  - right. exists to. split; [lia|done].
Defined.
