(* ===== verification/Steps.v ===== *)
(** * headgate: step replay inside a job attempt

    Models the step machinery of [crates/headgate/src/ctx.rs]: the replay state, the step
    boundary ([enter], [complete], [persist]), plain and cursor steps, and the
    transactional [step_once] and [once].  The store is a type class; a failing operation
    of the store leaves it as it was, and a transaction works on a copy that only a commit
    publishes.  What the handler's closures do is a parameter over the store, so that the
    order of durable writes and side effects is visible. *)

From S2P Require Import Prelude Shared Envelope.
Local Open Scope Z_scope.

Record StepState := mkStepState {
  ss_completed : list string;
  ss_position : nat;
  ss_executed : gset string;
  ss_in_progress : option string;
  ss_cursor_step : option string;
  ss_cursor : option bytes;
  ss_schema_version : Z;
  ss_crashes_by_step : list (string * Z);
}.

#[export] Instance step_state_eta : Eta StepState := λ s,
  mkStepState (ss_completed s) (ss_position s) (ss_executed s) (ss_in_progress s)
    (ss_cursor_step s) (ss_cursor s) (ss_schema_version s) (ss_crashes_by_step s).

Module StepError.
Inductive StepError :=
  | LeaseLost
  | StaleCheckpoint (expected got : string)
  | RanTwice (name : string)
  | Store (e : StoreError.StoreError)
  | User (m : string).
End StepError.

(** The part of [CtxInner] the step API reads and writes. *)
Record Ctx := mkCtx {
  cx_steps : StepState;
  cx_canceled : bool;
  cx_finished : bool;
}.

#[export] Instance ctx_eta : Eta Ctx := λ c, mkCtx (cx_steps c) (cx_canceled c) (cx_finished c).

Module Boundary.
Inductive Boundary := Skip | Run (cp : Checkpoint).
End Boundary.

(** [slice.join("\0")]. *)
Definition join_steps (l : list string) : string := String.concat (str1 "000"%char) l.

(** The store as an attempt sees it: the fenced checkpoint write and transactions. *)
Class StepStore (S : Type) := {
  checkpoint_write : Checkpoint → S → result S StoreError.StoreError;
  is_transactional : bool;
  begin_tx : S → result S StoreError.StoreError;
  claim_effect : string → S → result (bool * S) StoreError.StoreError;
  checkpoint_tx : Checkpoint → S → result S StoreError.StoreError;
  complete_tx : S → result S StoreError.StoreError;
  commit_tx : S → S → result S StoreError.StoreError;
}.

Section steps.
Context {S : Type} `{StepStore S}.
Context (sha256 : bytes → bytes) (job_id : string).

Definition step_snapshot (s : StepState) : Checkpoint :=
  mkCheckpoint (last (ss_completed s)) (ss_completed s) (ss_in_progress s) (ss_cursor_step s)
    (ss_cursor s) (ss_schema_version s)
    (fingerprint sha256 "steps" (join_steps (ss_completed s))) (ss_crashes_by_step s).

(** The replay state of a new attempt. *)
Definition steps_from_claim (cp : Checkpoint) (schema_version : Z) : StepState :=
  mkStepState (completed_steps cp) 0 ∅ None (cursor_step cp) (cursor cp) schema_version
    (crashes_by_step cp).

Definition enter (name : string) (is_cursor : bool) (c : Ctx) : result Boundary.Boundary StepError.StepError * Ctx :=
  if cx_canceled c then (Err StepError.LeaseLost, c) else
  let s := cx_steps c in
  if bool_decide (name ∈ ss_executed s) then (Err (StepError.RanTwice name), c) else
  let s := s <| ss_executed := {[name]} ∪ ss_executed s |> in
  match ss_completed s !! ss_position s with
  | Some expected =>
      if String.eqb expected name
      then (Ok Boundary.Skip, c <| cx_steps := s <| ss_position := Datatypes.S (ss_position s) |> |>)
      else (Err (StepError.StaleCheckpoint expected name), c <| cx_steps := s |>)
  | None =>
      let s := s <| ss_in_progress := Some name |> in
      let s := if is_cursor
               then (if bool_decide (ss_cursor_step s = Some name) then s else s <| ss_cursor := None |>)
                      <| ss_cursor_step := Some name |>
               else s in
      (Ok (Boundary.Run (step_snapshot s)), c <| cx_steps := s |>)
  end.

Definition complete_step (name : string) (c : Ctx) : Checkpoint * Ctx :=
  let s := cx_steps c in
  let completed := ss_completed s ++ [name] in
  let s := s <| ss_completed := completed |> <| ss_position := length completed |>
             <| ss_in_progress := None |> in
  (step_snapshot s, c <| cx_steps := s |>).

(** A computation of the handler over its context and the store. *)
Definition CM (A : Type) : Type := Ctx → S → result A StepError.StepError * Ctx * S.

Definition persist (cp : Checkpoint) : CM unit := λ c s,
  match checkpoint_write cp s with
  | Ok s => (Ok tt, c, s)
  | Err (StoreError.LeaseRejected _) => (Err StepError.LeaseLost, c <| cx_canceled := true |>, s)
  | Err e => (Err (StepError.Store e), c, s)
  end.

Definition step (name : string) (f : CM unit) : CM unit := λ c s,
  match enter name false c with
  | (Err e, c) => (Err e, c, s)
  | (Ok Boundary.Skip, c) => (Ok tt, c, s)
  | (Ok (Boundary.Run cp), c) =>
      match persist cp c s with
      | (Err e, c, s) => (Err e, c, s)
      | (Ok _, c, s) =>
          match f c s with
          | (Err e, c, s) => (Err e, c, s)
          | (Ok _, c, s) => let '(done, c) := complete_step name c in persist done c s
          end
      end
  end.

Definition step_cursor (name : string) (f : option bytes → CM unit) : CM unit := λ c s,
  match enter name true c with
  | (Err e, c) => (Err e, c, s)
  | (Ok Boundary.Skip, c) => (Ok tt, c, s)
  | (Ok (Boundary.Run cp), c) =>
      match persist cp c s with
      | (Err e, c, s) => (Err e, c, s)
      | (Ok _, c, s) =>
          match f (cursor cp) c s with
          | (Err e, c, s) => (Err e, c, s)
          | (Ok _, c, s) =>
              let '(_, c) := complete_step name c in
              let st := (cx_steps c) <| ss_cursor_step := None |> <| ss_cursor := None |> in
              persist (step_snapshot st) (c <| cx_steps := st |>) s
          end
      end
  end.

Definition ctx_set_cursor (b : bytes) : CM unit := λ c s,
  let st := (cx_steps c) <| ss_cursor := Some b |> in
  persist (step_snapshot st) (c <| cx_steps := st |>) s.

Definition step_once (name : string) (f : S → result S string) : CM unit := λ c s,
  if negb is_transactional
  then (Err (StepError.User "step_once requires a transactional store; this backend declines (runtime capability boundary)"), c, s)
  else
  match enter name false c with
  | (Err e, c) => (Err e, c, s)
  | (Ok Boundary.Skip, c) => (Ok tt, c, s)
  | (Ok (Boundary.Run cp), c) =>
      match persist cp c s with
      | (Err e, c, s) => (Err e, c, s)
      | (Ok _, c, s) =>
          match begin_tx s with
          | Err e => (Err (StepError.Store e), c, s)
          | Ok tx =>
              match claim_effect (job_id +:+ "/" +:+ name)%stdpp tx with
              | Err e => (Err (StepError.Store e), c, s)
              | Ok (false, _) => let '(done, c) := complete_step name c in persist done c s
              | Ok (true, tx) =>
                  match f tx with
                  | Err m => (Err (StepError.User m), c, s)
                  | Ok tx =>
                      let '(done, c) := complete_step name c in
                      match checkpoint_tx done tx with
                      | Err (StoreError.LeaseRejected _) => (Err StepError.LeaseLost, c <| cx_canceled := true |>, s)
                      | Err e => (Err (StepError.Store e), c, s)
                      | Ok tx =>
                          match commit_tx tx s with
                          | Err e => (Err (StepError.Store e), c, s)
                          | Ok s => (Ok tt, c, s)
                          end
                      end
                  end
              end
          end
      end
  end.

Definition once (f : S → result S string) : CM bool := λ c s,
  if negb is_transactional
  then (Err (StepError.User "Once requires a transactional store; this backend declines (runtime capability boundary)"), c, s)
  else
  match begin_tx s with
  | Err e => (Err (StepError.Store e), c, s)
  | Ok tx =>
      match claim_effect job_id tx with
      | Err e => (Err (StepError.Store e), c, s)
      | Ok (false, _) => (Ok false, c, s)
      | Ok (true, tx) =>
          match f tx with
          | Err m => (Err (StepError.User m), c, s)
          | Ok tx =>
              match complete_tx tx with
              | Err (StoreError.LeaseRejected _) => (Err StepError.LeaseLost, c <| cx_canceled := true |>, s)
              | Err e => (Err (StepError.Store e), c, s)
              | Ok tx =>
                  match commit_tx tx s with
                  | Err e => (Err (StepError.Store e), c, s)
                  | Ok s => (Ok true, c <| cx_finished := true |>, s)
                  end
              end
          end
      end
  end.
End steps.
