(* ===== verification/StepsSpec.v ===== *)
(** * Durable steps across crashes

    Attempts of a job run against a store that may accept, refuse or lose any write and a
    process that may die between any two of them ([Oracle]): each attempt is one script of
    answers, and the script running out is the crash.  The log records every durable
    checkpoint and every run of a step's closure. *)

From S2P Require Import Prelude Shared Envelope Steps.
Local Open Scope Z_scope.

(** ** A store with an oracle *)

Inductive answer := Accept | Reject | Fault.
Inductive event := Saved (cp : Checkpoint) | Ran (name : string).

Record Disk := mkDisk {
  dk_durable : Checkpoint;
  dk_log : list event;
  dk_oracle : list answer;
}.

Definition disk_write (cp : Checkpoint) (d : Disk) : result Disk StoreError.StoreError :=
  match dk_oracle d with
  | Accept :: o => Ok (mkDisk cp (dk_log d ++ [Saved cp]) o)
  | Reject :: _ => Err (StoreError.LeaseRejected "")
  | _ => Err (StoreError.Unavailable "")
  end.

#[export] Instance disk_store : StepStore Disk := {|
  checkpoint_write := disk_write;
  is_transactional := false;
  begin_tx d := Ok d;
  claim_effect _ d := Ok (true, d);
  checkpoint_tx := disk_write;
  complete_tx d := Ok d;
  commit_tx t _ := Ok t;
|}.

(** The side effect of a closure: it has happened even when the closure then fails. *)
Definition effect (name : string) : CM (S := Disk) unit := λ c d,
  let d' o := mkDisk (dk_durable d) (dk_log d ++ [Ran name]) o in
  match dk_oracle d with
  | Accept :: o => (Ok tt, c, d' o)
  | _ :: o => (Err (StepError.User "failed"), c, d' o)
  | [] => (Err (StepError.User "crash"), c, d' [])
  end.

Section spec.
Context (sha256 : bytes → bytes) (schema_version : Z).

(** A handler is its steps in order, each propagating its error with [?]; a cursor step
    records the cursors it is given to record before its effect. *)
Inductive item := Plain (name : string) | WithCursor (name : string) (cursors : list bytes).
Definition item_name (i : item) : string := match i with Plain n => n | WithCursor n _ => n end.

Fixpoint set_cursors (l : list bytes) : CM (S := Disk) unit := λ c d,
  match l with
  | [] => (Ok tt, c, d)
  | b :: l => match ctx_set_cursor sha256 b c d with
              | (Ok _, c, d) => set_cursors l c d
              | r => r
              end
  end.

Definition run_item (i : item) : CM (S := Disk) unit :=
  match i with
  | Plain n => step sha256 n (effect n)
  | WithCursor n l => step_cursor sha256 n (λ _ c d,
      match effect n c d with
      | (Ok _, c, d) => set_cursors l c d
      | r => r
      end)
  end.

Fixpoint run_items (l : list item) : CM (S := Disk) unit := λ c d,
  match l with
  | [] => (Ok tt, c, d)
  | i :: l => match run_item i c d with
              | (Ok _, c, d) => run_items l c d
              | r => r
              end
  end.

(** One attempt from what is durable, with its own script of answers. *)
Definition attempt_run (prog : list item) (script : list answer) (d : Disk)
    : result unit StepError.StepError * Disk :=
  let c := mkCtx (steps_from_claim (dk_durable d) schema_version) false false in
  let '(r, _, d) := run_items prog c (mkDisk (dk_durable d) (dk_log d) script) in (r, d).

Definition attempts (prog : list item) (scripts : list (list answer)) (d : Disk) : Disk :=
  foldl (λ d script, (attempt_run prog script d).2) d scripts.

Definition empty_checkpoint : Checkpoint := mkCheckpoint None [] None None None 0 "" [].
Definition new_disk : Disk := mkDisk empty_checkpoint [] [].

(** ** The log is well-formed *)

Context (prog : list item) (Hnd : NoDup (item_name <$> prog)).
Notation names := (item_name <$> prog).

(** Every closure runs right after its own in-progress marker was saved, with exactly the
    steps before it completed; what is completed only grows, along the program. *)
Inductive log_ok : list event → Checkpoint → Prop :=
  | log_empty : log_ok [] empty_checkpoint
  | log_saved l cp cp' : log_ok l cp → completed_steps cp `prefix_of` completed_steps cp' →
      completed_steps cp' `prefix_of` names → log_ok (l ++ [Saved cp']) cp'
  | log_ran l cp n : log_ok (l ++ [Saved cp]) cp → in_progress_step cp = Some n →
      completed_steps cp ++ [n] `prefix_of` names → log_ok ((l ++ [Saved cp]) ++ [Ran n]) cp.

Definition safe (d : Disk) : Prop := log_ok (dk_log d) (dk_durable d).

Lemma safe_completed d : safe d → completed_steps (dk_durable d) `prefix_of` names.
Proof.
  unfold safe. induction 1 as [|l cp cp'|l cp n _ IH]; [apply prefix_nil|done|done].
Qed.

Lemma persist_safe cp c d r c' d' :
  safe d → completed_steps (dk_durable d) `prefix_of` completed_steps cp →
  completed_steps cp `prefix_of` names → persist cp c d = (r, c', d') →
  safe d' ∧ (r = Ok tt → c' = c ∧ dk_durable d' = cp ∧ dk_log d' = dk_log d ++ [Saved cp]).
Proof.
  intros Hs Hp Hn. unfold persist. simpl. unfold disk_write.
  destruct (dk_oracle d) as [|[] o]; intros [= <- <- <-]; try (by split). simpl. split; [|done].
  by eapply log_saved.
Qed.

Lemma effect_safe n cp c d l r c' d' :
  dk_durable d = cp → dk_log d = l ++ [Saved cp] → safe d → in_progress_step cp = Some n →
  completed_steps cp ++ [n] `prefix_of` names → effect n c d = (r, c', d') →
  safe d' ∧ c' = c ∧ dk_durable d' = cp.
Proof.
  intros Hd Hl Hs Hi Hp. unfold effect. unfold safe in Hs. rewrite Hd, Hl in Hs.
  assert (log_ok ((l ++ [Saved cp]) ++ [Ran n]) cp) by by apply log_ran.
  destruct (dk_oracle d) as [|[] o]; intros [= <- <- <-]; unfold safe; simpl; rewrite Hd, Hl; done.
Qed.

(** At the start of item [i]: the replay state is that of the program so far. *)
Record at_item (i : nat) (c : Ctx) (d : Disk) : Prop := mkAtItem {
  ai_canceled : cx_canceled c = false;
  ai_position : ss_position (cx_steps c) = i;
  ai_executed : ∀ x, x ∈ ss_executed (cx_steps c) → x ∈ take i names;
  ai_completed : ∃ k, ss_completed (cx_steps c) = take (i `max` k) names;
  ai_durable : completed_steps (dk_durable d) = ss_completed (cx_steps c);
  ai_safe : safe d;
}.

Lemma take_lookup_S (l : list string) i x : l !! i = Some x → take (Datatypes.S i) l = take i l ++ [x].
Proof. apply take_S_r. Qed.

Lemma set_cursors_safe l k c d r c' d' :
  safe d → ss_completed (cx_steps c) = take k names →
  completed_steps (dk_durable d) = ss_completed (cx_steps c) → set_cursors l c d = (r, c', d') →
  safe d' ∧ (r = Ok tt → cx_canceled c' = cx_canceled c
    ∧ ss_completed (cx_steps c') = ss_completed (cx_steps c)
    ∧ ss_position (cx_steps c') = ss_position (cx_steps c)
    ∧ ss_executed (cx_steps c') = ss_executed (cx_steps c)
    ∧ completed_steps (dk_durable d') = ss_completed (cx_steps c)).
Proof.
  revert c d. induction l as [|b l IH]; intros c d Hs Hk Hd; simpl.
  { intros [= <- <- <-]. by split. }
  destruct (ctx_set_cursor sha256 b c d) as [[r1 c1] d1] eqn:E. unfold ctx_set_cursor in E.
  apply persist_safe in E as [Hs1 Hok]; [|done|by rewrite Hd|change (ss_completed (cx_steps c) `prefix_of` names); rewrite Hk; apply prefix_take].
  destruct r1 as [[]|e]; [|intros [= <- <- <-]; by split].
  destruct (Hok eq_refl) as (-> & Hd1 & _). intros E2.
  apply IH in E2 as [Hs2 Hok2]; [|done|done|by rewrite Hd1]. split; [done|].
  intros Hr. by destruct (Hok2 Hr) as (? & ? & ? & ? & ?).
Qed.

(** What [enter] does at item [i]. *)
Lemma enter_spec i c d it is_cursor :
  prog !! i = Some it → at_item i c d →
  ∃ c1, match ss_completed (cx_steps c) !! i with
  | Some _ => enter sha256 (item_name it) is_cursor c = (Ok Boundary.Skip, c1) ∧ at_item (Datatypes.S i) c1 d
  | None => enter sha256 (item_name it) is_cursor c = (Ok (Boundary.Run (step_snapshot sha256 (cx_steps c1))), c1)
      ∧ ss_completed (cx_steps c1) = take i names ∧ ss_completed (cx_steps c) = take i names
      ∧ ss_in_progress (cx_steps c1) = Some (item_name it) ∧ cx_canceled c1 = false
      ∧ ∀ x, x ∈ ss_executed (cx_steps c1) → x ∈ take (Datatypes.S i) names
  end.
Proof.
  intros Hi [Hc Hpos Hex [k Hk] Hd Hs]. unfold enter. rewrite Hc. cbv zeta.
  assert (names !! i = Some (item_name it)) as Hn by (by rewrite list_lookup_fmap, Hi).
  assert (item_name it ∉ take i names) as Hfresh.
  { intros (j & Hj)%list_elem_of_lookup. apply lookup_take_Some in Hj as [Hj Hlt].
    pose proof (NoDup_lookup _ _ _ _ Hnd Hj Hn). lia. }
  rewrite bool_decide_false by auto.
  assert (∀ x, x ∈ {[item_name it]} ∪ ss_executed (cx_steps c) → x ∈ take (Datatypes.S i) names) as Hex'.
  { intros x [->%elem_of_singleton|Hx]%elem_of_union; rewrite (take_lookup_S _ _ _ Hn), elem_of_app;
      [right; by apply list_elem_of_singleton|left; auto]. }
  change (ss_completed (upd _ _ (cx_steps c))) with (ss_completed (cx_steps c)).
  change (ss_position (upd _ _ (cx_steps c))) with (ss_position (cx_steps c)). rewrite Hpos.
  destruct (ss_completed (cx_steps c) !! i) as [x|] eqn:Ex.
  - assert (x = item_name it) as ->.
    { rewrite Hk in Ex. apply lookup_take_Some in Ex as [Ex _]. congruence. }
    rewrite String.eqb_refl. eexists. split; [done|].
    assert (i < i `max` k)%nat as Hlt by (rewrite Hk in Ex; by apply lookup_take_Some in Ex as [_ ?]).
    constructor; [exact Hc|by f_equal|exact Hex'| |exact Hd|exact Hs]. exists k.
    change (ss_completed (cx_steps c) = take (Datatypes.S i `max` k) names).
    rewrite Hk. f_equal. lia.
  - assert (ss_completed (cx_steps c) = take i names) as Hk'.
    { rewrite Hk in Ex |- *. apply lookup_ge_None in Ex. rewrite length_take in Ex.
      apply lookup_lt_Some in Hn. f_equal. lia. }
    destruct is_cursor; [case_bool_decide|];
      (match goal with |- ∃ _, (_, ?c1) = _ ∧ _ => exists c1 end; split; [reflexivity|]; split_and!; [exact Hk'|exact Hk'|reflexivity|exact Hc|exact Hex']).
Qed.

(** Completing item [i] leads to item [i + 1]. *)
Lemma complete_spec i it c d st r c' d' :
  prog !! i = Some it → cx_canceled c = false →
  ss_completed (cx_steps c) = take i names → completed_steps (dk_durable d) = take i names → safe d →
  (∀ x, x ∈ ss_executed (cx_steps c) → x ∈ take (Datatypes.S i) names) →
  st = (cx_steps (complete_step sha256 (item_name it) c).2) ∨
  st = (cx_steps (complete_step sha256 (item_name it) c).2) <| ss_cursor_step := None |> <| ss_cursor := None |> →
  persist (step_snapshot sha256 st) ((complete_step sha256 (item_name it) c).2 <| cx_steps := st |>) d = (r, c', d') →
  safe d' ∧ (r = Ok tt → at_item (Datatypes.S i) c' d').
Proof.
  intros Hi Hc Hk Hd Hs Hex Hst.
  assert (names !! i = Some (item_name it)) as Hn by (by rewrite list_lookup_fmap, Hi).
  pose proof (take_lookup_S _ _ _ Hn) as Htake.
  assert (ss_completed st = take (Datatypes.S i) names ∧ ss_position st = Datatypes.S i
          ∧ ss_executed st = ss_executed (cx_steps c)) as (Hcomp & Hpos & Hexec).
  { assert (ss_completed (cx_steps (complete_step sha256 (item_name it) c).2) = take (Datatypes.S i) names) as E.
    { change (ss_completed (cx_steps c) ++ [item_name it] = take (Datatypes.S i) names). by rewrite Hk, Htake. }
    assert (ss_position (cx_steps (complete_step sha256 (item_name it) c).2) = Datatypes.S i) as E2.
    { change (length (ss_completed (cx_steps c) ++ [item_name it]) = Datatypes.S i).
      rewrite Hk, <-Htake, length_take. apply lookup_lt_Some in Hn. lia. }
    destruct Hst as [->| ->]; done. }
  intros E. apply persist_safe in E as [Hs' Hok]; [|done| |].
  - split; [done|]. intros Hr. destruct (Hok Hr) as (-> & Hd' & _). constructor; try done.
    + intros x. change (ss_executed (cx_steps (_ <| cx_steps := st |>))) with (ss_executed st).
      rewrite Hexec. apply Hex.
    + exists 0%nat. change (ss_completed st = take (Datatypes.S i `max` 0) names). by rewrite Nat.max_0_r.
    + by rewrite Hd'.
  - rewrite Hd. change (take i names `prefix_of` ss_completed st). rewrite Hcomp, Htake. by eexists.
  - change (ss_completed st `prefix_of` names). rewrite Hcomp. apply prefix_take.
Qed.

Lemma run_plain_spec i n c d r c' d' :
  prog !! i = Some (Plain n) → at_item i c d → step sha256 n (effect n) c d = (r, c', d') →
  safe d' ∧ (r = Ok tt → at_item (Datatypes.S i) c' d').
Proof.
  intros Hi Hat. destruct (enter_spec i c d _ false Hi Hat) as [c1 H1]. simpl in H1. unfold step.
  destruct (ss_completed (cx_steps c) !! i); [destruct H1 as [-> ?]; intros [= <- <- <-]; by split; [apply Hat|]|].
  destruct H1 as (-> & Hk1 & Hk & Hin & Hc1 & Hex).
  assert (names !! i = Some n) as Hn by (by rewrite list_lookup_fmap, Hi).
  destruct (persist _ c1 d) as [[r1 c2] d1] eqn:E1.
  apply persist_safe in E1 as [Hs1 Hok1]; [|apply Hat| |]; last first.
  { change (ss_completed (cx_steps c1) `prefix_of` names). rewrite Hk1. apply prefix_take. }
  { rewrite (ai_durable _ _ _ Hat), Hk. change (take i names `prefix_of` ss_completed (cx_steps c1)). by rewrite Hk1. }
  destruct r1 as [[]|e]; [|intros [= <- <- <-]; by split]. destruct (Hok1 eq_refl) as (-> & Hd1 & Hl1).
  destruct (effect n c1 d1) as [[r2 c3] d2] eqn:E2.
  apply (effect_safe n _ _ _ _ _ _ _ Hd1 Hl1 Hs1) in E2 as (Hs2 & -> & Hd2); [|exact Hin|].
  2: { change (ss_completed (cx_steps c1) ++ [n] `prefix_of` names). rewrite Hk1, <-(take_lookup_S _ _ _ Hn).
       apply prefix_take. }
  destruct r2 as [[]|e]; [|intros [= <- <- <-]; by split].
  intros E3. eapply (complete_spec i (Plain n) c1 d2); [done..| |done|exact Hex|left; reflexivity|exact E3].
  rewrite Hd2. exact Hk1.
Qed.

Lemma run_cursor_spec i n l c d r c' d' :
  prog !! i = Some (WithCursor n l) → at_item i c d → run_item (WithCursor n l) c d = (r, c', d') →
  safe d' ∧ (r = Ok tt → at_item (Datatypes.S i) c' d').
Proof.
  intros Hi Hat. destruct (enter_spec i c d _ true Hi Hat) as [c1 H1]. simpl in H1.
  cbn [run_item]. unfold step_cursor.
  destruct (ss_completed (cx_steps c) !! i); [destruct H1 as [-> ?]; intros [= <- <- <-]; by split; [apply Hat|]|].
  destruct H1 as (-> & Hk1 & Hk & Hin & Hc1 & Hex).
  assert (names !! i = Some n) as Hn by (by rewrite list_lookup_fmap, Hi).
  destruct (persist _ c1 d) as [[r1 c2] d1] eqn:E1.
  apply persist_safe in E1 as [Hs1 Hok1]; [|apply Hat| |]; last first.
  { change (ss_completed (cx_steps c1) `prefix_of` names). rewrite Hk1. apply prefix_take. }
  { rewrite (ai_durable _ _ _ Hat), Hk. change (take i names `prefix_of` ss_completed (cx_steps c1)). by rewrite Hk1. }
  destruct r1 as [[]|e]; [|intros [= <- <- <-]; by split]. destruct (Hok1 eq_refl) as (-> & Hd1 & Hl1).
  destruct (effect n c1 d1) as [[r2 c3] d2] eqn:E2.
  apply (effect_safe n _ _ _ _ _ _ _ Hd1 Hl1 Hs1) in E2 as (Hs2 & -> & Hd2); [|exact Hin|].
  2: { change (ss_completed (cx_steps c1) ++ [n] `prefix_of` names). rewrite Hk1, <-(take_lookup_S _ _ _ Hn).
       apply prefix_take. }
  destruct r2 as [[]|e]; [|intros [= <- <- <-]; by split].
  destruct (set_cursors l c1 d2) as [[r3 c4] d3] eqn:E3.
  apply (set_cursors_safe l i) in E3 as [Hs3 Hok3]; [|done|exact Hk1|by rewrite Hd2].
  destruct r3 as [[]|e]; [|intros [= <- <- <-]; by split].
  destruct (Hok3 eq_refl) as (Hc4 & Hk4 & _ & Hex4 & Hd3).
  intros E4. eapply (complete_spec i (WithCursor n l) c4 d3); [done| | | |done| |right; reflexivity|exact E4];
    congruence || rewrite Hex4; apply Hex.
Qed.

Lemma run_item_spec i it c d r c' d' :
  prog !! i = Some it → at_item i c d → run_item it c d = (r, c', d') →
  safe d' ∧ (r = Ok tt → at_item (Datatypes.S i) c' d').
Proof. destruct it; [apply run_plain_spec|apply run_cursor_spec]. Qed.

Lemma run_items_spec i l c d r c' d' :
  drop i prog = l → (i ≤ length prog)%nat → at_item i c d → run_items l c d = (r, c', d') →
  safe d' ∧ (r = Ok tt → at_item (length prog) c' d').
Proof.
  revert i c d. induction l as [|it l IH]; intros i c d Hl Hle Hat; simpl.
  - intros [= <- <- <-]. split; [apply Hat|]. intros _.
    apply (f_equal length) in Hl. rewrite length_drop in Hl. simpl in Hl.
    by replace (length prog) with i by lia.
  - destruct (run_item it c d) as [[r1 c1] d1] eqn:E.
    assert (prog !! i = Some it) as Hi.
    { rewrite <-(Nat.add_0_r i), <-lookup_drop, Hl. done. }
    destruct (run_item_spec _ _ _ _ _ _ _ Hi Hat E) as [Hs1 Hok].
    destruct r1 as [[]|e]; [|intros [= <- <- <-]; by split]. apply (IH (Datatypes.S i)); [| |by apply Hok].
    + rewrite <-Nat.add_1_r, <-drop_drop, Hl. done.
    + by apply lookup_lt_Some in Hi.
Qed.

Lemma attempt_safe script d : safe d → safe (attempt_run prog script d).2.
Proof.
  intros Hs. unfold attempt_run. destruct (run_items _ _ _) as [[r c] d'] eqn:E. simpl.
  apply (run_items_spec 0) in E as [? _]; [done|done|lia|].
  constructor; [done|done|by intros x ?%elem_of_empty| |done|exact Hs].
  exists (length (completed_steps (dk_durable d))). simpl. pose proof (safe_completed d Hs) as [l ->].
  by rewrite take_app_length.
Qed.

Lemma attempts_safe scripts d : safe d → safe (attempts prog scripts d).
Proof. revert d. induction scripts as [|x l IH]; intros d Hd; [done|]. by apply IH, attempt_safe. Qed.

(** ** Reading a well-formed log *)

Lemma log_ran_marker l1 n l2 cp :
  log_ok (l1 ++ Ran n :: l2) cp →
  ∃ l0 cp0, l1 = l0 ++ [Saved cp0] ∧ in_progress_step cp0 = Some n
    ∧ completed_steps cp0 ++ [n] `prefix_of` names.
Proof.
  intros H. remember (l1 ++ Ran n :: l2) as l eqn:E. revert l2 E.
  induction H as [|l cp cp' H IH Hp Hn|l cp m H IH Hin Hp]; intros l2 E.
  - by destruct l1.
  - destruct l2 as [|x l2] using rev_ind.
    + apply app_inj_tail in E as [_ ?]. done.
    + rewrite app_comm_cons, app_assoc in E. apply app_inj_tail in E as [-> _]. by eapply IH.
  - destruct l2 as [|x l2] using rev_ind.
    + apply app_inj_tail in E as [<- [= <-]]. by exists l, cp.
    + rewrite app_comm_cons, app_assoc in E. apply app_inj_tail in E as [E _]. by eapply IH.
Qed.

Lemma log_saved_completed l1 cp0 l2 cp :
  log_ok (l1 ++ Saved cp0 :: l2) cp → completed_steps cp0 `prefix_of` completed_steps cp.
Proof.
  intros H. remember (l1 ++ Saved cp0 :: l2) as l eqn:E. revert l2 E.
  induction H as [|l cp cp' H IH Hp Hn|l cp m H IH Hin Hp]; intros l2 E.
  - by destruct l1.
  - destruct l2 as [|x l2] using rev_ind.
    + apply app_inj_tail in E as [_ [= ->]]. done.
    + rewrite app_comm_cons, app_assoc in E. apply app_inj_tail in E as [-> _]. etrans; [by eapply IH|done].
  - destruct l2 as [|x l2] using rev_ind.
    + apply app_inj_tail in E as [_ ?]. done.
    + rewrite app_comm_cons, app_assoc in E. apply app_inj_tail in E as [E _]. by eapply IH.
Qed.

Lemma log_prefix l1 l2 cp : log_ok (l1 ++ l2) cp → ∃ cp', log_ok l1 cp'.
Proof.
  revert cp. induction l2 as [|x l2 IH] using rev_ind; intros cp; [rewrite app_nil_r; eauto|].
  rewrite app_assoc. intros H. remember ((l1 ++ l2) ++ [x]) as L eqn:E.
  destruct H as [|l cp1 cp2 H1 _ _|l cp1 m H1 _ _].
  - by destruct (l1 ++ l2).
  - apply app_inj_tail in E as [-> _]. by eapply IH.
  - apply app_inj_tail in E as [E _]. rewrite E in H1. by eapply IH.
Qed.

Lemma completed_never_reruns l1 cp0 l2 cp n :
  log_ok (l1 ++ Saved cp0 :: l2) cp → n ∈ completed_steps cp0 → Ran n ∉ l2.
Proof.
  intros H Hn (m1 & m2 & ->)%list_elem_of_split.
  rewrite app_comm_cons, app_assoc in H.
  destruct (log_ran_marker _ _ _ _ H) as (l0 & cp1 & E & _ & Hp).
  apply (log_prefix _ (Ran n :: m2)) in H as [cp' H]. rewrite E in H.
  assert (cp' = cp1) as ->.
  { remember (l0 ++ [Saved cp1]) as L eqn:E2.
    destruct H as [|l cp2 cp3 _ _ _|l cp2 m _ _ _]; [by destruct l0|..];
      apply app_inj_tail in E2 as [_ ?]; congruence. }
  rewrite <-E in H. apply log_saved_completed in H.
  assert (n ∈ completed_steps cp1) as Hin by (destruct H as [? ->]; apply elem_of_app; by left).
  destruct Hp as [k Hk]. rewrite Hk, <-app_assoc in Hnd. simpl in Hnd.
  apply NoDup_app in Hnd as (_ & Hdis & _). by apply (Hdis n Hin); left.
Qed.

(** ** Progress *)

(** How many writes and effects an item takes. *)
Definition item_cost (i : item) : nat :=
  match i with Plain _ => 3 | WithCursor _ l => 3 + length l end.
Definition prog_cost (l : list item) : nat := sum_list (item_cost <$> l).

Definition accepting (k : nat) (d : Disk) : Prop := ∃ j, (k ≤ j)%nat ∧ dk_oracle d = replicate j Accept.

Lemma persist_accepted cp c d k :
  accepting (Datatypes.S k) d → ∃ d', persist cp c d = (Ok tt, c, d') ∧ accepting k d'.
Proof.
  intros ([|j] & Hj & Ho); [lia|]. unfold persist. simpl. unfold disk_write. rewrite Ho. simpl.
  eexists. split; [done|]. exists j. split; [lia|done].
Qed.
Lemma effect_accepted n c d k :
  accepting (Datatypes.S k) d → ∃ d', effect n c d = (Ok tt, c, d') ∧ accepting k d'.
Proof.
  intros ([|j] & Hj & Ho); [lia|]. unfold effect. rewrite Ho. simpl.
  eexists. split; [done|]. exists j. split; [lia|done].
Qed.
Lemma set_cursors_accepted l c d k :
  accepting (length l + k) d → ∃ c' d', set_cursors l c d = (Ok tt, c', d') ∧ accepting k d'.
Proof.
  revert c d. induction l as [|b l IH]; intros c d Ha; simpl; [by exists c, d|].
  unfold ctx_set_cursor. edestruct persist_accepted as (d1 & -> & Ha1); [exact Ha|]. by apply IH.
Qed.

Lemma run_item_accepted i it c d k :
  prog !! i = Some it → at_item i c d → accepting (item_cost it + k) d →
  ∃ c' d', run_item it c d = (Ok tt, c', d') ∧ accepting k d'.
Proof.
  intros Hi Hat Ha. destruct it as [n|n l]; simpl in *; unfold step, step_cursor.
  - destruct (enter_spec i c d _ false Hi Hat) as [c1 H1]. simpl in H1.
    destruct (ss_completed (cx_steps c) !! i); destruct H1 as [-> _].
    { exists c1, d. split; [done|]. destruct Ha as (j & ? & ?). exists j. split; [lia|done]. }
    edestruct persist_accepted as (d1 & -> & Ha1); [exact Ha|].
    edestruct effect_accepted as (d2 & -> & Ha2); [exact Ha1|].
    simpl. edestruct persist_accepted as (d3 & -> & Ha3); [exact Ha2|]. eauto.
  - destruct (enter_spec i c d _ true Hi Hat) as [c1 H1]. simpl in H1.
    destruct (ss_completed (cx_steps c) !! i); destruct H1 as [-> _].
    { exists c1, d. split; [done|]. destruct Ha as (j & ? & ?). exists j. split; [lia|done]. }
    edestruct persist_accepted as (d1 & -> & Ha1); [exact Ha|].
    edestruct effect_accepted as (d2 & -> & Ha2); [exact Ha1|].
    edestruct (set_cursors_accepted l c1 d2 (Datatypes.S k)) as (c3 & d3 & -> & Ha3).
    { destruct Ha2 as (j & ? & ?). exists j. split; [lia|done]. }
    simpl. edestruct persist_accepted as (d4 & -> & Ha4); [exact Ha3|]. eauto.
Qed.

Lemma run_items_accepted i l c d :
  drop i prog = l → at_item i c d → accepting (prog_cost l) d →
  ∃ c' d', run_items l c d = (Ok tt, c', d').
Proof.
  revert i c d. induction l as [|it l IH]; intros i c d Hl Hat Ha; simpl; [by exists c, d|].
  assert (prog !! i = Some it) as Hi by (by rewrite <-(Nat.add_0_r i), <-lookup_drop, Hl).
  destruct (run_item_accepted i it c d (prog_cost l) Hi Hat Ha) as (c1 & d1 & E & Ha1). rewrite E.
  destruct (run_item_spec i it c d _ _ _ Hi Hat E) as [_ Hat1].
  apply (IH (Datatypes.S i)); [|by apply Hat1|done]. rewrite <-Nat.add_1_r, <-drop_drop, Hl. done.
Qed.
End spec.

(** ** Properties *)

(** C32.  Durable steps, over any number of attempts of a handler with distinct step names,
    whatever writes are refused and wherever the process dies: a step's closure runs only
    right after its own in-progress marker has been saved, with exactly the steps before
    it recorded as completed; and once a step is durably completed its closure never runs
    again. *)
Theorem steps_are_ordered_and_run_once (sha256 : bytes → bytes) (schema_version : Z) (prog : list item)
    (scripts : list (list answer)) :
  NoDup (item_name <$> prog) →
  let log := dk_log (attempts sha256 schema_version prog scripts new_disk) in
  (∀ l1 n l2, log = l1 ++ Ran n :: l2 →
     ∃ l0 cp, l1 = l0 ++ [Saved cp] ∧ in_progress_step cp = Some n
       ∧ completed_steps cp ++ [n] `prefix_of` item_name <$> prog)
  ∧ (∀ l1 cp l2 n, log = l1 ++ Saved cp :: l2 → n ∈ completed_steps cp → Ran n ∉ l2).
Proof.
  intros Hnd log.
  assert (safe prog (attempts sha256 schema_version prog scripts new_disk)) as Hs.
  { apply attempts_safe; [done|]. apply log_empty. }
  unfold safe in Hs. fold log in Hs. split.
  - intros l1 n l2 E. rewrite E in Hs. by eapply log_ran_marker.
  - intros l1 cp l2 n E Hn. rewrite E in Hs. by eapply completed_never_reruns.
Qed.

Definition demo_prog : list item := [Plain "charge"; WithCursor "mail" ["c1"; "c2"]; Plain "close"].

(** Dies in the first effect, then after it, then inside the cursor step; then completes. *)
Definition demo_scripts : list (list answer) :=
  [[Accept]; [Accept; Accept; Accept]; [Accept; Accept; Accept; Fault]; replicate 20 Accept].

Lemma demo_prog_nodup : NoDup (item_name <$> demo_prog).
Proof. apply (bool_decide_unpack _). vm_compute. exact I. Qed.

Definition demo_log : list event := dk_log (attempts (λ b, b) 1 demo_prog demo_scripts new_disk).
Definition ran_names (l : list event) : list string :=
  omap (λ e, match e with Ran n => Some n | Saved _ => None end) l.

Lemma steps_are_ordered_and_run_once_witness :
  ran_names demo_log = ["charge"; "charge"; "mail"; "mail"; "close"]
  ∧ ∀ l1 cp l2 n, demo_log = l1 ++ Saved cp :: l2 → n ∈ completed_steps cp → Ran n ∉ l2.
Proof.
  split; [vm_compute; reflexivity|].
  exact (proj2 (steps_are_ordered_and_run_once (λ b, b) 1 demo_prog demo_scripts demo_prog_nodup)).
Defined.

(** An attempt nothing goes wrong in finishes the job from whatever earlier attempts
    left behind: given as many accepted writes and effects as the program can need, it
    returns successfully with every step durably completed. *)
Theorem accepted_attempt_completes (sha256 : bytes → bytes) (schema_version : Z) (prog : list item)
    (scripts : list (list answer)) (k : nat) :
  NoDup (item_name <$> prog) → (prog_cost prog ≤ k)%nat →
  let d := attempts sha256 schema_version prog scripts new_disk in
  ∃ d', attempt_run sha256 schema_version prog (replicate k Accept) d = (Ok tt, d')
    ∧ completed_steps (dk_durable d') = item_name <$> prog.
Proof.
  intros Hnd Hk d. assert (safe prog d) as Hs by (apply attempts_safe; [done|apply log_empty]).
  unfold attempt_run.
  assert (at_item prog 0 (mkCtx (steps_from_claim (dk_durable d) schema_version) false false)
            (mkDisk (dk_durable d) (dk_log d) (replicate k Accept))) as Hat.
  { constructor; [done|done|by intros x ?%elem_of_empty| |done|exact Hs].
    exists (length (completed_steps (dk_durable d))). simpl.
    pose proof (safe_completed prog d Hs) as [l ->]. by rewrite take_app_length. }
  destruct (run_items_accepted sha256 prog Hnd 0 prog _ _ (drop_0 _) Hat) as (c' & d' & E); [by exists k|].
  rewrite E. exists d'. split; [done|].
  apply (run_items_spec sha256 prog Hnd 0) in E as [_ Hend]; [|apply drop_0|lia|done].
  destruct (Hend eq_refl) as [_ _ _ [j Hj] Hd _]. rewrite Hd, Hj. apply take_ge. rewrite length_fmap. lia.
Qed.

Lemma accepted_attempt_completes_witness :
  ∃ d', attempt_run (λ b, b) 1 demo_prog (replicate 11 Accept)
          (attempts (λ b, b) 1 demo_prog [[Accept]; [Accept; Accept; Reject]] new_disk) = (Ok tt, d')
    ∧ completed_steps (dk_durable d') = ["charge"; "mail"; "close"].
Proof.
  exact (accepted_attempt_completes (λ b, b) 1 demo_prog [[Accept]; [Accept; Accept; Reject]] 11
    demo_prog_nodup ltac:(vm_compute; lia)).
Defined.

(** ** Transactional steps *)

(** A transactional store: the durable checkpoint, the effects committed, and the answers
    its checkpoint writes (inside and outside transactions) will give. *)
Record TxDisk := mkTxDisk {
  tx_durable : Checkpoint;
  tx_effects : list string;
  tx_claimed : gset string;
  tx_answers : list answer;
}.

Definition tx_write (cp : Checkpoint) (d : TxDisk) : result TxDisk StoreError.StoreError :=
  match tx_answers d with
  | Accept :: o => Ok (mkTxDisk cp (tx_effects d) (tx_claimed d) o)
  | Reject :: _ => Err (StoreError.LeaseRejected "")
  | _ => Err (StoreError.Unavailable "")
  end.

#[export] Instance tx_store : StepStore TxDisk := {|
  checkpoint_write := tx_write;
  is_transactional := true;
  begin_tx d := Ok d;
  claim_effect k d := Ok (bool_decide (k ∉ tx_claimed d),
    mkTxDisk (tx_durable d) (tx_effects d) ({[k]} ∪ tx_claimed d) (tx_answers d));
  checkpoint_tx := tx_write;
  complete_tx d := Ok d;
  commit_tx t _ := Ok t;
|}.

Definition tx_effect (n : string) (d : TxDisk) : result TxDisk string :=
  Ok (mkTxDisk (tx_durable d) (n :: tx_effects d) (tx_claimed d) (tx_answers d)).

(** In one transaction: an effect is committed exactly when the job is finished by it or
    its step recorded, whatever the store answers. *)
Lemma step_once_commits_both_or_neither sha256 job_id name c d r c' d' :
  name ∉ tx_effects d →
  step_once sha256 job_id name (tx_effect name) c d = (r, c', d') →
  (name ∈ tx_effects d' → name ∈ completed_steps (tx_durable d')).
Proof.
  intros He. unfold step_once. simpl.
  destruct (enter sha256 name false c) as [[[|cp]|e] c1] eqn:E; try (intros [= <- <- <-]; done).
  unfold persist, checkpoint_write. simpl. unfold tx_write at 1.
  destruct (tx_answers d) as [|[] o]; try (intros [= <- <- <-]; done). simpl.
  case_bool_decide as Hcl.
  - unfold checkpoint_tx. simpl. unfold tx_write. simpl.
    destruct o as [|[] o]; intros [= <- <- <-] Hin; simpl in *; try done.
    apply elem_of_app. right. by apply list_elem_of_singleton.
  - unfold tx_write. simpl. destruct o as [|[] o]; intros [= <- <- <-]; simpl; done.
Qed.

(** A step whose transaction was rolled back stays marked as completed in the attempt's own
    state, so that the next checkpoint of a handler that goes on records it although its
    effect never happened. *)
Lemma rolled_back_step_is_recorded :
  let c := mkCtx (steps_from_claim empty_checkpoint 1) false false in
  let d := mkTxDisk empty_checkpoint [] ∅ [Accept; Fault] in
  let '(r, c1, d1) := step_once (λ b, b) "job" "pay" (tx_effect "pay") c d in
  let '(r2, _, d2) := ctx_set_cursor (λ b, b) "x" c1
    (mkTxDisk (tx_durable d1) (tx_effects d1) (tx_claimed d1) [Accept]) in
  is_ok r = false ∧ r2 = Ok tt ∧ tx_effects d2 = [] ∧ completed_steps (tx_durable d2) = ["pay"].
Proof. vm_compute. repeat split. Qed.
