(* ===== verification/Attempt.v ===== *)
(** * headgate: what one attempt of a job carries

    Models the attempt-local state of [crates/headgate/src/ctx.rs] that is not step replay
    (log buffer, recorded result, reported weight, cancellation, handler-side lease control),
    the bounded log buffer of [log.rs], the tracked children of [tracked.rs], and the error
    types a handler can end with ([Control] of [lib.rs], [LeaseLost], [StaleCheckpoint],
    [CodecError], [StoreError]).  The store is the class [WorkerStore]: the operations of the
    store traits that a running attempt and the worker loop call. *)

From S2P Require Import Prelude Shared Lifecycle Envelope MemStore.
Local Open Scope Z_scope.

(** ** Errors *)

Definition store_error_message (e : StoreError.StoreError) : string :=
  (match e with
   | StoreError.Duplicate existing_id _ => "duplicate unique key; existing job " +:+ existing_id
   | StoreError.IdConflict job_id => "id conflict: job " +:+ job_id
   | StoreError.Quarantined fp => "fingerprint " +:+ fp +:+ " is quarantined"
   | StoreError.Backpressure queue limit current incoming =>
       "enqueue backpressure: queue " +:+ queue +:+ " has " +:+ pretty current
       +:+ " unfinished jobs, limit " +:+ pretty limit +:+ ", incoming " +:+ pretty incoming
   | StoreError.LeaseRejected job_id =>
       "lease no longer held for job " +:+ job_id +:+ "; stop work immediately"
   | StoreError.Unavailable m => "store unavailable: " +:+ m
   | StoreError.NotFound m => "not found: " +:+ m
   | StoreError.Invalid m => "invalid request: " +:+ m
   | StoreError.Backend m => m
   end)%stdpp.

Module CodecError.
Inductive CodecError := Malformed (m : string) | UnknownVersion (v : Z).
End CodecError.

Definition codec_error_message (e : CodecError.CodecError) : string :=
  (match e with
   | CodecError.Malformed m => "malformed payload: " +:+ m
   | CodecError.UnknownVersion v => "no upcast path for schema version " +:+ pretty v
   end)%stdpp.

Module Control.
Inductive Control := Snooze (d : duration) | Skip | Revoke | RateLimited.
End Control.

(** The boxed error a handler returns, by the types the runtime downcasts to. *)
Module JobError.
Inductive JobError :=
  | Control (c : Control.Control)
  | LeaseLost
  | StaleCheckpoint (expected got : string)
  | Codec (e : CodecError.CodecError)
  | Store (e : StoreError.StoreError)
  | Other (m : string).
End JobError.

(** ** The attempt's log buffer *)

Record LogBuffer := mkLogBuffer { lb_lines : list string; lb_closed : bool }.

Definition LOG_CAP_MESSAGE : string := "... log cap reached (100 lines/attempt)".

Definition log_push (line : string) (b : LogBuffer) : LogBuffer :=
  if lb_closed b then b
  else if (length (lb_lines b) <? 100)%nat then mkLogBuffer (lb_lines b ++ [line]) false
  else if (length (lb_lines b) =? 100)%nat then mkLogBuffer (lb_lines b ++ [LOG_CAP_MESSAGE]) false
  else b.

Definition log_take (b : LogBuffer) : list string * LogBuffer := (lb_lines b, mkLogBuffer [] true).

(** ** The store as an attempt and the worker see it

    [as_result_store], [as_output_store] and [as_progress_store] are optional traits. *)

Class WorkerStore (S : Type) := {
  ws_admit : AdmitRequest → S → S * result (list AdmissionUnit) StoreError.StoreError;
  ws_ack : LeaseRef → Outcome.Outcome → option string → option Z → list string → option Z →
    S → S * result unit StoreError.StoreError;
  ws_renew : list LeaseRef → duration → S → S * result (list string) StoreError.StoreError;
  as_result_store :
    option (LeaseRef → list string → option Z → JobResult → S →
            S * result unit StoreError.StoreError);
  as_output_store :
    option (LeaseRef → JobResult → S → S * result JobOutput StoreError.StoreError);
  as_progress_store :
    option (LeaseRef → ProgressUpdate → S → S * result JobProgress StoreError.StoreError);
}.

(** ** The attempt context *)

Record JobCtx := mkJobCtx {
  jc_lease : LeaseRef;
  jc_canceled : bool;
  jc_finished : bool;
  jc_result : option JobResult;
  jc_actual_weight : option Z;
  jc_logs : LogBuffer;
}.

#[export] Instance job_ctx_eta : Eta JobCtx := λ c,
  mkJobCtx (jc_lease c) (jc_canceled c) (jc_finished c) (jc_result c) (jc_actual_weight c)
    (jc_logs c).

Definition from_claim (c : Claim) : JobCtx :=
  mkJobCtx (lease_ref c) false false None None (mkLogBuffer [] false).

Definition report_actual_weight (actual : Z) (c : JobCtx) : JobCtx :=
  c <| jc_actual_weight := Some actual |>.

Definition record_result (schema_version : Z) (b : bytes) (c : JobCtx)
    : result unit JobError.JobError * JobCtx :=
  if schema_version =? 0
  then (Err (JobError.Other "result schema_version must be greater than zero"), c)
  else if MAX_OPAQUE_SCHEMA_VERSION <? schema_version
  then (Err (JobError.Other "result schema_version exceeds the portable signed-integer limit"), c)
  else if 32 * 1024 * 1024 <? str_len b
  then (Err (JobError.Other "result exceeds the 32 MiB limit"), c)
  else (Ok tt, c <| jc_result := Some (mkJobResult schema_version b) |>).

Section attempt.
Context {S : Type} `{WorkerStore S}.

Definition persist_output (schema_version : Z) (b : bytes) (c : JobCtx) (s : S)
    : result JobOutput JobError.JobError * S :=
  if schema_version =? 0
  then (Err (JobError.Other "output schema_version must be greater than zero"), s)
  else if MAX_OPAQUE_SCHEMA_VERSION <? schema_version
  then (Err (JobError.Other "output schema_version exceeds the portable signed-integer limit"), s)
  else if 32 * 1024 * 1024 <? str_len b
  then (Err (JobError.Other "output exceeds the 32 MiB limit"), s)
  else
    match as_output_store with
    | None => (Err (JobError.Other "mid-run output requires a store with OutputStore support"), s)
    | Some write =>
        match write (jc_lease c) (mkJobResult schema_version b) s with
        | (s, Ok o) => (Ok o, s)
        | (s, Err e) => (Err (JobError.Store e), s)
        end
    end.

Definition report_progress (current total : Z) (message : option string) (c : JobCtx) (s : S)
    : result JobProgress JobError.JobError * S :=
  let update := mkProgressUpdate current total message in
  match validate_progress update with
  | Err e => (Err (JobError.Store e), s)
  | Ok _ =>
      match as_progress_store with
      | None => (Err (JobError.Other "job progress requires a store with ProgressStore support"), s)
      | Some write =>
          match write (jc_lease c) update s with
          | (s, Ok p) => (Ok p, s)
          | (s, Err e) => (Err (JobError.Store e), s)
          end
      end
  end.

(** Handler-side lease control. *)
Definition extend_lease (by_ : duration) (c : JobCtx) (s : S)
    : result unit JobError.JobError * JobCtx * S :=
  match ws_renew [jc_lease c] by_ s with
  | (s, Err e) => (Err (JobError.Store e), c, s)
  | (s, Ok lost) =>
      if existsb (String.eqb (lr_job_id (jc_lease c))) lost
      then (Err JobError.LeaseLost, c <| jc_canceled := true |>, s)
      else (Ok tt, c, s)
  end.

Definition release (c : JobCtx) (s : S) : result unit JobError.JobError * JobCtx * S :=
  match ws_ack (jc_lease c) Outcome.RateLimited (Some "released by handler") None []
          (jc_actual_weight c) s with
  | (s, Err e) => (Err (JobError.Store e), c, s)
  | (s, Ok _) => (Ok tt, c <| jc_finished := true |>, s)
  end.
End attempt.

(** ** Tracked children

    How each child joined, in the order in which they joined. *)

(** A panic payload, downcast to a string where it is one. *)
Definition PanicPayload : Type := option string.

Definition panic_message (payload : PanicPayload) : string :=
  default "<non-string panic payload>" payload.

Module Child.
Inductive Child :=
  | Done
  | Failed (e : JobError.JobError)
  | Panicked (payload : PanicPayload)
  | Cancelled (display : string).
End Child.

Module TrackedFailure.
Inductive TrackedFailure := Error (e : JobError.JobError) | Panic (payload : PanicPayload).
End TrackedFailure.

Definition child_failure (aborting : bool) (c : Child.Child)
    : option TrackedFailure.TrackedFailure :=
  match c with
  | Child.Done => None
  | Child.Failed e => Some (TrackedFailure.Error e)
  | Child.Panicked p => Some (TrackedFailure.Panic p)
  | Child.Cancelled d =>
      if aborting then None
      else Some (TrackedFailure.Error (JobError.Other
             ("tracked task was cancelled unexpectedly: " +:+ d)%stdpp))
  end.

Fixpoint finish_loop (children : list Child.Child) (first : option TrackedFailure.TrackedFailure)
    (aborting : bool) : option TrackedFailure.TrackedFailure :=
  match children with
  | [] => first
  | c :: children =>
      match first, child_failure aborting c with
      | None, Some failure => finish_loop children (Some failure) true
      | _, _ => finish_loop children first aborting
      end
  end.

Definition tracker_finish (children : list Child.Child)
    : result unit TrackedFailure.TrackedFailure :=
  match finish_loop children None false with
  | Some failure => Err failure
  | None => Ok tt
  end.
