(* ===== verification/Worker.v ===== *)
(** * headgate: running one claim

    Models [process_one] of [crates/headgate/src/worker.rs]: dispatch, deadline, the handler
    run with its timeout, panic recovery and tracked children, the classification of the
    result into one ack, and what is announced afterwards (telemetry, lifecycle events, death
    handlers), with [ack_logged], [ack_success_with_result_logged] and the announcement
    helpers it calls.  What a handler does is a parameter: a computation over its context and
    the store that ends by returning, panicking, being cancelled or overrunning its timeout. *)

From S2P Require Import Prelude Shared Lifecycle Envelope MemStore Core Attempt.
Local Open Scope Z_scope.

(** ** Announcements *)

Module JobEventKind.
Inductive JobEventKind := Completed | Failed | Cancelled.
End JobEventKind.

Record JobEvent := mkJobEvent {
  je_kind : JobEventKind.JobEventKind;
  je_job_id : string;
  je_job_kind : string;
  je_queue : string;
  je_attempt : Z;
  je_state : string;
  je_error : option string;
}.

Module DeathReason.
Inductive DeathReason := AttemptsExhausted | Skipped | DeadlineExceeded.
End DeathReason.

Record DeathEvent := mkDeathEvent {
  de_envelope : Envelope;
  de_reason : DeathReason.DeathReason;
  de_error : string;
}.

(** What the runtime tells the outside: telemetry, the event bus and the death handlers, in
    order.  Clock readings are left out. *)
Module Emitted.
Inductive Emitted :=
  | Completed (kind : string)
  | Rejected (queue policy : string) (count : Z)
  | JobSpan (job_id kind queue : string) (attempt : Z) (outcome : string)
  | Published (ev : JobEvent)
  | Died (ev : DeathEvent).
End Emitted.

(** ** The runtime's policies and the handler *)

Record Runtime := mkRuntime {
  rt_catch_panics : bool;
  rt_is_failure : JobError.JobError → bool;
  rt_death_handlers : nat;
  rt_event_bus : bool;
}.

Module Joined.
Inductive Joined :=
  | Returned (r : result unit JobError.JobError)
  | Panicked (payload : PanicPayload)
  | Cancelled.
End Joined.

(** How the handler's task ended, whether it was still running when the timeout elapsed, and
    how its tracked children joined. *)
Record HandlerEnd := mkHandlerEnd {
  he_joined : Joined.Joined;
  he_overran : bool;
  he_children : list Child.Child;
}.

Module Processed.
Inductive Processed := Outcome (name : string) | Unwound (payload : PanicPayload).
End Processed.

(** A child failure fails the attempt only through the recovery policy. *)
Module Attempted.
Inductive Attempted :=
  | Result (r : result unit JobError.JobError)
  | Unwind (payload : PanicPayload)
  | Aborted.
End Attempted.

Section worker.
Context {S : Type} `{WorkerStore S}.
Context (duration_debug : duration → string).

Definition control_message (c : Control.Control) : string :=
  match c with
  | Control.Snooze d => ("snooze for " +:+ duration_debug d)%stdpp
  | Control.Skip => "skip: archive without retrying"
  | Control.Revoke => "revoke: drop entirely"
  | Control.RateLimited => "rate limited upstream"
  end.

Definition error_message (e : JobError.JobError) : string :=
  match e with
  | JobError.Control c => control_message c
  | JobError.LeaseLost => "lease lost; stop work immediately"
  | JobError.StaleCheckpoint expected got =>
      ("checkpoint records step `" +:+ expected +:+ "` at this position but the code ran `" +:+ got
       +:+ "` — the step set changed under the checkpoint")%stdpp
  | JobError.Codec e => codec_error_message e
  | JobError.Store e => store_error_message e
  | JobError.Other m => m
  end.

Definition publish_job_event (rt : Runtime) (kind : JobEventKind.JobEventKind) (e : Envelope)
    (state : string) (error : option string) : list Emitted.Emitted :=
  if rt_event_bus rt
  then [Emitted.Published (mkJobEvent kind (e_id e) (e_kind e) (e_queue e) (e_attempt e) state error)]
  else [].

Definition emit_death (rt : Runtime) (ev : DeathEvent) : list Emitted.Emitted :=
  replicate (rt_death_handlers rt) (Emitted.Died ev).

Definition rejected (queue : string) : list Emitted.Emitted :=
  [Emitted.Rejected queue (BlockedBy.as_str BlockedBy.RateClass) 1].

Definition ack_logged (l : LeaseRef) (outcome : Outcome.Outcome) (err : option string)
    (delay_ms : option Z) (logs : list string) (actual_weight : option Z) (s : S) : bool * S :=
  match ws_ack l outcome err delay_ms logs actual_weight s with
  | (s, Err _) => (false, s)
  | (s, Ok _) => (true, s)
  end.

Definition ack_success_with_result_logged (l : LeaseRef) (logs : list string)
    (actual_weight : option Z) (res : JobResult) (s : S) : bool * S :=
  match as_result_store with
  | None => (false, s)
  | Some ack =>
      match ack l logs actual_weight res s with
      | (s, Ok _) => (true, s)
      | (s, Err _) => (false, s)
      end
  end.

(** The timeout wrapper around the handler's future. *)
Definition timed (timeout_ms : Z) (h : HandlerEnd) : Joined.Joined :=
  if (0 <? timeout_ms) && he_overran h
  then Joined.Returned (Err (JobError.Other ("attempt timed out after " +:+ pretty timeout_ms +:+ "ms")%stdpp))
  else he_joined h.

(** From the joined task to the attempt's result: panic recovery, then the children of a
    handler that succeeded. *)
Definition attempt_result (rt : Runtime) (timeout_ms : Z) (h : HandlerEnd) : Attempted.Attempted :=
  match timed timeout_ms h with
  | Joined.Cancelled => Attempted.Aborted
  | Joined.Panicked p =>
      if rt_catch_panics rt
      then Attempted.Result (Err (JobError.Other ("panic: " +:+ panic_message p)%stdpp))
      else Attempted.Unwind p
  | Joined.Returned (Err e) => Attempted.Result (Err e)
  | Joined.Returned (Ok _) =>
      match tracker_finish (he_children h) with
      | Ok _ => Attempted.Result (Ok tt)
      | Err (TrackedFailure.Error e) => Attempted.Result (Err e)
      | Err (TrackedFailure.Panic p) =>
          if rt_catch_panics rt
          then Attempted.Result (Err (JobError.Other ("panic in tracked task: " +:+ panic_message p)%stdpp))
          else Attempted.Unwind p
      end
  end.

(** The state announced for a failed attempt. *)
Definition exhausted (e : Envelope) : bool :=
  e_max_attempts e <=? u32_saturating_add (e_attempt e) 1.

Definition settle_retry (rt : Runtime) (l : LeaseRef) (e : Envelope) (message : string)
    (logs : list string) (actual_weight : option Z) (s : S)
    : string * list Emitted.Emitted * S :=
  let '(archived, s) := ack_logged l Outcome.Retry (Some message) None logs actual_weight s in
  ("retry",
   (if archived
    then publish_job_event rt JobEventKind.Failed e
           (if exhausted e then "archived" else "retryable") (Some message)
    else [])
   ++ (if archived && exhausted e
       then emit_death rt (mkDeathEvent e DeathReason.AttemptsExhausted message) else []),
   s).

Definition settle_success (rt : Runtime) (l : LeaseRef) (e : Envelope) (c : JobCtx)
    (logs : list string) (s : S) : string * list Emitted.Emitted * S :=
  let '(persisted, s) :=
    if jc_finished c then (bool_decide (jc_result c = None), s)
    else match jc_result c with
         | Some res => ack_success_with_result_logged l logs (jc_actual_weight c) res s
         | None => ack_logged l Outcome.Success None None logs (jc_actual_weight c) s
         end in
  ("success",
   if persisted
   then Emitted.Completed (e_kind e)
        :: publish_job_event rt JobEventKind.Completed e
             (if e_retention_ms e =? 0 then "deleted" else "completed") None
   else [],
   s).

Definition settle_control (rt : Runtime) (l : LeaseRef) (e : Envelope) (c : JobCtx)
    (logs : list string) (ctl : Control.Control) (s : S) : string * list Emitted.Emitted * S :=
  match ctl with
  | Control.Snooze d =>
      let ms := wrap_i64 (as_millis d) in
      if ms =? 0
      then settle_retry rt l e "handler bug: snooze duration rounds to zero" logs
             (jc_actual_weight c) s
      else let '(_, s) := ack_logged l Outcome.Snooze None (Some ms) [] (jc_actual_weight c) s in
           ("snooze", [], s)
  | Control.Skip =>
      let message := control_message ctl in
      let '(archived, s) :=
        ack_logged l Outcome.Skip (Some message) None logs (jc_actual_weight c) s in
      ("skip",
       if archived
       then publish_job_event rt JobEventKind.Failed e "archived" (Some message)
            ++ emit_death rt (mkDeathEvent e DeathReason.Skipped message)
       else [],
       s)
  | Control.Revoke =>
      let '(cancelled, s) := ack_logged l Outcome.Revoke None None [] (jc_actual_weight c) s in
      ("revoke",
       if cancelled
       then publish_job_event rt JobEventKind.Cancelled e "deleted" (Some "revoked by handler")
       else [],
       s)
  | Control.RateLimited =>
      let '(_, s) := ack_logged l Outcome.RateLimited None None [] (jc_actual_weight c) s in
      ("rate_limited", rejected (e_queue e), s)
  end.

Definition settle_error (rt : Runtime) (l : LeaseRef) (e : Envelope) (c : JobCtx)
    (logs : list string) (err : JobError.JobError) (s : S) : string * list Emitted.Emitted * S :=
  match err with
  | JobError.Control ctl => settle_control rt l e c logs ctl s
  | JobError.LeaseLost => ("lease_lost", [], s)
  | JobError.StaleCheckpoint _ _ | JobError.Codec _ =>
      let '(persisted, s) :=
        ack_logged l Outcome.Undecodable (Some (error_message err)) None logs (jc_actual_weight c) s in
      ("undecodable",
       if persisted
       then publish_job_event rt JobEventKind.Failed e "undecodable" (Some (error_message err))
       else [],
       s)
  | _ =>
      if rt_is_failure rt err
      then settle_retry rt l e (error_message err) logs (jc_actual_weight c) s
      else
        let '(_, s) :=
          ack_logged l Outcome.RateLimited (Some (error_message err)) None [] (jc_actual_weight c) s in
        ("rate_limited", rejected (e_queue e), s)
  end.

Definition span (l : LeaseRef) (e : Envelope) (outcome : string) : Emitted.Emitted :=
  Emitted.JobSpan (lr_job_id l) (e_kind e) (e_queue e) (e_attempt e) outcome.

Definition process_one (registry : string → option (JobCtx → S → HandlerEnd * JobCtx * S))
    (rt : Runtime) (wall_ms : Z) (claim : Claim) (ctx : JobCtx) (s : S)
    : Processed.Processed * list Emitted.Emitted * S :=
  let l := lease_ref claim in
  let e := c_envelope claim in
  match registry (e_kind e) with
  | None =>
      let '(_, s) := ack_logged l Outcome.Snooze (Some "no handler registered") (Some 30000) [] None s in
      (Processed.Outcome "snooze", [span l e "snooze"], s)
  | Some handler =>
      if (0 <? e_deadline_ms e) && (e_deadline_ms e <? wall_ms) then
        let '(archived, s) :=
          ack_logged l Outcome.Skip (Some "deadline exceeded") None [] None s in
        (Processed.Outcome "skip",
         (if archived
          then publish_job_event rt JobEventKind.Failed e "archived" (Some "deadline exceeded")
               ++ emit_death rt (mkDeathEvent e DeathReason.DeadlineExceeded "deadline exceeded")
          else [])
         ++ [span l e "skip"],
         s)
      else
        let '(h, ctx, s) := handler ctx s in
        match attempt_result rt (e_timeout_ms e) h with
        | Attempted.Aborted => (Processed.Outcome "aborted", [], s)
        | Attempted.Unwind p => (Processed.Unwound p, [], s)
        | Attempted.Result r =>
            let '(logs, _) := log_take (jc_logs ctx) in
            let '(name, evs, s) :=
              match r with
              | Ok _ => settle_success rt l e ctx logs s
              | Err err => settle_error rt l e ctx logs err s
              end in
            (Processed.Outcome name, evs ++ [span l e name], s)
        end
  end.
End worker.
