(* ===== verification/WorkerSpec.v ===== *)
(** * What a worker announces is what the store holds

    Theorems about [process_one]: over the in-memory store, what is published on the event
    bus or handed to a death handler is the state the job durably has, nothing is announced
    for a lease that is no longer held, and every archived job reaches the death handlers;
    over any store, an attempt acks at most once and its span comes last.  The last section
    records how the handler-side [release] escapes this discipline. *)

From S2P Require Import Prelude Shared Lifecycle Envelope MemStore MemAdmit MemInv MemLease Core Attempt Worker.
Local Open Scope Z_scope.

(** ** The in-memory store as a worker's store *)

#[export] Instance mem_worker (now : Z) (rp : RetryPolicy) : WorkerStore Inner := {|
  ws_admit req i := mem_admit now (job_ids i) req i;
  ws_ack l o err d logs aw i := ack_attempt_with_actual_weight now rp l o err d logs aw i;
  ws_renew leases lease i := renew now leases lease i;
  as_result_store := Some (λ l logs aw res i, ack_success_with_result now l logs aw res i);
  as_output_store := Some (λ l out i, write_job_output now l out i);
  as_progress_store := Some (λ l u i, write_job_progress now l u i);
|}.

(** The durable state of a job under the name it is announced with: ["deleted"] is the
    absence of the row, any other state a row without a lease. *)
Definition announced (st : string) (id : string) (i : Inner) : Prop :=
  if String.eqb st "deleted" then jobs i !! id = None
  else ∃ j, jobs i !! id = Some j ∧ mj_state j = st ∧ mj_lease_id j = "".

(** Nothing in [evs] is about a lifecycle change. *)
Definition quiet (evs : list Emitted.Emitted) : Prop :=
  ∀ x, x ∈ evs → match x with
                 | Emitted.Published _ | Emitted.Died _ | Emitted.Completed _ => False
                 | _ => True
                 end.

Record faithful (rt : Runtime) (l : LeaseRef) (i : Inner) (evs : list Emitted.Emitted) (i' : Inner)
    : Prop := {
  fa_published ev : Emitted.Published ev ∈ evs →
    je_job_id ev = lr_job_id l ∧ announced (je_state ev) (lr_job_id l) i';
  fa_died ev : Emitted.Died ev ∈ evs →
    e_id (de_envelope ev) = lr_job_id l ∧ announced "archived" (lr_job_id l) i';
  fa_archived : identity i l = Ok tt → announced "archived" (lr_job_id l) i' →
    rt_death_handlers rt ≠ 0%nat → ∃ ev, Emitted.Died ev ∈ evs;
  fa_rejected : identity i l ≠ Ok tt → quiet evs ∧ i' = i;
}.

Definition state_ctx (rp : RetryPolicy) (e : Envelope) : TransitionCtx :=
  mkCtx (e_attempt e) (e_max_attempts e) (e_crash_attempt e) (rp_crash_limit rp) (e_retention_ms e).

(** ** Acks over the in-memory store *)

Section mem.
Context (now : Z) (rp : RetryPolicy) (dbg : duration → string).
#[local] Existing Instance mem_worker.
Local Notation ack := (ack_logged (H := mem_worker now rp)).

Lemma moved_store_jobs id i s j : jobs (moved_store id i s j) !! id = Some j.
Proof. unfold moved_store, upd; simpl. apply lookup_insert_eq. Qed.

Lemma remove_job_jobs id i : jobs (remove_job id (release_unique id i)) !! id = None.
Proof. unfold remove_job, upd; simpl. apply lookup_delete_eq. Qed.

Lemma state_name_not_deleted s : s ≠ State.Deleted → String.eqb (state_name s) "deleted" = false.
Proof. by destruct s. Qed.

Lemma outcome_announced o l e i j i' :
  mj_env j = e → outcome_applied rp o (lr_job_id l) i j i' →
  announced (state_name (transition State.Running o (state_ctx rp e))) (lr_job_id l) i'.
Proof.
  intros He. unfold outcome_applied, announced. subst e. fold (ctx_of rp j).
  change (state_ctx rp (mj_env j)) with (ctx_of rp j). case_decide as Hd.
  - rewrite Hd. intros ->. apply remove_job_jobs.
  - rewrite state_name_not_deleted by done. intros (j' & -> & Hs & Hm & _).
    exists j'. rewrite moved_store_jobs. split_and!; [done|done|apply Hm].
Qed.

Lemma ack_announces o err d logs aw l e i i' ok :
  inner_ok i → lease_held l e i → ack l o err d logs aw i = (ok, i') →
  if ok then announced (state_name (transition State.Running o (state_ctx rp e))) (lr_job_id l) i'
  else ¬ announced "archived" (lr_job_id l) i'.
Proof.
  intros Hok (j & Hj & Hh & He). unfold ack_logged. simpl.
  destruct (ack_attempt_with_actual_weight _ _ _ _ _ _ _ _ _) as [i2 res] eqn:Ea.
  intros Hr. apply ack_spec in Ea as [(Hid & _)|(j0 & r & j' & Hj0 & _ & Ht & _ & Hm)]; [| |done].
  { assert (identity i l = Ok tt) by (apply identity_ok; eauto). congruence. }
  simplify_eq. destruct res; simplify_eq.
  - eapply outcome_announced; [|done]. apply (jt_env _ _ Ht).
  - intros (j1 & Hj1 & Hs & _). unfold reconciled, upd in Hj1. simpl in Hj1.
    rewrite lookup_insert_eq in Hj1. simplify_eq. rewrite (jt_state _ _ Ht) in Hs.
    apply holds_lease_true in Hh as [Hrun _]. congruence.
Qed.

Lemma ack_rejected o err d logs aw l i :
  identity i l ≠ Ok tt → ack l o err d logs aw i = (false, i).
Proof.
  intros Hid. unfold ack_logged. simpl. unfold ack_attempt_with_actual_weight.
  destruct (identity_cases i l) as [?|E]; [done|]. by rewrite E.
Qed.

Lemma ack_result_announces logs aw res l e i i' ok :
  inner_ok i → lease_held l e i →
  ack_success_with_result_logged (H := mem_worker now rp) l logs aw res i = (ok, i') →
  if ok then announced (if e_retention_ms e =? 0 then "deleted" else "completed") (lr_job_id l) i'
  else i' = i.
Proof.
  intros Hok (j & Hj & Hh & He). unfold ack_success_with_result_logged. simpl.
  unfold ack_success_with_result.
  destruct (r_schema_version res =? 0); [by intros [= <- <-]|].
  destruct (MAX_OPAQUE_SCHEMA_VERSION <? r_schema_version res); [by intros [= <- <-]|].
  destruct (32 * 1024 * 1024 <? str_len (r_bytes res)); [by intros [= <- <-]|].
  assert (identity i l = Ok tt) as -> by (apply identity_ok; eauto).
  destruct (reconcile_weight_spec now aw (lr_job_id l) i j Hj) as (r & j' & -> & Ht).
  fold (reconciled (lr_job_id l) i r j'). intros [= <- <-].
  pose proof (jo_times _ _ (so_jobs _ _ Hok _ _ Hj)) as [Hret _].
  rewrite (ack_success_spec _ _ _ _ j');
    [|apply lookup_insert_eq|by rewrite (jt_env _ _ Ht)].
  rewrite (jt_env _ _ Ht), He in *.
  destruct (Z.ltb_spec 0 (e_retention_ms e)), (Z.eqb_spec (e_retention_ms e) 0); try lia.
  - eexists. split; [apply moved_store_jobs|]. by destruct (log_line logs).
  - apply remove_job_jobs.
Qed.

Lemma ack_result_rejected logs aw res l i :
  identity i l ≠ Ok tt →
  ack_success_with_result_logged (H := mem_worker now rp) l logs aw res i = (false, i).
Proof.
  intros Hid. unfold ack_success_with_result_logged. simpl. unfold ack_success_with_result.
  repeat (case_if; [done|]). destruct (identity_cases i l) as [?|E]; [done|]. by rewrite E.
Qed.
(** ** Settling a result *)

Lemma announced_archived st id i :
  announced st id i → announced "archived" id i → st = "archived".
Proof.
  unfold announced. simpl. destruct (String.eqb_spec st "deleted").
  - intros -> (j & ? & _). done.
  - intros (j & Hj & <- & _) (j' & Hj' & ? & _). congruence.
Qed.

(** What may be said once the ack of state [st] is accepted. *)
Record tells (rt : Runtime) (l : LeaseRef) (st : string) (evs : list Emitted.Emitted) : Prop := {
  te_published ev : Emitted.Published ev ∈ evs → je_job_id ev = lr_job_id l ∧ je_state ev = st;
  te_died ev : Emitted.Died ev ∈ evs → e_id (de_envelope ev) = lr_job_id l ∧ st = "archived";
  te_archived : st = "archived" → rt_death_handlers rt ≠ 0%nat → ∃ ev, Emitted.Died ev ∈ evs;
}.

Lemma told_faithful rt l i evs st i' :
  identity i l = Ok tt → tells rt l st evs → announced st (lr_job_id l) i' → faithful rt l i evs i'.
Proof.
  intros Hid [Hp Hd Ha] Hst. constructor; [| | |done].
  - intros ev [? ->]%Hp. done.
  - intros ev [? ->]%Hd. done.
  - intros _ Harch ?. apply Ha; [|done]. by eapply announced_archived.
Qed.

Lemma silent_faithful rt l i evs i' :
  quiet evs → (identity i l = Ok tt → ¬ announced "archived" (lr_job_id l) i') →
  (identity i l ≠ Ok tt → i' = i) → faithful rt l i evs i'.
Proof.
  intros Hq Hn Hr. constructor.
  - intros ev H. by apply Hq in H.
  - intros ev H. by apply Hq in H.
  - intros Hid Harch. by destruct (Hn Hid).
  - intros. auto.
Qed.

Lemma running_not_archived l e i : lease_held l e i → ¬ announced "archived" (lr_job_id l) i.
Proof.
  intros (j & Hj & [Hr _]%holds_lease_true & _) (j' & Hj' & Hs & _). congruence.
Qed.

(** The lease is held with envelope [e], or it is not held. *)
Definition tracked (l : LeaseRef) (e : Envelope) (i : Inner) : Prop :=
  inner_ok i ∧ (lease_held l e i ∨ identity i l ≠ Ok tt).

Lemma untouched_faithful rt l e i evs : tracked l e i → quiet evs → faithful rt l i evs i.
Proof.
  intros [_ Ht] Hq. apply silent_faithful; [done| |done].
  intros Hid. destruct Ht; [by eapply running_not_archived|done].
Qed.

Lemma ack_faithful rt l e o err d logs aw i ok i' evs :
  tracked l e i → ack l o err d logs aw i = (ok, i') →
  (if ok then tells rt l (state_name (transition State.Running o (state_ctx rp e))) evs else quiet evs) →
  faithful rt l i evs i'.
Proof.
  intros [Hok [Hh|Hid]] Ha Ht.
  - pose proof (ack_announces _ _ _ _ _ _ _ _ _ _ Hok Hh Ha) as Hs.
    assert (identity i l = Ok tt) by (destruct Hh as (j & ? & ? & _); apply identity_ok; eauto).
    destruct ok; [by eapply told_faithful|by apply silent_faithful].
  - rewrite ack_rejected in Ha by done. simplify_eq. by apply silent_faithful.
Qed.

Lemma quiet_nil : quiet [].
Proof. intros x []%elem_of_nil. Qed.

Lemma tells_nothing rt l st : st ≠ "archived" → tells rt l st [].
Proof. intros. constructor; [by intros ? []%elem_of_nil..|done]. Qed.

Lemma published_in rt kind e st err x :
  x ∈ publish_job_event rt kind e st err →
  x = Emitted.Published (mkJobEvent kind (e_id e) (e_kind e) (e_queue e) (e_attempt e) st err).
Proof. unfold publish_job_event. case_if; [by intros ?%list_elem_of_singleton|by intros []%elem_of_nil]. Qed.

Lemma died_in rt ev x : x ∈ emit_death rt ev ↔ x = Emitted.Died ev ∧ rt_death_handlers rt ≠ 0%nat.
Proof. unfold emit_death. rewrite elem_of_replicate. naive_solver. Qed.

(** One lifecycle event, and the death handlers exactly for an archived job. *)
Lemma tells_event rt l e kind st err dv (dead : bool) :
  e_id e = lr_job_id l → de_envelope dv = e → dead = String.eqb st "archived" →
  tells rt l st (publish_job_event rt kind e st err ++ (if dead then emit_death rt dv else [])).
Proof.
  intros Hid <- ->. constructor.
  - intros ev [H|H]%elem_of_app; [by apply published_in in H as [= ->]|].
    destruct (String.eqb st "archived"); [by apply died_in in H as [[=] _]|by apply elem_of_nil in H].
  - intros ev [H|H]%elem_of_app; [by apply published_in in H|].
    destruct (String.eqb_spec st "archived"); [by apply died_in in H as [[= ->] _]|by apply elem_of_nil in H].
  - intros -> Hn. exists dv. apply elem_of_app. right. by apply died_in.
Qed.

Lemma tells_published rt l e kind st err :
  e_id e = lr_job_id l → st ≠ "archived" → tells rt l st (publish_job_event rt kind e st err).
Proof.
  intros He Hst. rewrite <-(app_nil_r (publish_job_event _ _ _ _ _)).
  apply (tells_event rt l e kind st err (mkDeathEvent e DeathReason.Skipped "") false); [done|done|].
  by destruct (String.eqb_spec st "archived").
Qed.

Lemma quiet_rejected q : quiet (rejected q).
Proof. by intros x ->%list_elem_of_singleton. Qed.

Lemma tells_rejected rt l st q : st ≠ "archived" → tells rt l st (rejected q).
Proof. intros. by constructor; [intros ? [=]%list_elem_of_singleton..|]. Qed.
Context (rt : Runtime) (l : LeaseRef) (e : Envelope).
Hypothesis (Hid : e_id e = lr_job_id l) (Hattempt : 0 ≤ e_attempt e < u32_max).

Lemma retry_state :
  state_name (transition State.Running Outcome.Retry (state_ctx rp e))
  = if exhausted e then "archived" else "retryable".
Proof.
  simpl. rewrite u32_succ by done. unfold exhausted, u32_saturating_add.
  rewrite Z.min_r by lia.
  by destruct (Z.ltb_spec (e_attempt e + 1) (e_max_attempts e)),
    (Z.leb_spec (e_max_attempts e) (e_attempt e + 1)); try lia.
Qed.

Lemma held_retention i : inner_ok i → lease_held l e i → 0 ≤ e_retention_ms e.
Proof. intros Hok (j & Hj & _ & <-). apply (so_jobs _ _ Hok _ _ Hj). Qed.

Lemma settle_retry_faithful msg logs aw i name evs i' :
  tracked l e i → settle_retry (H := mem_worker now rp) rt l e msg logs aw i = (name, evs, i') →
  faithful rt l i evs i'.
Proof.
  intros Ht. unfold settle_retry. destruct (ack _ _ _ _ _ _ _) as [ok i1] eqn:Ea.
  intros [= <- <- <-]. eapply ack_faithful; [done|done|]. destruct ok; [|by apply quiet_nil].
  rewrite retry_state. rewrite andb_true_l. apply tells_event; [done|done|by destruct (exhausted e)].
Qed.

Lemma settle_success_faithful c logs i name evs i' :
  tracked l e i → jc_finished c = false →
  settle_success (H := mem_worker now rp) rt l e c logs i = (name, evs, i') →
  faithful rt l i evs i'.
Proof.
  intros Ht Hf. unfold settle_success. rewrite Hf.
  set (st := if e_retention_ms e =? 0 then "deleted" else "completed").
  assert (∀ evs, tells rt l st evs → tells rt l st (Emitted.Completed (e_kind e) :: evs)) as Hcons.
  { intros evs' [Hp Hd Ha]. constructor; [intros ? [[=]|?]%elem_of_cons; auto..|].
    intros ? Hn. destruct (Ha ltac:(done) Hn) as [ev ?]. exists ev. by constructor. }
  assert (tells rt l st (Emitted.Completed (e_kind e)
    :: publish_job_event rt JobEventKind.Completed e st None)) as Htell.
  { apply Hcons, tells_published; [done|]. unfold st. by case_if. }
  destruct (jc_result c) as [res|].
  - destruct (ack_success_with_result_logged _ _ _ _ _) as [ok i1] eqn:Ea. intros [= <- <- <-].
    destruct Ht as [Hok [Hh|Hn]].
    + pose proof (ack_result_announces _ _ _ _ _ _ _ _ Hok Hh Ea) as Hs.
      assert (identity i l = Ok tt) by (destruct Hh as (j & ? & ? & _); apply identity_ok; eauto).
      destruct ok; [by eapply told_faithful|]. subst i1. by apply (untouched_faithful rt l e); [split; eauto|apply quiet_nil].
    + rewrite ack_result_rejected in Ea by done. simplify_eq. apply (untouched_faithful rt l e); [|apply quiet_nil].
      split; eauto.
  - destruct (ack _ _ _ _ _ _ _) as [ok i1] eqn:Ea. intros [= <- <- <-].
    pose proof Ht as [Hok [Hh|Hn]].
    + eapply ack_faithful; [done|done|]. destruct ok; [|by apply quiet_nil]. simpl.
      pose proof (held_retention _ Hok Hh).
      replace (state_name _) with st; [done|]. unfold st.
      by destruct (Z.ltb_spec 0 (e_retention_ms e)), (Z.eqb_spec (e_retention_ms e) 0); try lia.
    + rewrite ack_rejected in Ea by done. simplify_eq. by apply (untouched_faithful rt l e); [|apply quiet_nil].
Qed.

Lemma settle_error_faithful c logs err i name evs i' :
  tracked l e i → settle_error (H := mem_worker now rp) dbg rt l e c logs err i = (name, evs, i') →
  faithful rt l i evs i'.
Proof.
  intros Ht. pose proof quiet_nil as Hq. pose proof (quiet_rejected (e_queue e)) as Hr.
  destruct err as [[d| | |]| | | | |]; simpl; repeat case_match; intros;
    simplify_eq; eauto using settle_retry_faithful;
    try (by eapply untouched_faithful);
    (eapply ack_faithful; [done|done|]); repeat case_match; simplify_eq/=;
    eauto using tells_nothing, tells_published, tells_rejected; try (by apply tells_rejected);
    try (by apply tells_nothing); try (by apply tells_published);
    by apply (tells_event rt l e _ _ _ _ true).
Qed.
End mem.

(** ** Any store: one ack, and the span last

    [Traced S] is the store [S] with a record of every ack call and whether it succeeded. *)

Record AckCall := mkAckCall { ca_lease : LeaseRef; ca_outcome : Outcome.Outcome; ca_ok : bool }.

Definition Traced (S : Type) : Type := S * list AckCall.

Definition traced {S A} (l : LeaseRef) (o : Outcome.Outcome)
    (f : S → S * result A StoreError.StoreError) (t : Traced S)
    : Traced S * result A StoreError.StoreError :=
  let '(s, r) := f t.1 in ((s, t.2 ++ [mkAckCall l o (is_ok r)]), r).

Definition untraced {S A} (f : S → S * A) (t : Traced S) : Traced S * A :=
  let '(s, a) := f t.1 in ((s, t.2), a).

Definition traced_store {S} (W : WorkerStore S) : WorkerStore (Traced S) := {|
  ws_admit req := untraced (ws_admit req);
  ws_ack l o err d logs aw := traced l o (ws_ack l o err d logs aw);
  ws_renew leases lease := untraced (ws_renew leases lease);
  as_result_store :=
    (λ f l logs aw res, traced l Outcome.Success (f l logs aw res)) <$> as_result_store;
  as_output_store := (λ f l out, untraced (f l out)) <$> as_output_store;
  as_progress_store := (λ f l u, untraced (f l u)) <$> as_progress_store;
|}.

Definition lift_handler {S} (h : JobCtx → S → HandlerEnd * JobCtx * S)
    (c : JobCtx) (t : Traced S) : HandlerEnd * JobCtx * Traced S :=
  let '(e, c, s) := h c t.1 in (e, c, (s, t.2)).

Definition is_span (x : Emitted.Emitted) : bool :=
  match x with Emitted.JobSpan _ _ _ _ _ => true | _ => false end.

(** Some lifecycle change is announced. *)
Definition loud (x : Emitted.Emitted) : bool :=
  match x with
  | Emitted.Published _ | Emitted.Died _ | Emitted.Completed _ => true
  | _ => false
  end.

(** The calls [tr] of an attempt under lease [l] and what was said about it. *)
Record one_ack (l : LeaseRef) (finished : bool) (evs : list Emitted.Emitted) (tr : list AckCall)
    : Prop := {
  oa_once : (length tr ≤ 1)%nat;
  oa_lease call : call ∈ tr → ca_lease call = l;
  oa_loud : existsb loud evs = true → finished = true ∨ ∃ o, tr = [mkAckCall l o true];
  oa_span : existsb is_span evs = false;
}.

Section traced.
Context {S : Type} (W : WorkerStore S) (dbg : duration → string) (rt : Runtime).
Local Notation ack := (ack_logged (H := traced_store W)).

(** An ack adds its own record and nothing else. *)
Lemma ack_traced l o err d logs aw (t : Traced S) :
  ∃ ok s, ack_logged l o err d logs aw t.1 = (ok, s)
    ∧ ack l o err d logs aw t = (ok, (s, t.2 ++ [mkAckCall l o ok])).
Proof.
  unfold ack_logged. simpl. unfold traced. destruct (ws_ack _ _ _ _ _ _ _) as [s [[]|]]; simpl; eauto.
Qed.

Lemma ack_result_traced l logs aw res (t : Traced S) :
  ∃ ok s tr, ack_success_with_result_logged l logs aw res t.1 = (ok, s)
    ∧ ack_success_with_result_logged (H := traced_store W) l logs aw res t = (ok, (s, t.2 ++ tr))
    ∧ (tr = [] ∧ ok = false ∨ tr = [mkAckCall l Outcome.Success ok]).
Proof.
  unfold ack_success_with_result_logged. simpl. destruct (as_result_store (WorkerStore := W)) as [f|]; simpl.
  - unfold traced. destruct (f _ _ _ _ _) as [s [[]|]]; simpl; eauto 10.
  - exists false, t.1, []. rewrite app_nil_r. destruct t. auto.
Qed.

Lemma one_ack_intro l fin evs o ok :
  existsb is_span evs = false → (ok = false → existsb loud evs = false) →
  one_ack l fin evs [mkAckCall l o ok].
Proof.
  intros Hs Hl. constructor; [simpl; lia|by intros call ->%list_elem_of_singleton| |done].
  destruct ok; [by eauto|]. intros H. by rewrite Hl in H.
Qed.

Lemma one_ack_none l fin evs :
  existsb is_span evs = false → (fin = false → existsb loud evs = false) → one_ack l fin evs [].
Proof.
  intros Hs Hl. constructor; [simpl; lia|by intros call []%elem_of_nil| |done].
  intros H. destruct fin; [by left|]. by rewrite Hl in H.
Qed.

Lemma no_span_publish kind e st err : existsb is_span (publish_job_event rt kind e st err) = false.
Proof. unfold publish_job_event. by case_if. Qed.

Lemma no_span_death ev : existsb is_span (emit_death rt ev) = false.
Proof. unfold emit_death. by induction (rt_death_handlers rt). Qed.

Ltac no_span :=
  rewrite ?existsb_app, ?no_span_publish, ?no_span_death; simpl;
  rewrite ?existsb_app, ?no_span_publish, ?no_span_death; done.

(** Tracing an attempt records its acks and changes nothing else. *)
Lemma settle_retry_one l e msg logs aw (t : Traced S) name evs t' :
  t.2 = [] → settle_retry (H := traced_store W) rt l e msg logs aw t = (name, evs, t') →
  settle_retry rt l e msg logs aw t.1 = (name, evs, t'.1) ∧ one_ack l false evs t'.2.
Proof.
  intros Hn. unfold settle_retry.
  destruct (ack_traced l Outcome.Retry (Some msg) None logs aw t) as (ok & s & -> & ->).
  intros [= <- <- <-]. split; [done|]. simpl. rewrite Hn. apply one_ack_intro.
  - destruct ok, (exhausted e); no_span.
  - by intros ->.
Qed.

Lemma settle_success_one l e c logs (t : Traced S) name evs t' :
  t.2 = [] → settle_success (H := traced_store W) rt l e c logs t = (name, evs, t') →
  settle_success rt l e c logs t.1 = (name, evs, t'.1) ∧ one_ack l (jc_finished c) evs t'.2.
Proof.
  intros Hn. unfold settle_success. destruct (jc_finished c).
  { intros [= <- <- <-]. split; [done|]. rewrite Hn. apply one_ack_none; [|done].
    case_bool_decide; [no_span|done]. }
  destruct (jc_result c) as [res|].
  - destruct (ack_result_traced l logs (jc_actual_weight c) res t) as (ok & s & tr & -> & -> & Ht).
    intros [= <- <- <-]. split; [done|]. simpl. rewrite Hn.
    destruct Ht as [[-> ->] | ->]; [by apply one_ack_none|].
    apply one_ack_intro; [destruct ok; no_span|by intros ->].
  - destruct (ack_traced l Outcome.Success None None logs (jc_actual_weight c) t) as (ok & s & -> & ->).
    intros [= <- <- <-]. split; [done|]. simpl. rewrite Hn.
    apply one_ack_intro; [destruct ok; no_span|by intros ->].
Qed.

Lemma settle_error_one l e c logs err (t : Traced S) name evs t' :
  t.2 = [] → settle_error (H := traced_store W) dbg rt l e c logs err t = (name, evs, t') →
  settle_error dbg rt l e c logs err t.1 = (name, evs, t'.1) ∧ one_ack l false evs t'.2.
Proof.
  intros Hn. destruct err as [[d| | |]| | | | |]; simpl; try case_if; eauto using settle_retry_one;
    try match goal with
    | |- context [ack_logged (H := traced_store W) l ?o ?er ?d ?lg ?aw t] =>
        destruct (ack_traced l o er d lg aw t) as (ok & s & -> & ->)
    end; intros [= <- <- <-]; (split; [done|]); rewrite ?Hn; cbn [fst snd]; rewrite ?Hn;
    first [apply one_ack_none; [done|done]
          |apply one_ack_intro; [destruct ok; no_span|by intros ->]].
Qed.

Lemma one_ack_weaken l fin evs tr : one_ack l false evs tr → one_ack l fin evs tr.
Proof. intros [? ? Hl ?]. constructor; [done..| |done]. intros [?|?]%Hl; [done|by right]. Qed.

Lemma settle_error_name l e c logs err (s : S) :
  String.eqb (settle_error dbg rt l e c logs err s).1.1 "aborted" = false.
Proof.
  destruct err as [[d| | |]| | | | |]; simpl; unfold settle_retry;
    repeat match goal with |- context [let '(_, _) := ?x in _] => destruct x end;
    repeat case_if; repeat match goal with |- context [let '(_, _) := ?x in _] => destruct x end; done.
Qed.

Lemma settle_success_name l e c logs (s : S) :
  (settle_success rt l e c logs s).1.1 = "success".
Proof.
  unfold settle_success.
  by match goal with |- context [let '(_, _) := ?x in _] => destruct x end.
Qed.

(** The span that closes an attempt, if it has one. *)
Definition closing (claim : Claim) (out : Processed.Processed) : list Emitted.Emitted :=
  match out with
  | Processed.Outcome name =>
      if String.eqb name "aborted" then [] else [span (lease_ref claim) (c_envelope claim) name]
  | Processed.Unwound _ => []
  end.

Definition finished_by (registry : string → option (JobCtx → S → HandlerEnd * JobCtx * S))
    (claim : Claim) (s : S) : bool :=
  match registry (e_kind (c_envelope claim)) with
  | Some h => jc_finished (h (from_claim claim) s).1.2
  | None => false
  end.
End traced.

(** C15.  On every store, one attempt settles its job at most once.  Recording the ack calls
    changes nothing of what [process_one] returns, announces or leaves in the store, and the
    record has at most one call, under the claim's own lease.  A completion, a lifecycle event
    or a death is announced only when that call succeeded, or when the handler itself already
    settled the job.  The attempt's span is announced once, last; an aborted or unwinding
    attempt has none. *)
Theorem attempt_settles_at_most_once {S} (W : WorkerStore S) (dbg : duration → string)
    (registry : string → option (JobCtx → S → HandlerEnd * JobCtx * S)) (rt : Runtime)
    (wall : Z) (claim : Claim) (s : S) out evs t :
  process_one (H := traced_store W) dbg (λ k, lift_handler <$> registry k) rt wall claim
    (from_claim claim) (s, []) = (out, evs, t) →
  process_one dbg registry rt wall claim (from_claim claim) s = (out, evs, t.1)
  ∧ ∃ said, evs = said ++ closing claim out
      ∧ one_ack (lease_ref claim) (finished_by registry claim s) said t.2.
Proof.
  unfold process_one, finished_by. destruct (registry (e_kind (c_envelope claim))) as [h|]; cbn [fmap option_fmap option_map].
  2:{ match goal with |- context [ack_logged ?l ?o ?er ?d ?lg ?aw (s, [])] =>
        destruct (ack_traced W l o er d lg aw (s, [])) as (ok & s' & E & ->) end.
      simpl in E. rewrite E. intros [= <- <- <-]. split; [done|]. exists [].
      split; [done|]. by apply one_ack_intro. }
  case_if.
  { match goal with |- context [ack_logged ?l ?o ?er ?d ?lg ?aw (s, [])] =>
        destruct (ack_traced W l o er d lg aw (s, [])) as (ok & s' & E & ->) end.
    simpl in E. rewrite E. intros [= <- <- <-]. split; [done|]. eexists. split; [done|].
    apply one_ack_intro; [|by intros ->].
    destruct ok; rewrite ?existsb_app, ?no_span_publish, ?no_span_death; done. }
  unfold lift_handler. cbn [fst snd]. destruct (h (from_claim claim) s) as [[he c] s1]; cbn [fst snd].
  destruct (attempt_result rt _ he) as [r|p|].
  - unfold log_take. destruct r as [[]|err].
    + destruct (settle_success _ _ _ _ _ _) as [[name said] t'] eqn:E.
      intros [= <- <- <-]. apply settle_success_one in E as [E Hone]; [|done].
      simpl in E. rewrite E. split; [done|]. exists said. split; [|done]. simpl.
      pose proof (settle_success_name W rt (lease_ref claim) (c_envelope claim) c (lb_lines (jc_logs c)) s1) as Hn.
      rewrite E in Hn. simpl in Hn. by subst name.
    + destruct (settle_error _ _ _ _ _ _ _ _) as [[name said] t'] eqn:E.
      intros [= <- <- <-]. apply settle_error_one in E as [E Hone]; [|done].
      simpl in E. rewrite E. split; [done|]. exists said. split; [|by apply one_ack_weaken]. simpl.
      pose proof (settle_error_name W dbg rt (lease_ref claim) (c_envelope claim) c (lb_lines (jc_logs c)) err s1) as Hn.
      rewrite E in Hn. simpl in Hn. by rewrite Hn.
  - intros [= <- <- <-]. split; [done|]. exists []. split; [done|]. by apply one_ack_none.
  - intros [= <- <- <-]. split; [done|]. exists []. split; [done|]. by apply one_ack_none.
Qed.

(** ** Announcements over the in-memory store *)

(** The store when the runtime acks: the handler has run, unless the job was not dispatched. *)
Definition at_ack (registry : string → option (JobCtx → Inner → HandlerEnd * JobCtx * Inner))
    (wall : Z) (claim : Claim) (i : Inner) : Inner :=
  let e := c_envelope claim in
  match registry (e_kind e) with
  | Some h =>
      if (0 <? e_deadline_ms e) && (e_deadline_ms e <? wall) then i else (h (from_claim claim) i).2
  | None => i
  end.

Lemma span_faithful rt l i evs i' e name :
  faithful rt l i evs i' → faithful rt l i (evs ++ [span l e name]) i'.
Proof.
  assert (∀ x, x ∈ evs ++ [span l e name] → x ∈ evs ∨ x = span l e name) as Hin.
  { intros x [?|?%list_elem_of_singleton]%elem_of_app; auto. }
  intros [Hp Hd Ha Hr]. constructor.
  - intros ev [?|[=]]%Hin. auto.
  - intros ev [?|[=]]%Hin. auto.
  - intros ? ? ?. destruct Ha as [ev ?]; [done..|]. exists ev. apply elem_of_app. by left.
  - intros [Hq ?]%Hr. split; [|done]. intros x [?| ->]%Hin; [by apply Hq|done].
Qed.

Lemma handler_tracked l e i i' :
  inner_ok i → lease_held l e i → rtc (keeps_job (lr_job_id l)) i i' → tracked l e i'.
Proof.
  intros Hok Hh Hr. destruct (lease_held_run l e i i') as [? [?|Ho]]; [by auto..|by split; auto|].
  split; [done|]. right. apply lease_over_rejected in Ho. congruence.
Qed.

(** C14.  Over the in-memory store, what a worker announces is what the store holds.  For a
    claim whose lease is held when the attempt starts, with counters below their maxima, and a
    handler that leaves settling to the worker (it neither completes the job in a transaction
    of its own nor releases it), whatever runs on the store meanwhile short of removing this
    job's row: a lifecycle event is published only with the state the job durably has after the
    attempt (["deleted"] being the absence of the row); a death handler is called only for, and
    if there is one always for, a job this attempt archived; and when the lease is no longer
    held at the time of the ack, nothing is announced and the store is left as it was.  A
    handler that releases its job is outside: [released_job_is_announced_completed]. *)
Theorem announcements_match_the_store now rp (dbg : duration → string)
    (registry : string → option (JobCtx → Inner → HandlerEnd * JobCtx * Inner)) (rt : Runtime)
    (wall : Z) (claim : Claim) (i : Inner) out evs i' :
  inner_ok i → lease_held (lease_ref claim) (c_envelope claim) i →
  0 ≤ e_attempt (c_envelope claim) < u32_max →
  (∀ h, registry (e_kind (c_envelope claim)) = Some h →
     rtc (keeps_job (e_id (c_envelope claim))) i (h (from_claim claim) i).2
     ∧ jc_finished (h (from_claim claim) i).1.2 = false) →
  process_one (H := mem_worker now rp) dbg registry rt wall claim (from_claim claim) i
    = (out, evs, i') →
  faithful rt (lease_ref claim) (at_ack registry wall claim i) evs i'.
Proof.
  intros Hok Hh Hat Hreg. unfold process_one, at_ack.
  assert (tracked (lease_ref claim) (c_envelope claim) i) as Ht by (split; auto).
  destruct (registry (e_kind (c_envelope claim))) as [h|].
  2:{ destruct (ack_logged _ _ _ _ _ _ _) as [ok i1] eqn:Ea. intros [= <- <- <-].
      apply (span_faithful _ _ _ []). eapply ack_faithful; [done|done|].
      destruct ok; [by apply tells_nothing|apply quiet_nil]. }
  case_if.
  { destruct (ack_logged _ _ _ _ _ _ _) as [ok i1] eqn:Ea. intros [= <- <- <-].
    apply span_faithful. eapply ack_faithful; [done|done|].
    destruct ok; [by apply tells_event with (dead := true)|apply quiet_nil]. }
  destruct (Hreg h eq_refl) as [Hrun Hfin].
  pose proof (handler_tracked (lease_ref claim) _ _ _ Hok Hh Hrun) as Ht'.
  destruct (h (from_claim claim) i) as [[he c] i1]. simpl in *.
  destruct (attempt_result rt _ he) as [r|p|]; [|intros [= <- <- <-]..];
    [|by eapply untouched_faithful, quiet_nil..].
  destruct r as [[]|err].
  - destruct (settle_success _ _ _ _ _ _) as [[name said] i2] eqn:E. intros [= <- <- <-].
    apply span_faithful. by eapply settle_success_faithful.
  - destruct (settle_error _ _ _ _ _ _ _ _) as [[name said] i2] eqn:E. intros [= <- <- <-].
    apply span_faithful. by eapply settle_error_faithful.
Qed.

(** ** Releasing from the handler

    [release] hands the job back to the queue and sets the flag that a transactional [once]
    sets on completion; [process_one] cannot tell the two apart. *)

Definition releasing (now : Z) (rp : RetryPolicy) (c : JobCtx) (i : Inner)
    : HandlerEnd * JobCtx * Inner :=
  let '(_, c, i) := release (H := mem_worker now rp) c i in
  (mkHandlerEnd (Joined.Returned (Ok tt)) false [], c, i).

Lemma attempt_in_time rt timeout_ms r :
  attempt_result rt timeout_ms (mkHandlerEnd (Joined.Returned r) false []) = Attempted.Result r.
Proof.
  unfold attempt_result, timed. simpl. rewrite andb_false_r. by destruct r as [[]|].
Qed.

(** A handler that releases its job and returns normally has the job announced as completed
    (or deleted), while the store holds it as available, to be run again. *)
Theorem released_job_is_announced_completed now rp (dbg : duration → string) (rt : Runtime)
    (wall : Z) (claim : Claim) (i : Inner) :
  inner_ok i → lease_held (lease_ref claim) (c_envelope claim) i →
  e_deadline_ms (c_envelope claim) = 0 → rt_event_bus rt = true →
  ∃ evs i', process_one (H := mem_worker now rp) dbg (λ _, Some (releasing now rp)) rt wall claim
      (from_claim claim) i = (Processed.Outcome "success", evs, i')
    ∧ Emitted.Completed (e_kind (c_envelope claim)) ∈ evs
    ∧ (∃ ev, Emitted.Published ev ∈ evs ∧ je_kind ev = JobEventKind.Completed
         ∧ je_job_id ev = e_id (c_envelope claim))
    ∧ announced "available" (e_id (c_envelope claim)) i'.
Proof.
  intros Hok Hh Hd Hbus. unfold process_one, releasing, release. rewrite Hd. simpl.
  assert (identity i (lease_ref claim) = Ok tt) as Hid
    by (destruct Hh as (j & ? & ? & _); apply identity_ok; eauto).
  pose proof (ack_accepts now rp (lease_ref claim) Outcome.RateLimited
    (Some "released by handler") None [] None i) as Hacc. rewrite Hid in Hacc. simpl in Hacc.
  pose proof (ack_announces now rp Outcome.RateLimited (Some "released by handler") None [] None
    (lease_ref claim) (c_envelope claim) i) as Hann. unfold ack_logged in Hann. simpl in Hann.
  destruct (ack_attempt_with_actual_weight _ _ _ _ _ _ _ _ _) as [i1 [[]|err]]; [|done].
  unfold settle_success, publish_job_event, upd. cbn. rewrite Hbus, attempt_in_time.
  eexists _, i1. split; [reflexivity|]. split_and!.
  - by constructor.
  - eexists. split; [by constructor; constructor|done].
  - by apply (Hann i1 true).
Qed.

(** ** Witnesses *)

Definition demo_claim : Claim :=
  mkClaim (default default_envelope (mj_env <$> jobs demo_admitted !! "a2")) "lease-1" 1 0
    default_checkpoint.

Definition demo_runtime : Runtime := mkRuntime true (λ _, true) 1 true.

(** A handler that asks for the job to be archived. *)
Definition skipping {S} (c : JobCtx) (s : S) : HandlerEnd * JobCtx * S :=
  (mkHandlerEnd (Joined.Returned (Err (JobError.Control Control.Skip))) false [], c, s).

Lemma demo_claim_held : lease_held (lease_ref demo_claim) (c_envelope demo_claim) demo_admitted.
Proof.
  assert (∃ j, jobs demo_admitted !! "a2" = Some j
    ∧ holds_lease j (mkLeaseRef "a2" "lease-1" 1) = true) as (j & Hj & Hh).
  { apply (identity_ok demo_admitted (mkLeaseRef "a2" "lease-1" 1)). by vm_compute. }
  assert (lease_ref demo_claim = mkLeaseRef "a2" "lease-1" 1) as -> by (by vm_compute).
  exists j. split_and!; [done|done|]. unfold demo_claim. cbn [c_envelope]. by rewrite Hj.
Qed.

Definition demo_processed : Processed.Processed * list Emitted.Emitted * Inner :=
  process_one (H := mem_worker 20 demo_policy) (λ _, "") (λ _, Some skipping) demo_runtime 20
    demo_claim (from_claim demo_claim) demo_admitted.

Lemma announcements_match_the_store_witness :
  demo_processed.1.1 = Processed.Outcome "skip" ∧ length demo_processed.1.2 = 3%nat
  ∧ mj_state <$> jobs demo_processed.2 !! "a2" = Some "archived"
  ∧ faithful demo_runtime (lease_ref demo_claim)
      (at_ack (λ _, Some skipping) 20 demo_claim demo_admitted) demo_processed.1.2 demo_processed.2.
Proof.
  split; [by vm_compute|]. split; [by vm_compute|]. split; [by vm_compute|].
  assert (0 ≤ e_attempt (c_envelope demo_claim) < u32_max) as Hat by (by vm_compute).
  apply (announcements_match_the_store 20 demo_policy (λ _, "") (λ _, Some skipping) demo_runtime 20
    demo_claim demo_admitted demo_processed.1.1 demo_processed.1.2 demo_processed.2
    demo_admitted_ok demo_claim_held Hat).
  - intros h [= <-]. split; [apply rtc_refl|reflexivity].
  - unfold demo_processed. by destruct (process_one _ _ _ _ _ _ _) as [[out evs] i'].
Defined.

Lemma attempt_settles_at_most_once_witness :
  ∃ t, process_one (H := traced_store (mem_worker 20 demo_policy)) (λ _, "")
      (λ k, lift_handler <$> Some skipping) demo_runtime 20 demo_claim (from_claim demo_claim)
      (demo_admitted, []) = t
    ∧ ∃ said, t.1.2 = said ++ closing demo_claim t.1.1
        ∧ one_ack (lease_ref demo_claim) false said t.2.2.
Proof.
  eexists. split; [reflexivity|].
  destruct (process_one (H := traced_store (mem_worker 20 demo_policy)) _ _ _ _ _ _ _)
    as [[out evs] t] eqn:E.
  exact (proj2 (attempt_settles_at_most_once (mem_worker 20 demo_policy) (λ _, "")
    (λ _, Some skipping) demo_runtime 20 demo_claim demo_admitted out evs t E)).
Defined.

Lemma released_job_is_announced_completed_witness :
  ∃ evs i', process_one (H := mem_worker 20 demo_policy) (λ _, "")
      (λ _, Some (releasing 20 demo_policy)) demo_runtime 20 demo_claim (from_claim demo_claim)
      demo_admitted = (Processed.Outcome "success", evs, i')
    ∧ announced "available" "a2" i'.
Proof.
  destruct (released_job_is_announced_completed 20 demo_policy (λ _, "") demo_runtime 20 demo_claim
    demo_admitted demo_admitted_ok demo_claim_held) as (evs & i' & H & _ & _ & Ha);
    [by vm_compute|done|]. exists evs, i'. split; [done|].
  assert (e_id (c_envelope demo_claim) = "a2") as E by (by vm_compute). by rewrite <-E.
Defined.
