(* ===== verification/Pool.v ===== *)
(** * headgate: the worker's loop

    Models [Worker::run] of [crates/headgate/src/worker.rs]: the arms of its [select!]
    (shutdown, memory guard, heartbeat with lease renewal and operator commands, joining a
    finished task, polling for admission), [admit_once], [renew_all], [finish_task], [drain],
    the rolling poll window, the empty-poll backoff, and the singleton duties.  One arm is one
    step; the tasks it spawned run [process_one] in steps of their own, in any interleaving,
    and other processes may change the store between any two steps.  An arm that awaits more
    than one store call takes an argument [others]: [others k] is what tasks and processes do
    to the store during its [k]-th await, so its calls are not atomic together.  The iteration
    order of the in-flight map is the environment's choice. *)

From S2P Require Import Prelude Shared Lifecycle Envelope MemStore Core Attempt Worker.
Local Open Scope Z_scope.

(** ** Configuration and signals *)

Record WorkerConfig := mkWorkerConfig {
  cfg_worker_id : string;
  cfg_queues : list string;
  cfg_capacity : Z;
  cfg_lease : duration;
  cfg_quantum : Z;
  cfg_floor : duration;
  cfg_ceiling : duration;
  cfg_shutdown_timeout : duration;
  cfg_memory_limit_bytes : option Z;
  cfg_run_duties : bool;
  (** What the process knows of itself: [HOSTNAME], its id, when it started. *)
  cfg_host : string;
  cfg_pid : Z;
  cfg_started_at_ms : Z;
}.

Record WorkerMeta := mkWorkerMeta {
  wm_worker_id : string;
  wm_host : string;
  wm_pid : Z;
  wm_queues : list string;
  wm_concurrency : Z;
  wm_started_at_ms : Z;
  wm_heartbeat_at_ms : Z;
  wm_inflight : Z;
  wm_polls : Z;
  wm_empty_polls : Z;
  wm_status : string;
  wm_duties_active : bool;
  wm_pending_command : option string;
}.

#[export] Instance worker_meta_eta : Eta WorkerMeta := λ w,
  mkWorkerMeta (wm_worker_id w) (wm_host w) (wm_pid w) (wm_queues w) (wm_concurrency w)
    (wm_started_at_ms w) (wm_heartbeat_at_ms w) (wm_inflight w) (wm_polls w) (wm_empty_polls w)
    (wm_status w) (wm_duties_active w) (wm_pending_command w).

(** The inspection surface the loop uses, and the duty leases. *)
Class ControlStore (S : Type) := {
  has_inspect : bool;
  heartbeat_worker : WorkerMeta → S → S * result (option string) StoreError.StoreError;
  signal_worker : string → option string → S → S * result unit StoreError.StoreError;
  ws_release_duty : string → string → S → S * result unit StoreError.StoreError;
}.

(** ** The rolling poll window *)

Definition POLL_WINDOW : nat := 128.

Definition window_record (admitted : nat) (ring : list bool) : list bool :=
  (if (length ring =? POLL_WINDOW)%nat then tail ring else ring) ++ [(admitted =? 0)%nat].

Definition window_polls (ring : list bool) : Z := Z.of_nat (length ring).
Definition window_empty_polls (ring : list bool) : Z :=
  Z.of_nat (length (List.filter (λ b : bool, b) ring)).

(** ** The empty-poll backoff

    The floating-point scalings of [Duration::mul_f64] are parameters: by the multiplier, and
    by the jitter fraction of a seed modulo 1000. *)

Definition xorshift (seed : Z) : Z :=
  let seed := Z.lxor seed (wrap_u64 (Z.shiftl seed 13)) in
  let seed := Z.lxor seed (Z.shiftr seed 7) in
  Z.lxor seed (wrap_u64 (Z.shiftl seed 17)).

Section backoff.
Context (mul_multiplier : duration → duration) (mul_jitter : Z → duration → duration).

Definition next_backoff (cfg : WorkerConfig) (cur : duration) (seed : Z) : duration * Z :=
  let seed := xorshift seed in
  let base := Z.min (mul_multiplier cur) (cfg_ceiling cfg) in
  let jitter := mul_jitter (seed mod 1000) base in
  (Z.min (base + jitter) (cfg_ceiling cfg), seed).

Definition poll_delay_after (cfg : WorkerConfig) (admitted : nat) (woke : bool) (cur : duration)
    (seed : Z) : duration * Z :=
  if (0 <? admitted)%nat || woke then (cfg_floor cfg, seed) else next_backoff cfg cur seed.
End backoff.

(** ** The loop's state *)

Record Inflight := mkInflight { if_job_id : string; if_lease : LeaseRef }.

Module TaskEnd.
Inductive TaskEnd := Finished | Panicked | Cancelled.
End TaskEnd.

(** A spawned task: its claim, whether its context was cancelled and its abort requested, and
    how it ended once it has. *)
Record Task := mkTask {
  tk_claim : Claim;
  tk_canceled : bool;
  tk_aborted : bool;
  tk_end : option TaskEnd.TaskEnd;
}.

#[export] Instance task_eta : Eta Task := λ t,
  mkTask (tk_claim t) (tk_canceled t) (tk_aborted t) (tk_end t).

(** In the loop; past it, before [drain] has read the clock; in [drain], with its deadline if it
    is bounded; returned. *)
Module Phase.
Inductive Phase := Looping | Leaving (unbounded : bool) | Draining (deadline : option Z) | Stopped.
End Phase.

#[export] Instance phase_eq_dec : EqDecision Phase.Phase.
Proof. solve_decision. Defined.

Record Pool := mkPool {
  p_phase : Phase.Phase;
  p_tasks : gmap Z Task;
  p_inflight : gmap Z Inflight;
  p_next_task : Z;
  p_seq : Z;
  p_admitting : bool;
  p_status : string;
  p_duties_active : bool;
  p_window : list bool;
  p_poll_delay : duration;
  p_jitter_seed : Z;
}.

#[export] Instance pool_eta : Eta Pool := λ p,
  mkPool (p_phase p) (p_tasks p) (p_inflight p) (p_next_task p) (p_seq p) (p_admitting p)
    (p_status p) (p_duties_active p) (p_window p) (p_poll_delay p) (p_jitter_seed p).

Definition new_pool (cfg : WorkerConfig) (pid : Z) : Pool :=
  mkPool Phase.Looping ∅ ∅ 0 0 true "running" (cfg_run_duties cfg) [] (cfg_floor cfg)
    (Z.lxor pid 0x9e3779b9).

Definition inflight_len (p : Pool) : Z := Z.of_nat (size (p_inflight p)).

(** ** Tasks *)

(** One claim becomes a task and an in-flight entry. *)
Definition spawn (p : Pool) (claim : Claim) : Pool :=
  let id := p_next_task p in
  p <| p_next_task := id + 1 |>
    <| p_tasks := <[id := mkTask claim false false None]> (p_tasks p) |>
    <| p_inflight := <[id := mkInflight (e_id (c_envelope claim)) (lease_ref claim)]> (p_inflight p) |>.

(** [ctx.cancel()] and [abort.abort()]: neither touches a task that has already ended. *)
Definition abort_task (id : Z) (p : Pool) : Pool :=
  p <| p_tasks := alter (λ t, t <| tk_canceled := true |> <| tk_aborted := true |>) id (p_tasks p) |>.

(** Either way of joining forgets the entry; only the log line differs. *)
Definition finish_task (id : Z) (p : Pool) : Pool :=
  p <| p_tasks := delete id (p_tasks p) |> <| p_inflight := delete id (p_inflight p) |>.

Definition DUTIES : list string :=
  ["reclaimer"; "promoter"; "scheduler"; "operations"; "quarantine"; "retention"].

Section pool.
Context {S : Type} `{WorkerStore S} `{ControlStore S}.
Context (mul_multiplier : duration → duration) (mul_jitter : Z → duration → duration).
Context (cfg : WorkerConfig).

Definition admit_once (lease_id : string) (p : Pool) (s : S) : nat * Pool * S :=
  let capacity := wrap_u32 (cfg_capacity cfg - inflight_len p) in
  let req := mkAdmitRequest (cfg_worker_id cfg) lease_id (cfg_queues cfg) capacity (cfg_lease cfg)
               (cfg_quantum cfg) in
  match ws_admit req s with
  | (s, Err _) => (0%nat, p, s)
  | (s, Ok units) =>
      let claims := concat (group_admission_claims (concat units) capacity) in
      (length claims, foldl spawn p claims, s)
  end.

(** The in-flight entries in the order [ord] of their ids. *)
Definition entries (ord : list Z) (p : Pool) : list (Z * Inflight) :=
  omap (λ id, pair id <$> p_inflight p !! id) ord.

(** [inflight.retain]: the entries of lost jobs are cancelled, aborted and dropped. *)
Definition drop_lost (lost : list string) (p : Pool) (entry : Z * Inflight) : Pool :=
  if bool_decide (if_job_id entry.2 ∈ lost)
  then (abort_task entry.1 p) <| p_inflight := delete entry.1 (p_inflight p) |>
  else p.

Definition renew_all (ord : list Z) (p : Pool) (s : S) : Pool * S :=
  if bool_decide (p_inflight p = ∅) then (p, s)
  else
    match ws_renew (if_lease ∘ snd <$> entries ord p) (cfg_lease cfg) s with
    | (s, Err _) => (p, s)
    | (s, Ok lost) => (foldl (drop_lost lost) p (entries ord p), s)
    end.

Definition saturation (p : Pool) : WorkerMeta :=
  mkWorkerMeta (cfg_worker_id cfg) (cfg_host cfg) (cfg_pid cfg) (cfg_queues cfg) (cfg_capacity cfg)
    (cfg_started_at_ms cfg) 0 (wrap_u32 (inflight_len p))
    (window_polls (p_window p)) (window_empty_polls (p_window p)) (p_status p) (p_duties_active p)
    None.

(** Errors of both calls are ignored, as is a command the second heartbeat returns. *)
Definition acknowledge_worker_command (others : nat → S → S) (heartbeat : WorkerMeta) (status : string)
    (duties_active : bool) (s : S) : S :=
  let '(s, _) := signal_worker (cfg_worker_id cfg) None s in
  let s := others 8%nat s in
  (heartbeat_worker (heartbeat <| wm_status := status |> <| wm_duties_active := duties_active |>
                       <| wm_pending_command := None |>) s).1.

Definition release_duties (others : nat → S → S) (s : S) : S :=
  foldl (λ s '(k, duty), others (2 + k)%nat (ws_release_duty duty (cfg_worker_id cfg) s).1) s
    (imap pair DUTIES).

(** What an operator command does to the loop, before it is acknowledged. *)
Definition apply_command (others : nat → S → S) (cmd : string) (p : Pool) (s : S) : option (Pool * S) :=
  if String.eqb cmd "quiet" then
    Some (p <| p_admitting := false |> <| p_status := "quiet" |>, s)
  else if String.eqb cmd "resume" then
    Some (p <| p_admitting := true |> <| p_status := "running" |>, s)
  else if String.eqb cmd "terminate" then
    Some (p <| p_status := "terminating" |> <| p_duties_active := false |>
            <| p_phase := Phase.Leaving false |>, release_duties others s)
  else if String.eqb cmd "restart" then
    Some (p <| p_status := "restarting" |> <| p_duties_active := false |>
            <| p_phase := Phase.Leaving true |>, release_duties others s)
  else if String.eqb cmd "resign" then
    Some (p <| p_duties_active := false |>, release_duties others s)
  else None.

Definition beat (ord : list Z) (others : nat → S → S) (p : Pool) (s : S) : Pool * S :=
  let '(p, s) := renew_all ord p s in
  let s := others 0%nat s in
  if has_inspect then
    let meta := saturation p in
    match heartbeat_worker meta s with
    | (s, Ok (Some cmd)) =>
        match apply_command others cmd p (others 1%nat s) with
        | Some (p, s) => (p, acknowledge_worker_command others meta (p_status p) (p_duties_active p) s)
        | None => (p, s)
        end
    | (s, _) => (p, s)
    end
  else (p, s).

(** The command that heartbeat is answered with. *)
Definition beat_command (ord : list Z) (others : nat → S → S) (p : Pool) (s : S) : option string :=
  let '(p, s) := renew_all ord p s in
  if has_inspect then
    match (heartbeat_worker (saturation p) (others 0%nat s)).2 with Ok cmd => cmd | Err _ => None end
  else None.

(** The memory guard; a failed sample is skipped. *)
Definition memory_tick (sample : option Z) (p : Pool) : Pool :=
  match cfg_memory_limit_bytes cfg, sample with
  | Some limit, Some used =>
      if limit <=? used then p <| p_phase := Phase.Leaving false |> else p
  | _, _ => p
  end.

(** The guard of the polling arm. *)
Definition may_poll (p : Pool) : bool := p_admitting p && (inflight_len p <? cfg_capacity cfg).

Definition poll (woke : bool) (p : Pool) (s : S) : Pool * S :=
  let p := p <| p_seq := u64_add (p_seq p) 1 |> in
  let lease_id := (cfg_worker_id cfg +:+ ":" +:+ pretty (p_seq p))%stdpp in
  let '(n, p, s) := admit_once lease_id p s in
  let p := p <| p_window := window_record n (p_window p) |> in
  let '(delay, seed) :=
    poll_delay_after mul_multiplier mul_jitter cfg n woke (p_poll_delay p) (p_jitter_seed p) in
  (p <| p_poll_delay := delay |> <| p_jitter_seed := seed |>, s).

(** [drain] on entry: an unbounded one has no deadline. *)
Definition drain_start (now : Z) (unbounded : bool) (p : Pool) : Pool :=
  p <| p_phase := Phase.Draining (if unbounded then None else Some (now + cfg_shutdown_timeout cfg)) |>.

(** The deadline of a bounded drain: the jobs still in flight are handed back, one call each,
    and the tasks are shut down. *)
Definition release_entry (s : S) (entry : Z * Inflight) : S :=
  (ws_ack (if_lease entry.2) Outcome.RateLimited (Some "released: worker shutdown") None [] None s).1.

Definition release_all (others : nat → S → S) (es : list (Z * Inflight)) (s : S) : S :=
  foldl (λ s '(k, e), others k (release_entry s e)) s (imap pair es).

Definition drain_deadline (ord : list Z) (others : nat → S → S) (p : Pool) (s : S) : Pool * S :=
  (p <| p_inflight := ∅ |> <| p_tasks := ∅ |> <| p_phase := Phase.Stopped |>,
   release_all others (entries ord p) s).

(** ** Steps *)

Context (duration_debug : duration → string)
  (registry : string → option (JobCtx → S → HandlerEnd * JobCtx * S)) (rt : Runtime).

(** A spawned task executes its attempt. *)
Definition run_task (wall : Z) (t : Task) (s : S) : Task * S :=
  let ctx := (from_claim (tk_claim t)) <| jc_canceled := tk_canceled t |> in
  let '(out, _, s) := process_one duration_debug registry rt wall (tk_claim t) ctx s in
  (t <| tk_end := Some (match out with
                        | Processed.Outcome _ => TaskEnd.Finished
                        | Processed.Unwound _ => TaskEnd.Panicked
                        end) |>, s).

Definition is_order (ord : list Z) (p : Pool) : Prop := ord ≡ₚ (map_to_list (p_inflight p)).*1.

Inductive label :=
  | LShutdown | LMemory (sample : option Z) | LBeat (command : option string) | LJoin (id : Z)
  | LPoll (woke : bool) | LDrain (now : Z) | LDeadline (now : Z) | LDrained | LRun (id : Z)
  | LCancelled (id : Z) | LOthers.

Inductive pool_step : label → Pool * S → Pool * S → Prop :=
  | step_shutdown p s :
      p_phase p = Phase.Looping →
      pool_step LShutdown (p, s) (p <| p_phase := Phase.Leaving false |>, s)
  | step_memory sample p s :
      p_phase p = Phase.Looping → is_Some (cfg_memory_limit_bytes cfg) →
      pool_step (LMemory sample) (p, s) (memory_tick sample p, s)
  | step_beat ord others p s :
      p_phase p = Phase.Looping → is_order ord p →
      pool_step (LBeat (beat_command ord others p s)) (p, s) (beat ord others p s)
  | step_poll woke p s :
      p_phase p = Phase.Looping → may_poll p = true →
      pool_step (LPoll woke) (p, s) (poll woke p s)
  | step_join id t p s :
      (p_phase p = Phase.Looping ∨ ∃ d, p_phase p = Phase.Draining d) →
      p_tasks p !! id = Some t → is_Some (tk_end t) →
      pool_step (LJoin id) (p, s) (finish_task id p, s)
  | step_drain now b p s :
      p_phase p = Phase.Leaving b → pool_step (LDrain now) (p, s) (drain_start now b p, s)
  (** [timeout_at] polls [join_next] first: it elapses only when no task has ended. *)
  | step_deadline now d ord others p s :
      p_phase p = Phase.Draining (Some d) → d ≤ now → p_tasks p ≠ ∅ →
      (∀ id t, p_tasks p !! id = Some t → tk_end t = None) → is_order ord p →
      pool_step (LDeadline now) (p, s) (drain_deadline ord others p s)
  | step_drained d p s :
      p_phase p = Phase.Draining d → p_tasks p = ∅ →
      pool_step LDrained (p, s) (p <| p_phase := Phase.Stopped |>, s)
  | step_run id wall t t' p s s' :
      p_tasks p !! id = Some t → tk_end t = None → run_task wall t s = (t', s') →
      pool_step (LRun id) (p, s) (p <| p_tasks := <[id := t']> (p_tasks p) |>, s')
  | step_cancelled id t p s :
      p_tasks p !! id = Some t → tk_end t = None → tk_aborted t = true →
      pool_step (LCancelled id) (p, s)
        (p <| p_tasks := <[id := t <| tk_end := Some TaskEnd.Cancelled |>]> (p_tasks p) |>, s)
  | step_others p s s' : pool_step LOthers (p, s) (p, s').

Inductive pool_run : list label → Pool * S → Pool * S → Prop :=
  | pool_run_nil c : pool_run [] c c
  | pool_run_cons l ls c c' c'' : pool_step l c c' → pool_run ls c' c'' → pool_run (l :: ls) c c''.
End pool.
