(* ===== verification/PoolSpec.v ===== *)
(** * The worker's loop: capacity, control and shutdown

    Invariants of the loop of [Pool] along every interleaving of its arms, its tasks and other
    processes: it never holds more jobs than its capacity, an in-flight entry always has its
    live task, only a running worker that is not quiet and has room admits, a draining worker
    never admits again, a lost lease is dropped without an ack, and a drain ends within one step
    per task, at its deadline at the latest, handing the remaining jobs back at no cost to their
    budgets. *)

From S2P Require Import Prelude Shared Lifecycle Envelope MemStore MemAdmit MemInv MemLease Core Attempt Worker WorkerSpec Pool.
Local Open Scope Z_scope.

(** ** What the loop needs of a store *)

Class PoolLaws (S : Type) `{WorkerStore S} := {
  (** An admission returns at most the requested number of claims. *)
  admit_within_capacity req s s' units :
    0 ≤ ar_capacity req → ws_admit req s = (s', Ok units) →
    Z.of_nat (length (concat units)) ≤ ar_capacity req;
}.

(** ** The invariant *)

(** An in-flight entry belongs to a task that nobody aborted, with the lease of its claim. *)
Definition entry_live (p : Pool) (id : Z) (e : Inflight) : Prop :=
  ∃ t, p_tasks p !! id = Some t ∧ tk_aborted t = false ∧ tk_canceled t = false
       ∧ if_lease e = lease_ref (tk_claim t) ∧ if_job_id e = e_id (c_envelope (tk_claim t)).

Record linked (p : Pool) : Prop := {
  li_entries id e : p_inflight p !! id = Some e → entry_live p id e;
  li_fresh id t : p_tasks p !! id = Some t → id < p_next_task p;
}.

Record pool_ok (cfg : WorkerConfig) (p : Pool) : Prop := {
  po_linked : linked p;
  po_capacity : inflight_len p ≤ cfg_capacity cfg;
  po_status : p_phase p = Phase.Looping → p_status p = if p_admitting p then "running" else "quiet";
  po_stopped : p_phase p = Phase.Stopped → p_tasks p = ∅ ∧ p_inflight p = ∅;
}.

Lemma spawn_linked p c :
  linked p → linked (spawn p c) ∧ inflight_len (spawn p c) = inflight_len p + 1.
Proof.
  intros [He Hf]. unfold spawn, inflight_len, upd; simpl. split; [constructor; simpl|].
  - intros id e. destruct (decide (id = p_next_task p)) as [->|Hne].
    + rewrite lookup_insert_eq. intros [= <-]. eexists. split; [apply lookup_insert_eq|done].
    + rewrite lookup_insert_ne by done. intros (t & Ht & ?)%He. exists t. simpl.
      by rewrite lookup_insert_ne by done.
  - intros id t. destruct (decide (id = p_next_task p)) as [->|Hne]; [lia|].
    rewrite lookup_insert_ne by done. intros ?%Hf. lia.
  - rewrite map_size_insert_None; [lia|]. destruct (p_inflight p !! p_next_task p) as [e|] eqn:E; [|done].
    apply He in E as (t & Ht%Hf & _). lia.
Qed.

Lemma spawn_all_linked cs p :
  linked p → linked (foldl spawn p cs)
             ∧ inflight_len (foldl spawn p cs) = inflight_len p + Z.of_nat (length cs).
Proof.
  revert p. induction cs as [|c cs IH]; intros p Hp; simpl; [by split; [|lia]|].
  destruct (spawn_linked p c Hp) as [Hl Hn]. destruct (IH _ Hl) as [? ->]. split; [done|lia].
Qed.

(** The part of the state that the task bookkeeping leaves alone. *)
Definition same_control (p p' : Pool) : Prop :=
  p_phase p' = p_phase p ∧ p_admitting p' = p_admitting p ∧ p_status p' = p_status p
  ∧ p_seq p' = p_seq p ∧ p_duties_active p' = p_duties_active p ∧ p_window p' = p_window p.

Lemma spawn_all_control cs p : same_control p (foldl spawn p cs).
Proof.
  revert p. induction cs as [|c cs IH]; intros p; simpl; [done|].
  destruct (IH (spawn p c)) as (? & ? & ? & ? & ? & ?). done.
Qed.

(** Replacing a task keeps the links when its claim and flags stay. *)
Lemma retask_linked p id t t' :
  linked p → p_tasks p !! id = Some t → tk_claim t' = tk_claim t →
  tk_aborted t' = tk_aborted t → tk_canceled t' = tk_canceled t →
  linked (p <| p_tasks := <[id := t']> (p_tasks p) |>).
Proof.
  intros [He Hf] Ht Hc Ha Hx. constructor; unfold upd; simpl.
  - intros id' e (t0 & Ht0 & Hab & Hca & Hl & Hj)%He. destruct (decide (id' = id)) as [->|Hne].
    + simplify_eq. exists t'. simpl. rewrite lookup_insert_eq. by rewrite Hc, Ha, Hx.
    + exists t0. simpl. by rewrite lookup_insert_ne by done.
  - intros id' t0. destruct (decide (id' = id)) as [->|Hne]; [intros _; by eapply Hf|].
    rewrite lookup_insert_ne by done. apply Hf.
Qed.

Lemma finish_linked id p : linked p → linked (finish_task id p).
Proof.
  intros [He Hf]. constructor; unfold finish_task, upd; simpl.
  - intros id' e [Hne (t & ? & ?)%He]%lookup_delete_Some. exists t. simpl.
    by rewrite lookup_delete_ne by done.
  - intros id' t [_ ?%Hf]%lookup_delete_Some. done.
Qed.

Lemma delete_len {A} (m : gmap Z A) id : (size (delete id m) ≤ size m)%nat.
Proof. apply map_subseteq_size, delete_subseteq. Qed.

(** ** Renewal *)

(** Whether [es] has an entry of task [id] for a lost job. *)
Definition hit (lost : list string) (es : list (Z * Inflight)) (id : Z) : bool :=
  existsb (λ x, (x.1 =? id) && bool_decide (if_job_id x.2 ∈ lost)) es.

(** What dropping the entries [es] of the lost jobs leaves. *)
Record dropped (lost : list string) (es : list (Z * Inflight)) (p p' : Pool) : Prop := {
  dp_control : same_control p p' ∧ p_next_task p' = p_next_task p;
  dp_inflight id : p_inflight p' !! id = if hit lost es id then None else p_inflight p !! id;
  dp_tasks id : p_tasks p' !! id =
    if hit lost es id
    then (λ t, t <| tk_canceled := true |> <| tk_aborted := true |>) <$> p_tasks p !! id
    else p_tasks p !! id;
}.

Lemma drop_lost_dropped lost es p : dropped lost es p (foldl (drop_lost lost) p es).
Proof.
  revert p. induction es as [|[i e] es IH]; intros p; [by constructor|]. simpl.
  destruct (IH (drop_lost lost p (i, e))) as [[Hc Hn] Hi Ht].
  unfold drop_lost in *. simpl in *. case_bool_decide as Hl; [|constructor].
  - unfold abort_task, upd in *. simpl in *. constructor; [done| |]; intros id.
    + rewrite Hi. simpl. rewrite (bool_decide_eq_true_2 _ Hl), andb_true_r.
      destruct (Z.eqb_spec i id) as [->|Hne]; simpl; [rewrite lookup_delete_eq|by rewrite lookup_delete_ne].
      by case_match.
    + rewrite Ht. simpl. rewrite (bool_decide_eq_true_2 _ Hl), andb_true_r.
      destruct (Z.eqb_spec i id) as [->|Hne]; simpl; [rewrite lookup_alter_eq|by rewrite lookup_alter_ne].
      destruct (hit lost es id); [|done]. by destruct (p_tasks p !! id).
  - done.
  - intros id. rewrite Hi. simpl. rewrite (bool_decide_eq_false_2 _ Hl), andb_false_r. done.
  - intros id. rewrite Ht. simpl. rewrite (bool_decide_eq_false_2 _ Hl), andb_false_r. done.
Qed.

Lemma entries_lookup ord p id e : (id, e) ∈ entries ord p ↔ id ∈ ord ∧ p_inflight p !! id = Some e.
Proof.
  unfold entries. rewrite list_elem_of_omap. split.
  - intros (id' & Hin & Hl). destruct (p_inflight p !! id') as [e'|] eqn:E; simplify_eq/=. done.
  - intros [Hin Hl]. exists id. by rewrite Hl.
Qed.

Lemma order_elem ord p id : is_order ord p → id ∈ ord ↔ is_Some (p_inflight p !! id).
Proof.
  intros ->. rewrite list_elem_of_fmap. split.
  - intros ([? e] & -> & ?%elem_of_map_to_list). by eexists.
  - intros [e He]. exists (id, e). split; [done|]. by apply elem_of_map_to_list.
Qed.

Lemma hit_entries lost ord p id :
  is_order ord p →
  hit lost (entries ord p) id
  = match p_inflight p !! id with Some e => bool_decide (if_job_id e ∈ lost) | None => false end.
Proof.
  intros Ho. apply Bool.eq_iff_eq_true. unfold hit. rewrite existsb_exists. split.
  - intros ([i e] & [_ He]%list_elem_of_In%entries_lookup & Hb). simpl in Hb.
    apply andb_true_iff in Hb as [->%Z.eqb_eq Hb]. by rewrite He.
  - destruct (p_inflight p !! id) as [e|] eqn:E; [|done]. intros Hb. exists (id, e).
    split; [|simpl; by rewrite Z.eqb_refl]. apply list_elem_of_In, entries_lookup.
    split; [|done]. by apply (order_elem _ _ _ Ho).
Qed.

Lemma dropped_linked lost es p p' : dropped lost es p p' → linked p → linked p'.
Proof.
  intros [[_ Hn] Hi Ht] [He Hf]. constructor.
  - intros id e. rewrite Hi. destruct (hit lost es id) eqn:Eh; [done|].
    intros (t & ? & ?)%He. exists t. by rewrite Ht, Eh.
  - intros id t. rewrite Ht, Hn. case_match; [|apply Hf].
    intros (t0 & Ht0 & _)%fmap_Some. by eapply Hf.
Qed.

Lemma dropped_len lost es p p' : dropped lost es p p' → inflight_len p' ≤ inflight_len p.
Proof.
  intros [_ Hi _]. unfold inflight_len. apply inj_le, map_subseteq_size, map_subseteq_spec.
  intros id e. rewrite Hi. by case_match.
Qed.

Lemma same_control_trans p1 p2 p3 : same_control p1 p2 → same_control p2 p3 → same_control p1 p3.
Proof. unfold same_control. intros. destruct_and!. split_and!; by etrans. Qed.

(** ** The invariant along every step *)

Section invariant.
Context {S : Type} `{WorkerStore S} `{ControlStore S} `{!PoolLaws S}.
Context (mul_multiplier : duration → duration) (mul_jitter : Z → duration → duration).
Context (cfg : WorkerConfig) (Hcap : 0 ≤ cfg_capacity cfg ≤ u32_max).
Context (dbg : duration → string)
  (registry : string → option (JobCtx → S → HandlerEnd * JobCtx * S)) (rt : Runtime).
Local Notation step := (pool_step mul_multiplier mul_jitter cfg dbg registry rt).

Lemma renew_all_cases ord (p : Pool) (s : S) :
  ∃ s', renew_all cfg ord p s = (p, s')
        ∨ ∃ lost, renew_all cfg ord p s = (foldl (drop_lost lost) p (entries ord p), s').
Proof.
  unfold renew_all. case_bool_decide; [by eauto|].
  destruct (ws_renew _ _ _) as [s' [lost|e]]; eauto.
Qed.

Lemma renew_all_ok ord p s p' s' :
  renew_all cfg ord p s = (p', s') → linked p →
  linked p' ∧ inflight_len p' ≤ inflight_len p ∧ same_control p p'.
Proof.
  intros E Hl. destruct (renew_all_cases ord p s) as (s1 & [E'|[lost E']]);
    rewrite E' in E; simplify_eq; [done|].
  pose proof (drop_lost_dropped lost (entries ord p) p) as Hd. split_and!.
  - by eapply dropped_linked.
  - by eapply dropped_len.
  - apply Hd.
Qed.

(** A command only touches the control part; the loop goes on only on quiet, resume and
    resign. *)
Lemma apply_command_cases others cmd p (s : S) p' s' :
  apply_command cfg others cmd p s = Some (p', s') →
  p_tasks p' = p_tasks p ∧ p_inflight p' = p_inflight p ∧ p_next_task p' = p_next_task p
  ∧ p_seq p' = p_seq p ∧ p_window p' = p_window p
  ∧ (p_duties_active p' = true → p_duties_active p = true)
  ∧ p_phase p' ≠ Phase.Stopped
    ∨ p_phase p = Phase.Stopped.
Proof.
  unfold apply_command, upd. intros E. destruct (decide (p_phase p = Phase.Stopped)); [by right|left].
  repeat case_match; simplify_eq/=; done.
Qed.

(** Only [resume] makes a quiet worker admit again. *)
Lemma apply_command_admitting others cmd p (s : S) p' s' :
  apply_command cfg others cmd p s = Some (p', s') → cmd ≠ "resume" →
  p_admitting p = false → p_admitting p' = false.
Proof.
  unfold apply_command, upd. intros E Hne Ha. destruct (String.eqb_spec cmd "resume"); [done|].
  by repeat case_match; simplify_eq/=.
Qed.

Lemma apply_command_status others cmd p (s : S) p' s' :
  apply_command cfg others cmd p s = Some (p', s') →
  (p_phase p = Phase.Looping → p_status p = if p_admitting p then "running" else "quiet") →
  p_phase p' = Phase.Looping → p_status p' = if p_admitting p' then "running" else "quiet".
Proof. unfold apply_command, upd. intros E. repeat case_match; simplify_eq/=; auto; done. Qed.

Lemma linked_ext p p' :
  p_tasks p' = p_tasks p → p_inflight p' = p_inflight p → p_next_task p' = p_next_task p →
  linked p → linked p'.
Proof.
  intros Ht Hi Hn [He Hf]. constructor; rewrite ?Ht, ?Hi, ?Hn; [|done].
  intros id e (t & ?)%He. exists t. by rewrite Ht.
Qed.

Lemma beat_cases ord others p (s : S) p' s' :
  beat cfg ord others p s = (p', s') →
  ∃ p1 s1, renew_all cfg ord p s = (p1, s1)
    ∧ (p' = p1 ∨ ∃ cmd s2 s3, beat_command cfg ord others p s = Some cmd
                   ∧ apply_command cfg others cmd p1 s2 = Some (p', s3)).
Proof.
  unfold beat, beat_command. destruct (renew_all cfg ord p s) as [p1 s1] eqn:E. intros Hb. exists p1, s1.
  split; [done|]. destruct has_inspect; [|simplify_eq; by left].
  destruct (heartbeat_worker _ _) as [s2 [[cmd|]|]]; [|simplify_eq; by left..].
  destruct (apply_command cfg others cmd p1 _) as [[p2 s3]|] eqn:Ec; simplify_eq; [right|by left].
  by eauto.
Qed.

Lemma beat_ok ord others p s p' s' :
  beat cfg ord others p s = (p', s') → p_phase p = Phase.Looping → pool_ok cfg p → pool_ok cfg p'.
Proof.
  intros (p1 & s1 & Hr & Hc)%beat_cases Hph [Hl Hn Hst Hsp].
  apply renew_all_ok in Hr as (Hl1 & Hn1 & Hph1 & Had1 & Hst1 & _); [|done].
  assert (pool_ok cfg p1) as Hok1.
  { constructor; [done|lia| |]; rewrite Hph1, ?Had1, ?Hst1; [done|congruence]. }
  destruct Hc as [->|(cmd & s2 & s3 & _ & Hc)]; [done|].
  pose proof (apply_command_status _ _ _ _ _ _ Hc (po_status _ _ Hok1)) as Hst'.
  apply apply_command_cases in Hc as [(Ht & Hi & Hx & _ & _ & _ & Hp)|?]; [|congruence].
  constructor; [by eapply linked_ext| |done|by intros ?].
  unfold inflight_len in *. rewrite Hi. lia.
Qed.

Lemma poll_cases woke p (s : S) p' s' :
  may_poll cfg p = true → 0 ≤ inflight_len p → poll mul_multiplier mul_jitter cfg woke p s = (p', s') →
  ∃ cs, Z.of_nat (length cs) ≤ cfg_capacity cfg - inflight_len p
    ∧ p_tasks p' = p_tasks (foldl spawn p cs) ∧ p_inflight p' = p_inflight (foldl spawn p cs)
    ∧ p_next_task p' = p_next_task (foldl spawn p cs)
    ∧ p_phase p' = p_phase p ∧ p_admitting p' = p_admitting p ∧ p_status p' = p_status p
    ∧ p_duties_active p' = p_duties_active p.
Proof.
  unfold may_poll. intros [_ Hm%Z.ltb_lt]%andb_true_iff Hn. unfold poll, admit_once.
  set (p0 := p <| p_seq := u64_add (p_seq p) 1 |>).
  change (inflight_len p0) with (inflight_len p).
  assert (wrap_u32 (cfg_capacity cfg - inflight_len p) = cfg_capacity cfg - inflight_len p) as ->.
  { apply wrap_u32_id. unfold in_u32. lia. }
  destruct (ws_admit _ s) as [s1 [units|e]] eqn:Ea.
  - apply admit_within_capacity in Ea; [|simpl; lia]. simpl in Ea.
    set (cs := concat (group_admission_claims _ _)).
    destruct (poll_delay_after _ _ _ _ _ _ _) as [delay seed]. intros [= <- <-]. exists cs.
    split; [unfold cs; rewrite (Permutation_length (group_admission_perm _ _)); lia|].
    pose proof (spawn_all_control cs p0) as (? & ? & ? & ? & ? & ?).
    assert (∀ q q', p_tasks q = p_tasks q' → p_inflight q = p_inflight q' →
      p_next_task q = p_next_task q' → p_tasks (foldl spawn q cs) = p_tasks (foldl spawn q' cs)
      ∧ p_inflight (foldl spawn q cs) = p_inflight (foldl spawn q' cs)
      ∧ p_next_task (foldl spawn q cs) = p_next_task (foldl spawn q' cs)) as Hext.
    { clear. induction cs as [|c cs IH]; intros q q' E1 E2 E3; simpl; [done|]. apply IH;
        unfold spawn, upd; simpl; by rewrite ?E1, ?E2, ?E3. }
    destruct (Hext p0 p) as (? & ? & ?); [done..|]. unfold upd. simpl. done.
  - destruct (poll_delay_after _ _ _ _ _ _ _) as [delay seed]. intros [= <- <-]. exists [].
    simpl. split; [lia|done].
Qed.
Lemma inflight_len_nonneg p : 0 ≤ inflight_len p.
Proof. unfold inflight_len. lia. Qed.

Lemma poll_ok woke p (s : S) p' s' :
  may_poll cfg p = true → poll mul_multiplier mul_jitter cfg woke p s = (p', s') →
  p_phase p = Phase.Looping → pool_ok cfg p → pool_ok cfg p'.
Proof.
  intros Hm E Hph [Hl Hn Hst Hsp].
  apply poll_cases in E as (cs & Hlen & Ht & Hi & Hx & Hp & Ha & Hs & _);
    [|done|apply inflight_len_nonneg].
  destruct (spawn_all_linked cs p Hl) as [Hl' Hn']. constructor.
  - by eapply linked_ext.
  - unfold inflight_len in *. rewrite Hi, Hn'. lia.
  - rewrite Hp, Ha, Hs. done.
  - rewrite Hp. congruence.
Qed.

Lemma no_tasks_no_entries p : linked p → p_tasks p = ∅ → p_inflight p = ∅.
Proof.
  intros [He _] Ht. apply map_empty. intros id. destruct (p_inflight p !! id) eqn:E; [|done].
  apply He in E as (t & Hl & _). by rewrite Ht in Hl.
Qed.

Lemma empty_linked p : p_tasks p = ∅ → p_inflight p = ∅ → linked p.
Proof. intros Ht Hi. constructor; intros ? ?; by rewrite ?Ht, ?Hi, lookup_empty. Qed.

Lemma run_task_same wall tk (s : S) tk' s' :
  run_task dbg registry rt wall tk s = (tk', s') →
  tk_claim tk' = tk_claim tk ∧ tk_aborted tk' = tk_aborted tk ∧ tk_canceled tk' = tk_canceled tk.
Proof.
  unfold run_task. destruct (process_one _ _ _ _ _ _ _) as [[out evs] s1]. by intros [= <- <-].
Qed.

Lemma retask_ok p id tk tk' :
  pool_ok cfg p → p_tasks p !! id = Some tk → tk_claim tk' = tk_claim tk →
  tk_aborted tk' = tk_aborted tk → tk_canceled tk' = tk_canceled tk →
  pool_ok cfg (p <| p_tasks := <[id := tk']> (p_tasks p) |>).
Proof.
  intros [Hl Hn Hst Hsp] Ht Hc Ha Hx. constructor; [by eapply retask_linked|done|done|].
  unfold upd; simpl. intros [Hno _]%Hsp. by rewrite Hno in Ht.
Qed.

Lemma rephased_ok ph p :
  ph ≠ Phase.Looping → ph ≠ Phase.Stopped → pool_ok cfg p → pool_ok cfg (p <| p_phase := ph |>).
Proof.
  intros H1 H2 [Hl Hn _ _]. constructor; [by apply (linked_ext p)|done| |].
  - intros E. change (ph = Phase.Looping) in E. done.
  - intros E. change (ph = Phase.Stopped) in E. done.
Qed.

Lemma step_ok l c c' : step l c c' → pool_ok cfg c.1 → pool_ok cfg c'.1.
Proof.
  intros Hstep Hok. pose proof Hok as [Hl Hn Hst Hsp]. destruct Hstep; simpl in *.
  - by apply rephased_ok.
  - unfold memory_tick. repeat case_match; try done; by apply rephased_ok.
  - destruct (beat cfg ord others p s) as [p' s'] eqn:E. by eapply beat_ok.
  - destruct (poll _ _ cfg woke p s) as [p' s'] eqn:E. by eapply poll_ok.
  - constructor; [by apply finish_linked| |done|].
    2:{ intros E. change (p_phase p = Phase.Stopped) in E.
        match goal with Hp : _ ∨ _ |- _ => destruct Hp as [?|[??]]; congruence end. }
    pose proof (delete_len (p_inflight p) id). unfold inflight_len, finish_task, upd in *. simpl. lia.
  - by apply rephased_ok.
  - constructor; [by apply empty_linked| |done|done].
    unfold inflight_len, upd; simpl. rewrite map_size_empty. lia.
  - constructor; [by apply (linked_ext p)|done|done|]. intros _. unfold upd; simpl.
    split; [done|by apply no_tasks_no_entries].
  - match goal with Hr : run_task _ _ _ _ _ _ = _ |- _ => apply run_task_same in Hr as (? & ? & ?) end.
    by eapply retask_ok.
  - by eapply retask_ok.
  - done.
Qed.

Local Notation run := (pool_run mul_multiplier mul_jitter cfg dbg registry rt).

Lemma run_ok ls c c' : run ls c c' → pool_ok cfg c.1 → pool_ok cfg c'.1.
Proof. induction 1; [done|]. eauto using step_ok. Qed.

Lemma new_pool_ok pid : pool_ok cfg (new_pool cfg pid).
Proof.
  constructor; [by apply empty_linked| |done|done].
  unfold inflight_len; simpl. rewrite map_size_empty. lia.
Qed.

(** ** Who admits *)

(** Outside its loop the worker only joins, hands back and stops. *)
Lemma step_phase l c c' :
  step l c c' → p_phase c.1 ≠ Phase.Looping →
  p_phase c'.1 ≠ Phase.Looping ∧ p_seq c'.1 = p_seq c.1
  ∧ (∀ id e, p_inflight c'.1 !! id = Some e → p_inflight c.1 !! id = Some e).
Proof.
  intros Hstep Hp. destruct Hstep; simpl in *; try done; unfold upd; simpl.
  - split_and!; [done|done|]. intros ? ? [_ ?]%lookup_delete_Some. done.
Qed.

Lemma run_phase ls c c' :
  run ls c c' → p_phase c.1 ≠ Phase.Looping →
  p_phase c'.1 ≠ Phase.Looping ∧ p_seq c'.1 = p_seq c.1
  ∧ (∀ id e, p_inflight c'.1 !! id = Some e → p_inflight c.1 !! id = Some e).
Proof.
  induction 1 as [|l ls c c1 c2 Hs _ IH]; [done|]. intros Hp.
  destruct (step_phase _ _ _ Hs Hp) as (Hp1 & Hq1 & Hi1). destruct (IH Hp1) as (? & ? & ?).
  split_and!; [done|congruence|eauto].
Qed.

(** A draining worker no longer renews: the arm that heartbeats belongs to the loop.  A handler
    that a rolling restart waits for keeps its lease only as long as the last renewal lasts. *)
Lemma draining_never_renews ls c c' :
  run ls c c' → p_phase c.1 ≠ Phase.Looping → ∀ cmd, LBeat cmd ∉ ls.
Proof.
  induction 1 as [|l ls c c1 c2 Hs _ IH]; intros Hp cmd; [apply not_elem_of_nil|].
  destruct (step_phase _ _ _ Hs Hp) as [Hp1 _].
  apply not_elem_of_cons. split; [|by apply IH]. intros <-. by inversion Hs; subst.
Qed.

Lemma beat_seq ord others p (s : S) p' s' : beat cfg ord others p s = (p', s') → linked p →
  p_seq p' = p_seq p ∧ (p_duties_active p' = true → p_duties_active p = true)
  ∨ p_phase p = Phase.Stopped.
Proof.
  intros (p1 & s1 & Hr & Hc)%beat_cases Hl.
  apply renew_all_ok in Hr as (_ & _ & Hp & _ & _ & Hq & Hd & _); [|done]. rewrite <-Hq, <-Hd, <-Hp.
  destruct Hc as [->|(cmd & s2 & s3 & _ & Hc)]; [by left|].
  apply apply_command_cases in Hc as [(_ & _ & _ & ? & _ & ? & _)|?]; [by left|by right].
Qed.

Lemma step_seq l c c' : step l c c' → pool_ok cfg c.1 → p_seq c'.1 ≠ p_seq c.1 →
  (∃ woke, l = LPoll woke) ∧ p_phase c.1 = Phase.Looping ∧ p_status c.1 = "running"
  ∧ inflight_len c.1 < cfg_capacity cfg.
Proof.
  intros Hstep [Hl _ Hst _] Hne. destruct Hstep; simpl in *; try done.
  - exfalso. apply Hne. unfold memory_tick. by repeat case_match.
  - exfalso. apply Hne. destruct (beat cfg ord others p s) as [p' s'] eqn:E.
    destruct (beat_seq _ _ _ _ _ _ E Hl) as [[? _]|?]; [done|congruence].
  - match goal with Hm : may_poll _ _ = true |- _ => apply andb_true_iff in Hm as [Ha Hc%Z.ltb_lt] end.
    split_and!; [by eauto|done| |done]. rewrite Hst by done. by rewrite Ha.
Qed.

Lemma step_duties l c c' : step l c c' → pool_ok cfg c.1 →
  p_duties_active c'.1 = true → p_duties_active c.1 = true.
Proof.
  intros Hstep [Hl _ _ _] Hd. destruct Hstep; simpl in *; try done.
  - revert Hd. unfold memory_tick. by repeat case_match.
  - destruct (beat cfg ord others p s) as [p' s'] eqn:E.
    destruct (beat_seq _ _ _ _ _ _ E Hl) as [[_ ?]|?]; [auto|congruence].
  - destruct (poll _ _ cfg woke p s) as [p' s'] eqn:E.
    apply poll_cases in E as (cs & _ & _ & _ & _ & _ & _ & _ & E); [|done|apply inflight_len_nonneg].
    simpl in Hd. congruence.
Qed.

Lemma step_quiet l c c' : step l c c' → pool_ok cfg c.1 → l ≠ LBeat (Some "resume") → p_admitting c.1 = false →
  p_admitting c'.1 = false ∧ p_seq c'.1 = p_seq c.1.
Proof.
  intros Hstep [Hli _ _ _] Hl Ha. destruct Hstep; simpl in *; try done.
  - unfold memory_tick. by repeat case_match.
  - destruct (beat cfg ord others p s) as [p' s'] eqn:E.
    destruct (beat_seq _ _ _ _ _ _ E Hli) as [[? _]|?]; [|congruence]. split; [|done].
    apply beat_cases in E as (p1 & s1 & Hr & Hc).
    apply renew_all_ok in Hr as (_ & _ & _ & Ha1 & _); [|done]. rewrite <-Ha1 in Ha.
    destruct Hc as [->|(cmd & s2 & s3 & Hcmd & Hc)]; [done|]. rewrite Hcmd in Hl.
    eapply apply_command_admitting; [exact Hc|congruence|done].
  - match goal with Hm : may_poll _ _ = true |- _ => apply andb_true_iff in Hm as [Hm _] end.
    congruence.
Qed.

Lemma run_quiet ls c c' : run ls c c' → pool_ok cfg c.1 → LBeat (Some "resume") ∉ ls → p_admitting c.1 = false →
  p_admitting c'.1 = false ∧ p_seq c'.1 = p_seq c.1.
Proof.
  induction 1 as [|l ls c c1 c2 Hs _ IH]; [done|]. intros Hok Hn Ha.
  destruct (step_quiet _ _ _ Hs) as [Ha1 <-]; [done|set_solver|done|]. apply IH; [by eapply step_ok|set_solver|done].
Qed.

Lemma run_duties ls c c' : run ls c c' → pool_ok cfg c.1 →
  p_duties_active c'.1 = true → p_duties_active c.1 = true.
Proof.
  induction 1 as [|l ls c c1 c2 Hs _ IH]; [done|]. intros Hok Hd.
  eapply step_duties; [done|done|]. apply IH; [by eapply step_ok|done].
Qed.

(** ** Draining *)

(** The steps of the worker's own task. *)
Definition loop_label (l : label) : bool :=
  match l with LRun _ | LCancelled _ | LOthers => false | _ => true end.

(** What the drain still has to do: join each task, and return. *)
Definition drain_work (p : Pool) : nat :=
  match p_phase p with Phase.Draining _ => (1 + size (p_tasks p))%nat | _ => 0%nat end.

Definition past_loop (d : option Z) (p : Pool) : Prop := p_phase p = Phase.Draining d ∨ p_phase p = Phase.Stopped.

Lemma insert_size {A} (m : gmap Z A) id x y : m !! id = Some x → size (<[id := y]> m) = size m.
Proof. intros E. by rewrite map_size_insert, E. Qed.

(** Each step of the loop does some of the work, and no other step adds to it. *)
Lemma drain_step d l c c' : step l c c' → past_loop d c.1 →
  past_loop d c'.1 ∧ (drain_work c'.1 + (if loop_label l then 1 else 0) ≤ drain_work c.1)%nat.
Proof.
  unfold past_loop, drain_work. intros Hstep Hd. destruct Hstep; simpl in *; try (by destruct Hd; congruence);
    unfold finish_task, drain_deadline, upd; simpl.
  - destruct Hd as [->|Hd]; [|match goal with Hx : _ ∨ _ |- _ => by destruct Hx as [?|[??]]; congruence end].
    split; [by left|]. rewrite map_size_delete. destruct (p_tasks p !! id) eqn:E; [|done].
    assert (size (p_tasks p) ≠ 0%nat) by (intros Hz%map_size_empty_inv; by rewrite Hz in E). lia.
  - destruct Hd as [->|Hd]; [|congruence]. split; [by right|lia].
  - destruct Hd as [->|Hd]; [|congruence]. split; [by right|lia].
  - split; [done|]. erewrite insert_size by done. lia.
  - split; [done|]. erewrite insert_size by done. lia.
  - split; [done|]. lia.
Qed.

Lemma drain_run d ls c c' : run ls c c' → past_loop d c.1 →
  past_loop d c'.1 ∧ (drain_work c'.1 + length (List.filter loop_label ls) ≤ drain_work c.1)%nat.
Proof.
  induction 1 as [|l ls c c1 c2 Hs _ IH]; intros Hd; [split; [done|simpl; lia]|].
  destruct (drain_step _ _ _ _ Hs Hd) as [Hd1 Hw1]. destruct (IH Hd1) as [Hd2 Hw2]. split; [done|].
  cbn [List.filter]. destruct (loop_label l); simpl length; lia.
Qed.

(** Some task has ended, or none has. *)
Lemma ended_or_not (m : gmap Z Task) :
  (∃ id t, m !! id = Some t ∧ is_Some (tk_end t)) ∨ ∀ id t, m !! id = Some t → tk_end t = None.
Proof.
  destruct (decide (map_Forall (λ _ t, tk_end t = None) m)) as [E|E]; [right; exact E|left].
  apply map_not_Forall in E as (id & t & Ht & He); [|solve_decision]. exists id, t. split; [done|].
  destruct (tk_end t); [done|congruence].
Qed.
End invariant.

(** ** Handing jobs back to the in-memory store *)

Section release.
Context (now : Z) (rp : RetryPolicy).
#[local] Existing Instance mem_worker.
Local Notation release_entry := (release_entry (H := mem_worker now rp)).

(** Back in the queue, with every budget and the fence as they were. *)
Record handed_back (j j' : MemJob) : Prop := {
  hb_state : mj_state j' = "available" ∧ mj_lease_id j' = "" ∧ mj_fence j' = mj_fence j;
  hb_budgets : e_attempt (mj_env j') = e_attempt (mj_env j)
    ∧ e_crash_attempt (mj_env j') = e_crash_attempt (mj_env j)
    ∧ e_max_attempts (mj_env j') = e_max_attempts (mj_env j);
}.

Lemma release_entry_spec i x :
  inner_ok i →
  inner_ok (release_entry i x)
  ∧ ∀ id, match jobs i !! id with
          | Some j =>
              if bool_decide (lr_job_id (if_lease x.2) = id) && holds_lease j (if_lease x.2)
              then ∃ j', jobs (release_entry i x) !! id = Some j' ∧ handed_back j j'
              else jobs (release_entry i x) !! id = Some j
          | None => jobs (release_entry i x) !! id = None
          end.
Proof.
  intros Hok. unfold Pool.release_entry. simpl.
  set (l := if_lease x.2). split.
  { apply (run_inner_ok now (job_ids i) rp (OpAck l Outcome.RateLimited
      (Some "released: worker shutdown") None [] None) i); done. }
  destruct (ack_attempt_with_actual_weight _ _ _ _ _ _ _ _ _) as [i' res] eqn:Ea. simpl.
  pose proof (ack_accepts now rp l Outcome.RateLimited (Some "released: worker shutdown") None [] None i)
    as Hacc. rewrite Ea in Hacc. simpl in Hacc. rewrite andb_true_r in Hacc.
  apply ack_spec in Ea as [(Hid & _ & ->)|(j & r & j1 & Hj & Hh & Ht & _ & Hr)]; [| |done].
  - intros id. destruct (jobs i !! id) as [j|] eqn:Ej; [|done].
    case_bool_decide as E; simpl; [|done]. destruct (holds_lease j l) eqn:Eh; [|done].
    subst id. assert (identity i l = Ok tt) by (apply identity_ok; eauto). congruence.
  - assert (identity i l = Ok tt) as Hid by (apply identity_ok; eauto). rewrite Hid in Hacc.
    destruct res; [|done]. unfold outcome_applied in Hr. simpl in Hr.
    destruct Hr as (j2 & -> & Hs & [[Hl _] Hf (? & ? & ? & He)] & Hat & Hcr). simpl in Hat.
    intros id. unfold moved_store, reconciled, upd. simpl.
    destruct (decide (id = lr_job_id l)) as [->|Hne].
    + rewrite Hj, Hh, bool_decide_eq_true_2 by done. simpl. exists j2. rewrite lookup_insert_eq.
      split; [done|]. constructor; rewrite <-?(jt_env _ _ Ht), <-?(jt_fence _ _ Ht);
        [done|split_and!; [done|done|by rewrite He]].
    + rewrite !lookup_insert_ne by done. rewrite bool_decide_eq_false_2 by done. simpl.
      by case_match.
Qed.

Definition released_by (es : list (Z * Inflight)) (id : string) (j : MemJob) : bool :=
  existsb (λ x, bool_decide (lr_job_id (if_lease x.2) = id) && holds_lease j (if_lease x.2)) es.

Lemma handed_back_not_held j j' l : handed_back j j' → holds_lease j' l = false.
Proof.
  intros [(Hs & _ & _) _]. destruct (holds_lease j' l) eqn:E; [|done].
  apply holds_lease_true in E as [? _]. congruence.
Qed.

Lemma not_held_not_released es id j :
  (∀ l, holds_lease j l = false) → released_by es id j = false.
Proof.
  intros Hn. unfold released_by. induction es as [|x es IH]; [done|]. simpl.
  by rewrite Hn, andb_false_r, IH.
Qed.

Lemma release_all_spec es i :
  inner_ok i →
  ∀ id, match jobs i !! id with
        | Some j =>
            if released_by es id j
            then ∃ j', jobs (foldl release_entry i es) !! id = Some j' ∧ handed_back j j'
            else jobs (foldl release_entry i es) !! id = Some j
        | None => jobs (foldl release_entry i es) !! id = None
        end.
Proof.
  revert i. induction es as [|x es IH]; intros i Hok id; simpl; [by case_match|].
  destruct (release_entry_spec i x Hok) as [Hok' Hx]. specialize (Hx id).
  specialize (IH _ Hok' id). destruct (jobs i !! id) as [j|]; [|by rewrite Hx in IH].
  destruct (bool_decide _ && holds_lease j _); simpl.
  - destruct Hx as (j' & Hj' & Hb). rewrite Hj' in IH.
    rewrite not_held_not_released in IH by (intros; by eapply handed_back_not_held). eauto.
  - by rewrite Hx in IH.
Qed.
End release.

(** ** A store with a control mailbox

    The in-memory store next to one worker's pending command, as a store with the inspection
    surface keeps it: a heartbeat reads the command and leaves it there. *)

Record Mailbox := mkMailbox { mb_inner : Inner; mb_command : option string }.

Definition on_inner {A} (f : Inner → Inner * A) (m : Mailbox) : Mailbox * A :=
  let '(i, a) := f (mb_inner m) in (mkMailbox i (mb_command m), a).

Section mailbox.
Context (now : Z) (rp : RetryPolicy).

#[export] Instance mailbox_worker : WorkerStore Mailbox := {|
  ws_admit req := on_inner (ws_admit (WorkerStore := mem_worker now rp) req);
  ws_ack l o err d logs aw := on_inner (ws_ack (WorkerStore := mem_worker now rp) l o err d logs aw);
  ws_renew leases lease := on_inner (ws_renew (WorkerStore := mem_worker now rp) leases lease);
  as_result_store := None;
  as_output_store := None;
  as_progress_store := None;
|}.

#[export] Instance mailbox_control : ControlStore Mailbox := {|
  has_inspect := true;
  heartbeat_worker _ m := (m, Ok (mb_command m));
  signal_worker _ cmd m := (mkMailbox (mb_inner m) cmd, Ok tt);
  ws_release_duty duty holder := on_inner (release_duty duty holder);
|}.

Lemma concat_singletons {A} (l : list A) : concat ((λ x, [x]) <$> l) = l.
Proof. induction l as [|x l IH]; csimpl; [done|]. by rewrite IH. Qed.

Lemma length_omap_le {A B} (f : A → option B) (l : list A) : (length (omap f l) ≤ length l)%nat.
Proof. induction l as [|x l IH]; csimpl; [done|]. destruct (f x); simpl; lia. Qed.

Lemma mem_admit_within i req i' units :
  0 ≤ ar_capacity req → mem_admit now (job_ids i) req i = (i', Ok units) →
  Z.of_nat (length (concat units)) ≤ ar_capacity req.
Proof.
  intros Hc Ha. destruct (duration_is_zero (ar_lease req)) eqn:Ez.
  { unfold mem_admit in Ha. by rewrite Ez in Ha. }
  rewrite admit_unfold in Ha by done. injection Ha as _ <-.
  destruct (drawn_all_drawn now req i (job_ids i)) as [cs Hd]; [by eapply perm_job_ids_nodup|].
  rewrite (dr_units _ _ _ _ _ Hd), concat_singletons.
  pose proof (dr_len _ _ _ _ _ Hd). pose proof (length_omap_le (λ id, claim_of now req <$> jobs i !! id) cs).
  lia.
Qed.

#[export] Instance mailbox_laws : PoolLaws Mailbox.
Proof.
  constructor. intros req m m' units Hc. simpl. unfold on_inner.
  destruct (mem_admit now (job_ids (mb_inner m)) req (mb_inner m)) as [i r] eqn:E.
  intros [= <- ->]. by eapply mem_admit_within.
Qed.
End mailbox.

(** ** Theorems *)

(** C16.  In every interleaving of its arms, its tasks and other processes, a worker holds at
    most [capacity] jobs in flight.  Each in-flight entry has its own spawned task, with the
    lease of the task's claim, that nobody has aborted; the status it reports while looping is
    ["running"] exactly when it admits and ["quiet"] otherwise; and once stopped it holds
    nothing. *)
Theorem worker_never_exceeds_capacity {S} `{WorkerStore S} `{ControlStore S} `{!PoolLaws S}
    (mul_multiplier : duration → duration) (mul_jitter : Z → duration → duration)
    (cfg : WorkerConfig) (dbg : duration → string)
    (registry : string → option (JobCtx → S → HandlerEnd * JobCtx * S)) (rt : Runtime)
    (pid : Z) (ls : list label) (s s' : S) (p : Pool) :
  0 ≤ cfg_capacity cfg ≤ u32_max →
  pool_run mul_multiplier mul_jitter cfg dbg registry rt ls (new_pool cfg pid, s) (p, s') →
  inflight_len p ≤ cfg_capacity cfg
  ∧ (∀ id e, p_inflight p !! id = Some e → entry_live p id e)
  ∧ (p_phase p = Phase.Looping → p_status p = if p_admitting p then "running" else "quiet")
  ∧ (p_phase p = Phase.Stopped → p_tasks p = ∅ ∧ p_inflight p = ∅).
Proof.
  intros Hcap Hrun. apply run_ok in Hrun as [[He _] Hn Hst Hsp]; [done|done|].
  by apply new_pool_ok.
Qed.

(** C17.  Admission stops when it should.  From a reachable state, only the polling arm of a
    looping worker whose status is ["running"] and that has room takes a lease number; a
    worker that has gone quiet stays so and takes none, whatever its heartbeats bring, until
    one of them is answered with the command ["resume"]; a worker that has left its loop never
    loops again, takes no lease number and adds nothing to what it has in flight; and duties
    once given up are never taken back. *)
Theorem admission_stops_on_command {S} `{WorkerStore S} `{ControlStore S} `{!PoolLaws S}
    (mul_multiplier : duration → duration) (mul_jitter : Z → duration → duration)
    (cfg : WorkerConfig) (dbg : duration → string)
    (registry : string → option (JobCtx → S → HandlerEnd * JobCtx * S)) (rt : Runtime)
    (pid : Z) (ls0 : list label) (s0 s : S) (p : Pool) :
  0 ≤ cfg_capacity cfg ≤ u32_max →
  pool_run mul_multiplier mul_jitter cfg dbg registry rt ls0 (new_pool cfg pid, s0) (p, s) →
  (∀ l p' s', pool_step mul_multiplier mul_jitter cfg dbg registry rt l (p, s) (p', s') →
     p_seq p' ≠ p_seq p →
     (∃ woke, l = LPoll woke) ∧ p_phase p = Phase.Looping ∧ p_status p = "running"
     ∧ inflight_len p < cfg_capacity cfg)
  ∧ (∀ ls p' s', pool_run mul_multiplier mul_jitter cfg dbg registry rt ls (p, s) (p', s') →
       (p_admitting p = false → LBeat (Some "resume") ∉ ls → p_admitting p' = false ∧ p_seq p' = p_seq p)
       ∧ (p_phase p ≠ Phase.Looping →
            p_phase p' ≠ Phase.Looping ∧ p_seq p' = p_seq p
            ∧ ∀ id e, p_inflight p' !! id = Some e → p_inflight p !! id = Some e)
       ∧ (p_duties_active p' = true → p_duties_active p = true)).
Proof.
  intros Hcap Hrun. apply run_ok in Hrun as Hok; [|done|by apply new_pool_ok]. split.
  - intros l p' s' Hs Hne. eapply step_seq in Hs; done.
  - intros ls p' s' Hr. split_and!.
    + intros Ha Hb. by eapply run_quiet in Hr.
    + intros Hp. eapply run_phase in Hr; done.
    + intros Hd. eapply run_duties in Hr; done.
Qed.

Lemma entries_perm ord p : is_order ord p → entries ord p ≡ₚ map_to_list (p_inflight p).
Proof.
  intros Ho. unfold entries. rewrite Ho.
  enough (∀ l, (∀ x, x ∈ l → x ∈ map_to_list (p_inflight p)) →
    omap (λ id, pair id <$> p_inflight p !! id) l.*1 = l) as -> by done.
  induction l as [|[id e] l IH]; intros Hl; [done|]. csimpl.
  rewrite (proj1 (elem_of_map_to_list _ id e)) by (apply Hl; by left). simpl.
  f_equal. apply IH. intros x Hx. apply Hl. by right.
Qed.

(** The heartbeat renews exactly the leases in flight.  If the store reports some of them
    lost, the entries of those jobs leave the in-flight set and their tasks are cancelled and
    aborted, so that the loop never acks them; every other entry and task stays as it is.  If
    the renewal fails, nothing changes: a failed renewal is not a lost lease. *)
Theorem lost_leases_are_dropped {S} `{WorkerStore S} (cfg : WorkerConfig) (ord : list Z) (p : Pool)
    (s s' : S) (r : result (list string) StoreError.StoreError) :
  is_order ord p → p_inflight p ≠ ∅ →
  ws_renew (if_lease ∘ snd <$> entries ord p) (cfg_lease cfg) s = (s', r) →
  (if_lease ∘ snd <$> entries ord p) ≡ₚ if_lease ∘ snd <$> map_to_list (p_inflight p)
  ∧ ∃ p', renew_all cfg ord p s = (p', s')
      ∧ match r with
        | Err _ => p' = p
        | Ok lost =>
            (∀ id, p_inflight p' !! id =
               e ← p_inflight p !! id; if bool_decide (if_job_id e ∈ lost) then None else Some e)
            ∧ (∀ id e, p_inflight p !! id = Some e → if_job_id e ∈ lost →
                 ∀ t, p_tasks p' !! id = Some t → tk_canceled t = true ∧ tk_aborted t = true)
            ∧ (∀ id e, p_inflight p !! id = Some e → if_job_id e ∉ lost →
                 p_tasks p' !! id = p_tasks p !! id)
        end.
Proof.
  intros Ho Hne Hr. split; [by rewrite (entries_perm _ _ Ho)|]. unfold renew_all.
  rewrite bool_decide_eq_false_2 by done. rewrite Hr.
  destruct r as [lost|e]; eexists; (split; [done|]); [|done].
  destruct (drop_lost_dropped lost (entries ord p) p) as [_ Hi Ht]. split_and!.
  - intros id. rewrite Hi, hit_entries by done. destruct (p_inflight p !! id); simpl; [|done].
    by case_bool_decide.
  - intros id e He Hl t Htk. rewrite Ht, hit_entries, He, bool_decide_eq_true_2 in Htk by done.
    apply fmap_Some in Htk as (t0 & _ & ->). done.
  - intros id e He Hl. rewrite Ht, hit_entries, He, bool_decide_eq_false_2 by done. done.
Qed.


(** Handing jobs back at shutdown costs them nothing.  Over the in-memory store, of the
    jobs in flight at the deadline exactly those whose lease is still held go back to the
    queue: available, without a lease, with attempts, crash attempts, attempt limit and fence
    unchanged.  Every other job, in flight or not, is left exactly as it was. *)
Theorem shutdown_release_is_free now rp (es : list (Z * Inflight)) (i : Inner) :
  inner_ok i →
  ∀ id j, jobs i !! id = Some j →
    if released_by es id j
    then ∃ j', jobs (foldl (release_entry (H := mem_worker now rp)) i es) !! id = Some j'
               ∧ handed_back j j'
    else jobs (foldl (release_entry (H := mem_worker now rp)) i es) !! id = Some j.
Proof.
  intros Hok id j Hj. pose proof (release_all_spec now rp es i Hok id) as Hr. by rewrite Hj in Hr.
Qed.

(** The poll window holds the last [POLL_WINDOW] admissions, oldest first. *)
Theorem window_is_rolling (history : list nat) :
  foldl (flip window_record) [] history
  = drop (length history - POLL_WINDOW) ((λ n, (n =? 0)%nat) <$> history).
Proof.
  induction history as [|n h IH] using rev_ind; [done|].
  rewrite foldl_app, fmap_app, length_app. simpl. rewrite IH. unfold window_record.
  rewrite length_drop, length_fmap. destruct (Nat.eqb_spec (length h - (length h - POLL_WINDOW)) POLL_WINDOW) as [E|E].
  - rewrite drop_app_le by (rewrite length_fmap; unfold POLL_WINDOW in *; lia).
    f_equal. assert (∀ l : list bool, tail l = drop 1 l) as -> by (by intros [|? ?]).
    rewrite drop_drop. f_equal. unfold POLL_WINDOW in *. lia.
  - rewrite drop_app_le by (rewrite length_fmap; unfold POLL_WINDOW in *; lia).
    do 2 f_equal. unfold POLL_WINDOW in *. lia.
Qed.

(** ** A lost command *)

(** The worker acknowledges a command by clearing the mailbox unconditionally, so a command
    that arrives between the heartbeat that delivered the previous one and the clearing is
    cleared with it: here [quiet] is delivered, the operator sends [terminate], and after the
    acknowledgement nothing is pending. *)
Theorem command_between_beat_and_ack_is_lost (cfg : WorkerConfig) (p : Pool) (i : Inner) :
  let m := mkMailbox i (Some "quiet") in
  let '(m, r) := heartbeat_worker (ControlStore := mailbox_control) (saturation cfg p) m in
  let '(m, _) := signal_worker (ControlStore := mailbox_control) (cfg_worker_id cfg)
                   (Some "terminate") m in
  r = Ok (Some "quiet")
  ∧ mb_command (acknowledge_worker_command (H0 := mailbox_control) cfg (λ _ m, m) (saturation cfg p) "quiet" true m)
    = None.
Proof. done. Qed.

(** ** Witnesses *)

Definition demo_cfg : WorkerConfig :=
  mkWorkerConfig "w1" ["default"] 1 30000000000 100 50000000 2000000000 25000000000 None true "host" 7 1000.

Definition demo_mail : Mailbox := mkMailbox demo_store (Some "quiet").

(** One admission by a new worker. *)
Definition demo_polled : Pool * Mailbox :=
  poll (H := mailbox_worker 10 demo_policy) (λ d, 2 * d) (λ _ d, d) demo_cfg false
    (new_pool demo_cfg 7) demo_mail.

Definition demo_registry (_ : string) : option (JobCtx → Mailbox → HandlerEnd * JobCtx * Mailbox) :=
  Some skipping.

Lemma demo_poll_run :
  pool_run (H := mailbox_worker 10 demo_policy) (H0 := mailbox_control) (λ d, 2 * d) (λ _ d, d) demo_cfg
    (λ _, "") demo_registry demo_runtime [LPoll false] (new_pool demo_cfg 7, demo_mail)
    (demo_polled.1, demo_polled.2).
Proof.
  rewrite <-surjective_pairing. econstructor; [|constructor].
  apply step_poll; [reflexivity|by vm_compute].
Qed.

Lemma worker_never_exceeds_capacity_witness :
  inflight_len demo_polled.1 = 1 ∧ inflight_len demo_polled.1 ≤ cfg_capacity demo_cfg.
Proof.
  split; [by vm_compute|].
  exact (proj1 (worker_never_exceeds_capacity (H := mailbox_worker 10 demo_policy)
    (PoolLaws0 := mailbox_laws 10 demo_policy) (λ d, 2 * d)
    (λ _ d, d) demo_cfg (λ _, "") demo_registry demo_runtime 7 [LPoll false] demo_mail demo_polled.2
    demo_polled.1 ltac:(by vm_compute) demo_poll_run)).
Defined.

(** A worker that was told to be quiet. *)
Definition demo_quiet : Pool * Mailbox :=
  beat (H := mailbox_worker 10 demo_policy) (H0 := mailbox_control) demo_cfg [0] (λ _ m, m) demo_polled.1 demo_polled.2.

Lemma demo_order : is_order [0] demo_polled.1.
Proof. unfold is_order. by assert ((map_to_list (p_inflight demo_polled.1)).*1 = [0]) as -> by (by vm_compute). Qed.

Lemma demo_quiet_run :
  pool_run (H := mailbox_worker 10 demo_policy) (H0 := mailbox_control) (λ d, 2 * d) (λ _ d, d) demo_cfg
    (λ _, "") demo_registry demo_runtime [LPoll false; LBeat (Some "quiet")] (new_pool demo_cfg 7, demo_mail)
    (demo_quiet.1, demo_quiet.2).
Proof.
  rewrite <-surjective_pairing. econstructor; [apply step_poll; [reflexivity|by vm_compute]|].
  econstructor; [|constructor]. fold demo_polled. rewrite (surjective_pairing demo_polled).
  assert (beat_command (H := mailbox_worker 10 demo_policy) (H0 := mailbox_control) demo_cfg [0] (λ _ m, m)
    demo_polled.1 demo_polled.2 = Some "quiet") as <- by (by vm_compute).
  apply step_beat; [by vm_compute|apply demo_order].
Qed.

Lemma admission_stops_on_command_witness :
  p_seq demo_quiet.1 = 1
  ∧ ∀ ls p s, pool_run (H := mailbox_worker 10 demo_policy) (H0 := mailbox_control) (λ d, 2 * d) (λ _ d, d)
                demo_cfg (λ _, "") demo_registry demo_runtime ls (demo_quiet.1, demo_quiet.2) (p, s) →
         LBeat (Some "resume") ∉ ls → p_seq p = p_seq demo_quiet.1.
Proof.
  split; [by vm_compute|]. intros ls p s Hr Hn.
  assert (0 ≤ cfg_capacity demo_cfg ≤ u32_max) as Hc by (by vm_compute).
  destruct (proj2 (admission_stops_on_command (H := mailbox_worker 10 demo_policy)
    (PoolLaws0 := mailbox_laws 10 demo_policy) (λ d, 2 * d) (λ _ d, d) demo_cfg (λ _, "")
    demo_registry demo_runtime 7 _ demo_mail demo_quiet.2 demo_quiet.1 Hc demo_quiet_run)
    ls p s Hr) as [H _]. apply H; [by vm_compute|exact Hn].
Defined.

(** The reclaimer took the job away in the meantime. *)
Definition demo_taken : Mailbox :=
  mkMailbox (reclaim_expired 100000 demo_policy 10 (mb_inner demo_polled.2)).1 None.

Definition demo_renewed : Mailbox * result (list string) StoreError.StoreError :=
  ws_renew (WorkerStore := mailbox_worker 100001 demo_policy)
    (if_lease ∘ snd <$> entries [0] demo_polled.1) (cfg_lease demo_cfg) demo_taken.

Lemma lost_leases_are_dropped_witness :
  ∃ p' s', renew_all (H := mailbox_worker 100001 demo_policy) demo_cfg [0] demo_polled.1 demo_taken = (p', s')
    ∧ p_inflight p' !! 0 = None.
Proof.
  assert (p_inflight demo_polled.1 ≠ ∅) as Hne.
  { intros E. assert (size (p_inflight demo_polled.1) = 1%nat) as Hs by (by vm_compute).
    rewrite E in Hs. by vm_compute in Hs. }
  assert (demo_renewed.2 = Ok ["a2"]) as Hr by (by vm_compute).
  assert (if_job_id <$> p_inflight demo_polled.1 !! 0 = Some "a2") as Hj by (by vm_compute).
  destruct (lost_leases_are_dropped (H := mailbox_worker 100001 demo_policy) demo_cfg [0] demo_polled.1
    demo_taken demo_renewed.1 demo_renewed.2 demo_order Hne (surjective_pairing demo_renewed)) as (_ & p' & Hp & Hm).
  rewrite Hr in Hm. destruct Hm as [Hi _]. exists p', demo_renewed.1. split; [exact Hp|]. rewrite Hi.
  clear - Hj. destruct (p_inflight demo_polled.1 !! 0) as [e|]; [|discriminate]. injection Hj as Hj.
  cbn [mbind option_bind]. rewrite bool_decide_eq_true_2; [reflexivity|]. rewrite Hj. by left.
Defined.

Definition demo_draining : Pool := drain_start demo_cfg 1000 false demo_polled.1.

Lemma demo_draining_order : is_order [0] demo_draining.
Proof. unfold is_order. by assert ((map_to_list (p_inflight demo_draining)).*1 = [0]) as -> by (by vm_compute). Qed.


Lemma shutdown_release_is_free_witness :
  released_by [(0, mkInflight "a2" demo_lease)] "a2" (default (new_job default_envelope "")
    (jobs demo_admitted !! "a2")) = true
  ∧ ∃ j', jobs (foldl (release_entry (H := mem_worker 20 demo_policy)) demo_admitted
                  [(0, mkInflight "a2" demo_lease)]) !! "a2" = Some j'
          ∧ mj_state j' = "available".
Proof.
  assert (released_by [(0, mkInflight "a2" demo_lease)] "a2" (default (new_job default_envelope "")
    (jobs demo_admitted !! "a2")) = true) as Hr by (by vm_compute).
  split; [done|].
  assert (is_Some (jobs demo_admitted !! "a2")) as [j Hj] by (apply (bool_decide_unpack _); by vm_compute).
  pose proof (shutdown_release_is_free 20 demo_policy [(0, mkInflight "a2" demo_lease)] demo_admitted
    demo_admitted_ok "a2" j Hj) as H. rewrite Hj in Hr. simpl default in Hr. rewrite Hr in H.
  destruct H as (j' & Hj' & [[Hs _] _]). exists j'. split; [exact Hj'|exact Hs].
Defined.
