(* ===== verification/Duties.v ===== *)
(** * headgate: singleton duties

    Models [spawn_duties], [run_duty] and [release_duties] of [crates/headgate/src/worker.rs]:
    each of the six duties is claimed for twice the interval before it is run, a duty held by
    somebody else is skipped, and a sweep that quarantines or deletes says so.  The store's
    sweeps are a type class; the three that need the inspection surface are optional. *)

From S2P Require Import Prelude Shared Lifecycle Envelope MemStore MemAdmit MemInv MemLease Core Attempt Worker Pool.
Local Open Scope Z_scope.

Module DutyEvent.
Inductive DutyEvent :=
  | Quarantined (fingerprint : string) (crashes : Z)
  | Evicted (queue : string) (count : Z).
End DutyEvent.

Class SweepStore (S : Type) := {
  sw_claim_duty : string → string → duration → S → S * result bool StoreError.StoreError;
  sw_release_duty : string → string → S → S * result unit StoreError.StoreError;
  sw_reclaim_expired : Z → S → S * result (list Reclaimed) StoreError.StoreError;
  sw_promote_due : Z → S → S * result Z StoreError.StoreError;
  sw_evict_retained : Z → S → S * result Z StoreError.StoreError;
  sw_scheduler_sweep : option (S → S * result Z StoreError.StoreError);
  sw_run_pending_operations : option (Z → S → S * result Z StoreError.StoreError);
  sw_quarantine_sweep : option (Z → S → S * result Z StoreError.StoreError);
}.

Section duties.
Context {S : Type} `{SweepStore S}.

Definition quarantine_events (out : list Reclaimed) : list DutyEvent.DutyEvent :=
  flat_map (λ r, if rc_quarantined r
                 then [DutyEvent.Quarantined (rc_fingerprint r) (rc_crash_attempt r)] else []) out.

Definition run_duty (duty : string) (s : S) : S * list DutyEvent.DutyEvent :=
  if String.eqb duty "reclaimer" then
    match sw_reclaim_expired 1000 s with
    | (s, Ok out) => (s, quarantine_events out)
    | (s, Err _) => (s, [])
    end
  else if String.eqb duty "promoter" then ((sw_promote_due 10000 s).1, [])
  else if String.eqb duty "retention" then
    match sw_evict_retained 1000 s with
    | (s, Ok n) => (s, if n =? 0 then [] else [DutyEvent.Evicted "" n])
    | (s, Err _) => (s, [])
    end
  else if String.eqb duty "scheduler" then
    match sw_scheduler_sweep with Some sweep => ((sweep s).1, []) | None => (s, []) end
  else if String.eqb duty "operations" then
    match sw_run_pending_operations with Some run => ((run 1000 s).1, []) | None => (s, []) end
  else if String.eqb duty "quarantine" then
    match sw_quarantine_sweep with Some sweep => ((sweep 1000 s).1, []) | None => (s, []) end
  else (s, []).

(** One tick of the loop of one duty; [interval * 2] is the duty lease. *)
Definition duty_tick (duty holder : string) (interval : duration) (s : S)
    : S * list DutyEvent.DutyEvent :=
  match sw_claim_duty duty holder (2 * interval) s with
  | (s, Ok true) => run_duty duty s
  | (s, Ok false) | (s, Err _) => (s, [])
  end.

(** The loop's exit, and what an operator's terminate, restart and resign do for all. *)
Definition duty_exit (duty holder : string) (s : S) : S := (sw_release_duty duty holder s).1.
End duties.

(** ** The in-memory store's sweeps; it has no inspection surface *)

#[export] Instance mem_sweeps (now : Z) (rp : RetryPolicy) : SweepStore Inner := {|
  sw_claim_duty name holder lease i := claim_duty now name holder lease i;
  sw_release_duty name holder i := release_duty name holder i;
  sw_reclaim_expired limit i := reclaim_expired now rp limit i;
  sw_promote_due limit i := promote_due now (job_ids i) limit i;
  sw_evict_retained limit i := evict_retained now (job_ids i) limit i;
  sw_scheduler_sweep := None;
  sw_run_pending_operations := None;
  sw_quarantine_sweep := None;
|}.

Lemma remove_jobs_size ids i :
  NoDup ids → (∀ id, id ∈ ids → is_Some (jobs i !! id)) →
  (size (jobs (foldl (λ i id, remove_job id i) i ids)) + length ids = size (jobs i))%nat.
Proof.
  revert i. induction ids as [|id ids IH]; intros i Hnd Hin; simpl; [lia|].
  apply NoDup_cons in Hnd as [Hni Hnd].
  destruct (Hin id) as [j Hj]; [by left|].
  rewrite <-plus_n_Sm, IH; [|done|].
  - unfold remove_job, upd; simpl. rewrite map_size_delete, Hj.
    assert (size (jobs i) ≠ 0%nat); [|lia]. intros E%map_size_empty_inv. by rewrite E in Hj.
  - intros id' Hid'. unfold remove_job, upd; simpl.
    rewrite lookup_delete_ne by (intros ->; done). apply Hin. by right.
Qed.

Lemma promote_loop_keeps now limit ord i n id :
  is_Some (jobs i !! id) → is_Some (jobs (promote_loop now limit ord i n).1 !! id).
Proof.
  revert i n. induction ord as [|x ord IH]; intros i n Hi; simpl; [done|].
  case_if; [done|]. destruct (jobs i !! x) as [j|] eqn:Ej; [|auto]. case_if; [|auto].
  apply IH. unfold upd; simpl. apply lookup_insert_is_Some'. by right.
Qed.

Lemma reclaim_loop_keeps now limit rp ids i out id :
  is_Some (jobs i !! id) → is_Some (jobs (reclaim_loop now limit rp ids i out).1 !! id).
Proof.
  revert i out. induction ids as [|x ids IH]; intros i out Hi; simpl; [done|].
  case_if; [done|]. destruct (jobs i !! x) as [j|] eqn:Ej; [|auto]. case_if; [|auto].
  destruct (reclaim_one_spec now rp x j i Ej) as (j' & qs & Heq & _). rewrite Heq.
  apply IH. unfold moved_store, upd; simpl. apply lookup_insert_is_Some'. by right.
Qed.

Lemma claim_duty_cases now duty holder lease i i1 r :
  claim_duty now duty holder lease i = (i1, r) →
  jobs i1 = jobs i
  ∧ (∀ h expires, duties i !! duty = Some (h, expires) → now < expires → h ≠ holder →
       i1 = i ∧ r ≠ Ok true).
Proof.
  unfold claim_duty. destruct (duration_is_zero lease); [by intros [= <- <-]|].
  destruct (duties i !! duty) as [[h expires]|]; simpl; [|by intros [= <- <-]].
  destruct (Z.ltb_spec now expires), (String.eqb_spec h holder); simpl; intros [= <- <-];
    (split; [done|]); intros ? ? [= <- <-]; done || lia.
Qed.

(** Only the retention sweep deletes jobs. *)
Lemma run_duty_keeps now rp duty i id :
  duty ≠ "retention" → is_Some (jobs i !! id) →
  is_Some (jobs (run_duty (H := mem_sweeps now rp) duty i).1 !! id).
Proof.
  intros Hd Hi. unfold run_duty. simpl.
  destruct (String.eqb duty "reclaimer").
  { unfold reclaim_expired.
    pose proof (reclaim_loop_keeps now 1000 rp (sort_strings (job_ids i)) i [] id Hi) as Hk.
    by destruct (reclaim_loop _ _ _ _ _ _). }
  destruct (String.eqb duty "promoter").
  { unfold promote_due. pose proof (promote_loop_keeps now 10000 (job_ids i) i 0 id Hi) as Hk.
    by destruct (promote_loop _ _ _ _ _). }
  destruct (String.eqb_spec duty "retention"); [done|].
  by repeat case_match.
Qed.

(** C23.  A duty is exclusive and its deletions are never silent.  Over the in-memory store, a
    tick of a duty that another worker holds changes nothing and says nothing; only the
    retention duty ever deletes a job; and when it does, exactly one eviction event with the
    number of deleted jobs is emitted, while a sweep that deletes nothing emits none. *)
Theorem duties_exclusive_and_never_silent now rp duty holder (interval : duration) i i' evs :
  duty_tick (H := mem_sweeps now rp) duty holder interval i = (i', evs) →
  (∀ h expires, duties i !! duty = Some (h, expires) → now < expires → h ≠ holder →
     i' = i ∧ evs = [])
  ∧ (duty ≠ "retention" → ∀ id, is_Some (jobs i !! id) → is_Some (jobs i' !! id))
  ∧ (duty = "retention" →
       let n := Z.of_nat (size (jobs i)) - Z.of_nat (size (jobs i')) in
       0 ≤ n ∧ evs = if n =? 0 then [] else [DutyEvent.Evicted "" n]).
Proof.
  unfold duty_tick. simpl. destruct (claim_duty now duty holder (2 * interval) i) as [i1 r] eqn:Ec.
  apply claim_duty_cases in Ec as [Hj Hbusy]. intros Ht. split_and!.
  - intros h expires Hd Hlt Hne. destruct (Hbusy _ _ Hd Hlt Hne) as [-> Hr].
    destruct r as [[]|]; [done|by injection Ht as <- <-..].
  - intros Hd id Hi. destruct r as [[]|]; simplify_eq; [|by rewrite Hj..].
    pose proof (run_duty_keeps now rp duty i1 id Hd) as Hk. rewrite Hj, Ht in Hk. auto.
  - intros ->. destruct r as [[]|]; [|simplify_eq; by rewrite Hj, Z.sub_diag..].
    unfold run_duty in Ht. simpl in Ht. simplify_eq. rewrite <-Hj.
    set (ids := lapsed_ids now (job_ids i1) 1000 i1).
    assert (NoDup ids ∧ ∀ id, id ∈ ids → is_Some (jobs i1 !! id)) as [Hnd Hin].
    { unfold ids, lapsed_ids. split.
      - eapply sublist_NoDup; [|apply sublist_take]. apply NoDup_filter, NoDup_fst_map_to_list.
      - intros id (k & Hid & _)%elem_of_take. apply list_elem_of_lookup_2 in Hid. apply list_elem_of_filter in Hid as [Hl _].
        destruct (jobs i1 !! id); [by eauto|done]. }
    pose proof (remove_jobs_size ids i1 Hnd Hin) as Hs. simpl.
    replace (Z.of_nat (size (jobs i1)) - _) with (Z.of_nat (length ids)) by lia. split; [lia|done].
Qed.

(** A job that completed at 20 with a retention of 5 ms. *)
Definition demo_lapsed : Inner :=
  let i := (enqueue 10 [(demo_env "a2" "a" 9) <| e_retention_ms := 5 |>] default_inner).1 in
  let i := (mem_admit 10 (job_ids i) demo_request i).1 in
  (ack_attempt_with_actual_weight 20 demo_policy demo_lease Outcome.Success None None [] None i).1.

Definition demo_tick : Inner * list DutyEvent.DutyEvent :=
  duty_tick (H := mem_sweeps 100 demo_policy) "retention" "w1" 1000000000 demo_lapsed.

Lemma duties_exclusive_and_never_silent_witness :
  size (jobs demo_lapsed) = 1%nat ∧ size (jobs demo_tick.1) = 0%nat
  ∧ demo_tick.2 = [DutyEvent.Evicted "" 1].
Proof.
  assert (size (jobs demo_lapsed) = 1%nat) as H1 by (by vm_compute).
  assert (size (jobs demo_tick.1) = 0%nat) as H0 by (by vm_compute).
  split; [exact H1|]. split; [exact H0|].
  destruct (duties_exclusive_and_never_silent 100 demo_policy "retention" "w1" 1000000000 demo_lapsed
    demo_tick.1 demo_tick.2 (surjective_pairing _)) as (_ & _ & H).
  destruct (H eq_refl) as [_ ->]. rewrite H1, H0. reflexivity.
Defined.
