(* ===== verification/Registry.v ===== *)
(** * headgate: typed dispatch and batch handlers

    Models the registry of [crates/headgate/src/lib.rs] ([insert_handler], [get],
    [register_batch]'s checks, [unique_window_ms]) and the batch handler: its queue of pending
    members with the generation counter and timer, the guard that withdraws a cancelled member,
    and [dispatch_batch], which turns the positional results of one call into one outcome per
    member.  The queue is a transition system: calls, timers (also those already superseded,
    which an abort may not have stopped in time), cancellations and withdrawals interleave. *)

From S2P Require Import Prelude Shared Lifecycle Envelope MemStore Attempt.
Local Open Scope Z_scope.

(** ** The registry *)

Section registry.
Context {H : Type}.

(** The validation loop over the kinds, before anything is inserted. *)
Fixpoint check_kinds (map : gmap string H) (kinds : list string) : result unit string :=
  match kinds with
  | [] => Ok tt
  | kind :: kinds =>
      let? _ := validate_kind kind in
      if bool_decide (is_Some (map !! kind))
      then Err ("kind `" +:+ kind +:+ "` is registered more than once")%stdpp
      else check_kinds map kinds
  end.

Definition insert_handler (type_ : string) (aliases : list string) (handler : H) (map : gmap string H)
    : result unit string * gmap string H :=
  let kinds := type_ :: aliases in
  match check_kinds map kinds with
  | Err e => (Err e, map)
  | Ok _ => (Ok tt, foldl (λ m kind, <[kind := handler]> m) map kinds)
  end.

Definition registry_get (map : gmap string H) (kind : string) : option H := map !! kind.

Definition register_batch (max_size : Z) (max_delay : duration) (type_ : string)
    (aliases : list string) (handler : H) (map : gmap string H) : result unit string * gmap string H :=
  if max_size =? 0 then (Err "batch max_size must be greater than zero", map)
  else if as_millis max_delay =? 0 then (Err "batch max_delay must be at least 1ms", map)
  else insert_handler type_ aliases handler map.
End registry.

Definition unique_window_ms (window : duration) : result Z string :=
  let ms := wrap_i64 (as_millis window) in
  if ms =? 0 then Err "unique window rounds to zero milliseconds; minimum is 1ms" else Ok ms.

(** ** The batch queue *)

(** How the batch function's own task ended. *)
Module BatchEnd.
Inductive BatchEnd :=
  | Returned (results : list (result unit JobError.JobError))
  | Panicked
  | Cancelled.
End BatchEnd.

Section batch.
Context {J : Type}.

Record PendingBatchJob := mkPending { pb_id : Z; pb_job : J }.

Record BatchQueue := mkBatchQueue {
  bq_generation : Z;
  bq_next_id : Z;
  bq_pending : list PendingBatchJob;
  bq_timer : option Z;
}.

Definition new_batch_queue : BatchQueue := mkBatchQueue 0 0 [] None.

(** [BatchHandler::call] up to the wait: the member's id, the batch it completes if it fills
    one, the generation of the timer it starts if it is the first, and that of the timer it
    aborts. *)
Definition batch_call (max_size : Z) (job : J) (q : BatchQueue)
    : Z * option (list PendingBatchJob) * option Z * option Z * BatchQueue :=
  let next_id := u64_add (bq_next_id q) 1 in
  let '(generation, timer, started) :=
    match bq_pending q with
    | [] => let g := u64_add (bq_generation q) 1 in (g, Some g, Some g)
    | _ => (bq_generation q, bq_timer q, None)
    end in
  let pending := bq_pending q ++ [mkPending next_id job] in
  if max_size <=? Z.of_nat (length pending)
  then (next_id, Some pending, started, timer, mkBatchQueue (u64_add generation 1) next_id [] None)
  else (next_id, None, started, None, mkBatchQueue generation next_id pending timer).

(** A timer of generation [g] wakes up. *)
Definition timer_fires (g : Z) (q : BatchQueue) : option (list PendingBatchJob) * BatchQueue :=
  if negb (bq_generation q =? g) || bool_decide (bq_pending q = []) then (None, q)
  else (Some (bq_pending q), mkBatchQueue (u64_add (bq_generation q) 1) (bq_next_id q) [] None).

(** [iter().position(id)] and [Vec::remove]: the first member with this id goes. *)
Fixpoint remove_member (id : Z) (l : list PendingBatchJob) : option (list PendingBatchJob) :=
  match l with
  | [] => None
  | x :: l => if pb_id x =? id then Some l else cons x <$> remove_member id l
  end.

(** The task a dropped, still armed guard spawns, with the timer it aborts. *)
Definition guard_drop (id : Z) (q : BatchQueue) : option Z * BatchQueue :=
  match remove_member id (bq_pending q) with
  | None => (None, q)
  | Some [] => (bq_timer q, mkBatchQueue (u64_add (bq_generation q) 1) (bq_next_id q) [] None)
  | Some pending => (None, mkBatchQueue (bq_generation q) (bq_next_id q) pending (bq_timer q))
  end.

(** The members still waiting when the batch is dispatched. *)
Definition live_members (gone : gset Z) (pending : list PendingBatchJob) : list PendingBatchJob :=
  List.filter (λ x, negb (bool_decide (pb_id x ∈ gone))) pending.

(** [dispatch_batch]: what each live member's sender is sent; [f] is the batch function on the
    jobs it is given. *)
Definition dispatch_batch (f : list J → BatchEnd.BatchEnd) (gone : gset Z)
    (pending : list PendingBatchJob) : list (Z * result unit JobError.JobError) :=
  match live_members gone pending with
  | [] => []
  | members =>
      let all (m : string) := (λ x, (pb_id x, Err (JobError.Other m))) <$> members in
      match f (pb_job <$> members) with
      | BatchEnd.Returned results =>
          if (length results =? length members)%nat
          then zip (pb_id <$> members) results
          else all ("batch handler returned " +:+ pretty (Z.of_nat (length results))
                    +:+ " results for " +:+ pretty (Z.of_nat (length members)) +:+ " jobs")%stdpp
      | BatchEnd.Panicked => all "batch handler panicked"
      | BatchEnd.Cancelled => all "batch handler task was cancelled"
      end
  end.

(** ** The queue among its users *)

(** The timer tasks alive, by generation; those whose abort was asked for, which the runtime
    carries out when it gets to it; the members cancelled; the batches dispatched; and the
    members withdrawn. *)
Record Batches := mkBatches {
  ba_queue : BatchQueue;
  ba_timers : gset Z;
  ba_aborted : gset Z;
  ba_gone : gset Z;
  ba_dispatched : list (list PendingBatchJob);
  ba_withdrawn : gset Z;
}.

Definition after_call (full : option (list PendingBatchJob)) (started aborted : option Z)
    (q : BatchQueue) (b : Batches) : Batches :=
  mkBatches q (ba_timers b ∪ list_to_set (option_list started))
    (ba_aborted b ∪ list_to_set (option_list aborted)) (ba_gone b)
    (ba_dispatched b ++ option_list full) (ba_withdrawn b).

Definition after_timer (g : Z) (fired : option (list PendingBatchJob)) (q : BatchQueue) (b : Batches)
    : Batches :=
  mkBatches q (ba_timers b ∖ {[g]}) (ba_aborted b) (ba_gone b)
    (ba_dispatched b ++ option_list fired) (ba_withdrawn b).

Definition after_withdraw (id : Z) (aborted : option Z) (q : BatchQueue) (b : Batches) : Batches :=
  mkBatches q (ba_timers b) (ba_aborted b ∪ list_to_set (option_list aborted)) (ba_gone b)
    (ba_dispatched b)
    (if bool_decide (id ∈ pb_id <$> bq_pending (ba_queue b))
     then {[id]} ∪ ba_withdrawn b else ba_withdrawn b).

Inductive batch_step (max_size : Z) : Batches → Batches → Prop :=
  | bs_call job b id full started aborted q :
      batch_call max_size job (ba_queue b) = (id, full, started, aborted, q) →
      batch_step max_size b (after_call full started aborted q b)
  | bs_timer g b fired q :
      g ∈ ba_timers b → timer_fires g (ba_queue b) = (fired, q) →
      batch_step max_size b (after_timer g fired q b)
  | bs_abort g b :
      g ∈ ba_timers b → g ∈ ba_aborted b → batch_step max_size b (after_timer g None (ba_queue b) b)
  | bs_cancel id b :
      batch_step max_size b
        (mkBatches (ba_queue b) (ba_timers b) (ba_aborted b) ({[id]} ∪ ba_gone b) (ba_dispatched b)
           (ba_withdrawn b))
  | bs_withdraw id b aborted q :
      id ∈ ba_gone b → guard_drop id (ba_queue b) = (aborted, q) →
      batch_step max_size b (after_withdraw id aborted q b).

Definition new_batches : Batches := mkBatches new_batch_queue ∅ ∅ ∅ [] ∅.
End batch.
Arguments PendingBatchJob J : clear implicits.
Arguments BatchQueue J : clear implicits.
Arguments Batches J : clear implicits.

(** ** Registration *)

Section registered.
Context {H : Type}.
Implicit Types map : gmap string H.

Lemma check_kinds_ok map kinds :
  check_kinds map kinds = Ok tt
  ↔ Forall (λ kind, validate_kind kind = Ok tt ∧ map !! kind = None) kinds.
Proof.
  induction kinds as [|kind kinds IH]; simpl; [by split|]. rewrite Forall_cons.
  destruct (validate_kind kind) as [[]|]; [|by split; [|intros [[? _] _]]].
  case_bool_decide as E; [|by rewrite eq_None_not_Some; naive_solver].
  split; [done|]. intros [[_ Hn] _]. rewrite Hn in E. by destruct E.
Qed.

Lemma insert_all_lookup (h : H) kinds map kind :
  foldl (λ m kind, <[kind := h]> m) map kinds !! kind
  = if bool_decide (kind ∈ kinds) then Some h else map !! kind.
Proof.
  revert map. induction kinds as [|k kinds IH]; intros map; simpl; [done|]. rewrite IH.
  destruct (decide (kind = k)) as [->|Hne].
  - rewrite lookup_insert_eq, (bool_decide_eq_true_2 (k ∈ k :: kinds)) by (by left). by case_match.
  - rewrite lookup_insert_ne by done. by rewrite (bool_decide_ext (kind ∈ k :: kinds) (kind ∈ kinds))
      by (rewrite elem_of_cons; naive_solver).
Qed.

(** Registration is all or nothing.  A task is accepted exactly when its kind and every
    alias are well formed and none of them is registered yet; then every one of them, and
    nothing else, dispatches to the new handler.  A refused task leaves the registry as it
    was, so that no alias of it is half registered. *)
Theorem registration_all_or_nothing (type_ : string) (aliases : list string) (h : H) map :
  match insert_handler type_ aliases h map with
  | (Ok _, map') =>
      Forall (λ kind, validate_kind kind = Ok tt ∧ registry_get map kind = None) (type_ :: aliases)
      ∧ ∀ kind, registry_get map' kind
                = if bool_decide (kind ∈ type_ :: aliases) then Some h else registry_get map kind
  | (Err _, map') =>
      map' = map
      ∧ ¬ Forall (λ kind, validate_kind kind = Ok tt ∧ registry_get map kind = None) (type_ :: aliases)
  end.
Proof.
  unfold insert_handler, registry_get. destruct (check_kinds map (type_ :: aliases)) as [[]|e] eqn:E.
  - split; [by apply check_kinds_ok|]. intros kind. apply insert_all_lookup.
  - split; [done|]. rewrite <-check_kinds_ok. congruence.
Qed.
End registered.

(** ** The batch queue's invariant *)

Section batched.
Context {J : Type} (max_size : Z) (Hmax : 1 ≤ max_size).
Implicit Types (b : Batches J) (q : BatchQueue J).

(** Every id handed out so far, by where its member is. *)
Definition member_ids b : list Z :=
  (pb_id <$> bq_pending (ba_queue b)) ++ (pb_id <$> concat (ba_dispatched b))
  ++ elements (ba_withdrawn b).

(** After [k] steps. *)
Record batches_ok (k : Z) b : Prop := {
  bo_count : 0 ≤ bq_next_id (ba_queue b) ≤ k;
  bo_generation : 0 ≤ bq_generation (ba_queue b) ≤ 2 * k;
  bo_old : ∀ g, g ∈ ba_timers b ∪ ba_aborted b → g ≤ bq_generation (ba_queue b);
  bo_members : member_ids b ≡ₚ seqZ 1 (bq_next_id (ba_queue b));
  bo_timer : bq_pending (ba_queue b) ≠ [] →
    bq_timer (ba_queue b) = Some (bq_generation (ba_queue b))
    ∧ bq_generation (ba_queue b) ∈ ba_timers b ∧ bq_generation (ba_queue b) ∉ ba_aborted b;
  bo_stale : ∀ g, g ∈ ba_timers b → g ∉ ba_aborted b →
    g = bq_generation (ba_queue b) ∧ bq_pending (ba_queue b) ≠ [];
  bo_room : Z.of_nat (length (bq_pending (ba_queue b))) < max_size;
  bo_sizes : Forall (λ batch, 1 ≤ Z.of_nat (length batch) ≤ max_size) (ba_dispatched b);
}.

Lemma remove_member_spec id (l l' : list (PendingBatchJob J)) :
  remove_member id l = Some l' →
  ∃ l1 x l2, l = l1 ++ x :: l2 ∧ pb_id x = id ∧ l' = l1 ++ l2.
Proof.
  revert l'. induction l as [|x l IH]; intros l'; simpl; [done|].
  destruct (Z.eqb_spec (pb_id x) id).
  - intros [= <-]. by exists [], x, l.
  - intros (l0 & (l1 & y & l2 & -> & ? & ->)%IH & ->)%fmap_Some. by exists (x :: l1), y, l2.
Qed.

Lemma remove_member_None id (l : list (PendingBatchJob J)) :
  remove_member id l = None → id ∉ pb_id <$> l.
Proof.
  induction l as [|x l IH]; simpl; [intros _; apply not_elem_of_nil|].
  destruct (Z.eqb_spec (pb_id x) id); [done|]. intros ?%fmap_None. set_solver.
Qed.
Lemma seqZ_snoc n : 0 ≤ n → seqZ 1 (n + 1) ≡ₚ (n + 1) :: seqZ 1 n.
Proof.
  intros. rewrite seqZ_app by lia. replace (seqZ (1 + n) 1) with [n + 1].
  - by rewrite Permutation_app_comm.
  - unfold seqZ. simpl. f_equal. lia.
Qed.

Lemma in_member_ids id b : id ∈ pb_id <$> bq_pending (ba_queue b) →
  NoDup (member_ids b) → id ∉ ba_withdrawn b.
Proof.
  unfold member_ids. intros Hin (_ & Hd & _)%NoDup_app Hw. apply (Hd id Hin), elem_of_app. right.
  by apply elem_of_elements.
Qed.

Lemma batches_ok_le k k' b : batches_ok k b → k ≤ k' → batches_ok k' b.
Proof. intros [[] [] ? ? ? ? ? ?] ?. constructor; [lia|lia|done..]. Qed.

(** The members of a call that fills a batch, or not. *)
Lemma call_members k b x disp pend :
  batches_ok k b → pb_id x = bq_next_id (ba_queue b) + 1 →
  pend ++ concat disp ≡ₚ bq_pending (ba_queue b) ++ [x] ++ concat (ba_dispatched b) →
  (pb_id <$> pend) ++ (pb_id <$> concat disp) ++ elements (ba_withdrawn b)
  ≡ₚ seqZ 1 (bq_next_id (ba_queue b) + 1).
Proof.
  intros [Hc _ _ Hm _ _ _ _] Hx Hl. rewrite seqZ_snoc, <-Hm, app_assoc, <-fmap_app, Hl by lia.
  unfold member_ids. rewrite !fmap_app, <-!app_assoc. simpl. by rewrite Hx, <-Permutation_middle.
Qed.

(** The queue's timer once a call has pushed its member: the current generation's, alive and
    not aborted. *)
Lemma call_timer k b g timer started :
  batches_ok k b → 2 * (k + 1) ≤ u64_max →
  match bq_pending (ba_queue b) with
  | [] => let g := u64_add (bq_generation (ba_queue b)) 1 in (g, Some g, Some g)
  | _ => (bq_generation (ba_queue b), bq_timer (ba_queue b), None)
  end = (g, timer, started) →
  timer = Some g ∧ 0 ≤ g ≤ 2 * k + 1 ∧ g ∉ ba_aborted b
  ∧ (∀ h, h ∈ ba_timers b ∪ ba_aborted b → h ≤ g)
  ∧ (∀ h, h ∈ ba_timers b ∪ list_to_set (option_list started) → h ∉ ba_aborted b → h = g)
  ∧ g ∈ ba_timers b ∪ list_to_set (option_list started)
  ∧ (∀ h, h ∈ option_list started → h = g).
Proof.
  intros [_ Hg Hold _ Ht Hst _ _] Hk. destruct (bq_pending (ba_queue b)) eqn:E.
  - assert (u64_add (bq_generation (ba_queue b)) 1 = bq_generation (ba_queue b) + 1) as ->.
    { apply wrap_u64_id. unfold in_u64. lia. }
    intros [= <- <- <-]. split; [done|]. split; [lia|].
    split; [intros Hin; enough (bq_generation (ba_queue b) + 1 ≤ bq_generation (ba_queue b)) by lia;
      apply Hold; set_solver|].
    split; [intros h Hh%Hold; lia|]. split; [|set_solver].
    intros h [Hh|Hh]%elem_of_union Ha; [by destruct (Hst h Hh Ha)|set_solver].
  - destruct Ht as (-> & Hin & Hna); [done|]. intros [= <- <- <-]. split; [done|]. split; [lia|].
    split; [done|]. split; [done|]. split; [|set_solver].
    intros h [Hh|Hh]%elem_of_union Ha; [by destruct (Hst h Hh Ha)|set_solver].
Qed.

Lemma call_ok k job b id full started aborted q :
  batches_ok k b → 2 * (k + 1) ≤ u64_max →
  batch_call max_size job (ba_queue b) = (id, full, started, aborted, q) →
  batches_ok (k + 1) (after_call full started aborted q b).
Proof.
  intros Hok Hk. pose proof Hok as [Hc Hg Hold Hm Ht Hst Hr Hs]. unfold batch_call.
  assert (u64_add (bq_next_id (ba_queue b)) 1 = bq_next_id (ba_queue b) + 1) as ->.
  { apply wrap_u64_id. unfold in_u64. lia. }
  set (x := mkPending (bq_next_id (ba_queue b) + 1) job).
  pose proof (call_members k b x) as Hperm.
  destruct (match bq_pending (ba_queue b) with [] => _ | _ => _ end) as [[g timer] st] eqn:Et.
  apply (call_timer k) in Et as (-> & Hgk & Hna & Hle & Hcur & Hin & Heq); [|done|done].
  destruct (Z.leb_spec max_size (Z.of_nat (length (bq_pending (ba_queue b) ++ [x]))));
    intros [= <- <- <- <- <-]; rewrite length_app in *; simpl in *.
  - assert (u64_add g 1 = g + 1) as -> by (apply wrap_u64_id; unfold in_u64; lia).
    constructor; simpl; [lia|lia| | |done| |lia|].
    + intros h Hh. enough (h ≤ g) by lia. set_unfold.
      destruct Hh as [[Hh|Hh]|[Hh|[->|[]]]]; [|rewrite (Heq h Hh); lia| |lia]; apply Hle; auto.
    + apply (Hperm (ba_dispatched b ++ [bq_pending (ba_queue b) ++ [x]]) []); [done|done|]. simpl.
      rewrite concat_app. simpl. rewrite app_nil_r, Permutation_app_comm. by rewrite <-app_assoc.
    + intros h Hh Ha. exfalso. apply Ha. apply elem_of_union. right. rewrite (Hcur h); set_solver.
    + apply Forall_app. split; [done|]. constructor; [|done]. rewrite length_app. simpl. lia.
  - constructor; simpl; [lia|lia| | | | |by rewrite length_app|by rewrite app_nil_r].
    + intros h Hh. set_unfold. destruct Hh as [[Hh|Hh]|[Hh|[]]]; [|rewrite (Heq h Hh); lia|]; apply Hle; auto.
    + unfold member_ids; simpl. rewrite app_nil_r. apply Hperm; [done|done|]. by rewrite <-app_assoc.
    + intros _. split; [done|]. split; [done|]. set_solver.
    + intros h Hh Ha. split; [apply Hcur; [done|set_solver]|by destruct (bq_pending (ba_queue b))].
Qed.

Lemma timer_ok k g b fired q :
  batches_ok k b → 2 * (k + 1) ≤ u64_max → timer_fires g (ba_queue b) = (fired, q) →
  batches_ok (k + 1) (after_timer g fired q b).
Proof.
  intros [Hc Hg Hold Hm Ht Hst Hr Hs] Hk. unfold timer_fires. case_match eqn:E.
  - intros [= <- <-]. constructor; unfold member_ids in *; simpl; rewrite ?app_nil_r;
      [lia|lia|set_solver|done| | |done|done].
    + intros Hne. destruct (Ht Hne) as (? & ? & ?). split; [done|]. split; [|done].
      apply elem_of_difference. split; [done|]. apply orb_true_iff in E as [E|E%bool_decide_eq_true]; [|done].
      apply negb_true_iff, Z.eqb_neq in E. set_solver.
    + intros h Hh. apply Hst. set_solver.
  - apply orb_false_iff in E as [Eg Hne%bool_decide_eq_false]. intros [= <- <-].
    apply negb_false_iff, Z.eqb_eq in Eg.
    assert (u64_add (bq_generation (ba_queue b)) 1 = bq_generation (ba_queue b) + 1) as ->.
    { apply wrap_u64_id. unfold in_u64. lia. }
    constructor; simpl; [lia|lia| | |done| |lia|].
    + intros h Hh. enough (h ≤ bq_generation (ba_queue b)) by lia. apply Hold. set_solver.
    + unfold member_ids in *; simpl. rewrite <-Hm, concat_app, fmap_app. simpl. rewrite app_nil_r.
      rewrite (Permutation_app_comm (pb_id <$> concat _)). by rewrite <-app_assoc.
    + intros h Hh Ha. set_unfold. destruct Hh as [Hh Hng]. destruct (Hst h Hh Ha). congruence.
    + apply Forall_app. split; [done|]. constructor; [|done].
      destruct (bq_pending (ba_queue b)); simpl in *; [done|lia].
Qed.

Lemma abort_ok k g b :
  batches_ok k b → g ∈ ba_aborted b → batches_ok k (after_timer g None (ba_queue b) b).
Proof.
  intros [Hc Hg Hold Hm Ht Hst Hr Hs] Ha.
  constructor; unfold member_ids in *; simpl; rewrite ?app_nil_r; [done|done|set_solver|done| | |done|done].
  - intros Hne. destruct (Ht Hne) as (? & ? & ?). set_solver.
  - intros h Hh. apply Hst. set_solver.
Qed.

Lemma withdraw_ok k id b aborted q :
  batches_ok k b → 2 * (k + 1) ≤ u64_max → guard_drop id (ba_queue b) = (aborted, q) →
  batches_ok (k + 1) (after_withdraw id aborted q b).
Proof.
  intros Hok Hk. pose proof Hok as [Hc Hg Hold Hm Ht Hst Hr Hs]. unfold guard_drop, after_withdraw.
  destruct (remove_member id _) as [l'|] eqn:E.
  2:{ apply remove_member_None in E. rewrite bool_decide_eq_false_2 by done. intros [= <- <-].
      eapply (batches_ok_le k); [|lia]. constructor; simpl; rewrite ?union_empty_r_L; done. }
  apply remove_member_spec in E as (l1 & x & l2 & Hl & <- & ->).
  assert (pb_id x ∈ pb_id <$> bq_pending (ba_queue b)) as Hin by (rewrite Hl, fmap_app; set_solver).
  rewrite bool_decide_eq_true_2 by done.
  assert (pb_id x ∉ ba_withdrawn b) as Hw.
  { eapply in_member_ids; [done|]. rewrite Hm. apply NoDup_seqZ. }
  assert ((pb_id <$> l1 ++ l2) ++ (pb_id <$> concat (ba_dispatched b))
    ++ elements ({[pb_id x]} ∪ ba_withdrawn b) ≡ₚ seqZ 1 (bq_next_id (ba_queue b))) as Hp.
  { rewrite <-Hm. unfold member_ids. rewrite Hl, elements_union_singleton by done.
    rewrite <-(Permutation_middle l1), fmap_cons. simpl. by rewrite <-!Permutation_middle. }
  assert (bq_pending (ba_queue b) ≠ []) as Hne by (rewrite Hl; by destruct l1).
  rewrite Hl, length_app in Hr. simpl in Hr.
  assert (Z.of_nat (length (l1 ++ l2)) < max_size) as Hlen by (rewrite length_app; lia).
  destruct (Ht Hne) as (Htm & Hal & Hna).
  destruct (l1 ++ l2) as [|y l']; intros [= <- <-].
  - rewrite Htm. assert (u64_add (bq_generation (ba_queue b)) 1 = bq_generation (ba_queue b) + 1) as ->.
    { apply wrap_u64_id. unfold in_u64. lia. }
    constructor; simpl; [lia|lia| |exact Hp|done| |exact Hlen|done].
    + intros h Hh. enough (h ≤ bq_generation (ba_queue b)) by lia. set_unfold.
      destruct Hh as [Hh|[Hh|[->|[]]]]; [| |done]; apply Hold; auto.
    + intros h Hh Ha. exfalso. apply Ha, elem_of_union. right. destruct (Hst h Hh) as [-> _]; set_solver.
  - constructor; simpl; rewrite ?union_empty_r_L; [lia|lia|done|exact Hp|by intros _|  |exact Hlen|done].
    intros h Hh Ha. split; [by apply Hst|done].
Qed.

Lemma batch_step_ok k b b' :
  batch_step max_size b b' → batches_ok k b → 2 * (k + 1) ≤ u64_max → batches_ok (k + 1) b'.
Proof.
  intros Hstep Hok Hk.
  destruct Hstep as [job b id full started aborted q Hc|g b fired q _ Hf|g b _ Ha|id b|id b aborted q _ Hd].
  - by eapply call_ok.
  - by apply timer_ok.
  - eapply batches_ok_le; [by apply abort_ok|lia].
  - apply (batches_ok_le k); [|lia]. by destruct Hok; constructor.
  - by apply withdraw_ok.
Qed.

Lemma new_batches_ok : batches_ok 0 new_batches.
Proof. constructor; simpl; [lia|lia|set_solver|done|done|set_solver|lia|constructor]. Qed.

Lemma batch_steps_ok n b :
  nsteps (batch_step max_size) n new_batches b → 2 * Z.of_nat n ≤ u64_max → batches_ok (Z.of_nat n) b.
Proof.
  revert b. induction n as [|n IH]; intros b Hn Hk.
  - inversion Hn; subst. apply new_batches_ok.
  - apply nsteps_inv_r in Hn as (b1 & Hn & Hs). rewrite Nat2Z.inj_succ, <-Z.add_1_r.
    eapply batch_step_ok; [done|apply IH; [done|lia]|lia].
Qed.
End batched.

(** C22.  No member of a batch is lost or stranded.  Along any sequence of fewer than 2^63
    calls, firing timers, aborted timers, cancellations and withdrawals, every member handed in
    is in exactly one place: waiting, in exactly one dispatched batch, or withdrawn after its
    cancellation; every dispatched batch has between one and [max_size] members, and fewer than
    [max_size] wait.  Whenever somebody waits, the timer task of the current generation is
    alive, nobody asked for its abort, and when it fires it dispatches everybody who waits.
    Every other timer task still alive has been aborted (the runtime may still let it fire once,
    which then dispatches nobody), so that at most one timer is running down at any time. *)
Theorem batch_members_are_dispatched_once {J} (max_size : Z) (n : nat) (b : Batches J) :
  1 ≤ max_size → 2 * Z.of_nat n ≤ u64_max →
  nsteps (batch_step max_size) n new_batches b →
  let generation := bq_generation (ba_queue b) in
  let pending := bq_pending (ba_queue b) in
  member_ids b ≡ₚ seqZ 1 (bq_next_id (ba_queue b))
  ∧ NoDup (member_ids b)
  ∧ Forall (λ batch, 1 ≤ Z.of_nat (length batch) ≤ max_size) (ba_dispatched b)
  ∧ Z.of_nat (length pending) < max_size
  ∧ (pending ≠ [] → generation ∈ ba_timers b ∧ generation ∉ ba_aborted b
       ∧ (timer_fires generation (ba_queue b)).1 = Some pending)
  ∧ (∀ g, g ∈ ba_timers b → pending = [] ∨ g ≠ generation →
       g ∈ ba_aborted b ∧ timer_fires g (ba_queue b) = (None, ba_queue b)).
Proof.
  intros Hmax Hn Hs generation pending. apply batch_steps_ok in Hs as [_ _ _ Hm Ht Hst Hr Hz]; [|done|done].
  split_and!; [done|rewrite Hm; apply NoDup_seqZ|done|done|..].
  - intros Hne. destruct (Ht Hne) as (_ & Hin & Hna). split_and!; [done|done|]. unfold timer_fires.
    by rewrite Z.eqb_refl, bool_decide_eq_false_2 by done.
  - intros g Hg Hor. split.
    + destruct (decide (g ∈ ba_aborted b)) as [|Hna]; [done|]. destruct (Hst g Hg Hna). by destruct Hor.
    + unfold timer_fires. destruct Hor as [Hp|Hng].
      { by rewrite (bool_decide_eq_true_2 _ Hp), orb_true_r. }
      rewrite (proj2 (Z.eqb_neq _ _)); [done|]. unfold generation in Hng. congruence.
Qed.

(** One result per waiting member.  Dispatching a batch calls the handler once, on the
    jobs of the members that are still waiting and in their order, and sends each of them
    exactly one result: its own when the handler returns one result per job, and otherwise, or
    when the handler panics or is cancelled, an error.  With nobody waiting nothing is sent. *)
Theorem dispatch_batch_exact {J} (f : list J → BatchEnd.BatchEnd) (gone : gset Z)
    (pending : list (PendingBatchJob J)) :
  let live := live_members gone pending in
  (∀ x, x ∈ live ↔ x ∈ pending ∧ pb_id x ∉ gone)
  ∧ (dispatch_batch f gone pending).*1 = pb_id <$> live
  ∧ match f (pb_job <$> live) with
    | BatchEnd.Returned results =>
        if decide (length results = length live ∧ live ≠ [])
        then (dispatch_batch f gone pending).*2 = results
        else Forall (λ r, is_ok r = false) (dispatch_batch f gone pending).*2
    | _ => Forall (λ r, is_ok r = false) (dispatch_batch f gone pending).*2
    end.
Proof.
  intros live. split.
  { intros x. unfold live, live_members. rewrite !list_elem_of_In, filter_In, negb_true_iff,
      bool_decide_eq_false. done. }
  assert (∀ m (l : list (PendingBatchJob J)),
    ((λ x, (pb_id x, Err (A := unit) (JobError.Other m))) <$> l).*1 = pb_id <$> l
    ∧ Forall (λ r, is_ok r = false) ((λ x, (pb_id x, Err (A := unit) (JobError.Other m))) <$> l).*2) as Hall.
  { intros m l. rewrite <-!list_fmap_compose. split; [done|]. apply Forall_fmap, Forall_true. done. }
  unfold dispatch_batch. fold live. clearbody live.
  destruct live as [|x live]; [by destruct (f _); [case_decide; naive_solver|..]|].
  destruct (f _) as [results| |]; [|apply Hall..].
  destruct (Nat.eqb_spec (length results) (length (x :: live))) as [E|E].
  - rewrite decide_True by done. rewrite fst_zip, snd_zip by (rewrite length_fmap; lia). done.
  - rewrite decide_False by naive_solver. apply Hall.
Qed.

(** Two calls fill a batch of two, which aborts its timer; a third waits. *)
Definition demo_call (job : string) (b : Batches string) : Batches string :=
  let '(_, full, started, aborted, q) := batch_call 2 job (ba_queue b) in
  after_call full started aborted q b.

Definition demo_batches : Batches string :=
  demo_call "third" (demo_call "second" (demo_call "first" new_batches)).

Lemma batch_members_are_dispatched_once_witness :
  ba_dispatched demo_batches = [[mkPending 1 "first"; mkPending 2 "second"]]
  ∧ ba_timers demo_batches = {[1; 3]} ∧ ba_aborted demo_batches = {[1]}
  ∧ (timer_fires 3 (ba_queue demo_batches)).1 = Some [mkPending 3 "third"].
Proof.
  split; [by vm_compute|]. split; [by vm_compute|]. split; [by vm_compute|].
  eapply (batch_members_are_dispatched_once 2 3 demo_batches).
  - lia.
  - by vm_compute.
  - eapply (nsteps_l _ 2); [by eapply (bs_call _ "first")|].
    eapply (nsteps_l _ 1); [by eapply (bs_call _ "second")|].
    eapply (nsteps_l _ 0); [by eapply (bs_call _ "third")|apply nsteps_O].
  - by vm_compute.
Defined.

Lemma unique_window_wraps_negative :
  unique_window_ms ((2 ^ 63) * 1000000) = Ok (- 2 ^ 63).
Proof. by vm_compute. Qed.
