(* ===== verification/Client.v ===== *)
(** * headgate: the producer's client

    Models [crates/headgate/src/client.rs] with the middleware chain of
    [enqueue_middleware.rs], the insert hooks of [insert_hook.rs] and the plugin groups of
    [plugin.rs]: a request runs through the ordered middlewares; the terminal handler
    authorises the batch, asks the circuit breaker (the machine of [Breaker]), calls the store
    once, reports the outcome to the breaker and to the hooks.  A middleware is a program over
    its request that may rewrite it, answer without calling on, or call the rest of the chain
    any number of times.  Every reading of the clock is the environment's choice. *)

From S2P Require Import Prelude Shared Lifecycle Envelope MemStore Core Attempt Worker Breaker.
Local Open Scope Z_scope.

Module EnqueueSource.
Inductive EnqueueSource := Library | Http.
End EnqueueSource.

Record EnqueueIdentity := mkEnqueueIdentity {
  ei_subject : string;
  ei_attributes : gmap string string;
}.

Record EnqueueContext := mkEnqueueContext {
  ec_source : EnqueueSource.EnqueueSource;
  ec_identity : option EnqueueIdentity;
}.

Definition default_context : EnqueueContext := mkEnqueueContext EnqueueSource.Library None.

Module EnqueueOperation.
Inductive EnqueueOperation := Direct | Transactional.
End EnqueueOperation.

Record EnqueueRequest := mkEnqueueRequest {
  er_context : EnqueueContext;
  er_operation : EnqueueOperation.EnqueueOperation;
  er_batch : list Envelope;
}.

Module ClientError.
Inductive ClientError :=
  | Forbidden (kind : string)
  | Circuit (r : CircuitRejected)
  | Middleware (middleware source : string)
  | Store (e : StoreError.StoreError).
End ClientError.

Definition is_circuit_failure (r : result unit StoreError.StoreError) : bool :=
  match r with Err (StoreError.Unavailable _) => true | _ => false end.

Fixpoint authorize_enqueue_batch (authorize : EnqueueContext → Envelope → bool)
    (context : EnqueueContext) (batch : list Envelope) : result unit string :=
  match batch with
  | [] => Ok tt
  | e :: batch =>
      if negb (authorize context e) then Err (e_kind e)
      else authorize_enqueue_batch authorize context batch
  end.

(** ** Insert hooks *)

Module InsertOutcome.
Inductive InsertOutcome :=
  | Succeeded
  | Duplicate (existing_id : string) (replaced : bool)
  | IdConflict (job_id : string)
  | Rejected (e : StoreError.StoreError).
End InsertOutcome.

Definition from_store_result (r : result unit StoreError.StoreError) : InsertOutcome.InsertOutcome :=
  match r with
  | Ok _ => InsertOutcome.Succeeded
  | Err (StoreError.Duplicate existing_id replaced) => InsertOutcome.Duplicate existing_id replaced
  | Err (StoreError.IdConflict job_id) => InsertOutcome.IdConflict job_id
  | Err e => InsertOutcome.Rejected e
  end.

Module InsertHookEvent.
Inductive InsertHookEvent :=
  | Begin (r : EnqueueRequest)
  | End_ (r : EnqueueRequest) (outcome : InsertOutcome.InsertOutcome).
End InsertHookEvent.

(** ** Plugins *)

Module PluginScope.
Inductive PluginScope := Global | Kinds (kinds : list string).
End PluginScope.

Definition scope_matches (scope : PluginScope.PluginScope) (batch : list Envelope) : bool :=
  match scope with
  | PluginScope.Global => true
  | PluginScope.Kinds kinds => existsb (λ e, existsb (String.eqb (e_kind e)) kinds) batch
  end.

(** An observer by its number, or a plugin's group of them. *)
Module Hook.
Inductive Hook := Single (id : nat) | Group (scope : PluginScope.PluginScope) (ids : list nat).
End Hook.

Definition event_batch (ev : InsertHookEvent.InsertHookEvent) : list Envelope :=
  match ev with InsertHookEvent.Begin r | InsertHookEvent.End_ r _ => er_batch r end.

(** Who is told of an event, in order. *)
Definition on_insert (h : Hook.Hook) (ev : InsertHookEvent.InsertHookEvent)
    : list (nat * InsertHookEvent.InsertHookEvent) :=
  match h with
  | Hook.Single id => [(id, ev)]
  | Hook.Group scope ids => if scope_matches scope (event_batch ev) then (λ id, (id, ev)) <$> ids else []
  end.

(** ** Middleware *)

(** What a middleware does with its request: it answers, or calls the rest of the chain and
    goes on with the answer. *)
Inductive MwProgram :=
  | MwAnswer (r : result unit ClientError.ClientError)
  | MwNext (request : EnqueueRequest) (k : result unit ClientError.ClientError → MwProgram).

Definition MwFn : Type := EnqueueRequest → MwProgram.

Module Middleware.
Inductive Middleware := Single (f : MwFn) | Group (scope : PluginScope.PluginScope) (fs : list MwFn).
End Middleware.

Section chain.
Context {P : Type}.
Definition PM : Type := P → P * result unit ClientError.ClientError.

Fixpoint run_program (next : EnqueueRequest → PM) (m : MwProgram) : PM := λ p,
  match m with
  | MwAnswer r => (p, r)
  | MwNext request k => let '(p, r) := next request p in run_program next (k r) p
  end.

Fixpoint run_fns (fs : list MwFn) (terminal : EnqueueRequest → PM) (request : EnqueueRequest) : PM :=
  match fs with
  | [] => terminal request
  | f :: fs => run_program (run_fns fs terminal) (f request)
  end.

(** [EnqueueNext::run]. *)
Fixpoint run_chain (ms : list Middleware.Middleware) (terminal : EnqueueRequest → PM)
    (request : EnqueueRequest) : PM :=
  match ms with
  | [] => terminal request
  | Middleware.Single f :: ms => run_program (run_chain ms terminal) (f request)
  | Middleware.Group scope fs :: ms =>
      if scope_matches scope (er_batch request) then run_fns fs (run_chain ms terminal) request
      else run_chain ms terminal request
  end.
End chain.

(** ** The client *)

Class ProducerStore (S : Type) := {
  pr_enqueue : list Envelope → S → S * result unit StoreError.StoreError;
  pr_enqueue_tx : option (list Envelope → S → S * result unit StoreError.StoreError);
}.

Record Client := mkClient {
  cl_authorize : EnqueueContext → Envelope → bool;
  cl_circuit : option BreakerParams;
  cl_middlewares : list Middleware.Middleware;
  cl_hooks : list Hook.Hook;
  cl_global_middlewares : list Middleware.Middleware;
  cl_scoped_middlewares : list Middleware.Middleware;
  cl_global_hooks : list Hook.Hook;
  cl_scoped_hooks : list Hook.Hook;
}.

Definition new_client : Client := mkClient (λ _ _, true) None [] [] [] [] [] [].

Definition middleware_chain (c : Client) : list Middleware.Middleware :=
  cl_middlewares c ++ cl_global_middlewares c ++ cl_scoped_middlewares c.

(** The process around a client: its store, the breaker's machine, how often the clock was
    read, and what the hooks were told. *)
Record Producer (S : Type) := mkProducer {
  pd_store : S;
  pd_machine : Machine;
  pd_reads : nat;
  pd_told : list (nat * InsertHookEvent.InsertHookEvent);
}.
Arguments mkProducer {S} _ _ _ _.
Arguments pd_store {S} _.
Arguments pd_machine {S} _.
Arguments pd_reads {S} _.
Arguments pd_told {S} _.

Section client.
Context {S : Type} `{ProducerStore S}.
Context (clock : nat → Z) (c : Client).

Definition emit_insert (ev : InsertHookEvent.InsertHookEvent) (p : Producer S) : Producer S :=
  mkProducer (pd_store p) (pd_machine p) (pd_reads p)
    (pd_told p ++ flat_map (λ h, on_insert h ev) (cl_hooks c)
               ++ flat_map (λ h, on_insert h ev) (cl_global_hooks c)
               ++ flat_map (λ h, on_insert h ev) (cl_scoped_hooks c)).

(** [circuit_breaker.map(acquire).transpose()]. *)
Definition acquire_permit (p : Producer S) : Producer S * result (option CircuitPermit) CircuitRejected :=
  match cl_circuit c with
  | None => (p, Ok None)
  | Some b =>
      let '(m, r) := acquire b (pd_machine p) (clock (pd_reads p)) in
      (mkProducer (pd_store p) m (Datatypes.S (pd_reads p)) (pd_told p),
       match r with Ok permit => Ok (Some permit) | Err e => Err e end)
  end.

Definition finish_permit (permit : option CircuitPermit) (unavailable : bool) (p : Producer S)
    : Producer S :=
  match cl_circuit c, permit with
  | Some b, Some permit =>
      mkProducer (pd_store p) (circuit_finish b (pd_machine p) (clock (pd_reads p)) permit unavailable)
        (Datatypes.S (pd_reads p)) (pd_told p)
  | _, _ => p
  end.

(** What both terminals do once they know the store operation. *)
Definition insert_with (store_op : list Envelope → S → S * result unit StoreError.StoreError)
    (request : EnqueueRequest) : PM := λ p,
  match acquire_permit p with
  | (p, Err e) => (p, Err (ClientError.Circuit e))
  | (p, Ok permit) =>
      let p := emit_insert (InsertHookEvent.Begin request) p in
      let '(s, r) := store_op (er_batch request) (pd_store p) in
      let p := mkProducer s (pd_machine p) (pd_reads p) (pd_told p) in
      let p := finish_permit permit (is_circuit_failure r) p in
      let p := emit_insert (InsertHookEvent.End_ request (from_store_result r)) p in
      (p, match r with Ok _ => Ok tt | Err e => Err (ClientError.Store e) end)
  end.

Definition enqueue_terminal (request : EnqueueRequest) : PM := λ p,
  match authorize_enqueue_batch (cl_authorize c) (er_context request) (er_batch request) with
  | Err kind => (p, Err (ClientError.Forbidden kind))
  | Ok _ => insert_with pr_enqueue request p
  end.

Definition enqueue_tx_terminal (request : EnqueueRequest) : PM := λ p,
  match authorize_enqueue_batch (cl_authorize c) (er_context request) (er_batch request) with
  | Err kind => (p, Err (ClientError.Forbidden kind))
  | Ok _ =>
      match pr_enqueue_tx with
      | None => (p, Err (ClientError.Store (StoreError.Invalid
                   "transactional enqueue is unsupported by this store")))
      | Some op => insert_with op request p
      end
  end.

Definition enqueue_with_context (context : EnqueueContext) (batch : list Envelope) : PM :=
  run_chain (middleware_chain c) enqueue_terminal
    (mkEnqueueRequest context EnqueueOperation.Direct batch).

Definition client_enqueue (batch : list Envelope) : PM := enqueue_with_context default_context batch.

Definition enqueue_tx_with_context (context : EnqueueContext) (batch : list Envelope) : PM :=
  run_chain (middleware_chain c) enqueue_tx_terminal
    (mkEnqueueRequest context EnqueueOperation.Transactional batch).

(** ** Follow-on work from a handler *)

(** [headers.entry(k).or_insert_with(v)]. *)
Definition or_insert_header (k v : string) (hs : list (string * string)) : list (string * string) :=
  if existsb (λ kv, String.eqb kv.1 k) hs then hs else hs ++ [(k, v)].

Definition inherit_trace (trace : TraceContext) (e : Envelope) : Envelope :=
  let hs := or_insert_header TRACEPARENT (to_traceparent trace) (e_headers e) in
  let hs := if String.eqb (trace_state trace) "" then hs
            else or_insert_header TRACESTATE (trace_state trace) hs in
  e <| e_headers := hs |>.

Inductive JobClientError :=
  | JobCancelled
  | JobClientFailed (e : ClientError.ClientError).

Definition job_client_enqueue (trace : option TraceContext) (canceled : bool)
    (batch : list Envelope) (p : Producer S) : Producer S * result unit JobClientError :=
  if canceled then (p, Err JobCancelled)
  else
    let batch := match trace with Some t => inherit_trace t <$> batch | None => batch end in
    match client_enqueue batch p with
    | (p, Ok _) => (p, Ok tt)
    | (p, Err e) => (p, Err (JobClientFailed e))
    end.
End client.
