(* ===== verification/ClientSpec.v ===== *)
(** * The client's policies hold under any middleware

    Whatever the middlewares of a client do, every batch that reaches the store was authorised
    under its request's context and admitted by the circuit breaker, the breaker is told of
    every call's outcome, the hooks see one beginning and one end for each call, and while the
    circuit is open nothing reaches the store; follow-on work inherits its parent's trace
    without overriding what it set itself. *)

From S2P Require Import Prelude Shared Lifecycle Envelope MemStore MemAdmit MemInv MemLease Core Attempt Worker Breaker Client.
Local Open Scope Z_scope.

(** ** What becomes of a request that gets through the middlewares *)

Module Visit.
Inductive Visit :=
  | Forbidden (request : EnqueueRequest) (kind : string)
  | Unsupported (request : EnqueueRequest)
  | Rejected (request : EnqueueRequest) (why : CircuitRejected)
  | Called (request : EnqueueRequest) (res : result unit StoreError.StoreError).
End Visit.
Notation Visit := Visit.Visit.

(** A store call: the request that reached the store and the store's answer. *)
Definition StoreCall : Type := EnqueueRequest * result unit StoreError.StoreError.

Definition visit_request (v : Visit) : EnqueueRequest :=
  match v with
  | Visit.Forbidden request _ | Visit.Unsupported request | Visit.Rejected request _
  | Visit.Called request _ => request
  end.

Definition visit_answer (v : Visit) : result unit ClientError.ClientError :=
  match v with
  | Visit.Forbidden _ kind => Err (ClientError.Forbidden kind)
  | Visit.Unsupported _ =>
      Err (ClientError.Store (StoreError.Invalid "transactional enqueue is unsupported by this store"))
  | Visit.Rejected _ why => Err (ClientError.Circuit why)
  | Visit.Called _ (Ok _) => Ok tt
  | Visit.Called _ (Err e) => Err (ClientError.Store e)
  end.

Definition visit_call (v : Visit) : option StoreCall :=
  match v with Visit.Called request res => Some (request, res) | _ => None end.

Definition store_calls (vs : list Visit) : list StoreCall := omap visit_call vs.

(** Every envelope of the request is authorised under the request's context. *)
Definition authorised (c : Client) (request : EnqueueRequest) : Prop :=
  ∀ e, e ∈ er_batch request → cl_authorize c (er_context request) e = true.

(** Only an authorised request gets past the authorizer, a refusal names the kind of an
    envelope that is not authorised, and [op] is missing where it is called unsupported. *)
Definition justified {A} (op : option A) (c : Client) (v : Visit) : Prop :=
  match v with
  | Visit.Forbidden request kind =>
      ∃ e, e ∈ er_batch request ∧ e_kind e = kind ∧ cl_authorize c (er_context request) e = false
  | Visit.Unsupported request => authorised c request ∧ op = None
  | Visit.Rejected request _ | Visit.Called request _ => authorised c request
  end.

(** What the hooks are told about one call. *)
Definition told_of (c : Client) (call : StoreCall) : list (nat * InsertHookEvent.InsertHookEvent) :=
  let hooks := cl_hooks c ++ cl_global_hooks c ++ cl_scoped_hooks c in
  flat_map (λ h, on_insert h (InsertHookEvent.Begin call.1)) hooks
  ++ flat_map (λ h, on_insert h (InsertHookEvent.End_ call.1 (from_store_result call.2))) hooks.

(** The store went from [s] to [s'] by [calls], each with the answer it is recorded with. *)
Fixpoint replayed {S} (op : option (list Envelope → S → S * result unit StoreError.StoreError))
    (calls : list StoreCall) (s s' : S) : Prop :=
  match calls with
  | [] => s' = s
  | (request, res) :: calls =>
      ∃ f s1, op = Some f ∧ f (er_batch request) s = (s1, res) ∧ replayed op calls s1 s'
  end.

(** The breaker's machine [m], at the [n]-th reading of the clock, and what the visits do to
    it: a store call happens on a permit the machine gave and its outcome is reported with
    that permit, a rejection is the machine's own. *)
Fixpoint breaker_trace (clock : nat → Z) (circuit : option BreakerParams) (vs : list Visit)
    (m : Machine) (n : nat) (m' : Machine) (n' : nat) : Prop :=
  match vs with
  | [] => m' = m ∧ n' = n
  | v :: vs =>
      match v, circuit with
      | Visit.Forbidden _ _, _ | Visit.Unsupported _, _ | Visit.Called _ _, None =>
          breaker_trace clock circuit vs m n m' n'
      | Visit.Rejected _ why, Some b =>
          ∃ m1, acquire b m (clock n) = (m1, Err why) ∧ breaker_trace clock circuit vs m1 (1 + n) m' n'
      | Visit.Rejected _ _, None => False
      | Visit.Called _ res, Some b =>
          ∃ m1 permit, acquire b m (clock n) = (m1, Ok permit)
            ∧ breaker_trace clock circuit vs
                (circuit_finish b m1 (clock (1 + n)%nat) permit (is_circuit_failure res)) (2 + n) m' n'
      end
  end.

(** From [p] to [p'] the requests that got through the middlewares are [vs]. *)
Record policed {S} (op : option (list Envelope → S → S * result unit StoreError.StoreError))
    (clock : nat → Z) (c : Client) (p p' : Producer S) (vs : list Visit) : Prop := {
  po_justified : Forall (justified op c) vs;
  po_store : replayed op (store_calls vs) (pd_store p) (pd_store p');
  po_told : pd_told p' = pd_told p ++ flat_map (told_of c) (store_calls vs);
  po_breaker : breaker_trace clock (cl_circuit c) vs (pd_machine p) (pd_reads p) (pd_machine p') (pd_reads p');
}.

Lemma replayed_app {S} op calls calls' (s1 s2 s3 : S) :
  replayed op calls s1 s2 → replayed op calls' s2 s3 → replayed op (calls ++ calls') s1 s3.
Proof.
  revert s1. induction calls as [|[request res] calls IH]; intros s1; simpl; [by intros ->|].
  intros (f & s & Hop & Hf & Hr) Hr'. exists f, s. split_and!; [done..|by apply IH].
Qed.

Lemma breaker_trace_app clock circuit vs vs' m1 n1 m2 n2 m3 n3 :
  breaker_trace clock circuit vs m1 n1 m2 n2 → breaker_trace clock circuit vs' m2 n2 m3 n3 →
  breaker_trace clock circuit (vs ++ vs') m1 n1 m3 n3.
Proof.
  revert m1 n1. induction vs as [|v vs IH]; intros m1 n1; simpl; [by intros [-> ->]|].
  destruct v as [? ?|?|? ?|? res], circuit as [b|]; try done; [by apply IH..| | |by apply IH].
  - intros (m & Ha & Hr) Hr'. exists m. split; [done|by apply IH].
  - intros (m & permit & Ha & Hr) Hr'. exists m, permit. split; [done|by apply IH].
Qed.

Section policy.
Context {S : Type} (op : option (list Envelope → S → S * result unit StoreError.StoreError)).
Context (clock : nat → Z) (c : Client).
Local Notation producer := (Producer S).
Implicit Types p : producer.

Lemma policed_refl p : policed op clock c p p [].
Proof. constructor; simpl; [constructor|done|by rewrite app_nil_r|done]. Qed.

Lemma policed_trans p1 p2 p3 vs vs' :
  policed op clock c p1 p2 vs → policed op clock c p2 p3 vs' → policed op clock c p1 p3 (vs ++ vs').
Proof.
  intros [Ha Hs Ht Hb] [Ha' Hs' Ht' Hb']. constructor.
  - by apply Forall_app.
  - unfold store_calls. rewrite omap_app. by eapply replayed_app.
  - unfold store_calls. by rewrite omap_app, flat_map_app, Ht', Ht, app_assoc.
  - by eapply breaker_trace_app.
Qed.

Lemma authorize_batch_ok ctx batch :
  authorize_enqueue_batch (cl_authorize c) ctx batch = Ok tt
  ↔ ∀ e, e ∈ batch → cl_authorize c ctx e = true.
Proof.
  induction batch as [|e batch IH]; simpl; [split; [by intros _ ? ?%elem_of_nil|done]|].
  destruct (cl_authorize c ctx e) eqn:E; simpl.
  - rewrite IH. setoid_rewrite elem_of_cons. naive_solver.
  - split; [done|]. intros H. rewrite H in E; [done|by left].
Qed.

Lemma authorize_batch_err ctx batch kind :
  authorize_enqueue_batch (cl_authorize c) ctx batch = Err kind →
  ∃ e, e ∈ batch ∧ e_kind e = kind ∧ cl_authorize c ctx e = false.
Proof.
  induction batch as [|e batch IH]; simpl; [done|].
  destruct (cl_authorize c ctx e) eqn:E; simpl.
  - intros (e' & ? & ? & ?)%IH. exists e'. set_solver.
  - intros [= <-]. exists e. set_solver.
Qed.

Lemma emit_insert_told ev p :
  pd_told (emit_insert c ev p)
  = pd_told p ++ flat_map (λ h, on_insert h ev) (cl_hooks c ++ cl_global_hooks c ++ cl_scoped_hooks c).
Proof. unfold emit_insert. simpl. by rewrite !flat_map_app. Qed.

(** A visit of the terminal handler and its answer. *)
Definition visited (request : EnqueueRequest) p p' (r : result unit ClientError.ClientError) : Prop :=
  ∃ v, policed op clock c p p' [v] ∧ visit_request v = request ∧ r = visit_answer v.

Lemma insert_visited f request p p' r :
  op = Some f → authorised c request →
  insert_with clock c f request p = (p', r) → visited request p p' r.
Proof.
  intros Hop Hauth. unfold insert_with, acquire_permit, finish_permit.
  destruct (cl_circuit c) as [b|] eqn:Eb.
  - destruct (acquire b (pd_machine p) (clock (pd_reads p))) as [m [permit|e]] eqn:Ea; simpl.
    + destruct (f _ _) as [s res] eqn:Ef. intros [= <- <-]. exists (Visit.Called request res).
      split; [|split; [done|by destruct res]]. constructor; simpl; [by constructor|by eauto 7| |].
      * unfold told_of. simpl. by rewrite !flat_map_app, <-!app_assoc, app_nil_r.
      * rewrite Eb. eauto.
    + intros [= <- <-]. exists (Visit.Rejected request e). split; [|done].
      constructor; simpl; [by constructor|done|by rewrite app_nil_r|]. rewrite Eb. eauto.
  - simpl. destruct (f _ _) as [s res] eqn:Ef. intros [= <- <-]. exists (Visit.Called request res).
    split; [|split; [done|by destruct res]]. constructor; simpl; [by constructor|by eauto 7| |by rewrite Eb].
    unfold told_of. simpl. by rewrite !flat_map_app, <-!app_assoc, app_nil_r.
Qed.

Lemma forbidden_visited request p kind :
  authorize_enqueue_batch (cl_authorize c) (er_context request) (er_batch request) = Err kind →
  visited request p p (Err (ClientError.Forbidden kind)).
Proof.
  intros H. exists (Visit.Forbidden request kind). split; [|done].
  constructor; simpl; [|done|by rewrite app_nil_r|done].
  constructor; [by apply authorize_batch_err|done].
Qed.

(** A handler whose every run is a sequence of visits. *)
Definition polices (f : EnqueueRequest → PM (P := producer)) : Prop :=
  ∀ request p p' r, f request p = (p', r) → ∃ vs, policed op clock c p p' vs.

Lemma program_policed next m : polices next → ∀ p p' r,
  run_program next m p = (p', r) → ∃ vs, policed op clock c p p' vs.
Proof.
  intros Hn. induction m as [r0|request k IH]; intros p p' r; simpl.
  - intros [= <- <-]. exists []. apply policed_refl.
  - destruct (next request p) as [p1 r1] eqn:E. intros Hk.
    apply Hn in E as [vs Hc]. apply IH in Hk as [vs' Hc'].
    exists (vs ++ vs'). by eapply policed_trans.
Qed.

Lemma fns_policed fs terminal : polices terminal → polices (run_fns fs terminal).
Proof.
  intros Ht. induction fs as [|f fs IH]; [done|]. intros request p p' r.
  by apply (program_policed (run_fns fs terminal)).
Qed.

Lemma chain_policed ms terminal :
  (∀ request p p' r, terminal request p = (p', r) → visited request p p' r) →
  polices (run_chain ms terminal).
Proof.
  intros Ht. induction ms as [|[f|scope fs] ms IH]; intros request p p' r; simpl.
  - intros (v & Hv & _)%Ht. by exists [v].
  - by apply program_policed.
  - case_match; [|apply IH]. by apply fns_policed.
Qed.

(** *** An open circuit *)

(** The circuit is open, and no reading of the clock gets to the end of its recovery time. *)
Definition stays_open (b : BreakerParams) (m : Machine) (t : Z) : Prop :=
  cl_circuit c = Some b ∧ mode m = Open t
  ∧ ∀ n, u64_saturating_sub (clock n) t < bp_recovery_timeout_ms b.

Lemma acquire_open b m t n :
  stays_open b m t →
  acquire b m (clock n)
  = (m, Err (mkCircuitRejected CircuitState.Open (retry_after_ms b t (clock n)))).
Proof.
  intros (_ & Hm & Hn). unfold acquire, advance_open. rewrite Hm.
  rewrite (proj2 (Z.leb_gt _ _)) by apply Hn. by rewrite Hm.
Qed.

Lemma open_trace b m t vs n m' n' :
  stays_open b m t → breaker_trace clock (cl_circuit c) vs m n m' n' →
  m' = m ∧ store_calls vs = [].
Proof.
  intros Ho. pose proof Ho as [Hb _]. rewrite Hb. revert n. induction vs as [|v vs IH]; intros n; simpl; [by intros [-> _]|].
  destruct v as [? ?|?|? why|? res]; simpl; [apply IH|apply IH|..].
  - rewrite (acquire_open b m t n Ho). intros (m1 & [= <- _] & Hr). by eapply IH.
  - rewrite (acquire_open b m t n Ho). by intros (? & ? & [=] & _).
Qed.

Lemma open_policed b t p p' vs :
  stays_open b (pd_machine p) t → policed op clock c p p' vs →
  pd_store p' = pd_store p ∧ pd_told p' = pd_told p ∧ pd_machine p' = pd_machine p.
Proof.
  intros Ho [_ Hs Ht Hb]. destruct (open_trace _ _ _ _ _ _ _ Ho Hb) as [Hm Hc].
  rewrite Hc in Hs, Ht. simpl in *. by rewrite Ht, app_nil_r.
Qed.

Lemma open_visited b t request p p' r :
  stays_open b (pd_machine p) t → op ≠ None → authorised c request → visited request p p' r →
  r = Err (ClientError.Circuit
    (mkCircuitRejected CircuitState.Open (retry_after_ms b t (clock (pd_reads p))))).
Proof.
  intros Ho Hop Ha (v & [Hj _ _ Hb] & <- & ->). pose proof Ho as [Hc _]. rewrite Hc in Hb. simpl in Hb.
  apply Forall_inv in Hj. destruct v as [? ?|?|? why|? res]; simpl in *.
  - destruct Hj as (e & He & _ & Hf). by rewrite (Ha e He) in Hf.
  - by destruct Hj.
  - rewrite (acquire_open b _ t _ Ho) in Hb. by destruct Hb as (? & [= _ <-] & _).
  - rewrite (acquire_open b _ t _ Ho) in Hb. by destruct Hb as (? & ? & [=] & _).
Qed.
End policy.

Section terminals.
Context {S : Type} `{ProducerStore S} (clock : nat → Z) (c : Client).

Lemma terminal_visited request (p p' : Producer S) r :
  enqueue_terminal clock c request p = (p', r) → visited (Some pr_enqueue) clock c request p p' r.
Proof.
  unfold enqueue_terminal. destruct (authorize_enqueue_batch _ _ _) as [[]|kind] eqn:E.
  - apply insert_visited; [done|exact (proj1 (authorize_batch_ok _ _ _) E)].
  - intros [= <- <-]. by apply forbidden_visited.
Qed.

Lemma tx_terminal_visited request (p p' : Producer S) r :
  enqueue_tx_terminal clock c request p = (p', r) → visited pr_enqueue_tx clock c request p p' r.
Proof.
  unfold enqueue_tx_terminal. destruct (authorize_enqueue_batch _ _ _) as [[]|kind] eqn:E;
    [|intros [= <- <-]; by apply forbidden_visited].
  pose proof (proj1 (authorize_batch_ok _ _ _) E) as Ha.
  destruct pr_enqueue_tx as [f|]; [by apply insert_visited|].
  intros [= <- <-]. exists (Visit.Unsupported request). split; [|done].
  constructor; simpl; [by constructor|done|by rewrite app_nil_r|done].
Qed.
End terminals.

(** One run of an entry point: what it did, its answer where no middleware stands in front,
    and an open circuit. *)
Definition policed_run {S} (op : option (list Envelope → S → S * result unit StoreError.StoreError))
    (clock : nat → Z) (c : Client) (request : EnqueueRequest) (p : Producer S)
    (run : Producer S * result unit ClientError.ClientError) : Prop :=
  (∃ vs, policed op clock c p run.1 vs)
  ∧ (middleware_chain c = [] → visited op clock c request p run.1 run.2)
  ∧ ∀ b t, stays_open clock c b (pd_machine p) t →
      (pd_store run.1 = pd_store p ∧ pd_told run.1 = pd_told p ∧ pd_machine run.1 = pd_machine p)
      ∧ (middleware_chain c = [] → op ≠ None → authorised c request →
           run.2 = Err (ClientError.Circuit
             (mkCircuitRejected CircuitState.Open (retry_after_ms b t (clock (pd_reads p)))))).

Lemma chain_policed_run {S} op clock c terminal request (p : Producer S) :
  (∀ request p p' r, terminal request p = (p', r) → visited op clock c request p p' r) →
  policed_run op clock c request p (run_chain (middleware_chain c) terminal request p).
Proof.
  intros Ht. destruct (run_chain (middleware_chain c) terminal request p) as [p' r] eqn:E.
  assert (middleware_chain c = [] → visited op clock c request p p' r) as Hv.
  { intros Hm. rewrite Hm in E. by apply Ht. }
  assert (∃ vs, policed op clock c p p' vs) as [vs Hvs] by by eapply chain_policed.
  split; [by exists vs|]. split; [done|]. intros b t Ho.
  split; [by eapply open_policed|]. intros Hm Hop Ha. by eapply open_visited, Hv.
Qed.


(** ** Trace inheritance *)

Fixpoint find_header (k : string) (hs : list (string * string)) : option string :=
  match hs with
  | [] => None
  | (k', v) :: hs => if String.eqb k' k then Some v else find_header k hs
  end.

Lemma find_or_insert k v hs k' :
  find_header k' (or_insert_header k v hs)
  = match find_header k' hs with
    | Some x => Some x
    | None => if String.eqb k k' then Some v else None
    end.
Proof.
  unfold or_insert_header. destruct (existsb _ hs) eqn:E.
  - destruct (find_header k' hs) eqn:Ef; [done|]. destruct (String.eqb_spec k k') as [<-|]; [|done].
    exfalso. induction hs as [|[k0 v0] hs IH]; simpl in *; [done|].
    destruct (String.eqb k0 k); [done|]. by apply IH.
  - clear E. induction hs as [|[k0 v0] hs IH]; simpl; [done|]. by destruct (String.eqb k0 k').
Qed.

(** Follow-on work belongs to its parent's trace and keeps its own choices.  A child
    enqueued from a handler changes only in its headers; every header it set itself is kept;
    if it set no traceparent, it carries its parent's context: for a parent with a W3C-valid
    context, what the child's dispatch parses is exactly that context.  A cancelled handler
    enqueues nothing. *)
Theorem follow_on_work_inherits_trace {S} `{ProducerStore S} (clock : nat → Z) (c : Client)
    (tc : TraceContext) (e : Envelope) (batch : list Envelope) (p : Producer S) :
  (inherit_trace tc e) <| e_headers := e_headers e |> = e
  ∧ (∀ k v, find_header k (e_headers e) = Some v →
       find_header k (e_headers (inherit_trace tc e)) = Some v)
  ∧ (trace_ok tc → trace_state tc = "" → find_header TRACEPARENT (e_headers e) = None →
       find_header TRACEPARENT (e_headers (inherit_trace tc e)) ≫= parse_traceparent = Some tc)
  ∧ job_client_enqueue clock c (Some tc) true batch p = (p, Err JobCancelled).
Proof.
  split_and!.
  - unfold inherit_trace, upd; simpl. by destruct e.
  - intros k v Hk. unfold inherit_trace, upd; simpl.
    case_match; rewrite ?find_or_insert; by rewrite Hk.
  - intros Hok Hst Hn. unfold inherit_trace, upd; simpl. rewrite Hst. simpl.
    rewrite find_or_insert, Hn. simpl. by apply parse_traceparent_spec.
  - done.
Qed.

(** ** Witnesses *)

#[export] Instance mem_producer (now : Z) : ProducerStore Inner := {|
  pr_enqueue batch i := enqueue now batch i;
  pr_enqueue_tx := None;
|}.

(** A client that refuses one kind, with a middleware that calls on twice and one hook. *)
Definition demo_client : Client :=
  mkClient (λ _ e, negb (String.eqb (e_kind e) "secret")) (Some (mkBreakerParams 3 1000 1))
    [Middleware.Single (λ r, MwNext r (λ _, MwNext r MwAnswer))] [Hook.Single 7] [] [] [] [].

Definition demo_producer : Producer Inner :=
  mkProducer default_inner (mkMachine 0 (Closed 0)) 0 [].

(** The same with its circuit open since time 0. *)
Definition open_producer : Producer Inner :=
  mkProducer default_inner (mkMachine 1 (Open 0)) 0 [].

Definition demo_enqueue (p : Producer Inner) : Producer Inner * result unit ClientError.ClientError :=
  enqueue_with_context (H := mem_producer 10) (λ n, Z.of_nat n `min` 500) demo_client default_context
    [demo_env "a1" "a" 0] p.


Definition demo_trace : TraceContext :=
  mkTraceContext "0af7651916cd43dd8448eb211c80319c" "b7ad6b7169203331" 1 "".

Lemma follow_on_work_inherits_trace_witness :
  find_header TRACEPARENT (e_headers (inherit_trace demo_trace (demo_env "a1" "a" 0)))
    ≫= parse_traceparent = Some demo_trace.
Proof.
  apply (proj1 (proj2 (proj2 (follow_on_work_inherits_trace (H := mem_producer 10) (λ n, Z.of_nat n)
    demo_client demo_trace (demo_env "a1" "a" 0) [] (mkProducer default_inner (mkMachine 0 (Closed 0)) 0 []))))).
  - constructor; first [by vm_compute|simpl; lia].
  - reflexivity.
  - reflexivity.
Defined.
