(* ===== verification/Bus.v ===== *)
(** * headgate: the in-process event bus

    Models [crates/headgate/src/subscription.rs]: subscribers with a kind filter and a bounded
    channel, [subscribe], [publish], [recv], closing a receiver and [unsubscribe], together
    with [enqueue_and_wait] of [client.rs], whose loop turns events and durable reads into the
    completion its caller gets.  A publication never waits: what does not fit
    into a subscriber's channel is counted and dropped for that subscriber alone. *)

From S2P Require Import Prelude Shared Lifecycle Envelope MemStore MemAdmit MemInv MemLease Core Attempt Worker Client.
Local Open Scope Z_scope.

#[export] Instance job_event_kind_eq_dec : EqDecision JobEventKind.JobEventKind.
Proof. solve_decision. Defined.

Record SubscriptionConfig := mkSubscriptionConfig {
  sc_capacity : nat;
  sc_kinds : list JobEventKind.JobEventKind;
}.

Definition subscription_config (capacity : nat) : result SubscriptionConfig unit :=
  if (capacity =? 0)%nat then Err tt else Ok (mkSubscriptionConfig capacity []).

Definition with_kinds (kinds : list JobEventKind.JobEventKind) (c : SubscriptionConfig)
    : SubscriptionConfig := mkSubscriptionConfig (sc_capacity c) (sc_kinds c ++ kinds).

(** A subscriber with its channel: what is buffered, what its receiver has taken, whether the
    receiver is still there, and the counter of dropped events. *)
Record Subscriber := mkSubscriber {
  sb_kinds : list JobEventKind.JobEventKind;
  sb_capacity : nat;
  sb_queue : list JobEvent;
  sb_taken : list JobEvent;
  sb_open : bool;
  sb_dropped : Z;
}.

#[export] Instance subscriber_eta : Eta Subscriber := λ s,
  mkSubscriber (sb_kinds s) (sb_capacity s) (sb_queue s) (sb_taken s) (sb_open s) (sb_dropped s).

Record BusState := mkBusState { bus_next_id : Z; bus_subscribers : gmap Z Subscriber }.

Definition new_bus : BusState := mkBusState 0 ∅.

Definition subscribe (config : SubscriptionConfig) (b : BusState) : Z * BusState :=
  let id := Z.max (u64_add (bus_next_id b) 1) 1 in
  (id, mkBusState id (<[id := mkSubscriber (sc_kinds config) (sc_capacity config) [] [] true 0]>
                        (bus_subscribers b))).

(** The kind filter: an empty set means every kind. *)
Definition wants (s : Subscriber) (ev : JobEvent) : bool :=
  bool_decide (sb_kinds s = []) || bool_decide (je_kind ev ∈ sb_kinds s).

(** [try_send]: [None] when the receiver is gone. *)
Definition offer (ev : JobEvent) (s : Subscriber) : option Subscriber :=
  if negb (wants s ev) then Some s
  else if negb (sb_open s) then None
  else if (length (sb_queue s) <? sb_capacity s)%nat
  then Some (s <| sb_queue := sb_queue s ++ [ev] |>)
  else Some (s <| sb_dropped := u64_add (sb_dropped s) 1 |>).

Definition publish (ev : JobEvent) (b : BusState) : BusState :=
  mkBusState (bus_next_id b) (omap (offer ev) (bus_subscribers b)).

(** The receiver takes the oldest buffered event. *)
Definition recv (id : Z) (b : BusState) : option JobEvent * BusState :=
  match bus_subscribers b !! id with
  | Some s =>
      match sb_queue s with
      | ev :: queue =>
          (Some ev, mkBusState (bus_next_id b)
             (<[id := s <| sb_queue := queue |> <| sb_taken := sb_taken s ++ [ev] |>]>
                (bus_subscribers b)))
      | [] => (None, b)
      end
  | None => (None, b)
  end.

Definition unsubscribe (id : Z) (b : BusState) : BusState :=
  mkBusState (bus_next_id b) (delete id (bus_subscribers b)).

Definition close_receiver (id : Z) (b : BusState) : BusState :=
  mkBusState (bus_next_id b) (alter (λ s, s <| sb_open := false |>) id (bus_subscribers b)).

(** ** Runs of the bus *)

Inductive bus_op :=
  | BusSubscribe (config : SubscriptionConfig)
  | BusPublish (ev : JobEvent)
  | BusRecv (id : Z)
  | BusUnsubscribe (id : Z)
  | BusClose (id : Z).

Definition bus_run (b : BusState) (o : bus_op) : BusState :=
  match o with
  | BusSubscribe config => (subscribe config b).2
  | BusPublish ev => publish ev b
  | BusRecv id => (recv id b).2
  | BusUnsubscribe id => unsubscribe id b
  | BusClose id => close_receiver id b
  end.

(** ** Completion of a waited-for job *)

Record Completion := mkCompletion {
  cm_job_id : string;
  cm_state : string;
  cm_result : option JobResult;
  cm_error : option string;
}.

Definition is_terminal_state (state : string) : bool :=
  existsb (String.eqb state)
    ["completed"; "archived"; "cancelled"; "undecodable"; "quarantined"; "deleted"].

(** The newest entry of the job's error history; the text parser [from_str] belongs to
    [serde_json]. *)
Definition latest_job_error (from_str : string → option json) (errors_json : string) : option string :=
  value ← from_str errors_json;
  errors ← (match value with JArray l => Some l | _ => None end);
  entry ← last errors;
  field ← (match entry with JObject o => btree_get "error" o | _ => None end);
  error ← as_str field;
  if String.eqb error "" then None else Some error.

Module WaitError.
Inductive WaitError :=
  | Enqueue (e : ClientError.ClientError)
  | Store (e : StoreError.StoreError)
  | Unsupported (message : string)
  | Timeout (job_id : string).
End WaitError.

(** What ends one turn of the waiting loop: the subscription yields an event, or [None] once
    its stream has ended, or the reconcile interval ticks.  The store is the one read then. *)
Module Wake.
Inductive Wake (S : Type) := Event (event : option JobEvent) (s : S) | Tick (s : S).
Arguments Event {S}.
Arguments Tick {S}.
End Wake.

Section completion.
Context {S : Type} (from_str : string → option json)
  (get_job : string → S → result (option JobSummary) StoreError.StoreError)
  (get_job_result : option (string → S → result (option JobResult) StoreError.StoreError)).

Definition terminal_completion (job_id : string) (event : option JobEvent) (s : S)
    : result (option Completion) WaitError.WaitError :=
  match get_job job_id s with
  | Err e => Err (WaitError.Store e)
  | Ok None =>
      Ok (ev ← event;
          if is_terminal_state (je_state ev)
          then Some (mkCompletion job_id (je_state ev) None (je_error ev)) else None)
  | Ok (Some summary) =>
      if negb (is_terminal_state (js_state summary)) then Ok None
      else
        match (match get_job_result with Some get => get job_id s | None => Ok None end) with
        | Err e => Err (WaitError.Store e)
        | Ok res =>
            let error := match event ≫= je_error with
                         | Some e => Some e
                         | None => latest_job_error from_str (js_errors_json summary)
                         end in
            Ok (Some (mkCompletion job_id (js_state summary) res error))
        end
  end.

(** The loop over the wake-ups that come before the timeout. *)
Fixpoint wait_loop (job_id : string) (wakes : list (Wake.Wake S)) : result Completion WaitError.WaitError :=
  match wakes with
  | [] => Err (WaitError.Timeout job_id)
  | wake :: wakes =>
      match (match wake with
             | Wake.Event None _ => Err (WaitError.Unsupported "insert-and-await event stream closed")
             | Wake.Event (Some ev) s =>
                 if String.eqb (je_job_id ev) job_id
                 then terminal_completion job_id (Some ev) s else Ok None
             | Wake.Tick s => terminal_completion job_id None s
             end) with
      | Err e => Err e
      | Ok (Some done) => Ok done
      | Ok None => wait_loop job_id wakes
      end
  end.

(** [enqueue_and_wait]: [enqueue] is the client's call, [inspectable] and [has_bus] what the
    client and its store offer; [first] is the store of the read right after the insert, absent
    when the timeout came before it. *)
Definition enqueue_and_wait (has_bus inspectable : bool) (enqueue : result unit ClientError.ClientError)
    (e : Envelope) (first : option S) (wakes : list (Wake.Wake S)) : result Completion WaitError.WaitError :=
  if negb has_bus then
    Err (WaitError.Unsupported "insert-and-await requires an EventBus shared with the worker")
  else if negb inspectable then
    Err (WaitError.Unsupported "insert-and-await requires an inspectable store")
  else
    match enqueue with
    | Err err => Err (WaitError.Enqueue err)
    | Ok _ =>
        wait_loop (e_id e) (match first with Some s => Wake.Tick s :: wakes | None => [] end)
    end.
End completion.

(** ** What a subscriber gets *)

(** The published events a subscriber with these kinds wants. *)
Definition published (kinds : list JobEventKind.JobEventKind) (ops : list bus_op) : list JobEvent :=
  omap (λ o, match o with
             | BusPublish ev =>
                 if bool_decide (kinds = []) || bool_decide (je_kind ev ∈ kinds) then Some ev else None
             | _ => None
             end) ops.

(** The operations that end the subscription [id]. *)
Definition ends (id : Z) (o : bus_op) : bool :=
  match o with BusUnsubscribe i | BusClose i => i =? id | _ => false end.

Record accounted (config : SubscriptionConfig) (ops : list bus_op) (s : Subscriber) : Prop := {
  ac_config : sb_kinds s = sc_kinds config ∧ sb_capacity s = sc_capacity config ∧ sb_open s = true;
  ac_order : sb_taken s ++ sb_queue s `sublist_of` published (sc_kinds config) ops;
  ac_count : Z.of_nat (length (published (sc_kinds config) ops))
             = Z.of_nat (length (sb_taken s) + length (sb_queue s)) + sb_dropped s
             ∧ 0 ≤ sb_dropped s;
  ac_bound : (length (sb_queue s) ≤ sc_capacity config)%nat;
  ac_full : 0 < sb_dropped s →
            (sc_capacity config ≤ length (sb_taken s) + length (sb_queue s))%nat;
}.

Lemma published_snoc kinds ops o :
  published kinds (ops ++ [o]) = published kinds ops ++ published kinds [o].
Proof. unfold published. by rewrite omap_app. Qed.

Lemma published_length kinds ops : (length (published kinds ops) ≤ length ops)%nat.
Proof.
  unfold published. induction ops as [|o ops IH]; csimpl; [done|].
  destruct o; simpl; try lia. case_match; simpl; lia.
Qed.

(** An operation that publishes nothing to this subscriber and leaves it alone. *)
Lemma accounted_skip config ops o s :
  published (sc_kinds config) [o] = [] → accounted config ops s → accounted config (ops ++ [o]) s.
Proof. intros Ho [? ? ? ? ?]. by constructor; rewrite ?published_snoc, ?Ho, ?app_nil_r. Qed.

Lemma offer_accounted config ops ev s :
  Z.of_nat (length ops) < u64_max → accounted config ops s →
  ∃ s', offer ev s = Some s' ∧ accounted config (ops ++ [BusPublish ev]) s'.
Proof.
  intros Hn Hac. pose proof Hac as [(Hk & Hc & Ho) Hord [Hcnt Hd] Hb Hfull]. unfold offer.
  pose proof (published_length (sc_kinds config) ops) as Hlen.
  destruct (wants s ev) eqn:Ew; unfold wants in Ew; rewrite Hk in Ew; simpl.
  2:{ eexists. split; [done|]. apply accounted_skip; [|done]. unfold published. simpl. by rewrite Ew. }
  assert (published (sc_kinds config) [BusPublish ev] = [ev]) as Hp.
  { unfold published. simpl. by rewrite Ew. }
  rewrite Ho. simpl.
  destruct (length (sb_queue s) <? sb_capacity s)%nat eqn:Hf; eexists; (split; [done|]).
  - apply Nat.ltb_lt in Hf. constructor; unfold upd; simpl; [done| | |rewrite length_app; simpl; lia|].
    + rewrite published_snoc, Hp, app_assoc. by apply sublist_app.
    + rewrite published_snoc, Hp, !length_app. simpl. lia.
    + intros ?%Hfull. rewrite length_app. lia.
  - apply Nat.ltb_ge in Hf. unfold u64_add.
    rewrite wrap_u64_id by (unfold in_u64; lia). constructor; unfold upd; simpl; [done| | |done|lia].
    + rewrite published_snoc. by apply sublist_inserts_r.
    + rewrite published_snoc, Hp, length_app. simpl. lia.
Qed.

Lemma recv_accounted config ops id ev queue s :
  sb_queue s = ev :: queue → accounted config ops s →
  accounted config (ops ++ [BusRecv id]) (s <| sb_queue := queue |> <| sb_taken := sb_taken s ++ [ev] |>).
Proof.
  intros Hq Hac. apply (accounted_skip _ _ (BusRecv id)) in Hac as [Hc Hord Hcnt Hb Hfull]; [|done].
  rewrite Hq in *. constructor; unfold upd; simpl in *; [done| | |lia|].
  - by rewrite <-app_assoc.
  - rewrite length_app in *. simpl in *. lia.
  - intros ?%Hfull. rewrite length_app. simpl. lia.
Qed.

(** One operation, seen by a subscription it does not end. *)
Lemma bus_run_accounted config ops id b o s :
  1 ≤ id ≤ bus_next_id b → bus_next_id b < u64_max → Z.of_nat (length ops) < u64_max →
  ends id o = false → bus_subscribers b !! id = Some s → accounted config ops s →
  id ≤ bus_next_id (bus_run b o) ≤ bus_next_id b + 1 ∧
  ∃ s', bus_subscribers (bus_run b o) !! id = Some s' ∧ accounted config (ops ++ [o]) s'.
Proof.
  intros Hid Hnext Hn He Hs Hac.
  assert (published (sc_kinds config) [o] = [] → accounted config (ops ++ [o]) s) as Hskip
    by (intros; by apply accounted_skip).
  destruct o as [c|ev|i|i|i]; simpl in *.
  - unfold u64_add. rewrite wrap_u64_id by (unfold in_u64; lia). split; [lia|].
    exists s. rewrite lookup_insert_ne by lia. split; [done|]. by apply Hskip.
  - split; [lia|]. rewrite lookup_omap, Hs. simpl.
    destruct (offer_accounted config ops ev s) as (s' & -> & ?); [done..|]. by exists s'.
  - unfold recv. destruct (bus_subscribers b !! i) as [si|] eqn:Hi.
    2:{ split; [simpl; lia|]. exists s. split; [done|]. by apply Hskip. }
    destruct (sb_queue si) as [|ev queue] eqn:Hq; simpl; (split; [lia|]).
    { exists s. split; [done|]. by apply Hskip. }
    destruct (decide (i = id)) as [->|Hne].
    + assert (si = s) as -> by congruence. rewrite lookup_insert_eq. eexists. split; [done|].
      by apply recv_accounted.
    + rewrite lookup_insert_ne by done. exists s. split; [done|]. by apply Hskip.
  - apply Z.eqb_neq in He. split; [lia|]. rewrite lookup_delete_ne by done. exists s. split; [done|].
    by apply Hskip.
  - apply Z.eqb_neq in He. split; [lia|]. rewrite lookup_alter_ne by done. exists s. split; [done|].
    by apply Hskip.
Qed.

Lemma bus_runs_accounted config id ops : ∀ done_ops b s,
  1 ≤ id ≤ bus_next_id b →
  bus_next_id b + Z.of_nat (length ops) ≤ u64_max →
  Z.of_nat (length done_ops) + Z.of_nat (length ops) ≤ u64_max →
  Forall (λ o, ends id o = false) ops →
  bus_subscribers b !! id = Some s → accounted config done_ops s →
  ∃ s', bus_subscribers (fold_left bus_run ops b) !! id = Some s' ∧
        accounted config (done_ops ++ ops) s'.
Proof.
  induction ops as [|o ops IH]; intros done_ops b s Hid Hb Hn Hends Hs Hac; simpl in *.
  { exists s. by rewrite app_nil_r. }
  apply Forall_cons in Hends as [Ho Hends].
  destruct (bus_run_accounted config done_ops id b o s) as [Hnext (s1 & Hs1 & Hac1)]; [lia..|done|done|done|].
  destruct (IH (done_ops ++ [o]) (bus_run b o) s1) as (s2 & Hs2 & Hac2);
    [lia|lia|rewrite length_app; simpl; lia|done|done|done|].
  exists s2. by rewrite <-app_assoc in Hac2.
Qed.

(** The event bus keeps its books for every subscription.  From the moment a subscriber
    registers, whatever the other subscribers, the publishers
    and the receivers do, as long as this subscription is not ended, what its receiver has taken
    followed by what is still buffered is a subsequence, in publication order, of the published
    events its filter wants; every wanted event that is missing from it is counted in
    [dropped]; the buffer never holds more than the configured capacity, and nothing is dropped
    before the subscription has received that many events. *)
Theorem bus_accounting config b0 ops :
  0 ≤ bus_next_id b0 →
  bus_next_id b0 + 1 + Z.of_nat (length ops) ≤ u64_max →
  Forall (λ o, ends (subscribe config b0).1 o = false) ops →
  ∃ s, bus_subscribers (fold_left bus_run ops (subscribe config b0).2) !! (subscribe config b0).1
       = Some s ∧ accounted config ops s.
Proof.
  intros Hb Hn Hends. unfold subscribe in *. simpl in *. unfold u64_add in *.
  rewrite wrap_u64_id in * by (unfold in_u64; lia).
  eapply (bus_runs_accounted config _ ops []); simpl; [lia|lia|lia|done|by rewrite lookup_insert_eq|].
  constructor; simpl; [done|done|lia|lia|lia].
Qed.

Definition demo_bus_event (kind : JobEventKind.JobEventKind) (id : string) : JobEvent :=
  mkJobEvent kind id "kind" "queue" 1 "completed" None.

Definition demo_bus_ops : list bus_op :=
  [BusPublish (demo_bus_event JobEventKind.Completed "a"); BusSubscribe (mkSubscriptionConfig 1 []);
   BusPublish (demo_bus_event JobEventKind.Completed "b"); BusRecv 1;
   BusPublish (demo_bus_event JobEventKind.Failed "c"); BusUnsubscribe 2;
   BusPublish (demo_bus_event JobEventKind.Completed "d")].

Lemma bus_accounting_witness :
  let config := mkSubscriptionConfig 1 [JobEventKind.Completed] in
  ∃ s, bus_subscribers (fold_left bus_run demo_bus_ops (subscribe config new_bus).2)
         !! (subscribe config new_bus).1 = Some s ∧
       accounted config demo_bus_ops s ∧
       map je_job_id (sb_taken s) = ["a"] ∧ map je_job_id (sb_queue s) = ["d"] ∧ sb_dropped s = 1.
Proof.
  destruct (bus_accounting (mkSubscriptionConfig 1 [JobEventKind.Completed]) new_bus demo_bus_ops)
    as (s & Hs & Hac); [done|by vm_compute|by repeat constructor|].
  exists s. split; [exact Hs|]. split; [exact Hac|].
  vm_compute in Hs. injection Hs as <-. done.
Defined.

(** ** Completions *)

Section completions.
Context {S : Type} (from_str : string → option json)
  (get_job : string → S → result (option JobSummary) StoreError.StoreError)
  (get_job_result : option (string → S → result (option JobResult) StoreError.StoreError)).
Local Notation terminal_completion := (terminal_completion from_str get_job get_job_result).
Local Notation wait_loop := (wait_loop from_str get_job get_job_result).

(** What a completion rests on: the job's row in a terminal state, or, when the row is gone, an
    event about this job that announced one. *)
Definition grounded (id : string) (event : option JobEvent) (s : S) (c : Completion) : Prop :=
  cm_job_id c = id ∧ is_terminal_state (cm_state c) = true ∧
  ((∃ row, get_job id s = Ok (Some row) ∧ cm_state c = js_state row ∧
           ∀ get, get_job_result = Some get → get id s = Ok (cm_result c)) ∨
   (get_job id s = Ok None ∧ cm_result c = None ∧
    ∃ ev, event = Some ev ∧ cm_state c = je_state ev ∧ cm_error c = je_error ev)).

Lemma terminal_completion_grounded id event s c :
  terminal_completion id event s = Ok (Some c) → grounded id event s c.
Proof.
  unfold Bus.terminal_completion, grounded. destruct (get_job id s) as [[row|]|e]; [| |done].
  - destruct (is_terminal_state (js_state row)) eqn:Et; simpl; [|done]. intros Hr.
    destruct get_job_result as [get|]; [destruct (get id s) as [res|e] eqn:Eg; [|done]|];
      injection Hr as <-; simpl; (split; [done|]); (split; [done|]); left; exists row;
      (split; [done|]); (split; [done|]); intros ? [= <-]; done.
  - destruct event as [ev|]; simpl; [|done].
    destruct (is_terminal_state (je_state ev)) eqn:Et; simpl; [|done]. intros [= <-]. simpl.
    split; [done|]. split; [done|]. right. split; [done|]. split; [done|]. by exists ev.
Qed.

(** A read that finds the job's row in a terminal state ends the wait. *)
Lemma terminal_row_completes id event s row :
  get_job id s = Ok (Some row) → is_terminal_state (js_state row) = true →
  terminal_completion id event s ≠ Ok None.
Proof.
  unfold Bus.terminal_completion. intros -> Ht. rewrite Ht. simpl.
  destruct get_job_result as [get|]; [|done]. by destruct (get id s).
Qed.

(** Where the loop's completion comes from: a wake-up's own read of the store. *)
Lemma wait_loop_grounded id wakes c :
  wait_loop id wakes = Ok c →
  ∃ s event, (Wake.Tick s ∈ wakes ∧ event = None ∨
              (∃ ev, Wake.Event (Some ev) s ∈ wakes ∧ event = Some ev ∧ je_job_id ev = id)) ∧
             grounded id event s c.
Proof.
  induction wakes as [|wake wakes IH]; simpl; [done|]. intros Hw.
  assert (wait_loop id wakes = Ok c → ∃ s event,
    (Wake.Tick s ∈ wake :: wakes ∧ event = None ∨
     (∃ ev, Wake.Event (Some ev) s ∈ wake :: wakes ∧ event = Some ev ∧ je_job_id ev = id)) ∧
    grounded id event s c) as Hrest.
  { intros (s & event & Hs & Hg)%IH. exists s, event. split; [|done].
    destruct Hs as [[? ?]|(ev & ? & ?)]; [left|right; exists ev]; (split; [by apply list_elem_of_further|done]). }
  destruct wake as [[ev|] s|s]; [|done|].
  - destruct (String.eqb (je_job_id ev) id) eqn:Eid; [|auto]. apply String.eqb_eq in Eid.
    destruct (terminal_completion id (Some ev) s) as [[c'|]|e] eqn:Et; [|auto|done].
    injection Hw as ->. exists s, (Some ev). split; [|by apply terminal_completion_grounded].
    right. exists ev. split; [by apply list_elem_of_here|done].
  - destruct (terminal_completion id None s) as [[c'|]|e] eqn:Et; [|auto|done].
    injection Hw as ->. exists s, None. split; [|by apply terminal_completion_grounded].
    left. split; [by apply list_elem_of_here|done].
Qed.

(** Which errors the loop ends with. *)
Lemma terminal_completion_err id event s e :
  terminal_completion id event s = Err e → ∃ err, e = WaitError.Store err.
Proof. unfold Bus.terminal_completion. repeat (case_match; simplify_eq; try done); intros [= <-]; eauto. Qed.

Lemma wait_loop_errs id wakes e :
  wait_loop id wakes = Err e →
  e = WaitError.Timeout id ∨ (∃ err, e = WaitError.Store err) ∨
  (∃ m s, e = WaitError.Unsupported m ∧ Wake.Event None s ∈ wakes).
Proof.
  induction wakes as [|wake wakes IH]; simpl; [intros [= <-]; by left|]. intros Hw.
  assert (wait_loop id wakes = Err e →
    e = WaitError.Timeout id ∨ (∃ err, e = WaitError.Store err) ∨
    (∃ m s, e = WaitError.Unsupported m ∧ Wake.Event None s ∈ wake :: wakes)) as Hrest.
  { intros [?|[?|(m & s & ? & ?)]]%IH; [by left|by right; left|].
    right. right. exists m, s. split; [done|]. by apply list_elem_of_further. }
  destruct wake as [[ev|] s|s].
  - destruct (String.eqb (je_job_id ev) id); [|auto].
    destruct (terminal_completion id (Some ev) s) as [[c|]|err] eqn:Et; [done|auto|].
    injection Hw as ->. right. left. by eapply terminal_completion_err.
  - injection Hw as <-. right. right. eexists _, s. split; [done|]. by apply list_elem_of_here.
  - destruct (terminal_completion id None s) as [[c|]|err] eqn:Et; [done|auto|].
    injection Hw as ->. right. left. by eapply terminal_completion_err.
Qed.

(** A wait that times out never saw the job's row in a terminal state at a tick. *)
Lemma wait_loop_timeout id wakes s row :
  wait_loop id wakes = Err (WaitError.Timeout id) → Wake.Tick s ∈ wakes →
  get_job id s = Ok (Some row) → is_terminal_state (js_state row) = false.
Proof.
  intros Hw Hin Hrow. apply not_true_iff_false. intros Ht.
  pose proof (terminal_row_completes id None s row Hrow Ht) as Hne.
  assert (∀ e, terminal_completion id None s ≠ Err (WaitError.Timeout e)) as Hto.
  { intros e. unfold Bus.terminal_completion. rewrite Hrow, Ht. simpl.
    destruct get_job_result as [get|]; [|done]. by destruct (get id s). }
  induction wakes as [|wake wakes IH]; [by apply elem_of_nil in Hin|].
  apply elem_of_cons in Hin as [<-|Hin]; simpl in Hw.
  { destruct (terminal_completion id None s) as [[c|]|e]; [done|done|]. injection Hw as ->. by apply (Hto id). }
  apply IH; [|done]. destruct wake as [[ev|] s'|s']; [|done|].
  - destruct (String.eqb (je_job_id ev) id); [|done].
    revert Hw. unfold Bus.terminal_completion. repeat (case_match; simplify_eq; try done).
  - revert Hw. unfold Bus.terminal_completion. repeat (case_match; simplify_eq; try done).
Qed.

(** A job without retention leaves no row behind: when its event was dropped, no durable read
    ends the wait. *)
Lemma lost_event_times_out id wakes :
  (∀ wake, wake ∈ wakes → ∃ s, wake = Wake.Tick s ∧ get_job id s = Ok None) →
  wait_loop id wakes = Err (WaitError.Timeout id).
Proof.
  induction wakes as [|wake wakes IH]; intros Hall; [done|]. simpl.
  destruct (Hall wake) as (s & -> & Hs); [by apply list_elem_of_here|].
  unfold Bus.terminal_completion. rewrite Hs. simpl. apply IH.
  intros w Hw. apply Hall. by apply list_elem_of_further.
Qed.

(** An insert-and-await caller is told the truth.  A completion it gets is about its own
    job, in a terminal state, and comes from one read of the store: the state and the recorded
    result of the job's row or, when the row is gone, the state an event about this very job
    announced.  An enqueue that failed is reported as such, with nothing waited for.  And a
    wait that ran into its timeout never looked at the job, in its first read or at any tick,
    while the job's row was in a terminal state. *)
Theorem await_answers_are_grounded has_bus inspectable enqueue e first wakes :
  let reads := match first with Some s => Wake.Tick s :: wakes | None => [] end in
  match enqueue_and_wait from_str get_job get_job_result has_bus inspectable enqueue e first wakes with
  | Ok c =>
      enqueue = Ok tt ∧
      ∃ s event, (Wake.Tick s ∈ reads ∧ event = None ∨
                  (∃ ev, Wake.Event (Some ev) s ∈ reads ∧ event = Some ev ∧ je_job_id ev = e_id e)) ∧
                 grounded (e_id e) event s c
  | Err (WaitError.Enqueue err) => enqueue = Err err
  | Err (WaitError.Timeout id) =>
      id = e_id e ∧ enqueue = Ok tt ∧
      ∀ s row, Wake.Tick s ∈ reads → get_job (e_id e) s = Ok (Some row) →
               is_terminal_state (js_state row) = false
  | Err (WaitError.Store err) => enqueue = Ok tt ∧ wait_loop (e_id e) reads = Err (WaitError.Store err)
  | Err (WaitError.Unsupported _) =>
      has_bus = false ∨ inspectable = false ∨ ∃ s, Wake.Event None s ∈ reads
  end.
Proof.
  unfold enqueue_and_wait. destruct has_bus; [|by left]. destruct inspectable; [|by right; left].
  simpl. destruct enqueue as [[]|err]; [|done].
  destruct (wait_loop _ _) as [c|[err|err|m|id]] eqn:Hw.
  - split; [done|]. by apply wait_loop_grounded.
  - destruct (wait_loop_errs _ _ _ Hw) as [?|[[? ?]|(? & ? & ? & ?)]]; done.
  - done.
  - destruct (wait_loop_errs _ _ _ Hw) as [?|[[? ?]|(? & s & ? & ?)]]; [done..|]. right. right. by exists s.
  - destruct (wait_loop_errs _ _ _ Hw) as [[= ->]|[[? ?]|(? & ? & ? & ?)]]; [|done..].
    split; [done|]. split; [done|]. intros s row. by apply wait_loop_timeout.
Qed.
End completions.
