(* ===== verification/Sqlite.v ===== *)
(** * headgate-sqlite: the embedded store

    Models [crates/headgate-sqlite/src/lib.rs], the SQLite adapter of the [Store] and
    [Transactional] ports.  A table is a finite map from its primary key to a row; a statement
    is the function its SQL text denotes on the tables, with [ORDER BY] as a sort on the stated
    columns and [LIMIT] as a prefix.  Every operation runs in one immediate transaction behind
    the adapter's mutex, so it is a function from the database to the database it commits and a
    result; an operation that is not committed returns the database it began with.  Columns
    that hold JSON hold the value ([Shared.json]) the text denotes.  Integer expressions of SQL
    are exact; those of Rust have their width.  Failures of SQLite itself (busy, disk) are
    outside the model, constraint violations are not: the text of their message is the
    parameter [constraint_failed].  Readings of the clock are arguments. *)

From S2P Require Import Prelude Shared Lifecycle Envelope MemStore Core Coordinator Scheduler Attempt Worker Pool.
Local Open Scope Z_scope.

Definition i64_saturating (z : Z) : Z := Z.max i64_min (Z.min i64_max z).

(** ** Tables *)

(** A row of [headgate_job].  [row_env] are the envelope's own columns, as [scan_job] reads
    them; the columns of a result, an output and a progress report are written together. *)
Record Row := mkRow {
  row_env : Envelope;
  row_state : string;
  row_lease_id : option string;
  row_fence : Z;
  row_lease_expires : option Z;
  row_claimed_at : option Z;
  row_claimed_by : option string;
  row_checkpoint : option json;
  row_cursor : option bytes;
  row_result : option JobResult;
  row_output : option JobOutput;
  row_progress : option JobProgress;
  row_errors : list json;
  row_unique_key : option bytes;
  row_unique_states : Z;
  row_unique_window : Z;
  row_unique_expires : option Z;
  row_rate_charge : Z;
  row_enqueued_at : Z;
  row_finalized_at : option Z;
}.

#[export] Instance row_eta : Eta Row := λ r,
  mkRow (row_env r) (row_state r) (row_lease_id r) (row_fence r) (row_lease_expires r)
    (row_claimed_at r) (row_claimed_by r) (row_checkpoint r) (row_cursor r) (row_result r)
    (row_output r) (row_progress r) (row_errors r) (row_unique_key r) (row_unique_states r)
    (row_unique_window r) (row_unique_expires r) (row_rate_charge r) (row_enqueued_at r)
    (row_finalized_at r).

Record QueueState := mkQueueState {
  qs_weight : Z;
  qs_paused : bool;
  qs_dispatch : Z;
  qs_memory : option Z;
}.

#[export] Instance queue_state_eta : Eta QueueState := λ q,
  mkQueueState (qs_weight q) (qs_paused q) (qs_dispatch q) (qs_memory q).

Definition default_queue_state : QueueState := mkQueueState 1 false 0 None.

Record Bucket := mkBucket {
  bk_tokens : Z;
  bk_burst : Z;
  bk_limit : Z;
  bk_window : Z;
  bk_refilled : Z;
  bk_paused : bool;
}.

#[export] Instance bucket_eta : Eta Bucket := λ b,
  mkBucket (bk_tokens b) (bk_burst b) (bk_limit b) (bk_window b) (bk_refilled b) (bk_paused b).

Record Limit := mkLimit { li_queue : string; li_max : Z; li_on_saturated : string }.

Record WorkerRow := mkWorkerRow { wr_meta : WorkerMeta; wr_heartbeat_at : Z; wr_command : option string }.

Record Operation := mkOperation {
  op_action : string;
  op_selector : json;
  op_status : string;
  op_affected : Z;
  op_dry_run : bool;
  op_created_at : Z;
}.

#[export] Instance operation_eta : Eta Operation := λ o,
  mkOperation (op_action o) (op_selector o) (op_status o) (op_affected o) (op_dry_run o)
    (op_created_at o).

Record Db := mkDb {
  sq_job : gmap string Row;
  sq_quarantine : gmap string (Z * Z);
  sq_policy : gmap string (option Z);
  sq_duty : gmap string (string * Z);
  sq_effect : gmap string Z;
  sq_queue : gmap string QueueState;
  sq_bucket : gmap string Bucket;
  sq_limit : gmap string Limit;
  sq_counter : gmap (string * Z) (Z * Z);
  sq_schedule : gmap string Schedule;
  sq_schedule_event : list ScheduleEvent;
  sq_schedule_seq : Z;
  sq_worker : gmap string WorkerRow;
  sq_operation : gmap string Operation;
  sq_durable : list DurableEvent;
  sq_durable_seq : Z;
}.

#[export] Instance db_eta : Eta Db := λ d,
  mkDb (sq_job d) (sq_quarantine d) (sq_policy d) (sq_duty d) (sq_effect d) (sq_queue d)
    (sq_bucket d) (sq_limit d) (sq_counter d) (sq_schedule d) (sq_schedule_event d)
    (sq_schedule_seq d) (sq_worker d) (sq_operation d) (sq_durable d) (sq_durable_seq d).

Definition empty_db : Db := mkDb ∅ ∅ ∅ ∅ ∅ ∅ ∅ ∅ ∅ ∅ [] 0 ∅ ∅ [] 0.

Record SqliteOptions := mkSqliteOptions {
  so_busy_timeout : duration;
  so_crash_limit : Z;
  so_retry_base : duration;
  so_retry_cap : duration;
}.

Definition default_options : SqliteOptions :=
  mkSqliteOptions 5000000000 3 1000000000 86400000000000.

Definition validate_options (o : SqliteOptions) : result unit StoreError.StoreError :=
  if so_crash_limit o =? 0 then Err (StoreError.Invalid "SQLite crash_limit must be >= 1")
  else if (as_millis (so_retry_base o) =? 0) || (so_retry_cap o <? so_retry_base o)
  then Err (StoreError.Invalid "SQLite retry durations must be >= 1ms and cap >= base")
  else Ok tt.

(** ** Statements on one job *)

(** [UPDATE headgate_job SET .. WHERE id=? AND ..]: [None] when no row changed. *)
Definition update_job (id : string) (p : Row → bool) (f : Row → Row) (d : Db) : option Db :=
  match sq_job d !! id with
  | Some r => if p r then Some (d <| sq_job := <[id := f r]> (sq_job d) |>) else None
  | None => None
  end.

(** [DELETE FROM headgate_job WHERE id=? AND ..]. *)
Definition delete_row (id : string) (p : Row → bool) (d : Db) : option Db :=
  match sq_job d !! id with
  | Some r => if p r then Some (d <| sq_job := delete id (sq_job d) |>) else None
  | None => None
  end.

Definition state_in (states : list string) (r : Row) : bool :=
  existsb (String.eqb (row_state r)) states.

(** [state='running' AND lease_id=? AND fence=?]. *)
Definition leased (l : LeaseRef) (r : Row) : bool :=
  String.eqb (row_state r) "running" && bool_decide (row_lease_id r = Some (lr_lease_id l))
  && (row_fence r =? wrap_i64 (lr_fence l)).

(** [lease_id=NULL,lease_expires_at_ms=NULL,claimed_at_ms=NULL,claimed_by=NULL]. *)
Definition unlease (r : Row) : Row :=
  r <| row_lease_id := None |> <| row_lease_expires := None |> <| row_claimed_at := None |>
    <| row_claimed_by := None |>.

(** [scan_job]: the 32-bit columns are narrowed, the uniqueness columns are not read. *)
Definition scan_env (r : Row) : Envelope :=
  let e := row_env r in
  e <| e_schema_version := wrap_u32 (e_schema_version e) |>
    <| e_weight := wrap_u32 (e_weight e) |>
    <| e_attempt := wrap_u32 (e_attempt e) |>
    <| e_crash_attempt := wrap_u32 (e_crash_attempt e) |>
    <| e_max_attempts := wrap_u32 (e_max_attempts e) |>.

Definition scan_checkpoint (r : Row) : Checkpoint :=
  decode_checkpoint_value (row_checkpoint r) (row_cursor r).

Definition retry_delay (o : SqliteOptions) (attempt : Z) : Z :=
  let shift := Z.min (u32_saturating_sub attempt 1) 20 in
  let base := if as_millis (so_retry_base o) <=? i64_max then as_millis (so_retry_base o) else i64_max in
  let cap := if as_millis (so_retry_cap o) <=? i64_max then as_millis (so_retry_cap o) else i64_max in
  Z.min (i64_saturating (base * Z.shiftl 1 shift)) cap.

Definition reconcile_actual_weight (rate_charge : Z) (rate_class : string) (actual now : Z) (d : Db) : Db :=
  if rate_charge =? 0 then d
  else
    d <| sq_bucket := alter (λ b,
           b <| bk_tokens :=
                  Z.min (bk_burst b)
                    (Z.min (bk_burst b)
                       (bk_tokens b + Z.quot (Z.max 0 (now - bk_refilled b) * bk_limit b) (bk_window b))
                     + rate_charge - actual) |>
             <| bk_refilled := now |>) rate_class (sq_bucket d) |>.

(** The error history keeps its last fifty entries. *)
Definition history_entry (at_ms attempt crash_attempt : Z) (outcome : string) (error : option string)
    (logs : list string) : json :=
  let o := btree_insert "at_ms" (JInt at_ms) [] in
  let o := btree_insert "outcome" (JString outcome) o in
  let o := btree_insert "attempt" (JInt attempt) o in
  let o := insert_when (0 <? crash_attempt) "crash_attempt" (JInt crash_attempt) o in
  let o := match error with
           | Some e => insert_when (negb (String.eqb e "")) "error" (JString e) o
           | None => o
           end in
  JObject (insert_when (negb (bool_decide (logs = []))) "logs" (JArray (JString <$> logs)) o).

Definition append_attempt (history : list json) (at_ms attempt crash_attempt : Z) (outcome : string)
    (error : option string) (logs : list string) : list json :=
  (if (50 <=? length history)%nat then drop (length history - 49) history else history)
  ++ [history_entry at_ms attempt crash_attempt outcome error logs].

(** [INSERT INTO headgate_queue_counter .. ON CONFLICT DO UPDATE]. *)
Definition bump_counter (queue : string) (now arrived completed : Z) (d : Db) : Db :=
  let k := (queue, Z.quot now 60000 * 60000) in
  d <| sq_counter :=
         <[k := match sq_counter d !! k with
                | Some (a, c) => (a + arrived, c + completed)
                | None => (arrived, completed)
                end]> (sq_counter d) |>.

(** ** enqueue *)

(** A version column is null or positive. *)
Definition result_checks (v : option JobResult) : bool :=
  match v with Some v => 0 <? r_schema_version v | None => true end.
Definition output_checks (v : option JobOutput) : bool :=
  match v with Some v => 0 <? o_schema_version v | None => true end.

(** The [CHECK] clauses of [headgate_job] on columns the adapter writes from its arguments. *)
Definition row_checks (r : Row) : bool :=
  let e := row_env r in
  (1 <=? e_schema_version e) && (e_schema_version e <=? 2147483647)
  && (0 <? e_weight e) && (0 <=? e_attempt e) && (0 <=? e_crash_attempt e)
  && (0 <? e_max_attempts e) && (0 <=? e_timeout_ms e) && (0 <=? e_deadline_ms e)
  && (0 <=? e_retention_ms e) && (0 <=? row_unique_states r) && (0 <=? row_unique_window r)
  && (0 <=? e_periodic_tick_ms e) && result_checks (row_result r) && output_checks (row_output r).

Definition LIFECYCLE_STATES : list string := ["scheduled"; "available"; "running"; "retryable"].
Definition UNFINISHED_STATES : list string :=
  ["pending"; "scheduled"; "available"; "running"; "retryable"].

(** The holder of a unique key: a row inside its window, or a live row of a lifecycle key. *)
Definition holds_key (key : bytes) (now : Z) (r : Row) : bool :=
  bool_decide (row_unique_key r = Some key)
  && (((0 <? row_unique_window r)
       && match row_unique_expires r with Some t => now <? t | None => false end)
      || ((row_unique_window r =? 0) && state_in LIFECYCLE_STATES r)).

Section sqlite.
Context (constraint_failed : string).

(** [SELECT .. LIMIT 1] without an order: [ord] is the order in which SQLite visits ids. *)
Definition unique_row (ord : list string) (key : bytes) (now : Z) (d : Db) : option string :=
  List.find (λ id, match sq_job d !! id with Some r => holds_key key now r | None => false end) ord.

Definition debounce_holder (now' : Z) (e : Envelope) (r : Row) : Row :=
  r <| row_env := (row_env r)
         <| e_schema_version := effective_schema_version (e_schema_version e) |>
         <| e_payload := e_payload e |>
         <| e_fingerprint := e_fingerprint e |>
         <| e_tags := canonical_tags (e_tags e) |>
         <| e_scheduled_at_ms := now' + e_unique_debounce_ms e |> |>
    <| row_state := "scheduled" |>.

Definition replace_row (now' : Z) (e : Envelope) (r : Row) : Row :=
  let mask := e_unique_replace e in
  let env := row_env r in
  let payload := has_bit mask UNIQUE_REPLACE_PAYLOAD in
  r <| row_env := env
         <| e_schema_version := if payload then effective_schema_version (e_schema_version e)
                                else e_schema_version env |>
         <| e_payload := if payload then e_payload e else e_payload env |>
         <| e_fingerprint := if payload then e_fingerprint e else e_fingerprint env |>
         <| e_scheduled_at_ms :=
              if has_bit mask UNIQUE_REPLACE_SCHEDULED_AT && String.eqb (row_state r) "scheduled"
              then (if e_scheduled_at_ms e =? 0 then now' else e_scheduled_at_ms e)
              else e_scheduled_at_ms env |>
         <| e_priority := if has_bit mask UNIQUE_REPLACE_PRIORITY then e_priority e else e_priority env |>
         <| e_max_attempts := if has_bit mask UNIQUE_REPLACE_MAX_ATTEMPTS
                              then effective_max_attempts (e_max_attempts e)
                              else e_max_attempts env |> |>.

(** A held key: the holder may be rewritten, and the enqueue fails as a duplicate.  A rewrite
    that violates a [CHECK] fails the statement. *)
Definition rewrite_holder (states : list string) (f : Row → Row) (existing_id : string) (d : Db)
    : Db * StoreError.StoreError :=
  match sq_job d !! existing_id with
  | Some r =>
      if state_in states r then
        if row_checks (f r)
        then (d <| sq_job := <[existing_id := f r]> (sq_job d) |>, StoreError.Duplicate existing_id true)
        else (d, StoreError.Backend constraint_failed)
      else (d, StoreError.Duplicate existing_id false)
  | None => (d, StoreError.Duplicate existing_id false)
  end.

Definition duplicate_row (now' : Z) (e : Envelope) (existing_id : string) (d : Db)
    : Db * StoreError.StoreError :=
  if 0 <? e_unique_debounce_ms e then
    rewrite_holder ["pending"; "scheduled"; "available"; "retryable"] (debounce_holder now' e) existing_id d
  else if negb (e_unique_replace e =? 0) then
    rewrite_holder ["scheduled"; "available"; "retryable"] (replace_row now' e) existing_id d
  else (d, StoreError.Duplicate existing_id false).

(** The first loop of [enqueue_on]: replays are skipped, and the first envelope that conflicts,
    is quarantined or finds its key held ends it.  [batch_unique] are the keys of this batch. *)
Fixpoint check_batch (ord : list string) (now now' : Z) (batch : list Envelope)
    (batch_unique : gmap bytes string) (pending : list (Envelope * option bytes)) (d : Db)
    : Db * result (list (Envelope * option bytes)) StoreError.StoreError :=
  match batch with
  | [] => (d, Ok pending)
  | e :: batch =>
      match sq_job d !! e_id e with
      | Some r =>
          if same_job_content e (e_kind (row_env r)) (e_fingerprint (row_env r)) (e_queue (row_env r))
          then check_batch ord now now' batch batch_unique pending d
          else (d, Err (StoreError.IdConflict (e_id e)))
      | None =>
          if negb (String.eqb (e_fingerprint e) "")
             && bool_decide (is_Some (sq_quarantine d !! e_fingerprint e))
          then (d, Err (StoreError.Quarantined (e_fingerprint e)))
          else
            let key := effective_unique_key e in
            match (if (0 <? e_unique_window_ms e) || negb (e_pending e) then key else None) with
            | Some k =>
                match batch_unique !! k with
                | Some existing_id => (d, Err (StoreError.Duplicate existing_id false))
                | None =>
                    match unique_row ord k now d with
                    | Some existing_id =>
                        let '(d, err) := duplicate_row now' e existing_id d in (d, Err err)
                    | None =>
                        check_batch ord now now' batch (<[k := e_id e]> batch_unique)
                          (pending ++ [(e, key)]) d
                    end
                end
            | None => check_batch ord now now' batch batch_unique (pending ++ [(e, key)]) d
            end
      end
  end.

(** How many jobs of the batch go to each queue, in queue order. *)
Definition demand (pending : list (Envelope * option bytes)) : list (string * Z) :=
  foldl (λ m p, let q := enqueue_queue p.1 in
                btree_insert q (u64_add (default 0 (btree_get q m)) 1) m) [] pending.

Definition count_jobs (p : Row → bool) (d : Db) : Z :=
  Z.of_nat (length (List.filter p (map_to_list (sq_job d)).*2)).

Definition unfinished (queue : string) (d : Db) : Z :=
  count_jobs (λ r, String.eqb (e_queue (row_env r)) queue && state_in UNFINISHED_STATES r) d.

Fixpoint backpressure (demand : list (string * Z)) (d : Db) : result unit StoreError.StoreError :=
  match demand with
  | [] => Ok tt
  | (queue, incoming) :: demand =>
      match mjoin (sq_policy d !! queue) with
      | Some limit =>
          if wrap_u64 limit <? u64_add (wrap_u64 (unfinished queue d)) incoming
          then Err (StoreError.Backpressure queue (wrap_u64 limit) (wrap_u64 (unfinished queue d)) incoming)
          else backpressure demand d
      | None => backpressure demand d
      end
  end.

(** The row an envelope becomes. *)
Definition new_row (now : Z) (e : Envelope) (key : option bytes) : Row :=
  let scheduled_at :=
    if 0 <? e_unique_debounce_ms e then i64_add now (e_unique_debounce_ms e)
    else if e_scheduled_at_ms e =? 0 then now else e_scheduled_at_ms e in
  let state :=
    if e_pending e then "pending" else if now <? scheduled_at then "scheduled" else "available" in
  let env := e <| e_schema_version := effective_schema_version (e_schema_version e) |>
               <| e_queue := enqueue_queue e |>
               <| e_weight := effective_weight (e_weight e) |>
               <| e_max_attempts := effective_max_attempts (e_max_attempts e) |>
               <| e_scheduled_at_ms := scheduled_at |>
               <| e_tags := canonical_tags (e_tags e) |>
               <| e_unique_key := None |> <| e_unique_states := 0 |> <| e_unique_window_ms := 0 |>
               <| e_unique_replace := 0 |> <| e_unique_debounce_ms := 0 |>
               <| e_unique_exclude_kind := false |> <| e_pending := false |> in
  mkRow env state None 0 None None None None None None None None [] key
    (e_unique_states e) (e_unique_window_ms e)
    (match key with
     | Some _ => if 0 <? e_unique_window_ms e then Some (i64_add now (e_unique_window_ms e)) else None
     | None => None
     end)
    0 now None.

(** [INSERT]: a taken primary key or a violated [CHECK] fails the statement. *)
Definition insert_row (r : Row) (d : Db) : result Db StoreError.StoreError :=
  if row_checks r && bool_decide (sq_job d !! e_id (row_env r) = None)
  then Ok (d <| sq_job := <[e_id (row_env r) := r]> (sq_job d) |>)
  else Err (StoreError.Backend constraint_failed).

(** A statement that fails keeps what the earlier ones of the transaction wrote. *)
Fixpoint insert_rows (now : Z) (pending : list (Envelope * option bytes)) (d : Db)
    : Db * result unit StoreError.StoreError :=
  match pending with
  | [] => (d, Ok tt)
  | (e, key) :: pending =>
      match insert_row (new_row now e key) d with
      | Ok d => insert_rows now pending d
      | Err err => (d, Err err)
      end
  end.

Definition enqueue_on (ord : list string) (now now' : Z) (batch : list Envelope) (d : Db)
    : Db * result unit StoreError.StoreError :=
  match check_batch ord now now' batch ∅ [] d with
  | (d, Err e) => (d, Err e)
  | (d, Ok pending) =>
      let demand := demand pending in
      match backpressure demand d with
      | Err e => (d, Err e)
      | Ok _ =>
          match insert_rows now pending d with
          | (d, Err e) => (d, Err e)
          | (d, Ok _) => (foldl (λ d qn, bump_counter qn.1 now qn.2 0 d) d demand, Ok tt)
          end
      end
  end.

(** [SqliteStore::enqueue]: the transaction commits on success and when a holder was
    replaced. *)
Definition sqlite_enqueue (ord : list string) (now now' : Z) (batch : list Envelope) (d : Db)
    : Db * result unit StoreError.StoreError :=
  if bool_decide (batch = []) then (d, Ok tt)
  else
    match validate_enqueue batch with
    | Err e => (d, Err e)
    | Ok _ =>
        let '(d', r) := enqueue_on ord now now' batch d in
        (match r with
         | Ok _ | Err (StoreError.Duplicate _ true) => d'
         | Err _ => d
         end, r)
    end.

(** Inside the caller's transaction nothing is undone on an error. *)
Definition enqueue_tx (ord : list string) (now now' : Z) (batch : list Envelope) (d : Db)
    : Db * result unit StoreError.StoreError :=
  match validate_enqueue batch with
  | Err e => (d, Err e)
  | Ok _ => enqueue_on ord now now' batch d
  end.

(** ** Policies *)

Definition set_paused (queue : string) (paused : bool) (d : Db) : Db :=
  d <| sq_queue := <[queue := (default default_queue_state (sq_queue d !! queue)) <| qs_paused := paused |>]>
                     (sq_queue d) |>.

Definition set_queue_weight (queue : string) (weight : Z) (d : Db) : Db * result unit StoreError.StoreError :=
  if weight =? 0 then (d, Err (StoreError.Invalid "weight must be >= 1"))
  else
    let q := match sq_queue d !! queue with
             | Some q => q <| qs_dispatch := Z.quot (qs_dispatch q * weight) (qs_weight q) |>
                           <| qs_weight := weight |>
             | None => default_queue_state <| qs_weight := weight |>
             end in
    (d <| sq_queue := <[queue := q]> (sq_queue d) |>, Ok tt).

Definition upsert_rate_class (now : Z) (cfg : RateClassConfig) (d : Db)
    : Db * result unit StoreError.StoreError :=
  match validate_rate_class_config cfg with
  | Err e => (d, Err e)
  | Ok _ =>
      let tokens :=
        match sq_bucket d !! rcc_name cfg with
        | Some b => if rcc_paused cfg then 0 else Z.min (bk_tokens b) (rcc_burst cfg)
        | None => if rcc_paused cfg then 0 else rcc_burst cfg
        end in
      (d <| sq_bucket := <[rcc_name cfg := mkBucket tokens (rcc_burst cfg) (rcc_limit cfg)
                             (rcc_window_ms cfg) now (rcc_paused cfg)]> (sq_bucket d) |>, Ok tt)
  end.

(** The queue of a limit is unique: a second limit for it fails the statement. *)
Definition upsert_concurrency_limit (cfg : ConcurrencyLimitConfig) (d : Db)
    : Db * result unit StoreError.StoreError :=
  match validate_concurrency_limit cfg with
  | Err e => (d, Err e)
  | Ok max =>
      if existsb (λ nl, negb (String.eqb nl.1 (cl_name cfg)) && String.eqb (li_queue nl.2) (cl_queue cfg))
           (map_to_list (sq_limit d))
      then (d, Err (StoreError.Backend constraint_failed))
      else (d <| sq_limit := <[cl_name cfg := mkLimit (cl_queue cfg) max
                                 (SaturationStrategy.as_str (cl_on_saturated cfg))]> (sq_limit d) |>, Ok tt)
  end.

(** ** Admission *)

Record QueuePolicy := mkQueuePolicy { qp_weight : Z; qp_dispatch : Z }.

(** The candidates of one call, before they are ranked. *)
Definition admit_candidate (req : AdmitRequest) (d : Db) (r : Row) : bool :=
  String.eqb (row_state r) "available"
  && existsb (String.eqb (e_queue (row_env r))) (ar_queues req)
  && (String.eqb (e_sticky_worker (row_env r)) ""
      || String.eqb (e_sticky_worker (row_env r)) (ar_worker req))
  && negb (bool_decide (is_Some (sq_quarantine d !! e_fingerprint (row_env r)))).

(** [ORDER BY priority DESC,scheduled_at_ms,id]. *)
Definition row_le (a b : Row) : Prop :=
  let x := row_env a in
  let y := row_env b in
  e_priority y < e_priority x
  ∨ e_priority y = e_priority x
    ∧ (e_scheduled_at_ms x < e_scheduled_at_ms y
       ∨ e_scheduled_at_ms x = e_scheduled_at_ms y ∧ String.le (e_id x) (e_id y)).
#[export] Instance row_le_dec a b : Decision (row_le a b).
Proof. unfold row_le. apply _. Defined.

Definition same_partition (a b : Row) : bool :=
  String.eqb (e_queue (row_env a)) (e_queue (row_env b))
  && String.eqb (e_partition_key (row_env a)) (e_partition_key (row_env b)).

(** [ROW_NUMBER() OVER (PARTITION BY queue,partition_key ORDER BY ..)]: the ids are distinct,
    so the rows that come no later than [r] are those before it and [r] itself. *)
Definition row_number (cands : list Row) (r : Row) : Z :=
  Z.of_nat (length (List.filter (λ a, same_partition a r && bool_decide (row_le a r)) cands)).

(** [ORDER BY CAST((rn-1)/quantum AS INTEGER),rn,priority DESC,scheduled_at_ms,id]. *)
Definition window_le (quantum : Z) (a b : Z * Row) : Prop :=
  Z.quot (a.1 - 1) quantum < Z.quot (b.1 - 1) quantum
  ∨ Z.quot (a.1 - 1) quantum = Z.quot (b.1 - 1) quantum
    ∧ (a.1 < b.1 ∨ a.1 = b.1 ∧ row_le a.2 b.2).
#[export] Instance window_le_dec q a b : Decision (window_le q a b).
Proof. unfold window_le. apply _. Defined.

Definition candidates (req : AdmitRequest) (d : Db) : list Row :=
  let cands := List.filter (admit_candidate req d) (map_to_list (sq_job d)).*2 in
  let ranked := (λ r, (row_number cands r, r)) <$> cands in
  let ranked := List.filter (λ x, x.1 <=? ar_capacity req) ranked in
  let limit := i64_mul (i64_mul (ar_capacity req) (Z.of_nat (length (ar_queues req)))) 4 in
  (take (Z.to_nat limit) (merge_sort (window_le (ar_quantum req)) ranked)).*2.

Record AdmitState := mkAdmitState {
  as_db : Db;
  as_queues : gmap string (list Row);
  as_policies : gmap string QueuePolicy;
  as_buckets : gmap string Bucket;
  as_inflight : gmap (string * string) Z;
  as_claims : list Claim;
  as_decisions : Z;
}.

#[export] Instance admit_state_eta : Eta AdmitState := λ a,
  mkAdmitState (as_db a) (as_queues a) (as_policies a) (as_buckets a) (as_inflight a) (as_claims a)
    (as_decisions a).

(** Each requested queue gets its row; the policies of those that are not paused. *)
Fixpoint load_policies (queues : list string) (d : Db) (acc : gmap string QueuePolicy)
    : Db * gmap string QueuePolicy :=
  match queues with
  | [] => (d, acc)
  | queue :: queues =>
      let q := default default_queue_state (sq_queue d !! queue) in
      let d := d <| sq_queue := <[queue := q]> (sq_queue d) |> in
      load_policies queues d
        (if qs_paused q then acc else <[queue := mkQueuePolicy (qs_weight q) (qs_dispatch q)]> acc)
  end.

Definition refill_bucket (now : Z) (b : Bucket) : Bucket :=
  let elapsed := i64_saturating (now - bk_refilled b) in
  let b := if (0 <? elapsed) && (0 <? bk_limit b)
           then b <| bk_tokens := Z.min (bk_burst b)
                       (i64_saturating (bk_tokens b
                          + i64_div (i64_saturating (elapsed * bk_limit b)) (bk_window b))) |>
           else b in
  b <| bk_refilled := now |>.

Fixpoint load_limits (rows : list Limit) (acc : gmap string (Z * SaturationStrategy.SaturationStrategy))
    : result (gmap string (Z * SaturationStrategy.SaturationStrategy)) StoreError.StoreError :=
  match rows with
  | [] => Ok acc
  | l :: rows =>
      let? strategy := SaturationStrategy.try_from (li_on_saturated l) in
      load_limits rows (<[li_queue l := (li_max l, strategy)]> acc)
  end.

(** The candidates by queue, in their order; those of paused queues are dropped. *)
Definition by_queue (policies : gmap string QueuePolicy) (jobs : list Row) : gmap string (list Row) :=
  foldl (λ m r, let q := e_queue (row_env r) in
                if bool_decide (is_Some (policies !! q)) then <[q := default [] (m !! q) ++ [r]]> m else m)
    ∅ jobs.

(** The weighted turn: dispatches per weight, compared crosswise, then the name. *)
Definition turn_compare (policies : gmap string QueuePolicy) (a b : string) : comparison :=
  let ap := default (mkQueuePolicy 1 0) (policies !! a) in
  let bp := default (mkQueuePolicy 1 0) (policies !! b) in
  match (qp_dispatch ap * qp_weight bp ?= qp_dispatch bp * qp_weight ap) with
  | Eq => String.compare a b
  | c => c
  end.

Definition next_queue (a : AdmitState) : option string :=
  let names := sort_strings ((map_to_list (filter (λ x, x.2 ≠ []) (as_queues a))).*1) in
  match names with
  | [] => None
  | q :: names =>
      Some (foldl (λ best q, match turn_compare (as_policies a) best q with Gt => q | _ => best end)
              q names)
  end.

Definition running_in (queue part : string) (r : Row) : bool :=
  String.eqb (e_queue (row_env r)) queue && String.eqb (e_partition_key (row_env r)) part
  && String.eqb (row_state r) "running".

(** [ORDER BY claimed_at_ms,id]: NULL sorts first. *)
Definition victim_le (a b : Row) : Prop :=
  match row_claimed_at a, row_claimed_at b with
  | None, None => String.le (e_id (row_env a)) (e_id (row_env b))
  | None, Some _ => True
  | Some _, None => False
  | Some x, Some y => x < y ∨ x = y ∧ String.le (e_id (row_env a)) (e_id (row_env b))
  end.
#[export] Instance victim_le_dec a b : Decision (victim_le a b).
Proof. unfold victim_le. repeat case_match; apply _. Defined.

Definition victim (queue part : string) (d : Db) : option string :=
  (λ r, e_id (row_env r)) <$>
    head (merge_sort victim_le (List.filter (running_in queue part) (map_to_list (sq_job d)).*2)).

Definition cancel_victim (now : Z) (r : Row) : Row :=
  (unlease r) <| row_state := "cancelled" |> <| row_finalized_at := Some now |>
    <| row_fence := row_fence r + 1 |> <| row_rate_charge := 0 |>.

Definition bump_dispatch (queue : string) (a : AdmitState) : AdmitState :=
  a <| as_policies := alter (λ p, mkQueuePolicy (qp_weight p) (i64_add (qp_dispatch p) 1)) queue
                        (as_policies a) |>
    <| as_decisions := as_decisions a + 1 |>.

Definition lease_row (req : AdmitRequest) (now lease_ms charge : Z) (r : Row) : Row :=
  r <| row_state := "running" |> <| row_lease_id := Some (ar_lease_id req) |>
    <| row_fence := row_fence r + 1 |> <| row_lease_expires := Some (i64_add now lease_ms) |>
    <| row_claimed_at := Some now |> <| row_claimed_by := Some (ar_worker req) |>
    <| row_rate_charge := charge |>.

Definition is_available (r : Row) : bool := String.eqb (row_state r) "available".

(** The claiming statement and, when it changed the row, its bookkeeping.  [job] is the row as
    it was read; [limited] says whether its queue has a concurrency limit. *)
Definition claim_row (req : AdmitRequest) (now lease_ms : Z) (queue : string) (limited : bool)
    (job : Row) (a : AdmitState) : AdmitState :=
  let env := scan_env job in
  let weight := e_weight env in
  let configured := bool_decide (is_Some (as_buckets a !! e_rate_class env)) in
  let part := (queue, e_partition_key env) in
  match update_job (e_id env) is_available
          (lease_row req now lease_ms (if configured then weight else 0)) (as_db a) with
  | None => a
  | Some d =>
      let a := bump_dispatch queue (a <| as_db := d |>) in
      a <| as_buckets := alter (λ b, b <| bk_tokens := i64_sub (bk_tokens b) weight |>)
                           (e_rate_class env) (as_buckets a) |>
        <| as_inflight := if limited
                          then <[part := i64_add (default 0 (as_inflight a !! part)) 1]> (as_inflight a)
                          else as_inflight a |>
        <| as_claims := as_claims a ++
             [mkClaim env (ar_lease_id req) (u64_add (wrap_u64 (row_fence job)) 1)
                (i64_add now lease_ms) (scan_checkpoint job)] |>
  end.

(** A queue with a concurrency limit: what happens to [job] when its partition is full. *)
Definition saturated (req : AdmitRequest) (now lease_ms : Z) (queue : string)
    (max : Z) (strategy : SaturationStrategy.SaturationStrategy) (job : Row) (a : AdmitState)
    : AdmitState :=
  let env := scan_env job in
  let part := (queue, e_partition_key env) in
  let current := match as_inflight a !! part with
                 | Some n => n
                 | None => count_jobs (running_in queue (e_partition_key env)) (as_db a)
                 end in
  let a := a <| as_inflight := <[part := current]> (as_inflight a) |> in
  if negb (max <=? current) then claim_row req now lease_ms queue true job a
  else
    match strategy with
    | SaturationStrategy.Queue => a
    | SaturationStrategy.Discard | SaturationStrategy.CancelIncoming =>
        let state := match strategy with SaturationStrategy.Discard => "archived" | _ => "cancelled" end in
        let d := default (as_db a)
                   (update_job (e_id env) is_available
                      (λ r, r <| row_state := state |> <| row_finalized_at := Some now |>) (as_db a)) in
        bump_dispatch queue (a <| as_db := d |>)
    | SaturationStrategy.CancelRunning =>
        match victim queue (e_partition_key env) (as_db a) with
        | None => a
        | Some v =>
            let d := default (as_db a)
                       (update_job v (λ r, String.eqb (row_state r) "running") (cancel_victim now) (as_db a)) in
            claim_row req now lease_ms queue true job
              (a <| as_db := d |> <| as_inflight := <[part := i64_sub current 1]> (as_inflight a) |>)
        end
    end.

Definition rate_blocked (a : AdmitState) (env : Envelope) : bool :=
  match as_buckets a !! e_rate_class env with
  | Some b => bk_paused b || (bk_tokens b <? e_weight env)
  | None => false
  end.

(** One turn of the loop: the next queue's first candidate. *)
Definition admit_turn (req : AdmitRequest) (now lease_ms : Z)
    (limits : gmap string (Z * SaturationStrategy.SaturationStrategy)) (a : AdmitState)
    : option AdmitState :=
  queue ← next_queue a;
  match default [] (as_queues a !! queue) with
  | [] => None
  | job :: rest =>
      let a := a <| as_queues := <[queue := rest]> (as_queues a) |> in
      Some
        (if rate_blocked a (scan_env job) then a
         else match limits !! queue with
              | Some (max, strategy) => saturated req now lease_ms queue max strategy job a
              | None => claim_row req now lease_ms queue false job a
              end)
  end.

(** The loop.  A turn takes one candidate, so more fuel than candidates never runs out. *)
Fixpoint admit_turns (fuel : nat) (req : AdmitRequest) (now lease_ms : Z)
    (limits : gmap string (Z * SaturationStrategy.SaturationStrategy)) (a : AdmitState) : AdmitState :=
  match fuel with
  | O => a
  | S fuel =>
      if ar_capacity req <=? as_decisions a then a
      else match admit_turn req now lease_ms limits a with
           | Some a => admit_turns fuel req now lease_ms limits a
           | None => a
           end
  end.

(** [state='available' AND deadline_ms>0 AND deadline_ms<=now]. *)
Definition past_deadline (now : Z) (r : Row) : bool :=
  is_available r && (0 <? e_deadline_ms (row_env r)) && (e_deadline_ms (row_env r) <=? now).

Definition cancel_expired (now : Z) (d : Db) : Db :=
  d <| sq_job := (λ r, if past_deadline now r
                       then r <| row_state := "cancelled" |> <| row_finalized_at := Some now |>
                       else r) <$> sq_job d |>.

(** What the call writes back. *)
Definition store_policies (a : AdmitState) (d : Db) : Db :=
  d <| sq_queue := map_imap (λ queue q, Some match as_policies a !! queue with
                                             | Some p => q <| qs_dispatch := qp_dispatch p |>
                                             | None => q
                                             end) (sq_queue d) |>
    <| sq_bucket := map_imap (λ name b, Some match as_buckets a !! name with
                                             | Some b' => b <| bk_tokens := bk_tokens b' |>
                                                            <| bk_refilled := bk_refilled b' |>
                                             | None => b
                                             end) (sq_bucket d) |>.

Definition sqlite_admit (now : Z) (req : AdmitRequest) (d : Db)
    : Db * result (list AdmissionUnit) StoreError.StoreError :=
  match normalize_admit_request req with
  | Err e => (d, Err e)
  | Ok (req, lease_ms) =>
      if bool_decide (ar_queues req = []) || (ar_capacity req =? 0) then (d, Ok [])
      else
        let req := req <| ar_quantum := Z.max (ar_quantum req) 1 |> in
        let '(d1, policies) := load_policies (ar_queues req) (cancel_expired now d) ∅ in
        if bool_decide (policies = ∅) then (d1, Ok [])
        else
          match load_limits (map_to_list (sq_limit d1)).*2 ∅ with
          | Err e => (d, Err e)
          | Ok limits =>
              let jobs := candidates req d1 in
              let a := admit_turns (S (length jobs)) req now lease_ms limits
                         (mkAdmitState d1 (by_queue policies jobs) policies
                            (refill_bucket now <$> sq_bucket d1) ∅ [] 0) in
              (store_policies a (as_db a), Ok (group_admission_claims (as_claims a) 1))
          end
  end.

(** ** ack *)

(** What an outcome makes of the job: [None] deletes it; otherwise its state, attempt, schedule
    and finalisation, and whether the attempt is recorded. *)
Record Settled := mkSettled {
  st_state : string;
  st_attempt : Z;
  st_scheduled_at : Z;
  st_finalized : option Z;
  st_record : bool;
}.

Definition settle_row (o : SqliteOptions) (now : Z) (outcome : Outcome.Outcome) (err : option string)
    (delay_ms : option Z) (logs : list string) (env : Envelope) : option Settled :=
  let keep := mkSettled "" (e_attempt env) (e_scheduled_at_ms env) None false in
  match outcome with
  | Outcome.Success =>
      if e_retention_ms env =? 0 then None
      else Some (mkSettled "completed" (e_attempt env) (e_scheduled_at_ms env) (Some now)
                   (negb (bool_decide (logs = []))))
  | Outcome.Retry =>
      let attempt := u32_add (e_attempt env) 1 in
      if attempt <? e_max_attempts env then
        let delay := match delay_ms with
                     | Some v => if 0 <? v then v else retry_delay o attempt
                     | None => retry_delay o attempt
                     end in
        Some (mkSettled "retryable" attempt (i64_add now delay) None true)
      else Some (mkSettled "archived" attempt (e_scheduled_at_ms env) (Some now) true)
  | Outcome.Skip =>
      Some (mkSettled "archived" (e_attempt env) (e_scheduled_at_ms env) (Some now)
              (bool_decide (is_Some err) || negb (bool_decide (logs = []))))
  | Outcome.Revoke => None
  | Outcome.Snooze =>
      Some (mkSettled "scheduled" (e_attempt env) (i64_add now (default 0 delay_ms)) None false)
  | Outcome.Undecodable =>
      Some (mkSettled "undecodable" (e_attempt env) (e_scheduled_at_ms env) (Some now) true)
  | Outcome.RateLimited =>
      Some (mkSettled "available" (e_attempt env) (e_scheduled_at_ms env) None false)
  | Outcome.LeaseLost => Some keep
  end.

Definition settle_update (now : Z) (outcome : Outcome.Outcome) (err : option string)
    (logs : list string) (actual_weight : option Z) (s : Settled) (r : Row) : Row :=
  (unlease r)
    <| row_state := st_state s |>
    <| row_env := (row_env r) <| e_attempt := st_attempt s |>
                              <| e_scheduled_at_ms := st_scheduled_at s |> |>
    <| row_finalized_at := st_finalized s |>
    <| row_errors := if st_record s
                     then append_attempt (row_errors r) now (st_attempt s) 0 (outcome_as_str outcome) err logs
                     else row_errors r |>
    <| row_rate_charge := match actual_weight with Some _ => 0 | None => row_rate_charge r end |>.

Definition counts_completed (outcome : Outcome.Outcome) : bool :=
  match outcome with
  | Outcome.Success | Outcome.Skip | Outcome.Revoke | Outcome.Undecodable => true
  | _ => false
  end.

(** [SELECT .. WHERE id=? AND state='running' AND lease_id=? AND fence=?]. *)
Definition select_leased (l : LeaseRef) (d : Db) : option Row :=
  match sq_job d !! lr_job_id l with
  | Some r => if leased l r then Some r else None
  | None => None
  end.

Definition sqlite_ack (o : SqliteOptions) (now : Z) (l : LeaseRef) (outcome : Outcome.Outcome)
    (err : option string) (delay_ms : option Z) (logs : list string) (actual_weight : option Z) (d : Db)
    : Db * result unit StoreError.StoreError :=
  match validate_ack_request outcome delay_ms with
  | Err e => (d, Err e)
  | Ok _ =>
      match select_leased l d with
      | None => (d, Err (StoreError.LeaseRejected (lr_job_id l)))
      | Some job =>
          let env := scan_env job in
          let d1 := match actual_weight with
                    | Some actual =>
                        reconcile_actual_weight (row_rate_charge job) (e_rate_class env) actual now d
                    | None => d
                    end in
          let changed :=
            match settle_row o now outcome err delay_ms logs env with
            | None => delete_row (lr_job_id l) (leased l) d1
            | Some s =>
                update_job (lr_job_id l) (leased l)
                  (settle_update now outcome err logs actual_weight s) d1
            end in
          match changed with
          | None => (d, Err (StoreError.LeaseRejected (lr_job_id l)))
          | Some d2 =>
              (if counts_completed outcome then bump_counter (e_queue env) now 0 1 d2 else d2, Ok tt)
          end
      end
  end.

Definition complete_row (now : Z) (actual_weight : option Z) (r : Row) : Row :=
  (unlease r) <| row_state := "completed" |> <| row_finalized_at := Some now |>
    <| row_rate_charge := match actual_weight with Some _ => 0 | None => row_rate_charge r end |>.

(** Completion with a recorded result; [finish] is the update of a row that is kept. *)
Definition complete_leased (now : Z) (l : LeaseRef) (actual_weight : option Z) (finish : Row → Row) (d : Db)
    : Db * result unit StoreError.StoreError :=
  match select_leased l d with
  | None => (d, Err (StoreError.LeaseRejected (lr_job_id l)))
  | Some job =>
      let env := scan_env job in
      let d1 := match actual_weight with
                | Some actual =>
                    reconcile_actual_weight (row_rate_charge job) (e_rate_class env) actual now d
                | None => d
                end in
      match (if e_retention_ms env =? 0 then delete_row (lr_job_id l) (leased l) d1
             else update_job (lr_job_id l) (leased l) finish d1) with
      | None => (d, Err (StoreError.LeaseRejected (lr_job_id l)))
      | Some d2 => (bump_counter (e_queue env) now 0 1 d2, Ok tt)
      end
  end.

Definition sqlite_ack_with_result (now : Z) (l : LeaseRef) (logs : list string)
    (actual_weight : option Z) (res : JobResult) (d : Db) : Db * result unit StoreError.StoreError :=
  match validate_opaque_value "result" res with
  | Err e => (d, Err e)
  | Ok _ =>
      complete_leased now l actual_weight (λ r,
        (complete_row now actual_weight r)
          <| row_result := Some res |>
          <| row_errors := if bool_decide (logs = []) then row_errors r
                           else append_attempt (row_errors r) now (e_attempt (scan_env r)) 0
                                  (outcome_as_str Outcome.Success) None logs |>) d
  end.

(** [complete_tx_with_actual_weight]; [now'] is the clock of the update. *)
Definition complete_tx (now now' : Z) (l : LeaseRef) (actual_weight : option Z) (d : Db)
    : Db * result unit StoreError.StoreError :=
  complete_leased now l actual_weight (complete_row now' actual_weight) d.

(** ** The other operations *)

Fixpoint renew_rows (expires : Z) (leases : list LeaseRef) (d : Db) (lost : list string)
    : Db * list string :=
  match leases with
  | [] => (d, lost)
  | l :: leases =>
      match update_job (lr_job_id l) (leased l) (λ r, r <| row_lease_expires := Some expires |>) d with
      | Some d => renew_rows expires leases d lost
      | None => renew_rows expires leases d (lost ++ [lr_job_id l])
      end
  end.

Definition sqlite_renew (now : Z) (leases : list LeaseRef) (lease : duration) (d : Db)
    : Db * result (list string) StoreError.StoreError :=
  match duration_millis lease with
  | None => (d, Err (StoreError.Invalid "lease must be >= 1ms"))
  | Some ms => let '(d, lost) := renew_rows (i64_add now ms) leases d [] in (d, Ok lost)
  end.

Definition save_checkpoint (cp : Checkpoint) (r : Row) : Row :=
  r <| row_checkpoint := Some (encode_checkpoint_value cp) |> <| row_cursor := cursor cp |>.

(** [checkpoint] and [checkpoint_tx]. *)
Definition sqlite_checkpoint (l : LeaseRef) (cp : Checkpoint) (d : Db)
    : Db * result unit StoreError.StoreError :=
  match update_job (lr_job_id l) (leased l) (save_checkpoint cp) d with
  | Some d => (d, Ok tt)
  | None => (d, Err (StoreError.LeaseRejected (lr_job_id l)))
  end.

(** [state='running' AND lease_expires_at_ms<=now]: false on NULL. *)
Definition lease_expired (now : Z) (r : Row) : bool :=
  String.eqb (row_state r) "running"
  && match row_lease_expires r with Some t => t <=? now | None => false end.

(** [ORDER BY lease_expires_at_ms,id]. *)
Definition expiry_le (a b : Row) : Prop :=
  let x := default 0 (row_lease_expires a) in
  let y := default 0 (row_lease_expires b) in
  x < y ∨ x = y ∧ String.le (e_id (row_env a)) (e_id (row_env b)).
#[export] Instance expiry_le_dec a b : Decision (expiry_le a b).
Proof. unfold expiry_le. apply _. Defined.

Definition crash_row (o : SqliteOptions) (now : Z) (r : Row) : Row * bool :=
  let env := scan_env r in
  let crash := u32_add (e_crash_attempt env) 1 in
  let quarantined := so_crash_limit o <=? crash in
  ((unlease r)
     <| row_state := if quarantined then "quarantined" else "retryable" |>
     <| row_env := (row_env r) <| e_crash_attempt := crash |>
          <| e_scheduled_at_ms := if quarantined then e_scheduled_at_ms env
                                  else i64_add now (retry_delay o crash) |> |>
     <| row_finalized_at := if quarantined then Some now else None |>
     <| row_errors := append_attempt (row_errors r) now (e_attempt env) crash "lease_lost"
                        (Some "lease expired without ack") [] |>
     <| row_checkpoint := Some (encode_checkpoint_value (attribute_crash (scan_checkpoint r))) |>,
   quarantined).

Definition quarantine_row (fp : string) (crash now : Z) (d : Db) : Db :=
  d <| sq_quarantine := <[fp := match sq_quarantine d !! fp with
                                | Some (count, at_ms) => (Z.max count crash, at_ms)
                                | None => (crash, now)
                                end]> (sq_quarantine d) |>.

Definition reclaim_row (o : SqliteOptions) (now : Z) (job : Row) (d : Db) : Db * Reclaimed :=
  let env := scan_env job in
  let '(r', quarantined) := crash_row o now job in
  let crash := e_crash_attempt (row_env r') in
  let d := default d (update_job (e_id env) (λ r, String.eqb (row_state r) "running") (λ r, (crash_row o now r).1) d) in
  let d := if quarantined then quarantine_row (e_fingerprint env) crash now d else d in
  (d, mkReclaimed (e_id env) (e_fingerprint env) crash quarantined).

Fixpoint reclaim_rows (o : SqliteOptions) (now : Z) (victims : list Row) (d : Db) (out : list Reclaimed)
    : Db * list Reclaimed :=
  match victims with
  | [] => (d, out)
  | job :: victims =>
      let '(d, rec) := reclaim_row o now job d in reclaim_rows o now victims d (out ++ [rec])
  end.

Definition sqlite_reclaim (o : SqliteOptions) (now limit : Z) (d : Db)
    : Db * result (list Reclaimed) StoreError.StoreError :=
  if limit <=? 0 then (d, Ok [])
  else
    let victims := take (Z.to_nat limit)
      (merge_sort expiry_le (List.filter (lease_expired now) (map_to_list (sq_job d)).*2)) in
    let '(d, out) := reclaim_rows o now victims d [] in (d, Ok out).

(** [ORDER BY scheduled_at_ms,id] and [ORDER BY finalized_at_ms,id]. *)
Definition due_le (a b : Row) : Prop :=
  let x := e_scheduled_at_ms (row_env a) in
  let y := e_scheduled_at_ms (row_env b) in
  x < y ∨ x = y ∧ String.le (e_id (row_env a)) (e_id (row_env b)).
#[export] Instance due_le_dec a b : Decision (due_le a b).
Proof. unfold due_le. apply _. Defined.

Definition finalized_le (a b : Row) : Prop :=
  let x := default 0 (row_finalized_at a) in
  let y := default 0 (row_finalized_at b) in
  x < y ∨ x = y ∧ String.le (e_id (row_env a)) (e_id (row_env b)).
#[export] Instance finalized_le_dec a b : Decision (finalized_le a b).
Proof. unfold finalized_le. apply _. Defined.

Definition due_row (now : Z) (r : Row) : bool :=
  state_in ["scheduled"; "retryable"] r && (e_scheduled_at_ms (row_env r) <=? now).

Definition lapsed_row (now : Z) (r : Row) : bool :=
  state_in ["completed"; "archived"; "cancelled"; "undecodable"] r
  && (0 <? e_retention_ms (row_env r))
  && match row_finalized_at r with
     | Some t => t + e_retention_ms (row_env r) <=? now
     | None => false
     end.

Definition select_ids (p : Row → bool) (le : relation Row) `{∀ a b, Decision (le a b)} (limit : Z) (d : Db)
    : list string :=
  (λ r, e_id (row_env r)) <$>
    take (Z.to_nat limit) (merge_sort le (List.filter p (map_to_list (sq_job d)).*2)).

(** [UPDATE headgate_job SET state='available' WHERE id IN (..)]. *)
Definition alter_jobs (f : Row → Row) (ids : list string) (d : Db) : Db :=
  d <| sq_job := foldl (λ m id, alter f id m) (sq_job d) ids |>.

Definition sqlite_promote (now limit : Z) (d : Db) : Db * result Z StoreError.StoreError :=
  if limit <=? 0 then (d, Ok 0)
  else
    let ids := select_ids (due_row now) due_le limit d in
    (alter_jobs (λ r, r <| row_state := "available" |>) ids d, Ok (Z.of_nat (length ids))).

Definition sqlite_evict (now limit : Z) (d : Db) : Db * result Z StoreError.StoreError :=
  if limit <=? 0 then (d, Ok 0)
  else
    let ids := select_ids (lapsed_row now) finalized_le limit d in
    (d <| sq_job := foldl (λ m id, delete id m) (sq_job d) ids |>, Ok (Z.of_nat (length ids))).

Definition sqlite_claim_duty (now : Z) (name holder : string) (lease : duration) (d : Db)
    : Db * result bool StoreError.StoreError :=
  match duration_millis lease with
  | None => (d, Err (StoreError.Invalid "duty lease must be >= 1ms"))
  | Some ms =>
      let granted := match sq_duty d !! name with
                     | Some (h, expires) => (expires <? now) || String.eqb h holder
                     | None => true
                     end in
      (if granted then d <| sq_duty := <[name := (holder, now + ms)]> (sq_duty d) |> else d, Ok granted)
  end.

Definition sqlite_release_duty (name holder : string) (d : Db) : Db * result unit StoreError.StoreError :=
  (match sq_duty d !! name with
   | Some (h, _) => if String.eqb h holder then d <| sq_duty := <[name := (h, 0)]> (sq_duty d) |> else d
   | None => d
   end, Ok tt).

Definition sqlite_write_output (now : Z) (l : LeaseRef) (output : JobResult) (d : Db)
    : Db * result JobOutput StoreError.StoreError :=
  match validate_opaque_value "output" output with
  | Err e => (d, Err e)
  | Ok _ =>
      let written r := mkJobOutput (r_schema_version output) (r_bytes output) (wrap_u64 (row_fence r)) now in
      match update_job (lr_job_id l) (leased l) (λ r, r <| row_output := Some (written r) |>) d with
      | None => (d, Err (StoreError.LeaseRejected (lr_job_id l)))
      | Some d' =>
          match sq_job d !! lr_job_id l with
          | Some r => (d', Ok (written r))
          | None => (d', Err (StoreError.LeaseRejected (lr_job_id l)))
          end
      end
  end.

Definition sqlite_write_progress (now : Z) (l : LeaseRef) (update : ProgressUpdate) (d : Db)
    : Db * result JobProgress StoreError.StoreError :=
  match validate_progress update with
  | Err e => (d, Err e)
  | Ok _ =>
      let written r := mkJobProgress (pu_current update) (pu_total update) (pu_message update)
                         (wrap_u64 (row_fence r)) now in
      match update_job (lr_job_id l) (leased l) (λ r, r <| row_progress := Some (written r) |>) d with
      | None => (d, Err (StoreError.LeaseRejected (lr_job_id l)))
      | Some d' =>
          match sq_job d !! lr_job_id l with
          | Some r => (d', Ok (written r))
          | None => (d', Err (StoreError.LeaseRejected (lr_job_id l)))
          end
      end
  end.

Definition claim_effect (now : Z) (key : string) (d : Db) : Db * result bool StoreError.StoreError :=
  if String.eqb key "" then (d, Err (StoreError.Invalid "effect key must not be empty"))
  else match sq_effect d !! key with
       | Some _ => (d, Ok false)
       | None => (d <| sq_effect := <[key := now]> (sq_effect d) |>, Ok true)
       end.
End sqlite.
