(* ===== verification/SqliteInspect.v ===== *)
(** * headgate-sqlite: the operator's side of the embedded store

    Models [crates/headgate-sqlite/src/inspect.rs], the [Inspect] port over the tables of
    [Sqlite]: operator transitions, edits, quarantine, schedules and their event log, durable
    events, the worker registry with its command mailbox, bulk operations and the reads the
    coordinator and the worker rely on.  [queue_stats] and the memory sample (floating point
    and byte counts for dashboards) are left out. *)

From S2P Require Import Prelude Shared Lifecycle Envelope MemStore Core Coordinator Scheduler Attempt Worker Pool Sqlite.
Local Open Scope Z_scope.

(** ** Reading jobs *)

Section reads.
(** [errors_json]'s text. *)
Context (to_string : list json → string).

Definition summary (include_payload : bool) (r : Row) : JobSummary :=
  let e := scan_env r in
  mkJobSummary (e_id e) (e_kind e) (e_queue e) (row_state r) (e_schema_version e) (e_priority e)
    (e_attempt e) (e_crash_attempt e) (e_max_attempts e) (e_partition_key e) (e_rate_class e)
    (e_sticky_worker e) (e_weight e) (e_fingerprint e) (row_enqueued_at r) (e_scheduled_at_ms e)
    (row_claimed_at r) (e_periodic_schedule_id e) (e_periodic_tick_ms e) (row_finalized_at r)
    (if include_payload then Some (e_payload e) else None)
    (if include_payload then list_to_map (e_headers e) else ∅)
    (to_string (row_errors r)) (e_tags e).

Definition sqlite_get_job (id : string) (include_payload : bool) (d : Db) : option JobSummary :=
  summary include_payload <$> sq_job d !! id.

(** SQLite's [LIKE]: [%] matches any text, [_] any character, letters without their case. *)
Definition fold_case (c : ascii) : ascii :=
  if is_ascii_upper c then byte_of (byte_val c + 32) else c.

Fixpoint sql_like (pattern : string) : string → bool :=
  match pattern with
  | EmptyString => λ text, match text with EmptyString => true | _ => false end
  | String "%" pattern =>
      fix skip text :=
        sql_like pattern text || match text with EmptyString => false | String _ text => skip text end
  | String c pattern => λ text,
      match text with
      | EmptyString => false
      | String x text =>
          (Ascii.eqb c "_" || Ascii.eqb (fold_case c) (fold_case x)) && sql_like pattern text
      end
  end.

Definition matches_filter (f : JobFilter) (r : Row) : bool :=
  let e := row_env r in
  none_or (String.eqb (e_queue e)) (jf_queue f)
  && none_or (String.eqb (row_state r)) (jf_state f)
  && none_or (String.eqb (e_kind e)) (jf_kind f)
  && none_or (String.eqb (e_partition_key e)) (jf_partition_key f)
  && none_or (String.eqb (e_id e)) (jf_id f)
  && none_or (String.eqb (e_fingerprint e)) (jf_fingerprint f)
  && none_or (String.eqb (e_rate_class e)) (jf_rate_class f)
  && none_or (λ v, sql_like (v +:+ "%")%stdpp (e_kind e)) (jf_kind_prefix f)
  && none_or (Z.eqb (e_priority e)) (jf_priority f)
  && forallb (λ tag, existsb (String.eqb tag) (e_tags e)) (jf_tags_all f)
  && (bool_decide (jf_tags_any f = [])
      || existsb (λ tag, existsb (String.eqb tag) (jf_tags_any f)) (e_tags e)).

Definition id_le (a b : Row) : Prop := String.le (e_id (row_env a)) (e_id (row_env b)).
#[export] Instance id_le_dec a b : Decision (id_le a b).
Proof. unfold id_le. apply _. Defined.

Definition after_cursor (cursor : option string) (r : Row) : bool :=
  none_or (λ c, match String.compare (e_id (row_env r)) c with Gt => true | _ => false end) cursor.

(** One row more than the limit is read to learn whether there is a next page. *)
Definition sqlite_list_jobs (f : JobFilter) (cursor : option string) (limit : Z) (d : Db)
    : result JobPage StoreError.StoreError :=
  if (limit =? 0) || (200 <? limit) then Err (StoreError.Invalid "limit must be between 1 and 200")
  else
    let rows := take (Z.to_nat (limit + 1))
      (merge_sort id_le (List.filter (λ r, matches_filter f r && after_cursor cursor r)
                           (map_to_list (sq_job d)).*2)) in
    let jobs := summary false <$> rows in
    if (Z.to_nat limit <? length jobs)%nat
    then let jobs := take (Z.to_nat limit) jobs in Ok (mkJobPage jobs (js_id <$> last jobs))
    else Ok (mkJobPage jobs None).
End reads.

Definition get_result (id : string) (d : Db) : option JobResult := sq_job d !! id ≫= row_result.
Definition get_output (id : string) (d : Db) : option JobOutput := sq_job d !! id ≫= row_output.
Definition get_progress (id : string) (d : Db) : option JobProgress := sq_job d !! id ≫= row_progress.
Definition get_checkpoint (id : string) (d : Db) : option Checkpoint :=
  scan_checkpoint <$> sq_job d !! id.

(** ** Operator transitions *)

Definition operator_row (now : Z) (to : string) (r : Row) : Row :=
  (unlease r)
    <| row_state := to |>
    <| row_env := (row_env r)
         <| e_scheduled_at_ms := if String.eqb to "available" then now
                                 else e_scheduled_at_ms (row_env r) |> |>
    <| row_finalized_at := if String.eqb to "cancelled" then Some now else None |>.

Definition simple_transition (now : Z) (id : string) (from : list string) (to : string) (d : Db)
    : Db * result unit StoreError.StoreError :=
  match update_job id (state_in from) (operator_row now to) d with
  | Some d => (d, Ok tt)
  | None =>
      (d, Err match sq_job d !! id with
              | None => StoreError.NotFound ("job " +:+ id)%stdpp
              | Some r => StoreError.Invalid
                  ("transition to " +:+ to +:+ " is not defined from " +:+ row_state r)%stdpp
              end)
  end.

Definition sqlite_operator_retry (now : Z) (id : string) : Db → Db * result unit StoreError.StoreError :=
  simple_transition now id ["archived"; "cancelled"; "undecodable"] "available".
Definition sqlite_operator_cancel (now : Z) (id : string) : Db → Db * result unit StoreError.StoreError :=
  simple_transition now id ["pending"; "scheduled"; "available"; "running"; "retryable"] "cancelled".
Definition sqlite_promote_job (now : Z) (id : string) : Db → Db * result unit StoreError.StoreError :=
  simple_transition now id ["pending"] "available".

(** [UPDATE .. WHERE id=? AND ..], with one error for every refusal. *)
Definition update_or (error : string) (id : string) (p : Row → bool) (f : Row → Row) (d : Db)
    : Db * result unit StoreError.StoreError :=
  match update_job id p f d with
  | Some d => (d, Ok tt)
  | None => (d, Err (StoreError.Invalid error))
  end.

Definition set_schedule (at_ms : Z) (r : Row) : Row :=
  r <| row_env := (row_env r) <| e_scheduled_at_ms := at_ms |> |>.

Definition sqlite_schedule_pending (id : string) (at_ms : Z) : Db → Db * result unit StoreError.StoreError :=
  update_or "job is not pending" id (state_in ["pending"])
    (λ r, (set_schedule at_ms r) <| row_state := "scheduled" |>).

Definition reschedule_job (id : string) (at_ms : Z) : Db → Db * result unit StoreError.StoreError :=
  update_or "job is not scheduled or retryable" id (state_in ["scheduled"; "retryable"]) (set_schedule at_ms).

Definition not_running (r : Row) : bool := negb (String.eqb (row_state r) "running").

Definition sqlite_edit_payload (id : string) (payload : bytes) (schema_version : Z) (fp : string) (d : Db)
    : Db * result unit StoreError.StoreError :=
  if (schema_version =? 0) || (MAX_OPAQUE_SCHEMA_VERSION <? schema_version)
  then (d, Err (StoreError.Invalid "schema_version is outside the portable range"))
  else update_or "job cannot be edited while running or does not exist" id not_running
         (λ r, r <| row_env := (row_env r) <| e_payload := payload |>
                      <| e_schema_version := schema_version |> <| e_fingerprint := fp |> |>) d.

Definition sqlite_delete_job (id : string) (d : Db) : Db * result unit StoreError.StoreError :=
  match delete_row id not_running d with
  | Some d => (d, Ok tt)
  | None =>
      (d, Err match sq_job d !! id with
              | None => StoreError.NotFound ("job " +:+ id)%stdpp
              | Some _ => StoreError.Invalid "cannot delete a running job; cancel it first"
              end)
  end.

(** ** Quarantine *)

Definition release_row (now : Z) (r : Row) : Row :=
  (set_schedule now r) <| row_state := "available" |> <| row_finalized_at := None |>.

Definition quarantined_as (fp : string) (r : Row) : bool :=
  String.eqb (e_fingerprint (row_env r)) fp && String.eqb (row_state r) "quarantined".

Definition sqlite_quarantine_release (now : Z) (fp : string) (d : Db)
    : Db * result Z StoreError.StoreError :=
  let n := count_jobs (quarantined_as fp) d in
  if (n =? 0) && negb (bool_decide (is_Some (sq_quarantine d !! fp)))
  then (d, Err (StoreError.NotFound ("fingerprint " +:+ fp +:+ " is not quarantined")%stdpp))
  else (d <| sq_job := (λ r, if quarantined_as fp r then release_row now r else r) <$> sq_job d |>
          <| sq_quarantine := delete fp (sq_quarantine d) |>, Ok n).

Definition sweepable (d : Db) (r : Row) : bool :=
  state_in ["pending"; "scheduled"; "available"; "retryable"] r
  && bool_decide (is_Some (sq_quarantine d !! e_fingerprint (row_env r))).

Definition sqlite_quarantine_sweep (now limit : Z) (d : Db) : Db * result Z StoreError.StoreError :=
  if limit <=? 0 then (d, Ok 0)
  else
    let ids := select_ids (sweepable d) id_le limit d in
    (alter_jobs (λ r, r <| row_state := "quarantined" |> <| row_finalized_at := Some now |>) ids d,
     Ok (Z.of_nat (length ids))).

(** ** Schedules *)

Definition upsert_schedule (s : Schedule) (d : Db) : Db * result unit StoreError.StoreError :=
  if String.eqb (sc_id s) "" || String.eqb (sc_kind s) "" || String.eqb (sc_spec s) ""
  then (d, Err (StoreError.Invalid "schedule id, kind, and spec must not be empty"))
  else
    let '(next_run, last_enqueued) :=
      match sq_schedule d !! sc_id s with
      | Some old => (if String.eqb (sc_spec old) (sc_spec s) then sc_next_run_ms old else sc_next_run_ms s,
                     sc_last_enqueued_ms old)
      | None => (sc_next_run_ms s, None)
      end in
    (d <| sq_schedule := <[sc_id s := mkSchedule (sc_id s) (sc_kind s) (sc_payload s) (sc_queue s)
             (sc_partition_key s) (sc_rate_class s) (sc_priority s) (sc_max_attempts s)
             (sc_retention_ms s) (sc_spec s) next_run last_enqueued (sc_on_missed s)
             (sc_backfill_limit s) (sc_paused s)]> (sq_schedule d) |>, Ok tt).

Definition delete_schedule (id : string) (d : Db) : Db * result unit StoreError.StoreError :=
  match sq_schedule d !! id with
  | None => (d, Err (StoreError.NotFound ("schedule " +:+ id)%stdpp))
  | Some _ => (d <| sq_schedule := delete id (sq_schedule d) |>, Ok tt)
  end.

Definition next_run_le (a b : Schedule) : Prop :=
  sc_next_run_ms a < sc_next_run_ms b
  ∨ sc_next_run_ms a = sc_next_run_ms b ∧ String.le (sc_id a) (sc_id b).
#[export] Instance next_run_le_dec a b : Decision (next_run_le a b).
Proof. unfold next_run_le. apply _. Defined.

Definition sqlite_due_schedules (now limit : Z) (d : Db) : list Schedule * Z :=
  if limit <=? 0 then ([], 0)
  else (take (Z.to_nat limit)
          (merge_sort next_run_le
             (List.filter (λ s, negb (sc_paused s) && (sc_next_run_ms s <=? now))
                (map_to_list (sq_schedule d)).*2)), now).

(** The compare-and-set that makes one node fire a tick. *)
Definition sqlite_advance_schedule (now : Z) (id : string) (from to : Z) (d : Db) : Db * bool :=
  match sq_schedule d !! id with
  | Some s =>
      if sc_next_run_ms s =? from
      then (d <| sq_schedule := <[id := mkSchedule (sc_id s) (sc_kind s) (sc_payload s) (sc_queue s)
                 (sc_partition_key s) (sc_rate_class s) (sc_priority s) (sc_max_attempts s)
                 (sc_retention_ms s) (sc_spec s) to (Some now) (sc_on_missed s)
                 (sc_backfill_limit s) (sc_paused s)]> (sq_schedule d) |>, true)
      else (d, false)
  | None => (d, false)
  end.

(** ** Event logs: the last hundred entries of each schedule and of each scope *)

Definition keep_last {A} (p : A → bool) (n : nat) (l : list A) : list A :=
  let mine := List.filter p l in
  (fix go (skip : nat) (l : list A) : list A :=
     match l with
     | [] => []
     | x :: l => if p x then match skip with O => x :: go O l | S skip => go skip l end else x :: go skip l
     end) (length mine - n)%nat l.

Definition sqlite_record_schedule_event (now : Z) (e : ScheduleEvent) (d : Db)
    : Db * result unit StoreError.StoreError :=
  if 64 <? str_len (se_reason e)
  then (d, Err (StoreError.Invalid "schedule event reason exceeds 64 bytes"))
  else
    let id := sq_schedule_seq d + 1 in
    let ev := mkScheduleEvent id (se_schedule_id e) (se_tick_ms e) (se_job_id e) (se_outcome e)
                (se_reason e) now in
    (d <| sq_schedule_seq := id |>
       <| sq_schedule_event := keep_last (λ x, String.eqb (se_schedule_id x) (se_schedule_id e)) 100
                                 (sq_schedule_event d ++ [ev]) |>, Ok tt).

(** Newest first, before an event id if one is given. *)
Definition newest {A} (event_id : A → Z) (p : A → bool) (before : option Z) (limit : Z) (l : list A)
    : list A :=
  take (Z.to_nat limit)
    (rev (List.filter (λ x, p x && none_or (λ b, event_id x <? wrap_i64 b) before) l)).

Definition list_schedule_events (id : string) (before : option Z) (limit : Z) (d : Db)
    : result (list ScheduleEvent) StoreError.StoreError :=
  let? _ := validate_schedule_event_limit limit in
  Ok (newest se_event_id (λ x, String.eqb (se_schedule_id x) id) before limit (sq_schedule_event d)).

Section durable.
(** Whether the bytes are JSON. *)
Context (is_json : bytes → bool).

Definition MAX_DURABLE_EVENT_PAYLOAD_BYTES : Z := 64 * 1024.
Definition MAX_DURABLE_EVENT_SOURCE_BYTES : Z := 16 * 1024.

Definition same_durable (e x : DurableEvent) : bool :=
  String.eqb (de_scope x) (de_scope e) && String.eqb (de_idempotency_key x) (de_idempotency_key e).

Definition sqlite_append_event (now : Z) (e : DurableEvent) (d : Db)
    : Db * result (DurableEvent * bool) StoreError.StoreError :=
  if String.eqb (de_scope e) "" || String.eqb (de_topic e) "" || String.eqb (de_idempotency_key e) ""
  then (d, Err (StoreError.Invalid "durable event scope, topic, and idempotency_key must not be empty"))
  else if (MAX_DURABLE_EVENT_PAYLOAD_BYTES <? str_len (de_payload e))
          || (MAX_DURABLE_EVENT_SOURCE_BYTES <? str_len (de_source e))
          || negb (is_json (de_payload e)) || negb (is_json (de_source e))
  then (d, Err (StoreError.Invalid "durable event payload/source must be valid bounded JSON"))
  else
    match List.find (same_durable e) (sq_durable d) with
    | Some stored =>
        (d <| sq_durable := keep_last (λ x, String.eqb (de_scope x) (de_scope e)) 100 (sq_durable d) |>,
         Ok (stored, false))
    | None =>
        let id := sq_durable_seq d + 1 in
        let stored := mkDurableEvent id (de_scope e) (de_topic e) (de_idempotency_key e) (de_payload e)
                        (de_source e) now in
        (d <| sq_durable_seq := id |>
           <| sq_durable := keep_last (λ x, String.eqb (de_scope x) (de_scope e)) 100
                              (sq_durable d ++ [stored]) |>,
         Ok (stored, true))
    end.

Definition sqlite_list_events (scope : string) (before : option Z) (limit : Z) (d : Db)
    : result (list DurableEvent) StoreError.StoreError :=
  let? _ := validate_durable_event_limit limit in
  Ok (newest de_event_id (λ x, String.eqb (de_scope x) scope) before limit (sq_durable d)).
End durable.

(** ** Workers *)

Definition sqlite_heartbeat (now : Z) (w : WorkerMeta) (d : Db)
    : Db * result (option string) StoreError.StoreError :=
  if String.eqb (wm_worker_id w) "" then (d, Err (StoreError.Invalid "worker_id must not be empty"))
  else
    let command := sq_worker d !! wm_worker_id w ≫= wr_command in
    (d <| sq_worker := <[wm_worker_id w := mkWorkerRow w now command]> (sq_worker d) |>, Ok command).

Definition sqlite_signal (worker_id : string) (command : option string) (d : Db)
    : Db * result unit StoreError.StoreError :=
  match command with
  | Some c =>
      if negb (valid_worker_command c)
      then (d, Err (StoreError.Invalid ("unknown worker command `" +:+ c +:+ "`")%stdpp))
      else match sq_worker d !! worker_id with
           | Some w => (d <| sq_worker := <[worker_id := mkWorkerRow (wr_meta w) (wr_heartbeat_at w) command]>
                              (sq_worker d) |>, Ok tt)
           | None => (d, Err (StoreError.NotFound ("worker " +:+ worker_id)%stdpp))
           end
  | None =>
      match sq_worker d !! worker_id with
      | Some w => (d <| sq_worker := <[worker_id := mkWorkerRow (wr_meta w) (wr_heartbeat_at w) None]>
                         (sq_worker d) |>, Ok tt)
      | None => (d, Err (StoreError.NotFound ("worker " +:+ worker_id)%stdpp))
      end
  end.

Definition live_workers (now stale_after_ms : Z) (d : Db) : result (list WorkerMeta) StoreError.StoreError :=
  if stale_after_ms <? 0 then Err (StoreError.Invalid "stale_after_ms must be non-negative")
  else
    let rows := List.filter (λ x, now - stale_after_ms <=? wr_heartbeat_at x.2) (map_to_list (sq_worker d)) in
    Ok (take 10000 ((λ id, match sq_worker d !! id with
                           | Some w => (wr_meta w) <| wm_heartbeat_at_ms := wr_heartbeat_at w |>
                                       <| wm_pending_command := wr_command w |>
                           | None => mkWorkerMeta id "" 0 [] 0 0 0 0 0 0 "" false None
                           end) <$> sort_strings rows.*1)).

(** ** Bulk operations *)

Definition opt_json (o : option string) : json := match o with Some s => JString s | None => JNull end.

Section operations.
Context (constraint_failed : string).

Definition insert_operation (id : string) (o : Operation) (d : Db) : Db * result unit StoreError.StoreError :=
  match sq_operation d !! id with
  | Some _ => (d, Err (StoreError.Backend constraint_failed))
  | None => (d <| sq_operation := <[id := o]> (sq_operation d) |>, Ok tt)
  end.

Definition create_operation (now : Z) (req : BulkRequest) (d : Db) : Db * result unit StoreError.StoreError :=
  if String.eqb (br_id req) "" || negb (has_selector req)
  then (d, Err (StoreError.Invalid "bulk operation requires id and a non-empty selector"))
  else
    match bulk_action_states (br_action req) with
    | None => (d, Err (StoreError.Invalid ("unknown bulk action `" +:+ br_action req +:+ "`")%stdpp))
    | Some _ =>
        let selector := JObject (btree_collect
          [("queue", opt_json (br_queue req)); ("state", opt_json (br_state req));
           ("kind", opt_json (br_kind req)); ("partition_key", opt_json (br_partition_key req));
           ("older_than_ms", match br_older_than_ms req with Some n => JInt n | None => JNull end)]) in
        insert_operation (br_id req)
          (mkOperation (br_action req) selector "pending" 0 (br_dry_run req) now) d
    end.

Definition selector_field (selector : json) (field : string) : option json :=
  match selector with JObject o => btree_get field o | _ => None end.

Definition as_i64 (v : json) : option Z :=
  match v with JInt n => if (i64_min <=? n) && (n <=? i64_max) then Some n else None | _ => None end.

Definition selected (action : string) (selector : json) (r : Row) : bool :=
  let str field := selector_field selector field ≫= as_str in
  state_in (default [] (bulk_action_states action)) r
  && none_or (String.eqb (e_queue (row_env r))) (str "queue")
  && none_or (String.eqb (row_state r)) (str "state")
  && none_or (String.eqb (e_kind (row_env r))) (str "kind")
  && none_or (String.eqb (e_partition_key (row_env r))) (str "partition_key")
  && none_or (λ t, row_enqueued_at r <? t) (selector_field selector "older_than_ms" ≫= as_i64).

Definition operation_le (a b : string * Operation) : Prop :=
  op_created_at a.2 < op_created_at b.2
  ∨ op_created_at a.2 = op_created_at b.2 ∧ String.le a.1 b.1.
#[export] Instance operation_le_dec a b : Decision (operation_le a b).
Proof. unfold operation_le. apply _. Defined.

Definition bulk_apply (now : Z) (action : string) (ids : list string) (d : Db) : Db :=
  if String.eqb action "delete" then d <| sq_job := foldl (λ m id, delete id m) (sq_job d) ids |>
  else if String.eqb action "cancel" then
    alter_jobs (λ r, (unlease r) <| row_state := "cancelled" |> <| row_finalized_at := Some now |>) ids d
  else if String.eqb action "retry" then alter_jobs (release_row now) ids d
  else d.

Definition run_pending_operations (now batch : Z) (d : Db) : Db * result Z StoreError.StoreError :=
  if batch <=? 0 then (d, Ok 0)
  else
    match head (merge_sort operation_le
                  (List.filter (λ x, String.eqb (op_status x.2) "pending") (map_to_list (sq_operation d)))) with
    | None => (d, Ok 0)
    | Some (id, o) =>
        let ids := select_ids (selected (op_action o) (op_selector o)) id_le batch d in
        let n := Z.of_nat (length ids) in
        let d := if op_dry_run o then d else bulk_apply now (op_action o) ids d in
        let status := if (n <? batch) || op_dry_run o then "completed" else "pending" in
        (d <| sq_operation := <[id := o <| op_affected := op_affected o + n |> <| op_status := status |>]>
                                (sq_operation d) |>, Ok n)
    end.

Definition delete_queue (now pid seq : Z) (queue : string) (force : bool) (d : Db)
    : Db * result (option string) StoreError.StoreError :=
  if count_jobs (λ r, String.eqb (e_queue (row_env r)) queue) d =? 0
  then (d <| sq_queue := delete queue (sq_queue d) |> <| sq_policy := delete queue (sq_policy d) |>, Ok None)
  else if negb force
  then (d, Err (StoreError.Invalid "queue is not empty; force creates an asynchronous delete operation"))
  else
    let id := format_generated_id (Z.max now 0) pid seq in
    match insert_operation id
            (mkOperation "delete" (JObject [("queue", JString queue)]) "pending" 0 false now) d with
    | (d, Ok _) => (d, Ok (Some id))
    | (d, Err e) => (d, Err e)
    end.
End operations.

Definition set_enqueue_limit (queue : string) (max : option Z) (d : Db) : Db * result unit StoreError.StoreError :=
  match max with
  | Some v =>
      if i64_max <? v then (d, Err (StoreError.Invalid "max_unfinished_jobs is too large"))
      else (d <| sq_policy := <[queue := Some v]> (sq_policy d) |>, Ok tt)
  | None => (d <| sq_policy := <[queue := None]> (sq_policy d) |>, Ok tt)
  end.

(** ** The memory sample *)

Fixpoint char_len (s : string) : Z :=
  match s with
  | EmptyString => 0
  | String c s => (if (128 <=? byte_val c) && (byte_val c <? 192) then 0 else 1) + char_len s
  end.

Definition sum_z {A} (f : A → Z) (l : list A) : Z := foldr (λ x n, f x + n) 0 l.

Section sample.
(** A [SELECT] with a [LIMIT] and no order reads the rows in the order [ord] of their ids. *)
Context (ord : list string).

(** The first [limit] rows with [p], in the order they are visited. *)
Definition scan_rows (p : Row → bool) (limit : nat) (d : Db) : list Row :=
  take limit (omap (λ id, match sq_job d !! id with
                          | Some r => if p r then Some r else None
                          | None => None
                          end) ord).

Definition in_queue (queue : string) (r : Row) : bool := String.eqb (e_queue (row_env r)) queue.

(** SQLite's [length] counts the bytes of a blob and the characters of a text. *)
Definition row_bytes (r : Row) : Z :=
  let e := row_env r in
  str_len (e_payload e) + char_len (e_id e) + char_len (e_kind e) + char_len (e_fingerprint e).

Definition sample_queue (d : Db) (queue : string) : Db :=
  let bytes := sum_z row_bytes (scan_rows (in_queue queue) 1000 d) in
  let q := default default_queue_state (sq_queue d !! queue) in
  d <| sq_queue := <[queue := mkQueueState (qs_weight q) (qs_paused q) (qs_dispatch q) (Some bytes)]>
                     (sq_queue d) |>.

Definition sqlite_sample_memory (limit : Z) (d : Db) : Db * result Z StoreError.StoreError :=
  if limit =? 0 then (d, Ok 0)
  else
    let queues := take (Z.to_nat (Z.min limit 1000))
      (sort_dedup ((e_queue ∘ row_env <$> (map_to_list (sq_job d)).*2) ++ (map_to_list (sq_queue d)).*1)) in
    (foldl sample_queue d queues, Ok (Z.of_nat (length queues))).
End sample.

(** ** The admission explanation *)

Definition available_tokens (now : Z) (b : Bucket) : Z :=
  Z.min (bk_burst b)
    (i64_add (bk_tokens b)
       (i64_div (i64_saturating (i64_saturating (now - bk_refilled b) * bk_limit b)) (bk_window b))).

Definition limit_of (queue : string) (d : Db) : option Limit :=
  head (List.filter (λ l, String.eqb (li_queue l) queue) (map_to_list (sq_limit d)).*2).

Definition admission_facts (now : Z) (id : string) (d : Db) : option AdmissionFacts :=
  r ← sq_job d !! id;
  let e := row_env r in
  let bucket := sq_bucket d !! e_rate_class e in
  let limit := limit_of (e_queue e) d in
  Some (mkFacts (row_state r) now (e_scheduled_at_ms e)
    (match sq_queue d !! e_queue e with Some q => qs_paused q | None => false end)
    (bool_decide (is_Some (sq_quarantine d !! e_fingerprint e))) (e_fingerprint e) (e_rate_class e)
    (e_weight e) (available_tokens now <$> bucket) 0
    (match bucket with Some b => bk_limit b | None => 0 end)
    (match bucket with Some b => bk_window b | None => 0 end)
    (li_max <$> limit)
    (match limit with Some _ => count_jobs (running_in (e_queue e) (e_partition_key e)) d | None => 0 end)
    (match limit with Some l => li_on_saturated l | None => "" end) 0 0).

Definition sqlite_explain (now : Z) (id : string) (d : Db) : option AdmissionEvaluation :=
  evaluate_admission <$> admission_facts now id d.
