(* ===== verification/SqliteRows.v ===== *)
(** * The rows of the SQLite store

    Every [UPDATE] of [headgate_job] that the adapter issues is a rule of [row_step]: a row that
    satisfies the statement's [WHERE] and what its [SET] makes of it.  Every operation of
    [Sqlite] and [SqliteInspect] moves each row along these rules, inserts fresh rows or deletes
    rows; what holds of the rules therefore holds of the store, whatever its clients do. *)

From S2P Require Import Prelude Shared Lifecycle Envelope MemStore MemInv Core Coordinator Scheduler Attempt Worker Pool Sqlite SqliteInspect.
Local Open Scope Z_scope.

Inductive row_step : Row → Row → Prop :=
  | rs_debounce now e r :
      state_in ["pending"; "scheduled"; "available"; "retryable"] r = true →
      row_checks (debounce_holder now e r) = true → row_step r (debounce_holder now e r)
  | rs_replace now e r :
      state_in ["scheduled"; "available"; "retryable"] r = true →
      row_checks (replace_row now e r) = true → row_step r (replace_row now e r)
  | rs_expire now r :
      past_deadline now r = true →
      row_step r (r <| row_state := "cancelled" |> <| row_finalized_at := Some now |>)
  | rs_saturated state now r :
      is_available r = true → state = "archived" ∨ state = "cancelled" →
      row_step r (r <| row_state := state |> <| row_finalized_at := Some now |>)
  | rs_victim now r : row_state r = "running" → row_step r (cancel_victim now r)
  | rs_lease req now ms charge r :
      is_available r = true → 0 ≤ charge → row_step r (lease_row req now ms charge r)
  | rs_settle o now outcome err delay logs aw s r :
      row_state r = "running" → outcome ≠ Outcome.LeaseLost →
      settle_row o now outcome err delay logs (scan_env r) = Some s →
      row_step r (settle_update now outcome err logs aw s r)
  | rs_complete now aw res errs r :
      row_state r = "running" → (length errs ≤ 50)%nat → result_checks res = true →
      row_step r ((complete_row now aw r) <| row_result := res |> <| row_errors := errs |>)
  | rs_renew expires r :
      row_state r = "running" → row_step r (r <| row_lease_expires := Some expires |>)
  | rs_checkpoint cp r : row_state r = "running" → row_step r (save_checkpoint cp r)
  | rs_output out r :
      row_state r = "running" → 0 < o_schema_version out → row_step r (r <| row_output := Some out |>)
  | rs_progress p r : row_state r = "running" → row_step r (r <| row_progress := Some p |>)
  | rs_crash o now r : row_state r = "running" → row_step r (crash_row o now r).1
  | rs_due now r : due_row now r = true → row_step r (r <| row_state := "available" |>)
  | rs_retry now r :
      state_in ["archived"; "cancelled"; "undecodable"] r = true → row_step r (operator_row now "available" r)
  | rs_cancel now r :
      state_in ["pending"; "scheduled"; "available"; "running"; "retryable"] r = true →
      row_step r (operator_row now "cancelled" r)
  | rs_promote now r : state_in ["pending"] r = true → row_step r (operator_row now "available" r)
  | rs_schedule t r :
      state_in ["pending"] r = true → row_step r ((set_schedule t r) <| row_state := "scheduled" |>)
  | rs_reschedule t r : state_in ["scheduled"; "retryable"] r = true → row_step r (set_schedule t r)
  | rs_edit payload v fp r :
      not_running r = true → 0 < v ≤ MAX_OPAQUE_SCHEMA_VERSION →
      row_step r (r <| row_env := (row_env r) <| e_payload := payload |>
                        <| e_schema_version := v |> <| e_fingerprint := fp |> |>)
  | rs_release now r : row_state r = "quarantined" → row_step r (release_row now r)
  | rs_sweep now r :
      state_in ["pending"; "scheduled"; "available"; "retryable"] r = true →
      row_step r (r <| row_state := "quarantined" |> <| row_finalized_at := Some now |>)
  | rs_bulk_cancel now r :
      state_in ["scheduled"; "available"; "running"] r = true →
      row_step r ((unlease r) <| row_state := "cancelled" |> <| row_finalized_at := Some now |>)
  | rs_bulk_retry now r : state_in ["archived"; "cancelled"] r = true → row_step r (release_row now r).

(** ** The table's type *)

Definition JOB_STATES : list string :=
  ["pending"; "scheduled"; "available"; "running"; "retryable"; "completed"; "archived"; "cancelled";
   "quarantined"; "undecodable"].

(** The declared columns, and the lease columns set exactly on running rows. *)
Record row_ok (r : Row) : Prop := {
  ro_state : row_state r ∈ JOB_STATES;
  ro_checks : row_checks r = true;
  ro_lease : row_state r = "running" ↔ is_Some (row_lease_id r);
  ro_expires : row_state r = "running" ↔ is_Some (row_lease_expires r);
  ro_fence : 0 ≤ row_fence r;
  ro_charge : 0 ≤ row_rate_charge r;
  ro_history : (length (row_errors r) ≤ 50)%nat;
}.

Lemma state_in_elem states r : state_in states r = true ↔ row_state r ∈ states.
Proof.
  unfold state_in. rewrite existsb_exists. split.
  - intros (s & Hs & ->%String.eqb_eq). by apply list_elem_of_In.
  - intros Hs. exists (row_state r). rewrite String.eqb_refl. by apply list_elem_of_In in Hs.
Qed.

Lemma append_attempt_length h t a c o e l : (length (append_attempt h t a c o e l) ≤ 50)%nat.
Proof.
  unfold append_attempt. rewrite length_app. cbn [length].
  destruct (Nat.leb_spec 50 (length h)); [rewrite length_drop; lia|lia].
Qed.

Lemma wrap_u32_nonneg z : 0 ≤ wrap_u32 z.
Proof. unfold wrap_u32. apply Z.mod_pos_bound. lia. Qed.

Lemma row_checks_spec r :
  row_checks r = true ↔
  1 ≤ e_schema_version (row_env r) ≤ 2147483647 ∧ 0 < e_weight (row_env r)
  ∧ 0 ≤ e_attempt (row_env r) ∧ 0 ≤ e_crash_attempt (row_env r) ∧ 0 < e_max_attempts (row_env r)
  ∧ 0 ≤ e_timeout_ms (row_env r) ∧ 0 ≤ e_deadline_ms (row_env r) ∧ 0 ≤ e_retention_ms (row_env r)
  ∧ 0 ≤ row_unique_states r ∧ 0 ≤ row_unique_window r ∧ 0 ≤ e_periodic_tick_ms (row_env r)
  ∧ result_checks (row_result r) = true ∧ output_checks (row_output r) = true.
Proof. unfold row_checks. rewrite !andb_true_iff, !Z.leb_le, !Z.ltb_lt. tauto. Qed.

Lemma row_ok_result r : row_ok r → result_checks (row_result r) = true.
Proof. intros [_ H _ _ _ _ _]. apply row_checks_spec in H. tauto. Qed.

Lemma row_checks_frame r r' :
  row_checks r = true → row_env r' = row_env r → row_unique_states r' = row_unique_states r →
  row_unique_window r' = row_unique_window r → row_result r' = row_result r → row_output r' = row_output r →
  row_checks r' = true.
Proof. unfold row_checks. by intros Hc -> -> -> -> ->. Qed.

#[global] Opaque row_checks append_attempt.
#[global] Arguments append_attempt : simpl never.
#[global] Arguments row_checks : simpl never.

(** A step that leaves the lease columns alone and does not touch the running state. *)
Lemma row_ok_restate r r' :
  row_ok r → row_state r ≠ "running" → row_state r' ≠ "running" → row_state r' ∈ JOB_STATES →
  row_checks r' = true → row_lease_id r' = row_lease_id r → row_lease_expires r' = row_lease_expires r →
  row_fence r' = row_fence r → row_rate_charge r' = row_rate_charge r → row_errors r' = row_errors r →
  row_ok r'.
Proof.
  intros [? ? Hl He ? ? ?] Hn Hn' Hs Hc El Ee Ef Ech Eh.
  constructor; rewrite ?El, ?Ee, ?Ef, ?Ech, ?Eh; try done; split; intros H; naive_solver.
Qed.

(** A step that clears the lease columns and leaves the running state. *)
Lemma row_ok_unlease r r' :
  row_ok r → row_state r' ≠ "running" → row_state r' ∈ JOB_STATES → row_checks r' = true →
  row_lease_id r' = None → row_lease_expires r' = None → 0 ≤ row_fence r' → 0 ≤ row_rate_charge r' →
  (length (row_errors r') ≤ 50)%nat → row_ok r'.
Proof.
  intros _ Hn Hs Hc El Ee Hf Hch Hh. constructor; rewrite ?El, ?Ee; try done;
    (split; intros H; [by destruct (Hn H)|by destruct (is_Some_None H)]).
Qed.

(** A step of a running row that stays running. *)
Lemma row_ok_running r r' :
  row_ok r → row_state r = "running" → row_state r' = "running" → row_checks r' = true →
  row_lease_id r' = row_lease_id r → is_Some (row_lease_expires r') → row_fence r' = row_fence r →
  row_rate_charge r' = row_rate_charge r → row_errors r' = row_errors r → row_ok r'.
Proof.
  intros [? ? Hl He ? ? ?] Hr Hr' Hc El Ee Ef Ech Eh.
  constructor; rewrite ?El, ?Ef, ?Ech, ?Eh, ?Hr'; try done.
  - unfold JOB_STATES. set_solver.
  - by rewrite <-Hl, Hr.
Qed.

Lemma settled_states o now outcome err delay logs env s :
  settle_row o now outcome err delay logs env = Some s → outcome ≠ Outcome.LeaseLost →
  st_state s ∈ JOB_STATES ∧ st_state s ≠ "running"
  ∧ (st_attempt s = e_attempt env ∨ st_attempt s = u32_add (e_attempt env) 1).
Proof.
  unfold settle_row, JOB_STATES. intros Hs Ho.
  destruct outcome; repeat case_match; simplify_eq; simpl; split_and!; try done; try set_solver;
    first [by left|by right].
Qed.

Lemma not_running_in states r :
  state_in states r = true → "running" ∉ states → row_state r ≠ "running".
Proof. intros Hs%state_in_elem Hn Hr. by rewrite Hr in Hs. Qed.

Lemma available_not_running r : is_available r = true → row_state r ≠ "running".
Proof. unfold is_available. intros ->%String.eqb_eq. done. Qed.

Lemma state_known s : existsb (String.eqb s) JOB_STATES = true → s ∈ JOB_STATES.
Proof. rewrite existsb_exists. intros (x & Hx & ->%String.eqb_eq). by apply list_elem_of_In. Qed.

Ltac known_state :=
  lazymatch goal with
  | |- _ ∈ JOB_STATES => apply state_known; reflexivity
  | |- _ ∉ _ => apply (bool_decide_unpack _); vm_compute; exact I
  end.
Ltac leaves_running :=
  match goal with
  | H : state_in _ ?r = true |- row_state ?r ≠ _ => eapply not_running_in; [exact H|known_state]
  | H : is_available ?r = true |- row_state ?r ≠ _ => by apply available_not_running
  | H : row_state ?r = _ |- row_state ?r ≠ _ => by rewrite H
  end.

Ltac same_checks := eapply row_checks_frame; [eassumption|reflexivity..].

(** Projections of an updated row are compared by conversion, which only evaluates the column
    at hand. *)
Ltac solve_row :=
  lazymatch goal with
  | |- row_ok _ => assumption
  | |- _ ≠ _ => first [discriminate|leaves_running]
  | |- _ ∈ JOB_STATES => first [eassumption|known_state]
  | |- row_checks _ = _ => first [eassumption|same_checks|by apply row_checks_spec]
  | |- _ = _ => first [reflexivity|assumption]
  end.

Lemma row_step_ok r r' : row_step r r' → row_ok r → row_ok r'.
Proof.
  intros Hstep Hok. pose proof Hok as [Hs Hc Hl He Hf Hch Hh]. pose proof Hc as Hc'.
  apply row_checks_spec in Hc'. destruct Hstep as
    [now e r Hin Hck|now e r Hin Hck|now r Hin|state now r Hin Hst|now r Hr|req now ms charge r Hin Hge
    |o now outcome err delay logs aw s r Hr Ho Hset|now aw res errs r Hr Hlen Hres|expires r Hr|cp r Hr|out r Hr Hout
    |p r Hr|o now r Hr|now r Hdue|now r Hin|now r Hin|now r Hin|t r Hin|t r Hin|payload v fp r Hnr Hv
    |now r Hr|now r Hin|now r Hin|now r Hin].
  - apply (row_ok_restate r); solve_row.
  - assert (row_state (replace_row now e r) = row_state r) as E by reflexivity.
    apply (row_ok_restate r); rewrite ?E; solve_row.
  - unfold past_deadline in Hin. apply andb_true_iff in Hin as [[Hin _]%andb_true_iff _].
    apply (row_ok_restate r); solve_row.
  - destruct Hst as [-> | ->]; apply (row_ok_restate r); solve_row.
  - apply (row_ok_unlease r); [solve_row..|change (0 ≤ row_fence r + 1); lia|done|exact Hh].
  - assert (row_state (lease_row req now ms charge r) = "running") as E by reflexivity.
    constructor; rewrite ?E;
      [solve_row|solve_row|by split; [eexists|]|by split; [eexists|]
      |change (0 ≤ row_fence r + 1); lia|exact Hge|exact Hh].
  - apply settled_states in Hset as (Hin & Hne & Hat); [|done].
    apply (row_ok_unlease r); [solve_row|exact Hne|exact Hin| |solve_row|solve_row|exact Hf| |].
    + apply row_checks_spec.
      change (e_attempt (row_env (settle_update now outcome err logs aw s r))) with (st_attempt s).
      pose proof (wrap_u32_nonneg (e_attempt (row_env r))).
      pose proof (wrap_u32_nonneg (e_attempt (scan_env r) + 1)).
      assert (0 ≤ st_attempt s) as Hat' by (destruct Hat as [-> | ->]; done).
      destruct Hc' as (? & ? & _ & Hrest). by split_and.
    + change (0 ≤ match aw with Some _ => 0 | None => row_rate_charge r end). by destruct aw.
    + change (length (if st_record s
                      then append_attempt (row_errors r) now (st_attempt s) 0 (outcome_as_str outcome) err logs
                      else row_errors r) ≤ 50)%nat.
      case_match; [apply append_attempt_length|exact Hh].
  - apply (row_ok_unlease r); [solve_row|solve_row|solve_row| |solve_row|solve_row|exact Hf| |exact Hlen].
    + apply row_checks_spec. destruct_and! Hc'. by split_and!.
    + change (0 ≤ match aw with Some _ => 0 | None => row_rate_charge r end). by destruct aw.
  - apply (row_ok_running r); [solve_row..|by eexists|solve_row|solve_row|solve_row].
  - apply (row_ok_running r); [solve_row..|by apply He|solve_row|solve_row|solve_row].
  - apply (row_ok_running r); [solve_row|solve_row|solve_row| |solve_row|by apply He|solve_row|solve_row|solve_row].
    apply row_checks_spec. apply Z.ltb_lt in Hout. destruct_and! Hc'. by split_and!.
  - apply (row_ok_running r); [solve_row..|by apply He|solve_row|solve_row|solve_row].
  - assert (row_state (crash_row o now r).1 =
      if so_crash_limit o <=? u32_add (e_crash_attempt (scan_env r)) 1 then "quarantined" else "retryable")
      as E by reflexivity.
    apply (row_ok_unlease r); [solve_row| | | |solve_row|solve_row|exact Hf|exact Hch|].
    + rewrite E. by case_match.
    + rewrite E. case_match; known_state.
    + apply row_checks_spec. pose proof (wrap_u32_nonneg (e_crash_attempt (scan_env r) + 1)) as Hca.
      change (e_crash_attempt (row_env (crash_row o now r).1))
        with (u32_add (e_crash_attempt (scan_env r)) 1).
      destruct Hc' as (? & ? & ? & _ & Hrest). by split_and.
    + apply append_attempt_length.
  - unfold due_row in Hdue. apply andb_true_iff in Hdue as [Hin _]. apply (row_ok_restate r); solve_row.
  - apply (row_ok_unlease r); [solve_row..|exact Hf|exact Hch|exact Hh].
  - apply (row_ok_unlease r); [solve_row..|exact Hf|exact Hch|exact Hh].
  - apply (row_ok_unlease r); [solve_row..|exact Hf|exact Hch|exact Hh].
  - apply (row_ok_restate r); solve_row.
  - assert (row_state (set_schedule t r) = row_state r) as E by reflexivity.
    apply (row_ok_restate r); rewrite ?E; solve_row.
  - unfold not_running in Hnr. apply negb_true_iff, String.eqb_neq in Hnr.
    apply (row_ok_restate r); [solve_row|done|exact Hnr|exact Hs| |solve_row..].
    apply row_checks_spec. destruct Hc' as [_ Hrest]. split; [|exact Hrest].
    change (1 ≤ v ≤ 2147483647). unfold MAX_OPAQUE_SCHEMA_VERSION in Hv. lia.
  - apply (row_ok_restate r); solve_row.
  - apply (row_ok_restate r); solve_row.
  - apply (row_ok_unlease r); [solve_row..|exact Hf|exact Hch|exact Hh].
  - apply (row_ok_restate r); solve_row.
Qed.
