(* ===== verification/SqliteSpec.v ===== *)
(** * What the SQLite store guarantees, whatever its clients do

    [sq_op] is an operation of [Sqlite] or [SqliteInspect] with its arguments and clock
    readings, [sq_run] its effect on the database.  Every operation either moves rows along
    [SqliteRows.row_step] (or deletes them), or inserts fresh rows; the table's type, the
    monotone fences and the exclusiveness of leases follow for every reachable database. *)

From S2P Require Import Prelude Shared Lifecycle Envelope MemStore MemInv Core Coordinator Scheduler Attempt Worker Pool Sqlite SqliteInspect SqliteRows.
Local Open Scope Z_scope.

(** ** Operations *)

Section spec.
Context (constraint_failed : string) (is_json : bytes → bool) (o : SqliteOptions).

Inductive sq_op :=
  | SqEnqueue (ord : list string) (now now' : Z) (batch : list Envelope)
  | SqEnqueueTx (ord : list string) (now now' : Z) (batch : list Envelope)
  | SqAdmit (now : Z) (req : AdmitRequest)
  | SqAck (now : Z) (l : LeaseRef) (outcome : Outcome.Outcome) (err : option string) (delay : option Z)
      (logs : list string) (aw : option Z)
  | SqAckResult (now : Z) (l : LeaseRef) (logs : list string) (aw : option Z) (res : JobResult)
  | SqCompleteTx (now now' : Z) (l : LeaseRef) (aw : option Z)
  | SqRenew (now : Z) (leases : list LeaseRef) (lease : duration)
  | SqCheckpoint (l : LeaseRef) (cp : Checkpoint)
  | SqOutput (now : Z) (l : LeaseRef) (output : JobResult)
  | SqProgress (now : Z) (l : LeaseRef) (update : ProgressUpdate)
  | SqReclaim (now limit : Z)
  | SqPromote (now limit : Z)
  | SqEvict (now limit : Z)
  | SqClaimDuty (now : Z) (name holder : string) (lease : duration)
  | SqReleaseDuty (name holder : string)
  | SqClaimEffect (now : Z) (key : string)
  | SqPause (queue : string) (paused : bool)
  | SqWeight (queue : string) (weight : Z)
  | SqRateClass (now : Z) (cfg : RateClassConfig)
  | SqLimit (cfg : ConcurrencyLimitConfig)
  | SqRetry (now : Z) (id : string)
  | SqCancel (now : Z) (id : string)
  | SqPromoteJob (now : Z) (id : string)
  | SqSchedulePending (id : string) (at_ms : Z)
  | SqReschedule (id : string) (at_ms : Z)
  | SqEdit (id : string) (payload : bytes) (schema_version : Z) (fp : string)
  | SqDelete (id : string)
  | SqRelease (now : Z) (fp : string)
  | SqSweep (now limit : Z)
  | SqUpsertSchedule (s : Schedule)
  | SqDeleteSchedule (id : string)
  | SqAdvance (now : Z) (id : string) (from to : Z)
  | SqScheduleEvent (now : Z) (e : ScheduleEvent)
  | SqAppend (now : Z) (e : DurableEvent)
  | SqHeartbeat (now : Z) (w : WorkerMeta)
  | SqSignal (worker_id : string) (command : option string)
  | SqOperation (now : Z) (req : BulkRequest)
  | SqRunOperations (now batch : Z)
  | SqDeleteQueue (now pid seq : Z) (queue : string) (force : bool)
  | SqEnqueueLimit (queue : string) (max : option Z)
  | SqSample (ord : list string) (limit : Z).

Definition sq_run (op : sq_op) (d : Db) : Db :=
  match op with
  | SqEnqueue ord now now' batch => (sqlite_enqueue constraint_failed ord now now' batch d).1
  | SqEnqueueTx ord now now' batch => (enqueue_tx constraint_failed ord now now' batch d).1
  | SqAdmit now req => (sqlite_admit now req d).1
  | SqAck now l outcome err delay logs aw => (sqlite_ack o now l outcome err delay logs aw d).1
  | SqAckResult now l logs aw res => (sqlite_ack_with_result now l logs aw res d).1
  | SqCompleteTx now now' l aw => (complete_tx now now' l aw d).1
  | SqRenew now leases lease => (sqlite_renew now leases lease d).1
  | SqCheckpoint l cp => (sqlite_checkpoint l cp d).1
  | SqOutput now l output => (sqlite_write_output now l output d).1
  | SqProgress now l update => (sqlite_write_progress now l update d).1
  | SqReclaim now limit => (sqlite_reclaim o now limit d).1
  | SqPromote now limit => (sqlite_promote now limit d).1
  | SqEvict now limit => (sqlite_evict now limit d).1
  | SqClaimDuty now name holder lease => (sqlite_claim_duty now name holder lease d).1
  | SqReleaseDuty name holder => (sqlite_release_duty name holder d).1
  | SqClaimEffect now key => (claim_effect now key d).1
  | SqPause queue paused => set_paused queue paused d
  | SqWeight queue weight => (set_queue_weight queue weight d).1
  | SqRateClass now cfg => (upsert_rate_class now cfg d).1
  | SqLimit cfg => (upsert_concurrency_limit constraint_failed cfg d).1
  | SqRetry now id => (sqlite_operator_retry now id d).1
  | SqCancel now id => (sqlite_operator_cancel now id d).1
  | SqPromoteJob now id => (sqlite_promote_job now id d).1
  | SqSchedulePending id at_ms => (sqlite_schedule_pending id at_ms d).1
  | SqReschedule id at_ms => (reschedule_job id at_ms d).1
  | SqEdit id payload schema_version fp => (sqlite_edit_payload id payload schema_version fp d).1
  | SqDelete id => (sqlite_delete_job id d).1
  | SqRelease now fp => (sqlite_quarantine_release now fp d).1
  | SqSweep now limit => (sqlite_quarantine_sweep now limit d).1
  | SqUpsertSchedule s => (upsert_schedule s d).1
  | SqDeleteSchedule id => (delete_schedule id d).1
  | SqAdvance now id from to => (sqlite_advance_schedule now id from to d).1
  | SqScheduleEvent now e => (sqlite_record_schedule_event now e d).1
  | SqAppend now e => (sqlite_append_event is_json now e d).1
  | SqHeartbeat now w => (sqlite_heartbeat now w d).1
  | SqSignal worker_id command => (sqlite_signal worker_id command d).1
  | SqOperation now req => (create_operation constraint_failed now req d).1
  | SqRunOperations now batch => (run_pending_operations now batch d).1
  | SqDeleteQueue now pid seq queue force => (delete_queue constraint_failed now pid seq queue force d).1
  | SqEnqueueLimit queue max => (set_enqueue_limit queue max d).1
  | SqSample ord limit => (sqlite_sample_memory ord limit d).1
  end.
End spec.

Arguments sq_op : clear implicits.

(** ** Moves of the job table *)

(** Rows move along the rules, or disappear. *)
Definition updates (m m' : gmap string Row) : Prop :=
  ∀ id r', m' !! id = Some r' → ∃ r, m !! id = Some r ∧ rtc row_step r r'.

(** The row is what [enqueue] makes of an envelope. *)
Definition fresh_row (id : string) (r : Row) : Prop :=
  ∃ now e key, r = new_row now e key ∧ e_id e = id ∧ row_checks r = true.

(** Fresh rows appear under ids that were not taken. *)
Definition inserts (m m' : gmap string Row) : Prop :=
  ∀ id r', m' !! id = Some r' → m !! id = Some r' ∨ m !! id = None ∧ fresh_row id r'.

Definition keyed (m : gmap string Row) : Prop :=
  ∀ id r, m !! id = Some r → e_id (row_env r) = id.

Lemma sq_updates_refl m : updates m m.
Proof. intros id r Hr. by exists r. Qed.

Lemma sq_updates_trans m1 m2 m3 : updates m1 m2 → updates m2 m3 → updates m1 m3.
Proof.
  intros H12 H23 id r3 H3. destruct (H23 _ _ H3) as (r2 & H2 & S23).
  destruct (H12 _ _ H2) as (r1 & H1 & S12). exists r1. split; [done|]. by trans r2.
Qed.

#[export] Instance updates_preorder : PreOrder updates.
Proof. split; [exact sq_updates_refl|exact sq_updates_trans]. Qed.

Lemma sq_updates_insert m id r r' :
  m !! id = Some r → row_step r r' → updates m (<[id := r']> m).
Proof.
  intros Hr Hs i x. destruct (decide (i = id)) as [->|Hne].
  - rewrite lookup_insert_eq. intros [= <-]. exists r. split; [done|]. by apply rtc_once.
  - rewrite lookup_insert_ne by done. intros Hx. by exists x.
Qed.

Lemma updates_delete m id : updates m (delete id m).
Proof.
  intros i x. destruct (decide (i = id)) as [->|Hne]; [by rewrite lookup_delete_eq|].
  rewrite lookup_delete_ne by done. intros Hx. by exists x.
Qed.

Lemma updates_fmap (p : Row → bool) f m :
  (∀ r, p r = true → row_step r (f r)) → updates m ((λ r, if p r then f r else r) <$> m).
Proof.
  intros Hf id r'. rewrite lookup_fmap, fmap_Some. intros (r & Hr & ->). exists r. split; [done|].
  destruct (p r) eqn:E; [by apply rtc_once, Hf|done].
Qed.

Lemma inserts_trans m1 m2 m3 : inserts m1 m2 → inserts m2 m3 → m1 ⊆ m2 → inserts m1 m3.
Proof.
  intros H12 H23 Hsub id r H3. destruct (H23 _ _ H3) as [H2|[Hn Hf]]; [by apply H12|].
  right. split; [|done]. destruct (m1 !! id) eqn:E; [|done].
  by rewrite (lookup_weaken _ _ _ _ E Hsub) in Hn.
Qed.

Lemma row_step_id r r' : row_step r r' → e_id (row_env r') = e_id (row_env r).
Proof. destruct 1; reflexivity. Qed.

Lemma row_steps_id r r' : rtc row_step r r' → e_id (row_env r') = e_id (row_env r).
Proof. induction 1 as [|r1 r2 r3 H _ IH]; [done|]. by rewrite IH, (row_step_id _ _ H). Qed.

Lemma row_steps_ok r r' : rtc row_step r r' → row_ok r → row_ok r'.
Proof. induction 1 as [|r1 r2 r3 H _ IH]; [done|]. intros Hr. by apply IH, (row_step_ok _ _ H). Qed.

Lemma updates_keyed m m' : updates m m' → keyed m → keyed m'.
Proof.
  intros Hu Hk id r' Hr'. destruct (Hu _ _ Hr') as (r & Hr & Hs).
  by rewrite (row_steps_id _ _ Hs), (Hk _ _ Hr).
Qed.

Lemma fresh_row_id id r : fresh_row id r → e_id (row_env r) = id.
Proof. by intros (now & e & key & -> & <- & _). Qed.

Lemma new_row_state now e key : row_state (new_row now e key) ∈ ["pending"; "scheduled"; "available"].
Proof. unfold new_row. cbn [row_state]. repeat case_match; set_solver. Qed.

Lemma fresh_row_ok id r : fresh_row id r → row_ok r.
Proof.
  intros (now & e & key & -> & _ & Hc).
  pose proof (new_row_state now e key) as Hs.
  assert (row_state (new_row now e key) ≠ "running") as Hn.
  { intros E. rewrite E in Hs. set_solver. }
  constructor; [|done|split; intros H; [done|by destruct H]..|done|done|simpl; lia].
  unfold JOB_STATES. set_solver.
Qed.

(** ** Statements *)

Definition jobs_ok (m : gmap string Row) : Prop :=
  keyed m ∧ ∀ id r, m !! id = Some r → row_ok r.

Lemma updates_jobs_ok m m' : updates m m' → jobs_ok m → jobs_ok m'.
Proof.
  intros Hu [Hk Hok]. split; [by eapply updates_keyed|]. intros id r' Hr'.
  destruct (Hu _ _ Hr') as (r & Hr & Hs). by eapply row_steps_ok, Hok.
Qed.

Lemma inserts_jobs_ok m m' : inserts m m' → jobs_ok m → jobs_ok m'.
Proof.
  intros Hi [Hk Hok]. split; intros id r Hr; destruct (Hi _ _ Hr) as [H|[_ Hf]]; eauto using fresh_row_id, fresh_row_ok.
Qed.

Lemma update_job_spec id p f d d' :
  update_job id p f d = Some d' →
  ∃ r, sq_job d !! id = Some r ∧ p r = true ∧ d' = d <| sq_job := <[id := f r]> (sq_job d) |>.
Proof. unfold update_job. repeat case_match; intros [= <-]; eauto. Qed.

Lemma update_job_updates id p f d d' :
  update_job id p f d = Some d' →
  (∀ r, sq_job d !! id = Some r → p r = true → row_step r (f r)) →
  updates (sq_job d) (sq_job d').
Proof. intros (r & Hr & Hp & ->)%update_job_spec Hf. simpl. eauto using sq_updates_insert. Qed.

Lemma default_update_updates id p f d :
  (∀ r, sq_job d !! id = Some r → p r = true → row_step r (f r)) →
  updates (sq_job d) (sq_job (default d (update_job id p f d))).
Proof.
  intros Hf. destruct (update_job id p f d) as [d'|] eqn:E; [|apply sq_updates_refl].
  by eapply update_job_updates.
Qed.

Lemma delete_row_spec id p d d' :
  delete_row id p d = Some d' →
  ∃ r, sq_job d !! id = Some r ∧ p r = true ∧ d' = d <| sq_job := delete id (sq_job d) |>.
Proof. unfold delete_row. repeat case_match; intros [= <-]; eauto. Qed.

Lemma delete_row_updates id p d d' :
  delete_row id p d = Some d' → updates (sq_job d) (sq_job d').
Proof. intros (r & Hr & Hp & ->)%delete_row_spec. apply updates_delete. Qed.

Lemma delete_all_updates ids m : updates m (foldl (λ m id, delete id m) m ids).
Proof.
  revert m. induction ids as [|id ids IH]; intros m; simpl; [apply sq_updates_refl|].
  etrans; [apply updates_delete|apply IH].
Qed.

(** [SELECT .. ORDER BY .. LIMIT]: the rows selected are rows of the table that qualify, and
    no id is selected twice. *)
Lemma elem_of_rows r (m : gmap string Row) :
  r ∈ (map_to_list m).*2 ↔ ∃ id, m !! id = Some r.
Proof.
  rewrite list_elem_of_fmap. split.
  - intros ([id x] & -> & H). exists id. by apply elem_of_map_to_list.
  - intros (id & H). exists (id, r). split; [done|]. by apply elem_of_map_to_list.
Qed.

Lemma elem_of_listfilter {A} (p : A → bool) x l : x ∈ List.filter p l ↔ p x = true ∧ x ∈ l.
Proof. rewrite !list_elem_of_In, filter_In. tauto. Qed.

Lemma rows_NoDup (m : gmap string Row) :
  keyed m → NoDup ((λ r, e_id (row_env r)) <$> (map_to_list m).*2).
Proof.
  intros Hk. assert ((λ r, e_id (row_env r)) <$> (map_to_list m).*2 = (map_to_list m).*1) as ->.
  { rewrite <-list_fmap_compose. apply list_fmap_ext. intros i [id r] Hx. simpl.
    apply list_elem_of_lookup_2, elem_of_map_to_list in Hx. by apply Hk. }
  apply NoDup_fst_map_to_list.
Qed.

Lemma listfilter_sublist {A} (p : A → bool) l : List.filter p l `sublist_of` l.
Proof. induction l as [|x l IH]; simpl; [done|]. case_match; by constructor. Qed.

Lemma select_NoDup p (le : relation Row) `{∀ a b, Decision (le a b)} n (m : gmap string Row) :
  keyed m →
  NoDup ((λ r, e_id (row_env r)) <$> take n (merge_sort le (List.filter p (map_to_list m).*2))).
Proof.
  intros Hk. eapply sublist_NoDup; [|apply fmap_sublist, sublist_take].
  rewrite merge_sort_Permutation. eapply sublist_NoDup; [by apply rows_NoDup|].
  apply fmap_sublist, listfilter_sublist.
Qed.

Lemma elem_of_select p (le : relation Row) `{∀ a b, Decision (le a b)} n (m : gmap string Row) r :
  keyed m → r ∈ take n (merge_sort le (List.filter p (map_to_list m).*2)) →
  p r = true ∧ m !! e_id (row_env r) = Some r.
Proof.
  intros Hk Hr. pose proof (elem_of_sublist _ _ _ Hr (sublist_take _ n)) as Hi.
  rewrite merge_sort_Permutation, elem_of_listfilter in Hi. destruct Hi as [Hp (id & Hid)%elem_of_rows].
  split; [done|]. by rewrite (Hk _ _ Hid).
Qed.

Lemma select_ids_spec p (le : relation Row) `{∀ a b, Decision (le a b)} limit d :
  keyed (sq_job d) →
  NoDup (select_ids p le limit d)
  ∧ ∀ id, id ∈ select_ids p le limit d → ∃ r, sq_job d !! id = Some r ∧ p r = true.
Proof.
  intros Hk. split; [by apply select_NoDup|]. intros id (r & -> & Hr)%list_elem_of_fmap.
  apply elem_of_select in Hr as [? ?]; eauto.
Qed.

(** [UPDATE .. WHERE id IN (..)] touches each selected row once and no other. *)
Lemma alter_all_lookup f ids (m : gmap string Row) id :
  NoDup ids →
  foldl (λ m id, alter f id m) m ids !! id = (if bool_decide (id ∈ ids) then f <$> m !! id else m !! id).
Proof.
  revert m. induction ids as [|i ids IH]; intros m Hnd; simpl; [done|].
  apply NoDup_cons in Hnd as [Hi Hnd]. rewrite IH by done.
  destruct (decide (id = i)) as [->|Hne].
  - rewrite bool_decide_eq_false_2, bool_decide_eq_true_2 by set_solver. by rewrite lookup_alter_eq.
  - rewrite lookup_alter_ne by done. by rewrite (bool_decide_ext (id ∈ i :: ids) (id ∈ ids)) by set_solver.
Qed.

Lemma alter_jobs_job f ids d : sq_job (alter_jobs f ids d) = foldl (λ m id, alter f id m) (sq_job d) ids.
Proof. reflexivity. Qed.

Lemma alter_selected_updates p (le : relation Row) `{∀ a b, Decision (le a b)} limit f d :
  keyed (sq_job d) → (∀ r, p r = true → row_step r (f r)) →
  updates (sq_job d) (sq_job (alter_jobs f (select_ids p le limit d) d)).
Proof.
  intros Hk Hf. destruct (select_ids_spec p le limit d Hk) as [Hnd Hsel].
  intros id r'. rewrite alter_jobs_job, alter_all_lookup by done.
  case_bool_decide as Hin.
  - destruct (Hsel _ Hin) as (r & Hr & Hp). rewrite Hr. intros [= <-]. exists r. split; [done|].
    by apply rtc_once, Hf.
  - intros Hr. by exists r'.
Qed.

(** ** Every operation *)

Lemma leased_running l r : leased l r = true → row_state r = "running".
Proof. unfold leased. rewrite !andb_true_iff. by intros [[?%String.eqb_eq _] _]. Qed.

Lemma reconcile_job c rc aw now d : sq_job (reconcile_actual_weight c rc aw now d) = sq_job d.
Proof. unfold reconcile_actual_weight. by case_match. Qed.

Lemma bump_counters_job now (q : list (string * Z)) d :
  sq_job (foldl (λ d qn, bump_counter qn.1 now qn.2 0 d) d q) = sq_job d.
Proof. revert d. induction q as [|x q IH]; intros d; simpl; [done|]. by rewrite IH. Qed.

(** *** enqueue *)

Lemma check_batch_ok cf ord now now' batch bu pending d d' res :
  check_batch cf ord now now' batch bu pending d = (d', Ok res) → d' = d.
Proof.
  revert bu pending. induction batch as [|e batch IH]; intros bu pending; simpl; [by intros [= ->]|].
  repeat case_match; try done; by apply IH.
Qed.

Lemma rewrite_holder_updates cf states f id d :
  (∀ r, state_in states r = true → row_checks (f r) = true → row_step r (f r)) →
  updates (sq_job d) (sq_job (rewrite_holder cf states f id d).1).
Proof.
  intros Hf. unfold rewrite_holder. repeat case_match; try apply sq_updates_refl.
  by eapply sq_updates_insert; [|apply Hf].
Qed.

Lemma duplicate_row_updates cf now' e id d :
  updates (sq_job d) (sq_job (duplicate_row cf now' e id d).1).
Proof.
  unfold duplicate_row. repeat case_match; try apply sq_updates_refl.
  - apply rewrite_holder_updates. apply rs_debounce.
  - apply rewrite_holder_updates. apply rs_replace.
Qed.

Lemma check_batch_updates cf ord now now' batch bu pending d :
  updates (sq_job d) (sq_job (check_batch cf ord now now' batch bu pending d).1).
Proof.
  revert bu pending. induction batch as [|e batch IH]; intros bu pending; simpl; [apply sq_updates_refl|].
  repeat case_match; try apply sq_updates_refl; try apply IH.
  all: match goal with H : duplicate_row _ _ _ ?id _ = _ |- _ =>
    pose proof (duplicate_row_updates cf now' e id d) as Hu; by rewrite H in Hu end.
Qed.

Lemma insert_row_spec cf r d d' :
  insert_row cf r d = Ok d' →
  row_checks r = true ∧ sq_job d !! e_id (row_env r) = None
  ∧ d' = d <| sq_job := <[e_id (row_env r) := r]> (sq_job d) |>.
Proof.
  unfold insert_row. case_match eqn:E; [|done]. intros [= <-].
  apply andb_true_iff in E as [? E]. by apply bool_decide_eq_true in E.
Qed.

Lemma insert_rows_spec cf now pending d :
  inserts (sq_job d) (sq_job (insert_rows cf now pending d).1)
  ∧ sq_job d ⊆ sq_job (insert_rows cf now pending d).1.
Proof.
  revert d. induction pending as [|[e key] pending IH]; intros d; cbn [insert_rows]; [by split; [left|]|].
  destruct (insert_row cf (new_row now e key) d) as [d'|] eqn:E; [|by split; [left|]].
  apply insert_row_spec in E as (Hc & Hn & Ed). destruct (IH d') as [Hi Hs].
  assert (sq_job d' = <[e_id (row_env (new_row now e key)) := new_row now e key]> (sq_job d)) as Ej
    by by rewrite Ed.
  rewrite Ej in *.
  assert (sq_job d ⊆ <[e_id (row_env (new_row now e key)) := new_row now e key]> (sq_job d)) as Hsub
    by by apply insert_subseteq.
  split; [|by etrans]. eapply inserts_trans; [|done|done]. intros id r.
  rewrite lookup_insert_Some. intros [[<- <-]|[_ Hr]]; [|by left]. right. split; [done|].
  by exists now, e, key.
Qed.

Lemma enqueue_on_cases cf ord now now' batch d :
  updates (sq_job d) (sq_job (enqueue_on cf ord now now' batch d).1)
  ∨ inserts (sq_job d) (sq_job (enqueue_on cf ord now now' batch d).1)
    ∧ sq_job d ⊆ sq_job (enqueue_on cf ord now now' batch d).1.
Proof.
  unfold enqueue_on. pose proof (check_batch_updates cf ord now now' batch ∅ [] d) as Hu.
  destruct (check_batch cf ord now now' batch ∅ [] d) as [d1 [pending|e]] eqn:E; [|by left].
  apply check_batch_ok in E as ->. case_match; [|by left].
  right. pose proof (insert_rows_spec cf now pending d) as Hi.
  destruct (insert_rows cf now pending d) as [d2 [?|?]]; [|done].
  cbn [fst]. rewrite bump_counters_job. exact Hi.
Qed.

(** *** admit *)

Lemma load_policies_job queues d acc : sq_job (load_policies queues d acc).1 = sq_job d.
Proof. revert d acc. induction queues as [|q qs IH]; intros d acc; simpl; [done|]. by rewrite IH. Qed.

Lemma claim_row_updates req now ms queue limited job a :
  updates (sq_job (as_db a)) (sq_job (as_db (claim_row req now ms queue limited job a))).
Proof.
  unfold claim_row. case_match eqn:E; [|apply sq_updates_refl].
  eapply update_job_updates; [exact E|]. intros r _ Ha. apply rs_lease; [done|].
  case_match; [apply wrap_u32_nonneg|done].
Qed.

Lemma saturated_updates req now ms queue max strategy job a :
  updates (sq_job (as_db a)) (sq_job (as_db (saturated req now ms queue max strategy job a))).
Proof.
  unfold saturated. case_match.
  - etrans; [|apply claim_row_updates]. apply sq_updates_refl.
  - destruct strategy.
    + apply sq_updates_refl.
    + refine (default_update_updates _ _ _ (as_db a) _). intros r _ Ha. apply rs_saturated; auto.
    + destruct (victim _ _ _); [|apply sq_updates_refl]. etrans; [|apply claim_row_updates].
      refine (default_update_updates _ _ _ (as_db a) _). intros r _ Hr%String.eqb_eq. by apply rs_victim.
    + refine (default_update_updates _ _ _ (as_db a) _). intros r _ Ha. apply rs_saturated; auto.
Qed.

Lemma admit_turn_updates req now ms limits a a' :
  admit_turn req now ms limits a = Some a' → updates (sq_job (as_db a)) (sq_job (as_db a')).
Proof.
  unfold admit_turn. intros (queue & _ & H)%bind_Some. case_match; [done|]. injection H as <-.
  case_match; [apply sq_updates_refl|]. case_match.
  - case_match. etrans; [|apply saturated_updates]. apply sq_updates_refl.
  - etrans; [|apply claim_row_updates]. apply sq_updates_refl.
Qed.

Lemma admit_turns_updates fuel req now ms limits a :
  updates (sq_job (as_db a)) (sq_job (as_db (admit_turns fuel req now ms limits a))).
Proof.
  revert a. induction fuel as [|fuel IH]; intros a; simpl; [apply sq_updates_refl|].
  case_match; [apply sq_updates_refl|]. case_match eqn:E; [|apply sq_updates_refl].
  etrans; [by eapply admit_turn_updates|apply IH].
Qed.

Lemma cancel_expired_updates now d : updates (sq_job d) (sq_job (cancel_expired now d)).
Proof. refine (updates_fmap _ _ (sq_job d) _). intros r. apply rs_expire. Qed.

Lemma admit_updates now req d : updates (sq_job d) (sq_job (sqlite_admit now req d).1).
Proof.
  unfold sqlite_admit. destruct (normalize_admit_request req) as [[req' ms]|]; [|apply sq_updates_refl].
  case_if; [apply sq_updates_refl|].
  match goal with |- context [load_policies ?q ?x ∅] => pose proof (load_policies_job q x ∅) as Hl;
    destruct (load_policies q x ∅) as [d1 policies] eqn:El end.
  cbn [fst] in Hl. pose proof (cancel_expired_updates now d) as Hc. rewrite <-Hl in Hc.
  case_if; [done|]. destruct (load_limits _ ∅) as [limits|]; [|apply sq_updates_refl].
  etrans; [exact Hc|]. exact (admit_turns_updates _ _ _ _ _ (mkAdmitState d1 _ _ _ _ _ _)).
Qed.

(** *** ack, completion and the fenced writes *)

Lemma select_leased_spec l d r :
  select_leased l d = Some r ↔ sq_job d !! lr_job_id l = Some r ∧ leased l r = true.
Proof.
  unfold select_leased. destruct (sq_job d !! lr_job_id l) as [x|]; [|by split; [|intros [? _]]].
  destruct (leased l x) eqn:E; split; [by intros [= <-]|by intros [-> _]|done|intros [[= <-] ?]; congruence].
Qed.

Lemma sq_ack_updates o now l outcome err delay logs aw d :
  updates (sq_job d) (sq_job (sqlite_ack o now l outcome err delay logs aw d).1).
Proof.
  unfold sqlite_ack. case_match eqn:Ev; [|apply sq_updates_refl].
  destruct (select_leased l d) as [job|] eqn:Ej; [|apply sq_updates_refl].
  apply select_leased_spec in Ej as [Hj Hl].
  set (d1 := match aw with Some _ => _ | None => _ end).
  assert (sq_job d1 = sq_job d) as E1 by (subst d1; destruct aw; [apply reconcile_job|done]).
  assert (outcome ≠ Outcome.LeaseLost) as Hne by (by intros ->).
  destruct (settle_row o now outcome err delay logs (scan_env job)) as [s|] eqn:Es.
  - case_match eqn:Eu; [|apply sq_updates_refl].
    rewrite <-E1. etrans; [eapply (update_job_updates _ _ _ _ _ Eu)|by case_match].
    intros r Hr _. rewrite E1, Hj in Hr. injection Hr as <-.
    eapply rs_settle; [by eapply leased_running|done|exact Es].
  - case_match eqn:Eu; [|apply sq_updates_refl].
    rewrite <-E1. etrans; [by eapply (delete_row_updates _ _ _ _ Eu)|by case_match].
Qed.

Lemma complete_leased_updates now l aw finish d :
  (∀ r, sq_job d !! lr_job_id l = Some r → row_state r = "running" → row_step r (finish r)) →
  updates (sq_job d) (sq_job (complete_leased now l aw finish d).1).
Proof.
  intros Hf. unfold complete_leased.
  destruct (select_leased l d) as [job|] eqn:Ej; [|apply sq_updates_refl].
  set (d1 := match aw with Some _ => _ | None => _ end).
  assert (sq_job d1 = sq_job d) as E1 by (subst d1; destruct aw; [apply reconcile_job|done]).
  match goal with |- context [match ?x with Some _ => _ | None => _ end] => destruct x as [d2|] eqn:Eu end;
    [|apply sq_updates_refl].
  change (updates (sq_job d) (sq_job d2)). rewrite <-E1 in Hf |- *.
  case_if_in Eu; [by eapply delete_row_updates|]. eapply update_job_updates; [exact Eu|].
  intros r Hr Hl%leased_running. by apply Hf.
Qed.

Lemma fenced_updates l f d d' :
  update_job (lr_job_id l) (leased l) f d = Some d' →
  (∀ r, row_state r = "running" → row_step r (f r)) → updates (sq_job d) (sq_job d').
Proof.
  intros Hu Hf. eapply update_job_updates; [exact Hu|]. intros r _ Hl%leased_running. by apply Hf.
Qed.

Lemma renew_rows_updates expires leases d lost :
  updates (sq_job d) (sq_job (renew_rows expires leases d lost).1).
Proof.
  revert d lost. induction leases as [|l leases IH]; intros d lost; cbn [renew_rows]; [apply sq_updates_refl|].
  destruct (update_job _ _ _ d) as [d'|] eqn:E; [|apply IH].
  etrans; [eapply fenced_updates; [exact E|]|apply IH]. intros r. apply rs_renew.
Qed.

Lemma checkpoint_updates l cp d : updates (sq_job d) (sq_job (sqlite_checkpoint l cp d).1).
Proof.
  unfold sqlite_checkpoint. case_match eqn:E; [|apply sq_updates_refl].
  eapply fenced_updates; [exact E|]. intros r. apply rs_checkpoint.
Qed.

Lemma validate_opaque_positive subject v :
  validate_opaque_value subject v = Ok tt → 0 ≤ r_schema_version v → 0 < r_schema_version v.
Proof.
  unfold validate_opaque_value, validate_opaque_schema. intros H ?. destruct (Z.eqb_spec (r_schema_version v) 0); [done|lia].
Qed.

Lemma write_output_updates now l out d :
  0 ≤ r_schema_version out → updates (sq_job d) (sq_job (sqlite_write_output now l out d).1).
Proof.
  intros Hv. unfold sqlite_write_output.
  destruct (validate_opaque_value "output" out) as [[]|] eqn:Eo; [|apply sq_updates_refl].
  destruct (update_job _ _ _ d) as [d'|] eqn:E; [|apply sq_updates_refl].
  assert (updates (sq_job d) (sq_job d')) as Hu.
  { eapply fenced_updates; [exact E|]. intros r Hr. apply rs_output; [done|]. by eapply validate_opaque_positive. }
  by case_match.
Qed.

Lemma write_progress_updates now l p d : updates (sq_job d) (sq_job (sqlite_write_progress now l p d).1).
Proof.
  unfold sqlite_write_progress. case_match; [|apply sq_updates_refl].
  destruct (update_job _ _ _ d) as [d'|] eqn:E; [|apply sq_updates_refl].
  assert (updates (sq_job d) (sq_job d')) as Hu.
  { eapply fenced_updates; [exact E|]. intros r. apply rs_progress. }
  by case_match.
Qed.

(** *** Sweeps *)

Lemma reclaim_row_updates o now job d : updates (sq_job d) (sq_job (reclaim_row o now job d).1).
Proof.
  unfold reclaim_row. rewrite (surjective_pairing (crash_row o now job)). cbn [fst].
  etrans; [refine (default_update_updates (e_id (scan_env job)) (λ r, String.eqb (row_state r) "running")
    (λ r, (crash_row o now r).1) d _); intros r _ Hr%String.eqb_eq; by apply rs_crash|].
  case_if; apply sq_updates_refl.
Qed.

Lemma reclaim_rows_updates o now victims d out :
  updates (sq_job d) (sq_job (reclaim_rows o now victims d out).1).
Proof.
  revert d out. induction victims as [|job victims IH]; intros d out; cbn [reclaim_rows]; [apply sq_updates_refl|].
  pose proof (reclaim_row_updates o now job d) as Hu.
  destruct (reclaim_row o now job d) as [d' rec]. etrans; [exact Hu|apply IH].
Qed.

Lemma reclaim_updates o now limit d : updates (sq_job d) (sq_job (sqlite_reclaim o now limit d).1).
Proof.
  unfold sqlite_reclaim. case_if; [apply sq_updates_refl|].
  match goal with |- context [reclaim_rows o now ?v d []] =>
    pose proof (reclaim_rows_updates o now v d []) as Hu; by destruct (reclaim_rows o now v d []) end.
Qed.

Lemma simple_updates now id from to d :
  (∀ r, state_in from r = true → row_step r (operator_row now to r)) →
  updates (sq_job d) (sq_job (simple_transition now id from to d).1).
Proof.
  intros Hf. unfold simple_transition. destruct (update_job _ _ _ d) eqn:E; [|apply sq_updates_refl].
  eapply update_job_updates; [exact E|]. intros r _. apply Hf.
Qed.

Lemma update_or_updates error id p f d :
  (∀ r, p r = true → row_step r (f r)) → updates (sq_job d) (sq_job (update_or error id p f d).1).
Proof.
  intros Hf. unfold update_or. destruct (update_job _ _ _ d) eqn:E; [|apply sq_updates_refl].
  eapply update_job_updates; [exact E|]. intros r _. apply Hf.
Qed.

Lemma edit_updates id payload v fp d :
  0 ≤ v → updates (sq_job d) (sq_job (sqlite_edit_payload id payload v fp d).1).
Proof.
  intros Hv. unfold sqlite_edit_payload. case_if; [apply sq_updates_refl|]. bool_hyps.
  apply update_or_updates. intros r Hr. apply rs_edit; [done|lia].
Qed.

Lemma release_updates now fp d : updates (sq_job d) (sq_job (sqlite_quarantine_release now fp d).1).
Proof.
  unfold sqlite_quarantine_release. case_if; [apply sq_updates_refl|].
  refine (updates_fmap _ _ (sq_job d) _). intros r Hq.
  apply rs_release. unfold quarantined_as in Hq. by bool_hyps.
Qed.

Lemma bulk_updates now action selector batch d :
  keyed (sq_job d) →
  updates (sq_job d) (sq_job (bulk_apply now action (select_ids (selected action selector) id_le batch d) d)).
Proof.
  intros Hk. unfold bulk_apply.
  destruct (String.eqb_spec action "delete") as [->|_]; [apply delete_all_updates|].
  destruct (String.eqb_spec action "cancel") as [->|_]; [|destruct (String.eqb_spec action "retry") as [->|_]];
    [..|apply sq_updates_refl]; apply alter_selected_updates; try done; intros r Hs;
    unfold selected in Hs; rewrite !andb_true_iff in Hs; destruct Hs as [[[[[Hs _] _] _] _] _].
  - by apply rs_bulk_cancel.
  - by apply rs_bulk_retry.
Qed.

Lemma operations_updates now batch d :
  keyed (sq_job d) → updates (sq_job d) (sq_job (run_pending_operations now batch d).1).
Proof.
  intros Hk. unfold run_pending_operations. case_if; [apply sq_updates_refl|].
  destruct (head _) as [[id op]|]; [|apply sq_updates_refl].
  destruct (op_dry_run op); [apply sq_updates_refl|]. by apply bulk_updates.
Qed.

(** *** All operations *)

Definition is_enqueue (op : sq_op) : bool :=
  match op with SqEnqueue _ _ _ _ | SqEnqueueTx _ _ _ _ => true | _ => false end.

(** Arguments of unsigned and 64-bit type are in range. *)
Definition sq_typed (op : sq_op) : Prop :=
  match op with
  | SqEdit _ _ v _ => 0 ≤ v
  | SqWeight _ w => 0 ≤ w
  | SqRateClass _ cfg => rcc_burst cfg ≤ i64_max
  | SqLimit cfg => 0 ≤ cl_max_concurrent cfg
  | SqEnqueueLimit _ (Some v) => 0 ≤ v
  | SqAckResult _ _ _ _ v | SqOutput _ _ v => 0 ≤ r_schema_version v
  | _ => True
  end.

Ltac keeps_jobs := repeat case_match; simplify_eq; apply sq_updates_refl.

Lemma sample_memory_jobs ord limit d : sq_job (sqlite_sample_memory ord limit d).1 = sq_job d.
Proof.
  unfold sqlite_sample_memory. case_if; [done|]. cbn [fst].
  by apply (foldl_inv (λ x, sq_job x = sq_job d)).
Qed.

Section every_operation.
Context (cf : string) (is_json : bytes → bool) (o : SqliteOptions).
Notation run := (sq_run cf is_json o).

Lemma sq_run_updates op d :
  jobs_ok (sq_job d) → sq_typed op → is_enqueue op = false →
  updates (sq_job d) (sq_job (run op d)).
Proof.
  intros [Hk Hok] Ht He.
  destruct op; try discriminate He; cbn [sq_run];
    eauto using admit_updates, sq_ack_updates, checkpoint_updates, write_output_updates,
      write_progress_updates, reclaim_updates, edit_updates, release_updates, operations_updates.
  - unfold sqlite_ack_with_result.
    destruct (validate_opaque_value "result" res) as [[]|] eqn:Eo; [|apply sq_updates_refl].
    apply complete_leased_updates. intros r Hr Hrun. apply rs_complete; [done| |].
    + case_bool_decide; [by eapply ro_history, Hok|apply append_attempt_length].
    + apply Z.ltb_lt. by eapply validate_opaque_positive.
  - apply complete_leased_updates. intros r Hr Hrun.
    exact (rs_complete now' aw (row_result r) (row_errors r) r Hrun (ro_history _ (Hok _ _ Hr))
             (row_ok_result _ (Hok _ _ Hr))).
  - unfold sqlite_renew. case_match; [|apply sq_updates_refl].
    match goal with |- context [renew_rows ?e leases d []] =>
      pose proof (renew_rows_updates e leases d []) as Hu; by destruct (renew_rows e leases d []) end.
  - unfold sqlite_promote. case_if; [apply sq_updates_refl|]. apply alter_selected_updates; [done|].
    intros r. apply rs_due.
  - unfold sqlite_evict. case_if; [apply sq_updates_refl|]. apply delete_all_updates.
  - unfold sqlite_claim_duty. keeps_jobs.
  - unfold sqlite_release_duty. keeps_jobs.
  - unfold claim_effect. keeps_jobs.
  - keeps_jobs.
  - unfold set_queue_weight. keeps_jobs.
  - unfold upsert_rate_class. keeps_jobs.
  - unfold upsert_concurrency_limit. keeps_jobs.
  - apply simple_updates, rs_retry.
  - apply simple_updates, rs_cancel.
  - apply simple_updates, rs_promote.
  - apply update_or_updates. intros r. apply rs_schedule.
  - apply update_or_updates. intros r. apply rs_reschedule.
  - unfold sqlite_delete_job. case_match eqn:E; [|apply sq_updates_refl]. by eapply delete_row_updates.
  - unfold sqlite_quarantine_sweep. case_if; [apply sq_updates_refl|]. apply alter_selected_updates; [done|].
    intros r Hs. unfold sweepable in Hs. apply andb_true_iff in Hs as [Hs _]. by apply rs_sweep.
  - unfold upsert_schedule. keeps_jobs.
  - unfold delete_schedule. keeps_jobs.
  - unfold sqlite_advance_schedule. keeps_jobs.
  - unfold sqlite_record_schedule_event. keeps_jobs.
  - unfold sqlite_append_event. keeps_jobs.
  - unfold sqlite_heartbeat. keeps_jobs.
  - unfold sqlite_signal. keeps_jobs.
  - unfold create_operation, insert_operation. keeps_jobs.
  - unfold delete_queue, insert_operation. keeps_jobs.
  - unfold set_enqueue_limit. keeps_jobs.
  - rewrite sample_memory_jobs. apply sq_updates_refl.
Qed.

Lemma sq_run_enqueue op d :
  is_enqueue op = true →
  updates (sq_job d) (sq_job (run op d))
  ∨ inserts (sq_job d) (sq_job (run op d)) ∧ sq_job d ⊆ sq_job (run op d).
Proof.
  destruct op; try discriminate; intros _; cbn [sq_run].
  - unfold sqlite_enqueue. case_if; [by left|]. destruct (validate_enqueue batch); [|by left].
    pose proof (enqueue_on_cases cf ord now now' batch d) as Hc.
    destruct (enqueue_on cf ord now now' batch d) as [d' [u|e]]; [done|].
    cbn [fst] in *. case_match; try (by left). by case_match; [|left].
  - unfold enqueue_tx. destruct (validate_enqueue batch); [|by left]. apply enqueue_on_cases.
Qed.

Lemma sq_run_jobs_ok op d : jobs_ok (sq_job d) → sq_typed op → jobs_ok (sq_job (run op d)).
Proof.
  intros Hok Ht. destruct (is_enqueue op) eqn:E.
  - destruct (sq_run_enqueue op d E) as [Hu|[Hi _]]; eauto using updates_jobs_ok, inserts_jobs_ok.
  - eauto using updates_jobs_ok, sq_run_updates.
Qed.
End every_operation.

(** ** Leases *)

(** Fences never decrease, and a row that runs under the fence it had before has been running
    under the same lease, with the envelope that was claimed. *)
Record row_evolves (r r' : Row) : Prop := {
  re_fence : row_fence r ≤ row_fence r';
  re_lease : row_state r' = "running" → row_fence r' = row_fence r →
    row_state r = "running" ∧ row_lease_id r' = row_lease_id r ∧ row_env r' = row_env r;
}.

#[export] Instance row_evolves_preorder : PreOrder row_evolves.
Proof.
  split.
  - intros r. by constructor.
  - intros r1 r2 r3 [F1 L1] [F2 L2]. constructor; [lia|]. intros Hr Hf.
    destruct (L2 Hr ltac:(lia)) as (Hr2 & Hl2 & He2). destruct (L1 Hr2 ltac:(lia)) as (Hr1 & Hl1 & He1).
    split_and!; congruence.
Qed.

Lemma stops_evolves r r' :
  row_fence r ≤ row_fence r' → row_state r' ≠ "running" → row_evolves r r'.
Proof. by constructor. Qed.

Lemma claims_evolves r r' : row_fence r < row_fence r' → row_evolves r r'.
Proof. constructor; lia. Qed.

Lemma writes_evolves r r' :
  row_fence r' = row_fence r → row_state r' = row_state r → row_lease_id r' = row_lease_id r →
  row_env r' = row_env r → row_evolves r r'.
Proof. intros Hf Hs Hl He. constructor; [lia|]. intros Hr _. by rewrite <-Hs. Qed.

Lemma row_step_evolves r r' : row_step r r' → row_evolves r r'.
Proof.
  destruct 1.
  all: first
    [ apply writes_evolves; reflexivity
    | apply claims_evolves; apply Z.lt_succ_diag_r
    | apply stops_evolves; [apply Z.le_refl|solve_row]
    | idtac ].
  all: apply stops_evolves; [apply Z.le_refl|].
  - change (row_state r ≠ "running"). leaves_running.
  - by destruct_or! H0; subst.
  - by apply settled_states in H1 as (_ & H1 & _).
  - change ((if so_crash_limit o <=? u32_add (e_crash_attempt (scan_env r)) 1
             then "quarantined" else "retryable") ≠ "running"). by case_match.
  - change (row_state r ≠ "running"). leaves_running.
  - unfold not_running in H. by apply negb_true_iff, String.eqb_neq in H.
Qed.

Lemma row_steps_evolve r r' : rtc row_step r r' → row_evolves r r'.
Proof. induction 1 as [|r1 r2 r3 H _ IH]; [done|]. etrans; [by apply row_step_evolves|done]. Qed.

(** The lease [l] is over: its row has a later fence, or the same fence and is not running. *)
Definition lease_over (l : LeaseRef) (d : Db) : Prop :=
  ∃ r, sq_job d !! lr_job_id l = Some r
       ∧ (wrap_i64 (lr_fence l) < row_fence r
          ∨ wrap_i64 (lr_fence l) = row_fence r ∧ row_state r ≠ "running").

Definition lease_held (l : LeaseRef) (e : Envelope) (d : Db) : Prop :=
  ∃ r, select_leased l d = Some r ∧ row_env r = e.

Lemma leased_spec l r :
  leased l r = true ↔ row_state r = "running" ∧ row_lease_id r = Some (lr_lease_id l)
                      ∧ row_fence r = wrap_i64 (lr_fence l).
Proof.
  unfold leased. rewrite !andb_true_iff, String.eqb_eq, bool_decide_eq_true, Z.eqb_eq. tauto.
Qed.

Lemma update_leased_none l f d :
  select_leased l d = None → update_job (lr_job_id l) (leased l) f d = None.
Proof.
  unfold select_leased, update_job. destruct (sq_job d !! lr_job_id l) as [x|]; [|done].
  by destruct (leased l x).
Qed.

Lemma lease_over_none l d : lease_over l d → select_leased l d = None.
Proof.
  intros (r & Hr & Hd). destruct (select_leased l d) as [x|] eqn:E; [|done].
  apply select_leased_spec in E as [Hx (Hrun & _ & Hf)%leased_spec]. rewrite Hr in Hx. simplify_eq.
  destruct Hd as [?|[_ ?]]; [lia|done].
Qed.

Section leases.
Context (cf : string) (is_json : bytes → bool) (o : SqliteOptions).

(** An operation of any client that does not delete job [id]. *)
Definition keeps_row (id : string) (d d' : Db) : Prop :=
  ∃ op, sq_typed op ∧ d' = sq_run cf is_json o op d ∧ is_Some (sq_job d' !! id).

Lemma keeps_row_evolves id d d' r :
  jobs_ok (sq_job d) → keeps_row id d d' → sq_job d !! id = Some r →
  jobs_ok (sq_job d') ∧ ∃ r', sq_job d' !! id = Some r' ∧ row_evolves r r'.
Proof.
  intros Hok (op & Ht & -> & [r' Hr']) Hr. split; [by apply sq_run_jobs_ok|].
  exists r'. split; [done|]. destruct (is_enqueue op) eqn:E.
  - destruct (sq_run_enqueue cf is_json o op d E) as [Hu|[_ Hs]].
    + destruct (Hu _ _ Hr') as (r0 & Hr0 & Hst). rewrite Hr in Hr0. simplify_eq.
      by apply row_steps_evolve.
    + rewrite (lookup_weaken _ _ _ _ Hr Hs) in Hr'. by simplify_eq.
  - destruct (sq_run_updates cf is_json o op d Hok Ht E _ _ Hr') as (r0 & Hr0 & Hst).
    rewrite Hr in Hr0. simplify_eq. by apply row_steps_evolve.
Qed.

Lemma evolves_over l d r' :
  lease_over l d → (∀ r, sq_job d !! lr_job_id l = Some r → row_evolves r r') →
  wrap_i64 (lr_fence l) < row_fence r'
  ∨ wrap_i64 (lr_fence l) = row_fence r' ∧ row_state r' ≠ "running".
Proof.
  intros (r & Hr & Hd) He. destruct (He _ Hr) as [Hf Hl].
  destruct (decide (wrap_i64 (lr_fence l) < row_fence r')); [by left|right].
  destruct Hd as [?|[E Hn]]; [lia|]. split; [lia|]. intros Hr'. by destruct (Hl Hr' ltac:(lia)).
Qed.

Lemma sq_lease_over_run l d d' :
  jobs_ok (sq_job d) → rtc (keeps_row (lr_job_id l)) d d' → lease_over l d → lease_over l d'.
Proof.
  intros Hok Hr. revert Hok. induction Hr as [|d1 d2 d3 Hstep _ IH]; [done|]. intros Hok Ho.
  pose proof Ho as (r & Hl & _).
  destruct (keeps_row_evolves _ _ _ _ Hok Hstep Hl) as (Hok2 & r' & Hr' & He).
  apply IH; [done|]. exists r'. split; [done|]. eapply evolves_over; [exact Ho|].
  intros x Hx. rewrite Hl in Hx. by simplify_eq.
Qed.

Lemma sq_lease_held_run l e d d' :
  jobs_ok (sq_job d) → rtc (keeps_row (lr_job_id l)) d d' → lease_held l e d ∨ lease_over l d →
  jobs_ok (sq_job d') ∧ (lease_held l e d' ∨ lease_over l d').
Proof.
  intros Hok Hr. revert Hok. induction Hr as [|d1 d2 d3 Hstep _ IH]; [done|]. intros Hok [Hh|Ho].
  - destruct Hh as (r & [Hl Hle]%select_leased_spec & He).
    destruct (keeps_row_evolves _ _ _ _ Hok Hstep Hl) as (Hok2 & r' & Hr' & [Hf Hc]).
    apply IH; [done|]. apply leased_spec in Hle as (Hrun & Hid & Hfe).
    destruct (decide (row_fence r' = row_fence r ∧ row_state r' = "running")) as [[E1 E2]|Hn].
    + destruct (Hc E2 E1) as (_ & Hid' & He'). left. exists r'. split; [|congruence].
      apply select_leased_spec. split; [done|]. apply leased_spec. split_and!; congruence.
    + right. exists r'. split; [done|]. destruct (decide (row_fence r' = row_fence r)); [right|left; lia].
      split; [lia|]. naive_solver.
  - pose proof Ho as (r & Hl & _).
    destruct (keeps_row_evolves _ _ _ _ Hok Hstep Hl) as (Hok2 & _).
    apply IH; [done|]. right. apply (sq_lease_over_run l d1 d2); [done|by apply rtc_once|done].
Qed.

(** C3.  A lease is exclusive and final in the embedded store.  Take a lease that some row holds
    and any sequence of operations of any clients - workers, sweeps, producers, operators - that
    does not delete the job.  Either the row still holds the lease, with the envelope it was
    claimed with, or the lease is over: no later sequence of operations revives it, and every
    acknowledgement, completion, checkpoint, output and progress report made with it is refused
    and leaves the database as it was. *)
Theorem sqlite_lease_is_exclusive_and_final l r d d1 :
  jobs_ok (sq_job d) → select_leased l d = Some r → rtc (keeps_row (lr_job_id l)) d d1 →
  (∃ r1, select_leased l d1 = Some r1 ∧ row_env r1 = row_env r)
  ∨ ∀ d2, rtc (keeps_row (lr_job_id l)) d1 d2 →
      (∀ now outcome err delay logs aw, validate_ack_request outcome delay = Ok tt →
         sqlite_ack o now l outcome err delay logs aw d2 = (d2, Err (StoreError.LeaseRejected (lr_job_id l))))
      ∧ (∀ now now' aw, complete_tx now now' l aw d2 = (d2, Err (StoreError.LeaseRejected (lr_job_id l))))
      ∧ (∀ cp, sqlite_checkpoint l cp d2 = (d2, Err (StoreError.LeaseRejected (lr_job_id l))))
      ∧ (∀ now out, validate_opaque_value "output" out = Ok tt →
           sqlite_write_output now l out d2 = (d2, Err (StoreError.LeaseRejected (lr_job_id l))))
      ∧ (∀ now u, validate_progress u = Ok tt →
           sqlite_write_progress now l u d2 = (d2, Err (StoreError.LeaseRejected (lr_job_id l)))).
Proof.
  intros Hok Hl Hr.
  destruct (sq_lease_held_run l (row_env r) d d1 Hok Hr) as [Hok1 [Hh|Ho]]; [left; by exists r|by left|].
  right. intros d2 Hr2. apply (sq_lease_over_run l d1 d2 Hok1 Hr2), lease_over_none in Ho.
  assert (∀ f, update_job (lr_job_id l) (leased l) f d2 = None) as Hn
    by (intros f; by apply update_leased_none).
  split_and!.
  - intros now outcome err delay logs aw Hv. unfold sqlite_ack. by rewrite Hv, Ho.
  - intros. unfold complete_tx, complete_leased. by rewrite Ho.
  - intros. unfold sqlite_checkpoint. by rewrite Hn.
  - intros now out Hv. unfold sqlite_write_output. by rewrite Hv, Hn.
  - intros now u Hv. unfold sqlite_write_progress. by rewrite Hv, Hn.
Qed.
End leases.

(** ** Settlement and the transition table *)

(** What the table of headgate-core reads of a row. *)
Definition row_ctx (o : SqliteOptions) (r : Row) : TransitionCtx :=
  let e := scan_env r in
  mkCtx (e_attempt e) (e_max_attempts e) (e_crash_attempt e) (so_crash_limit o) (e_retention_ms e).

Lemma settle_row_table o now outcome err delay logs r :
  row_ok r → outcome ≠ Outcome.LeaseLost →
  match settle_row o now outcome err delay logs (scan_env r) with
  | Some s => st_state s = state_name (transition State.Running outcome (row_ctx o r))
              ∧ transition State.Running outcome (row_ctx o r) ≠ State.Deleted
              ∧ st_attempt s = (if decide (outcome = Outcome.Retry) then u32_add (e_attempt (scan_env r)) 1
                                else e_attempt (scan_env r))
  | None => transition State.Running outcome (row_ctx o r) = State.Deleted
  end.
Proof.
  intros Hok Hne. assert (0 ≤ e_retention_ms (scan_env r)) as Hret.
  { pose proof (ro_checks _ Hok) as Hc. apply row_checks_spec in Hc. change (0 ≤ e_retention_ms (row_env r)). lia. }
  unfold settle_row, transition, row_ctx. cbn [Lifecycle.attempt max_attempts retention_ms].
  destruct outcome; try done; repeat case_match; simplify_eq; bool_hyps; try (exfalso; lia); try done; by split.
Qed.

Lemma crash_row_table o now r :
  row_state (crash_row o now r).1 = state_name (transition State.Running Outcome.LeaseLost (row_ctx o r)).
Proof.
  change (row_state (crash_row o now r).1)
    with (if so_crash_limit o <=? u32_add (e_crash_attempt (scan_env r)) 1 then "quarantined" else "retryable").
  unfold transition, row_ctx. cbn [crash_attempt crash_limit].
  rewrite Z.leb_antisym. by destruct (_ <? _).
Qed.

(** The other tables a settlement may change. *)
Definition others_unchanged (id : string) (d d' : Db) : Prop :=
  (∀ i, i ≠ id → sq_job d' !! i = sq_job d !! i)
  ∧ sq_quarantine d' = sq_quarantine d ∧ sq_queue d' = sq_queue d ∧ sq_limit d' = sq_limit d.

Lemma reconcile_others c rc aw now d :
  let d' := reconcile_actual_weight c rc aw now d in
  sq_quarantine d' = sq_quarantine d ∧ sq_queue d' = sq_queue d ∧ sq_limit d' = sq_limit d.
Proof. unfold reconcile_actual_weight. by case_match. Qed.

(** The writes of a settlement, with or without the counter. *)
Section settlement.
Context (id : string) (d d1 : Db) (m : gmap string Row) (b : bool) (q : string) (now : Z).
Let d2 : Db := d1 <| sq_job := m |>.
Let d3 : Db := if b then bump_counter q now 0 1 d2 else d2.

Lemma settled_job : sq_job d3 = m.
Proof. subst d3 d2. by destruct b. Qed.

Lemma settled_others :
  sq_quarantine d1 = sq_quarantine d ∧ sq_queue d1 = sq_queue d ∧ sq_limit d1 = sq_limit d →
  (∀ i, i ≠ id → m !! i = sq_job d !! i) → others_unchanged id d d3.
Proof.
  intros (H1 & H2 & H3) Hm. subst d3 d2. unfold others_unchanged. by destruct b.
Qed.
End settlement.

(** C4.  An acknowledgement is accepted exactly when the request is valid and the row holds the
    lease; otherwise the database is unchanged and the error says which.  An accepted one moves
    the row to the state the transition table of headgate-core gives - or deletes it when that
    is [Deleted] -, clears the lease, keeps the fence, consumes an attempt only for a retry, and
    touches no other job. *)
Theorem sqlite_ack_follows_transition_table o now l outcome err delay logs aw d :
  jobs_ok (sq_job d) →
  match validate_ack_request outcome delay, select_leased l d with
  | Err e, _ => sqlite_ack o now l outcome err delay logs aw d = (d, Err e)
  | Ok _, None =>
      sqlite_ack o now l outcome err delay logs aw d = (d, Err (StoreError.LeaseRejected (lr_job_id l)))
  | Ok _, Some r =>
      ∃ d', sqlite_ack o now l outcome err delay logs aw d = (d', Ok tt)
        ∧ others_unchanged (lr_job_id l) d d'
        ∧ let s := transition State.Running outcome (row_ctx o r) in
          if decide (s = State.Deleted) then sq_job d' !! lr_job_id l = None
          else ∃ r', sq_job d' !! lr_job_id l = Some r' ∧ row_state r' = state_name s
                 ∧ row_lease_id r' = None ∧ row_fence r' = row_fence r
                 ∧ e_attempt (row_env r') = (if decide (outcome = Outcome.Retry)
                      then u32_add (e_attempt (scan_env r)) 1 else e_attempt (scan_env r))
                 ∧ e_crash_attempt (row_env r') = e_crash_attempt (row_env r)
  end.
Proof.
  intros [_ Hok]. unfold sqlite_ack. destruct (validate_ack_request outcome delay) as [u|e] eqn:Ev; [|done].
  destruct (select_leased l d) as [job|] eqn:Ej; [|done].
  apply select_leased_spec in Ej as [Hj Hl].
  assert (outcome ≠ Outcome.LeaseLost) as Hne by (by intros ->).
  pose proof (settle_row_table o now outcome err delay logs job (Hok _ _ Hj) Hne) as Ht.
  set (d1 := match aw with Some _ => _ | None => _ end).
  assert (sq_job d1 = sq_job d) as E1 by (subst d1; destruct aw; [apply reconcile_job|done]).
  assert (sq_quarantine d1 = sq_quarantine d ∧ sq_queue d1 = sq_queue d ∧ sq_limit d1 = sq_limit d) as Er
    by (subst d1; destruct aw; [apply reconcile_others|done]).
  destruct (settle_row o now outcome err delay logs (scan_env job)) as [s|].
  - destruct Ht as (Hs & Hnd & Hat). unfold update_job. rewrite E1, Hj, Hl.
    eexists. split; [reflexivity|]. rewrite settled_job.
    split; [apply settled_others; [done|]; intros i Hi; by apply lookup_insert_ne|].
    cbv zeta. rewrite decide_False by done. eexists. split; [apply lookup_insert_eq|].
    rewrite <-Hs, <-Hat. repeat split.
  - unfold delete_row. rewrite E1, Hj, Hl. eexists. split; [reflexivity|].
    rewrite settled_job. split; [apply settled_others; [done|]; intros i Hi; by apply lookup_delete_ne|].
    cbv zeta. rewrite decide_True by done. apply lookup_delete_eq.
Qed.

(** ** Reclaiming expired leases *)

(** The rows a sweep takes: the first [limit] in the order of their expiry. *)
Definition expired_rows (now limit : Z) (d : Db) : list Row :=
  take (Z.to_nat limit) (merge_sort expiry_le (List.filter (lease_expired now) (map_to_list (sq_job d)).*2)).

Definition reclaim_report (o : SqliteOptions) (r : Row) : Reclaimed :=
  let crash := u32_add (e_crash_attempt (scan_env r)) 1 in
  mkReclaimed (e_id (row_env r)) (e_fingerprint (row_env r)) crash (so_crash_limit o <=? crash).

Lemma reclaim_row_spec o now r d :
  sq_job d !! e_id (row_env r) = Some r → row_state r = "running" →
  let d' := (reclaim_row o now r d).1 in
  sq_job d' = <[e_id (row_env r) := (crash_row o now r).1]> (sq_job d)
  ∧ dom (sq_quarantine d') = (if rc_quarantined (reclaim_report o r) then {[e_fingerprint (row_env r)]} else ∅)
                              ∪ dom (sq_quarantine d)
  ∧ (reclaim_row o now r d).2 = reclaim_report o r.
Proof.
  intros Hr Hrun. unfold reclaim_row. rewrite (surjective_pairing (crash_row o now r)). cbn [fst snd].
  assert (update_job (e_id (scan_env r)) (λ r, String.eqb (row_state r) "running") (λ r, (crash_row o now r).1) d
          = Some (d <| sq_job := <[e_id (row_env r) := (crash_row o now r).1]> (sq_job d) |>)) as ->.
  { unfold update_job. change (e_id (scan_env r)) with (e_id (row_env r)). rewrite Hr. by rewrite Hrun. }
  change ((crash_row o now r).2) with (rc_quarantined (reclaim_report o r)).
  cbn [default]. destruct (rc_quarantined (reclaim_report o r)) eqn:E.
  - split_and!; [reflexivity| |].
    + apply dom_insert_L.
    + rewrite <-E. reflexivity.
  - split_and!; [reflexivity|symmetry; exact (left_id_L ∅ (∪) _)|]. rewrite <-E. reflexivity.
Qed.

Lemma reclaim_rows_spec o now victims d out :
  NoDup ((λ r, e_id (row_env r)) <$> victims) →
  (∀ r, r ∈ victims → sq_job d !! e_id (row_env r) = Some r ∧ row_state r = "running") →
  let res := reclaim_rows o now victims d out in
  res.2 = out ++ (reclaim_report o <$> victims)
  ∧ (∀ r, r ∈ victims → sq_job res.1 !! e_id (row_env r) = Some (crash_row o now r).1)
  ∧ (∀ id, id ∉ (λ r, e_id (row_env r)) <$> victims → sq_job res.1 !! id = sq_job d !! id)
  ∧ dom (sq_quarantine d) ⊆ dom (sq_quarantine res.1)
  ∧ (∀ r, r ∈ victims → rc_quarantined (reclaim_report o r) = true →
       e_fingerprint (row_env r) ∈ dom (sq_quarantine res.1)).
Proof.
  revert d out. induction victims as [|r victims IH]; intros d out Hnd Hv; cbn [reclaim_rows].
  { rewrite app_nil_r. split_and!; set_solver. }
  cbn [fmap list_fmap] in Hnd. apply NoDup_cons in Hnd as [Hnew Hnd].
  destruct (Hv r ltac:(set_solver)) as [Hr Hrun].
  destruct (reclaim_row_spec o now r d Hr Hrun) as (Ej & Eq & Er).
  destruct (reclaim_row o now r d) as [d' rec]. cbn [fst snd] in *. subst rec.
  assert (∀ x, x ∈ victims → e_id (row_env x) ≠ e_id (row_env r)) as Hdiff.
  { intros x Hx E. apply Hnew, list_elem_of_fmap. by exists x. }
  destruct (IH d' (out ++ [reclaim_report o r]) Hnd) as (I1 & I2 & I3 & I4 & I5).
  { intros x Hx. destruct (Hv x ltac:(set_solver)) as [Hx1 Hx2]. split; [|done].
    rewrite Ej, lookup_insert_ne by (symmetry; by apply Hdiff). done. }
  split_and!.
  - rewrite I1, <-app_assoc. reflexivity.
  - intros x [->|Hx]%elem_of_cons; [|by apply I2]. rewrite I3 by done. rewrite Ej. apply lookup_insert_eq.
  - intros id Hid. cbn [fmap list_fmap] in Hid. apply not_elem_of_cons in Hid as [Hne Hid].
    rewrite I3 by done. rewrite Ej. by apply lookup_insert_ne.
  - set_solver.
  - intros x [->|Hx]%elem_of_cons Hq; [|by apply I5]. rewrite Hq in Eq. set_solver.
Qed.

(** A row that qualifies is left out of a selection only when the selection is full. *)
Lemma select_complete p (le : relation Row) `{∀ a b, Decision (le a b)} n (m : gmap string Row) id r :
  m !! id = Some r → p r = true →
  r ∉ take n (merge_sort le (List.filter p (map_to_list m).*2)) →
  length (take n (merge_sort le (List.filter p (map_to_list m).*2))) = n.
Proof.
  intros Hr Hp Hn. rewrite length_take.
  destruct (decide (n ≤ length (merge_sort le (List.filter p (map_to_list m).*2)))%nat); [lia|].
  destruct Hn. rewrite take_ge by lia. rewrite merge_sort_Permutation. apply elem_of_listfilter.
  split; [done|]. apply elem_of_rows. by exists id.
Qed.

(** C12.  A sweep of expired leases takes the rows whose lease has run out, the earliest expiry
    first and at most [limit] of them; it charges each exactly one crash, moves it to the state
    the transition table gives for a lost lease, clears its lease, quarantines the fingerprints
    of the poisoned ones, reports each once, and changes no other row. *)
Theorem sqlite_reclaim_exact o now limit d :
  jobs_ok (sq_job d) → 0 < limit →
  let victims := expired_rows now limit d in
  let d' := (sqlite_reclaim o now limit d).1 in
  (sqlite_reclaim o now limit d).2 = Ok (reclaim_report o <$> victims)
  ∧ Z.of_nat (length victims) ≤ limit
  ∧ (∀ r, r ∈ victims →
       lease_expired now r = true ∧ sq_job d !! e_id (row_env r) = Some r
       ∧ ∃ r', sq_job d' !! e_id (row_env r) = Some r'
           ∧ row_state r' = state_name (transition State.Running Outcome.LeaseLost (row_ctx o r))
           ∧ e_crash_attempt (row_env r') = u32_add (e_crash_attempt (scan_env r)) 1
           ∧ row_lease_id r' = None ∧ row_fence r' = row_fence r
           ∧ (row_state r' = "quarantined" → is_Some (sq_quarantine d' !! e_fingerprint (row_env r))))
  ∧ (∀ id r, sq_job d !! id = Some r → r ∉ victims →
       sq_job d' !! id = Some r
       ∧ (lease_expired now r = true → Z.of_nat (length victims) = limit)).
Proof.
  intros [Hk Hok] Hl victims d'. unfold sqlite_reclaim in *.
  destruct (Z.leb_spec limit 0); [lia|]. fold (expired_rows now limit d) in *. fold victims in d' |- *.
  assert (∀ r, r ∈ victims → lease_expired now r = true ∧ sq_job d !! e_id (row_env r) = Some r) as Hv
    by (intros r; by apply elem_of_select).
  pose proof (select_NoDup (lease_expired now) expiry_le (Z.to_nat limit) (sq_job d) Hk) as Hnd.
  fold (expired_rows now limit d) in Hnd. fold victims in Hnd.
  destruct (reclaim_rows_spec o now victims d [] Hnd) as (R1 & R2 & R3 & R4 & R5).
  { intros r Hr. destruct (Hv r Hr) as [He ?]. split; [done|]. unfold lease_expired in He. by bool_hyps. }
  destruct (reclaim_rows o now victims d []) as [d2 out]. cbn [fst snd app] in *. subst d' out.
  split_and!; [done| | |].
  - subst victims. unfold expired_rows. rewrite length_take. lia.
  - intros r Hr. destruct (Hv r Hr) as [He Hj]. split_and!; [done|done|]. eexists. split; [by apply R2|].
    rewrite crash_row_table. split_and!; [done|reflexivity..|].
    intros Hq. apply elem_of_dom, R5; [done|]. rewrite <-crash_row_table with (now := now) in Hq.
    change ((if rc_quarantined (reclaim_report o r) then "quarantined" else "retryable") = "quarantined") in Hq.
    by case_match.
  - intros id r Hr Hn. split.
    + rewrite R3; [done|]. intros (x & -> & Hx)%list_elem_of_fmap. destruct (Hv x Hx) as [_ Hj].
      rewrite Hr in Hj. by simplify_eq.
    + intros He. subst victims. unfold expired_rows in *.
      erewrite select_complete; [lia|exact Hr|exact He|exact Hn].
Qed.

(** ** Witnesses *)

Definition sq_demo_env (id queue part : string) : Envelope :=
  default_envelope <| e_id := id |> <| e_kind := "mail" |> <| e_queue := queue |>
    <| e_partition_key := part |> <| e_fingerprint := id |> <| e_weight := 2 |>
    <| e_rate_class := "smtp" |> <| e_max_attempts := 3 |>.

Definition sq_demo_request : AdmitRequest :=
  mkAdmitRequest "w1" "lease-1" ["mail"] 2 30000000000 1.

Definition sq_demo_run : sq_op → Db → Db := sq_run "constraint" (λ _, true) default_options.

(** Two jobs of one partition are stored; an admission claims both. *)
Definition sq_demo_stored : Db :=
  sq_demo_run (SqEnqueue [] 1000 1000 [sq_demo_env "a" "mail" "x"; sq_demo_env "b" "mail" "x"]) empty_db.
Definition sq_demo_admitted : Db := sq_demo_run (SqAdmit 2000 sq_demo_request) sq_demo_stored.
Definition sq_demo_lease : LeaseRef := mkLeaseRef "a" "lease-1" 1.
Definition sq_demo_acked : Db :=
  sq_demo_run (SqAck 3000 sq_demo_lease Outcome.Retry (Some "boom") None [] None) sq_demo_admitted.

Lemma empty_jobs_ok : jobs_ok (sq_job empty_db).
Proof. split; intros id r Hr; change ((∅ : gmap string Row) !! id = Some r) in Hr; by apply lookup_empty_Some in Hr. Qed.

Lemma sq_demo_stored_ok : jobs_ok (sq_job sq_demo_stored).
Proof. by apply sq_run_jobs_ok; [apply empty_jobs_ok|]. Qed.

Lemma sq_demo_admitted_ok : jobs_ok (sq_job sq_demo_admitted).
Proof. by apply sq_run_jobs_ok; [apply sq_demo_stored_ok|]. Qed.

Lemma sq_demo_leased : is_Some (select_leased sq_demo_lease sq_demo_admitted).
Proof. vm_compute. eexists. reflexivity. Qed.

Lemma sqlite_lease_is_exclusive_and_final_witness :
  is_Some (select_leased sq_demo_lease sq_demo_admitted)
  ∧ sqlite_checkpoint sq_demo_lease default_checkpoint sq_demo_acked
    = (sq_demo_acked, Err (StoreError.LeaseRejected "a")).
Proof.
  destruct sq_demo_leased as [r E]. split; [by exists r|].
  destruct (sqlite_lease_is_exclusive_and_final "constraint" (λ _, true) default_options sq_demo_lease r
    sq_demo_admitted sq_demo_acked sq_demo_admitted_ok E) as [(r1 & H & _)|H].
  - apply rtc_once. exists (SqAck 3000 sq_demo_lease Outcome.Retry (Some "boom") None [] None).
    split; [exact I|]. split; [reflexivity|]. vm_compute. eexists. reflexivity.
  - exfalso. vm_compute in H. discriminate H.
  - by destruct (H _ (rtc_refl _ _)) as (_ & _ & Hc & _).
Defined.

Lemma sqlite_ack_follows_transition_table_witness :
  ∃ d', sqlite_ack default_options 3000 sq_demo_lease Outcome.Retry (Some "boom") None [] None sq_demo_admitted
        = (d', Ok tt) ∧ row_state <$> sq_job d' !! "a" = Some "retryable".
Proof.
  pose proof (sqlite_ack_follows_transition_table default_options 3000 sq_demo_lease Outcome.Retry (Some "boom")
    None [] None sq_demo_admitted sq_demo_admitted_ok) as H.
  destruct sq_demo_leased as [r E]. rewrite E in H. change (validate_ack_request Outcome.Retry None) with (@Ok unit StoreError.StoreError tt) in H.
  destruct H as (d' & Ha & _). exists d'. split; [exact Ha|].
  assert (d' = (sqlite_ack default_options 3000 sq_demo_lease Outcome.Retry (Some "boom") None [] None
    sq_demo_admitted).1) as -> by by rewrite Ha.
  vm_compute. reflexivity.
Defined.

Lemma sqlite_reclaim_exact_witness :
  length (expired_rows 40000 1 sq_demo_admitted) = 1%nat
  ∧ (sqlite_reclaim default_options 40000 1 sq_demo_admitted).2
    = Ok (reclaim_report default_options <$> expired_rows 40000 1 sq_demo_admitted).
Proof.
  split; [by vm_compute|].
  apply (sqlite_reclaim_exact default_options 40000 1 sq_demo_admitted sq_demo_admitted_ok). lia.
Defined.
