(* ===== verification/SqliteAdmit.v ===== *)
(** * Admission in the SQLite store

    The loop of [admit] keeps four books - the token buckets, the running counts per partition,
    the dispatch counts and the remaining candidates - beside the rows it updates.  The books
    stay exact throughout, so an admission never claims more than its capacity, never overdraws
    a rate class, never raises a partition above its concurrency limit, and claims eligible
    rows only. *)

From S2P Require Import Prelude Shared Lifecycle Envelope MemStore MemInv Core Coordinator Scheduler Attempt Worker Pool Sqlite SqliteInspect SqliteRows SqliteSpec.
Local Open Scope Z_scope.

(** ** Counting rows *)

Definition b2z (b : bool) : Z := if b then 1 else 0.

Definition count_in (p : Row → bool) (m : gmap string Row) : Z :=
  Z.of_nat (length (List.filter p (map_to_list m).*2)).

Lemma filter_length_perm {A} (p : A → bool) l1 l2 :
  l1 ≡ₚ l2 → length (List.filter p l1) = length (List.filter p l2).
Proof.
  induction 1 as [|x l1 l2 _ IH|x y l|l1 l2 l3 _ IH1 _ IH2]; simpl; [done| | |congruence].
  - by case_match; simpl; rewrite IH.
  - by repeat case_match.
Qed.

Lemma count_in_take p id r (m : gmap string Row) :
  m !! id = Some r → count_in p m = b2z (p r) + count_in p (delete id m).
Proof.
  intros Hr. unfold count_in, b2z.
  rewrite <-(filter_length_perm p _ _ (fmap_Permutation snd _ _ (map_to_list_delete m id r Hr))).
  cbn [fmap list_fmap List.filter snd]. destruct (p r); cbn [length]; lia.
Qed.

Lemma count_in_insert p id r r' (m : gmap string Row) :
  m !! id = Some r → count_in p (<[id := r']> m) = count_in p m - b2z (p r) + b2z (p r').
Proof.
  intros Hr. rewrite (count_in_take p id r' (<[id := r']> m)) by apply lookup_insert_eq.
  rewrite (count_in_take p id r m) by done. rewrite delete_insert_eq. lia.
Qed.

Lemma count_in_bound p (m : gmap string Row) : 0 ≤ count_in p m ≤ Z.of_nat (size m).
Proof.
  unfold count_in. pose proof (sublist_length _ _ (listfilter_sublist p (map_to_list m).*2)) as H.
  rewrite length_fmap in H. rewrite <-(length_map_to_list m). lia.
Qed.

Lemma update_job_count p id q f d d' r :
  update_job id q f d = Some d' → sq_job d !! id = Some r →
  count_jobs p d' = count_jobs p d - b2z (p r) + b2z (p (f r)).
Proof. intros (x & Hx & _ & ->)%update_job_spec Hr. simplify_eq. by apply (count_in_insert p id x). Qed.

Lemma running_in_spec q p r :
  running_in q p r = true ↔
  e_queue (row_env r) = q ∧ e_partition_key (row_env r) = p ∧ row_state r = "running".
Proof. unfold running_in. rewrite !andb_true_iff, !String.eqb_eq. tauto. Qed.

(** ** The weight claimed of a rate class *)

Definition charge (n : string) (c : Claim) : Z :=
  if String.eqb (e_rate_class (c_envelope c)) n then e_weight (c_envelope c) else 0.
Definition spent (n : string) (claims : list Claim) : Z := foldr (λ c acc, charge n c + acc) 0 claims.

Lemma spent_app n cs c : spent n (cs ++ [c]) = spent n cs + charge n c.
Proof. unfold spent. induction cs as [|x cs IH]; simpl; [lia|]. rewrite IH. lia. Qed.

(** The turns take candidates only where they pop them. *)
Lemma claim_row_queues req now ms queue limited job a :
  as_queues (claim_row req now ms queue limited job a) = as_queues a.
Proof. unfold claim_row. by case_match. Qed.

Lemma saturated_queues req now ms queue max s job a :
  as_queues (saturated req now ms queue max s job a) = as_queues a.
Proof.
  unfold saturated. case_if; [by rewrite claim_row_queues|]. destruct s; try reflexivity.
  destruct (victim _ _ _); [by rewrite claim_row_queues|reflexivity].
Qed.

(** The candidates that are left. *)
Definition remaining (queues : gmap string (list Row)) : nat := length (concat (map_to_list queues).*2).

Lemma remaining_take q l (queues : gmap string (list Row)) :
  queues !! q = Some l → remaining queues = (length l + remaining (delete q queues))%nat.
Proof.
  intros Hq. unfold remaining.
  assert (concat (map_to_list queues).*2 ≡ₚ l ++ concat (map_to_list (delete q queues)).*2) as ->.
  { rewrite <-(map_to_list_delete queues q l Hq). done. }
  by rewrite length_app.
Qed.

Lemma sq_remaining_insert q l l' (queues : gmap string (list Row)) :
  queues !! q = Some l → (remaining (<[q := l']> queues) + length l = remaining queues + length l')%nat.
Proof.
  intros Hq. rewrite (remaining_take q l' (<[q := l']> queues)) by apply lookup_insert_eq.
  rewrite (remaining_take q l queues) by done. rewrite delete_insert_eq. lia.
Qed.

(** ** The books *)

Section loop.
Context (req : AdmitRequest) (now lease_ms : Z) (d1 : Db) (policies : gmap string QueuePolicy).
Context (buckets0 : gmap string Bucket).
Context (limits : gmap string (Z * SaturationStrategy.SaturationStrategy)) (jobs : list Row).
Hypothesis jobs_in : ∀ r, r ∈ jobs → sq_job d1 !! e_id (row_env r) = Some r.
Hypothesis rows_keyed : keyed (sq_job d1).
Hypothesis rows_fit : Z.of_nat (size (sq_job d1)) ≤ i64_max.
Hypothesis limits_fit : ∀ q max s, limits !! q = Some (max, s) → max ≤ i64_max.
Hypothesis tokens_fit : ∀ n b, buckets0 !! n = Some b → bk_tokens b ≤ i64_max.

(** The rows are those of [d1], their envelopes unchanged, and the running counts respect the
    limits. *)
Record rows_book (m : gmap string Row) (inflight : gmap (string * string) Z) : Prop := {
  rb_rows : ∀ id r, m !! id = Some r → ∃ r0, sq_job d1 !! id = Some r0 ∧ row_env r = row_env r0;
  rb_inflight : ∀ q p n, inflight !! (q, p) = Some n →
    n = count_in (running_in q p) m ∧ is_Some (limits !! q);
  rb_limit : ∀ q p max s, limits !! q = Some (max, s) →
    count_in (running_in q p) m ≤ Z.max max (count_in (running_in q p) (sq_job d1));
}.

Record money_book (buckets : gmap string Bucket) (claims : list Claim) : Prop := {
  mb_buckets : ∀ n, buckets !! n
    = (λ b, b <| bk_tokens := bk_tokens b - spent n claims |>) <$> buckets0 !! n;
  mb_spent : ∀ n b, buckets0 !! n = Some b →
    spent n claims = 0 ∨ bk_paused b = false ∧ 0 ≤ spent n claims ≤ bk_tokens b;
}.

(** A claim is made of a candidate whose queue is not paused. *)
Definition claim_of_candidate (c : Claim) : Prop :=
  ∃ r, r ∈ jobs ∧ c_envelope c = scan_env r ∧ c_lease_id c = ar_lease_id req
       ∧ is_Some (policies !! e_queue (row_env r)).

Definition queues_book (queues : gmap string (list Row)) : Prop :=
  ∀ q l r, queues !! q = Some l → r ∈ l → r ∈ jobs ∧ e_queue (row_env r) = q ∧ is_Some (policies !! q).

Record books (a : AdmitState) : Prop := {
  ab_rows : rows_book (sq_job (as_db a)) (as_inflight a);
  ab_money : money_book (as_buckets a) (as_claims a);
  ab_queues : queues_book (as_queues a);
  ab_claims : ∀ c, c ∈ as_claims a → claim_of_candidate c;
  ab_decisions : Z.of_nat (length (as_claims a)) ≤ as_decisions a;
}.

Lemma rows_book_count m infl p : rows_book m infl → count_in p m ≤ i64_max.
Proof.
  intros [Hr _ _]. pose proof (count_in_bound p m). enough (size m ≤ size (sq_job d1))%nat by lia.
  rewrite <-!size_dom. apply subseteq_size. intros id Hid%elem_of_dom. destruct Hid as [r Hid].
  destruct (Hr _ _ Hid) as (r0 & H0 & _). by apply elem_of_dom.
Qed.

Definition is_running (r : Row) : bool := String.eqb (row_state r) "running".

Lemma running_in_same r r' q p :
  row_env r' = row_env r → running_in q p r' =
    bool_decide ((q, p) = (e_queue (row_env r), e_partition_key (row_env r))) && is_running r'.
Proof.
  intros He. unfold running_in, is_running. rewrite He. case_bool_decide as E.
  - injection E as -> ->. by rewrite !String.eqb_refl.
  - destruct (String.eqb_spec (e_queue (row_env r)) q) as [<-|]; [|done].
    destruct (String.eqb_spec (e_partition_key (row_env r)) p) as [<-|]; [|done]. by destruct E.
Qed.

(** Rewriting one row without its envelope changes the count of its own partition only. *)
Lemma count_rewrite m id r r' q p :
  m !! id = Some r → row_env r' = row_env r →
  count_in (running_in q p) (<[id := r']> m)
  = count_in (running_in q p) m
    + (if bool_decide ((q, p) = (e_queue (row_env r), e_partition_key (row_env r)))
       then b2z (is_running r') - b2z (is_running r) else 0).
Proof.
  intros Hr He. rewrite (count_in_insert _ id r) by done.
  rewrite (running_in_same r r' q p He), (running_in_same r r q p eq_refl).
  case_bool_decide; simpl; lia.
Qed.

Lemma rows_book_rewrite m infl infl' id r r' :
  rows_book m infl → m !! id = Some r → row_env r' = row_env r →
  let q0 := e_queue (row_env r) in let p0 := e_partition_key (row_env r) in
  let c := count_in (running_in q0 p0) m + (b2z (is_running r') - b2z (is_running r)) in
  (∀ max s, limits !! q0 = Some (max, s) → c ≤ Z.max max (count_in (running_in q0 p0) (sq_job d1))) →
  (∀ q p n, infl' !! (q, p) = Some n →
     if bool_decide ((q, p) = (q0, p0)) then n = c ∧ is_Some (limits !! q0) else infl !! (q, p) = Some n) →
  rows_book (<[id := r']> m) infl'.
Proof.
  intros [Hrows Hinf Hlim] Hr He q0 p0 c Hc Hinf'. subst q0 p0 c. constructor.
  - intros i x. rewrite lookup_insert_Some. intros [[<- <-]|[_ Hx]]; [|by apply Hrows].
    rewrite He. by apply Hrows.
  - intros q p n Hn. specialize (Hinf' _ _ _ Hn). rewrite (count_rewrite m id r) by done.
    case_bool_decide as E.
    + injection E as -> ->. destruct Hinf' as [-> ?]. by split.
    + destruct (Hinf _ _ _ Hinf') as [-> ?]. split; [lia|done].
  - intros q p max s Hl. rewrite (count_rewrite m id r) by done. case_bool_decide as E.
    + injection E as -> ->. by apply (Hc max s).
    + specialize (Hlim q p max s Hl). lia.
Qed.

(** A rewrite that neither starts nor stops a run. *)
Lemma rows_book_still m infl id r r' :
  rows_book m infl → m !! id = Some r → row_env r' = row_env r → is_running r' = is_running r →
  rows_book (<[id := r']> m) infl.
Proof.
  intros Hb Hr He Es. eapply rows_book_rewrite; [exact Hb|exact Hr|exact He|..]; cbv zeta; rewrite Es.
  - intros max s Hl. pose proof (rb_limit _ _ Hb _ (e_partition_key (row_env r)) _ _ Hl). lia.
  - intros q p n Hn. case_bool_decide as E; [|done]. injection E as -> ->.
    destruct (rb_inflight _ _ Hb _ _ _ Hn) as [-> ?]. split; [lia|done].
Qed.

(** Filling in the count of a limited partition. *)
Lemma rows_book_know m infl q p n :
  rows_book m infl → is_Some (limits !! q) → n = count_in (running_in q p) m →
  rows_book m (<[(q, p) := n]> infl).
Proof.
  intros [H1 H2 H3] Hl ->. constructor; [done| |done]. intros q' p' n.
  rewrite lookup_insert_Some. intros [[[= <- <-] <-]|[_ Hn]]; [done|by apply H2].
Qed.

Lemma candidate_row m infl job r :
  rows_book m infl → job ∈ jobs → m !! e_id (row_env job) = Some r → row_env r = row_env job.
Proof.
  intros Hb Hj Hr. destruct (rb_rows _ _ Hb _ _ Hr) as (r0 & H0 & He).
  rewrite (jobs_in _ Hj) in H0. by simplify_eq.
Qed.

Lemma money_claim buckets claims c b :
  money_book buckets claims → 0 ≤ e_weight (c_envelope c) →
  (∀ b, buckets !! e_rate_class (c_envelope c) = Some b →
     bk_paused b = false ∧ e_weight (c_envelope c) ≤ bk_tokens b) →
  b = alter (λ b, b <| bk_tokens := i64_sub (bk_tokens b) (e_weight (c_envelope c)) |>)
        (e_rate_class (c_envelope c)) buckets →
  money_book b (claims ++ [c]).
Proof.
  intros [Hb Hs] Hw Hok ->. set (rc := e_rate_class (c_envelope c)) in *.
  assert (∀ n, n ≠ rc → charge n c = 0) as Hother.
  { intros n Hn. unfold charge. fold rc. destruct (String.eqb_spec rc n); congruence. }
  assert (charge rc c = e_weight (c_envelope c)) as Hown by (unfold charge; fold rc; by rewrite String.eqb_refl).
  constructor; intros n; rewrite spent_app.
  - destruct (decide (n = rc)) as [->|Hn].
    + rewrite lookup_alter_eq, Hown, Hb. destruct (buckets0 !! rc) as [b0|] eqn:E0; [|done]. simpl.
      destruct (Hok _ ltac:(rewrite Hb, E0; reflexivity)) as [_ Hle].
      change (e_weight (c_envelope c) ≤ bk_tokens b0 - spent rc claims) in Hle.
      f_equal. unfold upd. simpl. f_equal. specialize (tokens_fit _ _ E0). specialize (Hs _ _ E0).
      rewrite i64_sub_id by (unfold in_i64, i64_min, i64_max in *; lia). lia.
    + rewrite lookup_alter_ne, Hother, Z.add_0_r by done. apply Hb.
  - intros b0 E0. specialize (Hs _ _ E0). destruct (decide (n = rc)) as [->|Hn].
    + destruct (Hok _ ltac:(rewrite Hb, E0; reflexivity)) as [Hp Hle].
      change (e_weight (c_envelope c) ≤ bk_tokens b0 - spent rc claims) in Hle.
      change (bk_paused b0 = false) in Hp. rewrite Hown. right. split; [done|]. lia.
    + rewrite Hother, Z.add_0_r by done. exact Hs.
Qed.

Lemma rate_open a env b :
  rate_blocked a env = false → as_buckets a !! e_rate_class env = Some b →
  bk_paused b = false ∧ e_weight env ≤ bk_tokens b.
Proof. unfold rate_blocked. intros Hb E. rewrite E in Hb. by bool_hyps. Qed.

(** What a turn may assume of the candidate it takes. *)
Record claimable (queue : string) (job : Row) (a : AdmitState) : Prop := {
  cb_job : job ∈ jobs;
  cb_queue : e_queue (row_env job) = queue;
  cb_policy : is_Some (policies !! queue);
  cb_rate : rate_blocked a (scan_env job) = false;
}.

Definition partition_count (queue : string) (job : Row) (m : gmap string Row) : Z :=
  count_in (running_in queue (e_partition_key (row_env job))) m.

(** Room for one more run of the partition, with the count in the book. *)
Definition has_room (queue : string) (job : Row) (a : AdmitState) : Prop :=
  is_Some (limits !! queue)
  ∧ as_inflight a !! (queue, e_partition_key (row_env job)) = Some (partition_count queue job (sq_job (as_db a)))
  ∧ ∀ max s, limits !! queue = Some (max, s) →
      partition_count queue job (sq_job (as_db a)) + 1 ≤ Z.max max (partition_count queue job (sq_job d1)).

Lemma room_fits queue job a :
  has_room queue job a → in_i64 (partition_count queue job (sq_job (as_db a)) + 1).
Proof.
  intros ([[max s] Hl] & _ & Hle). specialize (Hle _ _ Hl). pose proof (limits_fit _ _ _ Hl).
  pose proof (count_in_bound (running_in queue (e_partition_key (row_env job))) (sq_job d1)).
  pose proof (count_in_bound (running_in queue (e_partition_key (row_env job))) (sq_job (as_db a))).
  unfold partition_count in *. unfold in_i64, i64_min, i64_max in *. lia.
Qed.

Lemma claim_rows_book queue (limited : bool) job a d :
  rows_book (sq_job (as_db a)) (as_inflight a) → claimable queue job a →
  (if limited then has_room queue job a else limits !! queue = None) →
  update_job (e_id (scan_env job)) is_available
    (lease_row req now lease_ms
       (if bool_decide (is_Some (as_buckets a !! e_rate_class (scan_env job))) then e_weight (scan_env job) else 0))
    (as_db a) = Some d →
  rows_book (sq_job d)
    (if limited then <[(queue, e_partition_key (scan_env job)) :=
                         i64_add (default 0 (as_inflight a !! (queue, e_partition_key (scan_env job)))) 1]>
                       (as_inflight a)
     else as_inflight a).
Proof.
  intros Hb [Hj Hq _ _] Hroom (r & Hr & Hav & ->)%update_job_spec.
  change (e_id (scan_env job)) with (e_id (row_env job)) in *.
  change (e_partition_key (scan_env job)) with (e_partition_key (row_env job)).
  pose proof (candidate_row _ _ _ _ Hb Hj Hr) as He. apply String.eqb_eq in Hav.
  assert (is_running r = false) as Hnr by (unfold is_running; by rewrite Hav).
  eapply rows_book_rewrite; [exact Hb|exact Hr|reflexivity|..]; cbv zeta; rewrite Hnr, He, Hq;
    change (is_running (lease_row _ _ _ _ r)) with true; cbn [b2z].
  - intros max s Hl. destruct limited; [|congruence]. destruct Hroom as (_ & _ & Hle).
    specialize (Hle max s Hl). unfold partition_count in Hle. lia.
  - intros q p n Hn. destruct limited.
    + pose proof Hroom as (Hs & Hi & _). rewrite Hi in Hn. cbn [default] in Hn.
      apply lookup_insert_Some in Hn as [[E <-]|[Hne Hn]].
      * rewrite bool_decide_eq_true_2 by done. split; [|done].
        apply i64_add_id. by eapply room_fits.
      * rewrite bool_decide_eq_false_2 by congruence. done.
    + case_bool_decide as E; [|done]. injection E as -> ->.
      destruct (rb_inflight _ _ Hb _ _ _ Hn) as [_ [? ?]]. congruence.
Qed.

(** A turn decides at most once. *)
Definition turn_ok (a a' : AdmitState) : Prop := books a' ∧ as_decisions a' ≤ as_decisions a + 1.

Lemma claim_row_ok queue (limited : bool) job a :
  books a → claimable queue job a →
  (if limited then has_room queue job a else limits !! queue = None) →
  turn_ok a (claim_row req now lease_ms queue limited job a).
Proof.
  intros Hb Hc Hroom. unfold claim_row.
  destruct (update_job _ _ _ (as_db a)) as [d|] eqn:E; [|by split; [|lia]].
  pose proof (claim_rows_book _ _ _ _ _ (ab_rows _ Hb) Hc Hroom E) as Hrows.
  destruct Hb as [_ Hmoney Hqs Hcl Hdec]. split; [|apply Z.le_refl]. constructor.
  - exact Hrows.
  - eapply money_claim; [exact Hmoney|apply wrap_u32_nonneg| |reflexivity].
    intros b. apply rate_open, (cb_rate _ _ _ Hc).
  - exact Hqs.
  - intros c [Hin| ->%list_elem_of_singleton]%elem_of_app; [by apply Hcl|].
    exists job. split_and!; [apply (cb_job _ _ _ Hc)|reflexivity|reflexivity|].
    rewrite (cb_queue _ _ _ Hc). apply (cb_policy _ _ _ Hc).
  - change (as_claims (?x <| as_claims := ?y |>)) with y.
    rewrite length_app. cbn [length]. change (Z.of_nat (length (as_claims a) + 1) ≤ as_decisions a + 1). lia.
Qed.

Lemma books_know queue job a n :
  books a → is_Some (limits !! queue) →
  n = partition_count queue job (sq_job (as_db a)) →
  books (a <| as_inflight := <[(queue, e_partition_key (row_env job)) := n]> (as_inflight a) |>).
Proof. intros [? ? ? ? ?] Hl ->. constructor; try done. by apply rows_book_know. Qed.

(** A row that was not running and is not running afterwards. *)
Lemma books_still id p f a :
  books a → (∀ r, row_env (f r) = row_env r) → (∀ r, p r = true → is_running (f r) = is_running r) →
  books (a <| as_db := default (as_db a) (update_job id p f (as_db a)) |>).
Proof.
  intros [Hrows ? ? ? ?] He Hs. constructor; try done. cbn [default].
  destruct (update_job id p f (as_db a)) as [d|] eqn:E; [|done].
  apply update_job_spec in E as (r & Hr & Hp & ->). eapply rows_book_still; eauto.
Qed.

Lemma books_dispatch queue a : books a → turn_ok a (bump_dispatch queue a).
Proof.
  intros [? ? ? ? Hd]. split; [|apply Z.le_refl]. constructor; try done.
  change (Z.of_nat (length (as_claims a)) ≤ as_decisions a + 1). lia.
Qed.

(** The victim is a running row of the partition. *)
Lemma victim_spec queue part d v :
  keyed (sq_job d) → victim queue part d = Some v →
  ∃ r, sq_job d !! v = Some r ∧ e_queue (row_env r) = queue ∧ e_partition_key (row_env r) = part
       ∧ row_state r = "running".
Proof.
  intros Hk. unfold victim. intros (r & Hh & ->)%fmap_Some.
  apply head_Some_elem_of in Hh. rewrite merge_sort_Permutation, elem_of_listfilter in Hh.
  destruct Hh as [(Hq & Hp & Hs)%running_in_spec (id & Hid)%elem_of_rows].
  exists r. by rewrite (Hk _ _ Hid).
Qed.

Lemma rows_book_keyed m infl : rows_book m infl → keyed m.
Proof. intros Hb id r Hr. destruct (rb_rows _ _ Hb _ _ Hr) as (r0 & H0 & ->). by apply rows_keyed. Qed.

Lemma current_count queue job a :
  books a →
  match as_inflight a !! (queue, e_partition_key (row_env job)) with
  | Some n => n
  | None => count_jobs (running_in queue (e_partition_key (row_env job))) (as_db a)
  end = partition_count queue job (sq_job (as_db a)).
Proof.
  intros Hb. destruct (as_inflight a !! _) as [n|] eqn:E; [|done].
  by destruct (rb_inflight _ _ (ab_rows _ Hb) _ _ _ E) as [-> _].
Qed.

(** Cancelling the victim makes room. *)
Lemma books_cancel queue job max s a v d :
  books a → limits !! queue = Some (max, s) →
  victim queue (e_partition_key (row_env job)) (as_db a) = Some v →
  d = default (as_db a) (update_job v (λ r, String.eqb (row_state r) "running") (cancel_victim now) (as_db a)) →
  let a' := a <| as_db := d |>
              <| as_inflight := <[(queue, e_partition_key (row_env job)) :=
                   i64_sub (partition_count queue job (sq_job (as_db a))) 1]> (as_inflight a) |> in
  books a' ∧ has_room queue job a'.
Proof.
  intros Hb Hl Hv Hd a'. pose proof (ab_rows _ Hb) as Hrows.
  destruct (victim_spec _ _ _ _ (rows_book_keyed _ _ Hrows) Hv) as (r & Hr & Hq & Hp & Hs).
  unfold update_job in Hd. rewrite Hr, Hs in Hd. cbn [String.eqb default] in Hd.
  set (m := sq_job (as_db a)) in *.
  assert (sq_job d = <[v := cancel_victim now r]> m) as Em by by rewrite Hd.
  assert (is_running r = true) as Hrun by (unfold is_running; by rewrite Hs).
  assert (partition_count queue job (sq_job d) = partition_count queue job m - 1) as Ec.
  { unfold partition_count. rewrite Em, (count_rewrite m v r) by done. rewrite Hq, Hp, Hrun.
    rewrite bool_decide_eq_true_2 by done. change (is_running (cancel_victim now r)) with false.
    cbn [b2z]. lia. }
  assert (i64_sub (partition_count queue job m) 1 = partition_count queue job m - 1) as Esub.
  { apply i64_sub_id. pose proof (rows_book_count _ _ (running_in queue (e_partition_key (row_env job))) Hrows).
    pose proof (count_in_bound (running_in queue (e_partition_key (row_env job))) m).
    unfold partition_count, in_i64, i64_min, i64_max in *. lia. }
  pose proof (rb_limit _ _ Hrows _ (e_partition_key (row_env job)) _ _ Hl) as Hlim.
  fold m in Hlim. fold (partition_count queue job m) in Hlim.
  split.
  - destruct Hb as [_ ? ? ? ?]. constructor; try done.
    change (rows_book (sq_job d) (<[(queue, e_partition_key (row_env job)) :=
      i64_sub (partition_count queue job m) 1]> (as_inflight a))).
    rewrite Esub, Em. eapply rows_book_rewrite; [exact Hrows|exact Hr|reflexivity|..]; cbv zeta;
      rewrite Hq, Hp, Hrun; change (is_running (cancel_victim now r)) with false; cbn [b2z];
      fold (partition_count queue job m).
    + intros max' s' Hl'. rewrite Hl in Hl'. injection Hl' as <- <-. unfold partition_count in *. lia.
    + intros q p n Hn. apply lookup_insert_Some in Hn as [[[= <- <-] <-]|[Hne Hn]].
      * rewrite bool_decide_eq_true_2 by done. split; [lia|by eexists].
      * by rewrite bool_decide_eq_false_2 by congruence.
  - split; [by eexists|]. change (sq_job (as_db a')) with (sq_job d). rewrite Ec. split.
    + rewrite <-Esub. apply lookup_insert_eq.
    + intros max' s' Hl'. rewrite Hl in Hl'. injection Hl' as <- <-. unfold partition_count in *. lia.
Qed.

(** Dropping the incoming job. *)
Lemma books_drop queue id state a :
  books a → String.eqb state "running" = false →
  turn_ok a (bump_dispatch queue (a <| as_db := default (as_db a)
    (update_job id is_available (λ r, r <| row_state := state |> <| row_finalized_at := Some now |>)
       (as_db a)) |>)).
Proof.
  intros Hb Hs.
  assert (books (a <| as_db := default (as_db a) (update_job id is_available
    (λ r, r <| row_state := state |> <| row_finalized_at := Some now |>) (as_db a)) |>)) as Hb'.
  2: { exact (books_dispatch queue _ Hb'). }
  apply books_still; [done|done|]. intros r Ha. apply available_not_running, String.eqb_neq in Ha.
  transitivity false; [exact Hs|symmetry; exact Ha].
Qed.

Lemma saturated_ok queue max s job a :
  books a → claimable queue job a → limits !! queue = Some (max, s) →
  turn_ok a (saturated req now lease_ms queue max s job a).
Proof.
  intros Hb [Hj Hq Hp Hrate] Hl. unfold saturated.
  change (e_partition_key (scan_env job)) with (e_partition_key (row_env job)).
  rewrite current_count by done.
  set (a1 := a <| as_inflight := _ |>).
  assert (books a1) as Hb1 by (apply books_know; [done|by eexists|done]).
  assert (∀ a', as_buckets a' = as_buckets a → claimable queue job a') as Hc.
  { intros a' E. constructor; try done. unfold rate_blocked. rewrite E. exact Hrate. }
  destruct (Z.leb_spec max (partition_count queue job (sq_job (as_db a)))) as [Hfull|Hroom]; cbn [negb].
  - destruct s.
    + split; [exact Hb1|]. change (as_decisions a ≤ as_decisions a + 1). lia.
    + exact (books_drop queue (e_id (scan_env job)) "archived" a1 Hb1 eq_refl).
    + destruct (victim _ _ _) as [v|] eqn:Ev.
      * destruct (books_cancel queue job max _ a1 v _ Hb1 Hl Ev eq_refl) as [Hb2 Hr2].
        apply (claim_row_ok queue true job _ Hb2); [by apply Hc|exact Hr2].
      * split; [exact Hb1|]. change (as_decisions a ≤ as_decisions a + 1). lia.
    + exact (books_drop queue (e_id (scan_env job)) "cancelled" a1 Hb1 eq_refl).
  - apply (claim_row_ok queue true job a1 Hb1); [by apply Hc|]. split; [by eexists|].
    change (sq_job (as_db a1)) with (sq_job (as_db a)). split; [apply lookup_insert_eq|].
    intros max' s' Hl'. simplify_eq. lia.
Qed.

(** ** The loop *)

Lemma books_pop queue job rest a :
  books a → default [] (as_queues a !! queue) = job :: rest →
  books (a <| as_queues := <[queue := rest]> (as_queues a) |>).
Proof.
  intros [? ? Hq ? ?] Hj. constructor; try done. intros q l r.
  change (as_queues (?x <| as_queues := ?y |>)) with y.
  rewrite lookup_insert_Some. intros [[<- <-]|[_ Hl]] Hr; [|by eapply Hq].
  destruct (as_queues a !! queue) as [l|] eqn:E; simpl in Hj; [subst l|done].
  eapply Hq; [exact E|set_solver].
Qed.

Lemma admit_turn_ok a a' :
  books a → admit_turn req now lease_ms limits a = Some a' →
  turn_ok a a' ∧ (remaining (as_queues a') < remaining (as_queues a))%nat.
Proof.
  intros Hb Ht. unfold admit_turn in Ht. apply bind_Some in Ht as (queue & _ & Ht).
  destruct (default [] (as_queues a !! queue)) as [|job rest] eqn:Ej; [done|].
  injection Ht as <-. set (a1 := a <| as_queues := _ |>).
  pose proof (books_pop _ _ _ _ Hb Ej) as Hb1. fold a1 in Hb1.
  destruct (as_queues a !! queue) as [l|] eqn:El; simpl in Ej; [subst l|done].
  pose proof (sq_remaining_insert queue _ rest _ El) as Hrem. cbn [length] in Hrem.
  destruct (ab_queues _ Hb _ _ job El ltac:(set_solver)) as (Hj & Hq & Hp).
  destruct (rate_blocked a1 (scan_env job)) eqn:Erate.
  { split; [split; [done|]|].
    - change (as_decisions a ≤ as_decisions a + 1). lia.
    - change (remaining (<[queue := rest]> (as_queues a)) < remaining (as_queues a))%nat. lia. }
  assert (claimable queue job a1) as Hc by done.
  destruct (limits !! queue) as [[max s]|] eqn:Elim.
  - pose proof (saturated_ok _ _ _ _ _ Hb1 Hc Elim) as Hs. split; [exact Hs|].
    rewrite saturated_queues. change (remaining (<[queue := rest]> (as_queues a)) < remaining (as_queues a))%nat. lia.
  - pose proof (claim_row_ok queue false job a1 Hb1 Hc Elim) as Hs. split; [exact Hs|].
    rewrite claim_row_queues. change (remaining (<[queue := rest]> (as_queues a)) < remaining (as_queues a))%nat. lia.
Qed.

(** More fuel than candidates: the loop ends because the capacity is used up or because no
    candidate is left. *)
Lemma admit_turns_ok fuel a :
  books a → as_decisions a ≤ ar_capacity req → (remaining (as_queues a) < fuel)%nat →
  let a' := admit_turns fuel req now lease_ms limits a in
  books a' ∧ as_decisions a' ≤ ar_capacity req
  ∧ (as_decisions a' = ar_capacity req ∨ admit_turn req now lease_ms limits a' = None).
Proof.
  revert a. induction fuel as [|fuel IH]; intros a Hb Hd Hf; [lia|]. cbn [admit_turns].
  destruct (Z.leb_spec (ar_capacity req) (as_decisions a)) as [Hfull|Hmore]; [split_and!; [done|done|left; lia]|].
  destruct (admit_turn req now lease_ms limits a) as [a1|] eqn:E; [|by split_and!; [| |right]].
  destruct (admit_turn_ok _ _ Hb E) as [[Hb1 Hd1] Hr]. apply IH; [done|lia|lia].
Qed.
End loop.

(** ** Tables the loop reads *)

Definition bucket_ok (b : Bucket) : Prop :=
  1 ≤ bk_burst b ≤ i64_max ∧ 0 ≤ bk_limit b ∧ 1 ≤ bk_window b ∧ bk_tokens b ≤ bk_burst b.

(** [name] is the key and [queue] is unique; the strategy is one of the four. *)
Definition limits_ok (m : gmap string Limit) : Prop :=
  (∀ n l, m !! n = Some l → 1 ≤ li_max l ≤ i64_max ∧ ∃ s, li_on_saturated l = SaturationStrategy.as_str s)
  ∧ ∀ n1 n2 l1 l2, m !! n1 = Some l1 → m !! n2 = Some l2 → li_queue l1 = li_queue l2 → n1 = n2.

Lemma load_policies_spec queues d acc q p :
  (load_policies queues d acc).2 !! q = Some p →
  acc !! q = Some p
  ∨ q ∈ queues ∧ qs_paused (default default_queue_state (sq_queue d !! q)) = false.
Proof.
  revert d acc. induction queues as [|x queues IH]; intros d acc; cbn [load_policies]; [by left|].
  intros [Hl|[Hin Hp]]%IH.
  - case_if_in Hl; [by left|]. apply lookup_insert_Some in Hl as [[<- _]|[_ ?]]; [|by left].
    right. split; [set_solver|done].
  - right. split; [set_solver|]. change (sq_queue (?x <| sq_queue := ?y |>)) with y in Hp.
    destruct (decide (q = x)) as [->|Hne]; [by rewrite lookup_insert_eq in Hp|].
    by rewrite lookup_insert_ne in Hp.
Qed.

Lemma load_policies_frame queues d acc :
  let d' := (load_policies queues d acc).1 in
  sq_job d' = sq_job d ∧ sq_bucket d' = sq_bucket d ∧ sq_limit d' = sq_limit d
  ∧ sq_quarantine d' = sq_quarantine d.
Proof.
  revert d acc. induction queues as [|q qs IH]; intros d acc; cbn [load_policies]; [done|].
  match goal with |- context [load_policies qs ?x ?y] => exact (IH x y) end.
Qed.

Lemma load_limits_spec rows acc m :
  load_limits rows acc = Ok m → NoDup (li_queue <$> rows) →
  (∀ q x, m !! q = Some x → acc !! q = Some x ∨ ∃ l, l ∈ rows ∧ li_queue l = q ∧ li_max l = x.1
     ∧ SaturationStrategy.try_from (li_on_saturated l) = Ok x.2)
  ∧ (∀ l, l ∈ rows → ∃ s, m !! li_queue l = Some (li_max l, s)).
Proof.
  revert acc. induction rows as [|l rows IH]; intros acc; cbn [load_limits].
  { intros [= <-] _. split; [by left|set_solver]. }
  destruct (SaturationStrategy.try_from (li_on_saturated l)) as [s|] eqn:Es; [|done]. simpl.
  intros Hm [Hnew Hnd]%NoDup_cons. destruct (IH _ Hm Hnd) as [H1 H2]. split.
  - intros q x [Hx|(l' & Hl' & ? & ? & ?)]%H1; [|right; exists l'; set_solver].
    apply lookup_insert_Some in Hx as [[<- <-]|[_ ?]]; [|by left]. right. exists l.
    split_and!; [set_solver|done..].
  - intros l' [->|Hl']%elem_of_cons; [|by apply H2]. exists s.
    assert (∀ rows acc m, load_limits rows acc = Ok m → li_queue l ∉ (li_queue <$> rows) →
              m !! li_queue l = acc !! li_queue l) as Hkeep.
    { clear. induction rows as [|x rows IH]; intros acc m; cbn [load_limits]; [by intros [= <-]|].
      destruct (SaturationStrategy.try_from _); [|done]. simpl. intros Hm Hn.
      rewrite (IH _ _ Hm) by set_solver. apply lookup_insert_ne. set_solver. }
    rewrite (Hkeep _ _ _ Hm) by done. apply lookup_insert_eq.
Qed.

Lemma limits_rows_NoDup (m : gmap string Limit) :
  limits_ok m → NoDup (li_queue <$> (map_to_list m).*2).
Proof.
  intros [_ Hu]. rewrite <-list_fmap_compose. apply NoDup_fmap_2_strong; [|apply NoDup_map_to_list].
  intros [n1 l1] [n2 l2] H1%elem_of_map_to_list H2%elem_of_map_to_list E. simpl in E.
  pose proof (Hu _ _ _ _ H1 H2 E). subst. by rewrite H1 in H2; simplify_eq.
Qed.

Lemma elem_of_candidates req d r :
  r ∈ candidates req d → admit_candidate req d r = true ∧ ∃ id, sq_job d !! id = Some r.
Proof.
  unfold candidates. intros Hr. apply list_elem_of_fmap in Hr as ([n x] & -> & Hr).
  pose proof (elem_of_sublist _ _ _ Hr (sublist_take _ _)) as Hx. cbn [snd].
  rewrite merge_sort_Permutation in Hx. apply elem_of_listfilter in Hx as [_ Hx].
  apply list_elem_of_fmap in Hx as (y & E & Hy). injection E as _ ->.
  apply elem_of_listfilter in Hy as [? ?%elem_of_rows]. done.
Qed.

Definition push_queue (policies : gmap string QueuePolicy) (m : gmap string (list Row)) (r : Row) :=
  let q := e_queue (row_env r) in
  if bool_decide (is_Some (policies !! q)) then <[q := default [] (m !! q) ++ [r]]> m else m.

Lemma remaining_push q r (m : gmap string (list Row)) :
  remaining (<[q := default [] (m !! q) ++ [r]]> m) = S (remaining m).
Proof.
  destruct (m !! q) as [l|] eqn:E; simpl.
  - pose proof (sq_remaining_insert q l (l ++ [r]) m E) as H. rewrite length_app in H. cbn [length] in H. lia.
  - rewrite (remaining_take q [r] (<[q := [r]]> m)) by apply lookup_insert_eq.
    by rewrite delete_insert_id.
Qed.

Lemma push_queue_spec policies jobs m r :
  queues_book policies jobs m → r ∈ jobs →
  queues_book policies jobs (push_queue policies m r)
  ∧ (remaining (push_queue policies m r) ≤ S (remaining m))%nat.
Proof.
  intros Hm Hr. unfold push_queue. case_bool_decide as Hp; [|split; [done|lia]].
  rewrite remaining_push. split; [|lia]. intros q l x.
  rewrite lookup_insert_Some. intros [[<- <-]|[_ Hl]] Hx; [|by eapply Hm].
  apply elem_of_app in Hx as [Hx| ->%list_elem_of_singleton]; [|done].
  destruct (m !! e_queue (row_env r)) as [l|] eqn:E; [|set_solver]. by eapply Hm.
Qed.

Lemma by_queue_spec policies jobs :
  queues_book policies jobs (by_queue policies jobs)
  ∧ (remaining (by_queue policies jobs) ≤ length jobs)%nat.
Proof.
  change (by_queue policies jobs) with (foldl (push_queue policies) ∅ jobs).
  enough (∀ l m, queues_book policies jobs m → (∀ r, r ∈ l → r ∈ jobs) →
    queues_book policies jobs (foldl (push_queue policies) m l)
    ∧ (remaining (foldl (push_queue policies) m l) ≤ remaining m + length l)%nat) as H.
  { destruct (H jobs ∅) as [? Hr]; [by intros ? ? ? ?%lookup_empty_Some|done|]. split; [done|].
    unfold remaining at 2 in Hr. rewrite map_to_list_empty in Hr. exact Hr. }
  induction l as [|r l IH]; intros m Hm Hin; cbn [foldl length]; [split; [done|lia]|].
  destruct (push_queue_spec policies jobs m r Hm ltac:(set_solver)) as [Hm' Hr].
  destruct (IH _ Hm') as [? ?]; [set_solver|]. split; [done|lia].
Qed.

Lemma count_in_fmap p (f : Row → Row) (m : gmap string Row) :
  (∀ r, p (f r) = p r) → count_in p (f <$> m) = count_in p m.
Proof.
  intros Hp. unfold count_in. rewrite map_to_list_fmap. f_equal.
  induction (map_to_list m) as [|[k x] l IH]; [done|].
  cbn [fmap list_fmap List.filter snd prod_map fst id] in *.
  rewrite Hp. case_match; cbn [length]; by rewrite IH.
Qed.

Lemma count_expired now q p (m : gmap string Row) :
  count_in (running_in q p) ((λ r, if past_deadline now r
     then r <| row_state := "cancelled" |> <| row_finalized_at := Some now |> else r) <$> m)
  = count_in (running_in q p) m.
Proof.
  apply count_in_fmap. intros r. case_match eqn:E; [|done]. unfold past_deadline in E. bool_hyps.
  apply available_not_running, String.eqb_neq in H. unfold running_in at 2. rewrite H.
  rewrite andb_false_r. unfold running_in. apply andb_false_r.
Qed.

Lemma expired_row now id r (d : Db) :
  sq_job (cancel_expired now d) !! id = Some r → row_state r = "available" →
  sq_job d !! id = Some r ∧ past_deadline now r = false.
Proof.
  change (sq_job (cancel_expired now d)) with ((λ r, if past_deadline now r
     then r <| row_state := "cancelled" |> <| row_finalized_at := Some now |> else r) <$> sq_job d).
  rewrite lookup_fmap, fmap_Some. intros (x & Hx & ->) Hs.
  destruct (past_deadline now x) eqn:E; [discriminate Hs|done].
Qed.

Lemma expired_fence now id r (d : Db) n :
  (∀ id r, sq_job d !! id = Some r → row_fence r < n) →
  sq_job (cancel_expired now d) !! id = Some r → row_fence r < n.
Proof.
  intros Hf. change (sq_job (cancel_expired now d)) with ((λ r, if past_deadline now r
     then r <| row_state := "cancelled" |> <| row_finalized_at := Some now |> else r) <$> sq_job d).
  rewrite lookup_fmap, fmap_Some. intros (x & Hx & ->). specialize (Hf _ _ Hx). by case_match.
Qed.

Lemma preemption_name v :
  SaturationStrategy.try_from v = Ok SaturationStrategy.CancelRunning → v = "cancel_running".
Proof. unfold SaturationStrategy.try_from. repeat case_match; try done. by bool_hyps. Qed.

Lemma sq_refill_tokens now b : bucket_ok b → bk_tokens (refill_bucket now b) ≤ bk_burst b.
Proof.
  intros (_ & _ & _ & Ht). unfold refill_bucket. case_if; [|exact Ht].
  change (Z.min (bk_burst b) (i64_saturating (bk_tokens b +
    i64_div (i64_saturating (i64_saturating (now - bk_refilled b) * bk_limit b)) (bk_window b))) ≤ bk_burst b). lia.
Qed.

(** ** The pass *)

Section pass.
Context (now lease_ms : Z) (req : AdmitRequest) (d : Db).
Hypothesis Hjobs : jobs_ok (sq_job d).
Hypothesis Hlimits : limits_ok (sq_limit d).
Hypothesis Hbuckets : ∀ n b, sq_bucket d !! n = Some b → bucket_ok b.
Hypothesis Hfit : Z.of_nat (size (sq_job d)) ≤ i64_max.
Context (d1 : Db) (policies : gmap string QueuePolicy).
Hypothesis Hload : load_policies (ar_queues req) (cancel_expired now d) ∅ = (d1, policies).
Context (limits : gmap string (Z * SaturationStrategy.SaturationStrategy)).
Hypothesis Hlim : load_limits (map_to_list (sq_limit d1)).*2 ∅ = Ok limits.
Hypothesis Hcap : 0 ≤ ar_capacity req.

Let jobs : list Row := candidates req d1.
Let buckets0 : gmap string Bucket := refill_bucket now <$> sq_bucket d1.
Let start : AdmitState := mkAdmitState d1 (by_queue policies jobs) policies buckets0 ∅ [] 0.

Lemma pass_frame :
  sq_job d1 = sq_job (cancel_expired now d) ∧ sq_bucket d1 = sq_bucket d ∧ sq_limit d1 = sq_limit d
  ∧ sq_quarantine d1 = sq_quarantine d.
Proof.
  pose proof (load_policies_frame (ar_queues req) (cancel_expired now d) ∅) as H. rewrite Hload in H.
  exact H.
Qed.

Lemma pass_jobs_ok : jobs_ok (sq_job d1).
Proof. destruct pass_frame as [-> _]. eapply updates_jobs_ok, Hjobs. apply cancel_expired_updates. Qed.

Lemma start_books : books req d1 policies buckets0 limits jobs start.
Proof.
  destruct (by_queue_spec policies jobs) as [Hq _]. constructor.
  - constructor; [intros id r Hr; by exists r| |].
    { intros q p n Hn. change ((∅ : gmap (string * string) Z) !! (q, p) = Some n) in Hn.
      by apply lookup_empty_Some in Hn. }
    intros q p max s _. change (sq_job (as_db start)) with (sq_job d1). lia.
  - constructor; intros n.
    + change (as_buckets start) with buckets0. destruct (buckets0 !! n) as [b|]; [|done]. simpl. f_equal.
      destruct b. unfold upd. simpl. f_equal. change (spent n []) with 0. lia.
    + intros b _. by left.
  - exact Hq.
  - intros c Hc. by apply not_elem_of_nil in Hc.
  - done.
Qed.

Lemma pass_books :
  let a := admit_turns (S (length jobs)) req now lease_ms limits start in
  books req d1 policies buckets0 limits jobs a ∧ as_decisions a ≤ ar_capacity req
  ∧ (as_decisions a = ar_capacity req ∨ admit_turn req now lease_ms limits a = None).
Proof.
  destruct pass_frame as (Ej & Eb & El & _). pose proof pass_jobs_ok as [Hk _]. apply admit_turns_ok.
  - intros r Hr. apply elem_of_candidates in Hr as [_ [id Hid]]. by rewrite (Hk _ _ Hid).
  - exact Hk.
  - rewrite Ej. change (sq_job (cancel_expired now d)) with ((λ r, if past_deadline now r
      then r <| row_state := "cancelled" |> <| row_finalized_at := Some now |> else r) <$> sq_job d).
    by rewrite map_size_fmap.
  - intros q max s Hq. destruct Hlimits as [Hl _].
    destruct (load_limits_spec _ _ _ Hlim) as [Hin _].
    { rewrite El. by apply limits_rows_NoDup. }
    apply Hin in Hq as [?%lookup_empty_Some|(l & Hl' & _ & Hmax & _)]; [done|].
    apply list_elem_of_fmap in Hl' as ([n x] & -> & Hx%elem_of_map_to_list). rewrite El in Hx.
    simpl in Hmax. destruct (Hl _ _ Hx) as [? _]. lia.
  - intros n b Hb. subst buckets0. rewrite lookup_fmap, Eb in Hb. apply fmap_Some in Hb as (x & Hx & ->).
    pose proof (sq_refill_tokens now x (Hbuckets _ _ Hx)). destruct (Hbuckets _ _ Hx) as [? _]. lia.
  - exact start_books.
  - exact Hcap.
  - destruct (by_queue_spec policies jobs) as [_ Hr]. change (as_queues start) with (by_queue policies jobs). lia.
Qed.
End pass.

(** What makes a row eligible for a request. *)
Record eligible_row (now : Z) (req : AdmitRequest) (d : Db) (r : Row) : Prop := {
  er_available : row_state r = "available";
  er_deadline : past_deadline now r = false;
  er_queue : e_queue (row_env r) ∈ normalize_queues (ar_queues req);
  er_unpaused : qs_paused (default default_queue_state (sq_queue d !! e_queue (row_env r))) = false;
  er_sticky : e_sticky_worker (row_env r) = "" ∨ e_sticky_worker (row_env r) = ar_worker req;
  er_quarantine : sq_quarantine d !! e_fingerprint (row_env r) = None;
}.

Lemma candidate_eligible now req req' d d1 policies r :
  keyed (sq_job d) → ar_queues req' = normalize_queues (ar_queues req) → ar_worker req' = ar_worker req →
  load_policies (ar_queues req') (cancel_expired now d) ∅ = (d1, policies) →
  r ∈ candidates req' d1 → is_Some (policies !! e_queue (row_env r)) →
  sq_job d !! e_id (row_env r) = Some r ∧ eligible_row now req d r.
Proof.
  intros Hk Eq Ew Hload Hr [p Hp].
  pose proof (pass_frame now req' d d1 policies Hload) as (Ej & _ & _ & Eqr).
  apply elem_of_candidates in Hr as [Hc [id Hid]]. unfold admit_candidate in Hc.
  rewrite !andb_true_iff, negb_true_iff, bool_decide_eq_false, existsb_exists, orb_true_iff, !String.eqb_eq in Hc.
  destruct Hc as [[[Hs (q & Hq & <-%String.eqb_eq)] Hst] Hqr].
  rewrite Ej in Hid. destruct (expired_row now id r d Hid Hs) as [Hid' Hd].
  split; [by rewrite (Hk _ _ Hid')|]. constructor; try done.
  - rewrite <-Eq. by apply list_elem_of_In.
  - pose proof (load_policies_spec (ar_queues req') (cancel_expired now d) ∅ (e_queue (row_env r)) p) as H.
    rewrite Hload in H. destruct (H Hp) as [?%lookup_empty_Some|[_ ?]]; [done|done].
  - by rewrite <-Ew.
  - rewrite <-Eqr. by apply eq_None_not_Some.
Qed.

Definition within_policies (now : Z) (req : AdmitRequest) (d d' : Db) (units : list AdmissionUnit) : Prop :=
  Z.of_nat (length (concat units)) ≤ ar_capacity req
  ∧ (∀ c, c ∈ concat units → ∃ r, sq_job d !! e_id (c_envelope c) = Some r
       ∧ c_envelope c = scan_env r ∧ c_lease_id c = ar_lease_id req ∧ eligible_row now req d r)
  ∧ (∀ n b, sq_bucket d !! n = Some b →
       spent n (concat units) = 0
       ∨ bk_paused b = false ∧ spent n (concat units) ≤ bk_tokens (refill_bucket now b))
  ∧ (∀ n l part, sq_limit d !! n = Some l →
       count_jobs (running_in (li_queue l) part) d'
       ≤ Z.max (li_max l) (count_jobs (running_in (li_queue l) part) d)).

Lemma nothing_granted now req d d' :
  0 ≤ ar_capacity req →
  (∀ q p, count_jobs (running_in q p) d' = count_jobs (running_in q p) d) →
  within_policies now req d d' [].
Proof.
  intros Hcap Hc. split_and!; [exact Hcap|by intros c ?%not_elem_of_nil|by left|].
  intros n l part Hl. rewrite Hc. lia.
Qed.

Lemma spent_perm n cs cs' : cs ≡ₚ cs' → spent n cs = spent n cs'.
Proof. unfold spent. induction 1; simpl; lia. Qed.

(** C5.  What one admission of the embedded store grants is bounded by every policy at once.
    It returns at most the requested capacity of claims.  Every claim is of a row that was
    available, not past its deadline, of a requested queue that is not paused, not bound to
    another worker and not quarantined.  Per rate class the weight claimed fits in the tokens
    the bucket had after its refill, and nothing is claimed of a paused class.  No partition of
    a limited queue ends above the larger of its limit and its running count before the call,
    whatever the saturation strategy. *)
Theorem sqlite_admit_within_policies now req d d' units :
  jobs_ok (sq_job d) → limits_ok (sq_limit d) → (∀ n b, sq_bucket d !! n = Some b → bucket_ok b) →
  Z.of_nat (size (sq_job d)) ≤ i64_max → 0 ≤ ar_capacity req →
  sqlite_admit now req d = (d', Ok units) →
  Z.of_nat (length (concat units)) ≤ ar_capacity req
  ∧ (∀ c, c ∈ concat units → ∃ r, sq_job d !! e_id (c_envelope c) = Some r
       ∧ c_envelope c = scan_env r ∧ c_lease_id c = ar_lease_id req ∧ eligible_row now req d r)
  ∧ (∀ n b, sq_bucket d !! n = Some b →
       spent n (concat units) = 0
       ∨ bk_paused b = false ∧ spent n (concat units) ≤ bk_tokens (refill_bucket now b))
  ∧ (∀ n l part, sq_limit d !! n = Some l →
       count_jobs (running_in (li_queue l) part) d'
       ≤ Z.max (li_max l) (count_jobs (running_in (li_queue l) part) d)).
Proof.
  intros Hj Hl Hb Hfit Hcap Ha. change (within_policies now req d d' units).
  unfold sqlite_admit, normalize_admit_request in Ha. cbv zeta in Ha.
  destruct (duration_millis _) as [ms|]; [|done].
  set (req' := req <| ar_queues := normalize_queues (ar_queues req) |>) in Ha.
  destruct (bool_decide _ || _) in Ha; [injection Ha as <- <-; by apply nothing_granted|].
  set (req2 := req' <| ar_quantum := Z.max (ar_quantum req') 1 |>) in Ha.
  destruct (load_policies (ar_queues req2) (cancel_expired now d) ∅) as [d1 policies] eqn:Hload.
  pose proof (pass_frame now req2 d d1 policies Hload) as (Ej & Eb & El & _).
  assert (∀ q p, count_jobs (running_in q p) d1 = count_jobs (running_in q p) d) as Hcount.
  { intros q p. unfold count_jobs. rewrite Ej. apply (count_expired now q p (sq_job d)). }
  destruct (bool_decide (policies = ∅)); [injection Ha as <- <-; by apply nothing_granted|].
  destruct (load_limits _ ∅) as [limits|] eqn:Hlim; [|done].
  pose proof (pass_books now ms req2 d Hj Hl Hb Hfit d1 policies Hload limits Hlim Hcap) as (Hbk & Hdec & _).
  cbv zeta in Hbk, Hdec.
  remember (admit_turns _ req2 now ms limits _) as a eqn:Ea in Ha, Hbk, Hdec. clear Ea.
  injection Ha as <- <-.
  destruct Hbk as [Hrows Hmoney _ Hclaims Hlen].
  pose proof (group_admission_perm (as_claims a) 1) as Hperm.
  split_and!.
  - rewrite Hperm. change (ar_capacity req2) with (ar_capacity req) in Hdec. lia.
  - intros c Hc. rewrite Hperm in Hc. destruct (Hclaims c Hc) as (r & Hr & Hce & Hcl & Hp).
    exists r. rewrite Hce.
    destruct (candidate_eligible now req req2 d d1 policies r (proj1 Hj) eq_refl eq_refl Hload Hr Hp). done.
  - intros n b Hn. rewrite (spent_perm n _ _ Hperm).
    destruct (mb_spent _ _ _ Hmoney n (refill_bucket now b)) as [?|[Hp ?]];
      [by rewrite lookup_fmap, Eb, Hn|by left|right].
    split; [|lia]. unfold refill_bucket in Hp. by case_if_in Hp.
  - intros n l part Hn. rewrite <-(Hcount (li_queue l) part).
    destruct (load_limits_spec _ _ _ Hlim) as [_ Hin]; [rewrite El; by apply limits_rows_NoDup|].
    destruct (Hin l) as [s Hs].
    { rewrite El. apply list_elem_of_fmap. exists (n, l). split; [done|]. by apply elem_of_map_to_list. }
    exact (rb_limit _ _ _ _ Hrows (li_queue l) part _ _ Hs).
Qed.

(** ** The claims are leases *)

(** Rows that are still available are as they were read, and the claims made so far hold. *)
Record held (d1 d : Db) (claims : list Claim) : Prop := {
  hd_available : ∀ id r, sq_job d !! id = Some r → is_available r = true → sq_job d1 !! id = Some r;
  hd_claims : ∀ c, c ∈ claims → ∃ r, select_leased (lease_ref c) d = Some r ∧ scan_env r = c_envelope c;
}.

(** A statement on an available row leaves every lease alone. *)
Lemma available_keeps_leases id f d d' l r :
  update_job id is_available f d = Some d' → select_leased l d = Some r → select_leased l d' = Some r.
Proof.
  intros (x & Hx & Ha & ->)%update_job_spec [Hr Hl]%select_leased_spec. apply select_leased_spec.
  split; [|done]. change (sq_job (d <| sq_job := ?m |>)) with m. rewrite lookup_insert_ne; [done|].
  intros E. rewrite E, Hr in Hx. injection Hx as <-. apply leased_running in Hl. by apply available_not_running in Ha.
Qed.

Lemma held_step id f d1 d d' claims :
  (∀ r, is_available (f r) = false) → update_job id is_available f d = Some d' →
  held d1 d claims → held d1 d' claims.
Proof.
  intros Hf Hu [Ha Hc]. constructor.
  - apply update_job_spec in Hu as (x & Hx & _ & ->). intros i r Hr Hav.
    change (sq_job (d <| sq_job := ?m |>)) with m in Hr.
    apply lookup_insert_Some in Hr as [[_ <-]|[_ Hr]]; [by rewrite Hf in Hav|by apply Ha].
  - intros c Hin. destruct (Hc c Hin) as (r & Hr & He). exists r. split; [|done].
    by eapply available_keeps_leases.
Qed.

Section honoured.
Context (req : AdmitRequest) (now lease_ms : Z) (d1 : Db).
Hypothesis fences_fit : ∀ id r, sq_job d1 !! id = Some r → 0 ≤ row_fence r < i64_max.

Definition read_rows (queues : gmap string (list Row)) : Prop :=
  ∀ q l r, queues !! q = Some l → r ∈ l → sq_job d1 !! e_id (row_env r) = Some r.

Lemma claim_row_held queue limited job a :
  sq_job d1 !! e_id (row_env job) = Some job → held d1 (as_db a) (as_claims a) →
  let a' := claim_row req now lease_ms queue limited job a in held d1 (as_db a') (as_claims a').
Proof.
  intros Hj Hh. unfold claim_row. destruct (update_job _ _ _ (as_db a)) as [d|] eqn:E; [|done].
  assert (held d1 d (as_claims a)) as [Ha Hc].
  { refine (held_step _ _ d1 _ d _ _ E Hh). intros r. reflexivity. }
  constructor; [exact Ha|]. intros c [Hin| ->%list_elem_of_singleton]%elem_of_app; [by apply Hc|].
  apply update_job_spec in E as (r & Hr & Hav & ->).
  change (e_id (scan_env job)) with (e_id (row_env job)) in *.
  pose proof (hd_available _ _ _ Hh _ _ Hr Hav) as Hr1. rewrite Hj in Hr1. injection Hr1 as <-.
  eexists (lease_row req now lease_ms _ job). split; [|reflexivity]. apply select_leased_spec.
  split; [apply lookup_insert_eq|]. apply leased_spec. split_and!; [reflexivity|reflexivity|].
  change (row_fence job + 1 = wrap_i64 (u64_add (wrap_u64 (row_fence job)) 1)).
  pose proof (fences_fit _ _ Hj) as Hf. unfold u64_add.
  rewrite (wrap_u64_id (row_fence job)), wrap_u64_id, wrap_i64_id;
    unfold in_u64, u64_max, in_i64, i64_min, i64_max in *; lia.
Qed.

Lemma saturated_held queue max s job a :
  s ≠ SaturationStrategy.CancelRunning → sq_job d1 !! e_id (row_env job) = Some job →
  held d1 (as_db a) (as_claims a) →
  let a' := saturated req now lease_ms queue max s job a in held d1 (as_db a') (as_claims a').
Proof.
  intros Hs Hj Hh. unfold saturated. case_if; [by apply claim_row_held|]. destruct s; try done.
  all: match goal with |- context [update_job ?i ?p ?f (as_db ?x)] =>
    destruct (update_job i p f (as_db x)) as [d|] eqn:E end; [|exact Hh].
  all: refine (held_step _ _ d1 _ d _ _ E Hh); intros r; reflexivity.
Qed.

Context (limits : gmap string (Z * SaturationStrategy.SaturationStrategy)).
Hypothesis no_preemption : ∀ q max s, limits !! q = Some (max, s) → s ≠ SaturationStrategy.CancelRunning.

Lemma admit_turns_held fuel a :
  read_rows (as_queues a) → held d1 (as_db a) (as_claims a) →
  let a' := admit_turns fuel req now lease_ms limits a in held d1 (as_db a') (as_claims a').
Proof.
  revert a. induction fuel as [|fuel IH]; intros a Hq Hh; cbn [admit_turns]; [done|].
  case_if; [done|]. destruct (admit_turn req now lease_ms limits a) as [a'|] eqn:E; [|done].
  unfold admit_turn in E. apply bind_Some in E as (queue & _ & E).
  destruct (as_queues a !! queue) as [l|] eqn:El; [|done]. simpl in E.
  destruct l as [|job rest]; [done|]. injection E as E.
  assert (read_rows (<[queue := rest]> (as_queues a))) as Hq'.
  { intros q l r. rewrite lookup_insert_Some. intros [[<- <-]|[_ Hl]] Hr; [|by eapply Hq].
    eapply Hq; [exact El|set_solver]. }
  pose proof (Hq _ _ job El ltac:(set_solver)) as Hj.
  case_if_in E; [subst a'; by apply IH|].
  destruct (limits !! queue) as [[max s]|] eqn:Elim; subst a'; apply IH.
  - by rewrite saturated_queues.
  - apply saturated_held; [by eapply no_preemption|done|exact Hh].
  - by rewrite claim_row_queues.
  - apply claim_row_held; [done|exact Hh].
Qed.
End honoured.

(** An admitted claim is a lease: as long as no limit preempts running jobs, every claim
    that an admission returns is held by its row when the call ends, with the envelope of the
    claim, so the worker's acknowledgement, checkpoints and renewals are accepted. *)
Theorem sqlite_admitted_claims_are_honoured now req d d' units :
  jobs_ok (sq_job d) → limits_ok (sq_limit d) →
  (∀ id r, sq_job d !! id = Some r → row_fence r < i64_max) →
  (∀ n l, sq_limit d !! n = Some l → li_on_saturated l ≠ "cancel_running") →
  sqlite_admit now req d = (d', Ok units) →
  ∀ c, c ∈ concat units → ∃ r, select_leased (lease_ref c) d' = Some r ∧ scan_env r = c_envelope c.
Proof.
  intros Hj Hl Hf Hs Ha. unfold sqlite_admit, normalize_admit_request in Ha. cbv zeta in Ha.
  destruct (duration_millis _) as [ms|]; [|done].
  destruct (bool_decide _ || _) in Ha; [injection Ha as <- <-; by intros c ?%not_elem_of_nil|].
  match type of Ha with context [load_policies (ar_queues ?r) (cancel_expired now d) ∅] => set (req2 := r) in Ha end.
  destruct (load_policies (ar_queues req2) (cancel_expired now d) ∅) as [d1 policies] eqn:Hload.
  pose proof (pass_frame now req2 d d1 policies Hload) as (Ej & _ & El & _).
  destruct (bool_decide (policies = ∅)); [injection Ha as <- <-; by intros c ?%not_elem_of_nil|].
  destruct (load_limits _ ∅) as [limits|] eqn:Hlim; [|done].
  pose proof (pass_jobs_ok now req2 d Hj d1 policies Hload) as [Hk Hok1].
  destruct (by_queue_spec policies (candidates req2 d1)) as [Hq _].
  remember (mkAdmitState d1 _ _ _ _ _ _) as start eqn:Estart in Ha.
  remember (S (length (candidates req2 d1))) as fuel eqn:Efuel in Ha. clear Efuel.
  assert (held d1 (as_db start) (as_claims start)) as Hstart.
  { rewrite Estart. constructor; [done|by intros c ?%not_elem_of_nil]. }
  assert (read_rows d1 (as_queues start)) as Hread.
  { rewrite Estart. intros q l r Hl' Hr. destruct (Hq _ _ _ Hl' Hr) as (Hc & _).
    apply elem_of_candidates in Hc as [_ [id Hid]]. by rewrite (Hk _ _ Hid). }
  assert (∀ id r, sq_job d1 !! id = Some r → 0 ≤ row_fence r < i64_max) as Hfences.
  { intros id r Hr. split; [by apply (ro_fence _ (Hok1 _ _ Hr))|]. rewrite Ej in Hr.
    by eapply expired_fence. }
  assert (∀ q max s, limits !! q = Some (max, s) → s ≠ SaturationStrategy.CancelRunning) as Hno.
  { intros q max s Hq'. destruct (load_limits_spec _ _ _ Hlim) as [Hin _]; [rewrite El; by apply limits_rows_NoDup|].
    apply Hin in Hq' as [?%lookup_empty_Some|(l & Hl' & _ & _ & Hst)]; [done|].
    apply list_elem_of_fmap in Hl' as ([n x] & -> & Hx%elem_of_map_to_list). rewrite El in Hx.
    specialize (Hs _ _ Hx). intros ->. by apply preemption_name in Hst. }
  pose proof (admit_turns_held req2 now ms d1 Hfences limits Hno fuel start Hread Hstart) as [_ Hc].
  remember (admit_turns fuel req2 now ms limits start) as a. injection Ha as <- <-.
  intros c Hin. rewrite group_admission_perm in Hin. exact (Hc c Hin).
Qed.
