(* ===== verification/SqliteType.v ===== *)
(** * The schema of the SQLite store is an invariant

    [db_ok] are the declared types, [CHECK]s, primary keys and [UNIQUE] constraints of
    migrations/0001_init.sql that the adapter's statements could violate, with the bounds the
    adapter promises on its event logs; every operation preserves them. *)

From S2P Require Import Prelude Shared Lifecycle Envelope MemStore MemInv Core Coordinator Scheduler Attempt Worker Pool Sqlite SqliteInspect SqliteRows SqliteSpec SqliteAdmit.
Local Open Scope Z_scope.

(** ** The other tables *)

(** A log with [AUTOINCREMENT] ids: ids rise, none exceeds the sequence, and no owner has more
    than a hundred entries. *)
Definition log_ok {A} (eid : A → Z) (owner : A → string) (seq : Z) (l : list A) : Prop :=
  StronglySorted Z.lt (eid <$> l) ∧ Forall (λ x, eid x ≤ seq) l
  ∧ ∀ k, (length (List.filter (λ x, String.eqb (owner x) k) l) ≤ 100)%nat.

Record tables_ok (d : Db) : Prop := {
  tk_queue : ∀ q s, sq_queue d !! q = Some s → 0 < qs_weight s;
  tk_bucket : ∀ n b, sq_bucket d !! n = Some b → bucket_ok b;
  tk_limit : limits_ok (sq_limit d);
  tk_policy : ∀ q n, sq_policy d !! q = Some (Some n) → 0 ≤ n ≤ i64_max;
  tk_schedule_event : log_ok se_event_id se_schedule_id (sq_schedule_seq d) (sq_schedule_event d);
  tk_durable : log_ok de_event_id de_scope (sq_durable_seq d) (sq_durable d);
  tk_idempotent : NoDup ((λ e, (de_scope e, de_idempotency_key e)) <$> sq_durable d);
}.

Definition db_ok (d : Db) : Prop := jobs_ok (sq_job d) ∧ tables_ok d.

Lemma empty_db_ok : db_ok empty_db.
Proof.
  unfold db_ok, jobs_ok, keyed, limits_ok. split; [|constructor];
    unfold limits_ok; cbn [empty_db sq_job sq_queue sq_bucket sq_limit sq_policy].
  - by split; intros ? ? ?%lookup_empty_Some.
  - by intros ? ? ?%lookup_empty_Some.
  - by intros ? ? ?%lookup_empty_Some.
  - by split; [intros ? ? ?%lookup_empty_Some|intros ? ? ? ? ?%lookup_empty_Some].
  - by intros ? ? ?%lookup_empty_Some.
  - split_and!; [constructor..|simpl; lia].
  - split_and!; [constructor..|simpl; lia].
  - constructor.
Qed.

(** ** Frames *)

(** The tables [tables_ok] reads. *)
Definition aux_tables (d : Db) :=
  (sq_queue d, sq_bucket d, sq_limit d, sq_policy d, (sq_schedule_seq d, sq_schedule_event d),
   (sq_durable_seq d, sq_durable d)).

Lemma tables_ok_frame d d' : aux_tables d' = aux_tables d → tables_ok d → tables_ok d'.
Proof.
  unfold aux_tables. intros E [? ? ? ? ? ? ?]. injection E as E1 E2 E3 E4 E5 E6 E7 E8.
  constructor; congruence || (rewrite ?E1, ?E2, ?E3, ?E4, ?E5, ?E6, ?E7, ?E8; done).
Qed.

(** Operations that write [headgate_job], counters, duties and the like only. *)
Lemma update_job_aux id p f d d' : update_job id p f d = Some d' → aux_tables d' = aux_tables d.
Proof. by intros (r & _ & _ & ->)%update_job_spec. Qed.

Lemma default_update_aux id p f d : aux_tables (default d (update_job id p f d)) = aux_tables d.
Proof. destruct (update_job id p f d) eqn:E; [by eapply update_job_aux|done]. Qed.

Lemma delete_row_aux id p d d' : delete_row id p d = Some d' → aux_tables d' = aux_tables d.
Proof. by intros (r & _ & _ & ->)%delete_row_spec. Qed.

Lemma duplicate_row_aux cf now' e id d : aux_tables (duplicate_row cf now' e id d).1 = aux_tables d.
Proof. unfold duplicate_row, rewrite_holder. by repeat case_match. Qed.

Lemma check_batch_aux cf ord now now' batch bu pending d :
  aux_tables (check_batch cf ord now now' batch bu pending d).1 = aux_tables d.
Proof.
  revert bu pending. induction batch as [|e batch IH]; intros bu pending; simpl; [done|].
  repeat case_match; try done; try apply IH.
  all: match goal with H : duplicate_row _ _ _ ?id _ = _ |- _ =>
    pose proof (duplicate_row_aux cf now' e id d) as Hu; by rewrite H in Hu end.
Qed.

Lemma insert_rows_aux cf now pending d : aux_tables (insert_rows cf now pending d).1 = aux_tables d.
Proof.
  revert d. induction pending as [|[e key] pending IH]; intros d; cbn [insert_rows]; [done|].
  case_match eqn:E; [|done]. apply insert_row_spec in E as (_ & _ & ->). by rewrite IH.
Qed.

Lemma bump_counters_aux now (q : list (string * Z)) d :
  aux_tables (foldl (λ d qn, bump_counter qn.1 now qn.2 0 d) d q) = aux_tables d.
Proof. revert d. induction q as [|x q IH]; intros d; simpl; [done|]. by rewrite IH. Qed.

Lemma enqueue_on_aux cf ord now now' batch d :
  aux_tables (enqueue_on cf ord now now' batch d).1 = aux_tables d.
Proof.
  unfold enqueue_on. pose proof (check_batch_aux cf ord now now' batch ∅ [] d) as Hc.
  destruct (check_batch cf ord now now' batch ∅ [] d) as [d1 [pending|e]]; [|done].
  case_match; [|done]. pose proof (insert_rows_aux cf now pending d1) as Hi.
  destruct (insert_rows cf now pending d1) as [d2 [?|?]]; cbn [fst] in *; rewrite ?bump_counters_aux; congruence.
Qed.

Lemma renew_rows_aux expires leases d lost : aux_tables (renew_rows expires leases d lost).1 = aux_tables d.
Proof.
  revert d lost. induction leases as [|l leases IH]; intros d lost; cbn [renew_rows]; [done|].
  case_match eqn:E; rewrite IH; [by eapply update_job_aux|done].
Qed.

Lemma reclaim_rows_aux o now victims d out : aux_tables (reclaim_rows o now victims d out).1 = aux_tables d.
Proof.
  revert d out. induction victims as [|job victims IH]; intros d out; cbn [reclaim_rows]; [done|].
  destruct (reclaim_row o now job d) as [d' rec] eqn:E. rewrite IH.
  unfold reclaim_row in E. rewrite (surjective_pairing (crash_row o now job)) in E. injection E as <- _.
  case_if; apply default_update_aux.
Qed.

Lemma bulk_apply_aux now action ids d : aux_tables (bulk_apply now action ids d) = aux_tables d.
Proof. unfold bulk_apply. by repeat case_if. Qed.

(** ** Admission *)

Section admission.
Context (req : AdmitRequest) (now lease_ms : Z) (d1 : Db).
Context (limits : gmap string (Z * SaturationStrategy.SaturationStrategy)).
Hypothesis Hbuckets : ∀ n b, sq_bucket d1 !! n = Some b → bucket_ok b.

(** The loop writes [headgate_job] only, and its buckets stay within the stored burst. *)
Record admit_tables (a : AdmitState) : Prop := {
  at_aux : aux_tables (as_db a) = aux_tables d1;
  at_buckets : ∀ n b', as_buckets a !! n = Some b' →
    ∃ b, sq_bucket d1 !! n = Some b ∧ bk_tokens b' ≤ bk_burst b;
}.

Lemma claim_row_tables queue limited job a :
  admit_tables a → rate_blocked a (scan_env job) = false →
  admit_tables (claim_row req now lease_ms queue limited job a).
Proof.
  intros [Ha Hb] Hrate. unfold claim_row. destruct (update_job _ _ _ (as_db a)) as [d|] eqn:E; [|done].
  constructor; [by rewrite <-Ha; apply (update_job_aux _ _ _ _ _ E)|]. intros n b' Hn.
  change (alter (λ b, b <| bk_tokens := i64_sub (bk_tokens b) (e_weight (scan_env job)) |>)
    (e_rate_class (scan_env job)) (as_buckets a) !! n = Some b') in Hn.
  destruct (decide (n = e_rate_class (scan_env job))) as [->|Hne];
    [|rewrite lookup_alter_ne in Hn by done; by apply Hb].
  rewrite lookup_alter_eq in Hn. apply fmap_Some in Hn as (x & Hx & ->).
  destruct (Hb _ _ Hx) as (b & Hbk & Hle). exists b. split; [done|].
  destruct (rate_open a (scan_env job) x Hrate Hx) as [_ Hw].
  pose proof (wrap_u32_nonneg (e_weight (row_env job))) as Hw0. destruct (Hbuckets _ _ Hbk) as [[? ?] _].
  change (i64_sub (bk_tokens x) (e_weight (scan_env job)) ≤ bk_burst b).
  change (0 ≤ e_weight (scan_env job)) in Hw0.
  rewrite i64_sub_id by (unfold in_i64, i64_min, i64_max in *; lia). lia.
Qed.

Lemma saturated_tables queue max s job a :
  admit_tables a → rate_blocked a (scan_env job) = false →
  admit_tables (saturated req now lease_ms queue max s job a).
Proof.
  intros [Ha Hb] Hrate. unfold saturated. case_if; [by apply claim_row_tables|]. destruct s; [done| | |].
  - constructor; [|done]. by rewrite <-Ha; apply default_update_aux.
  - destruct (victim _ _ _); [|done]. apply claim_row_tables; [|done].
    constructor; [|done]. by rewrite <-Ha; apply default_update_aux.
  - constructor; [|done]. by rewrite <-Ha; apply default_update_aux.
Qed.

Lemma admit_turns_tables fuel a :
  admit_tables a → admit_tables (admit_turns fuel req now lease_ms limits a).
Proof.
  revert a. induction fuel as [|fuel IH]; intros a Ha; cbn [admit_turns]; [done|].
  case_if; [done|]. destruct (admit_turn req now lease_ms limits a) as [a'|] eqn:E; [|done]. apply IH.
  unfold admit_turn in E. apply bind_Some in E as (queue & _ & E).
  destruct (default [] _) as [|job rest]; [done|]. injection E as E.
  assert (admit_tables (a <| as_queues := <[queue := rest]> (as_queues a) |>)) as Ha1 by by destruct Ha.
  case_if_in E; [by subst a'|].
  destruct (limits !! queue) as [[max s]|]; subst a'; [by apply saturated_tables|by apply claim_row_tables].
Qed.
End admission.

Lemma load_policies_weights queues d acc :
  (∀ q s, sq_queue d !! q = Some s → 0 < qs_weight s) →
  ∀ q s, sq_queue (load_policies queues d acc).1 !! q = Some s → 0 < qs_weight s.
Proof.
  revert d acc. induction queues as [|x queues IH]; intros d acc Hd; cbn [load_policies]; [done|].
  apply IH. intros q s. change (sq_queue (?y <| sq_queue := ?z |>)) with z.
  rewrite lookup_insert_Some. intros [[<- <-]|[_ Hs]]; [|by eapply Hd].
  destruct (sq_queue d !! x) eqn:E; [by eapply Hd|done].
Qed.

Lemma load_policies_tables queues d acc : tables_ok d → tables_ok (load_policies queues d acc).1.
Proof.
  intros [Hq Hb Hl Hpo Hse Hdu Hid].
  assert (∀ queues d acc, let d' := (load_policies queues d acc).1 in
    sq_schedule_seq d' = sq_schedule_seq d ∧ sq_schedule_event d' = sq_schedule_event d
    ∧ sq_durable_seq d' = sq_durable_seq d ∧ sq_durable d' = sq_durable d ∧ sq_policy d' = sq_policy d) as Hlog.
  { clear. induction queues as [|q qs IH]; intros d acc; cbn [load_policies]; [done|].
    match goal with |- context [load_policies qs ?x ?y] => exact (IH x y) end. }
  destruct (Hlog queues d acc) as (E1 & E2 & E3 & E4 & E7).
  destruct (load_policies_frame queues d acc) as (_ & E5 & E6 & _).
  constructor; [by apply load_policies_weights|..]; by rewrite ?E1, ?E2, ?E3, ?E4, ?E5, ?E6, ?E7.
Qed.

Lemma store_policies_tables a d :
  tables_ok d →
  (∀ n b', as_buckets a !! n = Some b' → ∃ b, sq_bucket d !! n = Some b ∧ bk_tokens b' ≤ bk_burst b) →
  tables_ok (store_policies a d).
Proof.
  intros [Hq Hb Hl Hpo Hse Hdu Hid] Ha. constructor; try done.
  - intros q s Hs. unfold store_policies in Hs.
    match type of Hs with sq_queue (upd _ _ (upd _ (λ _, ?z) d)) !! _ = _ =>
      change (z !! q = Some s) in Hs end.
    rewrite map_lookup_imap in Hs. apply bind_Some in Hs as (x & Hx & [= <-]).
    specialize (Hq _ _ Hx). by case_match.
  - intros n b Hn. unfold store_policies in Hn.
    match type of Hn with sq_bucket (upd _ (λ _, ?z) _) !! _ = _ => change (z !! n = Some b) in Hn end.
    rewrite map_lookup_imap in Hn. apply bind_Some in Hn as (x & Hx & [= <-]).
    specialize (Hb _ _ Hx). case_match eqn:E; [|done].
    destruct (Ha _ _ E) as (y & Hy & Hle). change (sq_bucket (d <| sq_queue := ?z |>)) with (sq_bucket d) in *.
    rewrite Hx in Hy. injection Hy as <-. by destruct Hb as (? & ? & ? & _).
Qed.

Lemma admit_tables_ok now req d : tables_ok d → tables_ok (sqlite_admit now req d).1.
Proof.
  intros Hd. unfold sqlite_admit. destruct (normalize_admit_request req) as [[req' ms]|]; [|done].
  case_if; [done|].
  match goal with |- context [load_policies ?q ?x ∅] =>
    assert (tables_ok (load_policies q x ∅).1) as Hd1
      by (apply load_policies_tables; by eapply tables_ok_frame, Hd);
    destruct (load_policies q x ∅) as [d1 policies] eqn:El end.
  cbn [fst] in Hd1. case_if; [done|]. destruct (load_limits _ ∅) as [limits|]; [|done].
  match goal with |- context [admit_turns ?f ?r now ms limits ?s] =>
    assert (admit_tables d1 (admit_turns f r now ms limits s)) as [Haux Hb] end.
  { apply admit_turns_tables; [apply (tk_bucket _ Hd1)|]. constructor; [done|]. intros n b'.
    change (as_buckets (mkAdmitState _ _ _ ?x _ _ _)) with x. rewrite lookup_fmap.
    intros (b & Hb & ->)%fmap_Some. exists b. split; [done|]. apply sq_refill_tokens. by eapply tk_bucket. }
  set (a := admit_turns _ _ _ _ _ _) in *. change (tables_ok (store_policies a (as_db a))).
  assert (sq_bucket (as_db a) = sq_bucket d1) as Eb by by injection Haux.
  apply store_policies_tables; [by eapply tables_ok_frame|]. by rewrite Eb.
Qed.

(** ** Event logs *)

(** The entries [keep_last] drops: the oldest of the owner. *)
Fixpoint drop_first {A} (p : A → bool) (skip : nat) (l : list A) : list A :=
  match l with
  | [] => []
  | x :: l => if p x then match skip with O => x :: drop_first p O l | S skip => drop_first p skip l end
              else x :: drop_first p skip l
  end.

Lemma keep_last_drop {A} (p : A → bool) n l :
  keep_last p n l = drop_first p (length (List.filter p l) - n) l.
Proof.
  unfold keep_last. generalize (length (List.filter p l) - n)%nat as k.
  induction l as [|x l IH]; intros k; [done|]. cbn [drop_first].
  destruct (p x); [destruct k|]; by rewrite ?IH.
Qed.

Lemma drop_first_sublist {A} (p : A → bool) k l : drop_first p k l `sublist_of` l.
Proof.
  revert k. induction l as [|x l IH]; intros k; cbn [drop_first]; [done|].
  destruct (p x); [destruct k|]; by constructor.
Qed.

Lemma drop_first_length {A} (p : A → bool) k l :
  length (List.filter p (drop_first p k l)) = (length (List.filter p l) - k)%nat.
Proof.
  revert k. induction l as [|x l IH]; intros k; cbn [drop_first List.filter]; [done|].
  destruct (p x) eqn:E; [destruct k|]; cbn [List.filter length]; rewrite ?E; cbn [length]; rewrite ?IH; lia.
Qed.

Lemma filter_sublist_length {A} (p : A → bool) l1 l2 :
  l1 `sublist_of` l2 → (length (List.filter p l1) ≤ length (List.filter p l2))%nat.
Proof. induction 1; cbn [List.filter]; repeat case_match; cbn [length]; lia. Qed.

Lemma Forall_sublist_le {A} (P : A → Prop) l1 l2 : l1 `sublist_of` l2 → Forall P l2 → Forall P l1.
Proof. intros Hs. rewrite !Forall_forall. intros H x Hx. apply H. by eapply elem_of_sublist. Qed.

Lemma sorted_sublist (l1 l2 : list Z) : l1 `sublist_of` l2 → StronglySorted Z.lt l2 → StronglySorted Z.lt l1.
Proof.
  induction 1 as [|x l1 l2 Hs IH|x l1 l2 Hs IH]; intros H; [done| |]; inversion H; subst; [|by apply IH].
  constructor; [by apply IH|]. by eapply Forall_sublist_le.
Qed.

Section logs.
Context {A} (eid : A → Z) (owner : A → string).

Lemma log_sublist seq seq' l l' :
  l' `sublist_of` l → seq ≤ seq' → log_ok eid owner seq l → log_ok eid owner seq' l'.
Proof.
  intros Hs Hle (Hsort & Hb & Hlen). split_and!.
  - eapply sorted_sublist; [by apply fmap_sublist|done].
  - eapply Forall_sublist_le; [exact Hs|]. eapply Forall_impl; [done|]. simpl. lia.
  - intros k. etrans; [by apply filter_sublist_length|apply Hlen].
Qed.

(** Appending an entry with the next id and keeping the owner's last hundred. *)
Lemma log_append seq l x :
  log_ok eid owner seq l → eid x = seq + 1 →
  log_ok eid owner (seq + 1) (keep_last (λ y, String.eqb (owner y) (owner x)) 100 (l ++ [x])).
Proof.
  intros (Hsort & Hb & Hlen) Hx. rewrite keep_last_drop.
  set (p := λ y, String.eqb (owner y) (owner x)). set (k := (length _ - 100)%nat).
  pose proof (drop_first_sublist p k (l ++ [x])) as Hs. split_and!.
  - eapply sorted_sublist; [by apply fmap_sublist|]. rewrite fmap_app.
    apply StronglySorted_app_2; [|done|by repeat constructor].
    intros a b (y & -> & Hy)%list_elem_of_fmap ->%list_elem_of_singleton.
    rewrite Forall_forall in Hb. specialize (Hb _ Hy). rewrite Hx. lia.
  - eapply Forall_sublist_le; [exact Hs|]. apply Forall_app. split; [|constructor; [lia|done]].
    eapply Forall_impl; [done|]. simpl. lia.
  - intros n. destruct (String.eqb_spec (owner x) n) as [<-|Hne].
    + fold p. rewrite drop_first_length. subst k. lia.
    + etrans; [by apply filter_sublist_length|]. rewrite List.filter_app, length_app. cbn [List.filter].
      destruct (String.eqb_spec (owner x) n); [done|]. cbn [length]. specialize (Hlen n). lia.
Qed.
End logs.

(** ** The other writes *)

Lemma reconcile_tables c rc aw now d : tables_ok d → tables_ok (reconcile_actual_weight c rc aw now d).
Proof.
  intros Hd. unfold reconcile_actual_weight. case_if; [done|]. destruct Hd as [? Hb ? ? ? ? ?].
  constructor; try done. intros n b Hn. change (sq_bucket (d <| sq_bucket := ?m |>)) with m in Hn.
  apply lookup_alter_Some in Hn as [(<- & x & Hx & ->)|[_ Hn]]; [|by eapply Hb].
  destruct (Hb _ _ Hx) as (H1 & H2 & H3 & _). split_and!; [apply H1..|apply H2|apply H3|]. apply Z.le_min_l.
Qed.

Lemma charged_tables aw now d job :
  tables_ok d →
  tables_ok match aw with
            | Some actual => reconcile_actual_weight (row_rate_charge job) (e_rate_class (scan_env job)) actual now d
            | None => d
            end.
Proof. intros Hd. destruct aw; [by apply reconcile_tables|done]. Qed.

Lemma ack_tables o now l outcome err delay logs aw d :
  tables_ok d → tables_ok (sqlite_ack o now l outcome err delay logs aw d).1.
Proof.
  intros Hd. unfold sqlite_ack. destruct (validate_ack_request _ _); [|done].
  destruct (select_leased l d) as [job|]; [|done].
  pose proof (charged_tables aw now d job Hd) as Hd1.
  set (d1 := match aw with Some _ => _ | None => _ end) in *.
  destruct (settle_row o now outcome err delay logs (scan_env job)) as [s|].
  - destruct (update_job _ _ _ d1) as [d2|] eqn:E; [|done]. apply update_job_aux in E.
    eapply tables_ok_frame; [|exact Hd1]. rewrite <-E. cbn [fst]. by case_if.
  - destruct (delete_row _ _ d1) as [d2|] eqn:E; [|done]. apply delete_row_aux in E.
    eapply tables_ok_frame; [|exact Hd1]. rewrite <-E. cbn [fst]. by case_if.
Qed.

Lemma complete_tables now l aw finish d : tables_ok d → tables_ok (complete_leased now l aw finish d).1.
Proof.
  intros Hd. unfold complete_leased. destruct (select_leased l d) as [job|]; [|done].
  pose proof (charged_tables aw now d job Hd) as Hd1.
  set (d1 := match aw with Some _ => _ | None => _ end) in *.
  destruct (e_retention_ms (scan_env job) =? 0).
  - destruct (delete_row _ _ d1) as [d2|] eqn:E; [|done]. apply delete_row_aux in E.
    eapply tables_ok_frame; [|exact Hd1]. exact E.
  - destruct (update_job _ _ _ d1) as [d2|] eqn:E; [|done]. apply update_job_aux in E.
    eapply tables_ok_frame; [|exact Hd1]. exact E.
Qed.

Lemma weight_tables queue w d : 0 ≤ w → tables_ok d → tables_ok (set_queue_weight queue w d).1.
Proof.
  intros Hw [Hq ? ? ? ? ? ?]. unfold set_queue_weight. case_if; [done|]. bool_hyps.
  constructor; try done. cbn [fst]. intros q s Hs. change (sq_queue (d <| sq_queue := ?y |>)) with y in Hs.
  apply lookup_insert_Some in Hs as [[_ <-]|[_ Hs]]; [|by eapply Hq].
  case_match; change (0 < w); lia.
Qed.

Lemma pause_tables queue b d : tables_ok d → tables_ok (set_paused queue b d).
Proof.
  intros [Hq ? ? ? ? ? ?]. constructor; try done. intros q s Hs.
  change (sq_queue (set_paused queue b d)) with
    (<[queue := (default default_queue_state (sq_queue d !! queue)) <| qs_paused := b |>]> (sq_queue d)) in Hs.
  apply lookup_insert_Some in Hs as [[_ <-]|[_ Hs]]; [|by eapply Hq].
  change (0 < qs_weight (default default_queue_state (sq_queue d !! queue))).
  destruct (sq_queue d !! queue) eqn:E; [by eapply Hq|done].
Qed.

Lemma rate_class_tables now cfg d :
  rcc_burst cfg ≤ i64_max → tables_ok d → tables_ok (upsert_rate_class now cfg d).1.
Proof.
  intros Hm [? Hb ? ? ? ? ?]. unfold upsert_rate_class.
  destruct (validate_rate_class_config cfg) eqn:Ev; [|done].
  unfold validate_rate_class_config in Ev. repeat case_if_in Ev; try done. bool_hyps.
  constructor; try done. cbn [fst]. intros n b Hn. change (sq_bucket (d <| sq_bucket := ?y |>)) with y in Hn.
  apply lookup_insert_Some in Hn as [[_ <-]|[_ Hn]]; [|by eapply Hb].
  split_and!; cbn [bk_burst bk_limit bk_window bk_tokens]; try lia.
  repeat case_match; lia.
Qed.

Lemma limit_tables cf cfg d : 0 ≤ cl_max_concurrent cfg → tables_ok d → tables_ok (upsert_concurrency_limit cf cfg d).1.
Proof.
  intros Hpos [? ? [Hl Hu] ? ? ? ?]. unfold upsert_concurrency_limit.
  destruct (validate_concurrency_limit cfg) as [max|] eqn:Ev; [|done].
  case_match eqn:Ex; [done|]. constructor; try done.
  cbn [fst]. change (sq_limit (d <| sq_limit := ?y |>)) with y.
  unfold validate_concurrency_limit in Ev. repeat case_if_in Ev; try done. injection Ev as <-. bool_hyps.
  assert (∀ n l, n ≠ cl_name cfg → sq_limit d !! n = Some l → li_queue l ≠ cl_queue cfg) as Hother.
  { intros n l Hn Hnl Hq. apply not_true_iff_false in Ex. apply Ex, existsb_exists. exists (n, l).
    split; [apply list_elem_of_In; by apply elem_of_map_to_list|]. simpl.
    rewrite Hq, String.eqb_refl. by destruct (String.eqb_spec n (cl_name cfg)). }
  split.
  - intros n l. rewrite lookup_insert_Some. intros [[_ <-]|[_ Hn]]; [|by eapply Hl].
    cbn [li_max li_on_saturated]. split; [lia|by eexists].
  - intros n1 n2 l1 l2. rewrite !lookup_insert_Some.
    intros [[<- <-]|[Hn1 H1]] [[<- <-]|[Hn2 H2]] E; try done; cbn [li_queue] in E.
    + by destruct (Hother _ _ (not_eq_sym Hn2) H2).
    + by destruct (Hother _ _ (not_eq_sym Hn1) H1).
    + by eapply Hu.
Qed.

Lemma schedule_event_tables now e d : tables_ok d → tables_ok (sqlite_record_schedule_event now e d).1.
Proof.
  intros [? ? ? ? Hse ? ?]. unfold sqlite_record_schedule_event. case_if; [done|]. constructor; try done.
  match goal with |- context [sq_schedule_event d ++ [?x]] =>
    exact (log_append se_event_id se_schedule_id _ _ x Hse eq_refl) end.
Qed.

Lemma find_none_NoDup e (l : list DurableEvent) id t :
  List.find (same_durable e) l = None →
  NoDup ((λ e, (de_scope e, de_idempotency_key e)) <$> l) →
  NoDup ((λ e, (de_scope e, de_idempotency_key e)) <$>
    l ++ [mkDurableEvent id (de_scope e) (de_topic e) (de_idempotency_key e) (de_payload e) (de_source e) t]).
Proof.
  intros Hf Hnd. rewrite fmap_app. apply NoDup_app. split_and!; [done| |apply NoDup_singleton].
  intros k (x & -> & Hx)%list_elem_of_fmap Hk%list_elem_of_singleton.
  apply list_elem_of_In in Hx. pose proof (List.find_none _ _ Hf x Hx) as Hn.
  cbn [de_scope de_idempotency_key] in Hk. injection Hk as E1 E2.
  unfold same_durable in Hn. by rewrite E1, E2, !String.eqb_refl in Hn.
Qed.

Lemma append_tables is_json now e d : tables_ok d → tables_ok (sqlite_append_event is_json now e d).1.
Proof.
  intros [? ? ? ? ? Hdu Hid]. unfold sqlite_append_event. repeat (case_if; [done|]).
  destruct (List.find (same_durable e) (sq_durable d)) as [stored|] eqn:Ef; constructor; try done;
    cbn [fst].
  - change (sq_durable (d <| sq_durable := ?m |>)) with m. rewrite keep_last_drop.
    eapply log_sublist; [apply drop_first_sublist|apply Z.le_refl|exact Hdu].
  - change (sq_durable (d <| sq_durable := ?m |>)) with m. rewrite keep_last_drop.
    eapply sublist_NoDup; [exact Hid|]. apply fmap_sublist, drop_first_sublist.
  - match goal with |- context [sq_durable d ++ [?x]] =>
      exact (log_append de_event_id de_scope _ _ x Hdu eq_refl) end.
  - match goal with |- context [sq_durable d ++ [?x]] =>
      change (NoDup ((λ e, (de_scope e, de_idempotency_key e)) <$>
        keep_last (λ y, String.eqb (de_scope y) (de_scope x)) 100 (sq_durable d ++ [x]))) end.
    rewrite keep_last_drop.
    eapply sublist_NoDup; [by apply find_none_NoDup|]. apply fmap_sublist, drop_first_sublist.
Qed.

Lemma delete_queue_tables cf now pid seq queue force d :
  tables_ok d → tables_ok (delete_queue cf now pid seq queue force d).1.
Proof.
  intros Hd. unfold delete_queue, insert_operation. case_if.
  - destruct Hd as [Hq ? ? Hp ? ? ?]. constructor; try done; cbn [fst]; intros q s Hs.
    + change (delete queue (sq_queue d) !! q = Some s) in Hs.
      apply lookup_delete_Some in Hs as [_ Hs]. by eapply Hq.
    + change (delete queue (sq_policy d) !! q = Some (Some s)) in Hs.
      apply lookup_delete_Some in Hs as [_ Hs]. by eapply Hp.
  - repeat case_match; simplify_eq; try done; by eapply tables_ok_frame, Hd.
Qed.

Lemma enqueue_limit_tables queue max d :
  match max with Some v => 0 ≤ v | None => True end →
  tables_ok d → tables_ok (set_enqueue_limit queue max d).1.
Proof.
  intros Hv Hd. unfold set_enqueue_limit.
  assert (∀ x, match x with Some v => 0 ≤ v ≤ i64_max | None => True end →
    tables_ok (d <| sq_policy := <[queue := x]> (sq_policy d) |>)) as H.
  { intros x Hx. destruct Hd as [? ? ? Hp ? ? ?]. constructor; try done. intros q n Hn.
    change (<[queue := x]> (sq_policy d) !! q = Some (Some n)) in Hn.
    apply lookup_insert_Some in Hn as [[_ ->]|[_ Hn]]; [done|by apply (Hp q)]. }
  destruct max as [v|]; [|by apply H]. case_if; [done|]. bool_hyps. apply H. lia.
Qed.

Lemma sample_tables ord limit d : tables_ok d → tables_ok (sqlite_sample_memory ord limit d).1.
Proof.
  intros Hd. unfold sqlite_sample_memory. case_if; [done|]. cbn [fst].
  apply (foldl_inv tables_ok); [done|]. intros d' queue _ [Hq ? ? ? ? ? ?]. constructor; try done.
  intros q s Hs. unfold sample_queue in Hs.
  change (<[queue := mkQueueState (qs_weight (default default_queue_state (sq_queue d' !! queue)))
    (qs_paused (default default_queue_state (sq_queue d' !! queue)))
    (qs_dispatch (default default_queue_state (sq_queue d' !! queue)))
    (Some (sum_z row_bytes (scan_rows ord (in_queue queue) 1000 d')))]> (sq_queue d') !! q = Some s) in Hs.
  apply lookup_insert_Some in Hs as [[_ <-]|[_ Hs]]; [|by eapply Hq].
  destruct (sq_queue d' !! queue) eqn:E; simpl; [by eapply Hq|done].
Qed.

(** ** Every operation *)

(** Operations whose only other effect is on tables [tables_ok] does not read. *)
Ltac framed Hd := repeat case_match; simplify_eq; try exact Hd; by eapply tables_ok_frame, Hd.

Section every_operation.
Context (cf : string) (is_json : bytes → bool) (o : SqliteOptions).
Notation run := (sq_run cf is_json o).

Lemma enqueue_tables op d : is_enqueue op = true → aux_tables (run op d) = aux_tables d.
Proof.
  destruct op; try discriminate; intros _; cbn [sq_run].
  - unfold sqlite_enqueue. case_if; [done|]. destruct (validate_enqueue batch); [|done].
    pose proof (enqueue_on_aux cf ord now now' batch d) as H.
    destruct (enqueue_on cf ord now now' batch d) as [d' r]. cbn [fst] in *. by repeat case_match.
  - unfold enqueue_tx. destruct (validate_enqueue batch); [|done]. apply enqueue_on_aux.
Qed.

Lemma write_aux op d :
  match op with
  | SqRenew _ _ _ | SqCheckpoint _ _ | SqOutput _ _ _ | SqProgress _ _ _ | SqReclaim _ _ | SqPromote _ _
  | SqEvict _ _ | SqRetry _ _ | SqCancel _ _ | SqPromoteJob _ _ | SqSchedulePending _ _
  | SqReschedule _ _ | SqEdit _ _ _ _ | SqDelete _ | SqRelease _ _ | SqSweep _ _ | SqRunOperations _ _ =>
      aux_tables (run op d) = aux_tables d
  | _ => True
  end.
Proof.
  destruct op; try exact I; cbn [sq_run].
  - unfold sqlite_renew. case_match; [|done].
    match goal with |- context [renew_rows ?e leases d []] =>
      pose proof (renew_rows_aux e leases d []) as H'; by destruct (renew_rows e leases d []) end.
  - unfold sqlite_checkpoint. case_match eqn:E; [by apply update_job_aux in E|done].
  - unfold sqlite_write_output. case_match; [|done].
    destruct (update_job _ _ _ d) as [d'|] eqn:E; [apply update_job_aux in E|done]. by case_match.
  - unfold sqlite_write_progress. case_match; [|done].
    destruct (update_job _ _ _ d) as [d'|] eqn:E; [apply update_job_aux in E|done]. by case_match.
  - unfold sqlite_reclaim. case_if; [done|].
    match goal with |- context [reclaim_rows o now ?v d []] =>
      pose proof (reclaim_rows_aux o now v d []) as H'; by destruct (reclaim_rows o now v d []) end.
  - unfold sqlite_promote. by case_if.
  - unfold sqlite_evict. by case_if.
  - unfold sqlite_operator_retry, simple_transition. case_match eqn:E; [by apply update_job_aux in E|done].
  - unfold sqlite_operator_cancel, simple_transition. case_match eqn:E; [by apply update_job_aux in E|done].
  - unfold sqlite_promote_job, simple_transition. case_match eqn:E; [by apply update_job_aux in E|done].
  - unfold sqlite_schedule_pending, update_or. case_match eqn:E; [by apply update_job_aux in E|done].
  - unfold reschedule_job, update_or. case_match eqn:E; [by apply update_job_aux in E|done].
  - unfold sqlite_edit_payload, update_or. case_if; [done|].
    case_match eqn:E; [by apply update_job_aux in E|done].
  - unfold sqlite_delete_job. case_match eqn:E; [by apply delete_row_aux in E|done].
  - unfold sqlite_quarantine_release. by case_if.
  - unfold sqlite_quarantine_sweep. by case_if.
  - unfold run_pending_operations. case_if; [done|]. destruct (head _) as [[id op]|]; [|done].
    destruct (op_dry_run op); [done|]. by rewrite <-(bulk_apply_aux now (op_action op)
      (select_ids (selected (op_action op) (op_selector op)) id_le batch d) d).
Qed.

Lemma sq_run_tables op d : sq_typed op → tables_ok d → tables_ok (run op d).
Proof.
  intros Ht Hd. destruct (is_enqueue op) eqn:E; [by eapply tables_ok_frame, Hd; apply enqueue_tables|].
  pose proof (write_aux op d) as Hw.
  destruct op; try discriminate E; try (by eapply tables_ok_frame, Hd); cbn [sq_run] in *;
    auto using admit_tables_ok, ack_tables, complete_tables, weight_tables, pause_tables,
      rate_class_tables, limit_tables, schedule_event_tables, append_tables, delete_queue_tables,
      enqueue_limit_tables, sample_tables.
  - unfold sqlite_ack_with_result. case_match; [by apply complete_tables|done].
  - unfold complete_tx. by apply complete_tables.
  - unfold sqlite_claim_duty. framed Hd.
  - unfold sqlite_release_duty. framed Hd.
  - unfold claim_effect. framed Hd.
  - unfold upsert_schedule. framed Hd.
  - unfold delete_schedule. framed Hd.
  - unfold sqlite_advance_schedule. framed Hd.
  - unfold sqlite_heartbeat. framed Hd.
  - unfold sqlite_signal. framed Hd.
  - unfold create_operation, insert_operation. framed Hd.
Qed.

Definition sq_step (d d' : Db) : Prop := ∃ op, sq_typed op ∧ d' = run op d.

(** C6.  The schema is an invariant of the embedded store: in every database that any sequence
    of operations, called with arguments of their types - enqueues in or out of a transaction,
    admissions, settlements, sweeps, operator and policy calls, memory samples - makes of the
    empty one, every job row satisfies its [CHECK]s, those on recorded results and outputs
    included, holds a lease exactly while it runs and keeps at most fifty history entries; ids,
    limits' queues and events' idempotency keys are unique; buckets never hold more than their
    burst; and no schedule or scope keeps more than a hundred events. *)
Theorem sqlite_databases_are_well_formed d : rtc sq_step empty_db d → db_ok d.
Proof.
  intros Hr. assert (db_ok empty_db) as H0 by apply empty_db_ok. revert H0.
  induction Hr as [d|d1 d2 d3 (op & Ht & ->) _ IH]; [done|]. intros [Hj Htab]. apply IH.
  split; [by apply sq_run_jobs_ok|by apply sq_run_tables].
Qed.
End every_operation.
