(* ===== verification/SqliteEnqueue.v ===== *)
(** * Enqueueing into the SQLite store

    An accepted batch is stored as a whole, exactly once, under the queue's limit and without a
    second holder of a unique key; a refused one leaves the database as it was, except that a
    debounce or a replacement rewrites the row that holds the key. *)

From S2P Require Import Prelude Shared Lifecycle Envelope MemStore MemInv Core Coordinator Scheduler Attempt Worker Pool Sqlite SqliteInspect SqliteRows SqliteSpec SqliteAdmit SqliteType.
Local Open Scope Z_scope.

Section enqueue.
Context (cf : string) (ord : list string) (now now' : Z) (d : Db).

(** The key an envelope is checked under, if any. *)
Definition checked_key (e : Envelope) : option bytes :=
  if (0 <? e_unique_window_ms e) || negb (e_pending e) then effective_unique_key e else None.

(** The envelope is already stored, with the same content. *)
Definition replayed (e : Envelope) : Prop :=
  ∃ r, sq_job d !! e_id e = Some r
       ∧ same_job_content e (e_kind (row_env r)) (e_fingerprint (row_env r)) (e_queue (row_env r)) = true.

(** What the first loop lets through. *)
Record passes (batch : list Envelope) (taken : gmap bytes string) (added : list (Envelope * option bytes))
    : Prop := {
  ps_new : ∀ e key, (e, key) ∈ added → e ∈ batch ∧ sq_job d !! e_id e = None ∧ key = effective_unique_key e;
  ps_all : ∀ e, e ∈ batch → replayed e ∨ (e, effective_unique_key e) ∈ added;
  ps_free : ∀ e key k, (e, key) ∈ added → checked_key e = Some k →
    taken !! k = None ∧ unique_row ord k now d = None;
  ps_distinct : NoDup (omap (λ x, checked_key x.1) added);
  ps_length : (length added ≤ length batch)%nat;
}.

Lemma check_batch_passes batch taken pending d' res :
  check_batch cf ord now now' batch taken pending d = (d', Ok res) →
  ∃ added, res = pending ++ added ∧ passes batch taken added.
Proof.
  revert taken pending. induction batch as [|e batch IH]; intros taken pending; cbn [check_batch].
  { intros [= _ <-]. exists []. rewrite app_nil_r. split; [done|].
    constructor; [set_solver..|constructor|done]. }
  destruct (sq_job d !! e_id e) as [r|] eqn:Er.
  { case_match eqn:Es; [|done]. intros H. destruct (IH _ _ H) as (added & -> & [P1 P2 P3 P4 P5]).
    exists added. split; [done|]. constructor; [..|done|cbn [length]; lia].
    - intros x key Hx. destruct (P1 _ _ Hx) as (? & ?). set_solver.
    - intros x [->|Hx]%elem_of_cons; [left; by exists r|by apply P2].
    - done. }
  case_match; [done|]. fold (checked_key e).
  assert (∀ taken', (∀ k, checked_key e = Some k → taken' !! k = Some (e_id e) ∧ taken !! k = None
                                                   ∧ unique_row ord k now d = None) →
    (∀ k, taken' !! k = None → taken !! k = None) →
    check_batch cf ord now now' batch taken' (pending ++ [(e, effective_unique_key e)]) d = (d', Ok res) →
    ∃ added, res = pending ++ added ∧ passes (e :: batch) taken added) as Hgo.
  { intros taken' Hk Hmono H'. destruct (IH _ _ H') as (added & -> & [P1 P2 P3 P4 P5]).
    exists ((e, effective_unique_key e) :: added). rewrite <-app_assoc. split; [done|]. constructor.
    - intros x key [[= -> ->]|Hx]%elem_of_cons; [set_solver|]. destruct (P1 _ _ Hx) as (? & ?). set_solver.
    - intros x [->|Hx]%elem_of_cons; [right; set_solver|]. destruct (P2 _ Hx); [by left|right; set_solver].
    - intros x key k [[= -> ->]|Hx]%elem_of_cons Hc; [by apply Hk in Hc as (_ & ? & ?)|].
      destruct (P3 _ _ _ Hx Hc) as [? ?]. split; [by apply Hmono|done].
    - cbn [omap list_omap fst]. destruct (checked_key e) as [k|] eqn:Ek; [|done]. apply NoDup_cons. split; [|done].
      intros ([x key] & Hx & Hc)%list_elem_of_omap. destruct (P3 _ _ _ Hx Hc) as [Hn _].
      destruct (Hk k eq_refl) as [Hs _]. congruence.
    - cbn [length]. lia. }
  destruct (checked_key e) as [k|] eqn:Ek.
  - destruct (taken !! k) eqn:Et; [done|]. destruct (unique_row ord k now d) eqn:Eu; [by case_match|].
    apply Hgo.
    + intros k' [= <-]. by rewrite lookup_insert_eq.
    + intros k'. rewrite lookup_insert_None. tauto.
  - by apply Hgo.
Qed.
End enqueue.

(** ** The inserts *)

Lemma insert_rows_ok cf now pending d d' u :
  insert_rows cf now pending d = (d', Ok u) →
  (∀ e key, (e, key) ∈ pending → sq_job d' !! e_id e = Some (new_row now e key))
  ∧ (∀ id, id ∉ (λ x, e_id x.1) <$> pending → sq_job d' !! id = sq_job d !! id)
  ∧ (∀ p, count_in p (sq_job d')
          = count_in p (sq_job d) + foldr (λ x acc, b2z (p (new_row now x.1 x.2)) + acc) 0 pending)
  ∧ sq_job d ⊆ sq_job d'.
Proof.
  revert d. induction pending as [|[e key] pending IH]; intros d; cbn [insert_rows].
  { intros [= <- _]. split_and!; [set_solver|done|intros p; simpl; lia|done]. }
  destruct (insert_row cf (new_row now e key) d) as [d1|] eqn:E; [|done].
  apply insert_row_spec in E as (_ & Hn & ->). change (e_id (row_env (new_row now e key))) with (e_id e) in *.
  intros H. destruct (IH _ H) as (I1 & I2 & I3 & I4).
  change (sq_job (d <| sq_job := ?m |>)) with m in *.
  assert (sq_job d' !! e_id e = Some (new_row now e key)) as He
    by (eapply lookup_weaken; [apply lookup_insert_eq|exact I4]).
  split_and!.
  - intros x k [[= -> ->]|Hx]%elem_of_cons; [done|by apply I1].
  - intros id Hid. cbn [fmap list_fmap fst] in Hid. apply not_elem_of_cons in Hid as [Hne Hid].
    rewrite I2 by done. by apply lookup_insert_ne.
  - intros p. rewrite I3. cbn [foldr fst snd].
    rewrite (count_in_take p (e_id e) (new_row now e key)) by apply lookup_insert_eq.
    rewrite delete_insert_id by done. lia.
  - etrans; [|exact I4]. by apply insert_subseteq.
Qed.

(** ** Backpressure *)

(** How many envelopes of a list go to a queue. *)
Definition bound_for (q : string) (pending : list (Envelope * option bytes)) : Z :=
  Z.of_nat (length (List.filter (λ x, String.eqb (enqueue_queue x.1) q) pending)).

Lemma bound_for_app q l x :
  bound_for q (l ++ [x]) = bound_for q l + b2z (String.eqb (enqueue_queue x.1) q).
Proof.
  unfold bound_for. rewrite List.filter_app, length_app. cbn [List.filter]. case_match; cbn [length b2z]; lia.
Qed.

Lemma demand_spec pending q :
  Z.of_nat (length pending) ≤ i64_max →
  default 0 (btree_get q (demand pending)) = bound_for q pending
  ∧ (0 < bound_for q pending → is_Some (btree_get q (demand pending))).
Proof.
  unfold demand. induction pending as [|x l IH] using rev_ind; [done|]. intros Hfit.
  rewrite length_app in Hfit. cbn [length] in Hfit. destruct IH as [IH1 IH2]; [lia|].
  rewrite foldl_app. cbn [foldl]. rewrite btree_get_insert, bound_for_app.
  destruct (String.eqb_spec q (enqueue_queue x.1)) as [->|Hne].
  - rewrite String.eqb_refl. cbn [b2z]. split; [|by eexists]. cbn [default]. rewrite IH1.
    unfold u64_add. apply wrap_u64_id. unfold bound_for.
    pose proof (sublist_length _ _ (listfilter_sublist (λ y, String.eqb (enqueue_queue y.1) (enqueue_queue x.1)) l)).
    unfold in_u64, u64_max, i64_max in *. simpl. lia.
  - destruct (String.eqb_spec (enqueue_queue x.1) q); [congruence|]. cbn [b2z]. rewrite Z.add_0_r. done.
Qed.

Lemma btree_get_elem {V} q (v : V) m : btree_get q m = Some v → (q, v) ∈ m.
Proof.
  induction m as [|[k w] m IH]; cbn [btree_get]; [done|].
  destruct (String.eqb_spec q k) as [->|]; [intros [= ->]; by left|]. intros H. right. by apply IH.
Qed.

Lemma backpressure_spec demand d q n limit :
  backpressure demand d = Ok tt → (q, n) ∈ demand → mjoin (sq_policy d !! q) = Some limit →
  u64_add (wrap_u64 (unfinished q d)) n ≤ wrap_u64 limit.
Proof.
  induction demand as [|[q' n'] l IH]; intros Hb Hin Hl; [by apply not_elem_of_nil in Hin|].
  cbn [backpressure] in Hb. apply elem_of_cons in Hin as [[= <- <-]|Hin].
  - rewrite Hl in Hb. case_if_in Hb; [done|]. by bool_hyps.
  - apply IH; [|done|done]. destruct (mjoin (sq_policy d !! q')); [by case_if_in Hb|done].
Qed.

Lemma new_row_unfinished now q x :
  String.eqb (e_queue (row_env (new_row now x.1 x.2))) q && state_in UNFINISHED_STATES (new_row now x.1 x.2)
  = String.eqb (enqueue_queue x.1) q.
Proof.
  change (e_queue (row_env (new_row now x.1 x.2))) with (enqueue_queue x.1).
  assert (state_in UNFINISHED_STATES (new_row now x.1 x.2) = true) as ->; [|apply andb_true_r].
  apply state_in_elem. pose proof (new_row_state now x.1 x.2). unfold UNFINISHED_STATES. set_solver.
Qed.

Lemma unfinished_sum now q pending :
  foldr (λ x acc, b2z (String.eqb (e_queue (row_env (new_row now x.1 x.2))) q
                       && state_in UNFINISHED_STATES (new_row now x.1 x.2)) + acc) 0 pending
  = bound_for q pending.
Proof.
  unfold bound_for. induction pending as [|x l IH]; [done|]. cbn [foldr List.filter].
  rewrite new_row_unfinished, IH. destruct (String.eqb _ q); cbn [length b2z]; lia.
Qed.

Lemma unfinished_after cf now pending d d' u q :
  insert_rows cf now pending d = (d', Ok u) → unfinished q d' = unfinished q d + bound_for q pending.
Proof.
  intros (_ & _ & Hc & _)%insert_rows_ok. rewrite <-(unfinished_sum now q pending).
  exact (Hc (λ r, String.eqb (e_queue (row_env r)) q && state_in UNFINISHED_STATES r)).
Qed.

(** ** The contract *)

(** A batch that is accepted. *)
Record accepted (ord : list string) (now : Z) (batch : list Envelope) (d d' : Db) : Prop := {
  ac_stored : ∀ e, e ∈ batch → ∃ r, sq_job d' !! e_id e = Some r
    ∧ (sq_job d !! e_id e = Some r
         ∧ same_job_content e (e_kind (row_env r)) (e_fingerprint (row_env r)) (e_queue (row_env r)) = true
       ∨ sq_job d !! e_id e = None ∧ r = new_row now e (effective_unique_key e));
  ac_kept : sq_job d ⊆ sq_job d';
  ac_nothing_else : ∀ id r, sq_job d' !! id = Some r → sq_job d !! id = None →
    ∃ e, e ∈ batch ∧ e_id e = id;
  ac_backpressure : ∀ q limit e, mjoin (sq_policy d !! q) = Some limit → e ∈ batch →
    sq_job d !! e_id e = None → enqueue_queue e = q → unfinished q d' ≤ limit;
  ac_unique : ∀ e k, e ∈ batch → sq_job d !! e_id e = None → checked_key e = Some k →
    (∀ id, is_Some (sq_job d !! id) → id ∈ ord) →
    ∀ id r, sq_job d' !! id = Some r → holds_key k now r = true → id = e_id e;
}.

(** The holder of a key was rewritten; nothing else changed. *)
Definition rewritten (id : string) (d d' : Db) : Prop :=
  ∃ r r', sq_job d !! id = Some r ∧ row_step r r' ∧ d' = d <| sq_job := <[id := r']> (sq_job d) |>.

Lemma new_row_holds now e key k :
  holds_key k now (new_row now e key) = true → key = effective_unique_key e → checked_key e = Some k.
Proof.
  unfold holds_key. rewrite andb_true_iff, bool_decide_eq_true, orb_true_iff, !andb_true_iff.
  change (row_unique_key (new_row now e key)) with key.
  change (row_unique_window (new_row now e key)) with (e_unique_window_ms e).
  intros [Hk Hd] ->. unfold checked_key. destruct Hd as [[-> _]|[_ Hs]]; [done|].
  apply state_in_elem in Hs. unfold new_row in Hs. cbn [row_state] in Hs.
  destruct (e_pending e); [unfold LIFECYCLE_STATES in Hs; set_solver|]. by rewrite orb_true_r.
Qed.

Lemma unique_row_none ord k now d :
  unique_row ord k now d = None → (∀ id, is_Some (sq_job d !! id) → id ∈ ord) →
  ∀ id r, sq_job d !! id = Some r → holds_key k now r = false.
Proof.
  unfold unique_row. intros Hf Ho id r Hr. assert (id ∈ ord) as Hin by (apply Ho; by exists r).
  apply list_elem_of_In in Hin. pose proof (List.find_none _ _ Hf id Hin) as H. cbv beta in H.
  by rewrite Hr in H.
Qed.

Lemma omap_NoDup_inj {A B} (f : A → option B) l x y k :
  NoDup (omap f l) → x ∈ l → y ∈ l → f x = Some k → f y = Some k → x = y.
Proof.
  induction l as [|z l IH]; [by intros _ ?%not_elem_of_nil|]. cbn [omap list_omap].
  intros Hnd Hx Hy Ex Ey. destruct (f z) as [k'|] eqn:Ez.
  - apply NoDup_cons in Hnd as [Hn Hnd].
    apply elem_of_cons in Hx as [->|Hx], Hy as [->|Hy]; [done| | |by apply IH].
    + destruct Hn. apply list_elem_of_omap. exists y. by simplify_eq.
    + destruct Hn. apply list_elem_of_omap. exists x. by simplify_eq.
  - apply elem_of_cons in Hx as [->|Hx], Hy as [->|Hy]; try congruence. by apply IH.
Qed.

(** A queue that is under its limit with its demand stays under it. *)
Lemma demand_fits q limit d (added : list (Envelope * option bytes)) e key :
  backpressure (demand added) d = Ok tt → mjoin (sq_policy d !! q) = Some limit →
  (∀ q n, sq_policy d !! q = Some (Some n) → 0 ≤ n ≤ i64_max) →
  Z.of_nat (size (sq_job d)) + Z.of_nat (length added) ≤ i64_max →
  (e, key) ∈ added → enqueue_queue e = q → unfinished q d + bound_for q added ≤ limit.
Proof.
  intros Hbp Hl Hpol Hfit Hin Hq.
  assert (0 ≤ limit ≤ i64_max) as Hlim.
  { destruct (sq_policy d !! q) as [[n|]|] eqn:E; try done. simpl in Hl. simplify_eq. by eapply Hpol. }
  pose proof (count_in_bound (λ r, String.eqb (e_queue (row_env r)) q && state_in UNFINISHED_STATES r) (sq_job d)) as Hu.
  change (0 ≤ unfinished q d ≤ Z.of_nat (size (sq_job d))) in Hu.
  destruct (demand_spec added q) as [Hd Hs]; [lia|].
  assert (0 < bound_for q added) as Hpos.
  { unfold bound_for. destruct (List.filter _ added) eqn:E; [|cbn [length]; lia].
    assert ((e, key) ∈ List.filter (λ x, String.eqb (enqueue_queue x.1) q) added) as H.
    { apply elem_of_listfilter. split; [|done]. cbn [fst]. rewrite Hq. apply String.eqb_refl. }
    rewrite E in H. by apply not_elem_of_nil in H. }
  assert (bound_for q added ≤ Z.of_nat (length added)) as Hle.
  { unfold bound_for. pose proof (sublist_length _ _
      (listfilter_sublist (λ x : Envelope * option bytes, String.eqb (enqueue_queue x.1) q) added)). lia. }
  destruct (Hs Hpos) as [n Hn]. rewrite Hn in Hd. change (n = bound_for q added) in Hd. subst n.
  pose proof (backpressure_spec _ _ _ _ _ Hbp (btree_get_elem _ _ _ Hn) Hl) as Hb.
  unfold u64_add in Hb. unfold i64_max in *.
  rewrite (wrap_u64_id (unfinished q d)), (wrap_u64_id limit), wrap_u64_id in Hb;
    unfold in_u64, u64_max in *; lia.
Qed.

Lemma passes_accepted cf ord now batch added d d2 d' u :
  passes ord now d batch ∅ added → insert_rows cf now added d = (d2, Ok u) → sq_job d' = sq_job d2 →
  backpressure (demand added) d = Ok tt →
  (∀ q n, sq_policy d !! q = Some (Some n) → 0 ≤ n ≤ i64_max) →
  Z.of_nat (size (sq_job d)) + Z.of_nat (length added) ≤ i64_max →
  accepted ord now batch d d'.
Proof.
  intros [P1 P2 P3 P4 P5] Hins Ej Hbp Hpol Hfit.
  pose proof Hins as (I1 & I2 & _ & I4)%insert_rows_ok.
  assert (∀ id r, sq_job d' !! id = Some r → sq_job d !! id = None →
    ∃ e key, (e, key) ∈ added ∧ e_id e = id ∧ r = new_row now e key) as Hnew.
  { intros id r Hr Hn. rewrite Ej in Hr.
    destruct (decide (id ∈ (λ x, e_id x.1) <$> added)) as [Hin|Hin]; [|rewrite I2 in Hr by done; congruence].
    apply list_elem_of_fmap in Hin as ([e key] & -> & Hin). exists e, key. split_and!; [done|done|].
    cbn [fst] in Hr. rewrite (I1 _ _ Hin) in Hr. congruence. }
  constructor.
  - intros e He. rewrite Ej. destruct (P2 e He) as [(r & Hr & Hs)|Hin].
    + exists r. split; [by eapply lookup_weaken|by left].
    + eexists. split; [by apply I1|]. right. by destruct (P1 _ _ Hin) as (_ & ? & _).
  - by rewrite Ej.
  - intros id r Hr Hn. destruct (Hnew _ _ Hr Hn) as (e & key & Hin & <- & _). exists e.
    by destruct (P1 _ _ Hin) as [? _].
  - intros q limit e Hl He Hn Hq. destruct (P2 e He) as [(r & Hr & _)|Hin]; [congruence|].
    assert (unfinished q d' = unfinished q d + bound_for q added) as ->.
    { rewrite <-(unfinished_after _ _ _ _ _ _ q Hins). unfold unfinished, count_jobs. by rewrite Ej. }
    by eapply demand_fits.
  - intros e k He Hn Hk Hord id r Hr Hh. destruct (P2 e He) as [(r0 & Hr0 & _)|Hin]; [congruence|].
    destruct (P3 _ _ _ Hin Hk) as [_ Hfree]. destruct (sq_job d !! id) as [x|] eqn:Ex.
    + rewrite Ej, (lookup_weaken _ _ _ _ Ex I4) in Hr. injection Hr as <-.
      by rewrite (unique_row_none _ _ _ _ Hfree Hord _ _ Ex) in Hh.
    + destruct (Hnew _ _ Hr Ex) as (e' & key & Hin' & <- & ->).
      destruct (P1 _ _ Hin') as (_ & _ & Hkey). pose proof (new_row_holds _ _ _ _ Hh Hkey) as Hk'.
      pose proof (omap_NoDup_inj (λ x, checked_key x.1) added _ _ k P4 Hin Hin' Hk Hk') as [= -> _]. done.
Qed.

(** How the first loop fails: the database is unchanged, or the holder was rewritten. *)
Lemma rewrite_holder_cases cf states f id d :
  (∀ r, state_in states r = true → row_checks (f r) = true → row_step r (f r)) →
  let res := rewrite_holder cf states f id d in
  res.1 = d ∧ (∀ i, res.2 ≠ StoreError.Duplicate i true) ∨ res.2 = StoreError.Duplicate id true ∧ rewritten id d res.1.
Proof.
  intros Hf. unfold rewrite_holder. destruct (sq_job d !! id) as [r|] eqn:Er; [|by left].
  destruct (state_in states r) eqn:Es; [|by left]. destruct (row_checks (f r)) eqn:Ec; [|by left].
  right. split; [done|]. exists r, (f r). split_and!; [done|by apply Hf|done].
Qed.

Lemma duplicate_row_cases cf now' e id d :
  let res := duplicate_row cf now' e id d in
  res.1 = d ∧ (∀ i, res.2 ≠ StoreError.Duplicate i true) ∨ res.2 = StoreError.Duplicate id true ∧ rewritten id d res.1.
Proof.
  unfold duplicate_row. case_if; [apply rewrite_holder_cases; apply rs_debounce|].
  case_if; [apply rewrite_holder_cases; apply rs_replace|]. by left.
Qed.

Lemma check_batch_fails cf ord now now' batch taken pending d d' err :
  check_batch cf ord now now' batch taken pending d = (d', Err err) →
  d' = d ∧ (∀ i, err ≠ StoreError.Duplicate i true) ∨ ∃ id, err = StoreError.Duplicate id true ∧ rewritten id d d'.
Proof.
  revert taken pending. induction batch as [|e batch IH]; intros taken pending; cbn [check_batch]; [done|].
  destruct (sq_job d !! e_id e) as [r|]; [case_if; [apply IH|intros [= <- <-]; by left]|].
  case_if; [intros [= <- <-]; by left|]. fold (checked_key e).
  destruct (checked_key e) as [k|]; [|apply IH].
  destruct (taken !! k); [intros [= <- <-]; by left|].
  destruct (unique_row ord k now d) as [id|]; [|apply IH].
  pose proof (duplicate_row_cases cf now' e id d) as Hc. destruct (duplicate_row cf now' e id d) as [d1 err1].
  intros [= <- <-]. cbn [fst snd] in Hc. destruct Hc as [Hc|[? ?]]; [by left|right; by exists id].
Qed.

(** Validation and the statements never report a replaced holder. *)
Definition no_duplicate {A} (r : result A StoreError.StoreError) : Prop :=
  ∀ i b, r ≠ Err (StoreError.Duplicate i b).

Lemma no_duplicate_ok {A} (a : A) : no_duplicate (Ok a).
Proof. by intros i b. Qed.
Lemma no_duplicate_if {A} (c : bool) e (k : result A StoreError.StoreError) :
  (∀ i b, e ≠ StoreError.Duplicate i b) → no_duplicate k → no_duplicate (if c then Err e else k).
Proof. intros He Hk i b. destruct c; [|apply Hk]. intros [= E]. by apply (He i b). Qed.
Lemma no_duplicate_bind {A B} (r : result A StoreError.StoreError) (k : A → result B StoreError.StoreError) :
  no_duplicate r → (∀ a, no_duplicate (k a)) → no_duplicate (let? a := r in k a).
Proof. intros Hr Hk i b. destruct r as [a|e]; simpl; [apply Hk|]. intros [= ->]. by apply (Hr i b). Qed.

Ltac no_dup :=
  repeat first [apply no_duplicate_ok|apply no_duplicate_if; [done|]|apply no_duplicate_bind; [|intros ?]].

Lemma check_tags_no_duplicate seen total tags : no_duplicate (check_tags seen total tags).
Proof. revert seen total. induction tags as [|tag tags IH]; intros seen total; cbn [check_tags]; no_dup. apply IH. Qed.

Lemma validate_envelope_no_duplicate seen total e : no_duplicate (validate_envelope seen total e).
Proof.
  unfold validate_envelope. apply no_duplicate_if; [done|]. destruct (validate_kind _); [|by intros i b].
  no_dup; [|apply check_tags_no_duplicate].
  unfold check_identifiers. intros i b. case_match; [|done]. by case_match.
Qed.

Lemma validate_enqueue_no_duplicate batch : no_duplicate (validate_enqueue batch).
Proof.
  unfold validate_enqueue. no_dup. generalize (@nil string) as seen, 0 as total.
  induction batch as [|e batch IH]; intros seen total; cbn [validate_envelopes]; [apply no_duplicate_ok|].
  apply no_duplicate_bind; [apply validate_envelope_no_duplicate|]. intros st. apply IH.
Qed.

Lemma backpressure_no_duplicate demand d : no_duplicate (backpressure demand d).
Proof.
  induction demand as [|[q n] l IH]; cbn [backpressure]; [apply no_duplicate_ok|].
  case_match; [apply no_duplicate_if; [done|exact IH]|exact IH].
Qed.

Lemma insert_rows_no_duplicate cf now pending d : no_duplicate (insert_rows cf now pending d).2.
Proof.
  revert d. induction pending as [|[e key] pending IH]; intros d; cbn [insert_rows]; [apply no_duplicate_ok|].
  destruct (insert_row cf (new_row now e key) d) as [d1|err] eqn:E; [apply IH|].
  unfold insert_row in E. case_if_in E; [done|]. injection E as <-. by intros i b.
Qed.

Ltac refused e H :=
  destruct e as [i [] | | | | | | | |]; [by destruct (H i true)|reflexivity..].

(** C11.  An enqueue into the embedded store is all or nothing.  An accepted batch is stored as a
    whole - each envelope is the row it becomes, or was there with the same content -, adds no
    other row, leaves no queue it adds to above its limit, and leaves each key it was checked
    under with no holder but the envelope's own row.  A refused one leaves the database as it
    was, unless its error says that the holder of a key was replaced: then exactly that row was
    rewritten, by a legal step. *)
Theorem sqlite_enqueue_all_or_nothing cf ord now now' batch d d' res :
  (∀ q n, sq_policy d !! q = Some (Some n) → 0 ≤ n ≤ i64_max) →
  Z.of_nat (size (sq_job d)) + Z.of_nat (length batch) ≤ i64_max →
  sqlite_enqueue cf ord now now' batch d = (d', res) →
  match res with
  | Ok _ => accepted ord now batch d d'
  | Err (StoreError.Duplicate id true) => rewritten id d d'
  | Err _ => d' = d
  end.
Proof.
  intros Hpol Hfit. unfold sqlite_enqueue. case_bool_decide as Hnil.
  { intros [= <- <-]. subst batch. constructor; try done; [by intros e ?%not_elem_of_nil| | |].
    - intros id r Hr Hn. congruence.
    - by intros q l e _ ?%not_elem_of_nil.
    - by intros e k ?%not_elem_of_nil. }
  pose proof (validate_enqueue_no_duplicate batch) as Hv.
  destruct (validate_enqueue batch) as [u|e]; [|intros [= <- <-]; refused e Hv].
  unfold enqueue_on. destruct (check_batch cf ord now now' batch ∅ [] d) as [d1 [pending|err]] eqn:Ec.
  - pose proof (check_batch_ok _ _ _ _ _ _ _ _ _ _ Ec) as ->.
    apply check_batch_passes in Ec as (added & -> & Hp). cbn [app].
    pose proof (backpressure_no_duplicate (demand added) d) as Hnb.
    destruct (backpressure (demand added) d) as [[]|e] eqn:Eb.
    + pose proof (insert_rows_no_duplicate cf now added d) as Hni.
      destruct (insert_rows cf now added d) as [d2 [u2|e2]] eqn:Ei.
      * intros [= <- <-]. eapply passes_accepted; [exact Hp|exact Ei|by rewrite bump_counters_job|done|done|].
        pose proof (ps_length _ _ _ _ _ _ Hp). lia.
      * intros [= <- <-]. refused e2 Hni.
    + intros [= <- <-]. refused e Hnb.
  - intros [= <- <-]. destruct (check_batch_fails _ _ _ _ _ _ _ _ _ _ Ec) as [[-> Hn]|(id & -> & Hr)].
    + destruct err as [i []| | | | | | | |]; try reflexivity. by destruct (Hn i).
    + done.
Qed.

(** A queue limited to two jobs takes two and refuses a third. *)
Definition sq_demo_limited : Db := sq_demo_run (SqEnqueueLimit "mail" (Some 2)) empty_db.
Definition sq_demo_pair : list Envelope := [sq_demo_env "a" "mail" "x"; sq_demo_env "b" "mail" "y"].

Lemma sq_demo_limited_policy q n : sq_policy sq_demo_limited !! q = Some (Some n) → 0 ≤ n ≤ i64_max.
Proof.
  change (sq_policy sq_demo_limited) with ({["mail" := Some 2]} : gmap string (option Z)).
  rewrite lookup_singleton_Some. intros [_ [= <-]]. unfold i64_max. lia.
Qed.

Lemma sqlite_enqueue_all_or_nothing_witness :
  accepted [] 1000 sq_demo_pair sq_demo_limited
    (sqlite_enqueue "constraint" [] 1000 1000 sq_demo_pair sq_demo_limited).1
  ∧ (sqlite_enqueue "constraint" ["a"; "b"] 1001 1001 [sq_demo_env "c" "mail" "x"]
       (sqlite_enqueue "constraint" [] 1000 1000 sq_demo_pair sq_demo_limited).1).2
    = Err (StoreError.Backpressure "mail" 2 2 1).
Proof.
  split; [|vm_compute; reflexivity].
  pose proof (sqlite_enqueue_all_or_nothing "constraint" [] 1000 1000 sq_demo_pair sq_demo_limited
    (sqlite_enqueue "constraint" [] 1000 1000 sq_demo_pair sq_demo_limited).1 (Ok tt) sq_demo_limited_policy) as H.
  apply H; [vm_compute; discriminate|vm_compute; reflexivity].
Defined.
