(* ===== verification/SqliteLive.v ===== *)
(** * Runs of the SQLite store

    Concrete databases that satisfy the hypotheses of the theorems, and runs that show where
    the adapter departs from the reference store of headgate-testkit or from its contract. *)

From S2P Require Import Prelude Shared Lifecycle Envelope MemStore MemInv Core Coordinator Scheduler Attempt Worker Pool Sqlite SqliteInspect SqliteRows SqliteSpec SqliteAdmit SqliteType.
Local Open Scope Z_scope.

(** A rate class, a limit and three jobs. *)
Definition sq_demo_ops : list sq_op :=
  [SqRateClass 1000 (mkRateClassConfig "smtp" 1 1000 5 false);
   SqLimit (mkConcurrencyLimit "one" "mail" 1 SaturationStrategy.Queue);
   SqEnqueue [] 1000 1000 [sq_demo_env "a" "mail" "x"; sq_demo_env "b" "mail" "x"; sq_demo_env "c" "mail" "y"]].

Definition sq_demo_db : Db := foldl (λ d op, sq_demo_run op d) empty_db sq_demo_ops.

Lemma run_list_steps ops d :
  Forall sq_typed ops →
  rtc (sq_step "constraint" (λ _, true) default_options) d (foldl (λ d op, sq_demo_run op d) d ops).
Proof.
  revert d. induction ops as [|op ops IH]; intros d Ht; cbn [foldl]; [done|].
  apply Forall_cons in Ht as [Hop Ht]. eapply rtc_l; [by exists op|by apply IH].
Qed.

Lemma sq_demo_typed : Forall sq_typed sq_demo_ops.
Proof. repeat constructor; vm_compute; discriminate. Qed.

(** Any run from the empty database is well formed; the helper the witnesses share. *)
Lemma run_list_ok ops d :
  Forall sq_typed ops → db_ok d → db_ok (foldl (λ d op, sq_demo_run op d) d ops).
Proof.
  revert d. induction ops as [|op ops IH]; intros d Ht Hd; cbn [foldl]; [done|].
  apply Forall_cons in Ht as [Hop Ht]. apply IH; [done|]. destruct Hd as [Hj Hd].
  split; [by apply sq_run_jobs_ok|by apply sq_run_tables].
Qed.

Lemma sq_demo_db_ok : db_ok sq_demo_db.
Proof. apply run_list_ok; [apply sq_demo_typed|apply empty_db_ok]. Qed.

Lemma sqlite_databases_are_well_formed_witness :
  length (map_to_list (sq_job sq_demo_db)) = 3%nat ∧ db_ok sq_demo_db.
Proof.
  split; [vm_compute; reflexivity|].
  apply (sqlite_databases_are_well_formed "constraint" (λ _, true) default_options sq_demo_db).
  apply run_list_steps, sq_demo_typed.
Defined.

Definition sq_demo_units : list AdmissionUnit :=
  match (sqlite_admit 2000 sq_demo_request sq_demo_db).2 with Ok units => units | Err _ => [] end.

Lemma sq_demo_admits :
  sqlite_admit 2000 sq_demo_request sq_demo_db
  = ((sqlite_admit 2000 sq_demo_request sq_demo_db).1, Ok sq_demo_units).
Proof. vm_compute. reflexivity. Qed.

(** Two of the three are claimed: the second job of partition [x] exceeds the limit. *)
Lemma sqlite_admit_within_policies_witness :
  (λ c, e_id (c_envelope c)) <$> concat sq_demo_units = ["a"; "c"]
  ∧ Z.of_nat (length (concat sq_demo_units)) ≤ 2.
Proof.
  split; [vm_compute; reflexivity|].
  refine (proj1 (sqlite_admit_within_policies 2000 sq_demo_request sq_demo_db _ sq_demo_units
    (proj1 sq_demo_db_ok) (tk_limit _ (proj2 sq_demo_db_ok)) (tk_bucket _ (proj2 sq_demo_db_ok)) _ _
    sq_demo_admits)); vm_compute; discriminate.
Defined.

Definition sq_fences_below (n : Z) (d : Db) : bool :=
  forallb (λ x, row_fence x.2 <? n) (map_to_list (sq_job d)).

Lemma sq_fences_below_spec n d id r :
  sq_fences_below n d = true → sq_job d !! id = Some r → row_fence r < n.
Proof.
  unfold sq_fences_below. rewrite forallb_forall. intros H Hr.
  apply Z.ltb_lt, (H (id, r)), list_elem_of_In. by apply elem_of_map_to_list.
Qed.

Definition sq_no_preemption (d : Db) : bool :=
  forallb (λ x, negb (String.eqb (li_on_saturated x.2) "cancel_running")) (map_to_list (sq_limit d)).

Lemma sq_no_preemption_spec d n l :
  sq_no_preemption d = true → sq_limit d !! n = Some l → li_on_saturated l ≠ "cancel_running".
Proof.
  unfold sq_no_preemption. rewrite forallb_forall. intros H Hn.
  apply String.eqb_neq, negb_true_iff, (H (n, l)), list_elem_of_In. by apply elem_of_map_to_list.
Qed.

Definition sq_demo_claim : Claim :=
  mkClaim (scan_env (new_row 1000 (sq_demo_env "a" "mail" "x") None)) "lease-1" 1 32000 default_checkpoint.

Lemma sqlite_admitted_claims_are_honoured_witness :
  ∃ r, select_leased (lease_ref sq_demo_claim) (sqlite_admit 2000 sq_demo_request sq_demo_db).1 = Some r
       ∧ scan_env r = c_envelope sq_demo_claim.
Proof.
  refine (sqlite_admitted_claims_are_honoured 2000 sq_demo_request sq_demo_db _ sq_demo_units
    (proj1 sq_demo_db_ok) (tk_limit _ (proj2 sq_demo_db_ok)) _ _ sq_demo_admits sq_demo_claim _).
  - intros id r. apply sq_fences_below_spec. vm_compute. reflexivity.
  - intros n l. apply sq_no_preemption_spec. vm_compute. reflexivity.
  - apply list_elem_of_In. vm_compute. left. reflexivity.
Defined.

(** ** Refilling a bucket *)

(** [refill_bucket] moves the bucket's clock even when the time that passed is worth less than
    one token: admissions that come more often than that never refill it, however many. *)
Lemma frequent_admission_never_refills b times :
  bucket_ok b → in_i64 (bk_tokens b) → in_i64 (bk_limit b) → Forall (λ t, in_i64 t ∧ 0 ≤ t) times →
  0 ≤ bk_refilled b → in_i64 (bk_refilled b) →
  (∀ i t t', (bk_refilled b :: times) !! i = Some t → times !! i = Some t' →
     0 < t' - t ∧ (t' - t) * bk_limit b < bk_window b) →
  bk_tokens (foldl (λ b t, refill_bucket t b) b times) = bk_tokens b.
Proof.
  revert b. induction times as [|t times IH]; intros b Hb Ht Hl Hts Hr Hri Hgap; [done|]. cbn [foldl].
  apply Forall_cons in Hts as [[Hti Htp] Hts].
  destruct (Hgap 0%nat (bk_refilled b) t eq_refl eq_refl) as [Hpos Hsmall].
  destruct Hb as (Hb1 & Hb2 & Hb3 & Hb4).
  assert (bk_tokens (refill_bucket t b) = bk_tokens b) as E.
  { unfold refill_bucket. case_if; [|done].
    assert (i64_saturating (t - bk_refilled b) = t - bk_refilled b) as ->
      by (unfold i64_saturating, in_i64, i64_min, i64_max in *; lia).
    assert (0 ≤ (t - bk_refilled b) * bk_limit b) as Hm by nia.
    change (Z.min (bk_burst b) (i64_saturating (bk_tokens b +
      i64_div (i64_saturating ((t - bk_refilled b) * bk_limit b)) (bk_window b))) = bk_tokens b).
    assert (i64_div (i64_saturating ((t - bk_refilled b) * bk_limit b)) (bk_window b) = 0) as ->.
    { unfold i64_div. rewrite Z.quot_small by (unfold i64_saturating, i64_min, i64_max in *; lia).
      reflexivity. }
    unfold i64_saturating, in_i64, i64_min, i64_max in *. lia. }
  rewrite IH; [exact E|..].
  - unfold bucket_ok. rewrite E. unfold refill_bucket. by case_if.
  - by rewrite E.
  - unfold refill_bucket. by case_if.
  - done.
  - unfold refill_bucket. by case_if.
  - unfold refill_bucket. by case_if.
  - intros i x x' Hx Hx'. assert (bk_refilled (refill_bucket t b) = t) as Er by (unfold refill_bucket; by case_if).
    assert (bk_limit (refill_bucket t b) = bk_limit b) as -> by (unfold refill_bucket; by case_if).
    assert (bk_window (refill_bucket t b) = bk_window b) as -> by (unfold refill_bucket; by case_if).
    rewrite Er in Hx. exact (Hgap (S i) x x' Hx Hx').
Qed.

(** A class of one token per second, polled every half second for ten seconds: the reference
    store has granted its burst of five, this one nothing. *)
Lemma polling_starves_the_rate_class :
  let times := [500; 1000; 1500; 2000; 2500; 3000; 3500; 4000; 4500; 5000; 5500; 6000; 6500; 7000; 7500;
                8000; 8500; 9000; 9500; 10000] in
  bk_tokens (foldl (λ b t, refill_bucket t b) (mkBucket 0 5 1 1000 0 false) times) = 0
  ∧ rb_tokens (foldl (λ b t, refill t b) (mkRateBucket 0 5 1 1000 0) times) = 5.
Proof. vm_compute. split; reflexivity. Qed.

(** ** Runs that depart from the contract *)

Definition admitted_ids (r : Db * result (list AdmissionUnit) StoreError.StoreError) : list string :=
  match r.2 with Ok units => (λ c, e_id (c_envelope c)) <$> concat units | Err _ => [] end.
Definition state_of (id : string) (d : Db) : option string := row_state <$> sq_job d !! id.
Definition run_all (ops : list sq_op) : Db := foldl (λ d op, sq_demo_run op d) empty_db ops.
Definition bare (id queue part : string) : Envelope := (sq_demo_env id queue part) <| e_fingerprint := "" |>.

(** Quarantine of a job without a fingerprint bars every job without one: [reclaim_expired]
    inserts the empty fingerprint, and admission excludes what is in the table. *)
Lemma empty_fingerprint_bars_the_queue :
  let d := run_all [SqEnqueue [] 1000 1000 [bare "poison" "mail" "x"];
                    SqAdmit 2000 sq_demo_request; SqReclaim 40000 10; SqPromote 90000000 10;
                    SqAdmit 90000000 sq_demo_request; SqReclaim 180000000 10; SqPromote 270000000 10;
                    SqAdmit 270000000 sq_demo_request; SqReclaim 360000000 10;
                    SqEnqueue [] 360000001 360000001 [bare "innocent" "mail" "y"]] in
  state_of "poison" d = Some "quarantined" ∧ state_of "innocent" d = Some "available"
  ∧ admitted_ids (sqlite_admit 360000002 sq_demo_request d) = [].
Proof. vm_compute. split_and!; reflexivity. Qed.

(** Preemption picks the oldest run of the partition, which may be one this call has just
    claimed: the caller is handed two claims and the first is already cancelled. *)
Lemma preemption_cancels_its_own_claim :
  let d := run_all [SqLimit (mkConcurrencyLimit "one" "mail" 1 SaturationStrategy.CancelRunning);
                    SqEnqueue [] 1000 1000 [sq_demo_env "a" "mail" "x"; sq_demo_env "b" "mail" "x"]] in
  admitted_ids (sqlite_admit 2000 sq_demo_request d) = ["a"; "b"]
  ∧ state_of "a" (sqlite_admit 2000 sq_demo_request d).1 = Some "cancelled".
Proof. vm_compute. split; reflexivity. Qed.

(** The candidate window is filled before pauses are looked at: eight partitions of a paused
    queue hide the job of the queue that is not paused. *)
Lemma paused_queue_starves_others :
  let d := run_all [SqEnqueue [] 1000 1000
                      ((λ p, sq_demo_env p "idle" p) <$> ["1"; "2"; "3"; "4"; "5"; "6"; "7"; "8"]);
                    SqEnqueue [] 1000 1000 [sq_demo_env "z" "mail" "x"]; SqPause "idle" true] in
  let req := mkAdmitRequest "w1" "lease-1" ["idle"; "mail"] 1 30000000000 1 in
  state_of "z" d = Some "available" ∧ admitted_ids (sqlite_admit 2000 req d) = []
  ∧ admitted_ids (sqlite_admit 2000 (req <| ar_queues := ["mail"] |>) d) = ["z"].
Proof. vm_compute. split_and!; reflexivity. Qed.

(** The explanation of an admission does not look at a paused rate class. *)
Lemma explanation_ignores_a_paused_class :
  let d := run_all [SqRateClass 1000 (mkRateClassConfig "smtp" 10 1000 10 true);
                    SqEnqueue [] 1000 1000 [sq_demo_env "a" "mail" "x"]] in
  (Shared.admissible <$> sqlite_explain 9000 "a" d) = Some true
  ∧ admitted_ids (sqlite_admit 9000 sq_demo_request d) = [].
Proof. vm_compute. split; reflexivity. Qed.

(** A dry run counts one batch and is done, whatever the selector matches. *)
Lemma dry_run_counts_one_batch :
  let d := run_all [SqEnqueue [] 1000 1000 [sq_demo_env "a" "mail" "x"; sq_demo_env "b" "mail" "x";
                                            sq_demo_env "c" "mail" "x"];
                    SqOperation 2000 (mkBulkRequest "op" "cancel" (Some "mail") None None None None true);
                    SqRunOperations 3000 2; SqRunOperations 4000 2] in
  ((λ o, (op_affected o, op_status o)) <$> sq_operation d !! "op") = Some (2, "completed").
Proof. vm_compute. reflexivity. Qed.

(** The kind prefix is a [LIKE] pattern: underscores and letter case match too much. *)
Lemma kind_prefix_is_a_pattern :
  sql_like "a_b%" "AxB.send" = true ∧ sql_like "a_b%" "a_b.send" = true.
Proof. vm_compute. split; reflexivity. Qed.

(** Retrying by hand does not look at unique keys: two live jobs hold the same one. *)
Lemma operator_retry_breaks_uniqueness :
  let keyed id := (sq_demo_env id "mail" "x") <| e_unique_key := Some "order-7" |> in
  let d := run_all [SqEnqueue [] 1000 1000 [keyed "a"]; SqCancel 2000 "a";
                    SqEnqueue ["a"] 3000 3000 [keyed "b"]; SqRetry 4000 "a"] in
  state_of "a" d = Some "available" ∧ state_of "b" d = Some "available"
  ∧ (row_unique_key <$> sq_job d !! "a") = (row_unique_key <$> sq_job d !! "b").
Proof. vm_compute. split_and!; reflexivity. Qed.
