(* ===== verification/SqlitePorts.v ===== *)
(** * The SQLite store behind the ports

    Instances of the ports through which the rest of the library uses a store - the worker's,
    its control channel, the sweeps of the singleton duties, the producer's and the
    coordinator's - by the adapter, and the laws the clients are proved against.  The theorems
    of [PoolSpec], [WorkerSpec] (those over any store), [CoordTheorems] and [ClientSpec] so hold
    of a fleet that runs on SQLite. *)

From S2P Require Import Prelude Shared Lifecycle Envelope MemStore MemInv Graph Workflow WorkflowSpec Core Tick TickSpec Coordinator CoordSpec Scheduler Attempt Worker Pool PoolSpec Duties Client Sqlite SqliteInspect SqliteRows SqliteSpec SqliteAdmit.
Local Open Scope Z_scope.

(** ** The worker's port *)

#[export] Instance sqlite_worker (now : Z) (o : SqliteOptions) : WorkerStore Db := {|
  ws_admit req d := sqlite_admit now req d;
  ws_ack l outcome err delay logs aw d := sqlite_ack o now l outcome err delay logs aw d;
  ws_renew leases lease d := sqlite_renew now leases lease d;
  as_result_store := Some (λ l logs aw res d, sqlite_ack_with_result now l logs aw res d);
  as_output_store := Some (λ l out d, sqlite_write_output now l out d);
  as_progress_store := Some (λ l u d, sqlite_write_progress now l u d);
|}.

#[export] Instance sqlite_control (now : Z) : ControlStore Db := {|
  has_inspect := true;
  heartbeat_worker w d := sqlite_heartbeat now w d;
  signal_worker id command d := sqlite_signal id command d;
  ws_release_duty duty holder d := sqlite_release_duty duty holder d;
|}.

#[export] Instance sqlite_sweeps (now : Z) (o : SqliteOptions) : SweepStore Db := {|
  sw_claim_duty name holder lease d := sqlite_claim_duty now name holder lease d;
  sw_release_duty name holder d := sqlite_release_duty name holder d;
  sw_reclaim_expired limit d := sqlite_reclaim o now limit d;
  sw_promote_due limit d := sqlite_promote now limit d;
  sw_evict_retained limit d := sqlite_evict now limit d;
  sw_scheduler_sweep := None;
  sw_run_pending_operations := Some (λ limit d, run_pending_operations now limit d);
  sw_quarantine_sweep := Some (λ limit d, sqlite_quarantine_sweep now limit d);
|}.

#[export] Instance sqlite_producer (cf : string) (ord : Db → list string) (now now' : Z) : ProducerStore Db := {|
  pr_enqueue batch d := sqlite_enqueue cf (ord d) now now' batch d;
  pr_enqueue_tx := Some (λ batch d, enqueue_tx cf (ord d) now now' batch d);
|}.

(** A turn adds at most as many claims as decisions, and decides at most once. *)
Definition paced (a a' : AdmitState) : Prop :=
  as_decisions a ≤ as_decisions a' ≤ as_decisions a + 1
  ∧ Z.of_nat (length (as_claims a')) - Z.of_nat (length (as_claims a)) ≤ as_decisions a' - as_decisions a.

Lemma paced_intro a a' n k :
  as_decisions a' = as_decisions a + n → length (as_claims a') = (length (as_claims a) + k)%nat →
  0 ≤ n ≤ 1 → Z.of_nat k ≤ n → paced a a'.
Proof. unfold paced. lia. Qed.

Lemma claim_row_counts req now ms queue limited job a : paced a (claim_row req now ms queue limited job a).
Proof.
  unfold claim_row. case_match; [|apply (paced_intro a a 0 0); lia].
  eapply (paced_intro _ _ 1 1); [reflexivity|exact (length_app (as_claims a) [_])|lia|lia].
Qed.

Lemma saturated_counts req now ms queue max s job a : paced a (saturated req now ms queue max s job a).
Proof.
  assert (∀ x, as_decisions x = as_decisions a → as_claims x = as_claims a →
    paced a (claim_row req now ms queue true job x)) as Hclaim.
  { intros x E1 E2. pose proof (claim_row_counts req now ms queue true job x) as H.
    unfold paced in *. by rewrite E1, E2 in H. }
  unfold saturated. case_if; [by apply Hclaim|]. destruct s.
  - eapply (paced_intro _ _ 0 0); [symmetry; apply Z.add_0_r|symmetry; apply Nat.add_0_r|lia|lia].
  - eapply (paced_intro _ _ 1 0); [reflexivity|symmetry; apply Nat.add_0_r|lia|lia].
  - destruct (victim _ _ _); [by apply Hclaim|].
    eapply (paced_intro _ _ 0 0); [symmetry; apply Z.add_0_r|symmetry; apply Nat.add_0_r|lia|lia].
  - eapply (paced_intro _ _ 1 0); [reflexivity|symmetry; apply Nat.add_0_r|lia|lia].
Qed.

Lemma admit_turn_counts req now ms limits a a' :
  admit_turn req now ms limits a = Some a' → paced a a'.
Proof.
  unfold admit_turn. intros (queue & _ & H)%bind_Some. destruct (default [] _) as [|job rest]; [done|].
  injection H as <-. set (a1 := a <| as_queues := _ |>). change (paced a1 (if rate_blocked a1 (scan_env job)
    then a1 else match limits !! queue with
    | Some (max, s) => saturated req now ms queue max s job a1
    | None => claim_row req now ms queue false job a1 end)).
  case_if; [unfold paced; lia|]. case_match; [case_match; apply saturated_counts|apply claim_row_counts].
Qed.

Lemma admit_turns_counts fuel req now ms limits a :
  Z.of_nat (length (as_claims a)) ≤ as_decisions a ≤ ar_capacity req →
  Z.of_nat (length (as_claims (admit_turns fuel req now ms limits a))) ≤ ar_capacity req.
Proof.
  revert a. induction fuel as [|fuel IH]; intros a Ha; cbn [admit_turns]; [lia|].
  destruct (Z.leb_spec (ar_capacity req) (as_decisions a)); [lia|].
  destruct (admit_turn req now ms limits a) as [a'|] eqn:E; [|lia].
  apply admit_turn_counts in E as [Hd Hc]. apply IH. lia.
Qed.

Lemma sqlite_admit_capacity now req d d' units :
  0 ≤ ar_capacity req → sqlite_admit now req d = (d', Ok units) →
  Z.of_nat (length (concat units)) ≤ ar_capacity req.
Proof.
  intros Hcap. unfold sqlite_admit, normalize_admit_request. cbv zeta.
  destruct (duration_millis _) as [ms|]; [|done].
  case_if; [by intros [= _ <-]|]. destruct (load_policies _ _ ∅) as [d1 policies].
  case_if; [by intros [= _ <-]|]. destruct (load_limits _ ∅) as [limits|]; [|done].
  match goal with |- context [admit_turns ?f ?r now ms limits ?s] =>
    pose proof (admit_turns_counts f r now ms limits s) as Hc;
    remember (admit_turns f r now ms limits s) as a end.
  intros [= _ <-]. rewrite group_admission_perm. apply Hc. split; [done|exact Hcap].
Qed.

(** The pool's theorems apply to workers on SQLite. *)
#[export] Instance sqlite_pool_laws now o : @PoolLaws Db (sqlite_worker now o).
Proof. constructor. intros req d d' units. apply sqlite_admit_capacity. Qed.

(** ** The coordinator's port *)

(** The coordinator of a workflow on SQLite: the database, the lease its attempt runs under and
    the checkpoint that attempt has last persisted. *)
Record SqliteNode := mkSqliteNode {
  sn_db : Db;
  sn_lease : LeaseRef;
  sn_checkpoint : Checkpoint;
}.

#[export] Instance sqlite_node_eta : Eta SqliteNode := λ n,
  mkSqliteNode (sn_db n) (sn_lease n) (sn_checkpoint n).

Section coordinator.
Context (cf : string) (is_json : bytes → bool) (to_string : list json → string).
(** [StoreError]'s message. *)
Context (show : StoreError.StoreError → string).
Context (ord : Db → list string) (now : Z).

Definition on_db {A} (f : Db → Db * result A StoreError.StoreError) (n : SqliteNode) : result SqliteNode string :=
  match f (sn_db n) with
  | (d, Ok _) => Ok (n <| sn_db := d |>)
  | (_, Err e) => Err (show e)
  end.

Definition shown {A} (r : result A StoreError.StoreError) : result A string :=
  match r with Ok a => Ok a | Err e => Err (show e) end.

#[export] Instance sqlite_inspect : Inspect SqliteNode := {|
  get_job id payload n := Ok (sqlite_get_job to_string id payload (sn_db n));
  list_jobs f cursor limit n := shown (sqlite_list_jobs to_string f cursor limit (sn_db n));
  has_checkpoint_inspect := true;
  get_job_checkpoint id n := Ok (get_checkpoint id (sn_db n));
  has_output_inspect := true;
  inspect_output id n := Ok (get_output id (sn_db n));
  promote_job id := on_db (sqlite_promote_job now id);
  schedule_pending_job id at_ms := on_db (sqlite_schedule_pending id at_ms);
  delete_job id := on_db (sqlite_delete_job id);
  operator_retry id := on_db (sqlite_operator_retry now id);
  operator_cancel id := on_db (sqlite_operator_cancel now id);
  inspect_enqueue batch n := on_db (λ d, sqlite_enqueue cf (ord d) now now batch d) n;
  quarantine_release fp := on_db (sqlite_quarantine_release now fp);
  edit_payload id payload version fp := on_db (sqlite_edit_payload id payload version fp);
  append_durable_event e n :=
    match sqlite_append_event is_json now e (sn_db n) with
    | (d, Ok (stored, inserted)) => Ok (stored, inserted, n <| sn_db := d |>)
    | (_, Err err) => Err (show err)
    end;
  list_durable_events scope before limit n := shown (sqlite_list_events scope before limit (sn_db n));
|}.

#[export] Instance sqlite_ctx : CoordinatorCtx SqliteNode := {|
  set_cursor b n :=
    let cp := (sn_checkpoint n) <| cursor := Some b |> in
    match sqlite_checkpoint (sn_lease n) cp (sn_db n) with
    | (d, Ok _) => Ok (n <| sn_db := d |> <| sn_checkpoint := cp |>)
    | (_, Err e) => Err (show e)
    end;
  Coordinator.persist_output version b n :=
    on_db (sqlite_write_output now (sn_lease n) (mkJobResult version b)) n;
|}.

Definition states (d : Db) : gmap string string := row_state <$> sq_job d.
Definition stored_payloads (d : Db) : gmap string bytes := (λ r, e_payload (row_env r)) <$> sq_job d.

Lemma on_db_ok {A} (f : Db → Db * result A StoreError.StoreError) n n' :
  on_db f n = Ok n' →
  ∃ a, f (sn_db n) = (sn_db n', Ok a) ∧ sn_checkpoint n' = sn_checkpoint n.
Proof.
  unfold on_db. destruct (f (sn_db n)) as [d [a|e]]; [|done]. intros [= <-]. by exists a.
Qed.

Lemma update_states id p f d d' st :
  update_job id p f d = Some d' → (∀ r, row_state (f r) = st) →
  (∃ r, sq_job d !! id = Some r ∧ p r = true) ∧ states d' = <[id := st]> (states d).
Proof.
  intros (r & Hr & Hp & ->)%update_job_spec Hf. split; [by exists r|]. rewrite <-(Hf r).
  exact (fmap_insert row_state (sq_job d) id (f r)).
Qed.

Lemma update_keeps_states id p f d d' :
  update_job id p f d = Some d' → (∀ r, row_state (f r) = row_state r) → states d' = states d.
Proof.
  intros (r & Hr & Hp & ->)%update_job_spec Hf.
  etransitivity; [exact (fmap_insert row_state (sq_job d) id (f r))|].
  apply insert_id. unfold states. by rewrite lookup_fmap, Hr, Hf.
Qed.

Lemma simple_ok id from to d d' u :
  simple_transition now id from to d = (d', Ok u) →
  ∃ r, sq_job d !! id = Some r ∧ row_state r ∈ from
       ∧ d' = d <| sq_job := <[id := operator_row now to r]> (sq_job d) |>.
Proof.
  unfold simple_transition. destruct (update_job _ _ _ d) as [d1|] eqn:E; [|by case_match].
  intros [= <-]. apply update_job_spec in E as (r & Hr & Hs%state_in_elem & ->). by exists r.
Qed.

Lemma simple_states id from to d d' u :
  simple_transition now id from to d = (d', Ok u) →
  (∃ st, states d !! id = Some st ∧ st ∈ from) ∧ states d' = <[id := to]> (states d)
  ∧ stored_payloads d' = stored_payloads d.
Proof.
  intros (r & Hr & Hs & ->)%simple_ok. split_and!.
  - exists (row_state r). unfold states. by rewrite lookup_fmap, Hr.
  - exact (fmap_insert row_state (sq_job d) id (operator_row now to r)).
  - etransitivity; [exact (fmap_insert (λ r, e_payload (row_env r)) (sq_job d) id (operator_row now to r))|].
    apply insert_id. unfold stored_payloads. by rewrite lookup_fmap, Hr.
Qed.

Lemma update_or_ok error id p f d d' u :
  update_or error id p f d = (d', Ok u) → update_job id p f d = Some d'.
Proof. unfold update_or. destruct (update_job id p f d); by intros [= <-]. Qed.

#[export] Program Instance sqlite_inspect_laws : InspectLaws SqliteNode := {|
  view n := states (sn_db n);
  payloads n := stored_payloads (sn_db n);
  saved n := cursor (sn_checkpoint n);
|}.
Next Obligation.
  intros id p n o [= <-]. unfold sqlite_get_job, states. rewrite lookup_fmap. by destruct (sq_job (sn_db n) !! id).
Qed.
Next Obligation.
  intros id n o [= <-]. unfold sqlite_get_job, stored_payloads. rewrite lookup_fmap.
  by destruct (sq_job (sn_db n) !! id).
Qed.
Next Obligation.
  intros id n n' (u & H & Hc)%on_db_ok. apply simple_states in H as ((st & Hst & ->%list_elem_of_singleton) & Hv & _).
  by rewrite Hc.
Qed.
Next Obligation.
  intros id t n n' (u & H & Hc)%on_db_ok. apply update_or_ok in H.
  apply (update_states _ _ _ _ _ "scheduled") in H as [(r & Hr & Hp%state_in_elem) Hv]; [|done].
  rewrite Hc, Hv. unfold states. rewrite lookup_fmap, Hr. by apply list_elem_of_singleton in Hp as <-.
Qed.
Next Obligation.
  intros id n n' (u & H & Hc)%on_db_ok. unfold sqlite_delete_job in H.
  destruct (delete_row id not_running (sn_db n)) as [d|] eqn:E; [|by case_match].
  injection H as <- _. apply delete_row_spec in E as (r & Hr & Hn & Ed).
  split_and!; [|by rewrite Ed; exact (fmap_delete row_state (sq_job (sn_db n)) id)|by rewrite Hc].
  unfold states. rewrite lookup_fmap, Hr. intros [= E]. unfold not_running in Hn. by rewrite E in Hn.
Qed.
Next Obligation.
  intros id n n' (u & H & Hc)%on_db_ok. apply simple_states in H as (_ & Hv & _). by rewrite Hc.
Qed.
Next Obligation.
  intros id n n' (u & H & Hc)%on_db_ok. apply simple_states in H as ((st & Hst & _) & Hv & Hp).
  rewrite Hc. split_and!; [by exists st|done..].
Qed.
Next Obligation. intros batch n n' (u & _ & Hc)%on_db_ok. by rewrite Hc. Qed.
Next Obligation. intros fp n n' (u & _ & Hc)%on_db_ok. by rewrite Hc. Qed.
Next Obligation.
  intros id b v fp n n' (u & H & Hc)%on_db_ok. rewrite Hc. split; [|done].
  unfold sqlite_edit_payload in H. case_if_in H; [done|]. apply update_or_ok in H.
  by eapply update_keeps_states.
Qed.
Next Obligation.
  intros b n n'. simpl. unfold sqlite_checkpoint. destruct (update_job _ _ _ (sn_db n)) as [d|] eqn:E; [|done].
  intros [= <-]. split; [|done]. by eapply update_keeps_states.
Qed.
Next Obligation.
  intros v b n n' (u & H & Hc)%on_db_ok. rewrite Hc. split; [|done].
  unfold sqlite_write_output in H. destruct (validate_opaque_value _ _); [|done].
  destruct (update_job _ _ _ (sn_db n)) as [d|] eqn:E; [|done].
  assert (d = sn_db n') as <- by (case_match; by injection H). by eapply update_keeps_states.
Qed.
End coordinator.

(** ** Operator transitions and the lifecycle *)

(** The call moves the row as the lifecycle of headgate-core says for [ev], or is refused. *)
Definition follows_lifecycle (now : Z) (id : string) (s : State.State) (ev : LifecycleEvent.LifecycleEvent)
    (call : Db → Db * result unit StoreError.StoreError) (d : Db) (r : Row) : Prop :=
  match lifecycle_transition s ev with
  | Some s' =>
      ∃ r', call d = (d <| sq_job := <[id := r']> (sq_job d) |>, Ok tt)
        ∧ row_state r' = state_name s' ∧ row_lease_id r' = None ∧ row_lease_expires r' = None
        ∧ row_fence r' = row_fence r ∧ row_errors r' = row_errors r
        ∧ e_payload (row_env r') = e_payload (row_env r) ∧ e_attempt (row_env r') = e_attempt (row_env r)
        ∧ (s' = State.Available → e_scheduled_at_ms (row_env r') = now ∧ row_finalized_at r' = None)
  | None => ∃ e, call d = (d, Err (StoreError.Invalid e))
  end.

Lemma simple_follows now id from to s ev d r :
  sq_job d !! id = Some r → row_state r = state_name s →
  (if bool_decide (state_name s ∈ from) then ∃ s', lifecycle_transition s ev = Some s' ∧ to = state_name s'
   else lifecycle_transition s ev = None) →
  follows_lifecycle now id s ev (simple_transition now id from to) d r.
Proof.
  intros Hr Hs Htab. unfold follows_lifecycle, simple_transition, update_job. rewrite Hr.
  case_bool_decide as Hin.
  - destruct Htab as (s' & -> & ->). rewrite (proj2 (state_in_elem from r)) by by rewrite Hs.
    exists (operator_row now (state_name s') r). split_and!; try reflexivity. by intros ->.
  - rewrite Htab. destruct (state_in from r) eqn:E.
    + apply state_in_elem in E. by rewrite Hs in E.
    + by eexists.
Qed.

Lemma release_lookup now fp d id r n :
  sqlite_quarantine_release now fp d = n → sq_job d !! id = Some r →
  ∀ d' k, n = (d', Ok k) →
  sq_job d' !! id = Some (if quarantined_as fp r then release_row now r else r).
Proof.
  intros <- Hr d' k. unfold sqlite_quarantine_release. case_if; [done|]. intros [= <- _].
  change (((λ r, if quarantined_as fp r then release_row now r else r) <$> sq_job d) !! id
          = Some (if quarantined_as fp r then release_row now r else r)).
  by rewrite lookup_fmap, Hr.
Qed.

(** C13.  The operator's retry, cancel and promote calls implement the lifecycle of
    headgate-core exactly: for a row in any state, a call succeeds if and only if the lifecycle
    has the transition, moves the row to its target without a lease, keeping its fence, payload,
    attempt and history, and otherwise changes nothing and says so; a release makes available
    exactly the rows quarantined under its fingerprint. *)
Theorem sqlite_operators_follow_lifecycle now id s r d :
  sq_job d !! id = Some r → row_state r = state_name s →
  follows_lifecycle now id s LifecycleEvent.OperatorRetry (sqlite_operator_retry now id) d r
  ∧ follows_lifecycle now id s LifecycleEvent.OperatorCancel (sqlite_operator_cancel now id) d r
  ∧ follows_lifecycle now id s LifecycleEvent.OperatorPromote (sqlite_promote_job now id) d r
  ∧ ∀ fp d' n, sqlite_quarantine_release now fp d = (d', Ok n) →
      ∃ r', sq_job d' !! id = Some r' ∧ sq_quarantine d' !! fp = None
        ∧ match lifecycle_transition s LifecycleEvent.OperatorRelease with
          | Some s' => if String.eqb (e_fingerprint (row_env r)) fp then row_state r' = state_name s' else r' = r
          | None => r' = r
          end.
Proof.
  intros Hr Hs. split_and!.
  1-3: apply simple_follows; [done|done|]; destruct s; vm_compute; try reflexivity; eexists; split; reflexivity.
  intros fp d' n Hrel. eexists. split; [by eapply (release_lookup now fp d id r)|]. split.
  - unfold sqlite_quarantine_release in Hrel. case_if_in Hrel; [done|]. injection Hrel as <- _.
    exact (lookup_delete_eq (sq_quarantine d) fp).
  - unfold quarantined_as. rewrite Hs. destruct s; simpl; rewrite ?andb_false_r; try done.
    by destruct (String.eqb _ fp).
Qed.

Definition sq_demo_row : Row := new_row 1000 (sq_demo_env "a" "mail" "x") None.

Lemma sq_demo_row_stored : sq_job sq_demo_stored !! "a" = Some sq_demo_row.
Proof. vm_compute. reflexivity. Qed.

Lemma sqlite_operators_follow_lifecycle_witness :
  sq_job sq_demo_stored !! "a" = Some sq_demo_row
  ∧ follows_lifecycle 5000 "a" State.Available LifecycleEvent.OperatorCancel
      (sqlite_operator_cancel 5000 "a") sq_demo_stored sq_demo_row.
Proof.
  split; [exact sq_demo_row_stored|].
  assert (row_state sq_demo_row = state_name State.Available) as Hs by (vm_compute; reflexivity).
  exact (proj1 (proj2 (sqlite_operators_follow_lifecycle 5000 "a" State.Available sq_demo_row sq_demo_stored
    sq_demo_row_stored Hs))).
Defined.
