(* ===== verification/Console.v ===== *)
(** * headgate-core: the inspection port

    The data the control API reads and the operations of [trait Inspect] it calls
    ([crates/headgate-core/src/lib.rs]), as the class [Console].  [SqliteReads] makes the SQLite
    adapter an instance, [Api] is the client. *)

From S2P Require Import Prelude Shared Envelope Core Coordinator Scheduler Pool.
Local Open Scope Z_scope.

(** ** Inspection data *)

Record StateCounts := mkStateCounts { st_counts : list (string * Z); st_approximate : bool }.

(** Rates are floating-point numbers, kept as their JSON text. *)
Record QuietGroupMetrics := mkQuietGroups {
  qg_arrival_rate : string;
  qg_drain_rate : string;
  qg_time_to_drain_ms : option Z;
  qg_oldest_available_ms : option Z;
  qg_noisy_partitions : Z;
  qg_approximate : bool;
}.

Record QueueStats := mkQueueStats {
  qst_queue : string;
  qst_weight : Z;
  qst_unfinished_jobs : Z;
  qst_max_unfinished_jobs : option Z;
  qst_by_state : list (string * Z);
  qst_counts_approximate : bool;
  qst_arrival_rate : string;
  qst_drain_rate : string;
  qst_time_to_drain_ms : option Z;
  qst_oldest_available_ms : option Z;
  qst_quiet_groups : QuietGroupMetrics;
  qst_paused : bool;
  qst_memory_bytes : option Z;
}.

Record RateClassState := mkRateClassState {
  rcs_name : string;
  rcs_tokens_available : Z;
  rcs_burst : Z;
  rcs_limit_per_window : Z;
  rcs_window_ms : Z;
  rcs_jobs_waiting : Z;
  rcs_paused : bool;
}.

Record PartitionState := mkPartitionState { ps_partition_key : string; ps_deficit : Z; ps_waiting : Z }.

Record QuarantineEntry := mkQuarantineEntry {
  qe_fingerprint : string;
  qe_kind : string;
  qe_crash_count : Z;
  qe_quarantined_at_ms : Z;
  qe_reason : string;
}.

Record HistoryBucket := mkHistoryBucket { hb_at_ms : Z; hb_arrived : Z; hb_completed : Z }.

Record OperationStatus := mkOperationStatus {
  os_id : string;
  os_status : string;
  os_affected : Z;
  os_total_estimated : Z;
  os_dry_run : bool;
  os_error : option string;
}.

(** ** The port *)

(** The operations of [trait Inspect] the API calls.  A read leaves the store alone; a write
    may change it even when it is refused. *)
Class Console (S : Type) := {
  cs_caps : Caps;
  cs_get_job : string → bool → S → result (option JobSummary) StoreError.StoreError;
  cs_list_jobs : JobFilter → option string → Z → S → result JobPage StoreError.StoreError;
  cs_counts : option string → S → result StateCounts StoreError.StoreError;
  cs_queue_stats : S → result (list QueueStats) StoreError.StoreError;
  cs_history : string → Z → Z → S → result (list HistoryBucket) StoreError.StoreError;
  cs_rate_classes : S → result (list RateClassState) StoreError.StoreError;
  cs_concurrency_limits : S → result (list ConcurrencyLimitConfig) StoreError.StoreError;
  cs_partitions : string → S → result (list PartitionState) StoreError.StoreError;
  cs_quarantine_list : S → result (list QuarantineEntry) StoreError.StoreError;
  cs_explain_admission : string → S → result (option AdmissionExplain) StoreError.StoreError;
  cs_get_operation : string → S → result (option OperationStatus) StoreError.StoreError;
  cs_list_schedules : S → result (list Schedule) StoreError.StoreError;
  cs_list_schedule_events : string → option Z → Z → S → result (list ScheduleEvent) StoreError.StoreError;
  cs_list_workers : Z → S → result (list WorkerMeta) StoreError.StoreError;
  as_result_inspect : option (string → S → result (option JobResult) StoreError.StoreError);
  as_output_inspect : option (string → S → result (option JobOutput) StoreError.StoreError);
  as_progress_inspect : option (string → S → result (option JobProgress) StoreError.StoreError);
  as_checkpoint_inspect : option (string → S → result (option Checkpoint) StoreError.StoreError);
  cs_set_queue_paused : string → bool → S → S * result unit StoreError.StoreError;
  cs_set_queue_weight : string → Z → S → S * result unit StoreError.StoreError;
  cs_set_enqueue_limit : string → option Z → S → S * result unit StoreError.StoreError;
  cs_delete_queue : string → bool → S → S * result (option string) StoreError.StoreError;
  cs_sample_queue_memory : Z → S → S * result Z StoreError.StoreError;
  cs_delete_job : string → S → S * result unit StoreError.StoreError;
  cs_operator_retry : string → S → S * result unit StoreError.StoreError;
  cs_operator_cancel : string → S → S * result unit StoreError.StoreError;
  cs_promote_job : string → S → S * result unit StoreError.StoreError;
  cs_reschedule_job : string → Z → S → S * result unit StoreError.StoreError;
  cs_edit_payload : string → bytes → Z → string → S → S * result unit StoreError.StoreError;
  cs_upsert_rate_class : RateClassConfig → S → S * result unit StoreError.StoreError;
  cs_upsert_concurrency_limit : ConcurrencyLimitConfig → S → S * result unit StoreError.StoreError;
  cs_quarantine_release : string → S → S * result Z StoreError.StoreError;
  cs_create_operation : BulkRequest → S → S * result unit StoreError.StoreError;
  cs_upsert_schedule : Schedule → S → S * result unit StoreError.StoreError;
  cs_delete_schedule : string → S → S * result unit StoreError.StoreError;
  cs_signal_worker : string → option string → S → S * result unit StoreError.StoreError;
}.
