(* ===== verification/Api.v ===== *)
(** * headgate-api: the control API

    Models [crates/headgate-api/src/lib.rs]: the routes, the two middlewares in front of them,
    and every handler, over the [Inspect] port (here the class [Console]), the producer's
    client of [Client] and the workflow operations of [Operators].  A request that reaches a
    handler is a [Call]: the route it matched with the path segments, query and body already
    extracted.  What axum's extractors reject is part of the call, since the code answers it;
    requests no route matches never reach this code.  A handler is a computation over the
    process ([Api]): it returns a response, or stops early with one, and both are sent.
    Base64, serde's derived renderings and floating-point ratios are parameters. *)

From S2P Require Import Prelude Shared Lifecycle Envelope Graph Workflow Core Tick Coordinator Operators ScheduleSpec Scheduler Attempt Worker Pool Breaker Client Console.
Local Open Scope Z_scope.

(** ** The workflow port *)

(** The operations of [headgate-workflow] the API calls. *)
Class WorkflowOps (S : Type) := {
  wo_emit_signal_with : string → SignalEmission → M S SignalReceipt;
  wo_request_retry : string → Z → list WorkflowRecovery → M S RetryReceipt;
  wo_cancel : string → bool → M S CancelReceipt;
  wo_list_signals : string → option Z → Z → M S (list WorkflowSignal);
  wo_events : string → M S (list WorkflowEvent);
  wo_inspect : string → M S WorkflowSnapshot;
  wo_list : option string → Z → M S WorkflowPage;
  wo_node : string → string → M S WorkflowNode;
  wo_dependencies : string → string → M S (list WorkflowNode);
  wo_dependents : string → string → M S (list WorkflowNode);
  wo_graft_prepare : WorkflowGraft → result (list Envelope) string;
}.

(** ** Responses *)

Module Body.
Inductive Body := Empty | Text (s : string) | Json (v : json).
End Body.

Record Response := mkResponse {
  rs_status : Z;
  rs_headers : list (string * string);
  rs_body : Body.Body;
}.

#[export] Instance response_eta : Eta Response := λ r,
  mkResponse (rs_status r) (rs_headers r) (rs_body r).

(** [json!]: an object's keys are sorted. *)
Definition obj (l : list (string * json)) : json := JObject (btree_collect l).
Definition json_opt {A} (f : A → json) (o : option A) : json := match o with Some a => f a | None => JNull end.
Definition JStrings (l : list string) : json := JArray (JString <$> l).

Definition json_response (status : Z) (v : json) : Response := mkResponse status [] (Body.Json v).
Definition status_response (status : Z) : Response := mkResponse status [] Body.Empty.
Definition err_response (status : Z) (msg : string) : Response :=
  json_response status (obj [("error", JString msg)]).

Definition insert_header (k v : string) (r : Response) : Response :=
  r <| rs_headers := rs_headers r ++ [(k, v)] |>.
Definition no_store (r : Response) : Response := insert_header "cache-control" "no-store" r.

(** ** Error mapping *)

Definition raw_msg (e : StoreError.StoreError) : string :=
  match e with StoreError.Invalid m => m | other => store_error_message other end.

Definition store_err (e : StoreError.StoreError) : Response :=
  match e with
  | StoreError.Duplicate existing_id replaced =>
      json_response 409 (obj [("error", JString "duplicate unique key");
                              ("existing_id", JString existing_id); ("replaced", JBool replaced)])
  | StoreError.IdConflict _ => err_response 409 (store_error_message e)
  | StoreError.Quarantined fp =>
      json_response 423 (obj [("error", JString "fingerprint is quarantined"); ("fingerprint", JString fp)])
  | StoreError.Backpressure queue limit current incoming =>
      json_response 429 (obj [("error", JString "enqueue backpressure"); ("queue", JString queue);
                              ("limit", JInt limit); ("current", JInt current); ("incoming", JInt incoming)])
  | StoreError.NotFound _ => err_response 404 (store_error_message e)
  | StoreError.Invalid _ => err_response 400 (raw_msg e)
  | StoreError.Unavailable _ => err_response 503 (store_error_message e)
  | StoreError.LeaseRejected _ | StoreError.Backend _ => err_response 500 (store_error_message e)
  end.

Definition enqueue_forbidden (kind : string) : Response :=
  json_response 403 (obj [("error", JString "enqueue forbidden"); ("kind", JString kind)]).

Definition circuit_rejected (r : CircuitRejected) : Response :=
  json_response 503 (obj [("error", JString "enqueue circuit open");
    ("retry_after_ms", JInt (rej_retry_after_ms r));
    ("state", JString match rej_state r with
                      | CircuitState.Closed => "closed"
                      | CircuitState.Open => "open"
                      | CircuitState.HalfOpen => "half_open"
                      end)]).

Definition client_error (e : ClientError.ClientError) : Response :=
  match e with
  | ClientError.Forbidden kind => enqueue_forbidden kind
  | ClientError.Circuit r => circuit_rejected r
  | ClientError.Middleware m source => err_response 500 ("enqueue middleware `" +:+ m +:+ "`: " +:+ source)%stdpp
  | ClientError.Store e => store_err e
  end.

(** [str::contains]. *)
Fixpoint str_contains (needle s : string) : bool :=
  match strip_prefix needle s with
  | Some _ => true
  | None => match s with EmptyString => false | String _ s => str_contains needle s end
  end.

Definition workflow_err (message : string) : Response :=
  err_response (if str_contains "was not found" message then 404
                else if str_contains "revision conflict" message then 409 else 400) message.

(** ** Extractors *)

Module JsonRejection.
Inductive JsonRejection :=
  | PayloadTooLarge
  | MissingJsonContentType
  | JsonSyntaxError
  | BytesRejection
  | JsonDataError (body_text : string)
  | Other.
End JsonRejection.

Definition missing_field (detail : string) : option string :=
  match strip_prefix "missing field `" detail with
  | Some rest => head (split_char "`" rest)
  | None => None
  end.

Definition strip_or (prefix text : string) : string :=
  match strip_prefix prefix text with Some rest => rest | None => text end.

Definition json_rejection (r : JsonRejection.JsonRejection) : Response :=
  match r with
  | JsonRejection.PayloadTooLarge => err_response 413 "request body exceeds 2097152 bytes"
  | JsonRejection.MissingJsonContentType => err_response 415 "expected Content-Type: application/json"
  | JsonRejection.JsonSyntaxError | JsonRejection.BytesRejection => err_response 400 "bad json"
  | JsonRejection.JsonDataError text =>
      match missing_field (strip_or "Failed to deserialize the JSON body into the target type: " text) with
      | Some field => err_response 422 ("missing field `" +:+ field +:+ "`")%stdpp
      | None => err_response 422 "invalid request body"
      end
  | JsonRejection.Other => err_response 422 "invalid request body"
  end.

(** [split_once(": ")]: the part before the first occurrence. *)
Fixpoint before_colon_space (s : string) : option string :=
  match s with
  | EmptyString => None
  | String c rest =>
      match strip_prefix ": " s with
      | Some _ => Some ""
      | None => match before_colon_space rest with Some b => Some (String c b) | None => None end
      end
  end.

Definition query_rejection (text : string) : Response :=
  let detail := strip_or "Failed to deserialize query string: " text in
  match missing_field detail with
  | Some field => err_response 400 ("missing query parameter `" +:+ field +:+ "`")%stdpp
  | None =>
      match before_colon_space detail with
      | Some field => err_response 400 ("invalid query parameter `" +:+ field +:+ "`")%stdpp
      | None => err_response 400 "invalid query string"
      end
  end.

(** ** Requests *)

Record ControlPageQuery := mkControlPage { cp_limit : Z; cp_cursor : Z }.
Definition default_control_page_limit : Z := 200.

Record WorkflowSignalBody := mkSignalBody { wsb_signal : string; wsb_payload : json; wsb_source : json }.
Record WorkflowRecoveryBody := mkRecoveryBody {
  wrb_node : string;
  wrb_payload : option string;
  wrb_schema_version : option Z;
  wrb_release_quarantine : bool;
}.
Record WorkflowRetryBody := mkRetryBody { wtb_expected_revision : Z; wtb_recoveries : list WorkflowRecoveryBody }.
Record WorkflowGraftTaskBody := mkGraftTaskBody {
  wgt_name : string;
  wgt_deps : list string;
  wgt_kind : string;
  wgt_payload : string;
  wgt_id : option string;
  wgt_queue : option string;
  wgt_schema_version : option Z;
}.
Record WorkflowGraftBody := mkGraftBody {
  wgb_expected_revision : Z;
  wgb_queue : option string;
  wgb_tasks : list WorkflowGraftTaskBody;
}.

Record ListParams := mkListParams {
  lp_q : option string;
  lp_queue : option string;
  lp_state : option string;
  lp_kind : option string;
  lp_partition_key : option string;
  lp_cursor : option string;
  lp_limit : option Z;
  lp_tags_all : option string;
  lp_tags_any : option string;
}.

Record EnqueueBody := mkEnqueueBody {
  eb_kind : string;
  eb_schema_version : option Z;
  eb_payload : string;
  eb_queue : option string;
  eb_priority : option Z;
  eb_partition_key : option string;
  eb_rate_class : option string;
  eb_weight : option Z;
  eb_scheduled_at_ms : option Z;
  eb_unique_key : option string;
  eb_unique_window_ms : option Z;
  eb_unique_replace : option Z;
  eb_unique_debounce_ms : option Z;
  eb_unique_exclude_kind : bool;
  eb_tags : list string;
  eb_pending : bool;
  eb_sticky_worker : string;
  eb_max_attempts : option Z;
  eb_retention_ms : option Z;
  eb_id : option string;
}.

Record ActionsBody := mkActionsBody { ab_action : string; ab_ids : list string }.
Record RateClassBody := mkRateClassBody { rcb_limit : Z; rcb_window_ms : Z; rcb_burst : option Z; rcb_paused : bool }.
Record ConcurrencyLimitBody := mkLimitBody { clb_queue : string; clb_max_concurrent : Z; clb_on_saturated : string }.
Record PartitionParams := mkPartitionParams { pp_queue : string; pp_limit : Z; pp_cursor : Z }.
Record PayloadBody := mkPayloadBody { pb_payload : string; pb_schema_version : option Z }.
Record BulkBody := mkBulkBody {
  bb_action : string;
  bb_queue : option string;
  bb_state : option string;
  bb_kind : option string;
  bb_partition_key : option string;
  bb_older_than_ms : option Z;
  bb_dry_run : bool;
}.
Record PeriodicBody := mkPeriodicBody {
  pe_kind : string;
  pe_spec : string;
  pe_payload : option string;
  pe_queue : option string;
  pe_partition_key : option string;
  pe_rate_class : option string;
  pe_priority : option Z;
  pe_max_attempts : option Z;
  pe_retention_ms : option Z;
  pe_on_missed : option string;
  pe_backfill_limit : option Z;
  pe_paused : bool;
}.

Module Method.
Inductive Method := GET | HEAD | POST | PUT | DELETE.
End Method.
#[export] Instance method_eq_dec : EqDecision Method.Method.
Proof. solve_decision. Defined.

(** A decoded body or query, or axum's rejection of it. *)
Definition Json_ (A : Type) : Type := result A JsonRejection.JsonRejection.
Definition Query_ (A : Type) : Type := result A string.

(** A request that matched a route, in the order of the route table. *)
Module Call.
Inductive Call :=
  | Healthz
  | Readyz
  | Meta
  | ListQueues (query : Query_ ControlPageQuery)
  | PutQueue (queue : string) (weight : Json_ Z)
  | DeleteQueue (queue : string) (force : Query_ bool)
  | SampleQueueMemory (limit : Json_ (option Z))
  | PutEnqueueLimit (queue : string) (max_unfinished_jobs : Json_ Z)
  | DeleteEnqueueLimit (queue : string)
  | PauseQueue (queue : string)
  | ResumeQueue (queue : string)
  | History (queue : string) (window : Query_ (option Z * option Z))
  | ListJobs (params : Query_ ListParams)
  | Enqueue (body : Json_ EnqueueBody)
  | Counts (queue : Query_ (option string))
  | Actions (body : Json_ ActionsBody)
  | Bulk (body : Json_ BulkBody)
  | GetJob (id : string) (include_payload : Query_ bool)
  | DeleteJob (id : string)
  | GetJobResult (id : string)
  | GetJobOutput (id : string)
  | GetJobProgress (id : string)
  | GetJobCheckpoint (id : string)
  | RetryJob (id : string)
  | CancelJob (id : string)
  | PromoteJob (id : string)
  | Reschedule (id : string) (scheduled_at_ms : Json_ Z)
  | EditPayload (id : string) (body : Json_ PayloadBody)
  | RevealPayload (id : string)
  | Admission (id : string)
  | GetOperation (id : string)
  | ListPeriodic (query : Query_ ControlPageQuery)
  | PutPeriodic (id : string) (body : Json_ PeriodicBody)
  | DeletePeriodic (id : string)
  | PeriodicEvents (id : string) (query : Query_ (Z * option Z))
  | RunPeriodic (id : string)
  | Workers (query : Query_ ControlPageQuery)
  | Cluster
  | SignalWorker (worker_id : string) (command : Json_ (option string))
  | WorkflowList (params : Query_ (option string * option Z))
  | WorkflowDetail (id : string)
  | WorkflowEvents (id : string)
  | WorkflowNode (id node : string)
  | WorkflowDependencies (id node : string)
  | WorkflowDependents (id node : string)
  | WorkflowSignals (id : string) (query : option Z * option Z)
  | WorkflowSignal (id : string) (body : Json_ WorkflowSignalBody)
  | WorkflowGraft (id : string) (body : Json_ WorkflowGraftBody)
  | WorkflowRetry (id : string) (body : Json_ WorkflowRetryBody)
  | WorkflowCancel (id : string) (propagate_children : Json_ bool)
  | RateClasses
  | PutRateClass (name : string) (body : Json_ RateClassBody)
  | ConcurrencyLimits
  | PutConcurrencyLimit (name : string) (body : Json_ ConcurrencyLimitBody)
  | Partitions (params : Query_ PartitionParams)
  | Quarantine (query : Query_ ControlPageQuery)
  | QuarantineRelease (fingerprint : string).
End Call.

(** The method each route is registered for. *)
Definition method_of (c : Call.Call) : Method.Method :=
  match c with
  | Call.Healthz | Call.Readyz | Call.Meta | Call.ListQueues _ | Call.History _ _
  | Call.ListJobs _ | Call.Counts _ | Call.GetJob _ _ | Call.GetJobResult _ | Call.GetJobOutput _
  | Call.GetJobProgress _ | Call.GetJobCheckpoint _ | Call.RevealPayload _ | Call.Admission _
  | Call.GetOperation _ | Call.ListPeriodic _ | Call.PeriodicEvents _ _ | Call.Workers _
  | Call.Cluster | Call.WorkflowList _ | Call.WorkflowDetail _ | Call.WorkflowEvents _
  | Call.WorkflowNode _ _ | Call.WorkflowDependencies _ _ | Call.WorkflowDependents _ _
  | Call.WorkflowSignals _ _ | Call.RateClasses | Call.ConcurrencyLimits | Call.Partitions _
  | Call.Quarantine _ => Method.GET
  | Call.PutQueue _ _ | Call.PutEnqueueLimit _ _ | Call.EditPayload _ _ | Call.PutPeriodic _ _
  | Call.PutRateClass _ _ | Call.PutConcurrencyLimit _ _ => Method.PUT
  | Call.DeleteQueue _ _ | Call.DeleteEnqueueLimit _ | Call.DeleteJob _ | Call.DeletePeriodic _
  | Call.QuarantineRelease _ => Method.DELETE
  | Call.SampleQueueMemory _ | Call.PauseQueue _ | Call.ResumeQueue _ | Call.Enqueue _
  | Call.Actions _ | Call.Bulk _ | Call.RetryJob _ | Call.CancelJob _ | Call.PromoteJob _
  | Call.Reschedule _ _ | Call.RunPeriodic _ | Call.SignalWorker _ _ | Call.WorkflowSignal _ _
  | Call.WorkflowGraft _ _ | Call.WorkflowRetry _ _ | Call.WorkflowCancel _ _ => Method.POST
  end.

(** [rq_head] is a [HEAD] request, which axum routes to the [GET] handler.
    [rq_idempotency_key]: [None] without the header, [Some None] when its value is not visible
    ASCII, so that [to_str] fails. *)
Record Request := mkRequest {
  rq_head : bool;
  rq_call : Call.Call;
  rq_idempotency_key : option (option string);
  rq_identity : option EnqueueIdentity;
  rq_now_ms : Z;
}.

Definition rq_method (r : Request) : Method.Method :=
  match method_of (rq_call r) with
  | Method.GET => if rq_head r then Method.HEAD else Method.GET
  | m => m
  end.

(** [headers.get(..).and_then(to_str).unwrap_or_default()]. *)
Definition idem_of (r : Request) : string := default "" (mjoin (rq_idempotency_key r)).

(** [str::parse::<i32>]. *)
Definition parse_i32 (s : string) : option Z :=
  match parse_i64 s with
  | Some z => if (- 2 ^ 31 <=? z) && (z <? 2 ^ 31) then Some z else None
  | None => None
  end.

#[export] Instance job_filter_eta : Eta JobFilter := λ f,
  mkJobFilter (jf_queue f) (jf_state f) (jf_kind f) (jf_kind_prefix f) (jf_partition_key f) (jf_id f)
    (jf_fingerprint f) (jf_rate_class f) (jf_priority f) (jf_tags_all f) (jf_tags_any f).

(** ** Rendering *)

Section render.
Context (b64_encode : bytes → string).
Context (json_from_str : string → option json).
(** [a as f64 / b as f64] as JSON; a parameter, like the rates. *)
Context (ratio : Z → Z → json).

Definition queue_json (q : QueueStats) : json :=
  let g := qst_quiet_groups q in
  obj [("queue", JString (qst_queue q)); ("weight", JInt (qst_weight q));
       ("unfinished_jobs", JInt (qst_unfinished_jobs q));
       ("max_unfinished_jobs", json_opt JInt (qst_max_unfinished_jobs q));
       ("by_state", obj (prod_map id JInt <$> qst_by_state q));
       ("arrival_rate", JFloat (qst_arrival_rate q)); ("drain_rate", JFloat (qst_drain_rate q));
       ("time_to_drain_ms", json_opt JInt (qst_time_to_drain_ms q));
       ("oldest_available_ms", json_opt JInt (qst_oldest_available_ms q));
       ("quiet_groups", obj [("arrival_rate", JFloat (qg_arrival_rate g));
          ("drain_rate", JFloat (qg_drain_rate g));
          ("time_to_drain_ms", json_opt JInt (qg_time_to_drain_ms g));
          ("oldest_available_ms", json_opt JInt (qg_oldest_available_ms g));
          ("noisy_partitions", JInt (qg_noisy_partitions g)); ("approximate", JBool (qg_approximate g))]);
       ("paused", JBool (qst_paused q)); ("memory_bytes", json_opt JInt (qst_memory_bytes q));
       ("count_is_approximate", JBool (qst_counts_approximate q))].

Definition job_json (j : JobSummary) : json :=
  let base :=
    [("id", JString (js_id j)); ("kind", JString (js_kind j)); ("queue", JString (js_queue j));
     ("state", JString (js_state j)); ("schema_version", JInt (js_schema_version j));
     ("priority", JInt (js_priority j)); ("attempt", JInt (js_attempt j));
     ("crash_attempt", JInt (js_crash_attempt j)); ("orphaned", JBool (is_orphaned j));
     ("max_attempts", JInt (js_max_attempts j)); ("partition_key", JString (js_partition_key j));
     ("rate_class", JString (js_rate_class j)); ("sticky_worker", JString (js_sticky_worker j));
     ("weight", JInt (js_weight j)); ("fingerprint", JString (js_fingerprint j));
     ("enqueued_at_ms", JInt (js_enqueued_at_ms j)); ("scheduled_at_ms", JInt (js_scheduled_at_ms j));
     ("claimed_at_ms", json_opt JInt (js_claimed_at_ms j));
     ("periodic_origin",
        if String.eqb (js_periodic_schedule_id j) "" then JNull
        else obj [("schedule_id", JString (js_periodic_schedule_id j));
                  ("tick_ms", JInt (js_periodic_tick_ms j))]);
     ("finalized_at_ms", json_opt JInt (js_finalized_at_ms j));
     ("errors", default (JArray []) (json_from_str (js_errors_json j)));
     ("tags", JStrings (js_tags j))] in
  match js_payload j with
  | Some p => obj (base ++ [("payload", JString (b64_encode p));
                            ("metadata", obj (prod_map id JString <$> map_to_list (js_headers j)))])
  | None => obj base
  end.

Definition operation_json (op : OperationStatus) : json :=
  obj [("id", JString (os_id op)); ("status", JString (os_status op)); ("affected", JInt (os_affected op));
       ("total_estimated", JInt (os_total_estimated op)); ("dry_run", JBool (os_dry_run op));
       ("error", json_opt JString (os_error op))].

Definition schedule_json (s : Schedule) : json :=
  obj [("id", JString (sc_id s)); ("kind", JString (sc_kind s)); ("queue", JString (sc_queue s));
       ("spec", JString (sc_spec s)); ("next_run_ms", JInt (sc_next_run_ms s));
       ("last_enqueued_ms", json_opt JInt (sc_last_enqueued_ms s));
       ("on_missed", JString (missed_as_str (sc_on_missed s))); ("backfill_limit", JInt (sc_backfill_limit s));
       ("paused", JBool (sc_paused s)); ("partition_key", JString (sc_partition_key s));
       ("rate_class", JString (sc_rate_class s)); ("priority", JInt (sc_priority s));
       ("max_attempts", JInt (sc_max_attempts s)); ("retention_ms", JInt (sc_retention_ms s))].

Definition schedule_event_json (e : ScheduleEvent) : json :=
  obj [("event_id", JInt (se_event_id e)); ("schedule_id", JString (se_schedule_id e));
       ("tick_ms", JInt (se_tick_ms e)); ("job_id", JString (se_job_id e));
       ("outcome", JString (ScheduleEventOutcome.as_str (se_outcome e)));
       ("reason", JString (se_reason e)); ("recorded_at_ms", JInt (se_recorded_at_ms e))].

Definition rate_class_json (r : RateClassState) : json :=
  obj [("name", JString (rcs_name r)); ("tokens_available", JInt (rcs_tokens_available r));
       ("burst", JInt (rcs_burst r)); ("limit_per_window", JInt (rcs_limit_per_window r));
       ("window_ms", JInt (rcs_window_ms r)); ("jobs_waiting", JInt (rcs_jobs_waiting r));
       ("paused", JBool (rcs_paused r))].

Definition concurrency_limit_json (v : ConcurrencyLimitConfig) : json :=
  obj [("name", JString (cl_name v)); ("queue", JString (cl_queue v));
       ("max_concurrent", JInt (cl_max_concurrent v));
       ("on_saturated", JString (SaturationStrategy.as_str (cl_on_saturated v)))].

Definition partition_json (x : PartitionState) : json :=
  obj [("partition_key", JString (ps_partition_key x)); ("deficit", JInt (ps_deficit x));
       ("waiting", JInt (ps_waiting x))].

Definition quarantine_json (q : QuarantineEntry) : json :=
  obj [("fingerprint", JString (qe_fingerprint q)); ("kind", JString (qe_kind q));
       ("crash_count", JInt (qe_crash_count q)); ("quarantined_at_ms", JInt (qe_quarantined_at_ms q));
       ("reason", JString (qe_reason q))].

Definition history_json (b : HistoryBucket) : json :=
  obj [("at_ms", JInt (hb_at_ms b)); ("arrived", JInt (hb_arrived b)); ("completed", JInt (hb_completed b))].

(** [utilization] and [empty_poll_ratio]: zero instead of a division by zero. *)
Definition ratio_or_zero (a b : Z) : json := if b =? 0 then JFloat "0.0" else ratio a b.

Definition worker_json (w : WorkerMeta) : json :=
  obj [("worker_id", JString (wm_worker_id w)); ("host", JString (wm_host w)); ("pid", JInt (wm_pid w));
       ("queues", JStrings (wm_queues w)); ("concurrency", JInt (wm_concurrency w));
       ("started_at_ms", JInt (wm_started_at_ms w)); ("heartbeat_at_ms", JInt (wm_heartbeat_at_ms w));
       ("inflight", JInt (wm_inflight w)); ("polls", JInt (wm_polls w));
       ("empty_polls", JInt (wm_empty_polls w));
       ("utilization", ratio_or_zero (wm_inflight w) (wm_concurrency w));
       ("empty_poll_ratio", ratio_or_zero (wm_empty_polls w) (wm_polls w));
       ("status", JString (if String.eqb (wm_status w) "" then "running" else wm_status w));
       ("duties_active", JBool (wm_duties_active w));
       ("pending_command", json_opt JString (wm_pending_command w))].

Definition admission_json (e : AdmissionExplain) : json :=
  obj [("admissible", JBool (ae_admissible e));
       ("blocked_by", json_opt (JString ∘ BlockedBy.as_str) (ae_blocked_by e));
       ("detail", obj (prod_map id JString <$> ae_detail e));
       ("estimated_admission_ms", json_opt JInt (ae_estimated_admission_ms e))].

Definition checkpoint_json (c : Checkpoint) : json :=
  obj [("last_completed_step", json_opt JString (last_completed_step c));
       ("completed_steps", JStrings (completed_steps c));
       ("in_progress_step", json_opt JString (in_progress_step c));
       ("cursor_step", json_opt JString (cursor_step c));
       ("cursor", json_opt (JString ∘ b64_encode) (cursor c));
       ("schema_version", JInt (cp_schema_version c)); ("step_set_hash", JString (step_set_hash c));
       ("crashes_by_step", obj (prod_map id JInt <$> crashes_by_step c))].
End render.

(** ** Pages *)

Definition control_page (length : Z) (query : ControlPageQuery) : result (Z * Z) Response :=
  if (cp_limit query =? 0) || (200 <? cp_limit query)
  then Err (err_response 400 "limit must be between 1 and 200")
  else
    let start := Z.min (cp_cursor query) length in
    Ok (start, Z.min (u64_saturating_add start (cp_limit query)) length).

Definition paged_values (values : list json) (start end_ : Z) : Response :=
  let r := json_response 200 (JArray (take (Z.to_nat (end_ - start)) (drop (Z.to_nat start) values))) in
  if end_ <? Z.of_nat (length values) then insert_header "x-next-cursor" (pretty end_) r else r.

(** ** Handlers *)

Record Api (S : Type) := mkApi { api_producer : Producer S; api_seq : Z }.
Arguments mkApi {S} _ _.
Arguments api_producer {S} _.
Arguments api_seq {S} _.

Definition api_store {S} (a : Api S) : S := pd_store (api_producer a).
Definition set_store {S} (s : S) (a : Api S) : Api S :=
  let p := api_producer a in
  mkApi (mkProducer s (pd_machine p) (pd_reads p) (pd_told p)) (api_seq a).

Module PayloadRevealError.
Inductive PayloadRevealError := Forbidden | CannotReveal | Unavailable | Internal.
End PayloadRevealError.

Record ApiConfig := mkApiConfig {
  ac_backend : string;
  ac_version : string;
  ac_read_only : bool;
  ac_payload_revealer :
    option (option EnqueueIdentity → JobSummary → result bytes PayloadRevealError.PayloadRevealError);
}.

Section handlers.
Context {S : Type} `{Console S} `{WorkflowOps S} `{ProducerStore S}.
Context (b64_encode : bytes → string) (b64_decode : string → option bytes).
Context (json_from_str : string → option json) (ratio : Z → Z → json).
Context (sha256 : bytes → bytes).
(** [schedule_spec::validate] and [schedule_spec::next_after]. *)
Context (spec_validate : string → result unit string) (spec_next : string → Z → result Z string).
(** Derived renderings of the workflow crate's types. *)
Context (signal_json : WorkflowSignal → json) (event_json : WorkflowEvent → json).
Context (snapshot_json : WorkflowSnapshot → json) (page_json : WorkflowPage → json).
Context (node_json : WorkflowNode → json).
Context (clock : nat → Z) (pid : Z) (producer : Client) (cfg : ApiConfig).

(** A handler stops early with a response ([Err]) or goes on. *)
Definition Handler (A : Type) : Type := Api S → Api S * result A Response.

#[local] Instance handler_ret : MRet Handler := λ A x a, (a, Ok x).
#[local] Instance handler_bind : MBind Handler := λ A B k m a,
  match m a with
  | (a, Ok x) => k x a
  | (a, Err r) => (a, Err r)
  end.

Definition stop {A} (r : Response) : Handler A := λ a, (a, Err r).
Definition stop_if (b : bool) (r : Response) : Handler unit := if b then stop r else mret tt.
Definition or_stop {A} (o : option A) (r : Response) : Handler A :=
  match o with Some x => mret x | None => stop r end.
Definition ask {A} (f : S → result A StoreError.StoreError) : Handler A := λ a,
  (a, match f (api_store a) with Ok x => Ok x | Err e => Err (store_err e) end).
Definition tell {A} (f : S → S * result A StoreError.StoreError) : Handler A := λ a,
  let '(s, r) := f (api_store a) in
  (set_store s a, match r with Ok x => Ok x | Err e => Err (store_err e) end).
Definition run_workflow {A} (m : M S A) : Handler A := λ a,
  let '(r, s) := m (api_store a) in
  (set_store s a, match r with Ok x => Ok x | Err e => Err (workflow_err e) end).
Definition body_of {A} (b : Json_ A) : Handler A :=
  match b with Ok x => mret x | Err r => stop (json_rejection r) end.
Definition query_of {A} (q : Query_ A) : Handler A :=
  match q with Ok x => mret x | Err text => stop (query_rejection text) end.
Definition of_page {A} (r : result A Response) : Handler A :=
  match r with Ok x => mret x | Err e => stop e end.

(** [gen_id]: [fetch_add] on the process's counter. *)
Definition gen_id (now : Z) : Handler string := λ a,
  (mkApi (api_producer a) (u64_add (api_seq a) 1),
   Ok (format_generated_id (wrap_u64 now) pid (api_seq a))).

(** [s.producer.enqueue_with_context(&http(identity), batch)], its result a value. *)
Definition produce (identity : option EnqueueIdentity) (batch : list Envelope)
    : Handler (result unit ClientError.ClientError) := λ a,
  let '(p, r) := enqueue_with_context clock producer
                   (mkEnqueueContext EnqueueSource.Http identity) batch (api_producer a) in
  (mkApi p (api_seq a), Ok r).

Definition ok_json (v : json) : Handler Response := mret (json_response 200 v).
Definition done_with (status : Z) : Handler Response := mret (status_response status).

Definition authorize_http_enqueue (identity : option EnqueueIdentity) (batch : list Envelope)
    : Handler unit :=
  match authorize_enqueue_batch (cl_authorize producer)
          (mkEnqueueContext EnqueueSource.Http identity) batch with
  | Ok _ => mret tt
  | Err kind => stop (enqueue_forbidden kind)
  end.

(** *** Service *)

Definition readyz : Handler Response :=
  _ ← ask (cs_get_job "__readyz__" false);
  mret (mkResponse 200 [] (Body.Text "ready")).

Definition meta : Handler Response :=
  let cap (c : Caps) (name : string) := if has cs_caps c then [name] else [] in
  let capabilities := cap TRANSACTIONAL "transactional" ++ cap NOTIFYING "notifying"
    ++ cap INSPECT "inspect" ++ (if is_some (ac_payload_revealer cfg) then ["payload_reveal"] else []) in
  ok_json (obj [("version", JString (ac_version cfg)); ("backend", JString (ac_backend cfg));
    ("capabilities", JStrings capabilities);
    ("limits", obj [("max_page_size", JInt 200); ("approximate_count_threshold", JInt 50000)])]).

(** *** Queues *)

Definition list_queues (query : Query_ ControlPageQuery) : Handler Response :=
  query ← query_of query;
  stats ← ask cs_queue_stats;
  '(start, end_) ← of_page (control_page (Z.of_nat (length stats)) query);
  mret (paged_values (queue_json <$> stats) start end_).

Definition delete_queue_handler (queue : string) (force : Query_ bool) : Handler Response :=
  force ← query_of force;
  r ← tell (cs_delete_queue queue force);
  match r with
  | Some id => mret (json_response 202 (obj [("operation_id", JString id)]))
  | None => done_with 204
  end.

Definition sample_queue_memory (limit : Json_ (option Z)) : Handler Response :=
  limit ← body_of limit;
  sampled ← tell (cs_sample_queue_memory (default 100 limit));
  ok_json (obj [("sampled_queues", JInt sampled)]).

Definition pause_queue (queue : string) : Handler Response :=
  _ ← tell (cs_set_queue_paused queue true); done_with 204.
Definition resume_queue (queue : string) : Handler Response :=
  _ ← tell (cs_set_queue_paused queue false); done_with 204.

Definition put_queue (queue : string) (weight : Json_ Z) : Handler Response :=
  weight ← body_of weight;
  _ ← stop_if (weight =? 0) (err_response 400 "weight must be >= 1");
  _ ← tell (cs_set_queue_weight queue weight);
  done_with 200.

Definition put_enqueue_limit (queue : string) (max : Json_ Z) : Handler Response :=
  max ← body_of max;
  _ ← tell (cs_set_enqueue_limit queue (Some max));
  done_with 200.
Definition delete_enqueue_limit (queue : string) : Handler Response :=
  _ ← tell (cs_set_enqueue_limit queue None); done_with 204.

Definition history (queue : string) (window : Query_ (option Z * option Z)) : Handler Response :=
  '(since_ms, bucket_ms) ← query_of window;
  buckets ← ask (cs_history queue (default 0 since_ms) (default 60000 bucket_ms));
  ok_json (JArray (history_json <$> buckets)).

(** *** Jobs *)

(** One term of the search grammar. *)
Definition parse_term (term : string) (f : JobFilter) : result JobFilter string :=
  match split_once ":" term with
  | Some (field, v) =>
      if String.eqb field "id" then Ok (f <| jf_id := Some v |>)
      else if String.eqb field "queue" then Ok (f <| jf_queue := Some v |>)
      else if String.eqb field "state" then Ok (f <| jf_state := Some v |>)
      else if String.eqb field "kind" then Ok (f <| jf_kind := Some v |>)
      else if String.eqb field "partition" then Ok (f <| jf_partition_key := Some v |>)
      else if String.eqb field "rate_class" then Ok (f <| jf_rate_class := Some v |>)
      else if String.eqb field "fingerprint" then Ok (f <| jf_fingerprint := Some v |>)
      else if String.eqb field "tag" then Ok (f <| jf_tags_all := jf_tags_all f ++ [v] |>)
      else if String.eqb field "tag_any" then Ok (f <| jf_tags_any := jf_tags_any f ++ [v] |>)
      else if String.eqb field "priority" then
        match parse_i32 v with
        | Some n => Ok (f <| jf_priority := Some n |>)
        | None => Err ("priority `" +:+ v +:+ "` is not a number")%stdpp
        end
      else Err ("unknown search field `" +:+ field +:+ "`")%stdpp
  | None => Ok (f <| jf_kind_prefix := Some term |>)
  end.

Fixpoint parse_terms (terms : list string) (f : JobFilter) : result JobFilter string :=
  match terms with
  | [] => Ok f
  | t :: terms => let? f := parse_term t f in parse_terms terms f
  end.

Definition parse_q (q : string) (f : JobFilter) : result JobFilter string :=
  parse_terms (split_whitespace q) f.

Definition comma_list (s : option string) : list string :=
  List.filter (λ x, negb (String.eqb x "")) (split_char "," (default "" s)).

Definition list_filter (p : ListParams) : result JobFilter string :=
  let f := mkJobFilter (lp_queue p) (lp_state p) (lp_kind p) None (lp_partition_key p) None None None
             None (comma_list (lp_tags_all p)) (comma_list (lp_tags_any p)) in
  match lp_q p with Some q => parse_q q f | None => Ok f end.

Definition list_jobs (params : Query_ ListParams) : Handler Response :=
  p ← query_of params;
  match list_filter p with
  | Err e => stop (err_response 400 e)
  | Ok filter =>
      page ← ask (cs_list_jobs filter (lp_cursor p) (default 50 (lp_limit p)));
      ok_json (obj [("jobs", JArray (job_json b64_encode json_from_str <$> jp_jobs page));
                    ("next_cursor", json_opt JString (jp_next_cursor page));
                    ("count_is_approximate", JBool false)])
  end.

Definition enqueue_envelope (id : string) (body : EnqueueBody) (payload : bytes) (key : bytes) : Envelope :=
  default_envelope
    <| e_id := id |> <| e_kind := eb_kind body |>
    <| e_schema_version := default 1 (eb_schema_version body) |>
    <| e_fingerprint := fingerprint sha256 (eb_kind body) payload |> <| e_payload := payload |>
    <| e_queue := default "" (eb_queue body) |> <| e_priority := default 0 (eb_priority body) |>
    <| e_partition_key := default "" (eb_partition_key body) |>
    <| e_rate_class := default "" (eb_rate_class body) |> <| e_weight := default 1 (eb_weight body) |>
    <| e_scheduled_at_ms := default 0 (eb_scheduled_at_ms body) |>
    <| e_max_attempts := default 0 (eb_max_attempts body) |>
    <| e_retention_ms := default 0 (eb_retention_ms body) |>
    <| e_unique_window_ms := default 0 (eb_unique_window_ms body) |>
    <| e_unique_replace := default 0 (eb_unique_replace body) |>
    <| e_unique_debounce_ms := default 0 (eb_unique_debounce_ms body) |>
    <| e_unique_exclude_kind := eb_unique_exclude_kind body |> <| e_tags := eb_tags body |>
    <| e_pending := eb_pending body |> <| e_sticky_worker := eb_sticky_worker body |>
    <| e_unique_key := Some key |>.

Definition enqueue_job (r : Request) (body : Json_ EnqueueBody) : Handler Response :=
  body ← body_of body;
  _ ← stop_if (bool_decide (eb_weight body = Some 0)) (err_response 400 "weight must be >= 1");
  _ ← stop_if (negb (default 0 (eb_unique_replace body) =? 0) && negb (is_some (eb_unique_key body)))
        (err_response 400 "unique_replace requires caller-supplied unique_key");
  payload ← or_stop (b64_decode (eb_payload body)) (err_response 400 "payload must be base64");
  caller_unique ← match eb_unique_key body with
                  | Some k => k ← or_stop (b64_decode k) (err_response 400 "unique_key must be base64");
                              mret (Some k)
                  | None => mret None
                  end;
  let '(key, idem_backed) := match caller_unique with
                             | Some k => (k, false)
                             | None => (("idem:" +:+ idem_of r)%stdpp, true)
                             end in
  id ← match eb_id body with Some id => mret id | None => gen_id (rq_now_ms r) end;
  res ← produce (rq_identity r) [enqueue_envelope id body payload key];
  match res with
  | Ok _ => mret (json_response 201 (obj [("id", JString id)]))
  | Err (ClientError.Store (StoreError.Duplicate existing_id replaced)) =>
      if idem_backed
      then mret (json_response 201 (obj [("id", JString existing_id); ("replayed", JBool true)]))
      else stop (client_error (ClientError.Store (StoreError.Duplicate existing_id replaced)))
  | Err e => stop (client_error e)
  end.

Definition counts_handler (queue : Query_ (option string)) : Handler Response :=
  queue ← query_of queue;
  c ← ask (cs_counts queue);
  ok_json (obj [("counts", obj (prod_map id JInt <$> st_counts c)); ("approximate", JBool (st_approximate c))]).

Definition get_job_handler (id : string) (include_payload : Query_ bool) : Handler Response :=
  include_payload ← query_of include_payload;
  j ← ask (cs_get_job id include_payload);
  j ← or_stop j (err_response 404 "no such job");
  ok_json (job_json b64_encode json_from_str j).

(** [map_err(no_store)]: an early answer is marked too. *)
Definition no_store_all (m : Handler Response) : Handler Response := λ a,
  let '(a, r) := m a in
  (a, match r with Ok r => Ok (no_store r) | Err r => Err (no_store r) end).

Definition reveal_error (e : PayloadRevealError.PayloadRevealError) : Response :=
  match e with
  | PayloadRevealError.Forbidden => err_response 403 "payload reveal forbidden"
  | PayloadRevealError.CannotReveal => err_response 422 "payload cannot be revealed"
  | PayloadRevealError.Unavailable => err_response 503 "payload reveal unavailable"
  | PayloadRevealError.Internal => err_response 500 "payload reveal failed"
  end.

Definition reveal_payload (r : Request) (id : string) : Handler Response :=
  no_store_all (
    reveal ← or_stop (ac_payload_revealer cfg) (err_response 404 "payload reveal is not available");
    j ← ask (cs_get_job id true);
    j ← or_stop j (err_response 404 "no such job");
    match reveal (rq_identity r) j with
    | Ok plaintext => ok_json (obj [("plaintext", JString (b64_encode plaintext))])
    | Err e => stop (reveal_error e)
    end).

(** The optional readers of one job's result, output, progress and checkpoint. *)
Definition read_optional {A} (reader : option (string → S → result (option A) StoreError.StoreError))
    (unsupported absent : string) (render : A → json) (id : string) : Handler Response :=
  read ← or_stop reader (err_response 501 unsupported);
  v ← ask (read id);
  v ← or_stop v (err_response 404 absent);
  ok_json (render v).

Definition get_job_result_handler : string → Handler Response :=
  read_optional as_result_inspect "job results are not supported by this backend" "no result for job"
    (λ v, obj [("schema_version", JInt (r_schema_version v)); ("bytes", JString (b64_encode (r_bytes v)))]).
Definition get_job_output_handler : string → Handler Response :=
  read_optional as_output_inspect "mid-run output is not supported by this backend" "no output for job"
    (λ v, obj [("schema_version", JInt (o_schema_version v)); ("bytes", JString (b64_encode (o_bytes v)));
               ("fence", JInt (o_fence v)); ("updated_at_ms", JInt (o_updated_at_ms v))]).
Definition get_job_progress_handler : string → Handler Response :=
  read_optional as_progress_inspect "job progress is not supported by this backend" "no progress for job"
    (λ v, obj [("current", JInt (p_current v)); ("total", JInt (p_total v));
               ("message", json_opt JString (p_message v)); ("fence", JInt (p_fence v));
               ("updated_at_ms", JInt (p_updated_at_ms v))]).
Definition get_job_checkpoint_handler : string → Handler Response :=
  read_optional as_checkpoint_inspect "job checkpoint inspection is not supported by this backend"
    "no such job" (checkpoint_json b64_encode).

Definition delete_job_handler (id : string) : Handler Response := _ ← tell (cs_delete_job id); done_with 204.
Definition retry_job_handler (id : string) : Handler Response := _ ← tell (cs_operator_retry id); done_with 204.
Definition cancel_job (id : string) : Handler Response := _ ← tell (cs_operator_cancel id); done_with 204.
Definition promote_job_handler (id : string) : Handler Response := _ ← tell (cs_promote_job id); done_with 204.

Definition admission (id : string) : Handler Response :=
  e ← ask (cs_explain_admission id);
  e ← or_stop e (err_response 404 "no such job");
  ok_json (admission_json e).

(** The store operation of an action; [None] for an unknown one. *)
Definition action_of (action id : string) (s : S) : option (S * result unit StoreError.StoreError) :=
  if String.eqb action "retry" then Some (cs_operator_retry id s)
  else if String.eqb action "cancel" then Some (cs_operator_cancel id s)
  else if String.eqb action "delete" then Some (cs_delete_job id s)
  else if String.eqb action "archive"
  then Some (s, Err (StoreError.Invalid "operator_archive is not in the transition table"))
  else None.

Fixpoint run_actions (action : string) (ids : list string) (succeeded : list string) (failed : list json)
    (s : S) : S * result (list string * list json) Response :=
  match ids with
  | [] => (s, Ok (succeeded, failed))
  | id :: ids =>
      match action_of action id s with
      | None => (s, Err (err_response 400 ("unknown action `" +:+ action +:+ "`")%stdpp))
      | Some (s, Ok _) => run_actions action ids (succeeded ++ [id]) failed s
      | Some (s, Err e) =>
          run_actions action ids succeeded
            (failed ++ [obj [("id", JString id); ("reason", JString (raw_msg e))]]) s
      end
  end.

Definition act_on_each (action : string) (ids : list string) : Handler (list string * list json) := λ a,
  let '(s, r) := run_actions action ids [] [] (api_store a) in (set_store s a, r).

Definition actions (body : Json_ ActionsBody) : Handler Response :=
  body ← body_of body;
  _ ← stop_if (1000 <? Z.of_nat (length (ab_ids body))) (err_response 400 "at most 1000 ids per call");
  '(succeeded, failed) ← act_on_each (ab_action body) (ab_ids body);
  ok_json (obj [("succeeded", JStrings succeeded); ("failed", JArray failed)]).

Definition reschedule (id : string) (at_ms : Json_ Z) : Handler Response :=
  at_ms ← body_of at_ms;
  _ ← tell (cs_reschedule_job id at_ms);
  done_with 204.

Definition edit_payload_handler (id : string) (body : Json_ PayloadBody) : Handler Response :=
  body ← body_of body;
  payload ← or_stop (b64_decode (pb_payload body)) (err_response 400 "payload must be base64");
  j ← ask (cs_get_job id false);
  j ← or_stop j (err_response 404 "no such job");
  _ ← tell (cs_edit_payload id payload (default (js_schema_version j) (pb_schema_version body))
              (fingerprint sha256 (js_kind j) payload));
  done_with 204.

Definition bulk (r : Request) (body : Json_ BulkBody) : Handler Response :=
  body ← body_of body;
  _ ← stop_if (String.eqb (bb_action body) "archive")
        (err_response 400 "operator_archive is not in the transition table");
  id ← gen_id (rq_now_ms r);
  _ ← tell (cs_create_operation (mkBulkRequest id (bb_action body) (bb_queue body) (bb_state body)
              (bb_kind body) (bb_partition_key body) (bb_older_than_ms body) (bb_dry_run body)));
  op ← ask (cs_get_operation id);
  op ← or_stop op (err_response 500 "operation vanished");
  mret (json_response 202 (operation_json op)).

Definition get_operation_handler (id : string) : Handler Response :=
  op ← ask (cs_get_operation id);
  op ← or_stop op (err_response 404 "no such operation");
  ok_json (operation_json op).

(** *** Policies, quarantine, partitions *)

Definition rate_classes : Handler Response :=
  rcs ← ask cs_rate_classes; ok_json (JArray (rate_class_json <$> rcs)).

Definition put_rate_class (name : string) (body : Json_ RateClassBody) : Handler Response :=
  body ← body_of body;
  _ ← tell (cs_upsert_rate_class (mkRateClassConfig name (rcb_limit body) (rcb_window_ms body)
              (default (Z.max (rcb_limit body) 1) (rcb_burst body)) (rcb_paused body)));
  done_with 200.

Definition concurrency_limits : Handler Response :=
  limits ← ask cs_concurrency_limits; ok_json (JArray (concurrency_limit_json <$> limits)).

Definition put_concurrency_limit (name : string) (body : Json_ ConcurrencyLimitBody) : Handler Response :=
  body ← body_of body;
  _ ← stop_if (String.eqb (clb_queue body) "") (err_response 400 "name and queue must not be empty");
  _ ← stop_if (clb_max_concurrent body =? 0) (err_response 400 "max_concurrent must be >= 1");
  match SaturationStrategy.try_from (clb_on_saturated body) with
  | Err e => stop (store_err e)
  | Ok strategy =>
      _ ← tell (cs_upsert_concurrency_limit
                  (mkConcurrencyLimit name (clb_queue body) (clb_max_concurrent body) strategy));
      done_with 200
  end.

Definition partitions (params : Query_ PartitionParams) : Handler Response :=
  p ← query_of params;
  parts ← ask (cs_partitions (pp_queue p));
  '(start, end_) ← of_page (control_page (Z.of_nat (length parts)) (mkControlPage (pp_limit p) (pp_cursor p)));
  mret (paged_values (partition_json <$> parts) start end_).

Definition quarantine (query : Query_ ControlPageQuery) : Handler Response :=
  query ← query_of query;
  entries ← ask cs_quarantine_list;
  '(start, end_) ← of_page (control_page (Z.of_nat (length entries)) query);
  mret (paged_values (quarantine_json <$> entries) start end_).

Definition quarantine_release_handler (fp : string) : Handler Response :=
  released ← tell (cs_quarantine_release fp);
  mret (insert_header "x-released-jobs" (pretty released) (status_response 204)).

(** *** Schedules *)

Definition list_periodic (query : Query_ ControlPageQuery) : Handler Response :=
  query ← query_of query;
  schedules ← ask cs_list_schedules;
  '(start, end_) ← of_page (control_page (Z.of_nat (length schedules)) query);
  mret (paged_values (schedule_json <$> schedules) start end_).

(** A cursor is returned when the page is full. *)
Definition next_event {A} (limit : Z) (event_id : A → Z) (l : list A) : json :=
  if Z.of_nat (length l) =? limit then json_opt (JInt ∘ event_id) (last l) else JNull.

Definition periodic_events (id : string) (query : Query_ (Z * option Z)) : Handler Response :=
  '(limit, cursor) ← query_of query;
  events ← ask (cs_list_schedule_events id cursor limit);
  ok_json (obj [("events", JArray (schedule_event_json <$> events));
                ("next_cursor", next_event limit se_event_id events)]).

Definition schedule_of (id : string) (body : PeriodicBody) (payload : bytes)
    (on_missed : MissedPolicy.MissedPolicy) (next_run_ms : Z) : Schedule :=
  mkSchedule id (pe_kind body) payload (default "default" (pe_queue body))
    (default "" (pe_partition_key body)) (default "" (pe_rate_class body)) (default 0 (pe_priority body))
    (default 25 (pe_max_attempts body)) (default 0 (pe_retention_ms body)) (pe_spec body) next_run_ms None
    on_missed (default 0 (pe_backfill_limit body)) (pe_paused body).

(** The envelope a run of a schedule enqueues, without its unique key. *)
Definition schedule_envelope (id : string) (s : Schedule) : Envelope :=
  default_envelope
    <| e_id := id |> <| e_kind := sc_kind s |>
    <| e_fingerprint := fingerprint sha256 (sc_kind s) (sc_payload s) |> <| e_payload := sc_payload s |>
    <| e_queue := sc_queue s |> <| e_partition_key := sc_partition_key s |>
    <| e_rate_class := sc_rate_class s |> <| e_priority := sc_priority s |>
    <| e_max_attempts := sc_max_attempts s |> <| e_retention_ms := sc_retention_ms s |>.

Definition put_periodic (r : Request) (id : string) (body : Json_ PeriodicBody) : Handler Response :=
  body ← body_of body;
  payload ← match pe_payload body with
            | Some p => or_stop (b64_decode p) (err_response 400 "payload must be base64")
            | None => mret ""
            end;
  on_missed ← match pe_on_missed body with
              | None => mret MissedPolicy.Skip
              | Some m => or_stop (missed_parse m) (err_response 400 "on_missed must be skip|run_once|backfill")
              end;
  match spec_validate (pe_spec body) with
  | Err e => stop (err_response 400 e)
  | Ok _ =>
      match spec_next (pe_spec body) (wrap_i64 (rq_now_ms r)) with
      | Err e => stop (err_response 400 e)
      | Ok next_run_ms =>
          let s := schedule_of id body payload on_missed next_run_ms in
          _ ← authorize_http_enqueue (rq_identity r) [schedule_envelope ("schedule:" +:+ id)%stdpp s];
          _ ← tell (cs_upsert_schedule s);
          done_with 200
      end
  end.

Definition delete_periodic (id : string) : Handler Response := _ ← tell (cs_delete_schedule id); done_with 204.

Definition run_periodic (r : Request) (id : string) : Handler Response :=
  schedules ← ask cs_list_schedules;
  sched ← or_stop (List.find (λ x, String.eqb (sc_id x) id) schedules) (err_response 404 "no such schedule");
  job_id ← gen_id (rq_now_ms r);
  res ← produce (rq_identity r)
          [(schedule_envelope job_id sched)
             <| e_unique_key := Some ("schedrun:" +:+ id +:+ ":" +:+ idem_of r)%stdpp |>];
  match res with
  | Ok _ => mret (json_response 202 (obj [("id", JString job_id)]))
  | Err (ClientError.Store (StoreError.Duplicate existing_id _)) =>
      mret (json_response 202 (obj [("id", JString existing_id); ("replayed", JBool true)]))
  | Err e => stop (client_error e)
  end.

(** *** Workers *)

Definition WORKER_STALE_MS : Z := 900000.
Definition WORKER_ALL_MS : Z := 315576000000000.

Definition workers (query : Query_ ControlPageQuery) : Handler Response :=
  query ← query_of query;
  ws ← ask (cs_list_workers WORKER_STALE_MS);
  '(start, end_) ← of_page (control_page (Z.of_nat (length ws)) query);
  mret (paged_values (worker_json ratio <$> ws) start end_).

(** [*per_queue.entry(q).or_insert(0) += 1], over the queues of every live worker. *)
Definition add_consumer (per_queue : list (string * Z)) (q : string) : list (string * Z) :=
  btree_insert q (i64_add (default 0 (btree_get q per_queue)) 1) per_queue.
(** [per_queue.entry(q).or_insert(0)]. *)
Definition or_zero (per_queue : list (string * Z)) (q : string) : list (string * Z) :=
  match btree_get q per_queue with Some _ => per_queue | None => btree_insert q 0 per_queue end.

Definition cluster_queues (live : list WorkerMeta) (stats : list QueueStats) : list (string * Z) :=
  foldl or_zero (foldl (λ m w, foldl add_consumer m (wm_queues w)) [] live) (qst_queue <$> stats).

Definition total_of (f : WorkerMeta → Z) (ws : list WorkerMeta) : Z :=
  foldl (λ n w, i64_add n (wrap_i64 (f w))) 0 ws.

Definition cluster_json (live all : list WorkerMeta) (stats : list QueueStats) : json :=
  let capacity := total_of wm_concurrency live in
  let inflight := total_of wm_inflight live in
  let polls := total_of wm_polls live in
  let empty_polls := total_of wm_empty_polls live in
  obj [("workers", obj [("live", JInt (Z.of_nat (length live)));
          ("stale", JInt (u64_saturating_sub (Z.of_nat (length all)) (Z.of_nat (length live))));
          ("total", JInt (Z.of_nat (length all)))]);
       ("capacity_total", JInt capacity); ("inflight_total", JInt inflight);
       ("utilization", ratio_or_zero ratio inflight capacity);
       ("empty_poll_ratio", ratio_or_zero ratio empty_polls polls);
       ("polls_total", JInt polls); ("empty_polls_total", JInt empty_polls);
       ("queues", JArray ((λ '(q, n), obj [("queue", JString q); ("live_workers", JInt n)])
                            <$> cluster_queues live stats))].

Definition cluster : Handler Response :=
  live ← ask (cs_list_workers WORKER_STALE_MS);
  all ← ask (cs_list_workers WORKER_ALL_MS);
  stats ← ask cs_queue_stats;
  ok_json (cluster_json live all stats).

Definition signal_worker_handler (worker_id : string) (command : Json_ (option string)) : Handler Response :=
  command ← body_of command;
  _ ← stop_if (match command with
               | Some c => String.eqb c "" || negb (valid_worker_command c)
               | None => false
               end) (err_response 400 "command must be quiet, resume, restart, terminate, or resign");
  _ ← tell (cs_signal_worker worker_id command);
  done_with 204.

(** *** Workflows *)

Definition workflow_signal_handler (r : Request) (id : string) (body : Json_ WorkflowSignalBody)
    : Handler Response :=
  body ← body_of body;
  receipt ← run_workflow (wo_emit_signal_with id
              (mkEmission (wsb_signal body) (idem_of r) (wsb_payload body) (wsb_source body)));
  ok_json (obj [("matched", JInt (Z.of_nat (sr_matched receipt)));
                ("promoted", JInt (Z.of_nat (sr_promoted receipt)));
                ("inserted", JBool (sr_inserted receipt)); ("emission", signal_json (sr_emission receipt))]).

Definition workflow_signals (id : string) (query : option Z * option Z) : Handler Response :=
  let limit := default 100 query.2 in
  signals ← run_workflow (wo_list_signals id query.1 limit);
  ok_json (obj [("signals", JArray (signal_json <$> signals)); ("next_cursor", next_event limit ws_id signals)]).

Fixpoint recoveries_of (l : list WorkflowRecoveryBody) : result (list WorkflowRecovery) Response :=
  match l with
  | [] => Ok []
  | r :: l =>
      let? payload := match wrb_payload r with
                      | None => Ok None
                      | Some p => match b64_decode p with
                                  | Some b => Ok (Some b)
                                  | None => Err (err_response 400 "recovery payload must be base64")
                                  end
                      end in
      let? rest := recoveries_of l in
      Ok (mkRecovery (wrb_node r) payload (wrb_schema_version r) (wrb_release_quarantine r) :: rest)
  end.

Definition workflow_retry (id : string) (body : Json_ WorkflowRetryBody) : Handler Response :=
  body ← body_of body;
  recoveries ← of_page (recoveries_of (wtb_recoveries body));
  receipt ← run_workflow (wo_request_retry id (wtb_expected_revision body) recoveries);
  ok_json (obj [("revision", JInt (rr_revision receipt)); ("generation", JInt (rr_generation receipt))]).

Definition workflow_cancel (id : string) (propagate : Json_ bool) : Handler Response :=
  propagate ← body_of propagate;
  receipt ← run_workflow (wo_cancel id propagate);
  ok_json (obj [("workflows", JInt (Z.of_nat (cr_workflows receipt))); ("jobs", JInt (cr_jobs receipt))]).

Definition workflow_events_handler (id : string) : Handler Response :=
  events ← run_workflow (wo_events id); ok_json (obj [("events", JArray (event_json <$> events))]).
Definition workflow_detail (id : string) : Handler Response :=
  snapshot ← run_workflow (wo_inspect id); ok_json (snapshot_json snapshot).
Definition workflow_list (params : Query_ (option string * option Z)) : Handler Response :=
  '(cursor, limit) ← query_of params;
  page ← run_workflow (wo_list cursor (default 50 limit));
  ok_json (page_json page).
Definition workflow_node_handler (id node : string) : Handler Response :=
  n ← run_workflow (wo_node id node); ok_json (node_json n).
Definition workflow_dependencies_handler (id node : string) : Handler Response :=
  l ← run_workflow (wo_dependencies id node); ok_json (obj [("dependencies", JArray (node_json <$> l))]).
Definition workflow_dependents_handler (id node : string) : Handler Response :=
  l ← run_workflow (wo_dependents id node); ok_json (obj [("dependents", JArray (node_json <$> l))]).

Fixpoint graft_tasks (tasks : list WorkflowGraftTaskBody) (g : WorkflowGraft) : result WorkflowGraft Response :=
  match tasks with
  | [] => Ok g
  | task :: tasks =>
      match b64_decode (wgt_payload task) with
      | None => Err (err_response 400 "payload must be base64")
      | Some payload =>
          let e := default_envelope
                     <| e_id := default "" (wgt_id task) |>
                     <| e_fingerprint := fingerprint sha256 (wgt_kind task) payload |>
                     <| e_kind := wgt_kind task |> <| e_payload := payload |>
                     <| e_queue := default "" (wgt_queue task) |>
                     <| e_schema_version := default 1 (wgt_schema_version task) |> in
          graft_tasks tasks (graft_add (wgt_name task) e (wgt_deps task) g)
      end
  end.

Definition workflow_graft (r : Request) (id : string) (body : Json_ WorkflowGraftBody) : Handler Response :=
  body ← body_of body;
  let g := graft_new id (wgb_expected_revision body) in
  let g := match wgb_queue body with Some q => graft_queue q g | None => g end in
  g ← of_page (graft_tasks (wgb_tasks body) g);
  match wo_graft_prepare g with
  | Err e => stop (workflow_err e)
  | Ok batch =>
      res ← produce (rq_identity r) batch;
      match res with
      | Ok _ => mret (json_response 202 (obj [("receipt_id", json_opt (JString ∘ e_id) (head batch))]))
      | Err e => stop (client_error e)
      end
  end.

(** ** Serving a request *)

Definition handle (r : Request) : Handler Response :=
  match rq_call r with
  | Call.Healthz => mret (mkResponse 200 [] (Body.Text "ok"))
  | Call.Readyz => readyz
  | Call.Meta => meta
  | Call.ListQueues q => list_queues q
  | Call.PutQueue queue w => put_queue queue w
  | Call.DeleteQueue queue f => delete_queue_handler queue f
  | Call.SampleQueueMemory l => sample_queue_memory l
  | Call.PutEnqueueLimit queue m => put_enqueue_limit queue m
  | Call.DeleteEnqueueLimit queue => delete_enqueue_limit queue
  | Call.PauseQueue queue => pause_queue queue
  | Call.ResumeQueue queue => resume_queue queue
  | Call.History queue w => history queue w
  | Call.ListJobs p => list_jobs p
  | Call.Enqueue b => enqueue_job r b
  | Call.Counts q => counts_handler q
  | Call.Actions b => actions b
  | Call.Bulk b => bulk r b
  | Call.GetJob id p => get_job_handler id p
  | Call.DeleteJob id => delete_job_handler id
  | Call.GetJobResult id => get_job_result_handler id
  | Call.GetJobOutput id => get_job_output_handler id
  | Call.GetJobProgress id => get_job_progress_handler id
  | Call.GetJobCheckpoint id => get_job_checkpoint_handler id
  | Call.RetryJob id => retry_job_handler id
  | Call.CancelJob id => cancel_job id
  | Call.PromoteJob id => promote_job_handler id
  | Call.Reschedule id at_ms => reschedule id at_ms
  | Call.EditPayload id b => edit_payload_handler id b
  | Call.RevealPayload id => reveal_payload r id
  | Call.Admission id => admission id
  | Call.GetOperation id => get_operation_handler id
  | Call.ListPeriodic q => list_periodic q
  | Call.PutPeriodic id b => put_periodic r id b
  | Call.DeletePeriodic id => delete_periodic id
  | Call.PeriodicEvents id q => periodic_events id q
  | Call.RunPeriodic id => run_periodic r id
  | Call.Workers q => workers q
  | Call.Cluster => cluster
  | Call.SignalWorker id c => signal_worker_handler id c
  | Call.WorkflowList p => workflow_list p
  | Call.WorkflowDetail id => workflow_detail id
  | Call.WorkflowEvents id => workflow_events_handler id
  | Call.WorkflowNode id n => workflow_node_handler id n
  | Call.WorkflowDependencies id n => workflow_dependencies_handler id n
  | Call.WorkflowDependents id n => workflow_dependents_handler id n
  | Call.WorkflowSignals id q => workflow_signals id q
  | Call.WorkflowSignal id b => workflow_signal_handler r id b
  | Call.WorkflowGraft id b => workflow_graft r id b
  | Call.WorkflowRetry id b => workflow_retry id b
  | Call.WorkflowCancel id b => workflow_cancel id b
  | Call.RateClasses => rate_classes
  | Call.PutRateClass name b => put_rate_class name b
  | Call.ConcurrencyLimits => concurrency_limits
  | Call.PutConcurrencyLimit name b => put_concurrency_limit name b
  | Call.Partitions p => partitions p
  | Call.Quarantine q => quarantine q
  | Call.QuarantineRelease fp => quarantine_release_handler fp
  end.

Definition answer {A} (m : A * result Response Response) : A * Response :=
  (m.1, match m.2 with Ok r | Err r => r end).

(** The two middlewares; the read-only one is the outer layer. *)
Definition require_idempotency_key (next : Request → Api S → Api S * Response) (r : Request) (a : Api S)
    : Api S * Response :=
  match rq_method r, rq_idempotency_key r with
  | (Method.POST | Method.PUT | Method.DELETE), None =>
      (a, err_response 400 "Idempotency-Key header is required on every mutating request")
  | _, _ => next r a
  end.

Definition reject_mutations (next : Request → Api S → Api S * Response) (r : Request) (a : Api S)
    : Api S * Response :=
  match rq_method r with
  | Method.GET => next r a
  | _ => (a, err_response 403 "read-only mode")
  end.

Definition serve (r : Request) (a : Api S) : Api S * Response :=
  let api := require_idempotency_key (λ r a, answer (handle r a)) in
  if ac_read_only cfg then reject_mutations api r a else api r a.
End handlers.
