(* ===== verification/SqliteReads.v ===== *)
(** * headgate-sqlite: the statistics reads

    The reads of [crates/headgate-sqlite/src/inspect.rs] the console shows (counts, queue
    statistics, rate classes, limits, partitions, quarantine, history, schedules, operations)
    and the adapter as an instance of [Console].  A [SELECT] with a [LIMIT]
    and no order reads the rows in the order [ord] of their ids, a parameter.  Rates are
    floating-point numbers and come from the parameters [rate] and [drain_time]. *)

From S2P Require Import Prelude Shared Lifecycle Envelope MemStore Core Coordinator Scheduler Attempt Worker Pool Sqlite SqliteInspect Console.
Local Open Scope Z_scope.

(** [GROUP BY]: how often each key occurs, by key. *)
Definition group_count (keys : list string) : list (string * Z) :=
  foldl (λ m k, btree_insert k (default 0 (btree_get k m) + 1) m) [] keys.

Section reads.
Context (ord : list string) (rate : Z → string) (drain_time : Z → Z → Z → option Z).
Abbreviation scan_rows := (scan_rows ord).

Definition state_counts (queue : option string) (d : Db) : list (string * Z) :=
  group_count (row_state <$> scan_rows (λ r, none_or (λ q, in_queue q r) queue) 50001 d).

Definition sqlite_counts (queue : option string) (d : Db) : StateCounts :=
  let rows := state_counts queue d in
  mkStateCounts rows (50000 <? sum_z snd rows).

(** The queues with state, jobs or a policy, by name. *)
Definition known_queues (d : Db) : list string :=
  sort_dedup ((map_to_list (sq_queue d)).*1 ++ (e_queue ∘ row_env <$> (map_to_list (sq_job d)).*2)
                ++ (map_to_list (sq_policy d)).*1).

Definition recent_counters (queue : string) (since : Z) (d : Db) : list (Z * Z) :=
  omap (λ '((q, b), ac), if String.eqb q queue && (since <=? b) then Some ac else None)
    (map_to_list (sq_counter d)).

Definition min_list (l : list Z) : option Z :=
  match l with [] => None | x :: l => Some (foldl Z.min x l) end.

Definition queue_stat (now : Z) (d : Db) (queue : string) : QueueStats :=
  let by_state := state_counts (Some queue) d in
  let unfinished_jobs := sum_z snd (List.filter (λ sn, existsb (String.eqb sn.1) UNFINISHED_STATES) by_state) in
  let oldest := min_list (row_enqueued_at <$>
                  scan_rows (λ r, in_queue queue r && String.eqb (row_state r) "available") 10000 d) in
  let oldest_available := age_ms now <$> oldest in
  let recent := recent_counters queue (now - 60000) d in
  let arrived := sum_z fst recent in
  let completed := sum_z snd recent in
  let ttd := drain_time unfinished_jobs arrived completed in
  mkQueueStats queue (match sq_queue d !! queue with Some q => wrap_u32 (qs_weight q) | None => 1 end)
    unfinished_jobs (wrap_u64 <$> mjoin (sq_policy d !! queue)) by_state
    (50000 <? sum_z snd by_state) (rate arrived) (rate completed) ttd oldest_available
    (mkQuietGroups (rate arrived) (rate completed) ttd oldest_available 0 false)
    (match sq_queue d !! queue with Some q => qs_paused q | None => false end)
    (wrap_u64 <$> (sq_queue d !! queue ≫= qs_memory)).

Definition sqlite_queue_stats (now : Z) (d : Db) : list QueueStats :=
  queue_stat now d <$> take 1000 (known_queues d).

Definition sqlite_rate_classes (now : Z) (d : Db) : list RateClassState :=
  omap (λ name, b ← sq_bucket d !! name;
          Some (mkRateClassState name (available_tokens now b) (bk_burst b) (bk_limit b) (bk_window b)
                  (Z.min 1000 (count_jobs (λ r, String.eqb (row_state r) "available"
                                                && String.eqb (e_rate_class (row_env r)) name) d))
                  (bk_paused b)))
    (sort_strings (map_to_list (sq_bucket d)).*1).

Definition sqlite_concurrency_limits (d : Db) : list ConcurrencyLimitConfig :=
  omap (λ name, l ← sq_limit d !! name;
          match SaturationStrategy.try_from (li_on_saturated l) with
          | Ok s => Some (mkConcurrencyLimit name (li_queue l) (wrap_u64 (li_max l)) s)
          | Err _ => None
          end)
    (sort_strings (map_to_list (sq_limit d)).*1).

Definition sqlite_partitions (queue : string) (d : Db) : list PartitionState :=
  (λ '(p, n), mkPartitionState p 0 n) <$>
    group_count (e_partition_key ∘ row_env <$>
      scan_rows (λ r, in_queue queue r && String.eqb (row_state r) "available") 10000 d).

Definition quarantined_le (a b : string * (Z * Z)) : Prop :=
  b.2.2 < a.2.2 ∨ b.2.2 = a.2.2 ∧ String.le a.1 b.1.
#[export] Instance quarantined_le_dec a b : Decision (quarantined_le a b).
Proof. unfold quarantined_le. apply _. Defined.

Definition sqlite_quarantine_list (d : Db) : list QuarantineEntry :=
  (λ '(fp, (crashes, at_ms)),
     let kind := match scan_rows (λ r, String.eqb (e_fingerprint (row_env r)) fp) 1 d with
                 | r :: _ => e_kind (row_env r)
                 | [] => ""
                 end in
     mkQuarantineEntry fp kind crashes at_ms "")
    <$> take 1000 (merge_sort quarantined_le (map_to_list (sq_quarantine d))).

(** [bucket_ms / ?1 * ?1], grouped. *)
Definition sqlite_history (queue : string) (since_ms bucket_ms : Z) (d : Db)
    : result (list HistoryBucket) StoreError.StoreError :=
  if bucket_ms <? 1 then Err (StoreError.Invalid "bucket_ms must be >= 1")
  else
    let add (m : gmap Z (Z * Z)) (x : (string * Z) * (Z * Z)) :=
      let '((q, b), (arrived, completed)) := x in
      if String.eqb q queue && (since_ms <=? b)
      then let k := Z.quot b bucket_ms * bucket_ms in
           let '(a0, c0) := default (0, 0) (m !! k) in <[k := (a0 + arrived, c0 + completed)]> m
      else m in
    let groups := foldl add ∅ (map_to_list (sq_counter d)) in
    Ok (take 10000 (omap (λ k, '(a, c) ← groups !! k; Some (mkHistoryBucket k a c))
                      (merge_sort Z.le (map_to_list groups).*1))).

Definition sqlite_list_schedules (d : Db) : list Schedule :=
  take 10000 (omap (λ id, sq_schedule d !! id) (sort_strings (map_to_list (sq_schedule d)).*1)).

Definition sqlite_distinct_kinds (limit : Z) (d : Db) : list string :=
  if limit <=? 0 then []
  else sort_dedup (e_kind ∘ row_env <$>
         take (Z.to_nat limit)
           (merge_sort id_le (List.filter (state_in ["pending"; "scheduled"; "available"; "retryable"])
                                (map_to_list (sq_job d)).*2))).

(** [total_estimated] is inserted as 0 and [error] as NULL; no statement changes them. *)
Definition sqlite_get_operation (id : string) (d : Db) : option OperationStatus :=
  o ← sq_operation d !! id;
  Some (mkOperationStatus id (op_status o) (op_affected o) 0 (op_dry_run o) None).

End reads.

(** ** The adapter as the API's port *)

Section console.
Context (cf : string) (to_string : list json → string) (now pid seq : Z).
Context (ord : list string) (rate : Z → string) (drain_time : Z → Z → Z → option Z).

(** [explain_admission] never panics ([Core.explain_admission_agrees]), so the inner [None] is
    never taken. *)
#[export] Instance sqlite_console : Console Db := {|
  cs_caps := Z.lor TRANSACTIONAL INSPECT;
  cs_get_job id payload d := Ok (sqlite_get_job to_string id payload d);
  cs_list_jobs := sqlite_list_jobs to_string;
  cs_counts queue d := Ok (sqlite_counts ord queue d);
  cs_queue_stats d := Ok (sqlite_queue_stats ord rate drain_time now d);
  cs_history := sqlite_history;
  cs_rate_classes d := Ok (sqlite_rate_classes now d);
  cs_concurrency_limits d := Ok (sqlite_concurrency_limits d);
  cs_partitions queue d := Ok (sqlite_partitions ord queue d);
  cs_quarantine_list d := Ok (sqlite_quarantine_list ord d);
  cs_explain_admission id d := Ok (admission_facts now id d ≫= explain_admission);
  cs_get_operation id d := Ok (sqlite_get_operation id d);
  cs_list_schedules d := Ok (sqlite_list_schedules d);
  cs_list_schedule_events := list_schedule_events;
  cs_list_workers := live_workers now;
  as_result_inspect := Some (λ id d, Ok (get_result id d));
  as_output_inspect := Some (λ id d, Ok (get_output id d));
  as_progress_inspect := Some (λ id d, Ok (get_progress id d));
  as_checkpoint_inspect := Some (λ id d, Ok (get_checkpoint id d));
  cs_set_queue_paused queue paused d := (set_paused queue paused d, Ok tt);
  cs_set_queue_weight := set_queue_weight;
  cs_set_enqueue_limit := set_enqueue_limit;
  cs_delete_queue := delete_queue cf now pid seq;
  cs_sample_queue_memory := sqlite_sample_memory ord;
  cs_delete_job := sqlite_delete_job;
  cs_operator_retry := sqlite_operator_retry now;
  cs_operator_cancel := sqlite_operator_cancel now;
  cs_promote_job := sqlite_promote_job now;
  cs_reschedule_job := reschedule_job;
  cs_edit_payload := sqlite_edit_payload;
  cs_upsert_rate_class := upsert_rate_class now;
  cs_upsert_concurrency_limit := upsert_concurrency_limit cf;
  cs_quarantine_release := sqlite_quarantine_release now;
  cs_create_operation := create_operation cf now;
  cs_upsert_schedule := upsert_schedule;
  cs_delete_schedule := delete_schedule;
  cs_signal_worker := sqlite_signal;
|}.
End console.
