(* ===== verification/ApiSpec.v ===== *)
(** * The control API: theorems

    What the middlewares and the routes promise together (safe requests change nothing), the
    pages of the control lists, the cluster view, the batch actions and the search grammar of
    [Api].  The workflow operations of [Operators] are the instance of the port the API uses. *)

From S2P Require Import Prelude Shared Lifecycle Envelope Graph Workflow Core Tick Coordinator Operators ScheduleSpec Scheduler Attempt Worker Pool Breaker Client Console Api.
Local Open Scope Z_scope.

(** ** Computations that leave their state alone *)

(** Reads of the workflow crate. *)
Definition reads_store {S A} (m : M S A) : Prop := ∀ s, (m s).2 = s.

Create HintDb reads discriminated.

Lemma reads_ret {S A} (x : A) : reads_store (S := S) (mret x).
Proof. done. Qed.
Lemma reads_throw {S A} (e : string) : reads_store (S := S) (A := A) (throw e).
Proof. done. Qed.
Lemma reads_lift {S A} (r : result A string) : reads_store (S := S) (lift r).
Proof. done. Qed.
Lemma reads_read {S A} (f : S → result A string) : reads_store (read f).
Proof. done. Qed.
Lemma reads_require {S} b (e : string) : reads_store (S := S) (require b e).
Proof. by destruct b. Qed.
Lemma reads_ok_or {S A} (o : option A) (e : string) : reads_store (S := S) (ok_or o e).
Proof. by destruct o. Qed.
Lemma reads_bind {S A B} (m : M S A) (k : A → M S B) :
  reads_store m → (∀ x, reads_store (k x)) → reads_store (m ≫= k).
Proof.
  intros Hm Hk s. unfold mbind, M_bind. specialize (Hm s).
  destruct (m s) as [[x|e] s']; simpl in Hm; subst s'; [apply Hk|done].
Qed.
#[export] Hint Resolve reads_ret reads_throw reads_lift reads_read reads_require reads_ok_or : reads.

(** One step of a read: split a bind, or a match on what was read. *)
Ltac reads_step :=
  first [ solve [auto with reads]
        | apply reads_bind; [|intros ?]
        | match goal with
          | |- reads_store (match ?x with _ => _ end) => destruct x
          | |- reads_store (let '(_, _) := ?x in _) => destruct x
          end ].
Ltac reads := repeat (reads_step; simpl).

(** What the port promises of its reads. *)
Class WorkflowReads (S : Type) `{WorkflowOps S} : Prop := {
  wr_list_signals id before limit : reads_store (wo_list_signals id before limit);
  wr_events id : reads_store (wo_events id);
  wr_inspect id : reads_store (wo_inspect id);
  wr_list cursor limit : reads_store (wo_list cursor limit);
  wr_node id node : reads_store (wo_node id node);
  wr_dependencies id node : reads_store (wo_dependencies id node);
  wr_dependents id node : reads_store (wo_dependents id node);
}.

Section workflow_ops.
Context {S : Type} `{Inspect S} (sha256 : bytes → bytes).
Context (encode : WorkflowTask → result bytes string).
Context (decode_coordinator : bytes → result CoordinatorTask string).
Context (decode_cursor : bytes → result WorkflowCursor string).
Context (to_vec : json → result bytes string) (from_slice : bytes → result json string).
Context (ords : list string → list string).

#[export] Instance workflow_ops : WorkflowOps S := {|
  wo_emit_signal_with := emit_signal_with decode_coordinator to_vec from_slice;
  wo_request_retry := request_failed_subgraph_retry_with_recovery sha256 encode decode_coordinator decode_cursor;
  wo_cancel := cancel_workflow decode_coordinator;
  wo_list_signals := list_signals from_slice;
  wo_events := workflow_events decode_cursor;
  wo_inspect := inspect_workflow decode_coordinator decode_cursor;
  wo_list := list_workflows;
  wo_node := workflow_node decode_coordinator decode_cursor;
  wo_dependencies := workflow_dependencies decode_coordinator decode_cursor;
  wo_dependents := workflow_dependents decode_coordinator decode_cursor;
  wo_graft_prepare g := graft_prepare encode sha256 (ords (dn_name <$> gr_nodes g)) g;
|}.

Lemma load_cursor_reads job_id state : reads_store (load_workflow_cursor decode_cursor job_id state).
Proof. unfold load_workflow_cursor. reads. Qed.

Lemma load_coordinator_reads id : reads_store (load_coordinator decode_coordinator id).
Proof. unfold load_coordinator. reads. Qed.

Lemma inspect_nodes_reads c all nodes : reads_store (inspect_nodes c all nodes).
Proof. induction nodes as [|n nodes IH]; simpl; unfold inspect_node; reads. Qed.

Lemma inspect_reads id : reads_store (inspect_workflow decode_coordinator decode_cursor id).
Proof.
  unfold inspect_workflow. apply reads_bind; [auto with reads|intros _].
  apply reads_bind; [apply load_coordinator_reads|intros jt].
  apply reads_bind; [apply load_cursor_reads|intros c].
  apply reads_bind; [apply inspect_nodes_reads|intros ns]. auto with reads.
Qed.

#[export] Instance workflow_ops_reads : WorkflowReads S.
Proof.
  split; intros; simpl.
  - unfold list_signals. reads.
  - unfold workflow_events. reads.
  - apply inspect_reads.
  - unfold list_workflows. reads.
  - apply reads_bind; [apply inspect_reads|auto with reads].
  - apply reads_bind; [apply inspect_reads|auto with reads].
  - apply reads_bind; [apply inspect_reads|auto with reads].
Qed.
End workflow_ops.

(** ** Safe requests *)

Section api.
Context {S : Type} `{Console S} `{!WorkflowOps S} `{!WorkflowReads S} `{ProducerStore S}.
Context (b64_encode : bytes → string) (b64_decode : string → option bytes).
Context (json_from_str : string → option json) (ratio : Z → Z → json).
Context (sha256 : bytes → bytes).
Context (spec_validate : string → result unit string) (spec_next : string → Z → result Z string).
Context (signal_json : WorkflowSignal → json) (event_json : WorkflowEvent → json).
Context (snapshot_json : WorkflowSnapshot → json) (page_json : WorkflowPage → json).
Context (node_json : WorkflowNode → json).
Context (clock : nat → Z) (pid : Z) (producer : Client) (cfg : ApiConfig).

Let serve := (serve b64_encode b64_decode json_from_str ratio sha256 spec_validate spec_next signal_json
  event_json snapshot_json page_json node_json clock pid producer cfg).
Let handle := (handle b64_encode b64_decode json_from_str ratio sha256 spec_validate spec_next signal_json
  event_json snapshot_json page_json node_json clock pid producer cfg).

Definition pure_handler {A} (m : Handler (S := S) A) : Prop := ∀ a, (m a).1 = a.

Lemma pure_ret {A} (x : A) : pure_handler (@mret Handler handler_ret A x).
Proof. done. Qed.
Lemma pure_stop {A} r : pure_handler (A := A) (stop r).
Proof. done. Qed.
Lemma pure_or_stop {A} (o : option A) r : pure_handler (or_stop o r).
Proof. by destruct o. Qed.
Lemma pure_ask {A} (f : S → result A StoreError.StoreError) : pure_handler (ask f).
Proof. done. Qed.
Lemma pure_query {A} (q : Query_ A) : pure_handler (query_of q).
Proof. by destruct q. Qed.
Lemma pure_page {A} (r : result A Response) : pure_handler (of_page r).
Proof. by destruct r. Qed.
Lemma pure_json v : pure_handler (ok_json v).
Proof. done. Qed.
Lemma pure_bind {A B} (m : Handler A) (k : A → Handler B) :
  pure_handler m → (∀ x, pure_handler (k x)) → pure_handler (handler_bind A B k m).
Proof.
  intros Hm Hk a. unfold handler_bind. specialize (Hm a).
  destruct (m a) as [a' [x|r]]; simpl in Hm; subst a'; [apply Hk|done].
Qed.
Lemma pure_workflow {A} (m : M S A) : reads_store m → pure_handler (run_workflow m).
Proof.
  intros Hm a. unfold run_workflow. specialize (Hm (api_store a)).
  destruct (m (api_store a)) as [r s]; simpl in Hm; subst s. by destruct a as [[] ?].
Qed.
Lemma pure_no_store (m : Handler Response) : pure_handler m → pure_handler (no_store_all m).
Proof. intros Hm a. unfold no_store_all. specialize (Hm a). by destruct (m a). Qed.
End api.

#[export] Hint Resolve pure_ret pure_stop pure_or_stop pure_ask pure_query pure_page pure_json : reads.
#[export] Hint Resolve wr_list_signals wr_events wr_inspect wr_list wr_node wr_dependencies wr_dependents : reads.

Ltac pure_step :=
  first [ solve [auto with reads]
        | apply pure_bind; [|intros ?]
        | apply pure_workflow; solve [auto with reads]
        | apply pure_no_store
        | match goal with
          | |- pure_handler (match ?x with _ => _ end) => destruct x
          | |- pure_handler (let '(_, _) := ?x in _) => destruct x
          end ].

Ltac head_of t := lazymatch t with ?f _ => head_of f | _ => t end.
Ltac unfold_handler :=
  match goal with |- pure_handler ?m => let h := head_of m in unfold h end.
Ltac pure := unfold_handler; unfold read_optional; repeat pure_step.

Section safe.
Context {S : Type} `{Console S} `{!WorkflowOps S} `{!WorkflowReads S} `{ProducerStore S}.
Context (b64_encode : bytes → string) (b64_decode : string → option bytes).
Context (json_from_str : string → option json) (ratio : Z → Z → json).
Context (sha256 : bytes → bytes).
Context (spec_validate : string → result unit string) (spec_next : string → Z → result Z string).
Context (signal_json : WorkflowSignal → json) (event_json : WorkflowEvent → json).
Context (snapshot_json : WorkflowSnapshot → json) (page_json : WorkflowPage → json).
Context (node_json : WorkflowNode → json).
Context (clock : nat → Z) (pid : Z) (producer : Client) (cfg : ApiConfig).

Abbreviation serve := (serve b64_encode b64_decode json_from_str ratio sha256 spec_validate spec_next signal_json
  event_json snapshot_json page_json node_json clock pid producer cfg).
Abbreviation handle := (handle b64_encode b64_decode json_from_str ratio sha256 spec_validate spec_next signal_json
  event_json snapshot_json page_json node_json clock pid producer cfg).

Lemma get_is_pure r : method_of (rq_call r) = Method.GET → pure_handler (handle r).
Proof.
  unfold Api.handle. destruct (rq_call r); intros E; try discriminate E; clear E; try done; pure.
Qed.

Lemma method_of_not_head c : method_of c ≠ Method.HEAD.
Proof. by destruct c. Qed.

Lemma serve_get r a : method_of (rq_call r) = Method.GET → (serve r a).1 = a.
Proof.
  intros E. unfold Api.serve, reject_mutations, require_idempotency_key, rq_method. rewrite E.
  pose proof (get_is_pure r E a) as Hp. destruct (ac_read_only cfg), (rq_head r); simpl; done.
Qed.

(** A [HEAD] request, which changes nothing either, is refused as well. *)
Lemma head_is_refused_when_read_only r a :
  ac_read_only cfg = true → rq_method r = Method.HEAD → rs_status (serve r a).2 = 403.
Proof. intros E1 E2. unfold Api.serve, reject_mutations. by rewrite E1, E2. Qed.

(** C20.  A request that must not change anything changes nothing: in read-only mode, without an
    Idempotency-Key header, or on a route registered for GET, the store, the breaker, the hooks
    and the id counter of the process are as before.  A request to any other route is then
    answered 403 in read-only mode and 400 for want of the key.  A GET request is answered by
    its handler, whatever the mode and whether or not it carries a key; a HEAD request is too,
    except in read-only mode, which answers it 403. *)
Theorem safe_requests_change_nothing r a :
  ac_read_only cfg = true ∨ rq_idempotency_key r = None ∨ method_of (rq_call r) = Method.GET →
  (serve r a).1 = a
  ∧ (method_of (rq_call r) ≠ Method.GET →
     rs_status (serve r a).2 = if ac_read_only cfg then 403 else 400)
  ∧ (method_of (rq_call r) = Method.GET →
     if ac_read_only cfg && rq_head r then rs_status (serve r a).2 = 403
     else serve r a = answer (handle r a)).
Proof.
  intros Hsafe. destruct (decide (method_of (rq_call r) = Method.GET)) as [E|E].
  { split; [by apply serve_get|]. split; [done|]. intros _.
    unfold Api.serve, reject_mutations, require_idempotency_key, rq_method. rewrite E.
    by destruct (ac_read_only cfg), (rq_head r). }
  pose proof (method_of_not_head (rq_call r)) as Hh.
  unfold Api.serve, reject_mutations, require_idempotency_key, rq_method.
  destruct Hsafe as [->|[->|?]]; [|..|done];
    destruct (method_of (rq_call r)) eqn:Em; try done; by destruct (ac_read_only cfg).
Qed.
End safe.

(** ** Pages *)

Lemma digit_pretty n : (n < 10)%N → digit (pretty_N_char n) = Some (Z.of_N n).
Proof.
  intros Hn. assert (n = 0 ∨ n = 1 ∨ n = 2 ∨ n = 3 ∨ n = 4 ∨ n = 5 ∨ n = 6 ∨ n = 7 ∨ n = 8 ∨ n = 9)%N as E by lia.
  by repeat (destruct E as [->|E]); subst.
Qed.

Lemma digits_pretty n : ∀ s, digits 0 (pretty_N_go n s) = digits (Z.of_N n) s.
Proof.
  induction (N.lt_wf_0 n) as [n _ IH]; intros s.
  destruct (decide (n = 0)%N) as [->|Hn]; [by rewrite pretty_N_go_0|].
  rewrite pretty_N_go_step by lia. rewrite IH by (apply N.div_lt; lia). simpl.
  rewrite digit_pretty by (apply N.mod_lt; lia). f_equal.
  rewrite N2Z.inj_div, N2Z.inj_mod by lia. simpl Z.of_N. pose proof (Z_div_mod_eq_full (Z.of_N n) 10). lia.
Qed.

Lemma decimal_pretty p : decimal (pretty p) = Some (Zpos p).
Proof.
  pose proof (digits_pretty (Npos p) "") as Hd. unfold decimal, pretty, pretty_positive, pretty, pretty_N.
  rewrite decide_False by done. destruct (pretty_N_go (N.pos p) "") eqn:E; [discriminate Hd|done].
Qed.

Lemma decimal_head c s z : decimal (String c s) = Some z → c ≠ "-"%char ∧ c ≠ "+"%char.
Proof. simpl. unfold digit. intros H. split; intros ->; discriminate H. Qed.

(** A number read back from its decimal text. *)
Lemma parse_i64_pretty z : in_i64 z → parse_i64 (pretty z) = Some z.
Proof.
  intros Hz. assert ((i64_min <=? z) && (z <=? i64_max) = true) as Hb.
  { unfold in_i64 in Hz. rewrite andb_true_iff, !Z.leb_le. lia. }
  unfold parse_i64. destruct z as [|p|p]; [done|..].
  - change (pretty (Z.pos p)) with (pretty p). pose proof (decimal_pretty p) as Hd.
    destruct (pretty p) as [|c s]; [discriminate Hd|]. destruct (decimal_head _ _ _ Hd) as [H1 H2].
    rewrite (proj2 (Ascii.eqb_neq _ _) H1), (proj2 (Ascii.eqb_neq _ _) H2), Hd. by rewrite Hb.
  - change (pretty (Z.neg p)) with (String "-" (pretty p)). cbv beta iota zeta.
    assert (Z.opp <$> decimal (pretty p) = Some (Z.neg p)) as -> by (by rewrite decimal_pretty).
    cbn [Ascii.eqb Bool.eqb]. cbv iota. by rewrite Hb.
Qed.

(** What a page answers: its items, and the cursor of the next page. *)
Definition page_items (r : Response) : list json :=
  match rs_body r with Body.Json (JArray l) => l | _ => [] end.
Definition page_cursor (r : Response) : option string :=
  snd <$> List.find (λ h, String.eqb h.1 "x-next-cursor") (rs_headers r).

(** A client that follows the cursors from [cursor]. *)
Fixpoint crawl (fuel : nat) (values : list json) (limit cursor : Z) : option (list json) :=
  match fuel with
  | O => None
  | S fuel =>
      match control_page (Z.of_nat (length values)) (mkControlPage limit cursor) with
      | Err _ => None
      | Ok (start, end_) =>
          let r := paged_values values start end_ in
          match page_cursor r with
          | None => Some (page_items r)
          | Some next =>
              cursor ← parse_i64 next;
              rest ← crawl fuel values limit cursor;
              Some (page_items r ++ rest)
          end
      end
  end.

Lemma page_items_at values start end_ :
  page_items (paged_values values start end_) = take (Z.to_nat (end_ - start)) (drop (Z.to_nat start) values).
Proof. unfold paged_values. by case_match. Qed.

Lemma page_cursor_at values start end_ :
  page_cursor (paged_values values start end_)
  = if end_ <? Z.of_nat (length values) then Some (pretty end_) else None.
Proof. unfold paged_values. by case_match. Qed.

Lemma crawl_from limit values fuel n :
  1 ≤ limit ≤ 200 → Z.of_nat (length values) ≤ i64_max →
  (n ≤ length values)%nat → (length values - n < fuel)%nat →
  crawl fuel values limit (Z.of_nat n) = Some (drop n values).
Proof.
  intros Hl Hv. revert n. induction fuel as [|fuel IH]; intros n Hn Hf; [lia|].
  cbn [crawl]. unfold control_page. cbn [cp_limit cp_cursor].
  rewrite (proj2 (Z.eqb_neq _ _)), (proj2 (Z.ltb_ge 200 _)) by lia. cbn [orb].
  set (e := Z.min (u64_saturating_add (Z.min (Z.of_nat n) (Z.of_nat (length values))) limit)
              (Z.of_nat (length values))).
  rewrite page_cursor_at, page_items_at, Z.min_l by lia.
  assert (e = Z.of_nat (min (n + Z.to_nat limit) (length values))) as Ee.
  { subst e. unfold u64_saturating_add, u64_max, i64_max in *. lia. }
  destruct (Z.ltb_spec e (Z.of_nat (length values))) as [He|He].
  - rewrite parse_i64_pretty by (unfold in_i64, i64_min, i64_max in *; lia). simpl. rewrite Ee, IH by lia. simpl. f_equal.
    rewrite Z2Nat.inj_sub, !Nat2Z.id by lia. rewrite (Nat.min_l (n + _)) by lia.
    replace (n + Z.to_nat limit - n)%nat with (Z.to_nat limit) by lia.
    by rewrite <- drop_drop, take_drop.
  - f_equal. rewrite Nat2Z.id. apply take_ge. rewrite length_drop. lia.
Qed.

(** C38.  Following [x-next-cursor] through a paged control list ends, and the pages together are
    the list: every entry is returned exactly once, in order, for every page size the API
    accepts (1 to 200).  Other sizes are refused. *)
Theorem pages_cover_the_list limit values :
  (1 ≤ limit ≤ 200 → Z.of_nat (length values) ≤ i64_max →
   crawl (S (length values)) values limit 0 = Some values)
  ∧ (0 ≤ limit → ¬ (1 ≤ limit ≤ 200) → ∀ n cursor,
     control_page n (mkControlPage limit cursor) = Err (err_response 400 "limit must be between 1 and 200")).
Proof.
  split.
  - intros Hl Hv. apply (crawl_from limit values (S (length values)) 0); lia.
  - intros H0 Hl n cursor. unfold control_page. simpl.
    destruct (Z.eqb_spec limit 0), (Z.ltb_spec 200 limit); simpl; try done. lia.
Qed.

Lemma pages_cover_the_list_witness :
  crawl 6 (JInt <$> [1; 2; 3; 4; 5]) 2 0 = Some (JInt <$> [1; 2; 3; 4; 5])
  ∧ control_page 5 (mkControlPage 201 0) = Err (err_response 400 "limit must be between 1 and 200").
Proof.
  destruct (pages_cover_the_list 2 (JInt <$> [1; 2; 3; 4; 5])) as [H1 _].
  destruct (pages_cover_the_list 201 []) as [_ H2].
  split; [apply H1; [lia|vm_compute; congruence] | apply H2; lia].
Defined.

(** ** The search grammar *)

(** Visible ASCII. *)
Definition graphic (c : ascii) : bool := (33 <=? byte_val c) && (byte_val c <? 127).
Definition graphic_str (s : string) : bool := str_forall graphic s.

Lemma whitespace_graphic c s : graphic c = true → whitespace (String c s) = None.
Proof.
  unfold graphic. rewrite andb_true_iff, Z.leb_le, Z.ltb_lt. intros Hc. unfold whitespace.
  set (n := byte_val c) in *. destruct (Z.eqb_spec n 32), (Z.eqb_spec n 194), (Z.eqb_spec n 225),
    (Z.eqb_spec n 226), (Z.eqb_spec n 227); try lia.
  rewrite (proj2 (Z.leb_gt n 13)), andb_false_r by lia. simpl. by do 2 (destruct s as [|? s]; [done|]).
Qed.

Lemma words_graphic w s : graphic_str w = true →
  words_from 0 (w +:+ s)%stdpp = ((w +:+ (words_from 0 s).1)%stdpp, (words_from 0 s).2).
Proof.
  unfold graphic_str. induction w as [|c w IH]; [intros _; apply surjective_pairing|].
  cbn [str_forall]. rewrite andb_true_iff. intros [Hc Hw].
  change (String c w +:+ s)%stdpp with (String c (w +:+ s)%stdpp).
  change (words_from 0 (String c (w +:+ s)%stdpp)) with
    (match whitespace (String c (w +:+ s)%stdpp) with
     | Some k => let '(w, l) := words_from (pred k) (w +:+ s)%stdpp in ("", push_word w l)
     | None => let '(w, l) := words_from 0 (w +:+ s)%stdpp in (String c w, l)
     end).
  rewrite whitespace_graphic, IH by done. done.
Qed.

Fixpoint join_terms (terms : list string) : string :=
  match terms with [] => "" | t :: terms => (t +:+ String " " (join_terms terms))%stdpp end.

Lemma split_join terms :
  Forall (λ t, graphic_str t = true ∧ t ≠ "") terms → split_whitespace (join_terms terms) = terms.
Proof.
  induction 1 as [|t terms [Ht Hne] _ IH]; [done|]. unfold split_whitespace in *. simpl join_terms.
  rewrite words_graphic by done. simpl words_from. destruct (words_from 0 (join_terms terms)) as [w l].
  simpl. rewrite IH. unfold push_word.
  rewrite str_app_nil_r. by rewrite (proj2 (String.eqb_neq _ _) Hne).
Qed.

Definition empty_filter : JobFilter := mkJobFilter None None None None None None None None None [] [].

Definition opt_term (field : string) (v : option string) : list string :=
  match v with Some v => [(field +:+ ":" +:+ v)%stdpp] | None => [] end.

(** The search text of a filter. *)
Definition filter_terms (f : JobFilter) : list string :=
  opt_term "id" (jf_id f) ++ opt_term "queue" (jf_queue f) ++ opt_term "state" (jf_state f)
  ++ opt_term "kind" (jf_kind f) ++ opt_term "partition" (jf_partition_key f)
  ++ opt_term "rate_class" (jf_rate_class f) ++ opt_term "fingerprint" (jf_fingerprint f)
  ++ ((λ v, "tag:" +:+ v)%stdpp <$> jf_tags_all f) ++ ((λ v, "tag_any:" +:+ v)%stdpp <$> jf_tags_any f)
  ++ opt_term "priority" (pretty <$> jf_priority f) ++ option_list (jf_kind_prefix f).

(** Filters the grammar can express: visible text, no colon in the kind prefix. *)
Record filter_ok (f : JobFilter) : Prop := {
  fo_strings : Forall (λ v, graphic_str v = true)
    (option_list (jf_id f) ++ option_list (jf_queue f) ++ option_list (jf_state f)
     ++ option_list (jf_kind f) ++ option_list (jf_partition_key f) ++ option_list (jf_rate_class f)
     ++ option_list (jf_fingerprint f) ++ jf_tags_all f ++ jf_tags_any f);
  fo_priority : ∀ n, jf_priority f = Some n → - 2 ^ 31 ≤ n < 2 ^ 31;
  fo_prefix : ∀ w, jf_kind_prefix f = Some w →
    graphic_str w = true ∧ w ≠ "" ∧ split_once ":" w = None;
}.

Lemma parse_terms_app l1 l2 f :
  parse_terms (l1 ++ l2) f = let? f := parse_terms l1 f in parse_terms l2 f.
Proof.
  revert f. induction l1 as [|t l1 IH]; intros f; simpl; [done|].
  destruct (parse_term t f) as [f'|e]; simpl; [apply IH|done].
Qed.

Lemma parse_tags l f :
  parse_terms ((λ v, "tag:" +:+ v)%stdpp <$> l) f = Ok (f <| jf_tags_all := jf_tags_all f ++ l |>).
Proof.
  revert f. induction l as [|v l IH]; intros f; [by destruct f; unfold upd; cbn; rewrite app_nil_r|].
  cbn [fmap list_fmap parse_terms]. change (parse_term ("tag:" +:+ v)%stdpp f) with
    (Ok (E := string) (f <| jf_tags_all := jf_tags_all f ++ [v] |>)).
  cbv iota. rewrite IH. unfold upd. cbn. by rewrite <- app_assoc.
Qed.

Lemma parse_tags_any l f :
  parse_terms ((λ v, "tag_any:" +:+ v)%stdpp <$> l) f = Ok (f <| jf_tags_any := jf_tags_any f ++ l |>).
Proof.
  revert f. induction l as [|v l IH]; intros f; [by destruct f; unfold upd; cbn; rewrite app_nil_r|].
  cbn [fmap list_fmap parse_terms]. change (parse_term ("tag_any:" +:+ v)%stdpp f) with
    (Ok (E := string) (f <| jf_tags_any := jf_tags_any f ++ [v] |>)).
  cbv iota. rewrite IH. unfold upd. cbn. by rewrite <- app_assoc.
Qed.

Lemma parse_priority n f : - 2 ^ 31 ≤ n < 2 ^ 31 →
  parse_term ("priority:" +:+ pretty n)%stdpp f = Ok (f <| jf_priority := Some n |>).
Proof.
  intros Hn. change (parse_term ("priority:" +:+ pretty n)%stdpp f) with
    (match parse_i32 (pretty n) with
     | Some n => Ok (f <| jf_priority := Some n |>)
     | None => Err ("priority `" +:+ pretty n +:+ "` is not a number")%stdpp
     end).
  unfold parse_i32. rewrite parse_i64_pretty by (unfold in_i64, i64_min, i64_max; lia).
  by rewrite (proj2 (Z.leb_le _ _)), (proj2 (Z.ltb_lt _ _)) by lia.
Qed.

Lemma parse_prefix w f : split_once ":" w = None → parse_term w f = Ok (f <| jf_kind_prefix := Some w |>).
Proof. intros E. unfold parse_term. by rewrite E. Qed.

(** A term that sets its field always parses. *)
Lemma parse_opt (field : string) (set : string → JobFilter → JobFilter) v f :
  (∀ v f, parse_term (field +:+ ":" +:+ v)%stdpp f = Ok (set v f)) →
  parse_terms (opt_term field v) f = Ok (match v with Some v => set v f | None => f end).
Proof. intros H. destruct v as [v|]; [|done]. cbn [opt_term parse_terms]. by rewrite H. Qed.

(** The fields in turn; each term sets its own. *)
Lemma parse_filter_terms f : filter_ok f → parse_terms (filter_terms f) empty_filter = Ok f.
Proof.
  intros [_ Hp Hw]. unfold filter_terms. rewrite !parse_terms_app.
  rewrite (parse_opt "id" (λ v f, f <| jf_id := Some v |>)) by done. cbv beta iota.
  rewrite parse_terms_app, (parse_opt "queue" (λ v f, f <| jf_queue := Some v |>)) by done. cbv beta iota.
  rewrite parse_terms_app, (parse_opt "state" (λ v f, f <| jf_state := Some v |>)) by done. cbv beta iota.
  rewrite parse_terms_app, (parse_opt "kind" (λ v f, f <| jf_kind := Some v |>)) by done. cbv beta iota.
  rewrite parse_terms_app, (parse_opt "partition" (λ v f, f <| jf_partition_key := Some v |>)) by done.
  cbv beta iota.
  rewrite parse_terms_app, (parse_opt "rate_class" (λ v f, f <| jf_rate_class := Some v |>)) by done.
  cbv beta iota.
  rewrite parse_terms_app, (parse_opt "fingerprint" (λ v f, f <| jf_fingerprint := Some v |>)) by done.
  cbv beta iota. rewrite parse_terms_app, parse_tags. cbv beta iota.
  rewrite parse_terms_app, parse_tags_any. cbv beta iota. rewrite parse_terms_app.
  destruct f as [queue state kind prefix part id fp rc prio all any]. simpl in *.
  destruct prio as [n|]; cbn [opt_term fmap option_fmap option_map parse_terms];
    rewrite ?(parse_priority n) by auto; cbv beta iota;
    (destruct prefix as [w|];
      [change (option_list (Some w)) with [w]; cbn [parse_terms]; rewrite parse_prefix by (by apply Hw)|]);
    destruct id, queue, state, kind, part, rc, fp; reflexivity.
Qed.

Lemma graphic_app a b : graphic_str (a +:+ b)%stdpp = graphic_str a && graphic_str b.
Proof.
  unfold graphic_str. induction a as [|c a IH]; [done|].
  change (str_forall graphic (String c a +:+ b)%stdpp) with (graphic c && str_forall graphic (a +:+ b)%stdpp).
  cbn [str_forall]. by rewrite IH, andb_assoc.
Qed.

Lemma graphic_digits n : ∀ s, graphic_str s = true → graphic_str (pretty_N_go n s) = true.
Proof.
  induction (N.lt_wf_0 n) as [n _ IH]; intros s Hs.
  destruct (decide (n = 0)%N) as [->|Hn]; [by rewrite pretty_N_go_0|].
  rewrite pretty_N_go_step by lia. apply IH; [apply N.div_lt; lia|].
  unfold graphic_str in *. cbn [str_forall]. rewrite Hs, andb_true_r.
  assert (n `mod` 10 < 10)%N as Hm by (apply N.mod_lt; lia). revert Hm. generalize (n `mod` 10)%N. clear.
  intros m Hm. assert (m = 0 ∨ m = 1 ∨ m = 2 ∨ m = 3 ∨ m = 4 ∨ m = 5 ∨ m = 6 ∨ m = 7 ∨ m = 8 ∨ m = 9)%N as E by lia.
  by repeat (destruct E as [->|E]); subst.
Qed.

Lemma graphic_pretty (z : Z) : graphic_str (pretty z) = true.
Proof.
  destruct z as [|p|p]; [done|apply (graphic_digits (N.pos p) ""); done|].
  change (pretty (Z.neg p)) with (String "-" (pretty p)). apply (graphic_digits (N.pos p) ""). done.
Qed.

Lemma opt_term_visible field v :
  field ≠ "" → graphic_str field = true → Forall (λ v, graphic_str v = true) (option_list v) →
  Forall (λ t, graphic_str t = true ∧ t ≠ "") (opt_term field v).
Proof.
  intros Hne Hf Hv. destruct v as [v|]; [|constructor]. apply Forall_cons in Hv as [Hv _].
  repeat constructor; [by rewrite !graphic_app, Hf, Hv|by destruct field].
Qed.

(** What a search can express survives the text: visible terms, so the words are the terms. *)
Lemma filter_terms_visible f : filter_ok f → Forall (λ t, graphic_str t = true ∧ t ≠ "") (filter_terms f).
Proof.
  intros [Hs _ Hw]. rewrite !Forall_app in Hs. unfold filter_terms.
  destruct Hs as (? & ? & ? & ? & ? & ? & ? & Hall & Hany).
  rewrite !Forall_app. repeat split; try (by apply opt_term_visible).
  - apply Forall_fmap. eapply Forall_impl; [exact Hall|]. intros v Hv. simpl. by rewrite graphic_app, Hv.
  - apply Forall_fmap. eapply Forall_impl; [exact Hany|]. intros v Hv. simpl. by rewrite graphic_app, Hv.
  - apply opt_term_visible; [done..|]. destruct (jf_priority f) as [n|]; repeat constructor.
    apply graphic_pretty.
  - destruct (jf_kind_prefix f) as [w|]; repeat constructor; by apply Hw.
Qed.

(** The search box loses nothing: a job filter written as search text (its fields as
    [field:value] terms, each tag as its own term, the kind prefix bare) and read back by [q=] is
    the same filter, for values of visible ASCII characters, a kind prefix without a colon and a
    32-bit priority. *)
Theorem search_roundtrip f :
  filter_ok f → parse_q (join_terms (filter_terms f)) empty_filter = Ok f.
Proof.
  intros Hf. unfold parse_q. rewrite split_join by by apply filter_terms_visible.
  by apply parse_filter_terms.
Qed.

Definition demo_filter : JobFilter :=
  mkJobFilter (Some "mail") (Some "available") None (Some "email.") None None None None (Some (-5))
    ["vip"; "eu:west"] ["a"; "b"].

Lemma demo_filter_ok : filter_ok demo_filter.
Proof.
  split; [repeat constructor|..]; simpl; intros ? [= <-]; [lia|].
  split; [done|]. split; [done|]. reflexivity.
Qed.

Lemma search_roundtrip_witness :
  join_terms (filter_terms demo_filter)
  = "queue:mail state:available tag:vip tag:eu:west tag_any:a tag_any:b priority:-5 email. "
  ∧ parse_q (join_terms (filter_terms demo_filter)) empty_filter = Ok demo_filter.
Proof. split; [vm_compute; reflexivity|]. exact (search_roundtrip demo_filter demo_filter_ok). Defined.
