(* ===== verification/ApiSqlite.v ===== *)
(** * The control API over the SQLite adapter

    The adapter as the store of the API: its instance of the workflow crate's port, the server
    with every port filled in ([serve_at]), and what a repeated [POST /jobs] does there. *)

From S2P Require Import Prelude Shared Lifecycle Envelope Graph Workflow MemStore Core Tick Coordinator Operators ScheduleSpec Scheduler Attempt Worker Pool Breaker Client Sqlite SqliteInspect SqliteSpec SqliteEnqueue SqlitePorts Console Api SqliteReads ApiSpec.
Local Open Scope Z_scope.

(** ** Ports *)

Section ports.
Context (cf : string) (is_json : bytes → bool) (to_string : list json → string).
Context (show : StoreError.StoreError → string) (ord : Db → list string) (now : Z).

Definition on_store {A} (f : Db → Db * result A StoreError.StoreError) (d : Db) : result Db string :=
  match f d with
  | (d, Ok _) => Ok d
  | (_, Err e) => Err (show e)
  end.

(** The same operations as [sqlite_inspect], on the database alone. *)
#[export] Instance sqlite_db_inspect : Inspect Db := {|
  get_job id payload d := Ok (sqlite_get_job to_string id payload d);
  Coordinator.list_jobs f cursor limit d := shown show (sqlite_list_jobs to_string f cursor limit d);
  has_checkpoint_inspect := true;
  get_job_checkpoint id d := Ok (get_checkpoint id d);
  has_output_inspect := true;
  inspect_output id d := Ok (get_output id d);
  promote_job id := on_store (sqlite_promote_job now id);
  schedule_pending_job id at_ms := on_store (sqlite_schedule_pending id at_ms);
  Coordinator.delete_job id := on_store (sqlite_delete_job id);
  operator_retry id := on_store (sqlite_operator_retry now id);
  operator_cancel id := on_store (sqlite_operator_cancel now id);
  inspect_enqueue batch := on_store (λ d, sqlite_enqueue cf (ord d) now now batch d);
  quarantine_release fp := on_store (sqlite_quarantine_release now fp);
  edit_payload id payload version fp := on_store (sqlite_edit_payload id payload version fp);
  append_durable_event e d :=
    match sqlite_append_event is_json now e d with
    | (d, Ok (stored, inserted)) => Ok (stored, inserted, d)
    | (_, Err err) => Err (show err)
    end;
  list_durable_events scope before limit d := shown show (sqlite_list_events scope before limit d);
|}.
End ports.

(** ** One envelope, twice *)

Section twice.
Context (cf : string).

(** What an enqueue that was accepted found: the key free and the content not quarantined. *)
Lemma enqueue_fresh ord now now' e k d d' :
  sqlite_enqueue cf ord now now' [e] d = (d', Ok tt) → sq_job d !! e_id e = None →
  effective_unique_key e = Some k → e_pending e = false →
  sq_job d' = <[e_id e := new_row now e (Some k)]> (sq_job d)
  ∧ sq_quarantine d' = sq_quarantine d ∧ unique_row ord k now d = None
  ∧ negb (String.eqb (e_fingerprint e) "") && bool_decide (is_Some (sq_quarantine d !! e_fingerprint e)) = false.
Proof.
  intros He Hid Hk Hp. unfold sqlite_enqueue in He. cbn [bool_decide] in He.
  rewrite bool_decide_eq_false_2 in He by done. destruct (validate_enqueue [e]) as [[]|]; [|done].
  unfold enqueue_on in He. cbn [check_batch] in He. rewrite Hid, Hk, Hp, orb_true_r, lookup_empty in He.
  destruct (negb _ && _) eqn:Eq; [done|]. destruct (unique_row ord k now d) as [x|] eqn:Eu.
  { destruct (duplicate_row cf now' e x d) as [? err]; by destruct err. }
  cbn [app] in He. destruct (backpressure _ d) as [[]|]; [|done]. cbn [insert_rows] in He.
  destruct (insert_row cf _ d) as [d2|err] eqn:Ei; [|done].
  unfold insert_row in Ei. destruct (row_checks _ && _); [|done]. injection Ei as <-. injection He as <-. done.
Qed.

(** The row an accepted enqueue left holds its key; nothing else does, then or later. *)
Lemma fresh_holds ord now now2 e k d d' :
  sq_job d' = <[e_id e := new_row now e (Some k)]> (sq_job d) → unique_row ord k now d = None →
  (∀ id, is_Some (sq_job d !! id) → id ∈ ord) → now ≤ now2 →
  e_pending e = false → e_unique_window_ms e = 0 →
  ∀ id r, sq_job d' !! id = Some r → holds_key k now2 r = true ↔ id = e_id e.
Proof.
  intros Ed Hu Ho Hn Hp Hw id r. rewrite Ed. destruct (decide (id = e_id e)) as [->|Hne].
  - rewrite lookup_insert_eq. intros [= <-]. split; [done|]. intros _. unfold holds_key.
    rewrite bool_decide_eq_true_2 by done.
    change (row_unique_window (new_row now e (Some k))) with (e_unique_window_ms e). rewrite Hw. simpl.
    unfold state_in, new_row. cbn [row_state]. rewrite Hp. by destruct (now <? _).
  - rewrite lookup_insert_ne by done. intros Hr. split; [|done]. intros Hh. exfalso.
    pose proof (unique_row_none ord k now d Hu Ho id r Hr) as Hf. revert Hh Hf. unfold holds_key.
    destruct (bool_decide _); [|done]. simpl. destruct (0 <? row_unique_window r); simpl; [|by intros ->].
    destruct (row_unique_expires r) as [t|]; [|by intros ->].
    destruct (Z.ltb_spec now2 t), (Z.ltb_spec now t); simpl; try lia; by intros ->.
Qed.

Lemma find_only {A} (p : A → bool) (x : A) l :
  x ∈ l → p x = true → (∀ y, p y = true → y = x) → List.find p l = Some x.
Proof.
  induction 1 as [x l|x y l _ IH]; intros Hp Hu; simpl; [by rewrite Hp|].
  destruct (p y) eqn:Ey; [by rewrite (Hu y Ey)|]. by apply IH.
Qed.

(** The same content again, under a new id: a duplicate of the first. *)
Lemma enqueue_again ord now now' e e2 k d :
  (∀ id, is_Some (sq_job d !! id) → id ∈ ord) → is_Some (sq_job d !! e_id e) →
  (∀ id r, sq_job d !! id = Some r → holds_key k now r = true ↔ id = e_id e) →
  negb (String.eqb (e_fingerprint e2) "") && bool_decide (is_Some (sq_quarantine d !! e_fingerprint e2)) = false →
  sq_job d !! e_id e2 = None → validate_enqueue [e2] = Ok tt →
  effective_unique_key e2 = Some k → e_pending e2 = false →
  e_unique_debounce_ms e2 = 0 → e_unique_replace e2 = 0 →
  sqlite_enqueue cf ord now now' [e2] d = (d, Err (StoreError.Duplicate (e_id e) false)).
Proof.
  intros Ho [r Hr] Hk Hq Hid Hv Hkey Hp Hd Hre. unfold sqlite_enqueue. rewrite bool_decide_eq_false_2 by done.
  rewrite Hv. unfold enqueue_on. cbn [check_batch]. rewrite Hid, Hq, Hkey, Hp, orb_true_r, lookup_empty.
  assert (unique_row ord k now d = Some (e_id e)) as ->.
  { apply find_only; [apply Ho; by exists r| |].
    - rewrite Hr. by apply (Hk _ _ Hr).
    - intros y. destruct (sq_job d !! y) as [ry|] eqn:Ey; [|done]. by apply Hk. }
  unfold duplicate_row. by rewrite Hd, Hre.
Qed.

(** The same id again: skipped. *)
Lemma enqueue_same_id ord now now' e r d :
  sq_job d !! e_id e = Some r → validate_enqueue [e] = Ok tt →
  same_job_content e (e_kind (row_env r)) (e_fingerprint (row_env r)) (e_queue (row_env r)) = true →
  sqlite_enqueue cf ord now now' [e] d = (d, Ok tt).
Proof.
  intros Hr Hv Hs. unfold sqlite_enqueue. rewrite bool_decide_eq_false_2 by done. rewrite Hv.
  unfold enqueue_on. cbn [check_batch]. by rewrite Hr, Hs.
Qed.

Lemma enqueue_valid ord now now' e d d' :
  sqlite_enqueue cf ord now now' [e] d = (d', Ok tt) → validate_enqueue [e] = Ok tt.
Proof.
  unfold sqlite_enqueue. rewrite bool_decide_eq_false_2 by done.
  by destruct (validate_enqueue [e]) as [[]|].
Qed.
End twice.

(** ** A repeated POST *)

Section replay.
Context `{Console Db} `{!WorkflowOps Db}.
Context (b64_encode : bytes → string) (b64_decode : string → option bytes).
Context (json_from_str : string → option json) (ratio : Z → Z → json).
Context (sha256 : bytes → bytes).
Context (spec_validate : string → result unit string) (spec_next : string → Z → result Z string).
Context (signal_json : WorkflowSignal → json) (event_json : WorkflowEvent → json).
Context (snapshot_json : WorkflowSnapshot → json) (page_json : WorkflowPage → json).
Context (node_json : WorkflowNode → json).
Context (clock : nat → Z) (pid : Z) (producer : Client) (cfg : ApiConfig).
Context (cf : string) (ord : Db → list string).

(** The server, its store read at [now]. *)
Definition serve_at (now : Z) : Request → Api Db → Api Db * Response :=
  serve (H1 := sqlite_producer cf ord now now) b64_encode b64_decode json_from_str ratio sha256 spec_validate
    spec_next signal_json event_json snapshot_json page_json node_json clock pid producer cfg.

(** The id a request without one gets. *)
Definition next_id (r : Request) (a : Api Db) : string :=
  format_generated_id (wrap_u64 (rq_now_ms r)) pid (api_seq a).

Definition post_id (body : EnqueueBody) (r : Request) (a : Api Db) : string :=
  default (next_id r a) (eb_id body).

(** The id in an answer. *)
Definition answered_id (resp : Response) : option string :=
  match rs_body resp with
  | Body.Json (JObject fields) =>
      match List.find (λ f, String.eqb f.1 "id") fields with Some (_, JString id) => Some id | _ => None end
  | _ => None
  end.

(** A producer that adds nothing of its own, and lets jobs of this kind in. *)
Definition plain_producer (kind : string) : Prop :=
  middleware_chain producer = [] ∧ cl_circuit producer = None
  ∧ ∀ c e, e_kind e = kind → cl_authorize producer c e = true.

Lemma produce_plain now identity e a : plain_producer (e_kind e) →
  ∃ a', produce (H1 := sqlite_producer cf ord now now) clock producer identity [e] a
        = (a', Ok (match (sqlite_enqueue cf (ord (api_store a)) now now [e] (api_store a)).2 with
                   | Ok _ => Ok tt | Err err => Err (ClientError.Store err) end))
  ∧ api_store a' = (sqlite_enqueue cf (ord (api_store a)) now now [e] (api_store a)).1
  ∧ api_seq a' = api_seq a.
Proof.
  intros (Hm & Hc & Ha). unfold produce, enqueue_with_context. rewrite Hm. cbn [run_chain].
  unfold enqueue_terminal, insert_with, acquire_permit, finish_permit. cbn [authorize_enqueue_batch er_batch er_context]. rewrite Ha, Hc by done.
  destruct a as [p seq]. change (api_store (mkApi p seq)) with (pd_store p). cbn -[sqlite_enqueue].
  match goal with |- context [sqlite_enqueue ?c ?o ?n ?n' ?b ?d] =>
    destruct (sqlite_enqueue c o n n' b d) as [d' [[]|err]] end; (eexists; split; [reflexivity|split; reflexivity]).
Qed.

(** A body whose replays join: no key of its own, not pending, no window, debounce or
    replacement. *)
Record joinable (body : EnqueueBody) : Prop := {
  jb_key : eb_unique_key body = None;
  jb_replace : default 0 (eb_unique_replace body) = 0;
  jb_pending : eb_pending body = false;
  jb_window : default 0 (eb_unique_window_ms body) = 0;
  jb_debounce : default 0 (eb_unique_debounce_ms body) = 0;
}.

Definition created (id : string) : Response := json_response 201 (obj [("id", JString id)]).

(** What [POST /jobs] answers, by the store's answer. *)
Definition post_answer (id : string) (res : result unit StoreError.StoreError) : Response :=
  match res with
  | Ok _ => created id
  | Err (StoreError.Duplicate existing_id _) =>
      json_response 201 (obj [("id", JString existing_id); ("replayed", JBool true)])
  | Err err => client_error (ClientError.Store err)
  end.

Lemma post_plain now r body payload a :
  plain_producer (eb_kind body) → ac_read_only cfg = false → is_Some (rq_idempotency_key r) →
  rq_call r = Call.Enqueue (Ok body) → joinable body → eb_weight body ≠ Some 0 →
  b64_decode (eb_payload body) = Some payload →
  let e := enqueue_envelope sha256 (post_id body r a) body payload ("idem:" +:+ idem_of r)%stdpp in
  let out := sqlite_enqueue cf (ord (api_store a)) now now [e] (api_store a) in
  (serve_at now r a).2 = post_answer (post_id body r a) out.2 ∧ api_store (serve_at now r a).1 = out.1.
Proof.
  intros Hp Hro [key Hkey] Hc [Hk Hre _ _ _] Hw Hpay e out.
  unfold serve_at, Api.serve, require_idempotency_key, rq_method. rewrite Hro, Hkey, Hc. cbn [method_of].
  unfold answer, Api.handle. rewrite Hc. unfold enqueue_job.
  cbv beta iota delta [mbind handler_bind body_of mret handler_ret stop_if or_stop]. rewrite Hpay, Hk, Hre.
  rewrite bool_decide_eq_false_2 by done. cbv beta iota. change (negb (0 =? 0) && negb (is_some (A := bytes) None)) with false. cbv beta iota.
  set (a1 := match eb_id body with Some _ => a | None => mkApi (api_producer a) (u64_add (api_seq a) 1) end).
  assert (api_store a1 = api_store a) as Ea by (subst a1; by destruct (eb_id body)).
  destruct (produce_plain now (rq_identity r) e a1 Hp) as (a' & Ep & Es & _). rewrite Ea in Ep, Es.
  fold out in Ep, Es. subst a1. unfold e, post_id, next_id in *.
  destruct (eb_id body) as [id|]; cbv beta iota delta [gen_id default from_option Datatypes.id] in *; rewrite Ep;
    destruct out as [d' [[]|err]]; try (split; [reflexivity|exact Es]);
    destruct err; (split; [reflexivity|exact Es]).
Qed.

Lemma post_answer_created id res : post_answer id res = created id → res = Ok tt.
Proof. destruct res as [[]|err]; [done|]. by destruct err. Qed.

(** C19.  A retried [POST /jobs] joins the first job, for SQLite and a producer without
    middlewares or breaker whose authorizer lets the kind in, and for a body that is not
    [pending] and has no uniqueness settings of its own: once a request was answered 201 for a
    new job, a second request with the same Idempotency-Key and body is answered 201 with the
    first job's id at any later time before the store changes, and leaves the store as it was -
    whether the body names the id or the server generates a fresh one.  A pending body and a
    finished job are outside: [pending_key_is_free], [finished_key_is_free]. *)
Theorem repeated_post_joins now1 now2 r1 r2 body payload a :
  plain_producer (eb_kind body) → ac_read_only cfg = false →
  (∀ d id, is_Some (sq_job d !! id) → id ∈ ord d) →
  rq_call r1 = Call.Enqueue (Ok body) → rq_call r2 = Call.Enqueue (Ok body) →
  is_Some (rq_idempotency_key r1) → rq_idempotency_key r2 = rq_idempotency_key r1 →
  joinable body → eb_weight body ≠ Some 0 → b64_decode (eb_payload body) = Some payload → now1 ≤ now2 →
  sq_job (api_store a) !! post_id body r1 a = None →
  (serve_at now1 r1 a).2 = created (post_id body r1 a) →
  let a1 := (serve_at now1 r1 a).1 in
  let e2 := enqueue_envelope sha256 (post_id body r2 a1) body payload ("idem:" +:+ idem_of r2)%stdpp in
  (eb_id body = None → sq_job (api_store a1) !! e_id e2 = None ∧ validate_enqueue [e2] = Ok tt) →
  rs_status (serve_at now2 r2 a1).2 = 201
  ∧ answered_id (serve_at now2 r2 a1).2 = Some (post_id body r1 a)
  ∧ api_store (serve_at now2 r2 a1).1 = api_store a1.
Proof.
  intros Hp Hro Ho Hc1 Hc2 Hk1 Hk2 Hj Hw Hpay Hn Hnew Hans a1 e2 Hid2.
  assert (is_Some (rq_idempotency_key r2)) as Hk2' by (by rewrite Hk2).
  assert (idem_of r2 = idem_of r1) as Ei by (unfold idem_of; by rewrite Hk2).
  destruct (post_plain now1 r1 body payload a Hp Hro Hk1 Hc1 Hj Hw Hpay) as [E1 Es1].
  destruct (post_plain now2 r2 body payload a1 Hp Hro Hk2' Hc2 Hj Hw Hpay) as [-> ->].
  fold a1 in Es1. fold e2. rewrite E1 in Hans. apply post_answer_created in Hans.
  set (e := enqueue_envelope sha256 (post_id body r1 a) body payload _) in *.
  destruct (sqlite_enqueue cf (ord (api_store a)) now1 now1 [e] (api_store a)) as [d1 res] eqn:Ee.
  simpl in Es1, Hans. subst res d1. destruct Hj as [Hj1 Hj2 Hj3 Hj4 Hj5].
  assert (∃ k, effective_unique_key e = Some k ∧ effective_unique_key e2 = Some k) as (k & Hke & Hke2).
  { subst e e2. rewrite Ei. eexists. split; reflexivity. }
  destruct (enqueue_fresh cf _ _ _ _ _ _ _ Ee Hnew Hke Hj3) as (Ed & Eq & Hu & Hq).
  assert (is_Some (sq_job (api_store a1) !! e_id e)) as He by (rewrite Ed, lookup_insert_eq; done).
  destruct (eb_id body) as [id|] eqn:Eid.
  - assert (e2 = e) as -> by (subst e e2; unfold post_id; by rewrite Eid, Ei).
    rewrite (enqueue_same_id cf _ _ _ _ (new_row now1 e (Some k)));
      [|by rewrite Ed, lookup_insert_eq|by eapply enqueue_valid
       |unfold same_job_content; by rewrite !String.eqb_refl].
    unfold post_id. by rewrite Eid.
  - destruct (Hid2 eq_refl) as [Hf2 Hv2].
    rewrite (enqueue_again cf _ _ _ e e2 k); try done.
    + apply Ho.
    + eapply fresh_holds; try done. apply Ho.
    + rewrite Eq. exact Hq.
Qed.
End replay.

(** ** Evaluations *)

Lemma ids_visited (d : Db) id : is_Some (sq_job d !! id) → id ∈ (map_to_list (sq_job d)).*1.
Proof.
  intros [r Hr]. apply list_elem_of_fmap. exists (id, r). split; [done|].
  by apply elem_of_map_to_list.
Qed.

Definition demo_ord (d : Db) : list string := (map_to_list (sq_job d)).*1.
#[local] Instance demo_console : Console Db :=
  sqlite_console "constraint" (λ _, "") 1000 7 1 [] (λ _, "") (λ _ _ _, None).
#[local] Instance demo_inspect : Inspect Db :=
  sqlite_db_inspect "constraint" (λ _, true) (λ _, "") (λ _, "") demo_ord 1000.
#[local] Instance demo_workflows : WorkflowOps Db :=
  workflow_ops id (λ _, Ok "") (λ _, Err "payload") (λ _, Err "cursor") (λ _, Ok "")
    (λ _, Ok JNull) id.
#[local] Instance demo_workflow_reads : WorkflowReads Db := workflow_ops_reads _ _ _ _ _ _ _.

Definition demo_api_config (read_only : bool) : ApiConfig := mkApiConfig "sqlite" "1" read_only None.
Definition demo_server (read_only : bool) (now : Z) : Request → Api Db → Api Db * Response :=
  serve_at id Some (λ _, None) (λ _ _, JNull) id (λ _, Ok tt) (λ _ _, Ok 0) (λ _, JNull) (λ _, JNull)
    (λ _, JNull) (λ _, JNull) (λ _, JNull) (λ _, 0) 7 new_client (demo_api_config read_only) "constraint"
    demo_ord now.
Definition demo_body : EnqueueBody :=
  mkEnqueueBody "mail" None "hello" None None None None None None None None None None false [] false ""
    None None None.
Definition demo_post (now : Z) : Request :=
  mkRequest false (Call.Enqueue (Ok demo_body)) (Some (Some "k1")) None now.
Definition demo_api : Api Db := mkApi (mkProducer empty_db (mkMachine 0 (Closed 0)) 0 []) 0.
Definition demo_posted : Api Db := (demo_server false 1000 (demo_post 1000) demo_api).1.

Lemma demo_joinable : joinable demo_body.
Proof. by split. Qed.

Lemma repeated_post_joins_witness :
  answered_id (demo_server false 1000 (demo_post 1000) demo_api).2
  = answered_id (demo_server false 5000 (demo_post 5000) demo_posted).2
  ∧ size (sq_job (api_store demo_posted)) = 1%nat
  ∧ api_store (demo_server false 5000 (demo_post 5000) demo_posted).1 = api_store demo_posted.
Proof.
  destruct (repeated_post_joins id Some (λ _, None) (λ _ _, JNull) id (λ _, Ok tt) (λ _ _, Ok 0)
    (λ _, JNull) (λ _, JNull) (λ _, JNull) (λ _, JNull) (λ _, JNull) (λ _, 0) 7 new_client
    (demo_api_config false) "constraint" demo_ord 1000 5000 (demo_post 1000) (demo_post 5000) demo_body
    "hello" demo_api) as (_ & H2 & H3).
  - by repeat split.
  - done.
  - intros d id. apply ids_visited.
  - done.
  - done.
  - by eexists.
  - done.
  - apply demo_joinable.
  - done.
  - done.
  - lia.
  - done.
  - vm_compute. reflexivity.
  - intros _. split; vm_compute; reflexivity.
  - split; [etransitivity; [|symmetry; exact H2]; vm_compute; reflexivity|]. split; [vm_compute; reflexivity|exact H3].
Defined.

Lemma safe_requests_change_nothing_witness :
  (demo_server true 5000 (demo_post 5000) demo_posted).1 = demo_posted
  ∧ rs_status (demo_server true 5000 (demo_post 5000) demo_posted).2 = 403.
Proof.
  destruct (safe_requests_change_nothing (S := Db) (H0 := sqlite_producer "constraint" demo_ord 5000 5000)
    id Some (λ _, None) (λ _ _, JNull) id (λ _, Ok tt) (λ _ _, Ok 0)
    (λ _, JNull) (λ _, JNull) (λ _, JNull) (λ _, JNull) (λ _, JNull) (λ _, 0) 7 new_client
    (demo_api_config true) (demo_post 5000) demo_posted) as (H1 & H2 & _); [by left|].
  split; [exact H1|]. by apply H2.
Defined.

(** The key is held by a live job only: once the first job was cancelled the same request
    creates a second one. *)
Lemma finished_key_is_free :
  let a := (demo_server false 5000
              (mkRequest false (Call.CancelJob (next_id 7 (demo_post 1000) demo_api)) (Some (Some "k2")) None 5000)
              demo_posted).1 in
  size (sq_job (api_store (demo_server false 9000 (demo_post 9000) a).1)) = 2%nat.
Proof. vm_compute. reflexivity. Qed.

(** A pending job does not hold the key: the same request creates a second one. *)
Lemma pending_key_is_free :
  let body := mkEnqueueBody "mail" None "hello" None None None None None None None None None None false [] true ""
                None None None in
  let post now := mkRequest false (Call.Enqueue (Ok body)) (Some (Some "k1")) None now in
  let a := (demo_server false 1000 (post 1000) demo_api).1 in
  size (sq_job (api_store (demo_server false 5000 (post 5000) a).1)) = 2%nat.
Proof. vm_compute. reflexivity. Qed.

(** A header value that is not visible ASCII reads as the empty key: a different request under
    another such value is answered with the first request's job. *)
Lemma opaque_keys_collide :
  let post payload now := mkRequest false
    (Call.Enqueue (Ok (mkEnqueueBody "mail" None payload None None None None None None None None None None
                         false [] false "" None None None))) (Some None) None now in
  let '(a, first) := demo_server false 1000 (post "to alice" 1000) demo_api in
  answered_id (demo_server false 2000 (post "to bob" 2000) a).2 = answered_id first.
Proof. vm_compute. reflexivity. Qed.
