(* ===== verification/SqlText.v ===== *)
(** * headgate-sql: statements for an explicit PostgreSQL schema

    [crates/headgate-sql/src/lib.rs]: the namespace of an installation, identifier quoting, and
    the scanner that puts the schema in front of every headgate object a statement names.  Text
    is a string of bytes; the scanner's cases are all ASCII, so a byte of a longer character
    passes through like the character does. *)

From S2P Require Import Prelude Shared ScheduleSpec.
Local Open Scope Z_scope.

Definition OBJECTS : list string :=
  ["headgate_state"; "headgate_job"; "headgate_rate_bucket"; "headgate_quarantine";
   "headgate_partition_deficit"; "headgate_active_partition"; "headgate_inflight";
   "headgate_concurrency_limit"; "headgate_queue_counter"; "headgate_partition_counter";
   "headgate_queue_state"; "headgate_duty"; "headgate_schedule"; "headgate_schedule_event";
   "headgate_worker"; "headgate_effect"; "headgate_operation"; "headgate_enqueue_policy";
   "headgate_enqueue_counter"; "headgate_job_tag"; "headgate_queue_sample"; "headgate_durable_event_scope";
   "headgate_durable_event"; "headgate_archive_policy"; "headgate_job_archive";
   "headgate_job_archive_before_2025"; "headgate_job_archive_202501"; "headgate_job_archive_202502";
   "headgate_job_archive_202503"; "headgate_job_archive_202504"; "headgate_job_archive_202505";
   "headgate_job_archive_202506"; "headgate_job_archive_202507"; "headgate_job_archive_202508";
   "headgate_job_archive_202509"; "headgate_job_archive_202510"; "headgate_job_archive_202511";
   "headgate_job_archive_202512"; "headgate_job_archive_202601"; "headgate_job_archive_202602";
   "headgate_job_archive_202603"; "headgate_job_archive_202604"; "headgate_job_archive_202605";
   "headgate_job_archive_202606"; "headgate_job_archive_202607"; "headgate_job_archive_202608";
   "headgate_job_archive_202609"; "headgate_job_archive_202610"; "headgate_job_archive_202611";
   "headgate_job_archive_202612"; "headgate_job_archive_202701"; "headgate_job_archive_202702";
   "headgate_job_archive_202703"; "headgate_job_archive_202704"; "headgate_job_archive_202705";
   "headgate_job_archive_202706"; "headgate_job_archive_202707"; "headgate_job_archive_202708";
   "headgate_job_archive_202709"; "headgate_job_archive_202710"; "headgate_job_archive_202711";
   "headgate_job_archive_202712"; "headgate_job_archive_202801"; "headgate_job_archive_202802";
   "headgate_job_archive_202803"; "headgate_job_archive_202804"; "headgate_job_archive_202805";
   "headgate_job_archive_202806"; "headgate_job_archive_202807"; "headgate_job_archive_202808";
   "headgate_job_archive_202809"; "headgate_job_archive_202810"; "headgate_job_archive_202811";
   "headgate_job_archive_202812"; "headgate_job_archive_202901"; "headgate_job_archive_202902";
   "headgate_job_archive_202903"; "headgate_job_archive_202904"; "headgate_job_archive_202905";
   "headgate_job_archive_202906"; "headgate_job_archive_202907"; "headgate_job_archive_202908";
   "headgate_job_archive_202909"; "headgate_job_archive_202910"; "headgate_job_archive_202911";
   "headgate_job_archive_202912"; "headgate_job_archive_203001"; "headgate_job_archive_203002";
   "headgate_job_archive_203003"; "headgate_job_archive_203004"; "headgate_job_archive_203005";
   "headgate_job_archive_203006"; "headgate_job_archive_203007"; "headgate_job_archive_203008";
   "headgate_job_archive_203009"; "headgate_job_archive_203010"; "headgate_job_archive_203011";
   "headgate_job_archive_203012"; "headgate_job_archive_203101"; "headgate_job_archive_203102";
   "headgate_job_archive_203103"; "headgate_job_archive_203104"; "headgate_job_archive_203105";
   "headgate_job_archive_203106"; "headgate_job_archive_203107"; "headgate_job_archive_203108";
   "headgate_job_archive_203109"; "headgate_job_archive_203110"; "headgate_job_archive_203111";
   "headgate_job_archive_203112"; "headgate_job_archive_after_2031"; "headgate_track_enqueue_depth";
   "headgate_schema_migration"].

Definition INDEXES : list string :=
  ["headgate_job_unique"; "headgate_job_unique_throttle"; "headgate_job_sticky_available";
   "headgate_job_avail_sticky"; "headgate_job_archive_queue_time"; "headgate_durable_event_recent"].

(** ** Quoting *)

Definition quote : ascii := "034"%char.

(** Every double quote doubled. *)
Fixpoint double_quotes (s : string) : string :=
  match s with
  | EmptyString => ""
  | String c s => if Ascii.eqb c quote then String c (String c (double_quotes s)) else String c (double_quotes s)
  end.

Definition quote_identifier (value : string) : string :=
  String quote (double_quotes value +:+ str1 quote)%stdpp.

(** ** Namespaces *)

Record PostgresNamespace := mkNamespace { ns_name : option string; ns_quoted : string; ns_wakeup_channel : string }.

Section namespaces.
(** [format!("{:x}", Sha256::digest(..))]. *)
Context (sha256_hex : string → string).

Definition explicit (name : string) : result PostgresNamespace string :=
  if String.eqb name "" then Err "Postgres schema must not be empty"
  else if str_exists (Ascii.eqb zero) name then Err "Postgres schema must not contain NUL"
  else if 63 <? str_len name then Err "Postgres schema must be at most 63 UTF-8 bytes"
  else Ok (mkNamespace (Some name) (quote_identifier name)
             ("headgate_wakeup_" +:+ String.substring 0 16 (sha256_hex name))%stdpp).
End namespaces.

Definition default_namespace : PostgresNamespace := mkNamespace None "" "".

Definition wakeup_channel (ns : PostgresNamespace) : string :=
  match ns_name ns with Some _ => ns_wakeup_channel ns | None => "headgate_wakeup" end.

(** ** The scanner *)

Definition is_ident_start (c : ascii) : bool := Ascii.eqb c "_" || is_ascii_upper c || is_ascii_lower c.
Definition is_ident_continue (c : ascii) : bool := is_ident_start c || is_ascii_digit c || Ascii.eqb c "$".

(** A scan returns what it consumed and what is left. *)
Definition scanned : Type := string * string.
Definition cons1 (c : ascii) (x : scanned) : scanned := (String c x.1, x.2).

Fixpoint span_while (p : ascii → bool) (s : string) : scanned :=
  match s with
  | EmptyString => ("", "")
  | String c s' => if p c then cons1 c (span_while p s') else ("", s)
  end.

Definition newline : ascii := "010"%char.

Fixpoint to_line_end (s : string) : scanned :=
  match s with
  | EmptyString => ("", "")
  | String c s => if Ascii.eqb c newline then (str1 c, s) else cons1 c (to_line_end s)
  end.

(** Nested block comments, after the opening one. *)
Fixpoint block_comment (depth : nat) (s : string) : scanned :=
  match depth with
  | O => ("", s)
  | S outer =>
      match s with
      | EmptyString => ("", "")
      | String a s' =>
          match s' with
          | String b s'' =>
              if Ascii.eqb a "/" && Ascii.eqb b "*" then cons1 a (cons1 b (block_comment (S depth) s''))
              else if Ascii.eqb a "*" && Ascii.eqb b "/" then cons1 a (cons1 b (block_comment outer s''))
              else cons1 a (block_comment depth s')
          | EmptyString => (str1 a, "")
          end
      end
  end.

(** The rest of a quoted text after its opening quote; a doubled quote does not end it, nor,
    where [escapes], a quote after a backslash. *)
Fixpoint quoted (escapes : bool) (q : ascii) (s : string) : scanned :=
  match s with
  | EmptyString => ("", "")
  | String a s' =>
      if escapes && Ascii.eqb a "\" then
        match s' with String b s'' => cons1 a (cons1 b (quoted escapes q s'')) | EmptyString => (str1 a, "") end
      else if Ascii.eqb a q then
        match s' with
        | String b s'' => if Ascii.eqb b q then cons1 a (cons1 b (quoted escapes q s'')) else (str1 a, s')
        | EmptyString => (str1 a, "")
        end
      else cons1 a (quoted escapes q s')
  end.

Definition dollar_delimiter (s : string) : option string :=
  match s with
  | String "$" s =>
      match span_while (λ c, is_ascii_alphanumeric c || Ascii.eqb c "_") s with
      | (tag, String "$" _) => Some (String "$" (tag +:+ "$")%stdpp)
      | _ => None
      end
  | _ => None
  end.

(** Up to and including the first occurrence of [d], or everything. *)
Fixpoint through (d s : string) : scanned :=
  match strip_prefix d s with
  | Some rest => (d, rest)
  | None => match s with EmptyString => ("", "") | String c s => cons1 c (through d s) end
  end.

Module Tok.
Inductive Tok :=
  | Comment (text : string)
  | Literal (text : string)
  | Quoted (text : string)
  | Dollar (text : string)
  | Ident (text : string)
  | Other (c : ascii).
End Tok.

(** One turn of the loop of [qualify_sql] at a text [String c s]: the branch taken and what is
    left. *)
Definition next_token (c : ascii) (s : string) : Tok.Tok * string :=
  let all := String c s in
  match strip_prefix "--" all, strip_prefix "/*" all, dollar_delimiter all with
  | Some _, _, _ => let '(t, rest) := to_line_end all in (Tok.Comment t, rest)
  | _, Some body, _ => let '(t, rest) := block_comment 1 body in (Tok.Comment ("/*" +:+ t)%stdpp, rest)
  | _, _, Some d =>
      let '(t, rest) := through d (default "" (strip_prefix d all)) in (Tok.Dollar (d +:+ t)%stdpp, rest)
  | _, _, None =>
      if Ascii.eqb c "'" then let '(t, rest) := quoted true c s in (Tok.Literal (String c t), rest)
      else if Ascii.eqb c quote then let '(t, rest) := quoted false c s in (Tok.Quoted (String c t), rest)
      else if is_ident_start c then
        let '(t, rest) := span_while is_ident_continue s in (Tok.Ident (String c t), rest)
      else (Tok.Other c, s)
  end.

Definition to_lower (c : ascii) : ascii :=
  if is_ascii_upper c then byte_of (byte_val c + 32) else c.
Fixpoint eq_ignore_case (a b : string) : bool :=
  match a, b with
  | EmptyString, EmptyString => true
  | String c a, String d b => Ascii.eqb (to_lower c) (to_lower d) && eq_ignore_case a b
  | _, _ => false
  end.

Section qualify.
Context (quoted_schema wakeup : string).

(** An identifier that is qualified; the two before it tell whether an index is dropped. *)
Definition qualified_name (previous last token : string) : bool :=
  existsb (String.eqb token) OBJECTS
  || (existsb (String.eqb token) INDEXES && eq_ignore_case previous "DROP" && eq_ignore_case last "INDEX").

(** What a turn of the loop writes. *)
Definition write_token (previous last : string) (t : Tok.Tok) : string :=
  match t with
  | Tok.Comment text | Tok.Quoted text | Tok.Dollar text => text
  | Tok.Literal text =>
      if String.eqb text "'headgate_wakeup'" then ("'" +:+ wakeup +:+ "'")%stdpp else text
  | Tok.Ident text =>
      if qualified_name previous last text then (quoted_schema +:+ "." +:+ text)%stdpp else text
  | Tok.Other c => str1 c
  end.

(** The loop; [None] is a text that [fuel] turns do not exhaust. *)
Fixpoint qualify_loop (fuel : nat) (previous last : string) (s : string) : option string :=
  match s with
  | EmptyString => Some ""
  | String c s =>
      match fuel with
      | O => None
      | S fuel =>
          let '(t, rest) := next_token c s in
          let out := write_token previous last t in
          let '(previous, last) := match t with Tok.Ident text => (last, text) | _ => (previous, last) end in
          more ← qualify_loop fuel previous last rest;
          Some (out +:+ more)%stdpp
      end
  end.

Definition qualify_sql (sql : string) : string := default "" (qualify_loop (String.length sql) "" "" sql).
End qualify.

Definition render (ns : PostgresNamespace) (sql : string) : string :=
  match ns_name ns with
  | None => sql
  | Some _ => qualify_sql (ns_quoted ns) (wakeup_channel ns) sql
  end.

(** [relation_name] of the migrator. *)
Definition relation_name (schema relation : string) : string :=
  (quote_identifier schema +:+ "." +:+ quote_identifier relation)%stdpp.

(** ** The scan loses nothing *)

Lemma cons1_app c x s : (x.1 +:+ x.2)%stdpp = s → ((cons1 c x).1 +:+ (cons1 c x).2)%stdpp = String c s.
Proof. intros <-. done. Qed.

Lemma span_app p s : ((span_while p s).1 +:+ (span_while p s).2)%stdpp = s.
Proof. induction s as [|c s IH]; simpl; [done|]. case_match; [by apply cons1_app|done]. Qed.

Lemma span_all p s : str_forall p (span_while p s).1 = true.
Proof. induction s as [|c s IH]; simpl; [done|]. case_match eqn:E; simpl; [by rewrite E|done]. Qed.

Lemma to_line_end_app s : ((to_line_end s).1 +:+ (to_line_end s).2)%stdpp = s.
Proof. induction s as [|c s IH]; simpl; [done|]. case_match; [done|by apply cons1_app]. Qed.

(** Induction two bytes at a time. *)
Lemma string_ind2 (P : string → Prop) :
  P "" → (∀ a, P (str1 a)) → (∀ a b s, P s → P (String b s) → P (String a (String b s))) → ∀ s, P s.
Proof.
  intros H0 H1 H2 s. enough (P s ∧ ∀ a, P (String a s)) as [H _] by exact H.
  induction s as [|b s [IH1 IH2]]; [by split|]. split; [apply IH2|]. intros a. by apply H2.
Qed.

Lemma block_comment_app s : ∀ depth, ((block_comment depth s).1 +:+ (block_comment depth s).2)%stdpp = s.
Proof.
  induction s as [|a|a b s IH1 IH2] using string_ind2; intros [|d]; try done.
  cbn [block_comment]. case_match; [by apply cons1_app, cons1_app|].
  case_match; [by apply cons1_app, cons1_app|]. apply cons1_app, (IH2 (S d)).
Qed.

Lemma quoted_app e q s : ((quoted e q s).1 +:+ (quoted e q s).2)%stdpp = s.
Proof.
  induction s as [|a|a b s IH1 IH2] using string_ind2; [done|simpl; repeat case_match; done|].
  cbn [quoted]. case_match; [by apply cons1_app, cons1_app|].
  case_match; [|by apply cons1_app]. case_match; [by apply cons1_app, cons1_app|done].
Qed.

Lemma strip_prefix_app d s r : strip_prefix d s = Some r → (d +:+ r)%stdpp = s.
Proof.
  revert s. induction d as [|c d IH]; intros s; simpl; [by intros [= ->]|].
  destruct s as [|c' s]; [done|]. destruct (Ascii.eqb_spec c c') as [->|]; [|done].
  intros H%IH. change (String c' (d +:+ r)%stdpp = String c' s). by rewrite H.
Qed.

Lemma through_app d s : ((through d s).1 +:+ (through d s).2)%stdpp = s.
Proof.
  induction s as [|c s IH]; cbn [through]; destruct (strip_prefix d _) eqn:E;
    try (by apply strip_prefix_app in E); [done|by apply cons1_app].
Qed.

Definition token_text (t : Tok.Tok) : string :=
  match t with
  | Tok.Comment s | Tok.Literal s | Tok.Quoted s | Tok.Dollar s | Tok.Ident s => s
  | Tok.Other c => str1 c
  end.

Definition starts (p : ascii → bool) (s : string) : bool :=
  match s with String c _ => p c | EmptyString => false end.

(** How a token is told from its first bytes; an identifier is as long as it can be. *)
Definition token_ok (t : Tok.Tok) (rest : string) : Prop :=
  match t with
  | Tok.Comment s => is_Some (strip_prefix "--" s) ∨ is_Some (strip_prefix "/*" s)
  | Tok.Literal s => starts (Ascii.eqb "'") s = true
  | Tok.Quoted s => starts (Ascii.eqb quote) s = true
  | Tok.Dollar s => starts (Ascii.eqb "$") s = true
  | Tok.Ident s => starts is_ident_start s = true ∧ str_forall is_ident_continue s = true
                   ∧ starts is_ident_continue rest = false
  | Tok.Other c => is_ident_start c = false ∧ c ≠ "'"%char ∧ c ≠ quote
  end.

Fixpoint tokens_ok (ts : list Tok.Tok) : Prop :=
  match ts with
  | [] => True
  | t :: ts => token_ok t (foldr (λ t s, token_text t +:+ s)%stdpp "" ts) ∧ tokens_ok ts
  end.

Definition tokens_text (ts : list Tok.Tok) : string := foldr (λ t s, token_text t +:+ s)%stdpp "" ts.

Lemma span_stops p s : starts p (span_while p s).2 = false.
Proof. induction s as [|c s IH]; simpl; [done|]. case_match eqn:E; [apply IH|exact E]. Qed.

Lemma dollar_prefix s d : dollar_delimiter s = Some d →
  ∃ r, strip_prefix d s = Some r ∧ ∀ r', starts (Ascii.eqb "$") (d +:+ r')%stdpp = true.
Proof.
  unfold dollar_delimiter. destruct s as [|c s]; [done|]. destruct (Ascii.eqb_spec c "$") as [->|Hc];
    [|by repeat (case_match; try done)].
  destruct (span_while _ s) as [tag r] eqn:E. pose proof (span_app (λ c, is_ascii_alphanumeric c || Ascii.eqb c "_") s) as Ha.
  rewrite E in Ha. simpl in Ha. destruct r as [|b r]; [done|].
  destruct (Ascii.eqb_spec b "$") as [->|Hb]; [|by repeat (case_match; try done)].
  intros [= <-]. exists r. split; [|done]. simpl. rewrite <-Ha. clear.
  induction tag as [|x tag IH]; [done|]. simpl. by rewrite Ascii.eqb_refl.
Qed.

Lemma next_token_spec c s t rest : next_token c s = (t, rest) →
  (token_text t +:+ rest)%stdpp = String c s ∧ token_ok t rest.
Proof.
  unfold next_token. cbv zeta. destruct (strip_prefix "--" (String c s)) as [r|] eqn:E1.
  { apply strip_prefix_app in E1. rewrite <-E1. pose proof (to_line_end_app ("--" +:+ r)%stdpp) as Ha.
    destruct (to_line_end _) as [x y] eqn:E. intros [= <- <-]. split; [exact Ha|]. left.
    change (to_line_end ("--" +:+ r)%stdpp) with (cons1 "-" (cons1 "-" (to_line_end r))) in E.
    injection E as <- _. by eexists. }
  destruct (strip_prefix "/*" (String c s)) as [r|] eqn:E2.
  { apply strip_prefix_app in E2. rewrite <-E2. pose proof (block_comment_app r 1) as Ha.
    destruct (block_comment 1 r) as [x y]. intros [= <- <-]. simpl in Ha. subst r. split; [done|].
    right. by eexists. }
  destruct (dollar_delimiter (String c s)) as [d|] eqn:E3.
  { destruct (dollar_prefix _ _ E3) as (r & Hr & Hs). rewrite Hr. simpl. apply strip_prefix_app in Hr.
    pose proof (through_app d r) as Ha. destruct (through d r) as [x y]. intros [= <- <-].
    simpl in *. split; [rewrite <-Hr, <-Ha; apply str_app_assoc|apply Hs]. }
  destruct (Ascii.eqb_spec c "'") as [->|H1].
  { pose proof (quoted_app true "'" s) as Ha. destruct (quoted true "'" s) as [x y]. intros [= <- <-].
    simpl in *. by rewrite <-Ha. }
  destruct (Ascii.eqb_spec c quote) as [->|H2].
  { pose proof (quoted_app false quote s) as Ha. destruct (quoted false quote s) as [x y]. intros [= <- <-].
    simpl in *. by rewrite <-Ha. }
  destruct (is_ident_start c) eqn:E4; [|by intros [= <- <-]].
  pose proof (span_app is_ident_continue s) as Ha. pose proof (span_all is_ident_continue s) as Hb.
  pose proof (span_stops is_ident_continue s) as Hc. destruct (span_while is_ident_continue s) as [x y].
  intros [= <- <-]. simpl in *. rewrite <-Ha, Hb. unfold is_ident_continue at 1. by rewrite E4.
Qed.

(** Every token takes at least its first byte. *)
Lemma token_nonempty t rest : token_ok t rest → (0 < String.length (token_text t))%nat.
Proof.
  destruct t as [x|x|x|x|x|x]; simpl; try (destruct x; simpl; [|lia]); try lia; try done.
  by intros [[? ?]|[? ?]].
Qed.

Section writing.
Context (quoted_schema wakeup : string).

(** The tokens written one after the other, each identifier with the two before it. *)
Fixpoint write_tokens (previous last : string) (ts : list Tok.Tok) : string :=
  match ts with
  | [] => ""
  | t :: ts =>
      let out := write_token quoted_schema wakeup previous last t in
      match t with
      | Tok.Ident text => (out +:+ write_tokens last text ts)%stdpp
      | _ => (out +:+ write_tokens previous last ts)%stdpp
      end
  end.

Lemma qualify_loop_tokens fuel : ∀ s previous last, (String.length s ≤ fuel)%nat →
  ∃ ts, tokens_text ts = s ∧ tokens_ok ts
        ∧ qualify_loop quoted_schema wakeup fuel previous last s = Some (write_tokens previous last ts).
Proof.
  induction fuel as [|fuel IH]; intros [|c s] previous last Hl; simpl in Hl; try lia;
    try (by exists []). cbn [qualify_loop].
  destruct (next_token c s) as [t rest] eqn:E. destruct (next_token_spec _ _ _ _ E) as [Ht Hok].
  pose proof (token_nonempty _ _ Hok) as Hn.
  assert (String.length rest ≤ fuel)%nat as Hr.
  { apply (f_equal String.length) in Ht. rewrite str_length_app in Ht. simpl in Ht. lia. }
  destruct t as [x|x|x|x|x|x];
    [edestruct (IH rest previous last) as (ts & Hx & Hts & ->)
    |edestruct (IH rest previous last) as (ts & Hx & Hts & ->)
    |edestruct (IH rest previous last) as (ts & Hx & Hts & ->)
    |edestruct (IH rest previous last) as (ts & Hx & Hts & ->)
    |edestruct (IH rest last x) as (ts & Hx & Hts & ->)
    |edestruct (IH rest previous last) as (ts & Hx & Hts & ->)]; try lia; subst rest;
    (eexists (_ :: ts); split; [exact Ht|split; [split; [exact Hok|exact Hts]|done]]).
Qed.

(** Rendering a statement for an explicit schema ends, and changes nothing but names: the
    statement is a sequence of comments, string literals, quoted identifiers, dollar-quoted
    bodies, identifiers and other bytes, in full; comments, quoted text and other bytes are
    copied, an identifier is copied or gets the quoted schema and a dot in front - exactly when
    it is a headgate object, or an index right after DROP INDEX - and the only literal replaced
    is the wakeup channel. *)
Theorem qualify_changes_only_names sql :
  ∃ ts, tokens_text ts = sql ∧ tokens_ok ts
        ∧ qualify_sql quoted_schema wakeup sql = write_tokens "" "" ts.
Proof.
  destruct (qualify_loop_tokens (String.length sql) sql "" "") as (ts & H1 & H2 & H3); [done|].
  exists ts. split; [done|]. split; [done|]. unfold qualify_sql. by rewrite H3.
Qed.
End writing.

(** ** Quoted identifiers *)

(** PostgreSQL's reading of a quoted identifier: a doubled quote is a quote, a single one ends
    it. *)
Fixpoint unquote_body (s : string) : option (string * string) :=
  match s with
  | EmptyString => None
  | String a s' =>
      if Ascii.eqb a quote then
        match s' with
        | String b s'' =>
            if Ascii.eqb b quote then '(t, rest) ← unquote_body s''; Some (String quote t, rest)
            else Some ("", s')
        | EmptyString => Some ("", "")
        end
      else '(t, rest) ← unquote_body s'; Some (String a t, rest)
  end.

Definition unquote (s : string) : option (string * string) :=
  match s with String a s => if Ascii.eqb a quote then unquote_body s else None | EmptyString => None end.

Lemma unquote_quote name rest : starts (Ascii.eqb quote) rest = false →
  unquote (quote_identifier name +:+ rest)%stdpp = Some (name, rest).
Proof.
  intros Hr. unfold unquote, quote_identifier.
  change (unquote_body ((double_quotes name +:+ str1 quote) +:+ rest)%stdpp = Some (name, rest)).
  rewrite str_app_assoc. induction name as [|c name IH].
  - change (double_quotes "" +:+ str1 quote +:+ rest)%stdpp with (String quote rest). cbn [unquote_body].
    rewrite Ascii.eqb_refl. destruct rest as [|b rest]; [done|]. cbn [starts] in Hr.
    by rewrite Ascii.eqb_sym, Hr.
  - cbn [double_quotes]. destruct (Ascii.eqb_spec c quote) as [->|Hc]; rewrite !str_app_cons; cbn [unquote_body].
    + rewrite !Ascii.eqb_refl. by rewrite IH.
    + rewrite (proj2 (Ascii.eqb_neq _ _) Hc). by rewrite IH.
Qed.

(** A schema name is never confused with another: for every accepted name, the relation the
    migrator asks for, [schema.relation] with both parts quoted, reads back as exactly that
    schema and that relation, so two installations never name the same table; names that are
    empty, hold a NUL or could be truncated are refused. *)
Theorem relations_read_back sha256_hex schema relation :
  (∃ ns, explicit sha256_hex schema = Ok ns ∧ ns_name ns = Some schema ∧ ns_quoted ns = quote_identifier schema
         ∧ unquote (relation_name schema relation) = Some (schema, String "." (quote_identifier relation))
         ∧ unquote (quote_identifier relation) = Some (relation, ""))
  ∨ (∃ e, explicit sha256_hex schema = Err e)
    ∧ (schema = "" ∨ str_exists (Ascii.eqb zero) schema = true ∨ 63 < str_len schema).
Proof.
  unfold explicit. destruct (String.eqb_spec schema "") as [->|Hne]; [right; eauto|].
  destruct (str_exists (Ascii.eqb zero) schema) eqn:E; [right; eauto|].
  destruct (Z.ltb_spec 63 (str_len schema)); [right; eauto 6|]. left. eexists. split; [done|].
  split; [done|]. split; [done|]. split; [by apply unquote_quote|].
  rewrite <-(str_app_nil_r (quote_identifier relation)). by apply unquote_quote.
Qed.

Example qualified_drop :
  qualify_sql (quote_identifier "t") "w" "DROP INDEX headgate_job_unique; SELECT 'headgate_job' FROM headgate_job -- headgate_job"
  = (String "D" "ROP INDEX " +:+ quote_identifier "t" +:+ ".headgate_job_unique; SELECT 'headgate_job' FROM "
     +:+ quote_identifier "t" +:+ ".headgate_job -- headgate_job")%stdpp.
Proof. vm_compute. reflexivity. Qed.
