(* ===== verification/Migrate.v ===== *)
(** * headgate-migrate: versions and plans

    [crates/headgate-migrate/src/lib.rs] and [schema.rs]: the embedded migrations of the two SQL
    backends, the validation of a history, the plan of a migration, and the manifest of the
    current schema.  The SQL files are assets, read by [asset]; SHA-256 and the debug rendering
    of a string are parameters. *)

From S2P Require Import Prelude Shared.
Local Open Scope Z_scope.

Module Backend.
Inductive Backend := Postgres | Mysql.
End Backend.

Module Direction.
Inductive Direction := Up | Down.
End Direction.

Record Migration := mkMigration {
  mg_version : Z;
  mg_name : string;
  up_sql : string;
  down_sql : string;
  online_safe : bool;
}.

Record AppliedMigration := mkApplied {
  am_version : Z;
  am_name : string;
  am_checksum : string;
  am_applied_at_ms : Z;
}.

Record MigrateOptions := mkMigrateOptions {
  target_version : option Z;
  max_steps : option Z;
  dry_run : bool;
}.
Definition default_migrate_options : MigrateOptions := mkMigrateOptions None None false.

Record MigrationStep := mkStep { ms_direction : Direction.Direction; ms_migration : Migration }.
Record MigrateResult := mkMigrateResult { mr_dry_run : bool; mr_steps : list MigrationStep }.

Module InstallationState.
Inductive InstallationState := Empty | Unversioned | Versioned.
End InstallationState.

Module MigrationError.
Inductive MigrationError :=
  | Invalid (message : string)
  | UnversionedSchema
  | History (message : string)
  | Schema (messages : list string)
  | Postgres (error : string)
  | Mysql (error : string).
End MigrationError.

(** [Display]. *)
Definition error_text (e : MigrationError.MigrationError) : string :=
  match e with
  | MigrationError.Invalid m => ("invalid migration request: " +:+ m)%stdpp
  | MigrationError.UnversionedSchema =>
      "headgate tables exist without migration history; validate and adopt the current schema before migrating"
  | MigrationError.History m => ("invalid migration history: " +:+ m)%stdpp
  | MigrationError.Schema ms => ("schema validation failed: " +:+ String.concat "; " ms)%stdpp
  | MigrationError.Postgres m => ("postgres migration failed: " +:+ m)%stdpp
  | MigrationError.Mysql m => ("mysql migration failed: " +:+ m)%stdpp
  end.

(** ** The embedded migrations *)

Section migrations.
Context (asset : string → string) (sha256_hex debug : string → string).

Definition POSTGRES_MIGRATIONS : list Migration :=
  [mkMigration 1 "initial_schema" (asset "postgres/0001_init.up.sql") (asset "postgres/0001_init.down.sql") false;
   mkMigration 2 "enqueue_backpressure" (asset "postgres/0002_enqueue_backpressure.up.sql") (asset "postgres/0002_enqueue_backpressure.down.sql") false;
   mkMigration 3 "job_results" (asset "postgres/0003_job_results.up.sql") (asset "postgres/0003_job_results.down.sql") true;
   mkMigration 4 "mid_run_output" (asset "postgres/0004_mid_run_output.up.sql") (asset "postgres/0004_mid_run_output.down.sql") true;
   mkMigration 5 "job_progress" (asset "postgres/0005_job_progress.up.sql") (asset "postgres/0005_job_progress.down.sql") true;
   mkMigration 6 "periodic_origin" (asset "postgres/0006_periodic_origin.up.sql") (asset "postgres/0006_periodic_origin.down.sql") true;
   mkMigration 7 "scheduler_events" (asset "postgres/0007_scheduler_events.up.sql") (asset "postgres/0007_scheduler_events.down.sql") true;
   mkMigration 8 "pending_state" (asset "postgres/0008_pending_tags_metrics.up.sql") (asset "postgres/0008_pending_tags_metrics.down.sql") false;
   mkMigration 9 "pending_tags_metrics" (asset "postgres/0009_pending_tags_metrics.up.sql") (asset "postgres/0009_pending_tags_metrics.down.sql") false;
   mkMigration 10 "sticky_routing" (asset "postgres/0010_sticky_routing.up.sql") (asset "postgres/0010_sticky_routing.down.sql") false;
   mkMigration 11 "partitioned_archive" (asset "postgres/0011_partitioned_archive.up.sql") (asset "postgres/0011_partitioned_archive.down.sql") true;
   mkMigration 12 "worker_control_state" (asset "postgres/0012_worker_control_state.up.sql") (asset "postgres/0012_worker_control_state.down.sql") true;
   mkMigration 13 "durable_events" (asset "postgres/0013_durable_events.up.sql") (asset "postgres/0013_durable_events.down.sql") true].

Definition MYSQL_MIGRATIONS : list Migration :=
  [mkMigration 1 "initial_schema" (asset "mysql/0001_init.up.sql") (asset "mysql/0001_init.down.sql") false;
   mkMigration 2 "enqueue_backpressure" (asset "mysql/0002_enqueue_backpressure.up.sql") (asset "mysql/0002_enqueue_backpressure.down.sql") false;
   mkMigration 3 "job_results" (asset "mysql/0003_job_results.up.sql") (asset "mysql/0003_job_results.down.sql") true;
   mkMigration 4 "mid_run_output" (asset "mysql/0004_mid_run_output.up.sql") (asset "mysql/0004_mid_run_output.down.sql") true;
   mkMigration 5 "job_progress" (asset "mysql/0005_job_progress.up.sql") (asset "mysql/0005_job_progress.down.sql") true;
   mkMigration 6 "periodic_origin" (asset "mysql/0006_periodic_origin.up.sql") (asset "mysql/0006_periodic_origin.down.sql") true;
   mkMigration 7 "scheduler_events" (asset "mysql/0007_scheduler_events.up.sql") (asset "mysql/0007_scheduler_events.down.sql") true;
   mkMigration 8 "pending_state_barrier" (asset "mysql/0008_pending_tags_metrics.up.sql") (asset "mysql/0008_pending_tags_metrics.down.sql") false;
   mkMigration 9 "pending_tags_metrics" (asset "mysql/0009_pending_tags_metrics.up.sql") (asset "mysql/0009_pending_tags_metrics.down.sql") false;
   mkMigration 10 "sticky_routing" (asset "mysql/0010_sticky_routing.up.sql") (asset "mysql/0010_sticky_routing.down.sql") false;
   mkMigration 11 "partitioned_archive" (asset "mysql/0011_partitioned_archive.up.sql") (asset "mysql/0011_partitioned_archive.down.sql") false;
   mkMigration 12 "worker_control_state" (asset "mysql/0012_worker_control_state.up.sql") (asset "mysql/0012_worker_control_state.down.sql") false;
   mkMigration 13 "durable_events" (asset "mysql/0013_durable_events.up.sql") (asset "mysql/0013_durable_events.down.sql") true].

Definition migrations (backend : Backend.Backend) : list Migration :=
  match backend with Backend.Postgres => POSTGRES_MIGRATIONS | Backend.Mysql => MYSQL_MIGRATIONS end.

Definition migration (backend : Backend.Backend) (version : Z) : option Migration :=
  List.find (λ m, mg_version m =? version) (migrations backend).

Definition latest_version (backend : Backend.Backend) : Z :=
  match last (migrations backend) with Some m => mg_version m | None => 0 end.

Definition checksum (m : Migration) : string := sha256_hex (up_sql m).

(** ** Histories and plans *)

(** The turn of [validate_history] for the row at [index]. *)
Definition check_row (backend : Backend.Backend) (index : nat) (row : AppliedMigration)
    : result unit MigrationError.MigrationError :=
  let expected := wrap_u32 (Z.of_nat index + 1) in
  if negb (am_version row =? expected) then
    Err (MigrationError.History ("versions must be contiguous from 1; found " +:+ pretty (am_version row)
           +:+ " where " +:+ pretty expected +:+ " was expected")%stdpp)
  else match migration backend (am_version row) with
  | None => Err (MigrationError.History ("database has unknown future version " +:+ pretty (am_version row))%stdpp)
  | Some m =>
      if negb (String.eqb (am_name row) (mg_name m)) then
        Err (MigrationError.History ("version " +:+ pretty (am_version row) +:+ " is named "
               +:+ debug (am_name row) +:+ ", expected " +:+ debug (mg_name m))%stdpp)
      else if negb (String.eqb (am_checksum row) (checksum m)) then
        Err (MigrationError.History ("version " +:+ pretty (am_version row) +:+ " checksum is "
               +:+ am_checksum row +:+ ", expected " +:+ checksum m)%stdpp)
      else Ok tt
  end.

Fixpoint check_rows (backend : Backend.Backend) (index : nat) (applied : list AppliedMigration)
    : result unit MigrationError.MigrationError :=
  match applied with
  | [] => Ok tt
  | row :: applied => let? _ := check_row backend index row in check_rows backend (S index) applied
  end.

Definition validate_history (backend : Backend.Backend) (applied : list AppliedMigration)
    : result unit MigrationError.MigrationError := check_rows backend 0 applied.

Definition current_version (applied : list AppliedMigration) : Z :=
  match last applied with Some m => am_version m | None => 0 end.

Definition plan (backend : Backend.Backend) (applied : list AppliedMigration)
    (direction : Direction.Direction) (options : MigrateOptions)
    : result (list MigrationStep) MigrationError.MigrationError :=
  let? _ := validate_history backend applied in
  let all := migrations backend in
  let current := current_version applied in
  let latest := latest_version backend in
  let target := default (match direction with Direction.Up => latest | Direction.Down => 0 end)
                  (target_version options) in
  if latest <? target then
    Err (MigrationError.Invalid ("target version " +:+ pretty target
           +:+ " is newer than embedded latest version " +:+ pretty latest)%stdpp)
  else
    let bounded l := match max_steps options with Some n => take (Z.to_nat n) l | None => l end in
    match direction with
    | Direction.Up =>
        if target <? current then
          Err (MigrationError.Invalid ("target version " +:+ pretty target +:+ " is below current version "
                 +:+ pretty current +:+ "; use down")%stdpp)
        else Ok (bounded (mkStep direction <$>
                   List.filter (λ m, (current <? mg_version m) && (mg_version m <=? target)) all))
    | Direction.Down =>
        if current <? target then
          Err (MigrationError.Invalid ("target version " +:+ pretty target +:+ " is above current version "
                 +:+ pretty current +:+ "; use up")%stdpp)
        else Ok (bounded (mkStep direction <$>
                   List.filter (λ m, (target <? mg_version m) && (mg_version m <=? current)) (reverse all)))
    end.
End migrations.

(** ** The manifest *)

Definition TABLES : list string :=
  ["headgate_job"; "headgate_rate_bucket"; "headgate_quarantine"; "headgate_partition_deficit";
   "headgate_active_partition"; "headgate_inflight"; "headgate_concurrency_limit";
   "headgate_queue_counter"; "headgate_partition_counter"; "headgate_queue_state";
   "headgate_enqueue_policy"; "headgate_enqueue_counter"; "headgate_duty"; "headgate_schedule";
   "headgate_schedule_event"; "headgate_durable_event_scope"; "headgate_durable_event"; "headgate_worker";
   "headgate_effect"; "headgate_operation"; "headgate_job_tag"; "headgate_queue_sample";
   "headgate_archive_policy"; "headgate_job_archive"].

Definition columns_of (l : list (string * list string)) : list (string * string) :=
  flat_map (λ '(t, cs), (λ c, (t, c)) <$> cs) l.

Definition POSTGRES_COLUMNS : list (string * string) := columns_of
  [("headgate_job",
     ["id"; "ulid"; "kind"; "schema_version"; "payload"; "queue"; "state"; "partition_key"; "rate_class";
      "weight"; "rate_charge"; "fingerprint"; "priority"; "attempt"; "crash_attempt"; "max_attempts";
      "enqueued_at_ms"; "scheduled_at_ms"; "timeout_ms"; "deadline_ms"; "retention_ms";
      "finalized_at_ms"; "lease_id"; "lease_expires_at_ms"; "claimed_at_ms"; "fence"; "claimed_by";
      "unique_key"; "unique_states"; "unique_expires_at_ms"; "headers"; "errors"; "checkpoint";
      "cp_cursor"; "result_schema_version"; "result_bytes"; "output_schema_version"; "output_bytes";
      "output_fence"; "output_updated_at_ms"; "progress_current"; "progress_total"; "progress_message";
      "progress_fence"; "progress_updated_at_ms"; "periodic_schedule_id"; "periodic_tick_ms";
      "sticky_worker"]);
   ("headgate_rate_bucket",
     ["name"; "tokens"; "burst"; "limit_per_window"; "window_ms"; "refilled_at_ms"]);
   ("headgate_quarantine",
     ["fingerprint"; "kind"; "crash_count"; "quarantined_at_ms"; "sample_payload"; "reason"]);
   ("headgate_partition_deficit",
     ["queue"; "partition_key"; "deficit"; "updated_at_ms"]);
   ("headgate_active_partition",
     ["queue"; "partition_key"]);
   ("headgate_inflight",
     ["queue"; "partition_key"; "n"; "reconciled_at_ms"]);
   ("headgate_concurrency_limit",
     ["name"; "queue"; "max_concurrent"; "on_saturated"]);
   ("headgate_queue_counter",
     ["queue"; "bucket_ms"; "arrived"; "completed"]);
   ("headgate_partition_counter",
     ["queue"; "partition_key"; "bucket_ms"; "arrived"; "completed"]);
   ("headgate_queue_state",
     ["queue"; "paused"; "weight"; "dispatch_count"]);
   ("headgate_enqueue_policy",
     ["queue"; "max_unfinished_jobs"]);
   ("headgate_enqueue_counter",
     ["queue"; "counter_kind"; "n"]);
   ("headgate_duty",
     ["name"; "holder"; "expires_at_ms"]);
   ("headgate_schedule",
     ["id"; "kind"; "payload"; "queue"; "partition_key"; "rate_class"; "priority"; "max_attempts";
      "retention_ms"; "spec"; "next_run_ms"; "last_enqueued_ms"; "on_missed"; "backfill_limit"; "paused";
      "updated_at_ms"]);
   ("headgate_schedule_event",
     ["id"; "schedule_id"; "tick_ms"; "job_id"; "outcome"; "reason"; "recorded_at_ms"]);
   ("headgate_durable_event_scope",
     ["scope"]);
   ("headgate_durable_event",
     ["id"; "scope"; "topic"; "idempotency_key"; "payload"; "source"; "recorded_at_ms"]);
   ("headgate_worker",
     ["worker_id"; "host"; "pid"; "queues"; "concurrency"; "started_at_ms"; "heartbeat_at_ms"; "command";
      "inflight"; "polls"; "empty_polls"; "status"; "duties_active"]);
   ("headgate_effect",
     ["key"; "at_ms"]);
   ("headgate_operation",
     ["id"; "action"; "selector"; "status"; "affected"; "total_estimated"; "dry_run"; "error";
      "created_at_ms"]);
   ("headgate_job_tag",
     ["job_id"; "tag"]);
   ("headgate_queue_sample",
     ["queue"; "memory_bytes"; "sampled_jobs"; "sampled_at_ms"]);
   ("headgate_archive_policy",
     ["queue"; "archive_retention_ms"]);
   ("headgate_job_archive",
     ["evicted_at_ms"; "finalized_at_ms"; "ulid"; "kind"; "queue"; "state"; "fingerprint"; "attempt";
      "crash_attempt"; "payload"; "errors"; "archive_retention_ms"])].

Definition MYSQL_COLUMNS : list (string * string) := columns_of
  [("headgate_job",
     ["id"; "ulid"; "kind"; "schema_version"; "payload"; "queue"; "state"; "partition_key"; "rate_class";
      "weight"; "rate_charge"; "fingerprint"; "priority"; "attempt"; "crash_attempt"; "max_attempts";
      "enqueued_at_ms"; "scheduled_at_ms"; "timeout_ms"; "deadline_ms"; "retention_ms";
      "finalized_at_ms"; "lease_id"; "lease_expires_at_ms"; "claimed_at_ms"; "fence"; "claimed_by";
      "unique_key"; "unique_states"; "unique_window_ms"; "unique_expires_at_ms"; "unique_active";
      "unique_throttle"; "headers"; "errors"; "checkpoint"; "cp_cursor"; "result_schema_version";
      "result_bytes"; "output_schema_version"; "output_bytes"; "output_fence"; "output_updated_at_ms";
      "progress_current"; "progress_total"; "progress_message"; "progress_fence";
      "progress_updated_at_ms"; "periodic_schedule_id"; "periodic_tick_ms"; "sticky_worker"]);
   ("headgate_rate_bucket",
     ["name"; "tokens"; "burst"; "limit_per_window"; "window_ms"; "refilled_at_ms"]);
   ("headgate_quarantine",
     ["fingerprint"; "kind"; "crash_count"; "quarantined_at_ms"; "sample_payload"; "reason"]);
   ("headgate_partition_deficit",
     ["queue"; "partition_key"; "deficit"; "updated_at_ms"]);
   ("headgate_active_partition",
     ["queue"; "partition_key"]);
   ("headgate_inflight",
     ["queue"; "partition_key"; "n"; "reconciled_at_ms"]);
   ("headgate_concurrency_limit",
     ["name"; "queue"; "max_concurrent"; "on_saturated"]);
   ("headgate_queue_counter",
     ["queue"; "bucket_ms"; "arrived"; "completed"]);
   ("headgate_partition_counter",
     ["queue"; "partition_key"; "bucket_ms"; "arrived"; "completed"]);
   ("headgate_queue_state",
     ["queue"; "paused"; "weight"; "dispatch_count"]);
   ("headgate_enqueue_policy",
     ["queue"; "max_unfinished_jobs"]);
   ("headgate_enqueue_counter",
     ["queue"; "counter_kind"; "n"]);
   ("headgate_duty",
     ["name"; "holder"; "expires_at_ms"]);
   ("headgate_schedule",
     ["id"; "kind"; "payload"; "queue"; "partition_key"; "rate_class"; "priority"; "max_attempts";
      "retention_ms"; "spec"; "next_run_ms"; "last_enqueued_ms"; "on_missed"; "backfill_limit"; "paused";
      "updated_at_ms"]);
   ("headgate_schedule_event",
     ["id"; "schedule_id"; "tick_ms"; "job_id"; "outcome"; "reason"; "recorded_at_ms"]);
   ("headgate_durable_event_scope",
     ["scope"]);
   ("headgate_durable_event",
     ["id"; "scope"; "topic"; "idempotency_key"; "payload"; "source"; "recorded_at_ms"]);
   ("headgate_worker",
     ["worker_id"; "host"; "pid"; "queues"; "concurrency"; "started_at_ms"; "heartbeat_at_ms"; "command";
      "inflight"; "polls"; "empty_polls"]);
   ("headgate_effect",
     ["effect_key"; "job_ulid"; "claimed_at_ms"]);
   ("headgate_operation",
     ["id"; "action"; "selector"; "status"; "affected"; "total_estimated"; "dry_run"; "error";
      "created_at_ms"]);
   ("headgate_job_tag",
     ["job_id"; "tag"]);
   ("headgate_queue_sample",
     ["queue"; "memory_bytes"; "sampled_jobs"; "sampled_at_ms"]);
   ("headgate_archive_policy",
     ["queue"; "archive_retention_ms"]);
   ("headgate_job_archive",
     ["evicted_at_ms"; "finalized_at_ms"; "ulid"; "kind"; "queue"; "state"; "fingerprint"; "attempt";
      "crash_attempt"; "payload"; "errors"; "archive_retention_ms"])].

Definition POSTGRES_INDEXES : list string :=
  ["headgate_job_admit"; "headgate_job_lease"; "headgate_job_running_partition";
   "headgate_job_running_oldest"; "headgate_job_avail_partition"; "headgate_job_avail_sticky";
   "headgate_job_sticky_available"; "headgate_job_oldest_available";
   "headgate_job_oldest_available_partition"; "headgate_job_live_partition_metric";
   "headgate_job_fp_waiting"; "headgate_job_retention"; "headgate_job_unique";
   "headgate_job_unique_throttle"; "headgate_job_tag_lookup"; "headgate_inflight_stale";
   "headgate_partition_counter_recent"; "headgate_schedule_due"; "headgate_schedule_event_recent";
   "headgate_durable_event_recent"; "headgate_job_archive_queue_time"].

Definition MYSQL_INDEXES : list string :=
  ["headgate_job_ulid"; "headgate_job_unique"; "headgate_job_unique_throttle"; "headgate_job_tag_lookup";
   "headgate_job_admit"; "headgate_job_avail_partition"; "headgate_job_avail_sticky";
   "headgate_job_oldest_available"; "headgate_job_oldest_available_partition"; "headgate_job_lease";
   "headgate_job_running_oldest"; "headgate_job_fp"; "headgate_job_retention"; "headgate_inflight_stale";
   "headgate_concurrency_limit_queue"; "headgate_partition_counter_recent"; "headgate_schedule_due";
   "headgate_schedule_event_recent"; "headgate_durable_event_recent"; "headgate_job_archive_queue_time"].

Definition POSTGRES_TRIGGERS : list string :=
  ["headgate_enqueue_depth_insert"; "headgate_enqueue_depth_update"; "headgate_enqueue_depth_delete"].

Definition MYSQL_TRIGGERS : list string :=
  ["headgate_enqueue_depth_insert"; "headgate_enqueue_depth_update_exit";
   "headgate_enqueue_depth_update_enter"; "headgate_enqueue_depth_delete"].

Definition STATES : list string :=
  ["pending"; "scheduled"; "available"; "running"; "retryable"; "completed"; "archived"; "cancelled";
   "quarantined"; "undecodable"].

(** ** Plans are exact *)

Section plans.
Context (asset : string → string) (sha256_hex debug : string → string).
Abbreviation migrations := (migrations asset).
Abbreviation validate_history := (validate_history asset sha256_hex debug).
Abbreviation plan := (plan asset sha256_hex debug).

Lemma migrations_length b : length (migrations b) = 13%nat.
Proof. by destruct b. Qed.

Lemma latest_is_13 b : latest_version asset b = 13.
Proof. by destruct b. Qed.

(** The embedded versions count from 1. *)
Lemma versions_count b i m : migrations b !! i = Some m → mg_version m = Z.of_nat i + 1.
Proof.
  intros Hm. assert (i < 13)%nat as Hi by (rewrite <-(migrations_length b); by apply lookup_lt_Some in Hm).
  destruct b; do 13 (destruct i as [|i]; [by injection Hm as <-|]); lia.
Qed.

Lemma migration_at b i m : migrations b !! i = Some m → migration asset b (Z.of_nat i + 1) = Some m.
Proof.
  intros Hm. assert (i < 13)%nat as Hi by (rewrite <-(migrations_length b); by apply lookup_lt_Some in Hm).
  destruct b; do 13 (destruct i as [|i]; [exact Hm|]); lia.
Qed.

Lemma migration_version b v m : migration asset b v = Some m → ∃ i, migrations b !! i = Some m ∧ v = Z.of_nat i + 1.
Proof.
  intros Hf. apply List.find_some in Hf as [Hin Hv%Z.eqb_eq].
  apply list_elem_of_In, list_elem_of_lookup in Hin as [i Hi]. exists i. split; [done|].
  rewrite <-Hv. by apply (versions_count b).
Qed.

(** The row a version leaves in the history. *)
Definition row_of (m : Migration) (at_ms : Z) : AppliedMigration :=
  mkApplied (mg_version m) (mg_name m) (checksum sha256_hex m) at_ms.

(** A history: the rows of the first versions, in order. *)
Definition is_history (b : Backend.Backend) (applied : list AppliedMigration) : Prop :=
  ∃ times, (length times ≤ 13)%nat ∧ applied = zip_with row_of (take (length times) (migrations b)) times.

Lemma check_row_ok b i row : (i ≤ 13)%nat →
  check_row asset sha256_hex debug b i row = Ok tt
  ↔ ∃ m, migrations b !! i = Some m ∧ row = row_of m (am_applied_at_ms row).
Proof.
  intros Hi. unfold check_row, wrap_u32. rewrite (Z.mod_small (Z.of_nat i + 1) (2 ^ 32)) by lia.
  destruct row as [v name sum at_ms]; simpl. destruct (Z.eqb_spec v (Z.of_nat i + 1)) as [->|Hv]; simpl.
  - destruct (migration asset b (Z.of_nat i + 1)) as [m|] eqn:Em.
    + apply migration_version in Em as Ei. destruct Ei as (j & Hj & Eij). assert (i = j) as <- by lia.
      destruct (String.eqb_spec name (mg_name m)) as [->|Hn]; simpl;
        [destruct (String.eqb_spec sum (checksum sha256_hex m)) as [->|Hs]; simpl|].
      * split; [|done]. intros _. exists m. split; [done|]. unfold row_of. by rewrite (versions_count _ _ _ Hj).
      * split; [done|]. intros (m' & Hm' & [= ]). congruence.
      * split; [done|]. intros (m' & Hm' & [= ]). congruence.
    + split; [done|]. intros (m & Hm & _). apply migration_at in Hm. congruence.
  - split; [done|]. intros (m & Hm & [= -> _ _]). by rewrite (versions_count _ _ _ Hm) in Hv.
Qed.

Lemma check_rows_ok b applied : ∀ i, (i ≤ 13)%nat →
  check_rows asset sha256_hex debug b i applied = Ok tt
  ↔ (i + length applied ≤ 13)%nat
    ∧ ∀ k row, applied !! k = Some row →
        ∃ m, migrations b !! (i + k)%nat = Some m ∧ row = row_of m (am_applied_at_ms row).
Proof.
  induction applied as [|row applied IH]; intros i Hi; cbn [check_rows].
  { split; [|done]. intros _. split; [simpl; lia|by intros ? ?]. }
  pose proof (check_row_ok b i row ltac:(lia)) as Hc.
  destruct (check_row asset sha256_hex debug b i row) as [[]|e].
  - destruct (proj1 Hc eq_refl) as (m & Hm & Hr). pose proof (lookup_lt_Some _ _ _ Hm) as Hl.
    rewrite migrations_length in Hl. rewrite IH by lia. simpl. split.
    + intros [H1 H2]. split; [lia|]. intros [|k] row' Hk; simpl in Hk.
      * injection Hk as <-. rewrite Nat.add_0_r. eauto.
      * replace (i + S k)%nat with (S i + k)%nat by lia. by apply H2.
    + intros [H1 H2]. split; [lia|]. intros k row' Hk. replace (S (i + k)) with (i + S k)%nat by lia. by apply H2.
  - split; [done|]. intros [_ H2]. destruct (H2 0%nat row eq_refl) as (m & Hm & Hr).
    rewrite Nat.add_0_r in Hm. discriminate (proj2 Hc (ex_intro _ m (conj Hm Hr))).
Qed.

(** [validate_history] accepts exactly the histories. *)
Lemma validate_history_exact b applied : validate_history b applied = Ok tt ↔ is_history b applied.
Proof.
  unfold Migrate.validate_history. rewrite check_rows_ok by lia. split.
  - intros [Hl Hr]. exists (am_applied_at_ms <$> applied). rewrite length_fmap. split; [lia|].
    apply list_eq. intros i. rewrite lookup_zip_with, list_lookup_fmap.
    destruct (applied !! i) as [row|] eqn:E; simpl.
    + destruct (Hr i row E) as (m & Hm & ->). simpl in Hm. apply lookup_lt_Some in E.
      rewrite lookup_take_lt by done. by rewrite Hm.
    + destruct (take _ _ !! i); done.
  - intros (times & Hl & ->). rewrite length_zip_with, length_take, migrations_length. split; [lia|].
    intros k row. rewrite lookup_zip_with. simpl.
    destruct (take _ _ !! k) as [m|] eqn:Em; [|done]. destruct (times !! k) as [t|]; [|done]. intros [= <-].
    apply lookup_take_Some in Em as [Em _]. exists m. by split.
Qed.

Lemma history_version b applied : is_history b applied → current_version applied = Z.of_nat (length applied).
Proof.
  intros (times & Hl & ->). unfold current_version. rewrite last_lookup, lookup_zip_with.
  rewrite length_zip_with, length_take, migrations_length. replace (_ `min` _)%nat with (length times) by lia.
  destruct (length times) as [|n] eqn:En; [by destruct times|]. simpl Nat.pred. rewrite lookup_take_lt by lia.
  destruct (lookup_lt_is_Some_2 (migrations b) n) as [m Hm]; [rewrite migrations_length; lia|].
  destruct (lookup_lt_is_Some_2 times n) as [t Ht]; [lia|]. rewrite Hm, Ht. simpl.
  rewrite (versions_count _ _ _ Hm). lia.
Qed.

Lemma filter_none {A} (p : A → bool) l :
  (∀ x i, l !! i = Some x → p x = false) → List.filter p l = [].
Proof.
  induction l as [|x l IH]; intros H; [done|]. simpl. rewrite (H x 0%nat eq_refl). apply IH.
  intros y i Hi. by apply (H y (S i)).
Qed.

(** A range of versions is a segment of the table. *)
Lemma versions_between base lo hi l :
  (∀ i m, l !! i = Some m → mg_version m = base + Z.of_nat i + 1) → base ≤ lo →
  List.filter (λ m, (lo <? mg_version m) && (mg_version m <=? hi)) l
  = take (Z.to_nat (hi - lo)) (drop (Z.to_nat (lo - base)) l).
Proof.
  revert base lo. induction l as [|m l IH]; intros base lo Hv Hlo; [by rewrite drop_nil, take_nil|].
  pose proof (Hv 0%nat m eq_refl) as Hm. simpl. rewrite Hm.
  assert (∀ i m', l !! i = Some m' → mg_version m' = base + 1 + Z.of_nat i + 1) as Hv'.
  { intros i m' Hi. rewrite (Hv (S i) m' Hi). lia. }
  destruct (Z.ltb_spec lo (base + Z.of_nat 0 + 1)) as [Hl|Hl].
  - assert (lo = base) as -> by lia. replace (base - base) with 0 by lia. simpl drop.
    destruct (Z.leb_spec (base + Z.of_nat 0 + 1) hi) as [Hh|Hh]; cbn [andb].
    + replace (Z.to_nat (hi - base)) with (S (Z.to_nat (hi - (base + 1)))) by lia. simpl. f_equal.
      transitivity (List.filter (λ m, (base + 1 <? mg_version m) && (mg_version m <=? hi)) l).
      * apply List.filter_ext_in. intros m' Hin%list_elem_of_In%list_elem_of_lookup. destruct Hin as [i Hi].
        rewrite (Hv' i m' Hi). f_equal. destruct (Z.ltb_spec base (base + 1 + Z.of_nat i + 1)),
          (Z.ltb_spec (base + 1) (base + 1 + Z.of_nat i + 1)); lia.
      * rewrite (IH (base + 1) (base + 1) Hv') by lia. by rewrite Z.sub_diag.
    + replace (Z.to_nat (hi - base)) with 0%nat by lia. simpl.
      apply filter_none. intros m' i Hi. rewrite (Hv' i m' Hi).
      destruct (Z.leb_spec (base + 1 + Z.of_nat i + 1) hi); [lia|]. apply andb_false_r.
  - simpl. rewrite (IH (base + 1) lo Hv') by lia.
    replace (Z.to_nat (lo - base)) with (S (Z.to_nat (lo - (base + 1)))) by lia. done.
Qed.

(** The steps from version [c] to version [t]. *)
Definition steps_between (b : Backend.Backend) (direction : Direction.Direction) (c t : nat)
    : list MigrationStep :=
  match direction with
  | Direction.Up => mkStep direction <$> take (t - c) (drop c (migrations b))
  | Direction.Down => mkStep direction <$> reverse (take (c - t) (drop t (migrations b)))
  end.

Definition bounded_steps (o : MigrateOptions) (l : list MigrationStep) : list MigrationStep :=
  match max_steps o with Some n => take (Z.to_nat n) l | None => l end.

Definition plan_target (direction : Direction.Direction) (o : MigrateOptions) : Z :=
  default (match direction with Direction.Up => 13 | Direction.Down => 0 end) (target_version o).

Definition right_way (direction : Direction.Direction) (c t : Z) : Prop :=
  match direction with Direction.Up => c ≤ t | Direction.Down => t ≤ c end.

Lemma filter_reverse {A} (p : A → bool) l : List.filter p (reverse l) = reverse (List.filter p l).
Proof. unfold reverse. rewrite <-!List.rev_alt. apply List.filter_rev. Qed.

Lemma segment b lo hi : 0 ≤ lo →
  List.filter (λ m, (lo <? mg_version m) && (mg_version m <=? hi)) (migrations b)
  = take (Z.to_nat hi - Z.to_nat lo) (drop (Z.to_nat lo) (migrations b)).
Proof.
  intros Hlo. rewrite (versions_between 0 lo hi); [|intros i m Hm; rewrite (versions_count _ _ _ Hm); lia|done].
  rewrite Z.sub_0_r. f_equal. lia.
Qed.

Lemma plan_ok b applied direction o :
  (∀ t, target_version o = Some t → 0 ≤ t) → is_history b applied → plan_target direction o ≤ 13 →
  right_way direction (Z.of_nat (length applied)) (plan_target direction o) →
  plan b applied direction o
  = Ok (bounded_steps o (steps_between b direction (length applied) (Z.to_nat (plan_target direction o)))).
Proof.
  intros Ht0 Hh Hl Hw. unfold Migrate.plan. rewrite (proj2 (validate_history_exact b applied) Hh).
  rewrite latest_is_13, (history_version b _ Hh). change (default _ (target_version o)) with (plan_target direction o).
  assert (0 ≤ plan_target direction o) as Ht.
  { unfold plan_target. destruct (target_version o); [by apply Ht0|by destruct direction]. }
  rewrite (proj2 (Z.ltb_ge _ _) Hl). destruct direction; simpl right_way in Hw; rewrite (proj2 (Z.ltb_ge _ _) Hw).
  - unfold steps_between, bounded_steps. by rewrite segment, Nat2Z.id by lia.
  - unfold steps_between, bounded_steps. by rewrite filter_reverse, segment, Nat2Z.id by lia.
Qed.

(** A migration plan is exact.  A history is accepted only as the rows of versions 1 to c
    with their names and checksums, in order; from it the plan to target t is exactly the
    versions after c up to t in order, or downwards from c to after t, cut to the step limit;
    a target beyond the newest version or in the wrong direction, and any other history, is
    refused. *)
Theorem plan_exact b applied direction o :
  (∀ t, target_version o = Some t → 0 ≤ t) →
  let t := plan_target direction o in
  let c := length applied in
  (is_history b applied → t ≤ 13 → right_way direction (Z.of_nat c) t →
   plan b applied direction o = Ok (bounded_steps o (steps_between b direction c (Z.to_nat t))))
  ∧ (is_history b applied → ¬ (t ≤ 13 ∧ right_way direction (Z.of_nat c) t) →
     ∃ m, plan b applied direction o = Err (MigrationError.Invalid m))
  ∧ (¬ is_history b applied → ∃ e, validate_history b applied = Err e ∧ plan b applied direction o = Err e).
Proof.
  intros Ht0 t c. split; [by intros; apply plan_ok|]. unfold Migrate.plan.
  pose proof (validate_history_exact b applied) as Hv.
  destruct (validate_history b applied) as [[]|e] eqn:Eh.
  2:{ split; [by intros H%Hv|]. eauto. }
  destruct Hv as [Hh _]. specialize (Hh eq_refl). rewrite latest_is_13, (history_version b _ Hh).
  fold c. change (default _ (target_version o)) with t.
  split; [|done]. intros _ Hn. destruct (Z.ltb_spec 13 t); [eauto|].
  destruct direction; simpl right_way in Hn;
    [destruct (Z.ltb_spec t (Z.of_nat c))|destruct (Z.ltb_spec (Z.of_nat c) t)]; eauto; lia.
Qed.
End plans.

Lemma plan_exact_witness :
  let applied := zip_with (row_of id) (take 2 (migrations id Backend.Mysql)) [5; 6] in
  (mg_version ∘ ms_migration <$>
     match plan id id id Backend.Mysql applied Direction.Up (mkMigrateOptions (Some 5) (Some 2) false) with
     | Ok l => l | Err _ => [] end) = [3; 4]
  ∧ plan id id id Backend.Mysql applied Direction.Up (mkMigrateOptions (Some 5) (Some 2) false)
    = Ok (bounded_steps (mkMigrateOptions (Some 5) (Some 2) false)
            (steps_between id Backend.Mysql Direction.Up 2 5)).
Proof.
  split; [vm_compute; reflexivity|].
  apply (plan_exact id id id Backend.Mysql (zip_with (row_of id) (take 2 (migrations id Backend.Mysql)) [5; 6])
           Direction.Up (mkMigrateOptions (Some 5) (Some 2) false)).
  - by intros t [= <-].
  - exists [5; 6]. split; [simpl; lia|done].
  - vm_compute. congruence.
  - vm_compute. congruence.
Defined.
