(* ===== verification/MigrateDb.v ===== *)
(** * headgate-migrate: running the migrations

    [crates/headgate-migrate/src/postgres.rs] and [mysql.rs].  The database server is a
    parameter: [exec] is what it makes of a statement, [catalog] what its information schema
    shows.  The history table is part of the state.  Each call consumes one unit of [db_calls];
    when none is left the connection is gone and the call fails, so a run with few calls is a
    migrator that was interrupted.  A transaction that does not commit leaves the state as it
    was, a MySQL statement takes effect by itself. *)

From S2P Require Import Prelude Shared ScheduleSpec SqlText Migrate.
Local Open Scope Z_scope.

(** What the information schema shows. *)
Record Catalog := mkCatalog {
  ct_tables : list string;
  ct_columns : list (string * string);
  ct_indexes : list string;
  ct_triggers : list string;
  ct_state_labels : list string;
  ct_state_type : option string;
  ct_saturation_type : option string;
}.

(** ** Splitting MySQL scripts *)

Module LexMode.
Inductive LexMode := Normal | Single | Double | Backtick | LineComment | BlockComment.
End LexMode.

(** [bytes[i] as char], pushed: a byte from 128 on becomes the two bytes of that code point. *)
Definition push_byte (c : ascii) (statement : string) : string :=
  if byte_val c <? 128 then (statement +:+ str1 c)%stdpp
  else (statement +:+ String (byte_of (192 + byte_val c / 64)) (str1 (byte_of (128 + byte_val c mod 64))))%stdpp.

Definition quote_of (m : LexMode.LexMode) : ascii :=
  match m with LexMode.Double => quote | LexMode.Backtick => "`" | _ => "'" end.

(** [str::trim] after [trim_start]. *)
Fixpoint trim_end (s : string) : string :=
  match s with
  | EmptyString => ""
  | String c s' => if String.eqb (trim_start s) "" then "" else String c (trim_end s')
  end.
Definition trim (s : string) : string := trim_end (trim_start s).

Definition push_statement (statement : string) (statements : list string) : list string :=
  if String.eqb (trim statement) "" then statements else statements ++ [trim statement].

(** The loop of [split_statements]; the arms in the order of the source. *)
Fixpoint split_loop (mode : LexMode.LexMode) (statement : string) (statements : list string) (s : string)
    : LexMode.LexMode * string * list string :=
  match s with
  | EmptyString => (mode, statement, statements)
  | String ch s1 =>
      match mode with
      | LexMode.LineComment =>
          if Ascii.eqb ch newline then split_loop LexMode.Normal (push_byte ch statement) statements s1
          else split_loop mode statement statements s1
      | LexMode.BlockComment =>
          match s1 with
          | String next s2 =>
              if Ascii.eqb ch "*" && Ascii.eqb next "/" then split_loop LexMode.Normal statement statements s2
              else split_loop mode statement statements s1
          | EmptyString => (mode, statement, statements)
          end
      | LexMode.Single | LexMode.Double | LexMode.Backtick =>
          let statement := push_byte ch statement in
          match s1 with
          | String next s2 =>
              if Ascii.eqb ch "\" then split_loop mode (push_byte next statement) statements s2
              else if Ascii.eqb ch (quote_of mode) then
                if Ascii.eqb next (quote_of mode) then split_loop mode (push_byte next statement) statements s2
                else split_loop LexMode.Normal statement statements s1
              else split_loop mode statement statements s1
          | EmptyString =>
              (if Ascii.eqb ch (quote_of mode) && negb (Ascii.eqb ch "\") then LexMode.Normal else mode,
               statement, statements)
          end
      | LexMode.Normal =>
          let step :=
            if Ascii.eqb ch "'" then split_loop LexMode.Single (push_byte ch statement) statements s1
            else if Ascii.eqb ch quote then split_loop LexMode.Double (push_byte ch statement) statements s1
            else if Ascii.eqb ch "`" then split_loop LexMode.Backtick (push_byte ch statement) statements s1
            else if Ascii.eqb ch ";" then split_loop LexMode.Normal "" (push_statement statement statements) s1
            else split_loop LexMode.Normal (push_byte ch statement) statements s1 in
          match s1 with
          | String next s2 =>
              if Ascii.eqb ch "-" && Ascii.eqb next "-" then split_loop LexMode.LineComment statement statements s2
              else if Ascii.eqb ch "/" && Ascii.eqb next "*" then split_loop LexMode.BlockComment statement statements s2
              else step
          | EmptyString => step
          end
      end
  end.

Definition split_statements (sql : string) : result (list string) MigrationError.MigrationError :=
  let '(mode, statement, statements) := split_loop LexMode.Normal "" [] sql in
  match mode with
  | LexMode.Single | LexMode.Double | LexMode.Backtick | LexMode.BlockComment =>
      Err (MigrationError.Invalid "unterminated quote or block comment in embedded MySQL migration")
  | _ => Ok (push_statement statement statements)
  end.

(** ** Names and labels *)

Fixpoint strip_suffix_char (q : ascii) (s : string) : option string :=
  match s with
  | EmptyString => None
  | String c EmptyString => if Ascii.eqb c q then Some "" else None
  | String c s => String c <$> strip_suffix_char q s
  end.

Fixpoint trim_start_char (q : ascii) (s : string) : string :=
  match s with String c s' => if Ascii.eqb c q then trim_start_char q s' else s | EmptyString => "" end.

Fixpoint trim_end_char (q : ascii) (s : string) : string :=
  match s with
  | EmptyString => ""
  | String c s' => if str_forall (Ascii.eqb q) s then "" else String c (trim_end_char q s')
  end.

(** [replace("''", "'")]. *)
Fixpoint undouble (s : string) : string :=
  match s with
  | String "'" (String "'" s) => String "'" (undouble s)
  | String c s => String c (undouble s)
  | EmptyString => ""
  end.

Definition enum_labels (column_type : string) : list string :=
  match strip_prefix "enum(" column_type ≫= strip_suffix_char ")" with
  | None => []
  | Some body =>
      (λ part, undouble (trim_end_char "'" (trim_start_char "'" (trim part)))) <$> split_char "," body
  end.

Section server.
Context {Sch : Type} (exec : string → Sch → result Sch string) (catalog : Sch → Catalog).
Context (asset : string → string) (sha256_hex debug : string → string) (debug_labels : list string → string).
Context (now_ms : Z).

Definition mysql_migration_lock_name (namespace database : string) : result string MigrationError.MigrationError :=
  let valid :=
    negb (String.eqb namespace "") && (str_len namespace <=? 31)
    && match namespace with String c _ => is_ascii_alphanumeric c | EmptyString => false end
    && str_forall (λ c, is_ascii_alphanumeric c || Ascii.eqb c "_" || Ascii.eqb c "-" || Ascii.eqb c ".") namespace in
  if negb valid then
    Err (MigrationError.Invalid
      "MySQL lock namespace must be 1-31 ASCII bytes, start alphanumeric, and contain only [A-Za-z0-9_.-]")
  else if String.eqb database "" then
    Err (MigrationError.Invalid "MySQL migrations require a selected database")
  else
    let readable := (namespace +:+ ":migrate:" +:+ database)%stdpp in
    if str_len readable <=? 64 then Ok readable
    else Ok (namespace +:+ ":h:" +:+ String.substring 0 30 (sha256_hex database))%stdpp.

(** ** Calls *)

Record Server := mkServer {
  db_schema : Sch;
  (** [headgate_schema_migration], if it exists, by version. *)
  db_history : option (list AppliedMigration);
  (** Calls until the connection is lost. *)
  db_calls : option nat;
}.

Definition MM (A : Type) : Type := Server → Server * result A MigrationError.MigrationError.

#[local] Instance mm_ret : MRet MM := λ A x d, (d, Ok x).
#[local] Instance mm_bind : MBind MM := λ A B k m d,
  match m d with
  | (d, Ok x) => k x d
  | (d, Err e) => (d, Err e)
  end.

Definition fail {A} (e : MigrationError.MigrationError) : MM A := λ d, (d, Err e).
Definition of_result {A} (r : result A MigrationError.MigrationError) : MM A := λ d, (d, r).

Definition lost (b : Backend.Backend) (e : string) : MigrationError.MigrationError :=
  match b with Backend.Postgres => MigrationError.Postgres e | Backend.Mysql => MigrationError.Mysql e end.

(** One call to the server, which answers or rejects the statement. *)
Definition server_call {A} (b : Backend.Backend) (f : Server → Server * result A string) : MM A := λ d,
  match db_calls d with
  | Some O => (d, Err (lost b "connection lost"))
  | n =>
      let '(d', r) := f (mkServer (db_schema d) (db_history d) (pred <$> n)) in
      (d', match r with Ok x => Ok x | Err e => Err (lost b e) end)
  end.

Definition ask_db {A} (b : Backend.Backend) (f : Server → A) : MM A := server_call b (λ d, (d, Ok (f d))).

Definition run_sql (b : Backend.Backend) (sql : string) : MM unit := server_call b (λ d,
  match exec sql (db_schema d) with
  | Ok s => (mkServer s (db_history d) (db_calls d), Ok tt)
  | Err e => (d, Err e)
  end).

Definition create_history (b : Backend.Backend) : MM unit := server_call b (λ d,
  (mkServer (db_schema d) (Some (default [] (db_history d))) (db_calls d), Ok tt)).

(** [INSERT]: the primary key is [(line, version)]. *)
Fixpoint insert_version (row : AppliedMigration) (rows : list AppliedMigration) : option (list AppliedMigration) :=
  match rows with
  | [] => Some [row]
  | r :: rows =>
      if am_version row <? am_version r then Some (row :: r :: rows)
      else if am_version row =? am_version r then None
      else cons r <$> insert_version row rows
  end.

Definition with_history {A} (b : Backend.Backend)
    (f : list AppliedMigration → result (list AppliedMigration * A) string) : MM A := server_call b (λ d,
  match db_history d with
  | None => (d, Err "headgate_schema_migration does not exist")
  | Some rows =>
      match f rows with
      | Ok (rows, x) => (mkServer (db_schema d) (Some rows) (db_calls d), Ok x)
      | Err e => (d, Err e)
      end
  end).

Definition record_version (b : Backend.Backend) (m : Migration) : MM unit := with_history b (λ rows,
  match insert_version (mkApplied (mg_version m) (mg_name m) (checksum sha256_hex m) now_ms) rows with
  | Some rows => Ok (rows, tt)
  | None => Err "duplicate key"
  end).

Definition forget_version (b : Backend.Backend) (m : Migration) : MM unit := with_history b (λ rows,
  Ok (List.filter (λ r, negb (am_version r =? mg_version m)) rows, tt)).

Definition to_u32 (r : AppliedMigration) : result AppliedMigration MigrationError.MigrationError :=
  if (0 <=? am_version r) && (am_version r <=? u32_max) then Ok r
  else Err (MigrationError.History ("version " +:+ pretty (am_version r) +:+ " is outside u32")%stdpp).

Fixpoint all_u32 (rows : list AppliedMigration) : result (list AppliedMigration) MigrationError.MigrationError :=
  match rows with
  | [] => Ok []
  | r :: rows => let? r := to_u32 r in let? rows := all_u32 rows in Ok (r :: rows)
  end.

Definition read_history (b : Backend.Backend) : MM (list AppliedMigration) :=
  rows ← with_history b (λ rows, Ok (rows, rows));
  of_result (all_u32 rows).

(** ** What is installed *)

Definition has_table (t : string) (d : Server) : bool := existsb (String.eqb t) (ct_tables (catalog (db_schema d))).

Definition unrecorded (has_schema : bool) : InstallationState.InstallationState :=
  if has_schema then InstallationState.Unversioned else InstallationState.Empty.

(** [applied_postgres_scoped] and [applied_mysql]. *)
Definition applied (b : Backend.Backend) : MM (InstallationState.InstallationState * list AppliedMigration) :=
  has_history ← ask_db b (λ d, match db_history d with Some _ => true | None => false end);
  has_schema ← ask_db b (has_table "headgate_job");
  if negb has_history then
    mret (unrecorded has_schema, [])
  else
    rows ← read_history b;
    mret (match rows with
          | [] => unrecorded has_schema
          | _ => InstallationState.Versioned
          end, rows).

Definition missing (what : string) (required present : list string) : list string :=
  (λ x, ("missing " +:+ what +:+ " " +:+ x)%stdpp)
    <$> List.filter (λ x, negb (existsb (String.eqb x) present)) required.

Definition missing_columns (required present : list (string * string)) : list string :=
  (λ '(t, c), ("missing column " +:+ t +:+ "." +:+ c)%stdpp)
    <$> List.filter (λ x, negb (bool_decide (x ∈ present))) required.

Definition same_labels (a b : list string) : bool :=
  forallb (λ x, existsb (String.eqb x) b) a && forallb (λ x, existsb (String.eqb x) a) b.

Definition label_message (column : string) (actual expected : list string) : string :=
  (column +:+ " labels are " +:+ debug_labels actual +:+ ", expected " +:+ debug_labels expected)%stdpp.

Definition SATURATION_LABELS : list string := ["queue"; "discard"; "cancel_running"; "cancel_incoming"].

(** Each query of [missing_schema] is one call. *)
Definition query {A} (b : Backend.Backend) (f : Catalog → A) : MM A := ask_db b (λ d, f (catalog (db_schema d))).

Definition missing_schema (b : Backend.Backend) : MM (list string) :=
    let pg := match b with Backend.Postgres => true | Backend.Mysql => false end in
  tables ← query b ct_tables;
  columns ← query b ct_columns;
  indexes ← query b ct_indexes;
  triggers ← query b ct_triggers;
  let base := missing "table" TABLES tables
    ++ missing_columns (if pg then POSTGRES_COLUMNS else MYSQL_COLUMNS) columns
    ++ missing "index" (if pg then POSTGRES_INDEXES else MYSQL_INDEXES) indexes
    ++ missing "trigger" (if pg then POSTGRES_TRIGGERS else MYSQL_TRIGGERS) triggers in
  if pg then
    states ← query b ct_state_labels;
    mret (base ++ if bool_decide (states = STATES) then [] else [label_message "headgate_state" states STATES])
  else
    state_type ← query b ct_state_type;
    saturation_type ← query b ct_saturation_type;
    let labels (t : option string) := match t with Some t => enum_labels t | None => [] end in
    let check (column : string) (t : option string) (expected : list string) :=
      if same_labels (labels t) expected then [] else [label_message column (labels t) expected] in
    mret (base ++ check "headgate_job.state" state_type STATES
            ++ check "headgate_concurrency_limit.on_saturated" saturation_type SATURATION_LABELS).

Record Validation := mkValidation {
  va_state : InstallationState.InstallationState;
  va_current_version : Z;
  va_latest_version : Z;
  va_applied : list AppliedMigration;
  va_messages : list string;
}.

(** [validate_postgres_scoped] and [validate_mysql]. *)
Definition validate_installation (b : Backend.Backend) : MM Validation :=
  '(state, rows) ← applied b;
  let current := current_version rows in
  let latest := latest_version asset b in
  messages ← match state with
    | InstallationState.Empty => mret ["headgate schema is not installed"]
    | InstallationState.Unversioned =>
        more ← missing_schema b;
        mret ("headgate schema exists without migration history" :: more)
    | InstallationState.Versioned =>
        let history := match validate_history asset sha256_hex debug b rows with
                       | Ok _ => [] | Err e => [error_text e] end in
        if negb (current =? latest) then
          mret (history ++ [("schema is at version " +:+ pretty current +:+ ", embedded latest is "
                             +:+ pretty latest)%stdpp])
        else more ← missing_schema b; mret (history ++ more)
    end;
  mret (mkValidation state current latest rows messages).

Abbreviation plan := (plan asset sha256_hex debug).
Abbreviation validate_history := (validate_history asset sha256_hex debug).

(** ** PostgreSQL *)

Section postgres.
Context (ns : PostgresNamespace).
Abbreviation pg := Backend.Postgres.

(** A transaction: begin, the body, commit; anything else rolls back. *)
Definition or_rollback {A} (m : MM A) : MM A := λ d,
  match m d with
  | (d', Ok x) => (d', Ok x)
  | (d', Err e) => (mkServer (db_schema d) (db_history d) (db_calls d'), Err e)
  end.
Definition then_commit {A} (m : MM A) : MM A := x ← m; _ ← ask_db pg (λ _, tt); mret x.
Definition in_tx {A} (m : MM A) : MM A := _ ← ask_db pg (λ _, tt); or_rollback (then_commit m).

Definition fail_if_missing (b : Backend.Backend) : MM unit :=
  errors ← missing_schema b;
  match errors with [] => mret tt | _ => fail (MigrationError.Schema errors) end.

(** One turn of the loop of [migrate_postgres_scoped]: whether the step was executed. *)
Definition pg_step (direction : Direction.Direction) (intended : Migration) : MM bool := in_tx (
  _ ← ask_db pg (λ _, tt);
  live ← read_history pg;
  _ ← of_result (validate_history pg live);
  let current := current_version live in
  match direction with
  | Direction.Up =>
      if mg_version intended <=? current then mret false
      else if negb (u32_add current 1 =? mg_version intended) then
        fail (MigrationError.History ("concurrent migration moved current version to " +:+ pretty current
                +:+ "; expected " +:+ pretty (mg_version intended - 1))%stdpp)
      else
        _ ← run_sql pg (render ns (up_sql intended));
        _ ← (if mg_version intended =? latest_version asset pg then fail_if_missing pg else mret tt);
        _ ← record_version pg intended;
        mret true
  | Direction.Down =>
      if current <? mg_version intended then mret false
      else if negb (current =? mg_version intended) then
        fail (MigrationError.History ("cannot migrate down version " +:+ pretty (mg_version intended)
                +:+ "; current version is " +:+ pretty current)%stdpp)
      else
        _ ← run_sql pg (render ns (down_sql intended));
        _ ← forget_version pg intended;
        mret true
  end).

Fixpoint pg_steps (direction : Direction.Direction) (planned : list MigrationStep) : MM (list MigrationStep) :=
  match planned with
  | [] => mret []
  | s :: planned =>
      ran ← pg_step direction (ms_migration s);
      executed ← pg_steps direction planned;
      mret (if Bool.eqb ran true then s :: executed else executed)
  end.

(** Both migrators start alike: an unversioned schema is refused, a dry run only plans. *)
Definition migrate_with (b : Backend.Backend) (direction : Direction.Direction) (options : MigrateOptions)
    (go : list MigrationStep → MM (list MigrationStep)) : MM MigrateResult :=
  '(state, rows) ← applied b;
  match state with
  | InstallationState.Unversioned => fail MigrationError.UnversionedSchema
  | _ =>
      planned ← of_result (plan b rows direction options);
      if dry_run options then mret (mkMigrateResult true planned)
      else
        _ ← create_history b;
        executed ← go planned;
        mret (mkMigrateResult false executed)
  end.

Definition migrate_postgres (direction : Direction.Direction) (options : MigrateOptions) : MM MigrateResult :=
  migrate_with pg direction options (pg_steps direction).

Fixpoint record_all (b : Backend.Backend) (ms : list Migration) : MM unit :=
  match ms with
  | [] => mret tt
  | m :: ms => _ ← record_version b m; record_all b ms
  end.

(** What adopting does under its lock: the rows found, or all versions recorded. *)
Definition adopt_live (b : Backend.Backend) : MM (option (list AppliedMigration)) :=
  live ← read_history b;
  match live with
  | _ :: _ => _ ← of_result (validate_history b live); mret (Some live)
  | [] => _ ← fail_if_missing b; _ ← record_all b (migrations asset b); mret None
  end.

Definition adopt_with (b : Backend.Backend) (locked : MM (list AppliedMigration)) : MM (list AppliedMigration) :=
  '(state, existing) ← applied b;
  match state with
  | InstallationState.Versioned => _ ← of_result (validate_history b existing); mret existing
  | InstallationState.Empty =>
      fail (MigrationError.Invalid "cannot adopt an empty database; migrate up instead")
  | InstallationState.Unversioned => _ ← create_history b; locked
  end.

Definition adopt_postgres : MM (list AppliedMigration) :=
  adopt_with pg (
    found ← in_tx (_ ← ask_db pg (λ _, tt); adopt_live pg);
    match found with
    | Some live => mret live
    | None => '(_, rows) ← applied pg; mret rows
    end).
End postgres.

(** The namespace a call works in: the one named, or the connection's current schema. *)
Definition namespace_for (current_schema : string) (namespaces : list string) (schema : option string)
    : MM PostgresNamespace :=
  name ← match schema with
         | Some name => mret name
         | None => ask_db Backend.Postgres (λ _, current_schema)
         end;
  ns ← of_result (match explicit sha256_hex name with Ok ns => Ok ns | Err e => Err (MigrationError.Invalid e) end);
  exists_ ← ask_db Backend.Postgres (λ _, existsb (String.eqb name) namespaces);
  if negb exists_ then
    fail (MigrationError.Invalid ("Postgres schema " +:+ debug name
            +:+ " does not exist; create it before migrating")%stdpp)
  else mret ns.

(** [migrate_postgres] and [migrate_postgres_in_schema]; adopting and validating alike. *)
Definition in_namespace {A} (current_schema : string) (namespaces : list string) (schema : option string)
    (run : PostgresNamespace → MM A) : MM A :=
  ns ← namespace_for current_schema namespaces schema; run ns.

(** ** MySQL *)

Section mysql.
(** What [GET_LOCK] and [RELEASE_LOCK] answer, and the selected database. *)
Context (lock_granted lock_released : bool) (database lock_namespace : string).
Abbreviation my := Backend.Mysql.

Fixpoint run_statements (statements : list string) : MM unit :=
  match statements with
  | [] => mret tt
  | s :: statements => _ ← run_sql my s; run_statements statements
  end.

Definition my_step (direction : Direction.Direction) (m : Migration) : MM unit :=
  statements ← of_result (split_statements (match direction with
                                            | Direction.Up => up_sql m | Direction.Down => down_sql m end));
  _ ← run_statements statements;
  match direction with
  | Direction.Up =>
      _ ← (if mg_version m =? latest_version asset my then fail_if_missing my else mret tt);
      record_version my m
  | Direction.Down => forget_version my m
  end.

Fixpoint my_steps (direction : Direction.Direction) (planned : list MigrationStep) : MM (list MigrationStep) :=
  match planned with
  | [] => mret []
  | s :: planned =>
      _ ← my_step direction (ms_migration s);
      executed ← my_steps direction planned;
      mret (s :: executed)
  end.

Definition migrate_mysql_locked (direction : Direction.Direction) (options : MigrateOptions)
    : MM (list MigrationStep) :=
  live ← read_history my;
  planned ← of_result (plan my live direction options);
  my_steps direction planned.

(** [acquire_lock], the body, [release_lock]: the body's error wins. *)
Definition then_release {A} (m : MM A) : MM A := λ d,
  let '(d, r) := m d in
  let '(d, released) := ask_db my (λ _, lock_released) d in
  (d, match r, released with
      | Err e, _ => Err e
      | Ok _, Err e => Err e
      | Ok x, Ok true => Ok x
      | Ok _, Ok false => Err (MigrationError.Invalid "MySQL migration lock was not held at release")
      end).
Definition locked {A} (m : MM A) : MM A :=
  database ← ask_db my (λ _, database);
  _ ← of_result (mysql_migration_lock_name lock_namespace database);
  granted ← ask_db my (λ _, lock_granted);
  if negb granted then fail (MigrationError.Invalid "timed out acquiring the MySQL migration lock")
  else then_release m.

Definition migrate_mysql (direction : Direction.Direction) (options : MigrateOptions) : MM MigrateResult :=
  _ ← of_result (mysql_migration_lock_name lock_namespace "validation");
  migrate_with my direction options (λ _, locked (migrate_mysql_locked direction options)).

Definition adopt_mysql : MM (list AppliedMigration) :=
  _ ← of_result (mysql_migration_lock_name lock_namespace "validation");
  adopt_with my (locked (
    found ← adopt_live my;
    match found with
    | Some live => mret live
    | None => read_history my
    end)).
End mysql.
End server.
