(* ===== verification/MigrateSpec.v ===== *)
(** * headgate-migrate: theorems

    What the migrators do to schema and history together: on PostgreSQL the recorded versions
    match the schema after any interleaving of migrators and interruptions; on MySQL an
    interrupted upgrade leaves the history of the versions that are complete, and the next run
    completes it exactly when the statements of the version cut short can be executed again.

    The server and its schemas are parameters, and so is [installed c s], that the schema [s]
    counts as version [c].  It is a predicate because a version has more than one schema: the
    down script of PostgreSQL's version 8 leaves the label [pending] in its enum, so that a
    schema rolled back to a version below 8 has it and one built from scratch has not. *)

From S2P Require Import Prelude Shared ScheduleSpec SqlText Migrate MigrateDb.
Local Open Scope Z_scope.

Section calls.
Context {Sch : Type} (exec : string → Sch → result Sch string) (catalog : Sch → Catalog).
Context (asset : string → string) (sha256_hex debug : string → string) (debug_labels : list string → string).
Context (now_ms : Z).
Implicit Types (d : Server (Sch := Sch)) (b : Backend.Backend).

(** Scripts or statements one after the other. *)
Fixpoint exec_all (l : list string) (s : Sch) : result Sch string :=
  match l with
  | [] => Ok s
  | x :: l => let? s := exec x s in exec_all l s
  end.

Lemma exec_all_app l1 l2 s :
  exec_all (l1 ++ l2) s = let? s := exec_all l1 s in exec_all l2 s.
Proof. revert s. induction l1 as [|x l1 IH]; intros s; simpl; [done|]. destruct (exec x s); [apply IH|done]. Qed.

(** Same schema and history. *)
Definition same d d' : Prop := db_schema d' = db_schema d ∧ db_history d' = db_history d.

Lemma same_refl d : same d d.
Proof. done. Qed.
Lemma same_trans d1 d2 d3 : same d1 d2 → same d2 d3 → same d1 d3.
Proof. unfold same. intuition congruence. Qed.

Lemma mm_bind_ok {A B} (m : MM A) (k : A → MM B) d d' y :
  mm_bind A B k m d = (d', Ok y) → ∃ d1 x, m d = (d1, Ok x) ∧ k x d1 = (d', Ok y).
Proof. unfold mm_bind. destruct (m d) as [d1 [x|e]]; [eauto|done]. Qed.

Lemma server_call_ok {A} b (f : Server (Sch := Sch) → Server * result A string) d d' x :
  server_call b f d = (d', Ok x) → ∃ d1, same d d1 ∧ f d1 = (d', Ok x).
Proof.
  unfold server_call. intros H. exists (mkServer (db_schema d) (db_history d) (pred <$> db_calls d)). split; [done|].
  destruct (db_calls d) as [[|n]|]; [done|..]; simpl in *;
    destruct (f _) as [d2 [y|e]]; congruence.
Qed.

Lemma ask_ok {A} b (f : Server → A) d d' x : ask_db b f d = (d', Ok x) → same d d' ∧ x = f d'.
Proof. intros (d1 & Hs & [= -> ->])%server_call_ok. done. Qed.

Lemma ask_same {A} b (f : Server → A) d : same d (ask_db b f d).1.
Proof. unfold ask_db, server_call. by destruct (db_calls d) as [[|n]|]. Qed.

Lemma run_sql_ok b sql d d' : run_sql exec b sql d = (d', Ok tt) →
  exec sql (db_schema d) = Ok (db_schema d') ∧ db_history d' = db_history d.
Proof.
  intros (d1 & [E1 E2] & H)%server_call_ok. rewrite E1 in H. destruct (exec sql (db_schema d)); [|done].
  injection H as <-. simpl. by rewrite E2.
Qed.

Lemma with_history_ok {A} b (f : list AppliedMigration → result (list AppliedMigration * A) string) d d' x :
  with_history b f d = (d', Ok x) →
  ∃ rows rows', db_history d = Some rows ∧ f rows = Ok (rows', x) ∧ db_history d' = Some rows'
                ∧ db_schema d' = db_schema d.
Proof.
  intros (d1 & [E1 E2] & H)%server_call_ok. rewrite E2 in H. destruct (db_history d) as [rows|]; [|done].
  destruct (f rows) as [[rows' y]|] eqn:E; [|done]. injection H as <- <-. simpl. eauto 6.
Qed.

Lemma all_u32_ok rows x : all_u32 rows = Ok x → x = rows.
Proof.
  revert x. induction rows as [|r rows IH]; intros x; simpl; [by intros [= <-]|]. unfold to_u32.
  destruct (_ && _); [|done]. destruct (all_u32 rows); [|done]. intros [= <-]. f_equal. by apply IH.
Qed.

Lemma read_history_ok b d d' x : read_history b d = (d', Ok x) → same d d' ∧ db_history d' = Some x.
Proof.
  unfold read_history. intros (d1 & rows & H1 & H2)%mm_bind_ok. injection H2 as <- H2.
  apply with_history_ok in H1 as (r & r' & E1 & [= <- <-] & E3 & E4). apply all_u32_ok in H2 as ->.
  unfold same. by rewrite E3, E1.
Qed.

Lemma missing_schema_ok b d d' x : missing_schema catalog debug_labels b d = (d', Ok x) → same d d'.
Proof.
  unfold missing_schema. intros (d1 & ? & [H1 _]%ask_ok & E)%mm_bind_ok.
  apply mm_bind_ok in E as (d2 & ? & [H2 _]%ask_ok & E). apply mm_bind_ok in E as (d3 & ? & [H3 _]%ask_ok & E).
  apply mm_bind_ok in E as (d4 & ? & [H4 _]%ask_ok & E).
  assert (same d d4) as H by (do 3 (eapply same_trans; [done|]); done). clear H1 H2 H3 H4. destruct b.
  - apply mm_bind_ok in E as (d5 & ? & [H5 _]%ask_ok & E). apply (f_equal fst) in E. change (d5 = d') in E.
    subst d'. by eapply same_trans.
  - apply mm_bind_ok in E as (d5 & ? & [H5 _]%ask_ok & E). apply mm_bind_ok in E as (d6 & ? & [H6 _]%ask_ok & E).
    apply (f_equal fst) in E. change (d6 = d') in E. subst d'.
    eapply same_trans; [done|]. by eapply same_trans.
Qed.

Lemma fail_if_missing_ok b d d' x : fail_if_missing catalog debug_labels b d = (d', Ok x) → same d d'.
Proof.
  unfold fail_if_missing. intros (d1 & [|? ?] & H1%missing_schema_ok & E)%mm_bind_ok; [|done].
  by injection E as <- _.
Qed.

(** ** Histories grow and shrink at the end *)

Lemma insert_last row rows : (∀ r, r ∈ rows → am_version r < am_version row) →
  insert_version row rows = Some (rows ++ [row]).
Proof.
  induction rows as [|r rows IH]; intros H; [done|]. simpl.
  assert (am_version r < am_version row) as Hr by (apply H; left).
  destruct (Z.ltb_spec (am_version row) (am_version r)); [lia|]. destruct (Z.eqb_spec (am_version row) (am_version r)); [lia|].
  rewrite IH; [done|]. intros x Hx. apply H. by right.
Qed.

Lemma filter_below (p : Z → bool) rows : (∀ r, r ∈ rows → p (am_version r) = true) →
  List.filter (λ r, p (am_version r)) rows = rows.
Proof.
  induction rows as [|r rows IH]; intros H; [done|]. simpl. rewrite (H r) by (by left). f_equal.
  apply IH. intros x Hx. apply H. by right.
Qed.

Abbreviation history := (is_history asset sha256_hex).
Abbreviation row m := (row_of sha256_hex m).

Lemma history_nil b : history b [].
Proof. exists []. split; [simpl; lia|done]. Qed.

Lemma history_row b rows k r : history b rows → rows !! k = Some r →
  ∃ m, migrations asset b !! k = Some m ∧ r = row m (am_applied_at_ms r) ∧ (k < 13)%nat.
Proof.
  intros (times & Hl & ->). rewrite lookup_zip_with.
  destruct (take _ _ !! k) as [m|] eqn:Em; [|done]. destruct (times !! k) as [t|] eqn:Et; [|done].
  intros [= <-]. apply lookup_take_Some in Em as [Em ?]. exists m. apply lookup_lt_Some in Et. split_and!; try done. lia.
Qed.

Lemma history_versions b rows r : history b rows → r ∈ rows → 1 ≤ am_version r ≤ Z.of_nat (length rows).
Proof.
  intros Hh [k Hk]%list_elem_of_lookup. destruct (history_row _ _ _ _ Hh Hk) as (m & Hm & -> & _).
  simpl. rewrite (versions_count _ _ _ _ Hm). apply lookup_lt_Some in Hk. lia.
Qed.

Lemma history_snoc b rows m t : history b rows → migrations asset b !! length rows = Some m →
  history b (rows ++ [row m t]).
Proof.
  intros (times & Hl & ->) Hm. rewrite length_zip_with, length_take, migrations_length in Hm.
  replace (_ `min` _)%nat with (length times) in Hm by lia. pose proof (lookup_lt_Some _ _ _ Hm) as Hlt.
  rewrite migrations_length in Hlt. exists (times ++ [t]). rewrite length_app. split; [simpl; lia|]. simpl.
  rewrite Nat.add_1_r, (take_S_r _ _ _ Hm), zip_with_app; [done|].
  rewrite length_take, migrations_length. lia.
Qed.

Lemma record_last b m d d' rows : db_history d = Some rows → history b rows →
  migrations asset b !! length rows = Some m → record_version sha256_hex now_ms b m d = (d', Ok tt) →
  db_history d' = Some (rows ++ [row m now_ms]) ∧ db_schema d' = db_schema d.
Proof.
  intros Hr Hh Hm (rows1 & rows' & E1 & E2 & E3 & E4)%with_history_ok. rewrite Hr in E1. injection E1 as <-.
  rewrite insert_last in E2; [by injection E2 as <-|]. intros r Hin. simpl.
  rewrite (versions_count _ _ _ _ Hm). pose proof (history_versions _ _ _ Hh Hin). lia.
Qed.

Lemma history_prefix b rows r : history b (rows ++ [r]) → history b rows.
Proof.
  intros Hh. apply (validate_history_exact asset sha256_hex debug) in Hh.
  apply (validate_history_exact asset sha256_hex debug). revert Hh. unfold validate_history. generalize 0%nat.
  induction rows as [|x rows IH]; intros i; simpl; [done|].
  destruct (check_row asset sha256_hex debug b i x); [apply IH|done].
Qed.

Lemma forget_last b m d d' rows i : db_history d = Some rows → history b rows → length rows = S i →
  migrations asset b !! i = Some m → forget_version b m d = (d', Ok tt) →
  ∃ rows', db_history d' = Some rows' ∧ history b rows' ∧ length rows' = i ∧ db_schema d' = db_schema d.
Proof.
  intros Hr Hh Hl Hm (rows1 & rows' & E1 & E2 & E3 & E4)%with_history_ok. rewrite Hr in E1. injection E1 as <-.
  injection E2 as <-. destruct (exists_last (l := rows)) as (init & r & ->); [by intros ->|].
  rewrite length_app in Hl. simpl in Hl. assert (length init = i) as Hi by lia.
  pose proof (history_prefix _ _ _ Hh) as Hp. exists init. split_and!; try done. rewrite E3. f_equal.
  rewrite List.filter_app. destruct (history_row _ _ i r Hh) as (m' & Hm' & -> & _).
  { by rewrite lookup_app_r, Hi, Nat.sub_diag by lia. }
  rewrite Hm in Hm'. injection Hm' as <-. simpl. rewrite Z.eqb_refl. simpl. rewrite app_nil_r.
  apply (filter_below (λ v, negb (v =? mg_version m))). intros x Hx.
  pose proof (history_versions _ _ _ Hp Hx). rewrite (versions_count _ _ _ _ Hm).
  apply negb_true_iff, Z.eqb_neq. lia.
Qed.

(** ** Without interruptions *)

Lemma bind_run {A B} (m : MM A) (k : A → MM B) d d1 x :
  m d = (d1, Ok x) → @mbind MM mm_bind A B k m d = k x d1.
Proof. unfold mbind, mm_bind. by intros ->. Qed.

Lemma bind_err {A B} (m : MM A) (k : A → MM B) d d1 e :
  m d = (d1, Err e) → @mbind MM mm_bind A B k m d = (d1, Err e).
Proof. unfold mbind, mm_bind. by intros ->. Qed.

Lemma all_u32_history b rows : history b rows → all_u32 rows = Ok rows.
Proof.
  intros Hh. assert (∀ r, r ∈ rows → 0 ≤ am_version r ≤ u32_max) as Hr.
  { intros r Hin. pose proof (history_versions _ _ _ Hh Hin). destruct Hh as (times & Hl & ->).
    rewrite length_zip_with in *. unfold u32_max. lia. }
  clear Hh. induction rows as [|r rows IH]; [done|]. simpl. unfold to_u32.
  assert (0 ≤ am_version r ≤ u32_max) as Hx by (apply Hr; left).
  rewrite (proj2 (Z.leb_le _ _) (proj1 Hx)), (proj2 (Z.leb_le _ _) (proj2 Hx)). simpl.
  rewrite IH; [done|]. intros y Hy. apply Hr. by right.
Qed.

Lemma read_history_run b (s : Sch) rows : history b rows →
  read_history b (mkServer s (Some rows) None) = (mkServer s (Some rows) None, Ok rows).
Proof. intros Hh. unfold read_history. erewrite bind_run by reflexivity. unfold of_result. by rewrite (all_u32_history b). Qed.

Lemma record_run b (s : Sch) m rows : history b rows → migrations asset b !! length rows = Some m →
  record_version sha256_hex now_ms b m (mkServer s (Some rows) None)
  = (mkServer s (Some (rows ++ [row m now_ms])) None, Ok tt).
Proof.
  intros Hh Hm. unfold record_version, with_history, server_call. cbn [db_calls db_history].
  rewrite insert_last; [done|]. intros r Hin. simpl. rewrite (versions_count _ _ _ _ Hm).
  pose proof (history_versions _ _ _ Hh Hin). lia.
Qed.

Lemma forget_run b (s : Sch) m rows i : history b rows → length rows = S i → migrations asset b !! i = Some m →
  ∃ rows', forget_version b m (mkServer s (Some rows) None) = (mkServer s (Some rows') None, Ok tt)
           ∧ history b rows' ∧ length rows' = i.
Proof.
  intros Hh Hl Hm. eexists. split; [reflexivity|].
  destruct (forget_last b m (mkServer s (Some rows) None) _ rows i eq_refl Hh Hl Hm eq_refl) as (rows' & [= <-] & ? & ? & _).
  done.
Qed.

Lemma run_sql_run b sql s s' h : exec sql s = Ok s' →
  run_sql exec b sql (mkServer s h None) = (mkServer s' h None, Ok tt).
Proof. intros E. unfold run_sql, server_call. cbn [db_calls db_schema]. by rewrite E. Qed.

Definition schema_complete b (s : Sch) : Prop :=
  ∀ h, missing_schema catalog debug_labels b (mkServer s h None) = (mkServer s h None, Ok []).

Lemma applied_run b (s : Sch) rows : history b rows →
  (rows = [] → existsb (String.eqb "headgate_job") (ct_tables (catalog s)) = false) →
  ∃ state, applied catalog b (mkServer s (Some rows) None) = (mkServer s (Some rows) None, Ok (state, rows))
           ∧ state ≠ InstallationState.Unversioned.
Proof.
  intros Hh Hn. eexists. split.
  - unfold applied. erewrite bind_run by reflexivity. erewrite bind_run by reflexivity.
    cbn [db_history negb]. erewrite bind_run by by apply read_history_run. reflexivity.
  - destruct rows; [|done]. unfold unrecorded, has_table. cbn [db_schema]. by rewrite Hn.
Qed.
End calls.

(** ** PostgreSQL *)

Section postgres_spec.
Context {Sch : Type} (exec : string → Sch → result Sch string) (catalog : Sch → Catalog).
Context (asset : string → string) (sha256_hex debug : string → string) (debug_labels : list string → string).
Context (now_ms : Z) (ns : PostgresNamespace).
(** The schemas that count as a version. *)
Context (installed : nat → Sch → Prop).
Abbreviation pg := Backend.Postgres.
Abbreviation pg_step := (pg_step exec catalog asset sha256_hex debug debug_labels now_ms ns).

(** What the SQL files are for: on a schema of the version before, an up script makes one of its
    own version, and on one of its own version, a down script makes one of the version
    before. *)
Definition scripts_fit : Prop :=
  ∀ i m s, migrations asset pg !! i = Some m →
    (installed i s → ∃ s', exec (render ns (up_sql m)) s = Ok s' ∧ installed (S i) s')
    ∧ (installed (S i) s → ∃ s', exec (render ns (down_sql m)) s = Ok s' ∧ installed i s').

(** Schema and history at version [c]. *)
Definition at_version (c : nat) (d : Server) : Prop :=
  installed c (db_schema d)
  ∧ ∃ rows, db_history d = Some rows ∧ is_history asset sha256_hex pg rows ∧ length rows = c.

Lemma at_version_same c d d' : same d d' → at_version c d → at_version c d'.
Proof. unfold at_version. intros [-> ->]. done. Qed.

Lemma in_tx_ok {A} (m : MM A) (d d' : Server (Sch := Sch)) x : in_tx m d = (d', Ok x) →
  ∃ d1 d2, same d d1 ∧ m d1 = (d2, Ok x) ∧ same d2 d'.
Proof.
  unfold in_tx. intros (d1 & [] & [H1 _]%ask_ok & H)%mm_bind_ok. unfold or_rollback in H.
  destruct (then_commit m d1) as [d2 [y|e]] eqn:E; [|done]. injection H as -> ->.
  apply mm_bind_ok in E as (d3 & z & E1 & E2). apply mm_bind_ok in E2 as (d4 & [] & [E3 _]%ask_ok & [= -> ->]).
  eauto.
Qed.

Lemma in_tx_err {A} (m : MM A) (d d' : Server (Sch := Sch)) e : in_tx m d = (d', Err e) → same d d'.
Proof.
  unfold in_tx, mbind, mm_bind. pose proof (ask_same (Sch := Sch) pg (λ _, tt) d) as Hs.
  destruct (ask_db pg (λ _, tt) d) as [d1 [[]|e1]]; [|by intros [= <- _]].
  unfold or_rollback. destruct (then_commit m d1) as [d2 [y|e2]]; [done|]. by intros [= <- _].
Qed.

(** One turn of a migrator: executed, already done, or nothing. *)
Definition turn_result (direction : Direction.Direction) (i c c' : nat) (r : result bool MigrationError.MigrationError) : Prop :=
  match r, direction with
  | Ok true, Direction.Up => c = i ∧ c' = S i
  | Ok true, Direction.Down => c = S i ∧ c' = i
  | Ok false, Direction.Up => (i < c)%nat ∧ c' = c
  | Ok false, Direction.Down => (c ≤ i)%nat ∧ c' = c
  | Err _, _ => c' = c
  end.

Lemma pg_step_at i m direction c d : scripts_fit → migrations asset pg !! i = Some m → at_version c d →
  ∃ c', at_version c' (pg_step direction m d).1 ∧ turn_result direction i c c' (pg_step direction m d).2.
Proof.
  intros Hfit Hm Hat. destruct (pg_step direction m d) as [d' [x|e]] eqn:E; simpl.
  2:{ exists c. split; [|by destruct direction]. eapply at_version_same; [by eapply in_tx_err|done]. }
  pose proof (versions_count _ _ _ _ Hm) as Hv. destruct (Hfit i m (db_schema d) Hm) as [Hup Hdown].
  unfold MigrateDb.pg_step in E. apply in_tx_ok in E as (d1 & d2 & H1 & E & H2).
  apply mm_bind_ok in E as (d3 & [] & [H3 _]%ask_ok & E).
  apply mm_bind_ok in E as (d4 & live & [H4 Hl]%read_history_ok & E).
  apply mm_bind_ok in E as (d5 & [] & [= <- Hval] & E). 
  assert (same d d4) as Hd4 by (eapply same_trans; [done|]; by eapply same_trans).
  destruct (at_version_same _ _ _ Hd4 Hat) as [Hs (rows & Hr & Hh & Hc)].
  rewrite <-(proj1 Hd4) in Hup, Hdown.
  rewrite Hl in Hr. injection Hr as <-. rewrite (history_version _ _ _ _ Hh), Hc, Hv in E.
  pose proof (lookup_lt_Some _ _ _ Hm) as Hi. rewrite migrations_length in Hi.
  assert (length live ≤ 13)%nat as Hl13.
  { destruct Hh as (times & ? & ->). rewrite length_zip_with. lia. }
  destruct direction.
  - destruct (Z.leb_spec (Z.of_nat i + 1) (Z.of_nat c)).
    { injection E as <- <-. exists c. split; [|simpl; lia].
      eapply at_version_same; [exact H2|]. split; [done|]. eauto. }
    unfold u32_add, wrap_u32 in E. rewrite Z.mod_small in E by lia.
    destruct (Z.eqb_spec (Z.of_nat c + 1) (Z.of_nat i + 1)); [|done]. assert (c = i) as -> by lia.
    apply mm_bind_ok in E as (d6 & [] & [Hx Hhist]%run_sql_ok & E).
    apply mm_bind_ok in E as (d7 & [] & Hmiss & E).
    apply mm_bind_ok in E as (d8 & [] & Hrec & [= <- <-]).
    assert (same d6 d7) as [Hs7 Hh7].
    { destruct (_ =? latest_version asset pg); [eapply fail_if_missing_ok; exact Hmiss|].
      apply (f_equal fst) in Hmiss. change (d6 = d7) in Hmiss. by subst d7. }
    destruct (record_last asset sha256_hex now_ms pg m d7 d8 live) as [Hr8 Hs8];
      [congruence|done|by rewrite Hc|done|].
    exists (S i). split; [|done]. eapply at_version_same; [exact H2|].
    destruct (Hup Hs) as (s' & Es' & Hi'). split; [rewrite Hs8, Hs7; congruence|].
    exists (live ++ [row_of sha256_hex m now_ms]). split; [done|]. split; [|rewrite length_app; simpl; lia].
    apply history_snoc; [done|by rewrite Hc].
  - destruct (Z.ltb_spec (Z.of_nat c) (Z.of_nat i + 1)).
    { injection E as <- <-. exists c. split; [|simpl; lia].
      eapply at_version_same; [exact H2|]. split; [done|]. eauto. }
    destruct (Z.eqb_spec (Z.of_nat c) (Z.of_nat i + 1)); [|done]. assert (c = S i) as -> by lia.
    apply mm_bind_ok in E as (d6 & [] & [Hx Hhist]%run_sql_ok & E).
    apply mm_bind_ok in E as (d7 & [] & Hrec & [= <- <-]).
    destruct (forget_last asset sha256_hex debug pg m d6 d7 live i) as (rows & Hr7 & Hh7 & Hl7 & Hs7);
      [congruence|done|done|done|done|].
    exists i. split; [|done]. eapply at_version_same; [exact H2|].
    destruct (Hdown Hs) as (s' & Es' & Hi'). split; [rewrite Hs7; congruence|]. eauto.
Qed.

(** A turn of some migrator, on its own connection. *)
Record turn := mkTurn { tn_direction : Direction.Direction; tn_migration : Migration; tn_calls : option nat }.
Definition pg_turn (d : Server) (t : turn) : Server :=
  (pg_step (tn_direction t) (tn_migration t) (mkServer (db_schema d) (db_history d) (tn_calls t))).1.

(** C26.  On PostgreSQL the recorded versions always match the schema: after any interleaving of
    the steps of any number of migrators in both directions, each interrupted at any call, the
    history is exactly the rows of versions 1 to c for some c, with their names and checksums,
    and the schema counts as version c.  This is for scripts that do what they are for, an up
    script turning any schema of the version before into one of its own version and a down
    script back; a version may have several schemas, since the down script of version 8 leaves
    the enum label it added, which the up scripts of the versions below and of version 8 itself
    then tolerate. *)
Theorem postgres_history_matches_schema turns c d :
  scripts_fit → at_version c d → Forall (λ t, tn_migration t ∈ migrations asset pg) turns →
  ∃ c', at_version c' (foldl pg_turn d turns).
Proof.
  intros Hfit. revert c d. induction turns as [|t turns IH]; intros c d Hat Ht; [eauto|].
  apply Forall_cons in Ht as [[i Hi]%list_elem_of_lookup Ht]. simpl.
  edestruct (pg_step_at i (tn_migration t) (tn_direction t) c
    (mkServer (db_schema d) (db_history d) (tn_calls t))) as (c' & Hc' & _); [done|done|exact Hat|].
  by apply (IH c').
Qed.

(** ** A run to its end *)

Lemma in_tx_run {A} (m : MM A) (s s' : Sch) h h' x :
  m (mkServer s h None) = (mkServer s' h' None, Ok x) → in_tx m (mkServer s h None) = (mkServer s' h' None, Ok x).
Proof.
  intros E. unfold in_tx. erewrite bind_run by reflexivity. unfold or_rollback, then_commit.
  erewrite bind_run by exact E. reflexivity.
Qed.

Definition at_rest (s : Sch) (rows : list AppliedMigration) : Server := mkServer s (Some rows) None.

Lemma pg_step_up c m s s' rows :
  exec (render ns (up_sql m)) s = Ok s' → (S c = 13%nat → schema_complete catalog debug_labels pg s') →
  is_history asset sha256_hex pg rows → length rows = c → migrations asset pg !! c = Some m →
  pg_step Direction.Up m (at_rest s rows) = (at_rest s' (rows ++ [row_of sha256_hex m now_ms]), Ok true).
Proof.
  intros Hx Hcomp Hh Hl Hm. pose proof (versions_count _ _ _ _ Hm) as Hv.
  pose proof (lookup_lt_Some _ _ _ Hm) as Hi. rewrite migrations_length in Hi.
  apply in_tx_run.
  erewrite bind_run by reflexivity. erewrite bind_run by by apply (read_history_run asset sha256_hex).
  erewrite bind_run by (unfold of_result; rewrite (proj2 (validate_history_exact _ _ _ _ _) Hh); reflexivity).
  cbv beta zeta. rewrite (history_version _ _ _ _ Hh), Hl, Hv. rewrite (proj2 (Z.leb_gt _ _)) by lia.
  unfold u32_add, wrap_u32. rewrite Z.mod_small, Z.eqb_refl by lia. cbn [negb].
  erewrite bind_run by (apply run_sql_run; exact Hx).
  erewrite bind_run.
  2:{ rewrite latest_is_13. destruct (Z.eqb_spec (Z.of_nat c + 1) 13) as [E|E]; [|reflexivity].
      unfold fail_if_missing. erewrite bind_run by (apply Hcomp; lia). reflexivity. }
  erewrite bind_run; [reflexivity|]. apply (record_run asset); [done|by rewrite Hl].
Qed.

Lemma pg_step_down c m s s' rows :
  exec (render ns (down_sql m)) s = Ok s' → is_history asset sha256_hex pg rows → length rows = S c →
  migrations asset pg !! c = Some m →
  ∃ rows', pg_step Direction.Down m (at_rest s rows) = (at_rest s' rows', Ok true)
           ∧ is_history asset sha256_hex pg rows' ∧ length rows' = c.
Proof.
  intros Hx Hh Hl Hm. pose proof (versions_count _ _ _ _ Hm) as Hv.
  destruct (forget_run asset sha256_hex debug pg s' m rows c Hh Hl Hm) as (rows' & Hf & Hh' & Hl').
  exists rows'. split; [|done]. apply in_tx_run.
  erewrite bind_run by reflexivity. erewrite bind_run by by apply (read_history_run asset sha256_hex).
  erewrite bind_run by (unfold of_result; rewrite (proj2 (validate_history_exact _ _ _ _ _) Hh); reflexivity).
  cbv beta zeta. rewrite (history_version _ _ _ _ Hh), Hl, Hv. rewrite (proj2 (Z.ltb_ge _ _)) by lia.
  rewrite (proj2 (Z.eqb_eq _ _)) by lia. cbn [negb].
  erewrite bind_run by (apply run_sql_run; exact Hx). erewrite bind_run by exact Hf. reflexivity.
Qed.

(** The scripts between two versions, in the order they run. *)
Definition up_scripts (c n : nat) : list string :=
  (λ m, render ns (up_sql m)) <$> take n (drop c (migrations asset pg)).
Definition down_scripts (c n : nat) : list string :=
  reverse ((λ m, render ns (down_sql m)) <$> take n (drop c (migrations asset pg))).

Lemma up_scripts_S c n m : migrations asset pg !! c = Some m →
  up_scripts c (S n) = render ns (up_sql m) :: up_scripts (S c) n.
Proof. intros Hm. unfold up_scripts. by rewrite (drop_S _ _ _ Hm). Qed.
Lemma down_scripts_S c n m : migrations asset pg !! c = Some m →
  down_scripts c (S n) = down_scripts (S c) n ++ [render ns (down_sql m)].
Proof. intros Hm. unfold down_scripts. rewrite (drop_S _ _ _ Hm). simpl. by rewrite reverse_cons. Qed.
Lemma down_scripts_top c n m : migrations asset pg !! (c + n)%nat = Some m →
  down_scripts c (S n) = render ns (down_sql m) :: down_scripts c n.
Proof.
  intros Hm. unfold down_scripts. rewrite (take_S_r _ _ m) by (by rewrite lookup_drop).
  by rewrite fmap_app, reverse_app.
Qed.

Abbreviation pg_steps := (pg_steps exec catalog asset sha256_hex debug debug_labels now_ms ns).

Lemma pg_steps_up n : ∀ c s rows, scripts_fit → (∀ s, installed 13 s → schema_complete catalog debug_labels pg s) →
  installed c s → is_history asset sha256_hex pg rows → length rows = c → (c + n ≤ 13)%nat →
  ∃ s' rows', pg_steps Direction.Up (steps_between asset pg Direction.Up c (c + n)) (at_rest s rows)
           = (at_rest s' rows', Ok (steps_between asset pg Direction.Up c (c + n)))
           ∧ exec_all exec (up_scripts c n) s = Ok s' ∧ installed (c + n) s'
           ∧ is_history asset sha256_hex pg rows' ∧ length rows' = (c + n)%nat.
Proof.
  induction n as [|n IH]; intros c s rows Hfit Hcomp Hs Hh Hl Hn.
  { exists s, rows. rewrite Nat.add_0_r. unfold steps_between. by rewrite Nat.sub_diag. }
  destruct (lookup_lt_is_Some_2 (migrations asset pg) c) as [m Hm]; [rewrite migrations_length; lia|].
  pose proof (history_snoc asset sha256_hex pg rows m now_ms Hh) as Hh'. rewrite Hl in Hh'.
  destruct (proj1 (Hfit c m s Hm) Hs) as (s1 & Hx & Hs1).
  destruct (IH (S c) s1 (rows ++ [row_of sha256_hex m now_ms])) as (s' & rows' & Hr & He & Hi & ? & ?); try done.
  { auto. } { rewrite length_app. simpl. lia. } { lia. }
  assert (steps_between asset pg Direction.Up c (c + S n)
          = mkStep Direction.Up m :: steps_between asset pg Direction.Up (S c) (S c + n)) as ->.
  { unfold steps_between. rewrite (drop_S _ _ _ Hm). replace (c + S n - c)%nat with (S n) by lia.
    replace (S c + n - S c)%nat with n by lia. done. }
  exists s', rows'. replace (c + S n)%nat with (S c + n)%nat by lia. split.
  { cbn [MigrateDb.pg_steps]. erewrite bind_run by (apply (pg_step_up c m s s1); try done; intros E; apply Hcomp; by rewrite <-E).
    erewrite bind_run by exact Hr. reflexivity. }
  rewrite (up_scripts_S _ _ _ Hm). simpl. by rewrite Hx.
Qed.

Lemma pg_steps_down n : ∀ c s rows, scripts_fit → installed (c + n) s → is_history asset sha256_hex pg rows →
  length rows = (c + n)%nat → (c + n ≤ 13)%nat →
  ∃ s' rows', pg_steps Direction.Down (steps_between asset pg Direction.Down (c + n) c) (at_rest s rows)
           = (at_rest s' rows', Ok (steps_between asset pg Direction.Down (c + n) c))
           ∧ exec_all exec (down_scripts c n) s = Ok s' ∧ installed c s'
           ∧ is_history asset sha256_hex pg rows' ∧ length rows' = c.
Proof.
  induction n as [|n IH]; intros c s rows Hfit Hs Hh Hl Hn.
  { exists s, rows. rewrite Nat.add_0_r in *. unfold steps_between. by rewrite Nat.sub_diag. }
  destruct (lookup_lt_is_Some_2 (migrations asset pg) (c + n)%nat) as [m Hm]; [rewrite migrations_length; lia|].
  replace (c + S n)%nat with (S (c + n)) in * by lia.
  destruct (proj2 (Hfit (c + n)%nat m s Hm) Hs) as (s1 & Hx & Hs1).
  destruct (pg_step_down (c + n) m s s1 rows Hx Hh Hl Hm) as (rows1 & Hstep & Hh1 & Hl1).
  destruct (IH c s1 rows1 Hfit Hs1 Hh1 Hl1) as (s' & rows' & Hr & He & Hi & ? & ?); [lia|].
  assert (steps_between asset pg Direction.Down (S (c + n)) c
          = mkStep Direction.Down m :: steps_between asset pg Direction.Down (c + n) c) as ->.
  { unfold steps_between. replace (S (c + n) - c)%nat with (S n) by lia. replace (c + n - c)%nat with n by lia.
    rewrite (take_S_r _ _ m), reverse_snoc; [done|]. by rewrite lookup_drop. }
  exists s', rows'. split.
  { cbn [MigrateDb.pg_steps]. erewrite bind_run by exact Hstep. erewrite bind_run by exact Hr. reflexivity. }
  rewrite (down_scripts_top _ _ _ Hm). simpl. by rewrite Hx.
Qed.

(** The down scripts of the versions from [c] to [t] undo what their up scripts did. *)
Definition undone (c t : nat) : Prop :=
  ∀ i m s s', (c ≤ i < t)%nat → migrations asset pg !! i = Some m → installed i s →
    exec (render ns (up_sql m)) s = Ok s' → exec (render ns (down_sql m)) s' = Ok s.

Lemma undone_back n : ∀ c s s', scripts_fit → undone c (c + n) → installed c s → (c + n ≤ 13)%nat →
  exec_all exec (up_scripts c n) s = Ok s' → exec_all exec (down_scripts c n) s' = Ok s.
Proof.
  induction n as [|n IH]; intros c s s' Hfit Hu Hs Hn; [by intros [= ->]|].
  destruct (lookup_lt_is_Some_2 (migrations asset pg) c) as [m Hm]; [rewrite migrations_length; lia|].
  destruct (proj1 (Hfit c m s Hm) Hs) as (s1 & Hx & Hs1).
  rewrite (up_scripts_S _ _ _ Hm), (down_scripts_S _ _ _ Hm), exec_all_app. simpl. rewrite Hx.
  intros He%IH; [|done|intros i m' a a' Hi; apply Hu; lia|done|lia]. rewrite He. simpl.
  by rewrite (Hu c m s s1 ltac:(lia) Hm Hs Hx).
Qed.

Definition to_target (t : nat) : MigrateOptions := mkMigrateOptions (Some (Z.of_nat t)) None false.
Abbreviation migrate_postgres := (migrate_postgres exec catalog asset sha256_hex debug debug_labels now_ms ns).

(** The start both directions share. *)
Lemma migrate_run direction c t s s' rows rows' :
  (c = 0%nat → existsb (String.eqb "headgate_job") (ct_tables (catalog s)) = false) →
  is_history asset sha256_hex pg rows → length rows = c → (t ≤ 13)%nat →
  right_way direction (Z.of_nat c) (Z.of_nat t) →
  pg_steps direction (steps_between asset pg direction c t) (at_rest s rows)
  = (at_rest s' rows', Ok (steps_between asset pg direction c t)) →
  migrate_postgres direction (to_target t) (at_rest s rows)
  = (at_rest s' rows', Ok (mkMigrateResult false (steps_between asset pg direction c t))).
Proof.
  intros Hn Hh Hl Ht Hw Hr.
  destruct (applied_run catalog asset sha256_hex pg s rows Hh) as (state & Ha & Hs).
  { intros ->. simpl in Hl. by apply Hn. }
  unfold MigrateDb.migrate_postgres, migrate_with. erewrite bind_run by exact Ha. cbv beta iota.
  assert (Migrate.plan asset sha256_hex debug pg rows direction (to_target t)
          = Ok (steps_between asset pg direction c t)) as Hp.
  { rewrite plan_ok; [|intros ? [= <-]; lia|done|unfold plan_target; simpl; lia|by rewrite Hl].
    unfold plan_target. simpl. by rewrite Hl, Nat2Z.id. }
  destruct state; [|done|]; (erewrite bind_run by (unfold of_result; rewrite Hp; reflexivity)); cbn [dry_run to_target];
    (erewrite bind_run by reflexivity); (erewrite bind_run by exact Hr); reflexivity.
Qed.

End postgres_spec.

(** ** MySQL *)

Section mysql_spec.
Context {Sch : Type} (exec : string → Sch → result Sch string) (catalog : Sch → Catalog).
Context (asset : string → string) (sha256_hex debug : string → string) (debug_labels : list string → string).
Context (now_ms : Z) (database lock_namespace : string).
Context (installed : nat → Sch → Prop) (statements : nat → list string).
Abbreviation my := Backend.Mysql.
Abbreviation run_statements := (run_statements exec).
Abbreviation exec_all := (exec_all exec).

(** A schema of version [i] on which runs of the next version's statements were cut short, any
    number of times. *)
Inductive partial (i : nat) : Sch → Prop :=
  | partial_start s : installed i s → partial i s
  | partial_run done rest s s' :
      partial i s → statements i = done ++ rest → exec_all done s = Ok s' → partial i s'.

(** What the up scripts are for: version i+1 is split into [statements i], which the server
    executes on every schema of version i; and wherever it executes all of them, also after runs
    that were cut short, the schema is one of version i+1.  That it does execute them again
    after such a run is not part of this. *)
Definition scripts_build : Prop :=
  ∀ i m, migrations asset my !! i = Some m →
    split_statements (up_sql m) = Ok (statements i)
    ∧ (∀ s, installed i s → is_ok (exec_all (statements i) s) = true)
    ∧ ∀ s s', partial i s → exec_all (statements i) s = Ok s' → installed (S i) s'.

(** Version [c] recorded, and perhaps some statements of the next one executed. *)
Definition interrupted_at (c : nat) (d : Server) : Prop :=
  (∃ rows, db_history d = Some rows ∧ is_history asset sha256_hex my rows ∧ length rows = c)
  ∧ if (c <? 13)%nat then partial c (db_schema d) else installed 13 (db_schema d).

Lemma interrupted_same c d d' : same d d' → interrupted_at c d → interrupted_at c d'.
Proof. unfold interrupted_at. intros [-> ->]. done. Qed.

(** ** Whatever the outcome *)

Lemma bind_any {A B} (m : MM A) (k : A → MM B) (Q : Server (Sch := Sch) → Prop) d :
  (∀ d1 e, m d = (d1, Err e) → Q d1) → (∀ d1 x, m d = (d1, Ok x) → Q (k x d1).1) →
  Q (@mbind MM mm_bind A B k m d).1.
Proof. unfold mbind, mm_bind. intros H1 H2. destruct (m d) as [d1 [x|e]]; eauto. Qed.

(** Computations that leave schema and history alone. *)
Definition leaves_alone {A} (m : MM (Sch := Sch) A) : Prop := ∀ d, same d (m d).1.

Lemma quiet_bind {A B} (m : MM A) (k : A → MM B) : leaves_alone m → (∀ x, leaves_alone (k x)) → leaves_alone (@mbind MM mm_bind A B k m).
Proof.
  intros Hm Hk d. apply bind_any; intros d1 x E; pose proof (Hm d) as H; rewrite E in H; [done|].
  eapply same_trans; [exact H|apply Hk].
Qed.
Lemma quiet_ret {A} (x : A) : leaves_alone (@mret MM mm_ret A x).
Proof. done. Qed.
Lemma quiet_ask {A} b (f : Server → A) : leaves_alone (ask_db b f).
Proof. intros d. apply ask_same. Qed.
Lemma quiet_read b : leaves_alone (read_history b).
Proof.
  apply quiet_bind; [|done]. intros d. unfold with_history, server_call.
  destruct (db_calls d) as [[|n]|], (db_history d) eqn:E; cbn; rewrite ?E; done.
Qed.
Lemma quiet_missing b : leaves_alone (missing_schema catalog debug_labels b).
Proof.
  unfold missing_schema. do 4 (apply quiet_bind; [apply quiet_ask|intros ?]).
  destruct b; repeat (apply quiet_bind; [apply quiet_ask|intros ?]); apply quiet_ret.
Qed.
Lemma quiet_fail_if b : leaves_alone (fail_if_missing catalog debug_labels b).
Proof. apply quiet_bind; [apply quiet_missing|]. by intros [|? ?]. Qed.
Lemma quiet_applied b : leaves_alone (applied catalog b).
Proof.
  do 2 (apply quiet_bind; [apply quiet_ask|intros ?]). destruct (negb _); [apply quiet_ret|].
  apply quiet_bind; [apply quiet_read|intros ?; apply quiet_ret].
Qed.

Lemma run_statements_any l : ∀ d, ∃ done rest, l = done ++ rest
  ∧ exec_all done (db_schema d) = Ok (db_schema (run_statements l d).1)
  ∧ db_history (run_statements l d).1 = db_history d
  ∧ ((run_statements l d).2 = Ok tt → rest = []).
Proof.
  induction l as [|x l IH]; intros d; [by exists [], []|]. cbn [MigrateDb.run_statements].
  unfold mbind, mm_bind. destruct (run_sql exec my x d) as [d1 [[]|e]] eqn:E.
  - apply run_sql_ok in E as [E1 E2]. destruct (IH d1) as (dn & rest & -> & H1 & H2 & H3).
    exists (x :: dn), rest. split; [done|]. simpl. rewrite E1. split; [done|]. by rewrite H2, E2.
  - exists [], (x :: l). split; [done|]. simpl. revert E. unfold run_sql, server_call.
    destruct (db_calls d) as [[|n]|]; cbn; [by intros [= <- _]|..];
      (destruct (exec x (db_schema d)); [done|by intros [= <- _]]).
Qed.

Lemma record_any b m (d : Server (Sch := Sch)) : same d (record_version sha256_hex now_ms b m d).1
  ∨ (record_version sha256_hex now_ms b m d).2 = Ok tt.
Proof.
  unfold record_version, with_history, server_call. destruct (db_calls d) as [[|n]|], (db_history d) as [rows|] eqn:E; cbn;
    rewrite ?E; try (by left); destruct (insert_version _ rows); cbn; auto; left; by rewrite ?E.
Qed.

Abbreviation my_step := (my_step exec catalog asset sha256_hex debug_labels now_ms).
Abbreviation my_steps := (my_steps exec catalog asset sha256_hex debug_labels now_ms).

(** The next version's step: done and recorded, or still to do. *)
Lemma my_step_any c m d : scripts_build → interrupted_at c d → migrations asset my !! c = Some m →
  interrupted_at (match (my_step Direction.Up m d).2 with Ok _ => S c | Err _ => c end) (my_step Direction.Up m d).1.
Proof.
  intros Hres [(rows & Hr & Hh & Hl) Hp] Hm. destruct (Hres c m Hm) as (Hsplit & _ & Hrun).
  pose proof (lookup_lt_Some _ _ _ Hm) as Hc. rewrite migrations_length in Hc.
  rewrite (proj2 (Nat.ltb_lt _ _) Hc) in Hp.
  unfold MigrateDb.my_step. rewrite Hsplit. erewrite bind_run by reflexivity.
  unfold mbind, mm_bind. destruct (run_statements_any (statements c) d) as (dn & rest & Hd & He & Hh1 & Hrest).
  destruct (run_statements (statements c) d) as [d1 [[]|e]]; simpl in He, Hh1, Hrest.
  2:{ cbn [fst snd]. split; [rewrite Hh1; eauto|]. rewrite (proj2 (Nat.ltb_lt _ _) Hc). by eapply partial_run. }
  rewrite (Hrest eq_refl), app_nil_r in Hd. subst dn. pose proof (Hrun _ _ Hp He) as Hin.
  assert (leaves_alone (if mg_version m =? latest_version asset my then fail_if_missing catalog debug_labels my
                 else @mret MM mm_ret _ tt)) as Hq by (destruct (_ =? _); [apply quiet_fail_if|apply quiet_ret]).
  assert (∀ d2, same d1 d2 → interrupted_at c d2) as Hback.
  { intros d2 Hs. eapply interrupted_same; [exact Hs|]. split; [rewrite Hh1; eauto|].
    rewrite (proj2 (Nat.ltb_lt _ _) Hc). eapply partial_run; [exact Hp|by rewrite app_nil_r|done]. }
  specialize (Hq d1). revert Hq. generalize (if mg_version m =? latest_version asset my
    then fail_if_missing catalog debug_labels my else @mret MM mm_ret _ tt). intros check Hq.
  destruct (check d1) as [d2 [[]|e]]; [|by apply Hback].
  destruct (record_any my m d2) as [Hs|Hok]; destruct (record_version sha256_hex now_ms my m d2) as [d3 [[]|e]] eqn:Erec;
    try (apply Hback; eapply same_trans; [exact Hq|exact Hs]); try done.
  all: destruct Hq as [Hq1 Hq2]; simpl in Hq1, Hq2;
    destruct (record_last asset sha256_hex now_ms my m d2 d3 rows) as [Hr3 Hs3];
    [congruence|done|by rewrite Hl|done|].
  all: cbn [fst snd]; split; [eexists; split; [exact Hr3|]; split; [apply history_snoc; [done|by rewrite Hl]|rewrite length_app; simpl; lia]|].
  all: rewrite Hs3, Hq1; destruct (Nat.ltb_spec (S c) 13); [by apply partial_start|]; by replace (S c) with 13%nat in Hin by lia.
Qed.

Lemma my_steps_any n : ∀ c d, scripts_build → interrupted_at c d → (c + n ≤ 13)%nat →
  ∃ c', (c ≤ c' ≤ c + n)%nat
    ∧ interrupted_at c' (my_steps Direction.Up (steps_between asset my Direction.Up c (c + n)) d).1.
Proof.
  induction n as [|n IH]; intros c d Hres Hd Hn.
  { exists c. split; [lia|]. unfold steps_between. by rewrite Nat.add_0_r, Nat.sub_diag. }
  destruct (lookup_lt_is_Some_2 (migrations asset my) c) as [m Hm]; [rewrite migrations_length; lia|].
  assert (steps_between asset my Direction.Up c (c + S n)
          = mkStep Direction.Up m :: steps_between asset my Direction.Up (S c) (S c + n)) as ->.
  { unfold steps_between. rewrite (drop_S _ _ _ Hm). replace (c + S n - c)%nat with (S n) by lia.
    replace (S c + n - S c)%nat with n by lia. done. }
  cbn [MigrateDb.my_steps ms_migration]. pose proof (my_step_any c m d Hres Hd Hm) as H1.
  unfold mbind, mm_bind. destruct (my_step Direction.Up m d) as [d1 [[]|e]]; simpl in H1.
  - destruct (IH (S c) d1 Hres H1) as (c' & Hc' & H2); [lia|]. exists c'. split; [lia|].
    by destruct (my_steps _ _ d1) as [d2 [?|?]].
  - exists c. split; [lia|done].
Qed.

Lemma plan_up c t rows : is_history asset sha256_hex my rows → length rows = c → (c ≤ t ≤ 13)%nat →
  Migrate.plan asset sha256_hex debug my rows Direction.Up (to_target t)
  = Ok (steps_between asset my Direction.Up c t).
Proof.
  intros Hh Hl Ht. rewrite plan_ok; [|intros ? [= <-]; lia|done|unfold plan_target; simpl; lia|unfold plan_target; simpl; lia].
  unfold plan_target. simpl. by rewrite Hl, Nat2Z.id.
Qed.

Lemma create_same b (d : Server (Sch := Sch)) rows : db_history d = Some rows → same d (create_history b d).1.
Proof. intros E. unfold create_history, server_call. destruct (db_calls d) as [[|n]|]; cbn; rewrite ?E; done. Qed.

Section runs.
Context (lock_granted lock_released : bool).
Abbreviation migrate_mysql := (migrate_mysql exec catalog asset sha256_hex debug debug_labels now_ms
  lock_granted lock_released database lock_namespace).
Abbreviation locked_run := (migrate_mysql_locked exec catalog asset sha256_hex debug debug_labels now_ms).

Lemma locked_any {A} (m : MM A) (Q : Server (Sch := Sch) → Prop) d : (∀ d d', same d d' → Q d → Q d') → Q d →
  (∀ d', same d d' → Q (m d').1) →
  Q (locked sha256_hex lock_granted lock_released database lock_namespace m d).1.
Proof.
  intros HQ Hd Hm. unfold locked. apply bind_any.
  { intros d1 e E. pose proof (ask_same my (λ _, database) d) as H. rewrite E in H. eauto. }
  intros d1 db [H1 _]%ask_ok. apply bind_any; intros d2 x [= <- _]; [eauto|]. apply bind_any.
  { intros d3 e E. pose proof (ask_same my (λ _, lock_granted) d1) as H. rewrite E in H. eauto. }
  intros d3 g [H3 _]%ask_ok. assert (same d d3) as Hs by (by eapply same_trans).
  destruct (negb g); [simpl; eauto|]. unfold then_release. specialize (Hm d3 Hs).
  destruct (m d3) as [d4 r]. pose proof (ask_same my (λ _, lock_released) d4) as H4.
  destruct (ask_db my (λ _, lock_released) d4) as [d5 rel]. simpl in *. eauto.
Qed.

Lemma locked_run_any c t d : scripts_build → interrupted_at c d → (c ≤ t ≤ 13)%nat →
  ∃ c', (c ≤ c' ≤ t)%nat ∧ interrupted_at c' (locked_run Direction.Up (to_target t) d).1.
Proof.
  intros Hres Hd Ht. unfold migrate_mysql_locked. apply bind_any.
  { intros d1 e E. exists c. split; [lia|]. pose proof (quiet_read my d) as H. rewrite E in H.
    by eapply interrupted_same. }
  intros d1 live [H1 Hlive]%read_history_ok. apply (interrupted_same c) in H1 as Hi; [|done].
  pose proof Hi as [(rows & Hr & Hh & Hl) _]. rewrite Hlive in Hr. injection Hr as <-.
  erewrite bind_run by (unfold of_result; rewrite (plan_up c t) by done; reflexivity).
  destruct (my_steps_any (t - c) c d1 Hres Hi) as (c' & Hc' & H2); [lia|].
  replace (c + (t - c))%nat with t in * by lia. eauto.
Qed.

Lemma migrate_any c t d : scripts_build → interrupted_at c d → (c ≤ t ≤ 13)%nat →
  ∃ c', (c ≤ c' ≤ t)%nat ∧ interrupted_at c' (migrate_mysql Direction.Up (to_target t) d).1.
Proof.
  intros Hres Hd Ht. set (Q d := ∃ c', (c ≤ c' ≤ t)%nat ∧ interrupted_at c' d).
  assert (∀ d d', same d d' → Q d → Q d') as HQ by (intros ? ? ? (c' & ? & ?); exists c'; eauto using interrupted_same).
  assert (∀ d', same d d' → Q d') as Hquiet by (intros d' Hs; exists c; split; [lia|by eapply interrupted_same]).
  change (Q (migrate_mysql Direction.Up (to_target t) d).1). unfold MigrateDb.migrate_mysql.
  apply bind_any; intros d0 x [= <- _]; [by apply Hquiet|]. unfold migrate_with. apply bind_any.
  { intros d1 e E. pose proof (quiet_applied my d) as H. rewrite E in H. by apply Hquiet. }
  intros d1 [state rows] E. pose proof (quiet_applied my d) as H1. rewrite E in H1. simpl in H1. clear E.
  destruct state; try (by apply Hquiet).
  all: apply bind_any; intros d2 planned [= <- _]; [by apply Hquiet|]; cbn [dry_run to_target]; apply bind_any;
    intros d3 u E; pose proof Hd as [(rows' & Hr & _) _];
    pose proof (create_same my d1 rows' ltac:(destruct H1 as [_ ->]; done)) as H3; rewrite E in H3; simpl in H3;
    [apply Hquiet; by eapply same_trans|].
  all: apply bind_any; intros d4 executed E4;
    pose proof (locked_any (locked_run Direction.Up (to_target t)) Q d3 HQ
      ltac:(apply Hquiet; by eapply same_trans)
      ltac:(intros d' Hs; apply locked_run_any; [done| |done]; eapply interrupted_same; [|exact Hd];
            eapply same_trans; [exact H1|]; eapply same_trans; [exact H3|exact Hs])) as H4;
    rewrite E4 in H4; exact H4.
Qed.
End runs.

Lemma run_statements_run l s s' h : exec_all l s = Ok s' →
  run_statements l (mkServer s h None) = (mkServer s' h None, Ok tt).
Proof.
  revert s. induction l as [|x l IH]; intros s; cbn [MigrateSpec.exec_all MigrateDb.run_statements]; [by intros [= ->]|].
  destruct (exec x s) as [s1|] eqn:E; [|done]. intros H. erewrite bind_run by by apply run_sql_run. by apply IH.
Qed.

(** The server rejects a statement: those before it have taken effect. *)
Lemma run_statements_rejected l s e h : exec_all l s = Err e →
  ∃ done rest s', l = done ++ rest ∧ exec_all done s = Ok s'
    ∧ run_statements l (mkServer s h None) = (mkServer s' h None, Err (MigrationError.Mysql e)).
Proof.
  revert s. induction l as [|x l IH]; intros s; cbn [MigrateSpec.exec_all MigrateDb.run_statements]; [done|].
  destruct (exec x s) as [s1|e1] eqn:E.
  - intros (dn & rest & s' & -> & H1 & H2)%IH. exists (x :: dn), rest, s'. split; [done|]. simpl. rewrite E.
    split; [done|]. erewrite bind_run by by apply run_sql_run. exact H2.
  - intros [= ->]. exists [], (x :: l), s. split; [done|]. split; [done|].
    unfold mbind, mm_bind, run_sql, server_call. cbn [db_calls db_schema]. by rewrite E.
Qed.

Lemma my_step_run c m s s' rows :
  split_statements (up_sql m) = Ok (statements c) → exec_all (statements c) s = Ok s' →
  (S c = 13%nat → schema_complete catalog debug_labels my s') →
  is_history asset sha256_hex my rows → length rows = c → migrations asset my !! c = Some m →
  my_step Direction.Up m (mkServer s (Some rows) None)
  = (mkServer s' (Some (rows ++ [row_of sha256_hex m now_ms])) None, Ok tt).
Proof.
  intros Hsplit Hrun Hcomp Hh Hl Hm.
  pose proof (versions_count _ _ _ _ Hm) as Hv. unfold MigrateDb.my_step. rewrite Hsplit.
  erewrite bind_run by reflexivity. erewrite bind_run by by apply run_statements_run.
  erewrite bind_run; [apply (record_run asset); [done|by rewrite Hl]|].
  rewrite latest_is_13, Hv. destruct (Z.eqb_spec (Z.of_nat c + 1) 13) as [E|E]; [|reflexivity].
  unfold fail_if_missing. erewrite bind_run by (apply Hcomp; lia). reflexivity.
Qed.

Lemma steps_between_S c n m : migrations asset my !! c = Some m →
  steps_between asset my Direction.Up c (c + S n)
  = mkStep Direction.Up m :: steps_between asset my Direction.Up (S c) (S c + n).
Proof.
  intros Hm. unfold steps_between. rewrite (drop_S _ _ _ Hm). replace (c + S n - c)%nat with (S n) by lia.
  by replace (S c + n - S c)%nat with n by lia.
Qed.

Lemma my_steps_run n : ∀ c s s1 rows, scripts_build →
  (∀ s, installed 13 s → schema_complete catalog debug_labels my s) →
  partial c s → exec_all (statements c) s = Ok s1 →
  is_history asset sha256_hex my rows → length rows = c → (c + S n ≤ 13)%nat →
  ∃ s' rows', my_steps Direction.Up (steps_between asset my Direction.Up c (c + S n)) (mkServer s (Some rows) None)
           = (mkServer s' (Some rows') None, Ok (steps_between asset my Direction.Up c (c + S n)))
           ∧ installed (c + S n) s' ∧ is_history asset sha256_hex my rows' ∧ length rows' = (c + S n)%nat.
Proof.
  induction n as [|n IH]; intros c s s1 rows Hres Hcomp Hp Hx Hh Hl Hn;
    (destruct (lookup_lt_is_Some_2 (migrations asset my) c) as [m Hm]; [rewrite migrations_length; lia|]);
    pose proof (history_snoc asset sha256_hex my rows m now_ms Hh ltac:(by rewrite Hl)) as Hh';
    destruct (Hres c m Hm) as (Hsplit & _ & Hbuild); pose proof (Hbuild s s1 Hp Hx) as Hs1;
    pose proof (my_step_run c m s s1 rows Hsplit Hx ltac:(intros E; apply Hcomp; by rewrite <-E) Hh Hl Hm) as Hstep;
    rewrite (steps_between_S c _ m Hm); cbn [MigrateDb.my_steps]; erewrite bind_run by exact Hstep.
  - replace (c + 1)%nat with (S c) by lia. unfold steps_between. rewrite Nat.add_0_r, Nat.sub_diag. simpl.
    do 2 eexists. split; [reflexivity|]. split_and!; [done|exact Hh'|rewrite length_app; simpl; lia].
  - destruct (lookup_lt_is_Some_2 (migrations asset my) (S c)) as [m1 Hm1]; [rewrite migrations_length; lia|].
    destruct (Hres (S c) m1 Hm1) as (_ & Hfresh & _). specialize (Hfresh s1 Hs1).
    destruct (exec_all (statements (S c)) s1) as [s2|] eqn:E2; [|done].
    destruct (IH (S c) s1 s2 (rows ++ [row_of sha256_hex m now_ms])) as (s' & rows' & Hr & ? & ? & ?);
      [done|done|by apply partial_start|done|done|rewrite length_app; simpl; lia|lia|].
    exists s', rows'. replace (c + S (S n))%nat with (S c + S n)%nat by lia. split; [|done].
    erewrite bind_run by exact Hr. reflexivity.
Qed.

(** The next version's statements are rejected: nothing is recorded. *)
Lemma my_steps_rejected n c s e rows m : migrations asset my !! c = Some m →
  split_statements (up_sql m) = Ok (statements c) → partial c s → exec_all (statements c) s = Err e →
  ∃ s', my_steps Direction.Up (steps_between asset my Direction.Up c (c + S n)) (mkServer s (Some rows) None)
        = (mkServer s' (Some rows) None, Err (MigrationError.Mysql e)) ∧ partial c s'.
Proof.
  intros Hm Hsplit Hp Hx. apply (run_statements_rejected _ _ _ (Some rows)) in Hx as (dn & rest & s' & Hd & H1 & H2).
  exists s'. split; [|by eapply partial_run]. rewrite (steps_between_S c _ m Hm). cbn [MigrateDb.my_steps ms_migration].
  unfold MigrateDb.my_step. rewrite Hsplit. unfold mbind, mm_bind, of_result. by rewrite H2.
Qed.

(** A run under the lock, left alone, by what its steps do. *)
Lemma migrate_mysql_run c t s rows s' rows' r :
  is_ok (mysql_migration_lock_name sha256_hex lock_namespace "validation") = true →
  is_ok (mysql_migration_lock_name sha256_hex lock_namespace database) = true →
  (c = 0%nat → existsb (String.eqb "headgate_job") (ct_tables (catalog s)) = false) →
  is_history asset sha256_hex my rows → length rows = c → (c ≤ t ≤ 13)%nat →
  my_steps Direction.Up (steps_between asset my Direction.Up c t) (mkServer s (Some rows) None)
  = (mkServer s' (Some rows') None, r) →
  migrate_mysql exec catalog asset sha256_hex debug debug_labels now_ms true true database lock_namespace
    Direction.Up (to_target t) (mkServer s (Some rows) None)
  = (mkServer s' (Some rows') None, match r with Ok x => Ok (mkMigrateResult false x) | Err e => Err e end).
Proof.
  intros Hl1 Hl2 Hn Hh Hl Ht Hsteps.
  destruct (mysql_migration_lock_name sha256_hex lock_namespace "validation") as [n1|] eqn:E1; [|done].
  destruct (mysql_migration_lock_name sha256_hex lock_namespace database) as [n2|] eqn:E2; [|done].
  destruct (applied_run catalog asset sha256_hex my s rows Hh) as (state & Ha & Hs).
  { intros ->. simpl in Hl. by apply Hn. }
  assert (locked sha256_hex true true database lock_namespace
            (migrate_mysql_locked exec catalog asset sha256_hex debug debug_labels now_ms Direction.Up (to_target t))
            (mkServer s (Some rows) None)
          = (mkServer s' (Some rows') None, r)) as Hlock.
  { unfold locked. erewrite bind_run by reflexivity. erewrite bind_run by (unfold of_result; rewrite E2; reflexivity).
    erewrite bind_run by reflexivity. cbn [negb]. unfold then_release, migrate_mysql_locked.
    erewrite bind_run by by apply (read_history_run asset sha256_hex).
    erewrite bind_run by (unfold of_result; rewrite (plan_up c t) by (done || lia); reflexivity).
    cbn [db_schema db_history]. rewrite Hsteps. by destruct r. }
  unfold MigrateDb.migrate_mysql. erewrite bind_run by (unfold of_result; rewrite E1; reflexivity).
  unfold migrate_with. erewrite bind_run by exact Ha. cbv beta iota.
  destruct state; [|done|];
    (erewrite bind_run by (unfold of_result; rewrite (plan_up c t) by (done || lia); reflexivity));
    cbn [dry_run to_target]; (erewrite bind_run by reflexivity);
    (destruct r; [erewrite bind_run by exact Hlock|erewrite bind_err by exact Hlock]; reflexivity).
Qed.

End mysql_spec.

(** ** Evaluations *)

(** Version 1 cut short after it created the job table: with an empty history the schema counts
    as unversioned, so migrating is refused, and adopting is refused while objects are
    missing. *)
Lemma first_version_cut_short {Sch} exec (catalog : Sch → Catalog) asset sha256_hex debug debug_labels now_ms
    granted released database namespace s options n :
  mysql_migration_lock_name sha256_hex namespace "validation" = Ok n →
  existsb (String.eqb "headgate_job") (ct_tables (catalog s)) = true →
  (migrate_mysql exec catalog asset sha256_hex debug debug_labels now_ms granted released database namespace
     Direction.Up options (mkServer s (Some []) None)).2 = Err MigrationError.UnversionedSchema.
Proof.
  intros E1 E2. unfold migrate_mysql. erewrite bind_run by (unfold of_result; rewrite E1; reflexivity).
  unfold migrate_with. erewrite bind_run; [|unfold applied; erewrite bind_run by reflexivity;
    erewrite bind_run by reflexivity; cbn [db_history negb];
    erewrite bind_run by (apply (read_history_run id id Backend.Mysql), history_nil); reflexivity].
  cbv beta iota. unfold unrecorded, has_table. cbn [db_schema]. by rewrite E2.
Qed.

(** A byte outside ASCII is written as a character of its own: two bytes become four. *)
Lemma split_reencodes :
  split_statements (String "195" (str1 "169"))
  = Ok [String "195" (String "131" (String "194" (str1 "169")))].
Proof. vm_compute. reflexivity. Qed.

(** What a demonstration server shows of the installed version. *)
Definition demo_catalog (s : nat) : Catalog :=
  match s with
  | O => mkCatalog [] [] [] [] [] None None
  | _ => mkCatalog TABLES (POSTGRES_COLUMNS ++ MYSQL_COLUMNS) (POSTGRES_INDEXES ++ MYSQL_INDEXES)
           (POSTGRES_TRIGGERS ++ MYSQL_TRIGGERS) STATES
           (Some "enum('pending','scheduled','available','running','retryable','completed','archived','cancelled','quarantined','undecodable')")
           (Some "enum('queue','discard','cancel_running','cancel_incoming')")
  end.

Fixpoint script_index (f : Migration → string) (sql : string) (i : nat) (l : list Migration) : option nat :=
  match l with
  | [] => None
  | m :: l => if String.eqb (f m) sql then Some i else script_index f sql (S i) l
  end.

(** A PostgreSQL server: the version installed, and whether the enum has the label of version 8,
    which only the down script of version 1 removes. *)
Definition demo_pg_exec (sql : string) (s : nat * bool) : result (nat * bool) string :=
  match script_index up_sql sql 0 (migrations id Backend.Postgres),
        script_index down_sql sql 0 (migrations id Backend.Postgres) with
  | Some i, _ => if (s.1 =? i)%nat then Ok (S i, s.2 || (i =? 7)%nat) else Err "wrong version"
  | None, Some i => if (s.1 =? S i)%nat then Ok (i, s.2 && negb (i =? 0)%nat) else Err "wrong version"
  | None, None => Err "syntax error"
  end.

Definition demo_pg_installed (c : nat) (s : nat * bool) : Prop :=
  s.1 = c ∧ ((8 ≤ c)%nat → s.2 = true) ∧ (c = 0%nat → s.2 = false).

(** A MySQL server: the version installed.  A script also runs on the version it builds, unless
    its statement has no guard, as that of version 3. *)
Definition demo_my_exec (sql : string) (s : nat) : result nat string :=
  match script_index up_sql sql 0 (migrations id Backend.Mysql) with
  | Some i => if (s =? i)%nat || ((s =? S i) && negb (i =? 2))%nat then Ok (S i) else Err "duplicate column"
  | None => Err "syntax error"
  end.

Definition demo_statements (i : nat) : list string :=
  match migrations id Backend.Mysql !! i with Some m => [up_sql m] | None => [] end.

Lemma demo_complete b : schema_complete demo_catalog (λ _, "") b 13%nat.
Proof. intros h. destruct b; vm_compute; reflexivity. Qed.

Definition demo_pg_catalog (s : nat * bool) : Catalog := demo_catalog s.1.

Lemma demo_pg_complete s : demo_pg_installed 13 s → schema_complete demo_pg_catalog (λ _, "") Backend.Postgres s.
Proof. destruct s as [v l]. intros [E _] h. simpl in E. subst v. vm_compute. reflexivity. Qed.

Lemma demo_pg_runs i m l : migrations id Backend.Postgres !! i = Some m →
  demo_pg_exec (render default_namespace (up_sql m)) (i, l) = Ok (S i, l || (i =? 7)%nat)
  ∧ demo_pg_exec (render default_namespace (down_sql m)) (S i, l) = Ok (i, l && negb (i =? 0)%nat).
Proof.
  intros Hm. pose proof (lookup_lt_Some _ _ _ Hm) as Hi. rewrite migrations_length in Hi.
  do 13 (destruct i as [|i]; [injection Hm as <-; by destruct l; vm_compute|]). lia.
Qed.

Lemma demo_fit : scripts_fit demo_pg_exec id default_namespace demo_pg_installed.
Proof.
  intros i m [v l] Hm. destruct (demo_pg_runs i m l Hm) as [Hu Hd].
  split; intros (E & H8 & H0); simpl in *; subst v; [rewrite Hu|rewrite Hd]; eexists; (split; [done|]);
    unfold demo_pg_installed; simpl.
  - split_and!; [done| |done]. intros H. destruct (Nat.eqb_spec i 7); [by rewrite orb_true_r|]. by rewrite H8 by lia.
  - split_and!; [done| |].
    + intros H. rewrite H8 by lia. by destruct (Nat.eqb_spec i 0); [lia|].
    + intros ->. by rewrite andb_false_r.
Qed.

Definition demo_rows (b : Backend.Backend) (c : nat) : list AppliedMigration :=
  (λ m, row_of id m 5) <$> take c (migrations id b).

Lemma demo_history b c : (c ≤ 13)%nat → is_history id id b (demo_rows b c).
Proof.
  intros Hc. exists (replicate c 5). rewrite length_replicate. split; [done|]. unfold demo_rows.
  assert (length (take c (migrations id b)) = c) as El by (rewrite length_take, migrations_length; lia).
  revert El. generalize (take c (migrations id b)). intros l <-. clear.
  induction l as [|m l IH]; [done|]. simpl. by rewrite <-IH.
Qed.

Lemma demo_rows_length b c : (c ≤ 13)%nat → length (demo_rows b c) = c.
Proof. intros Hc. unfold demo_rows. rewrite length_fmap, length_take, migrations_length. lia. Qed.

Definition demo_migration (i : nat) : Migration :=
  default (mkMigration 0 EmptyString EmptyString EmptyString false) (migrations id Backend.Postgres !! i).

(** Version 3 is installed, rolled back by a migrator that loses its connection, and version 4
    follows; then version 8 is rolled back, which leaves its label. *)
Lemma postgres_history_matches_schema_witness :
  let run := pg_turn demo_pg_exec demo_pg_catalog id id id (λ _, "") 7 default_namespace in
  let turns := [mkTurn Direction.Up (demo_migration 2) (Some 40%nat);
                mkTurn Direction.Down (demo_migration 2) (Some 4%nat);
                mkTurn Direction.Up (demo_migration 3) None] in
  let d := mkServer (2%nat, false) (Some (demo_rows Backend.Postgres 2)) None in
  let d8 := mkServer (8%nat, true) (Some (demo_rows Backend.Postgres 8)) None in
  db_schema (foldl run d turns) = (4%nat, false)
  ∧ (∃ c', at_version id id demo_pg_installed c' (foldl run d turns))
  ∧ db_schema (foldl run d8 [mkTurn Direction.Down (demo_migration 7) None]) = (7%nat, true)
  ∧ ∃ c', at_version id id demo_pg_installed c' (foldl run d8 [mkTurn Direction.Down (demo_migration 7) None]).
Proof.
  intros run turns d d8. split; [vm_compute; reflexivity|].
  split; [|split; [vm_compute; reflexivity|]].
  - apply (postgres_history_matches_schema demo_pg_exec demo_pg_catalog id id id (λ _, "") 7
             default_namespace demo_pg_installed turns 2 d).
    + apply demo_fit.
    + split; [by split_and!; [|lia|]|]. eexists. split; [done|]. split; [apply demo_history; lia|done].
    + repeat constructor; vm_compute; repeat (first [left|right]).
  - apply (postgres_history_matches_schema demo_pg_exec demo_pg_catalog id id id (λ _, "") 7
             default_namespace demo_pg_installed _ 8 d8).
    + apply demo_fit.
    + split; [by split_and!|]. eexists. split; [done|]. split; [apply demo_history; lia|done].
    + repeat constructor; vm_compute; repeat (first [left|right]).
Defined.


Definition demo_my_installed (c s : nat) : Prop := s = c.

Lemma demo_build : scripts_build demo_my_exec id demo_my_installed demo_statements.
Proof.
  intros i m Hm. pose proof (lookup_lt_Some _ _ _ Hm) as Hi. rewrite migrations_length in Hi.
  assert (demo_statements i = [up_sql m]) as Hst by (unfold demo_statements; by rewrite Hm).
  assert (split_statements (up_sql m) = Ok [up_sql m] ∧ script_index up_sql (up_sql m) 0 (migrations id Backend.Mysql) = Some i) as [Hs Hx].
  { do 13 (destruct i as [|i]; [injection Hm as <-; by vm_compute|]). lia. }
  rewrite Hst. split; [done|]. simpl. unfold demo_my_exec. rewrite Hx. split.
  - intros s ->. by rewrite Nat.eqb_refl.
  - intros s s' _. destruct (_ || _); [|done]. simpl. by intros [= <-].
Qed.

