(* ===== verification/Text.v ===== *)
(** * Bytes and text

    What the crates use of [str] and [[u8]]: slices, character boundaries, the validation and
    the lossy decoding of UTF-8, and lines.  A string is its UTF-8 bytes. *)

From S2P Require Import Prelude ScheduleSpec SqlText.
Local Open Scope Z_scope.

(** [s[..n]] and [s[n..]], for [n] within the string. *)
Fixpoint take_bytes (n : nat) (s : bytes) : bytes :=
  match n, s with S n, String c s => String c (take_bytes n s) | _, _ => "" end.
Fixpoint drop_bytes (n : nat) (s : bytes) : bytes :=
  match n, s with S n, String _ s => drop_bytes n s | _, _ => s end.

(** [str::is_char_boundary]: not in front of a continuation byte. *)
Definition byte_in (lo hi : Z) (c : ascii) : bool := (lo <=? byte_val c) && (byte_val c <=? hi).
Definition continuation : ascii → bool := byte_in 128 191.

Fixpoint is_char_boundary (s : string) (i : nat) : bool :=
  match i, s with
  | O, _ => true
  | S O, String _ (String c _) => negb (continuation c)
  | S O, String _ EmptyString => true
  | S i, String _ s => is_char_boundary s i
  | S _, EmptyString => false
  end.

(** The character or the maximal invalid part a byte string starts with: whether it is a
    character, and its length. *)
Definition utf8_next (a : ascii) (s : bytes) : bool * nat :=
  let at_ i p := match String.get i s with Some c => p c | None => false end in
  let three p := if at_ 0%nat p then if at_ 1%nat continuation then (true, 3%nat) else (false, 2%nat) else (false, 1%nat) in
  let four p :=
    if at_ 0%nat p then
      if at_ 1%nat continuation then if at_ 2%nat continuation then (true, 4%nat) else (false, 3%nat) else (false, 2%nat)
    else (false, 1%nat) in
  let n := byte_val a in
  if n <? 128 then (true, 1%nat)
  else if (194 <=? n) && (n <=? 223) then if at_ 0%nat continuation then (true, 2%nat) else (false, 1%nat)
  else if n =? 224 then three (byte_in 160 191)
  else if n =? 237 then three (byte_in 128 159)
  else if (225 <=? n) && (n <=? 239) then three continuation
  else if n =? 240 then four (byte_in 144 191)
  else if (241 <=? n) && (n <=? 243) then four continuation
  else if n =? 244 then four (byte_in 128 143)
  else (false, 1%nat).

(** [skip] bytes still belong to the part that was read last. *)
Fixpoint utf8_from (skip : nat) (s : bytes) : bool :=
  match s with
  | EmptyString => true
  | String a s' =>
      match skip with
      | S skip => utf8_from skip s'
      | O => let '(ok, n) := utf8_next a s' in ok && utf8_from (pred n) s'
      end
  end.
(** [std::str::from_utf8] succeeds. *)
Definition is_utf8 (s : bytes) : bool := utf8_from 0 s.

(** U+FFFD. *)
Definition REPLACEMENT : string := String (byte_of 239) (String (byte_of 191) (str1 (byte_of 189))).

Fixpoint lossy_from (valid : bool) (skip : nat) (s : bytes) : string :=
  match s with
  | EmptyString => ""
  | String a s' =>
      match skip with
      | S skip => if valid then String a (lossy_from valid skip s') else lossy_from valid skip s'
      | O =>
          let '(ok, n) := utf8_next a s' in
          ((if ok then str1 a else REPLACEMENT) +:+ lossy_from ok (pred n) s')%stdpp
      end
  end.
(** [String::from_utf8_lossy]. *)
Definition from_utf8_lossy (s : bytes) : string := lossy_from true 0 s.

(** [split(|b| b == '\n')]. *)
Fixpoint split_lines (s : bytes) : list bytes :=
  match s with
  | EmptyString => [""]
  | String c s' =>
      if byte_val c =? 10 then "" :: split_lines s'
      else match split_lines s' with l :: r => String c l :: r | [] => [str1 c] end
  end.

(** ** Facts *)

Lemma take_bytes_app a b : take_bytes (String.length a) (a +:+ b)%stdpp = a.
Proof. induction a as [|c a IH]; [by destruct b|]. simpl. by f_equal. Qed.

Lemma drop_bytes_app a b : drop_bytes (String.length a) (a +:+ b)%stdpp = b.
Proof. induction a as [|c a IH]; [by destruct b|]. apply IH. Qed.

Lemma take_drop_bytes n s : (take_bytes n s +:+ drop_bytes n s)%stdpp = s.
Proof. revert s. induction n as [|n IH]; intros [|c s]; try done. simpl. rewrite str_app_cons. by f_equal. Qed.

Lemma take_bytes_length n s : String.length (take_bytes n s) = Nat.min n (String.length s).
Proof. revert s. induction n as [|n IH]; intros [|c s]; simpl; [done..|]. by rewrite IH. Qed.

Lemma take_bytes_all n s : (String.length s ≤ n)%nat → take_bytes n s = s.
Proof. revert s. induction n as [|n IH]; intros [|c s] Hn; simpl in *; try done; [lia|]. f_equal. apply IH. lia. Qed.

Lemma take_bytes_take m n s : (m ≤ n)%nat → take_bytes m (take_bytes n s) = take_bytes m s.
Proof. revert n s. induction m as [|m IH]; intros [|n] [|c s] H; simpl; try done; [lia|]. f_equal. apply IH. lia. Qed.

Lemma end_is_boundary s : is_char_boundary s (String.length s) = true.
Proof. induction s as [|c s IH]; [done|]. destruct s as [|d s]; [done|]. exact IH. Qed.

Lemma strip_prefix_intro p s : strip_prefix p (p +:+ s)%stdpp = Some s.
Proof. induction p as [|c p IH]; [done|]. rewrite str_app_cons. simpl. by rewrite Ascii.eqb_refl. Qed.

Definition str_prefix (p s : string) : Prop := ∃ rest, s = (p +:+ rest)%stdpp.

#[export] Instance str_prefix_preorder : PreOrder str_prefix.
Proof.
  split.
  - intros s. exists "". by rewrite str_app_nil_r.
  - intros a b c [r ->] [r' ->]. exists (r +:+ r')%stdpp. apply str_app_assoc.
Qed.

(** A valid string decodes to itself. *)
Lemma lossy_valid k s : utf8_from k s = true → lossy_from true k s = s.
Proof.
  revert k. induction s as [|a s IH]; intros k H; [done|]. simpl in *. destruct k as [|k]; [|f_equal; by apply IH].
  destruct (utf8_next a s) as [ok n]. destruct ok; [|done]. simpl in H. rewrite (IH _ H). done.
Qed.
