(* ===== verification/Crypto.v ===== *)
(** * headgate-crypto: encrypted payloads

    [crates/headgate-crypto/src/lib.rs]: the keyring, the wire format, sealing and opening an
    envelope's payload.  AES-256-GCM is a parameter with its documented law: what was encrypted
    decrypts under the same key, nonce and associated data, and is 16 bytes longer. *)

From S2P Require Import Prelude Shared Lifecycle Envelope MemStore Attempt Text.
Local Open Scope Z_scope.

Definition MAGIC : bytes := ("HGEC" +:+ str1 (byte_of 1))%stdpp.
Definition NONCE_LEN : nat := 12.

(** ** Bytes *)

Definition be16 (n : Z) : bytes := String (byte_of (n / 256)) (str1 (byte_of (n mod 256))).
Definition from_be16 (s : bytes) : Z :=
  match s with String a (String b _) => 256 * byte_val a + byte_val b | _ => 0 end.

(** ** Keys *)

(** [trait KeyProvider]; an error is its message. *)
Class KeyProvider (K : Type) := {
  active_key : K → result (string * bytes) string;
  key : K → string → result bytes string;
}.

Record StaticKeyring := mkKeyring { kr_active : string; kr_keys : gmap string bytes }.

Definition new_keyring (active : string) (keys : gmap string bytes) : result StaticKeyring string :=
  match keys !! active with
  | Some _ => Ok (mkKeyring active keys)
  | None => Err "active encryption key is missing"
  end.

(** Indexing a missing active key is a panic; [new_keyring] rules it out. *)
#[export] Instance static_keyring : KeyProvider StaticKeyring := {|
  active_key k := Ok (kr_active k, default "" (kr_keys k !! kr_active k));
  key k id := match kr_keys k !! id with
              | Some b => Ok b
              | None => Err ("encryption key `" +:+ id +:+ "` is unavailable")%stdpp
              end;
|}.

(** ** Sealing and opening *)

Section crypto.
Context {K : Type} `{KeyProvider K}.
(** AES-256-GCM: key, nonce, associated data, message. *)
Context (aes_encrypt aes_decrypt : bytes → bytes → bytes → bytes → option bytes).
Context (sha256 : bytes → bytes).

Definition aad (env : Envelope) : bytes :=
  (be32 (wrap_u32 (str_len (e_id env))) +:+ e_id env +:+ be32 (wrap_u32 (str_len (e_kind env)))
     +:+ e_kind env +:+ be32 (e_schema_version env))%stdpp.

Definition seal (key_id : string) (k nonce associated plaintext : bytes) : result bytes string :=
  match aes_encrypt k nonce associated plaintext with
  | None => Err "payload encryption failed"
  | Some ciphertext =>
      Ok (MAGIC +:+ be16 (str_len key_id mod 2 ^ 16) +:+ key_id +:+ nonce +:+ ciphertext)%stdpp
  end.

Definition encrypt_envelope (keys : K) (nonce : bytes) (env : Envelope) : result Envelope string :=
  let env := if String.eqb (e_fingerprint env) ""
             then env <| e_fingerprint := fingerprint sha256 (e_kind env) (e_payload env) |> else env in
  let? kk := active_key keys in
  let '(key_id, k) := kk in
  if String.eqb key_id "" || (2 ^ 16 - 1 <? str_len key_id)
  then Err "encryption key id must be 1..65535 bytes"
  else
    let? payload := seal key_id k nonce (aad env) (e_payload env) in
    Ok (env <| e_payload := payload |>).

Definition decrypt_envelope (keys : K) (env : Envelope) : result bytes string :=
  let p := e_payload env in
  if (str_len p <? str_len MAGIC + 2 + Z.of_nat NONCE_LEN + 16)
     || negb (String.eqb (take_bytes 5 p) MAGIC)
  then Err "payload is not a headgate encrypted envelope"
  else
    let id_len := from_be16 (drop_bytes 5 p) in
    if str_len p <? 7 + id_len + Z.of_nat NONCE_LEN + 16
    then Err "encrypted payload header is truncated"
    else
      let key_id := take_bytes (Z.to_nat id_len) (drop_bytes 7 p) in
      let rest := drop_bytes (Z.to_nat id_len) (drop_bytes 7 p) in
      if negb (is_utf8 key_id) then Err "encryption key id is not UTF-8"
      else
        let? k := key keys key_id in
        match aes_decrypt k (take_bytes NONCE_LEN rest) (aad env) (drop_bytes NONCE_LEN rest) with
        | Some plaintext => Ok plaintext
        | None => Err "encrypted payload authentication failed"
        end.

(** The handler [register_encrypted] installs: it is called with the task, or the attempt ends
    with the codec error. *)
Definition call_encrypted {T S} (upcast : Z → bytes → result T CodecError.CodecError)
    (handler : JobCtx → T → S → result unit JobError.JobError * S)
    (keys : K) (ctx : JobCtx) (env : Envelope) (s : S) : result unit JobError.JobError * S :=
  let task := match decrypt_envelope keys env with
              | Ok b => upcast (e_schema_version env) b
              | Err e => Err (CodecError.Malformed e)
              end in
  match task with
  | Ok task => handler ctx task s
  | Err e => (Err (JobError.Codec e), s)
  end.
End crypto.

(** ** Theorems *)

Lemma byte_val_of z : 0 ≤ z < 256 → byte_val (byte_of z) = z.
Proof.
  intros Hz. unfold byte_val, byte_of. rewrite Z.mod_small by lia.
  rewrite N_ascii_embedding; [lia|]. lia.
Qed.

Lemma from_be16_be16 n s : 0 ≤ n < 2 ^ 16 → from_be16 (be16 n +:+ s)%stdpp = n.
Proof.
  intros Hn. change (from_be16 (be16 n +:+ s)%stdpp)
    with (256 * byte_val (byte_of (n / 256)) + byte_val (byte_of (n mod 256))).
  rewrite !byte_val_of by (div_lia || (pose proof (Z.mod_pos_bound n 256); lia)).
  pose proof (Z.div_mod n 256). lia.
Qed.

Lemma aad_injective e1 e2 :
  str_len (e_id e1) ≤ u32_max → str_len (e_id e2) ≤ u32_max →
  str_len (e_kind e1) ≤ u32_max → str_len (e_kind e2) ≤ u32_max →
  in_u32 (e_schema_version e1) → in_u32 (e_schema_version e2) → aad e1 = aad e2 →
  e_id e1 = e_id e2 ∧ e_kind e1 = e_kind e2 ∧ e_schema_version e1 = e_schema_version e2.
Proof.
  unfold aad. intros H1 H2 H3 H4 H5 H6 H. rewrite <-!(str_app_assoc (be32 _)) in H.
  apply be32_prefix_inj in H as [E1 H]; [|done..]. apply be32_prefix_inj in H as [E2 H]; [|done..].
  apply be32_inj in H; done.
Qed.

Section theorems.
Context {K : Type} `{KeyProvider K}.
Context (aes_encrypt aes_decrypt : bytes → bytes → bytes → bytes → option bytes) (sha256 : bytes → bytes).

(** The documented law of an AEAD cipher with a 16-byte tag. *)
Definition aead_law : Prop := ∀ k n a m c, aes_encrypt k n a m = Some c →
  aes_decrypt k n a c = Some m ∧ str_len c = str_len m + 16.

(** The provider gives back the key it encrypted with. *)
Definition keyring_law (keys : K) : Prop := ∀ id k, active_key keys = Ok (id, k) → key keys id = Ok k ∧ is_utf8 id = true.

(** A keyring that [new_keyring] accepted keeps it, for a key id that is text. *)
Lemma new_keyring_law active ks ring : new_keyring active ks = Ok ring → is_utf8 active = true →
  ∀ id k, active_key ring = Ok (id, k) → key ring id = Ok k ∧ is_utf8 id = true.
Proof.
  unfold new_keyring. destruct (ks !! active) as [k0|] eqn:E; [|done]. intros [= <-] Hu id k [= <- <-].
  simpl. by rewrite E.
Qed.

Abbreviation encrypt := (encrypt_envelope aes_encrypt sha256).
Abbreviation decrypt := (decrypt_envelope aes_decrypt).

(** Opening a wire payload reads its parts back. *)
Lemma decrypt_wire keys env key_id k nonce c :
  key keys key_id = Ok k → is_utf8 key_id = true → str_len key_id < 2 ^ 16 →
  String.length nonce = NONCE_LEN → 16 ≤ str_len c →
  e_payload env = (MAGIC +:+ be16 (str_len key_id mod 2 ^ 16) +:+ key_id +:+ nonce +:+ c)%stdpp →
  decrypt keys env = match aes_decrypt k nonce (aad env) c with
                     | Some m => Ok m
                     | None => Err "encrypted payload authentication failed"
                     end.
Proof.
  intros Hk Hu Hl Hn Hc Hp. unfold decrypt_envelope. rewrite Hp.
  assert (0 ≤ str_len key_id) as Hpos by (unfold str_len; lia). rewrite Z.mod_small by lia.
  set (w := (MAGIC +:+ _)%stdpp). assert (str_len w = 5 + 2 + str_len key_id + 12 + str_len c) as Hw.
  { subst w. unfold str_len. rewrite !str_length_app, Hn. simpl. lia. }
  change (str_len MAGIC) with 5. change (Z.of_nat NONCE_LEN) with 12.
  rewrite (proj2 (Z.ltb_ge _ _)) by lia.
  assert (take_bytes 5 w = MAGIC) as -> by done.
  assert (drop_bytes 5 w = (be16 (str_len key_id) +:+ key_id +:+ nonce +:+ c)%stdpp) as -> by done.
  rewrite String.eqb_refl. cbn [orb negb].
  rewrite from_be16_be16 by lia. rewrite (proj2 (Z.ltb_ge _ _)) by lia.
  assert (drop_bytes 7 w = (key_id +:+ nonce +:+ c)%stdpp) as -> by done.
  assert (Z.to_nat (str_len key_id) = String.length key_id) as -> by (unfold str_len; lia).
  rewrite take_bytes_app, drop_bytes_app, Hu. cbn [negb]. rewrite Hk.
  rewrite <-Hn, take_bytes_app, drop_bytes_app. done.
Qed.

(** C35.  An encrypted payload opens to what was sealed, and only in its place: decrypting what
    [encrypt_envelope] produced gives the original payload; nothing of the envelope changes but
    the payload and an empty fingerprint, which is taken from the plaintext; and an envelope
    that carries this payload under another id, kind or schema version is opened only if the
    cipher accepts the ciphertext under associated data it was not sealed with. *)
Theorem sealed_payloads_open_in_place keys nonce env env' :
  aead_law → keyring_law keys → String.length nonce = NONCE_LEN →
  encrypt keys nonce env = Ok env' →
  decrypt keys env' = Ok (e_payload env)
  ∧ env' = env <| e_fingerprint := if String.eqb (e_fingerprint env) ""
                                   then fingerprint sha256 (e_kind env) (e_payload env) else e_fingerprint env |>
               <| e_payload := e_payload env' |>
  ∧ ∀ moved m, e_payload moved = e_payload env' → decrypt keys moved = Ok m →
      str_len (e_id env) ≤ u32_max → str_len (e_id moved) ≤ u32_max →
      str_len (e_kind env) ≤ u32_max → str_len (e_kind moved) ≤ u32_max →
      in_u32 (e_schema_version env) → in_u32 (e_schema_version moved) →
      (e_id moved = e_id env ∧ e_kind moved = e_kind env ∧ e_schema_version moved = e_schema_version env)
      ∨ ∃ k c, aes_encrypt k nonce (aad env) (e_payload env) = Some c
               ∧ aad moved ≠ aad env ∧ aes_decrypt k nonce (aad moved) c = Some m.
Proof.
  intros Haes Hring Hn He. unfold encrypt_envelope in He.
  set (env1 := if String.eqb (e_fingerprint env) "" then _ else env) in He.
  assert (e_payload env1 = e_payload env ∧ aad env1 = aad env) as [Ep Ea] 
    by (subst env1; destruct (String.eqb (e_fingerprint env) EmptyString); split; reflexivity).
  destruct (active_key keys) as [[key_id k]|] eqn:Ek; [|done]. destruct (Hring _ _ Ek) as [Hk Hu].
  destruct (String.eqb_spec key_id ""); [done|]. cbn [orb] in He.
  destruct (Z.ltb_spec (2 ^ 16 - 1) (str_len key_id)); [done|]. unfold seal in He. rewrite Ep, Ea in He.
  destruct (aes_encrypt k nonce (aad env) (e_payload env)) as [c|] eqn:Ec; [|done].
  destruct (Haes _ _ _ _ _ Ec) as [Hdec Hlen]. injection He as <-.
  assert (16 ≤ str_len c) as Hc16 by (unfold str_len in *; lia).
  split_and!.
  - erewrite decrypt_wire; [| |exact Hu| |exact Hn|exact Hc16|reflexivity]; [|done|lia].
    change (aad (env1 <| e_payload := _ |>)) with (aad env1). by rewrite Ea, Hdec.
  - subst env1. by destruct env, (String.eqb _ "").
  - intros moved m Hm Hd. erewrite decrypt_wire in Hd; [|exact Hk|exact Hu| |exact Hn|exact Hc16|exact Hm]; [|lia].
    destruct (aes_decrypt k nonce (aad moved) c) as [m'|] eqn:Ed; [|done]. injection Hd as ->.
    intros H1 H2 H3 H4 H5 H6. destruct (decide (aad moved = aad env)) as [E|E].
    + left. by apply aad_injective.
    + right. eauto.
Qed.
End theorems.

(** A cipher that only appends a tag. *)
Definition demo_aes_encrypt (_ _ _ m : bytes) : option bytes := Some (m +:+ "0123456789abcdef")%stdpp.
Definition demo_aes_decrypt (_ _ _ c : bytes) : option bytes := Some (take_bytes (String.length c - 16) c).
Definition demo_ring : StaticKeyring := mkKeyring "k1" {[ "k1" := "0123456789abcdef0123456789abcdef" ]}.

Lemma sealed_payloads_open_in_place_witness :
  let env := default_envelope <| e_id := "j" |> <| e_payload := "hello" |> in
  ∃ env', encrypt_envelope demo_aes_encrypt id demo_ring "nonce-nonce-" env = Ok env'
    ∧ str_len (e_payload env') = 42
    ∧ decrypt_envelope demo_aes_decrypt demo_ring env' = Ok "hello".
Proof.
  eexists. split; [vm_compute; reflexivity|]. split; [vm_compute; reflexivity|].
  refine (proj1 (sealed_payloads_open_in_place demo_aes_encrypt demo_aes_decrypt id demo_ring "nonce-nonce-"
    (default_envelope <| e_id := "j" |> <| e_payload := "hello" |>) _ _ _ _ _)).
  - intros k n a m c [= <-]. split; [|unfold str_len; rewrite str_length_app; simpl; lia].
    unfold demo_aes_decrypt. f_equal. rewrite str_length_app. simpl String.length.
    replace (String.length m + 16 - 16)%nat with (String.length m) by lia. apply take_bytes_app.
  - intros i k [= <- <-]. vm_compute. done.
  - done.
  - vm_compute. reflexivity.
Defined.
