(* ===== verification/Log.v ===== *)
(** * headgate-shared: structured log records

    [crates/headgate-shared/src/log.rs]: the record, its bounds, the encoding inside a log line
    and the reading back, and the logger of [crates/headgate/src/log.rs] that appends encoded
    lines to the attempt's buffer.  [serde_json]'s printer and parser are parameters; strings
    are UTF-8 bytes. *)

From S2P Require Import Prelude Shared Lifecycle Envelope MemStore Attempt ScheduleSpec SqlText Text.
Local Open Scope Z_scope.

Definition LOG_PREFIX : string := String (byte_of 30) "headgate-log-v1:".
Definition MAX_LOG_BYTES : nat := Eval compute in 2048%nat.
Definition MAX_LOG_FIELDS : nat := 32.

Module LogLevel.
Inductive LogLevel := Debug | Info | Warn | Error.
End LogLevel.

Definition level_as_str (l : LogLevel.LogLevel) : string :=
  match l with
  | LogLevel.Debug => "debug" | LogLevel.Info => "info" | LogLevel.Warn => "warn" | LogLevel.Error => "error"
  end.

Definition level_parse (level : string) : option LogLevel.LogLevel :=
  if String.eqb level "debug" then Some LogLevel.Debug
  else if String.eqb level "info" then Some LogLevel.Info
  else if String.eqb level "warn" then Some LogLevel.Warn
  else if String.eqb level "error" then Some LogLevel.Error
  else None.

Record LogEntry := mkLogEntry {
  le_level : LogLevel.LogLevel;
  le_at_ms : option Z;
  le_message : string;
  le_fields : list (string * json);
  le_truncated : bool;
}.

#[export] Instance log_entry_eta : Eta LogEntry := λ e,
  mkLogEntry (le_level e) (le_at_ms e) (le_message e) (le_fields e) (le_truncated e).

(** [while !text.is_char_boundary(end) { end -= 1 }]; the end of zero is a boundary. *)
Fixpoint boundary_below (s : string) (i : nat) : nat :=
  match i with
  | O => O
  | S j => if is_char_boundary s i then i else boundary_below s j
  end.

Definition log_text (text : string) (limit : nat) : string :=
  take_bytes (boundary_below text (Nat.min (String.length text) limit)) text.

Definition new_entry (level : LogLevel.LogLevel) (at_ms : option Z) (message : string) : LogEntry :=
  mkLogEntry level at_ms (log_text message MAX_LOG_BYTES) [] (MAX_LOG_BYTES <? String.length message)%nat.

Definition insert_field (key : string) (value : json) (e : LogEntry) : LogEntry :=
  if (MAX_LOG_FIELDS <=? length (le_fields e))%nat then e <| le_truncated := true |>
  else
    let e := e <| le_truncated := le_truncated e || (128 <? String.length key)%nat |> in
    let '(value, e) :=
      match value with
      | JString s => (JString (log_text s 1024), e <| le_truncated := le_truncated e || (1024 <? String.length s)%nat |>)
      | JArray _ | JObject _ => (JString "[unsupported log value]", e)
      | scalar => (scalar, e)
      end in
    e <| le_fields := btree_insert (log_text key 128) value (le_fields e) |>.

(** The [json!] value of a record. *)
Definition log_value (e : LogEntry) : json :=
  let o := btree_collect [("level", JString (level_as_str (le_level e))); ("message", JString (le_message e))] in
  let o := match le_at_ms e with Some at_ms => btree_insert "at_ms" (JInt at_ms) o | None => o end in
  let o := insert_when (negb (bool_decide (length (le_fields e) = 0%nat))) "fields" (JObject (le_fields e)) o in
  JObject (insert_when (le_truncated e) "truncated" (JBool true) o).

(** Before its loop [encode] puts a record within its bounds. *)
Definition normalize (e : LogEntry) : LogEntry :=
  let e := foldl (λ e kv, insert_field kv.1 kv.2 e) (e <| le_fields := [] |>) (le_fields e) in
  let e := e <| le_truncated := le_truncated e || (MAX_LOG_BYTES <? String.length (le_message e))%nat |> in
  e <| le_message := log_text (le_message e) MAX_LOG_BYTES |>.

(** One turn that did not fit: drop the last field, or halve the message. *)
Definition shrink (e : LogEntry) : LogEntry :=
  let e := e <| le_truncated := true |> in
  match le_fields e with
  | [] => e <| le_message := log_text (le_message e) (Nat.div2 (String.length (le_message e))) |>
  | f => e <| le_fields := removelast f |>
  end.

Section codec.
Context (to_text : json → string) (from_text : string → option json).

Definition record_line (e : LogEntry) : string := (LOG_PREFIX +:+ to_text (log_value e))%stdpp.

(** The loop of [encode], by fuel; its result is the record that was written. *)
Fixpoint settle (fuel : nat) (e : LogEntry) : option LogEntry :=
  match fuel with
  | O => None
  | S fuel => if (String.length (record_line e) <=? MAX_LOG_BYTES)%nat then Some e else settle fuel (shrink e)
  end.

(** A turn removes a field or at least one byte of the message. *)
Definition log_size (e : LogEntry) : nat := (length (le_fields e) + String.length (le_message e))%nat.

Definition written (e : LogEntry) : option LogEntry := let e := normalize e in settle (S (log_size e)) e.

Definition encode_entry (e : LogEntry) : option string := record_line <$> written e.

Definition json_get (k : string) (v : json) : option json :=
  match v with JObject o => btree_get k o | _ => None end.
Definition is_scalar (v : json) : bool := match v with JArray _ | JObject _ => false | _ => true end.
Definition json_i64 (v : json) : option Z :=
  match v with JInt n => if (i64_min <=? n) && (n <=? i64_max) then Some n else None | _ => None end.
Definition as_bool (v : json) : option bool := match v with JBool b => Some b | _ => None end.
Definition is_none_or {A} (f : A → bool) (o : option A) : bool := match o with None => true | Some a => f a end.

Definition plain_entry (line : string) : LogEntry := mkLogEntry LogLevel.Info None line [] false.

Definition decode_entry (line : string) : LogEntry :=
  if negb (String.length line <=? MAX_LOG_BYTES)%nat then plain_entry line else
  match strip_prefix LOG_PREFIX line ≫= from_text with
  | None => plain_entry line
  | Some value =>
      match (json_get "level" value ≫= as_str) ≫= level_parse, json_get "message" value ≫= as_str with
      | Some level, Some message =>
          let fields_valid := is_none_or (λ f, match f with JObject o => forallb (λ kv, is_scalar kv.2) o | _ => false end)
                                (json_get "fields" value) in
          if negb fields_valid
             || negb (is_none_or (λ v, bool_decide (is_Some (json_i64 v))) (json_get "at_ms" value))
             || negb (is_none_or (λ v, bool_decide (is_Some (as_bool v))) (json_get "truncated" value))
          then plain_entry line
          else mkLogEntry level (json_get "at_ms" value ≫= json_i64) message
                 (match json_get "fields" value with Some (JObject o) => o | _ => [] end)
                 (default false (json_get "truncated" value ≫= as_bool))
      | _, _ => plain_entry line
      end
  end.

(** ** The attempt's logger; the clock is an argument *)

Definition log_event (level : LogLevel.LogLevel) (now : Z) (message : string) : LogEntry :=
  new_entry level (Some now) message.

Definition emit (e : LogEntry) (b : LogBuffer) : option LogBuffer :=
  line ← encode_entry e; Some (log_push line b).

Definition log_plain (now : Z) (message : string) (b : LogBuffer) : option LogBuffer :=
  line ← (if bool_decide (is_Some (strip_prefix LOG_PREFIX message))
          then encode_entry (new_entry LogLevel.Info (Some now) message)
          else Some (log_text message MAX_LOG_BYTES));
  Some (log_push line b).
End codec.

(** ** Texts *)

Lemma boundary_below_le s i : (boundary_below s i ≤ i)%nat.
Proof. induction i as [|i IH]; cbn [boundary_below]; [lia|]. destruct (is_char_boundary _ _); lia. Qed.

Lemma log_text_prefix s n : ∃ rest, s = (log_text s n +:+ rest)%stdpp.
Proof. eexists. symmetry. apply take_drop_bytes. Qed.

Lemma log_text_length s n : (String.length (log_text s n) ≤ n)%nat.
Proof.
  unfold log_text. pose proof (take_bytes_length (boundary_below s (Nat.min (String.length s) n)) s).
  pose proof (boundary_below_le s (Nat.min (String.length s) n)). lia.
Qed.

Lemma log_text_id s n : (String.length s ≤ n)%nat → log_text s n = s.
Proof.
  intros Hn. unfold log_text. rewrite Nat.min_l by done.
  assert (boundary_below s (String.length s) = String.length s) as ->; [|by apply take_bytes_all].
  pose proof (end_is_boundary s). destruct (String.length s); [done|]. cbn [boundary_below]. by rewrite H.
Qed.

(** ** The loop of [encode] *)

(** What a record may lose on its way into a line, and that the loss is marked. *)
Record cut_from (e e' : LogEntry) : Prop := {
  cut_level : le_level e' = le_level e;
  cut_at_ms : le_at_ms e' = le_at_ms e;
  cut_message : str_prefix (le_message e') (le_message e);
  cut_fields : le_fields e' `prefix_of` le_fields e;
  cut_marked : e' = e ∨ le_truncated e' = true;
}.

Lemma cut_refl e : cut_from e e.
Proof. split; try done. by left. Qed.

Lemma cut_trans e1 e2 e3 : cut_from e1 e2 → cut_from e2 e3 → cut_from e1 e3.
Proof.
  intros [A1 A2 A3 A4 A5] [B1 B2 B3 B4 B5]. split; [congruence..|by etrans|by etrans|].
  destruct B5 as [->|]; [|by right]. done.
Qed.

Lemma removelast_prefix {A} (l : list A) : removelast l `prefix_of` l.
Proof.
  destruct l as [|x l _] using rev_ind; [done|]. rewrite removelast_last. by exists [x].
Qed.

Lemma shrink_cuts e : cut_from e (shrink e).
Proof.
  unfold shrink. change (le_fields (e <| le_truncated := true |>)) with (le_fields e).
  destruct (le_fields e) as [|f l] eqn:E; split; try done; try by right.
  - apply log_text_prefix.
  - change (removelast (f :: l) `prefix_of` le_fields e). rewrite E. apply removelast_prefix.
Qed.

Lemma shrink_shrinks e : log_size e ≠ 0%nat → (log_size (shrink e) < log_size e)%nat.
Proof.
  unfold log_size, shrink. change (le_fields (e <| le_truncated := true |>)) with (le_fields e).
  destruct (le_fields e) as [|f l] eqn:E; intros Hne.
  - change (length (le_fields e) + String.length (log_text (le_message e) (Nat.div2 (String.length (le_message e))))
      < 0 + String.length (le_message e))%nat.
    rewrite E. pose proof (log_text_length (le_message e) (Nat.div2 (String.length (le_message e)))).
    simpl in Hne |- *. pose proof (Nat.lt_div2 (String.length (le_message e))). lia.
  - change (length (removelast (f :: l)) + String.length (le_message e) < S (length l) + String.length (le_message e))%nat.
    destruct (exists_last (l := f :: l)) as [l' [x Hl]]; [done|]. rewrite Hl, removelast_last.
    apply (f_equal length) in Hl. rewrite length_app in Hl. simpl in Hl. lia.
Qed.

(** Every field is a scalar and within the bounds of [insert_field]. *)
Definition field_ok (kv : string * json) : Prop :=
  (String.length kv.1 ≤ 128)%nat
  ∧ match kv.2 with JString s => (String.length s ≤ 1024)%nat | v => is_scalar v = true end.

Definition fields_ok (f : list (string * json)) : Prop :=
  (length f ≤ MAX_LOG_FIELDS)%nat ∧ Forall field_ok f ∧ StronglySorted key_lt f.

Definition entry_ok (e : LogEntry) : Prop :=
  fields_ok (le_fields e) ∧ (String.length (le_message e) ≤ MAX_LOG_BYTES)%nat.

Lemma entry_ok_cut e e' : entry_ok e → cut_from e e' → entry_ok e'.
Proof.
  intros [(H1 & H2 & H3) H4] [_ _ [r Hm] [l Hf] _]. unfold entry_ok, fields_ok.
  rewrite Hf in H1, H2, H3. rewrite Hm in H4. rewrite str_length_app in H4. rewrite length_app in H1.
  apply Forall_app in H2 as [H2 _]. split_and!; [lia|done| |lia].
  clear -H3. induction (le_fields e') as [|x k IH]; [constructor|].
  apply StronglySorted_inv in H3 as [H3 H]. constructor; [by apply IH|]. by apply Forall_app in H as [? _].
Qed.

Lemma btree_insert_elem {V} k (v : V) m kv : kv ∈ btree_insert k v m → kv = (k, v) ∨ kv ∈ m.
Proof.
  induction m as [|[k' v'] m IH]; cbn [btree_insert]; [set_solver|]. destruct (String.compare k k'); set_solver.
Qed.

Lemma btree_insert_length {V} k (v : V) m : (length (btree_insert k v m) ≤ S (length m))%nat.
Proof.
  induction m as [|[k' v'] m IH]; cbn [btree_insert]; [done|]. destruct (String.compare k k'); simpl; lia.
Qed.

Lemma str_compare_lt_trans a b c :
  String.compare a b = Lt → String.compare b c = Lt → String.compare a c = Lt.
Proof.
  revert b c. induction a as [|x a IH]; intros [|y b] [|z c]; simpl; try done.
  unfold Ascii.compare.
  destruct (N.compare_spec (N_of_ascii x) (N_of_ascii y)) as [E1|E1|E1]; [|intros _|done];
    destruct (N.compare_spec (N_of_ascii y) (N_of_ascii z)) as [E2|E2|E2]; try done; intros;
    destruct (N.compare_spec (N_of_ascii x) (N_of_ascii z)); try lia; try done. by eapply IH.
Qed.

Lemma btree_insert_keeps_order {V} k (v : V) m : StronglySorted key_lt m → StronglySorted key_lt (btree_insert k v m).
Proof.
  induction 1 as [|[k' v'] m Hs IH Hall]; cbn [btree_insert]; [repeat constructor|].
  destruct (String.compare k k') eqn:E.
  - apply String.compare_eq_iff in E as ->. by constructor.
  - constructor; [by constructor|]. constructor; [done|]. eapply Forall_impl; [exact Hall|].
    intros kv Hkv. unfold key_lt in *. simpl in *. by eapply str_compare_lt_trans.
  - constructor; [done|]. apply Forall_forall. intros kv Hin. apply btree_insert_elem in Hin as [->|Hin].
    + unfold key_lt. simpl. rewrite String.compare_antisym, E. done.
    + rewrite Forall_forall in Hall. by apply Hall.
Qed.

(** ** Normal form *)

Lemma insert_field_ok key v e : fields_ok (le_fields e) → fields_ok (le_fields (insert_field key v e)).
Proof.
  intros (H1 & H2 & H3). unfold insert_field.
  destruct (Nat.leb_spec MAX_LOG_FIELDS (length (le_fields e))) as [?|Hn]; [done|].
  assert (∀ v', field_ok (log_text key 128, v') → fields_ok (btree_insert (log_text key 128) v' (le_fields e))) as Hput.
  { intros v' Hv. split_and!; [|apply Forall_forall; intros kv Hin|by apply btree_insert_keeps_order].
    - etrans; [apply btree_insert_length|]. exact Hn.
    - apply btree_insert_elem in Hin as [->|Hin]; [done|]. by eapply (proj1 (Forall_forall _ _)) in H2. }
  pose proof (log_text_length key 128).
  destruct v as [| | | |s| |]; apply Hput; (split; [done|]); try done; [apply log_text_length|simpl; lia..].
Qed.

Lemma insert_field_keeps key v e : le_level (insert_field key v e) = le_level e ∧ le_at_ms (insert_field key v e) = le_at_ms e
  ∧ le_message (insert_field key v e) = le_message e.
Proof. unfold insert_field. destruct (_ <=? _)%nat; [done|]. by destruct v. Qed.

Lemma normalize_ok e : entry_ok (normalize e) ∧ le_level (normalize e) = le_level e
  ∧ le_at_ms (normalize e) = le_at_ms e ∧ str_prefix (le_message (normalize e)) (le_message e).
Proof.
  unfold normalize. set (e1 := foldl _ _ _).
  assert (fields_ok (le_fields e1) ∧ le_level e1 = le_level e ∧ le_at_ms e1 = le_at_ms e ∧ le_message e1 = le_message e)
    as (Hok & Hl & Ha & Hm).
  { subst e1. apply (foldl_inv (λ x, fields_ok (le_fields x) ∧ le_level x = le_level e ∧ le_at_ms x = le_at_ms e
                                     ∧ le_message x = le_message e)).
    - split; [|done]. split_and!; [simpl; lia|constructor..].
    - intros x kv _ (Hx & L & A & M). destruct (insert_field_keeps kv.1 kv.2 x) as (-> & -> & ->).
      split; [by apply insert_field_ok|done]. }
  split_and!; [split; [exact Hok|apply log_text_length]|done|done|].
  change (str_prefix (log_text (le_message e1) MAX_LOG_BYTES) (le_message e)). rewrite Hm. apply log_text_prefix.
Qed.

(** A field within the bounds goes in as it is. *)
Lemma insert_field_exact kv e : (length (le_fields e) < MAX_LOG_FIELDS)%nat → field_ok kv →
  insert_field kv.1 kv.2 e = e <| le_fields := btree_insert kv.1 kv.2 (le_fields e) |>.
Proof.
  destruct kv as [k v]. intros Hn [Hk Hv]. unfold insert_field. cbn [fst snd] in *.
  rewrite (proj2 (Nat.leb_gt _ _)) by done. rewrite (proj2 (Nat.ltb_ge 128 _)) by done. rewrite orb_false_r.
  rewrite (log_text_id k) by done. destruct e, v; cbn [is_scalar] in Hv; try done.
  rewrite (proj2 (Nat.ltb_ge 1024 _)), log_text_id by done. cbv -[btree_insert orb]. by rewrite orb_false_r.
Qed.

(** A record within the bounds is left alone. *)
Lemma normalize_id e : entry_ok e → normalize e = e.
Proof.
  intros [(H1 & H2 & H3) H4]. unfold normalize.
  assert (∀ l acc, (length acc + length l ≤ MAX_LOG_FIELDS)%nat → Forall field_ok l → StronglySorted key_lt (acc ++ l) →
    foldl (λ e kv, insert_field kv.1 kv.2 e) (e <| le_fields := acc |>) l = e <| le_fields := acc ++ l |>) as Hfold.
  { induction l as [|kv l IH]; intros acc Hn Hl Hs; simpl; [by rewrite app_nil_r|]. inversion_clear Hl as [|? ? Hkv Hl'].
    simpl in Hn. rewrite insert_field_exact; [|simpl; lia|done].
    change (e <| le_fields := acc |> <| le_fields := ?f |>) with (e <| le_fields := f |>).
    change (le_fields (e <| le_fields := acc |>)) with acc. rewrite btree_insert_snoc.
    - rewrite <-surjective_pairing. specialize (IH (acc ++ [kv])). rewrite length_app, <-!app_assoc in IH.
      apply IH; [simpl; lia|done..].
    - apply Forall_forall. intros x Hx. refine (StronglySorted_app_1_elem_of key_lt _ _ x kv Hs Hx _). set_solver. }
  rewrite (Hfold (le_fields e) []) by done. simpl app.
  change (e <| le_fields := le_fields e |>) with (mkLogEntry (le_level e) (le_at_ms e) (le_message e) (le_fields e) (le_truncated e)).
  cbn [le_message le_truncated]. rewrite (proj2 (Nat.ltb_ge MAX_LOG_BYTES _)) by done. rewrite orb_false_r, log_text_id by done.
  by destruct e.
Qed.

(** ** What a line carries *)

Lemma level_parse_as_str l : level_parse (level_as_str l) = Some l.
Proof. by destruct l. Qed.

Lemma json_get_value e :
  json_get "level" (log_value e) = Some (JString (level_as_str (le_level e)))
  ∧ json_get "message" (log_value e) = Some (JString (le_message e))
  ∧ json_get "at_ms" (log_value e) = JInt <$> le_at_ms e
  ∧ json_get "fields" (log_value e) = (if bool_decide (length (le_fields e) = 0%nat) then None else Some (JObject (le_fields e)))
  ∧ json_get "truncated" (log_value e) = (if le_truncated e then Some (JBool true) else None).
Proof.
  unfold json_get, log_value. destruct (le_at_ms e), (bool_decide _), (le_truncated e); by split_and!.
Qed.

Section lines.
Context (to_text : json → string) (from_text : string → option json).

Lemma decode_line e :
  entry_ok e → (∀ t, le_at_ms e = Some t → in_i64 t) → (String.length (record_line to_text e) ≤ MAX_LOG_BYTES)%nat →
  from_text (to_text (log_value e)) = Some (log_value e) → decode_entry from_text (record_line to_text e) = e.
Proof.
  intros [(_ & Hf & _) _] Ht Hlen Hlaw. unfold decode_entry. rewrite (proj2 (Nat.leb_le _ _)) by done. cbn [negb].
  unfold record_line at 1. rewrite strip_prefix_intro. cbn [mbind option_bind]. rewrite Hlaw.
  destruct (json_get_value e) as (-> & -> & -> & -> & ->). cbn [mbind option_bind as_str]. rewrite level_parse_as_str.
  assert (forallb (λ kv : string * json, is_scalar kv.2) (le_fields e) = true) as Hs.
  { apply forallb_forall. intros kv Hin. apply list_elem_of_In in Hin.
    destruct (proj1 (Forall_forall _ _) Hf kv Hin) as [_ H]. by destruct (kv.2). }
  destruct e as [lv at_ms m f t]. cbn [le_at_ms le_fields le_truncated le_level le_message] in *.
  assert (at_ms ≫= (λ t, json_i64 (JInt t)) = at_ms) as Hat.
  { destruct at_ms as [z|]; [|done]. destruct (Ht z eq_refl). simpl.
    by rewrite (proj2 (Z.leb_le _ _)), (proj2 (Z.leb_le _ _)). }
  destruct at_ms as [z|]; cbn [fmap option_fmap option_map is_none_or mbind option_bind] in *; rewrite ?Hat;
    (case_bool_decide as Hn; [apply nil_length_inv in Hn as ->|]); cbn [is_none_or]; rewrite ?Hs; by destruct t.
Qed.

(** The printer of [serde_json] is compact: a record with no fields and no message fits. *)
Definition prints_small : Prop := ∀ e, le_message e = "" → le_fields e = [] →
  (∀ t, le_at_ms e = Some t → in_i64 t) → (String.length (record_line to_text e) ≤ MAX_LOG_BYTES)%nat.

Lemma settle_ends n e : prints_small → (∀ t, le_at_ms e = Some t → in_i64 t) → (log_size e < n)%nat →
  ∃ e', settle to_text n e = Some e' ∧ cut_from e e' ∧ (String.length (record_line to_text e') ≤ MAX_LOG_BYTES)%nat.
Proof.
  intros Hsmall. revert e. induction n as [|n IH]; intros e Ht Hn; [lia|]. cbn [settle].
  destruct (Nat.leb_spec (String.length (record_line to_text e)) MAX_LOG_BYTES) as [?|Hbig].
  { exists e. split_and!; [done|apply cut_refl|done]. }
  assert (log_size e ≠ 0%nat) as Hne.
  { intros H0. unfold log_size in H0. assert (le_fields e = []) by (apply nil_length_inv; lia).
    assert (le_message e = "") by (destruct (le_message e); [done|simpl in H0; lia]).
    pose proof (Hsmall e ltac:(done) ltac:(done) Ht). lia. }
  pose proof (shrink_cuts e) as Hcut. destruct (IH (shrink e)) as (e' & -> & Hc & Hl).
  - intros t. rewrite (cut_at_ms _ _ Hcut). apply Ht.
  - pose proof (shrink_shrinks e Hne). lia.
  - exists e'. split_and!; [done|by eapply cut_trans|done].
Qed.

(** [serde_json] parses the value it printed for this record.  Without its feature
    [float_roundtrip] a field that is a floating-point number may be rounded, and is outside. *)
Definition parses_back (e : LogEntry) : Prop := ∀ e', written to_text e = Some e' →
  from_text (to_text (log_value e')) = Some (log_value e').

Lemma encode_reads_back e : prints_small → parses_back e → (∀ t, le_at_ms e = Some t → in_i64 t) →
  ∃ e', written to_text e = Some e' ∧ cut_from (normalize e) e'
    ∧ (String.length (record_line to_text e') ≤ MAX_LOG_BYTES)%nat ∧ decode_entry from_text (record_line to_text e') = e'.
Proof.
  intros Hsmall Hlaw Ht. destruct (normalize_ok e) as (Hok & _ & Ha & _).
  assert (∀ t, le_at_ms (normalize e) = Some t → in_i64 t) as Ht' by (rewrite Ha; exact Ht).
  destruct (settle_ends (S (log_size (normalize e))) (normalize e) Hsmall Ht') as (e' & E & Hc & Hfit); [lia|].
  exists e'. split_and!; [done..|]. apply decode_line; [by eapply entry_ok_cut| |done|by apply Hlaw].
  rewrite (cut_at_ms _ _ Hc). exact Ht'.
Qed.

(** C37.  Every log record is written, within its bound, and reads back as what was written:
    the loop of [encode] ends for every record; the line is at most 2048 bytes; decoding it
    gives a record of the same level and time, whose message is a prefix of the original and
    whose fields are a prefix of the bounded ones, and which is marked as truncated unless it
    is the bounded record itself; and a record already within the bounds whose line fits is
    read back exactly.  This is for a record whose printed value [serde_json] parses back to
    the same value, as it does unless a field is a floating-point number it rounds. *)
Theorem log_records_end_and_read_back e :
  prints_small → parses_back e → (∀ t, le_at_ms e = Some t → in_i64 t) →
  ∃ line, encode_entry to_text e = Some line ∧ (String.length line ≤ MAX_LOG_BYTES)%nat
    ∧ let e' := decode_entry from_text line in
      le_level e' = le_level e ∧ le_at_ms e' = le_at_ms e
      ∧ str_prefix (le_message e') (le_message e) ∧ le_fields e' `prefix_of` le_fields (normalize e)
      ∧ (e' = normalize e ∨ le_truncated e' = true)
      ∧ (entry_ok e → (String.length (record_line to_text e) ≤ MAX_LOG_BYTES)%nat → e' = e).
Proof.
  intros Hsmall Hlaw Ht. destruct (encode_reads_back e Hsmall Hlaw Ht) as (e' & E & [L A M F T] & Hfit & Hd).
  destruct (normalize_ok e) as (_ & Hl & Ha & Hm). exists (record_line to_text e'). unfold encode_entry. rewrite E.
  split; [done|]. split; [done|]. rewrite Hd. split_and!; [congruence..|by etrans|done|done|].
  intros He Hf. unfold written in E. rewrite normalize_id in E by done. cbn [settle] in E.
  rewrite (proj2 (Nat.leb_le _ _)) in E by done. by injection E.
Qed.

(** A line that does not carry the prefix is read as it is. *)
Lemma decode_plain line : strip_prefix LOG_PREFIX line = None → decode_entry from_text line = plain_entry line.
Proof. intros H. unfold decode_entry. rewrite H. by destruct (negb _). Qed.

(** A handler's plain text cannot forge a record: whatever text [ctx.log] is given, the
    line it appends is at most 2048 bytes and reads back at level info, with no fields, as a
    prefix of that text, even when the text itself is an encoded record. *)
Theorem plain_text_cannot_forge_records now message b :
  prints_small → parses_back (new_entry LogLevel.Info (Some now) message) → in_i64 now →
  ∃ line, log_plain to_text now message b = Some (log_push line b) ∧ (String.length line ≤ MAX_LOG_BYTES)%nat
    ∧ let e := decode_entry from_text line in
      le_level e = LogLevel.Info ∧ le_fields e = [] ∧ str_prefix (le_message e) message.
Proof.
  intros Hsmall Hlaw Ht. unfold log_plain. destruct (strip_prefix LOG_PREFIX message) as [r|] eqn:Hp.
  - destruct (encode_reads_back _ Hsmall Hlaw) as (e' & E & Hc & Hfit & Hd); [by intros ? [= <-]|].
    exists (record_line to_text e'). unfold encode_entry. rewrite E. split; [done|]. split; [done|]. rewrite Hd.
    destruct Hc as [L _ M [l F] _], (normalize_ok (new_entry LogLevel.Info (Some now) message)) as (_ & Hl & _ & Hm).
    split_and!; [by rewrite L, Hl| |].
    + change (le_fields (normalize _)) with (@nil (string * json)) in F. by destruct (le_fields e').
    + etrans; [exact M|]. etrans; [exact Hm|]. apply log_text_prefix.
  - exists (log_text message MAX_LOG_BYTES). split; [done|]. split; [apply log_text_length|].
    rewrite decode_plain; [split_and!; [done..|apply log_text_prefix]|].
    destruct (strip_prefix LOG_PREFIX (log_text message MAX_LOG_BYTES)) as [r|] eqn:E; [|done]. exfalso.
    apply strip_prefix_app in E. destruct (log_text_prefix message MAX_LOG_BYTES) as [rest Hr].
    by rewrite Hr, <-E, str_app_assoc, strip_prefix_intro in Hp.
Qed.
End lines.

(** ** A compact printer *)

Fixpoint demo_print (v : json) : string :=
  (match v with
   | JNull => "null"
   | JBool b => if b then "true" else "false"
   | JInt n => be32 (n / 2 ^ 32) +:+ be32 n
   | JFloat t => t
   | JString s => str1 (byte_of 34) +:+ s +:+ str1 (byte_of 34)
   | JArray l => "[" +:+ String.concat "," (map demo_print l) +:+ "]"
   | JObject o => "{" +:+ String.concat "," (map (λ kv, kv.1 +:+ ":" +:+ demo_print kv.2) o) +:+ "}"
   end)%stdpp.

Lemma demo_prints_small : prints_small demo_print.
Proof.
  intros [lv at_ms m f t] Hm Hf _. simpl in Hm, Hf. subst. apply Nat.leb_le. destruct at_ms, lv, t; vm_compute; reflexivity.
Qed.

(** A message longer than a line, with a field that has to go. *)
Definition demo_entry : LogEntry :=
  mkLogEntry LogLevel.Warn (Some 1788393600123) (zeros 3000) [("host", JString "db-1")] false.
Definition demo_written : LogEntry :=
  mkLogEntry LogLevel.Warn (Some 1788393600123) (zeros 1024) [] true.
Definition demo_parse (e : LogEntry) (s : string) : option json :=
  if String.eqb s (demo_print (log_value e)) then Some (log_value e) else None.

Lemma log_records_end_and_read_back_witness :
  ∃ line, encode_entry demo_print demo_entry = Some line ∧ (String.length line ≤ MAX_LOG_BYTES)%nat
    ∧ le_truncated (decode_entry (demo_parse demo_written) line) = true
    ∧ str_prefix (le_message (decode_entry (demo_parse demo_written) line)) (le_message demo_entry).
Proof.
  destruct (log_records_end_and_read_back demo_print (demo_parse demo_written) demo_entry) as (line & E & Hl & H).
  - apply demo_prints_small.
  - intros e' E. assert (written demo_print demo_entry = Some demo_written) as Hw by (vm_compute; reflexivity).
    rewrite Hw in E. injection E as <-. vm_compute. reflexivity.
  - intros t [= <-]. by vm_compute.
  - exists line. split_and!; [done..| |by apply H].
    assert (encode_entry demo_print demo_entry = Some (record_line demo_print demo_written)) as Hw by (vm_compute; reflexivity).
    rewrite Hw in E. injection E as <-. vm_compute. reflexivity.
Defined.

Definition forged : string := (LOG_PREFIX +:+ "{level:error,message:forged}")%stdpp.
Definition escaped : LogEntry := mkLogEntry LogLevel.Info (Some 5) forged [] false.

Lemma plain_text_cannot_forge_records_witness :
  ∃ line, log_plain demo_print 5 forged (mkLogBuffer [] false) = Some (log_push line (mkLogBuffer [] false))
    ∧ le_level (decode_entry (demo_parse escaped) line) = LogLevel.Info.
Proof.
  destruct (plain_text_cannot_forge_records demo_print (demo_parse escaped) 5 forged (mkLogBuffer [] false))
    as (line & E & _ & H & _).
  - apply demo_prints_small.
  - intros e' E. assert (written demo_print (new_entry LogLevel.Info (Some 5) forged) = Some escaped) as Hw
      by (vm_compute; reflexivity).
    rewrite Hw in E. injection E as <-. vm_compute. reflexivity.
  - by vm_compute.
  - by exists line.
Defined.
