(* ===== verification/Stuck.v ===== *)
(** * headgate: attempts that ignore cancellation

    [crates/headgate/src/stuck_handler.rs] with the acceptance flag of [tracked.rs]: the count
    of live executions of one attempt, who may add to it, and the task that reports an attempt
    which outlives its cancellation.

    The count and the watch channel are updated separately, so an update in progress on one
    thread is a state of its own: [activate] and the drop of an [ActiveExecution] are two steps
    each, which other threads may come between. *)

From S2P Require Import Prelude Shared Lifecycle Envelope.
Local Open Scope Z_scope.

Module StuckReason.
Inductive StuckReason := Cancellation | Timeout.
End StuckReason.

Record StuckJobEvent := mkStuckJobEvent {
  sj_envelope : Envelope;
  sj_reason : StuckReason.StuckReason;
  sj_threshold : duration;
}.

(** ** The liveness count *)

(** An update whose new count is computed and not yet sent to the channel. *)
Inductive Update := Activating (count : Z) | Dropping (count : Z).

#[export] Instance update_eq_dec : EqDecision Update.
Proof. solve_decision. Defined.

Record AttemptLiveness := mkLiveness {
  al_active : Z;          (** [active] *)
  al_changes : Z;         (** the value in the [watch] channel *)
  al_updates : list Update; (** calls between their two steps *)
  al_guards : nat;        (** [ActiveExecution]s handed out and not dropped *)
}.

#[export] Instance attempt_liveness_eta : Eta AttemptLiveness := λ l,
  mkLiveness (al_active l) (al_changes l) (al_updates l) (al_guards l).

Definition new_liveness : AttemptLiveness := mkLiveness 0 0 [] 0.

(** [activate]: [fetch_add], then [send_replace]; the guard exists once the value is sent. *)
Definition activate_count (l : AttemptLiveness) : AttemptLiveness :=
  let active := u64_add (al_active l) 1 in
  l <| al_active := active |> <| al_updates := al_updates l ++ [Activating active] |>.

Definition activate_send (count : Z) (l : AttemptLiveness) : AttemptLiveness :=
  l <| al_changes := count |> <| al_guards := S (al_guards l) |>.

(** [Drop for ActiveExecution]: [fetch_sub], then [send_replace]. *)
Definition drop_count (l : AttemptLiveness) : AttemptLiveness :=
  let previous := al_active l in
  l <| al_active := wrap_u64 (previous - 1) |> <| al_guards := pred (al_guards l) |>
    <| al_updates := al_updates l ++ [Dropping (u64_saturating_sub previous 1)] |>.

Definition drop_send (count : Z) (l : AttemptLiveness) : AttemptLiveness := l <| al_changes := count |>.

(** One step of some thread.  A tracked child is activated while the tracker is [accepting]
    ([TaskTracker::spawn]), by whoever holds the attempt's context; in a [nested] run only by
    code that is itself a live execution, the handler or a tracked child. *)
Inductive live_step (nested accepting : bool) : AttemptLiveness → AttemptLiveness → Prop :=
  | step_activate l :
      accepting = true → (nested = true → (0 < al_guards l)%nat) →
      live_step nested accepting l (activate_count l)
  | step_activated l us vs n :
      al_updates l = us ++ Activating n :: vs →
      live_step nested accepting l (activate_send n l <| al_updates := us ++ vs |>)
  | step_drop l : (0 < al_guards l)%nat → live_step nested accepting l (drop_count l)
  | step_dropped l us vs n :
      al_updates l = us ++ Dropping n :: vs →
      live_step nested accepting l (drop_send n l <| al_updates := us ++ vs |>).

Definition activating (u : Update) : bool := match u with Activating _ => true | Dropping _ => false end.
Definition activations (l : AttemptLiveness) : nat := length (filter (λ u, activating u = true) (al_updates l)).

(** Fewer executions than a [usize] counts. *)
Definition small (l : AttemptLiveness) : Prop := Z.of_nat (al_guards l + activations l) < u64_max.

(** [wait_idle] returns when it reads a zero in the channel. *)
Definition idle_seen (l : AttemptLiveness) : bool := al_changes l =? 0.

(** ** The watch of [spawn_stuck_watch] *)

Module Watch.
Inductive Watch :=
  | Waiting                              (** in the [select!] *)
  | Sleeping (r : StuckReason.StuckReason) (** in [sleep(threshold)] *)
  | Silent                               (** returned *)
  | Reported (e : StuckJobEvent).        (** [on_stuck] was called *)
End Watch.

Definition stuck_threshold (threshold : duration) : duration := Z.max threshold 1000000.

(** The task after its sleep. *)
Definition after_threshold (env : Envelope) (r : StuckReason.StuckReason) (threshold : duration) (l : AttemptLiveness)
    : Watch.Watch :=
  if al_active l =? 0 then Watch.Silent
  else Watch.Reported (mkStuckJobEvent env r (stuck_threshold threshold)).

(** The attempt, its tracker's flag and its watch. *)
Record Watched := mkWatched {
  wa_live : AttemptLiveness;
  wa_accepting : bool;
  wa_watch : Watch.Watch;
}.

Section watch.
Context (env : Envelope) (timeout_ms : Z) (threshold : duration) (nested : bool).

Inductive watch_step : Watched → Watched → Prop :=
  | watch_live l l' a w : small l → live_step nested a l l' → watch_step (mkWatched l a w) (mkWatched l' a w)
  | watch_close l a w : watch_step (mkWatched l a w) (mkWatched l false w)
  | watch_cancelled l a :
      watch_step (mkWatched l a Watch.Waiting) (mkWatched l a (Watch.Sleeping StuckReason.Cancellation))
  | watch_timeout l a :
      0 < timeout_ms →
      watch_step (mkWatched l a Watch.Waiting) (mkWatched l a (Watch.Sleeping StuckReason.Timeout))
  | watch_idle l a :
      idle_seen l = true → watch_step (mkWatched l a Watch.Waiting) (mkWatched l a Watch.Silent)
  | watch_slept l a r :
      watch_step (mkWatched l a (Watch.Sleeping r)) (mkWatched l a (after_threshold env r threshold l)).
End watch.

(** [process_one] activates the handler before it spawns the watch. *)
Definition started : Watched :=
  mkWatched (activate_send 1 (activate_count new_liveness) <| al_updates := [] |>) true Watch.Waiting.

(** ** The count is exact *)

Definition count_exact (l : AttemptLiveness) : Prop := al_active l = Z.of_nat (al_guards l + activations l).

(** No execution of the attempt is live or starting. *)
Definition nothing_runs (l : AttemptLiveness) : Prop := al_guards l = 0%nat ∧ activations l = 0%nat.

Lemma count_zero l : count_exact l → (al_active l = 0 ↔ nothing_runs l).
Proof. unfold count_exact, nothing_runs. lia. Qed.

Lemma activations_split l us u vs : al_updates l = us ++ u :: vs →
  activations l = (activations (l <| al_updates := us ++ vs |>) + if activating u then 1 else 0)%nat.
Proof.
  unfold activations. intros ->. change (al_updates (l <| al_updates := us ++ vs |>)) with (us ++ vs).
  rewrite !filter_app, filter_cons, !length_app. destruct u; [rewrite decide_True by done|rewrite decide_False by done]; cbn [activating length]; lia.
Qed.

Lemma activations_snoc l u us : al_updates l = us ++ [u] →
  activations l = (activations (l <| al_updates := us |>) + if activating u then 1 else 0)%nat.
Proof. intros H. rewrite (activations_split l us u []) by done. by rewrite app_nil_r. Qed.

Lemma count_exact_step nested a l l' :
  small l → count_exact l → live_step nested a l l' → count_exact l'.
Proof.
  unfold small, count_exact. intros Hs Hc Hstep.
  destruct Hstep as [l _ _|l us vs n H|l H|l us vs n H].
  - rewrite (activations_snoc (activate_count l) (Activating (u64_add (al_active l) 1)) (al_updates l)) by done.
    change (activations (activate_count l <| al_updates := al_updates l |>)) with (activations l).
    change (u64_add (al_active l) 1 = Z.of_nat (al_guards l + (activations l + 1))).
    unfold u64_add. rewrite wrap_u64_id by (unfold_ints; lia). lia.
  - rewrite (activations_split l us _ vs H) in Hc. cbn [activating] in Hc.
    change (al_active l = Z.of_nat (S (al_guards l) + activations (l <| al_updates := us ++ vs |>))). lia.
  - rewrite (activations_snoc (drop_count l) (Dropping (u64_saturating_sub (al_active l) 1)) (al_updates l)) by done.
    change (activations (drop_count l <| al_updates := al_updates l |>)) with (activations l).
    change (wrap_u64 (al_active l - 1) = Z.of_nat (pred (al_guards l) + (activations l + 0))).
    rewrite wrap_u64_id by (unfold_ints; lia). lia.
  - rewrite (activations_split l us _ vs H) in Hc. cbn [activating] in Hc.
    change (al_active l = Z.of_nat (al_guards l + activations (l <| al_updates := us ++ vs |>))). lia.
Qed.

(** ** Nested runs *)

Definition update_count (u : Update) : Z := match u with Activating n | Dropping n => n end.

(** While something runs, neither the channel nor an update in progress holds a zero. *)
Definition nested_inv (l : AttemptLiveness) : Prop :=
  count_exact l ∧ (0 < al_active l → 1 ≤ al_changes l ∧ Forall (λ u, 1 ≤ update_count u) (al_updates l)).

Lemma nested_inv_step a l l' : small l → nested_inv l → live_step true a l l' → nested_inv l'.
Proof.
  intros Hs [Hc Hi] Hstep. split; [by eapply count_exact_step|]. unfold small, count_exact in *.
  destruct Hstep as [l _ Hg|l us vs n H|l H|l us vs n H].
  - specialize (Hg eq_refl). intros _. destruct Hi as [H1 H2]; [lia|]. split; [done|].
    change (Forall (λ u, 1 ≤ update_count u) (al_updates l ++ [Activating (u64_add (al_active l) 1)])).
    apply Forall_app; split; [done|]. constructor; [|done]. cbn [update_count].
    unfold u64_add. rewrite wrap_u64_id by (unfold_ints; lia). lia.
  - intros Hp. change (0 < al_active l) in Hp. destruct (Hi Hp) as [H1 H2]. rewrite H in H2.
    apply Forall_app in H2 as [H2 H3]. inversion_clear H3. split; [done|]. by apply Forall_app.
  - intros Hp. change (0 < wrap_u64 (al_active l - 1)) in Hp. rewrite wrap_u64_id in Hp by (unfold_ints; lia).
    destruct Hi as [H1 H2]; [lia|]. split; [done|].
    change (Forall (λ u, 1 ≤ update_count u) (al_updates l ++ [Dropping (u64_saturating_sub (al_active l) 1)])).
    apply Forall_app; split; [done|]. constructor; [|done]. cbn [update_count]. unfold u64_saturating_sub. lia.
  - intros Hp. change (0 < al_active l) in Hp. destruct (Hi Hp) as [H1 H2]. rewrite H in H2.
    apply Forall_app in H2 as [H2 H3]. inversion_clear H3. split; [done|]. by apply Forall_app.
Qed.

(** Where nothing runs, only somebody outside the attempt can start something, and only while
    the tracker accepts it. *)
Lemma nothing_stays nested a l l' :
  nested = true ∨ a = false → live_step nested a l l' → nothing_runs l → nothing_runs l'.
Proof.
  intros Hna Hstep [G A].
  destruct Hstep as [l Ha Hg|l us vs n H|l H|l us vs n H];
    [destruct Hna as [Hn|Hn]; [specialize (Hg Hn); lia|congruence]| |lia|];
    rewrite (activations_split l us _ vs H) in A; cbn [activating] in A; [lia|].
  split; [exact G|]. change (activations (l <| al_updates := us ++ vs |>) = 0%nat). lia.
Qed.

Lemma idle_is_idle l : nested_inv l → idle_seen l = true → nothing_runs l.
Proof.
  intros [Hc Hi] H. apply Z.eqb_eq in H. apply count_zero; [done|]. unfold count_exact in Hc.
  destruct (Z.lt_trichotomy 0 (al_active l)) as [Hp|[?|?]]; [|lia..]. destruct (Hi Hp). lia.
Qed.

(** ** Any run *)

(** Somebody has been told that nothing runs, or is about to be. *)
Definition zero_told (s : Watched) : Prop :=
  al_changes (wa_live s) = 0 ∨ (∃ u, u ∈ al_updates (wa_live s) ∧ update_count u = 0)
  ∨ wa_watch s = Watch.Silent.

Section reports.
Context (env : Envelope) (timeout_ms : Z) (threshold : duration).
Local Notation run nested := (rtc (watch_step env timeout_ms threshold nested)).

Lemma watch_count nested s : run nested started s → count_exact (wa_live s).
Proof.
  revert s. apply (rtc_ind_r (λ s, count_exact (wa_live s))); [done|]. intros s s' _ Hstep Hc.
  destruct Hstep; simpl in *; [by eapply count_exact_step|done..].
Qed.

(** A zero is first told at a moment when nothing runs. *)
Lemma zero_told_step nested a l l' w :
  small l → count_exact l → live_step nested a l l' → zero_told (mkWatched l' a w) →
  zero_told (mkWatched l a w) ∨ nothing_runs l'.
Proof.
  intros Hs Hc Hstep Hz. pose proof (count_exact_step _ _ _ _ Hs Hc Hstep) as Hc'.
  unfold zero_told in *; simpl in *. unfold small, count_exact in Hs, Hc.
  destruct Hstep as [l _ _|l us vs n H|l Hg|l us vs n H]; unfold upd in Hz; simpl in Hz.
  - left. destruct Hz as [?|[(u & [?|Hx%list_elem_of_singleton]%elem_of_app & Hu)|?]]; [by eauto 6..| |by eauto].
    subst u. simpl in Hu. unfold u64_add in Hu. rewrite wrap_u64_id in Hu by (unfold_ints; lia). lia.
  - left. rewrite H. setoid_rewrite elem_of_app. setoid_rewrite elem_of_cons. setoid_rewrite elem_of_app in Hz.
    destruct Hz as [->|[(u & Hu & ?)|?]]; [right; left; exists (Activating 0); auto|right; left; exists u; tauto|auto].
  - destruct Hz as [?|[(u & [?|Hx%list_elem_of_singleton]%elem_of_app & Hu)|?]]; [by eauto 6..| |by eauto].
    right. subst u. simpl in Hu. apply count_zero; [done|]. unfold u64_saturating_sub in Hu. simpl.
    rewrite wrap_u64_id by (unfold_ints; lia). lia.
  - left. rewrite H. setoid_rewrite elem_of_app. setoid_rewrite elem_of_cons. setoid_rewrite elem_of_app in Hz.
    destruct Hz as [->|[(u & Hu & ?)|?]]; [right; left; exists (Dropping 0); auto|right; left; exists u; tauto|auto].
Qed.

(** A zero told is an echo of a moment when nothing ran. *)
Lemma zero_told_past nested s :
  run nested started s → zero_told s →
  ∃ s0, run nested started s0 ∧ run nested s0 s ∧ nothing_runs (wa_live s0).
Proof.
  intros Hr. revert s Hr. apply (rtc_ind_r (λ s, zero_told s →
    ∃ s0, run nested started s0 ∧ run nested s0 s ∧ nothing_runs (wa_live s0))).
  { intros [?|[(u & ?%elem_of_nil & _)|?]]; done. }
  intros s s' Hr Hstep IH Hz. pose proof (watch_count nested s Hr) as Hc.
  assert (zero_told s ∨ nothing_runs (wa_live s')) as [Hold|Hnow].
  - destruct Hstep as [l l' a w Hs Hl|l a w|l a|l a ?|l a Hi|l a r]; simpl in *.
    + by eapply zero_told_step.
    + by left.
    + left. destruct Hz as [?|[?|?]]; [by left|by right; left|done].
    + left. destruct Hz as [?|[?|?]]; [by left|by right; left|done].
    + left. left. by apply Z.eqb_eq.
    + destruct Hz as [?|[?|Hq]]; [left; by left|left; by right; left|right].
      simpl in Hq. unfold after_threshold in Hq. apply count_zero; [done|].
      by destruct (Z.eqb_spec (al_active l) 0).
  - destruct (IH Hold) as (s0 & H0 & H1 & Hn). exists s0. split_and!; [done| |done]. by eapply rtc_r.
  - exists s'. split_and!; [by eapply rtc_r|done|done].
Qed.

(** Once the tracker is closed and nothing runs, or in a nested run, it stays like that. *)
Lemma nothing_stays_run nested s s' :
  nested = true ∨ wa_accepting s = false → run nested s s' → nothing_runs (wa_live s) →
  nothing_runs (wa_live s').
Proof.
  intros Hna Hr. induction Hr as [s|s s1 s2 Hstep _ IH]; [done|]. intros Hn. apply IH.
  - destruct Hna; [by left|right]. by destruct Hstep.
  - destruct Hstep; simpl in *; [by eapply nothing_stays|done..].
Qed.

Lemma nested_run_inv s : run true started s → nested_inv (wa_live s).
Proof.
  revert s. apply (rtc_ind_r (λ s, nested_inv (wa_live s))).
  - split; [done|]. intros _. split; [done|constructor].
  - intros s s' _ Hstep Hi. destruct Hstep; simpl in *; [by eapply nested_inv_step|done..].
Qed.

(** C24.  What the stuck watch reports.  Whatever the threads do, and whoever holds the
    attempt's context and starts tracked children with it while the tracker accepts them: when
    the grace period after a cancellation or a timeout is over, the handler is called if an
    execution of the attempt is live or starting, and not otherwise; a watch that has gone
    silent belongs to an attempt of which, at some moment since its start, nothing ran; and
    once the tracker is closed and nothing runs, nothing of it ever runs again.  In a run in
    which only live executions start further ones, so that no detached holder of the context
    does, a watch that has gone silent belongs to an attempt of which nothing runs now, and a
    zero is never in the channel while an execution is live or starting. *)
Theorem stuck_watch_reports_iff_running nested s :
  run nested started s →
  (∀ r, after_threshold env r threshold (wa_live s) =
      if bool_decide (al_guards (wa_live s) = 0%nat ∧ activations (wa_live s) = 0%nat) then Watch.Silent
      else Watch.Reported (mkStuckJobEvent env r (Z.max threshold 1000000)))
  ∧ (wa_watch s = Watch.Silent →
       ∃ s0, run nested started s0 ∧ run nested s0 s ∧ nothing_runs (wa_live s0))
  ∧ (∀ s', wa_accepting s = false → nothing_runs (wa_live s) → run nested s s' → nothing_runs (wa_live s'))
  ∧ (nested = true →
       (wa_watch s = Watch.Silent → nothing_runs (wa_live s))
       ∧ (idle_seen (wa_live s) = true → nothing_runs (wa_live s))).
Proof.
  intros Hr. assert (wa_watch s = Watch.Silent →
    ∃ s0, run nested started s0 ∧ run nested s0 s ∧ nothing_runs (wa_live s0)) as Hpast.
  { intros Hq. apply zero_told_past; [done|]. by right; right. }
  split_and!; [|done| |].
  - intros r. unfold after_threshold. pose proof (count_zero _ (watch_count _ _ Hr)) as Hz. unfold nothing_runs in Hz.
    case_bool_decide as Hn; destruct (Z.eqb_spec (al_active (wa_live s)) 0) as [E|E]; [done|tauto|tauto|done].
  - intros s' Ha Hn Hr'. eapply nothing_stays_run; [by right|done|done].
  - intros ->. split; [|by apply idle_is_idle, nested_run_inv].
    intros (s0 & _ & H1 & Hn)%Hpast. eapply nothing_stays_run; [by left|done|done].
Qed.
End reports.

(** Two executions that end together can leave a one behind: the child counts down to one, the
    handler to zero and sends it, then the child sends its one.  Nothing runs, and with the
    tracker closed no further step of the attempt is possible, yet [wait_idle] does not
    return. *)
Theorem watch_can_miss_the_end : ∃ l, rtc (live_step true true) (wa_live started) l ∧ nothing_runs l
  ∧ al_active l = 0 ∧ idle_seen l = false ∧ ∀ l', ¬ live_step true false l l'.
Proof.
  exists (mkLiveness 0 1 [] 0). split; [|split; [done|split; [done|split; [done|]]]].
  - eapply rtc_l; [by apply step_activate; simpl; [|lia]|].
    eapply rtc_l; [by eapply (step_activated _ _ _ [] [])|].
    eapply rtc_l; [apply step_drop; simpl; lia|]. eapply rtc_l; [apply step_drop; simpl; lia|].
    eapply rtc_l; [by eapply (step_dropped _ _ _ [Dropping 1] [])|].
    eapply rtc_l; [by eapply (step_dropped _ _ _ [] [])|]. apply rtc_refl.
  - intros l' H. inversion H; simplify_eq/=; try (by destruct us); try lia.
Qed.

(** A watch can go silent before the attempt ends: the handler returns, the watch sees the
    zero, and a task that kept the context starts a tracked child before the tracker closes.
    The child runs, and no watch is left to report it. *)
Theorem watch_can_miss_a_late_child env timeout_ms threshold : ∃ s,
  rtc (watch_step env timeout_ms threshold false) started s
  ∧ wa_watch s = Watch.Silent ∧ ¬ nothing_runs (wa_live s).
Proof.
  exists (mkWatched (mkLiveness 1 1 [] 1) true Watch.Silent).
  split; [|split; [done|by intros [? _]]].
  eapply rtc_l; [apply watch_live; [by vm_compute|by apply step_drop; simpl; lia]|].
  eapply rtc_l; [apply watch_live; [by vm_compute|by eapply (step_dropped _ _ _ [] [])]|].
  eapply rtc_l; [by apply watch_idle|].
  eapply rtc_l; [apply watch_live; [by vm_compute|by apply step_activate]|].
  eapply rtc_l; [apply watch_live; [by vm_compute|by eapply (step_activated _ _ _ [] [])]|].
  apply rtc_refl.
Qed.

(** The handler ignores its cancellation. *)
Lemma stuck_watch_reports_iff_running_witness :
  let s := mkWatched (wa_live started) true (Watch.Sleeping StuckReason.Cancellation) in
  rtc (watch_step default_envelope 0 5 true) started s
  ∧ after_threshold default_envelope StuckReason.Cancellation 5 (wa_live s)
    = Watch.Reported (mkStuckJobEvent default_envelope StuckReason.Cancellation 1000000).
Proof.
  assert (rtc (watch_step default_envelope 0 5 true) started
    (mkWatched (wa_live started) true (Watch.Sleeping StuckReason.Cancellation))) as H
    by (eapply rtc_l; [apply watch_cancelled|apply rtc_refl]).
  split; [exact H|]. destruct (stuck_watch_reports_iff_running _ _ _ _ _ H) as (E & _).
  rewrite E. reflexivity.
Defined.
