(* ===== verification/Isolated.v ===== *)
(** * headgate: handlers in a child process

    [crates/headgate/src/isolated.rs]: the request written to the child, the command and its
    environment, the bounded reading of its output, the response protocol and the outcome of the
    attempt.  The child is what it does to its pipes ([ChildRun]); [serde_json] and [base64] are
    parameters. *)

From S2P Require Import Prelude Shared Lifecycle Envelope MemStore Attempt ScheduleSpec SqlText Migrate MigrateDb Text.
Local Open Scope Z_scope.

Definition ISOLATED_PROTOCOL_PREFIX : string := "HEADGATE/1 ".
Definition DEFAULT_MAX_OUTPUT_BYTES : Z := 64 * 1024.

Record IsolatedRequest := mkIsolatedRequest {
  ir_version : Z; ir_job_id : string; ir_kind : string; ir_schema_version : Z;
  ir_payload_base64 : string; ir_queue : string; ir_partition_key : string; ir_rate_class : string;
  ir_weight : Z; ir_attempt : Z; ir_crash_attempt : Z; ir_max_attempts : Z; ir_fence : Z;
  ir_deadline_ms : Z;
}.

Module IsolatedOutcome.
Inductive IsolatedOutcome := Success | Retry | Skip | Revoke | Snooze | RateLimited | Undecodable.
End IsolatedOutcome.

Record IsolatedResponse := mkIsolatedResponse {
  is_version : Z; is_outcome : IsolatedOutcome.IsolatedOutcome; is_error : string; is_delay_ms : Z;
}.

Record IsolatedProcess := mkIsolatedProcess {
  ip_program : string; ip_args : list string; ip_env : gmap string string;
  ip_inherit_env : bool; ip_max_output_bytes : Z;
}.

#[export] Instance isolated_process_eta : Eta IsolatedProcess := λ p,
  mkIsolatedProcess (ip_program p) (ip_args p) (ip_env p) (ip_inherit_env p) (ip_max_output_bytes p).

Definition new_process (program : string) : IsolatedProcess :=
  mkIsolatedProcess program [] ∅ false DEFAULT_MAX_OUTPUT_BYTES.
Definition process_arg (arg : string) (p : IsolatedProcess) : IsolatedProcess := p <| ip_args := ip_args p ++ [arg] |>.
Definition process_env (key value : string) (p : IsolatedProcess) : IsolatedProcess :=
  p <| ip_env := <[key := value]> (ip_env p) |>.
Definition inherit_env (inherit : bool) (p : IsolatedProcess) : IsolatedProcess := p <| ip_inherit_env := inherit |>.
Definition max_output_bytes (n : Z) (p : IsolatedProcess) : IsolatedProcess := p <| ip_max_output_bytes := n |>.

Definition validate_process (p : IsolatedProcess) : result unit string :=
  if String.eqb (ip_program p) "" then Err "isolated process program must not be empty"
  else if ip_max_output_bytes p =? 0 then Err "isolated process max_output_bytes must be greater than zero"
  else Ok tt.

(** The environment the command starts the child with, in a worker whose own is [worker]. *)
Definition child_env (p : IsolatedProcess) (worker : gmap string string) : gmap string string :=
  ip_env p ∪ (if ip_inherit_env p then worker else ∅).

(** [read_bounded] on a pipe: all it carries up to its end, or the error reading it ends with. *)
Definition read_bounded (pipe : result bytes string) (max : Z) : result (bytes * bool) string :=
  match pipe with
  | Err e => Err e
  | Ok all =>
      let b := take_bytes (Z.to_nat (Z.min (u64_saturating_add max 1) (str_len all))) all in
      let overflow := max <? str_len b in
      Ok (if overflow then take_bytes (Z.to_nat max) b else b, overflow)
  end.

Definition message_error (m : string) : JobError.JobError := JobError.Other m.

Section isolated.
Context (base64 : bytes → string).
Context (request_json : IsolatedRequest → result bytes string).
Context (response_json : bytes → result IsolatedResponse string).

Definition isolated_request (ctx : JobCtx) (env : Envelope) : IsolatedRequest :=
  mkIsolatedRequest 1 (e_id env) (e_kind env) (e_schema_version env) (base64 (e_payload env)) (e_queue env)
    (e_partition_key env) (e_rate_class env) (effective_weight (e_weight env)) (e_attempt env)
    (e_crash_attempt env) (e_max_attempts env) (lr_fence (jc_lease ctx)) (e_deadline_ms env).

(** The last line with the prefix. *)
Definition parse_response (stdout : bytes) : result IsolatedResponse JobError.JobError :=
  match head (omap (strip_prefix ISOLATED_PROTOCOL_PREFIX) (rev (split_lines stdout))) with
  | None => Err (message_error "isolated handler emitted no HEADGATE/1 response")
  | Some body =>
      match response_json body with
      | Err e => Err (message_error e)
      | Ok response =>
          if negb (is_version response =? 1)
          then Err (message_error ("isolated handler response version " +:+ pretty (is_version response)
                                   +:+ " is unsupported")%stdpp)
          else Ok response
      end
  end.

Definition response_result (r : IsolatedResponse) : result unit JobError.JobError :=
  match is_outcome r with
  | IsolatedOutcome.Success => Ok tt
  | IsolatedOutcome.Retry =>
      Err (message_error (if String.eqb (is_error r) "" then "isolated handler requested retry" else is_error r))
  | IsolatedOutcome.Skip => Err (JobError.Control Control.Skip)
  | IsolatedOutcome.Revoke => Err (JobError.Control Control.Revoke)
  | IsolatedOutcome.RateLimited => Err (JobError.Control Control.RateLimited)
  | IsolatedOutcome.Snooze =>
      Err (JobError.Control (Control.Snooze ((if is_delay_ms r <? 0 then 0 else is_delay_ms r) * 1000000)))
  | IsolatedOutcome.Undecodable =>
      Err (JobError.Codec (CodecError.Malformed
        (if String.eqb (is_error r) "" then "isolated handler rejected payload" else is_error r)))
  end.

(** What running the command comes to: a failed [spawn], or the pipes and the exit status.  A
    failed write carries whether it is a broken pipe. *)
Record ChildRun := mkChildRun {
  ch_write : option (bool * string);
  ch_stdout : result bytes string;
  ch_stderr : result bytes string;
  ch_status : result (bool * string) string;
}.

Definition finish_request (p : IsolatedProcess) (c : ChildRun) : result unit JobError.JobError :=
  let max := ip_max_output_bytes p in
  match ch_write c with
  | Some (false, e) => Err (message_error e)
  | _ =>
      match read_bounded (ch_stdout c) max, read_bounded (ch_stderr c) max with
      | Err e, _ => Err (message_error e)
      | Ok _, Err e => Err (message_error e)
      | Ok (stdout, stdout_overflow), Ok (stderr, stderr_overflow) =>
          if stdout_overflow || stderr_overflow
          then Err (message_error ("isolated handler output exceeded " +:+ pretty max +:+ " bytes")%stdpp)
          else
            match ch_status c with
            | Err e => Err (message_error e)
            | Ok (success, status) =>
                if negb success
                then Err (message_error ("isolated handler exited with " +:+ status +:+ ": "
                                         +:+ trim (from_utf8_lossy stderr))%stdpp)
                else
                  match parse_response stdout with
                  | Err e => Err e
                  | Ok response => response_result response
                  end
            end
      end
  end.

(** [command] runs a program with its arguments, environment and input. *)
Definition execute_request (command : string → list string → gmap string string → bytes → result ChildRun string)
    (worker : gmap string string) (p : IsolatedProcess) (request : IsolatedRequest) : result unit JobError.JobError :=
  match request_json request with
  | Err e => Err (message_error e)
  | Ok input =>
      match command (ip_program p) (ip_args p) (child_env p worker) input with
      | Err e => Err (message_error e)
      | Ok child => finish_request p child
      end
  end.

(** [IsolatedHandler::call]. *)
Definition execute_isolated (command : string → list string → gmap string string → bytes → result ChildRun string)
    (worker : gmap string string) (p : IsolatedProcess) (ctx : JobCtx) (env : Envelope) : result unit JobError.JobError :=
  execute_request command worker p (isolated_request ctx env).
End isolated.

(** ** Theorems *)

(** Reading is exact: everything up to the bound, and [overflow] when there is more. *)
Lemma read_bounded_exact all max : 0 ≤ max < u64_max →
  read_bounded (Ok all) max = Ok (take_bytes (Z.to_nat max) all, max <? str_len all).
Proof.
  intros Hm. unfold read_bounded, u64_saturating_add. rewrite (Z.min_r u64_max) by lia.
  assert (str_len all = Z.of_nat (String.length all)) as Hl by done.
  destruct (Z.ltb_spec max (str_len all)) as [Hlt|Hge].
  - set (b := take_bytes _ all). assert (str_len b = max + 1) as Hb.
    { subst b. unfold str_len. rewrite take_bytes_length. lia. }
    rewrite Hb, (proj2 (Z.ltb_lt _ _)) by lia. subst b. rewrite take_bytes_take by lia. do 3 f_equal; lia.
  - rewrite take_bytes_all by lia. rewrite (proj2 (Z.ltb_ge _ _)) by lia. by rewrite take_bytes_all by lia.
Qed.

Lemma head_omap_rev {A B} (f : A → option B) l b :
  head (omap f (rev l)) = Some b ↔
  ∃ front x back, l = front ++ x :: back ∧ f x = Some b ∧ Forall (λ y, f y = None) back.
Proof.
  induction l as [|x l IH] using rev_ind.
  { split; [done|]. intros (front & x & back & H & _). by destruct front. }
  rewrite rev_unit. csimpl. destruct (f x) as [b'|] eqn:E; csimpl.
  - split.
    + intros [= <-]. exists l, x, []. done.
    + intros (front & y & back & H & Hy & Hb). destruct back as [|z back _] using rev_ind.
      * apply app_inj_2 in H as [_ H]; [|done]. injection H as <-. congruence.
      * rewrite app_comm_cons, app_assoc in H. apply app_inj_2 in H as [_ H]; [|done]. injection H as <-.
        apply Forall_app in Hb as [_ Hb]. inversion_clear Hb. congruence.
  - rewrite IH. split.
    + intros (front & y & back & -> & Hy & Hb). exists front, y, (back ++ [x]). split_and!; [by rewrite <-app_assoc|done|].
      apply Forall_app. split; [done|]. by constructor.
    + intros (front & y & back & H & Hy & Hb). destruct back as [|z back _] using rev_ind.
      * apply app_inj_2 in H as [_ H]; [|done]. injection H as <-. congruence.
      * rewrite app_comm_cons, app_assoc in H. apply app_inj_2 in H as [H _]; [|done].
        apply Forall_app in Hb as [Hb _]. exists front, y, back. done.
Qed.

Section theorems.
Context (base64 : bytes → string) (request_json : IsolatedRequest → result bytes string)
  (response_json : bytes → result IsolatedResponse string).
Context (command : string → list string → gmap string string → bytes → result ChildRun string).
Context (worker : gmap string string).

(** The child [p] starts for this job. *)
Definition child_of (p : IsolatedProcess) (ctx : JobCtx) (env : Envelope) (c : ChildRun) : Prop :=
  ∃ input, request_json (isolated_request base64 ctx env) = Ok input
    ∧ command (ip_program p) (ip_args p) (child_env p worker) input = Ok c.

(** The last protocol line of an output, without its prefix. *)
Definition last_response (out body : bytes) : Prop := ∃ front back,
  split_lines out = front ++ (ISOLATED_PROTOCOL_PREFIX +:+ body)%stdpp :: back
  ∧ Forall (λ l, strip_prefix ISOLATED_PROTOCOL_PREFIX l = None) back.

Lemma last_response_found out body :
  head (omap (strip_prefix ISOLATED_PROTOCOL_PREFIX) (rev (split_lines out))) = Some body ↔ last_response out body.
Proof.
  rewrite head_omap_rev. unfold last_response. split.
  - intros (front & x & back & H & Hx & Hb). apply strip_prefix_app in Hx as <-. eauto.
  - intros (front & back & H & Hb). do 3 eexists. split; [exact H|]. by rewrite strip_prefix_intro.
Qed.

Lemma parse_response_Ok out response : parse_response response_json out = Ok response ↔
  ∃ body, last_response out body ∧ response_json body = Ok response ∧ is_version response = 1.
Proof.
  unfold parse_response. split.
  - destruct (head _) as [body|] eqn:Hh; [|done]. apply last_response_found in Hh.
    destruct (response_json body) as [r|] eqn:Hr; [|done]. destruct (Z.eqb_spec (is_version r) 1) as [E|]; [|done].
    intros [= <-]. eauto.
  - intros (body & Hl & Hr & Hv). apply last_response_found in Hl. by rewrite Hl, Hr, Hv.
Qed.

Lemma response_success r : response_result r = Ok tt ↔ is_outcome r = IsolatedOutcome.Success.
Proof. unfold response_result. by destruct (is_outcome r). Qed.

(** The outputs a child may end with. *)
Definition child_succeeded (max : Z) (c : ChildRun) : Prop := ∃ out err status body response,
  (∀ e, ch_write c ≠ Some (false, e)) ∧ ch_stdout c = Ok out ∧ ch_stderr c = Ok err ∧ ch_status c = Ok (true, status)
  ∧ str_len out ≤ max ∧ str_len err ≤ max ∧ last_response out body
  ∧ response_json body = Ok response ∧ is_version response = 1 ∧ is_outcome response = IsolatedOutcome.Success.

Lemma finish_request_Ok p c : 0 ≤ ip_max_output_bytes p < u64_max →
  finish_request response_json p c = Ok tt ↔ child_succeeded (ip_max_output_bytes p) c.
Proof.
  intros Hm. unfold finish_request. split.
  - intros H. destruct c as [w so se st]. cbn [ch_write ch_stdout ch_stderr ch_status] in *.
    assert (∀ e, w ≠ Some (false, e)) as Hw by (by intros e ->).
    destruct so as [out|], se as [err|]; rewrite ?read_bounded_exact in H by done; cbn [read_bounded] in H;
      try by destruct w as [[[] ?]|].
    destruct (Z.ltb_spec (ip_max_output_bytes p) (str_len out)); [by destruct w as [[[] ?]|]|].
    destruct (Z.ltb_spec (ip_max_output_bytes p) (str_len err)); [by destruct w as [[[] ?]|]|]. cbn [orb] in H.
    rewrite (take_bytes_all _ out) in H by (unfold str_len in *; lia).
    destruct st as [[[] st]|]; [|by destruct w as [[[] ?]|]..]. cbn [negb] in H.
    destruct (parse_response response_json out) as [r|] eqn:Hp; [|by destruct w as [[[] ?]|]].
    apply parse_response_Ok in Hp as (body & Hl & Hr & Hv). exists out, err, st, body, r.
    split_and!; try done. apply response_success. by destruct w as [[[] ?]|].
  - intros (out & err & st & body & r & Hw & Hso & Hse & Hst & Ho & He & Hl & Hr & Hv & Hs).
    rewrite Hso, Hse, Hst, !read_bounded_exact by done. rewrite !(proj2 (Z.ltb_ge _ _)) by done. cbn [orb negb].
    rewrite (take_bytes_all _ out) by (unfold str_len in *; lia).
    rewrite (proj2 (parse_response_Ok out r)) by eauto. rewrite (proj2 (response_success r)) by done.
    destruct (ch_write c) as [[[] e]|]; [done| |done]. by destruct (Hw e).
Qed.

(** C36.  An isolated job succeeds exactly when its child says so, in full: the child was
    started with the job's request and took it (or closed its input early), both of its outputs
    ended within the configured bound, it exited with success, and the last line it wrote with
    the protocol prefix is a version-1 response of success.  And unless the process is
    configured to inherit it, the child sees nothing of the worker's environment but the
    variables configured for it. *)
Theorem isolated_success_exact p ctx env :
  0 ≤ ip_max_output_bytes p < u64_max →
  (execute_isolated base64 request_json response_json command worker p ctx env = Ok tt ↔
   ∃ c, child_of p ctx env c ∧ child_succeeded (ip_max_output_bytes p) c)
  ∧ ∀ k, ip_inherit_env p = false → child_env p worker !! k = ip_env p !! k.
Proof.
  intros Hm. split; [|intros k Hk; unfold child_env; by rewrite Hk, (right_id_L ∅ (∪))].
  unfold execute_isolated, execute_request, child_of. split.
  - destruct (request_json _) as [input|] eqn:Hi; [|done]. destruct (command _ _ _ _) as [c|] eqn:Hc; [|done].
    intros H. exists c. split; [eauto|]. by apply finish_request_Ok.
  - intros (c & (input & -> & ->) & Hs). by apply finish_request_Ok.
Qed.
End theorems.

(** A child that logs, answers an earlier draft and then succeeds. *)
Definition demo_output : bytes :=
  ("log line" +:+ str1 (byte_of 10) +:+ "HEADGATE/1 retry" +:+ str1 (byte_of 10)
   +:+ "HEADGATE/1 ok" +:+ str1 (byte_of 10))%stdpp.
Definition demo_response (b : bytes) : result IsolatedResponse string :=
  if String.eqb b "ok" then Ok (mkIsolatedResponse 1 IsolatedOutcome.Success "" 0)
  else if String.eqb b "retry" then Ok (mkIsolatedResponse 1 IsolatedOutcome.Retry "" 0)
  else Err "expected value".
Definition demo_command (_ : string) (_ : list string) (env : gmap string string) (_ : bytes) : result ChildRun string :=
  match env !! "PATH" with
  | Some _ => Err "the environment is not clear"
  | None => Ok (mkChildRun (Some (true, "broken pipe")) (Ok demo_output) (Ok "") (Ok (true, "exit status: 0")))
  end.

Lemma isolated_success_exact_witness :
  ∃ c, child_of id (λ r, Ok (ir_payload_base64 r)) demo_command {[ "PATH" := "/bin" ]} (new_process "handler")
         (mkJobCtx (mkLeaseRef "j" "l" 1) false false None None (mkLogBuffer [] false)) default_envelope c
       ∧ child_succeeded demo_response 65536 c.
Proof.
  apply (isolated_success_exact id (λ r, Ok (ir_payload_base64 r)) demo_response demo_command {[ "PATH" := "/bin" ]}
    (new_process "handler")); [vm_compute; split; [discriminate|reflexivity]|vm_compute; reflexivity].
Defined.
